(* ===== verification/_CoqProject ===== *)
-Q . S2P
Prelude.v
Memory.v
StdMap.v
Guid.v
Qos.v
Frame.v
Fragment.v
Reassembler.v
ReassemblerRef.v
ReaderImpl.v
WriterImpl.v
Reliability.v
Discovery.v
Wire.v
Participant.v
ParticipantFacts.v
Matching.v
Session.v
Locked.v
Interleave.v
ThreadSafe.v
Races.v
DataPath.v
Publish.v
Graph.v
Channel.v
Integrity.v
Network.v
Truthful.v
Bus.v
PoolNet.v
Convergence.v
Repair.v
Listener.v
SendLane.v
TransportUdp.v
TransportDsoftbus.v
DsoftbusThreads.v
DsoftbusLanes.v
Stack.v
E2e.v
Probe.v
