(* ===== verification/Prelude.v ===== *)
(** * Verification of mdds, a small publish/subscribe middleware

    mdds connects processes (participants) that publish and subscribe to typed topics.
    A participant owns writers and readers, discovers other participants through
    periodic ANNOUNCE frames, sends samples as DATA or DATA_FRAG frames over byte-pipe
    transports (UDP, DSoftBus), and repairs losses with HEARTBEAT, ACKNACK and GAP
    frames.  This library models that code as executable functions on the data the
    code keeps and proves what makes each part correct.

    ** How the code is modelled

    - Machine integers are [Z]; every operation that can wrap is written with its width
      ([u8], [u16], [u32], [u64]), and [fits w z] says that [z] is in range.
    - Buffers are lists of bytes.  A read or write outside a buffer is undefined
      behaviour: computations return [res A], one of [Done a], [Fail] (the C++ function
      returned false) and [UB].  Theorems that claim safety show that [UB] is not
      reached.
    - [std::map] and [std::set] are association lists in key order ([StdMap]), so
      iteration order is the code's.
    - A participant's operations are computations [act T A] over a [World]: its tables,
      its transports (instances of the class [Transport]), its clocks (a function from
      the number of readings to a value) and the callbacks fired.  Writers and readers
      are named by their addresses, as in the code.
    - A participant's operations are modelled twice.  In [Participant] each is one
      computation, and [Session] takes them one after the other.  In [Locked] each is a
      program of lock regions and single accesses (a reader's queue, a clock, a send, a
      callback), and [Interleave] runs the programs of any number of calls in flight in
      any order the lock [mutex_] allows.  The first is what the second does when no
      other thread disturbs a call ([undisturbed_call]).
    - The other threads are step relations too: the lanes of a transport ([SendLane]), the
      two threads of the UDP backend and the calls of the DSoftBus backend, these once more
      cut at their critical sections, with lanes as objects and workers that a shutdown or a
      stop waits for ([DsoftbusThreads]).
    - A network is a list of participants; what a participant receives is a frame some
      participant handed to a transport, or a foreign one that does not pose as a frame of
      these participants.  In [Network] a participant is a world and one step runs one
      operation; in [PoolNet] it is a pool of calls in flight and one step is one act of a
      call, or something a backend does by itself; in [Stack] the backends are the program's
      own, and what arrives are datagrams they sent.

    ** Files

    - [Prelude], [Memory], [StdMap]: integers and lists, results, byte buffers, maps.
    - [Guid] (include/mdds/guid.hpp, src/frame.cpp): entity identifiers.
    - [Qos] (qos.hpp, qos.cpp): profiles, their wire form, compatibility.
    - [Frame] (frame.hpp, frame.cpp): every frame but ANNOUNCE, with the TLV trailer.
    - [Fragment], [Reassembler] (fragment.hpp, fragment.cpp): splitting samples into
      frames, interval-based reassembly, the time-out sweep.  [ReassemblerRef]: the
      reference reassembler, one optional byte per offset.
    - [ReaderImpl], [WriterImpl] (src/participant.cpp): the receive window and queue of
      a reader; numbering, history and the answer to an ACKNACK of a writer.
    - [Reliability]: one round of ACKNACK, retransmission and GAP between the two.
    - [Discovery] (discovery.hpp, discovery.cpp): the ANNOUNCE frame.  [Wire]: encoders
      turn well-typed fields into bytes.
    - [Participant] (src/participant.cpp): the participant's tables and all operations.
    - [ParticipantFacts]: rules for computations, the invariant of the tables, and that
      every operation keeps it.  [Matching]: the match counts.
    - [Session]: operations as steps, reachable states and their invariants.
    - [Locked]: the operations as programs over [mutex_].  [Interleave]: pools of calls in
      flight, and a rely-guarantee logic for them.  [ThreadSafe]: every operation in that
      logic, and what follows for pools.  [Races]: schedules that go wrong or reorder.
    - [DataPath], [Publish]: delivery of a sample to the readers, what a write hands to
      the transports, and the two together.
    - [Graph]: effects of announcements and departures, with the frames replayed to new
      readers; send targets.
    - [Channel]: what a reader promises, an abstract delivery channel that every reader
      operation implements.  [Integrity]: computations keep a participant truthful and
      well typed.  [Network]: networks, their invariant.  [Bus]: the abstract bus a
      network implements, and an executable network for the examples.
    - [Truthful]: the same logic for the programs of [Locked], whatever is published
      meanwhile.  [PoolNet]: networks of participants whose calls overlap.
    - [Convergence]: discovery over a network.  [Repair]: one exchange of heartbeat,
      ACKNACK and answer over a network.
    - [Listener], [SendLane], [TransportUdp], [TransportDsoftbus] (transport.hpp,
      send_lane.hpp, transport_udp.cpp, transport_dsoftbus.cpp): the backends.
      [DsoftbusThreads], [DsoftbusLanes]: the threads of the DSoftBus backend, their
      invariant, and what it gives.  [Stack]: the
      two of them as an instance of [Transport], participants as [create] builds them over
      them, and the network of all that.
    - [E2e] (examples/mdds_e2e.cpp): the talker and the listener of the example.
      [Probe] (examples/dsoftbus_probe.c): the calls the SoftBus probe makes.

    ** What is proved

    - Codecs: every frame, QoS profile and snapshot round-trips, and decoders stay
      inside the buffer on any bytes ([FrameSpec], [QosSpec], [DiscoverySpec]).
    - Fragmentation: frames fit the channel; fragments in any order, duplicated or
      interleaved with others, give the sample back once ([FragmentSpec],
      [ReassemblerSpec]); merging intervals delivers what filling in single bytes does
      ([ReassemblerRefSpec]).
    - Readers and writers: no sample is queued twice, reordering within the window
      heals, NACK state and GAPs are exact, queues are bounded, histories are the last
      numbers without holes ([ReaderSpec], [WriterSpec]); one repair round closes or
      gives up every number it asked for ([ReliabilitySpec]).
    - Participants: no sequence of calls and frames leaves a buffer or breaks a table,
      match counts equal the number of matching endpoints of the graph, GUIDs name one
      entity ([SessionSpec]); announcements and departures change exactly what they
      should and nothing else, and send targets are exact ([GraphSpec]); a write reaches every matched reader of a remote
      participant exactly once whatever the order of its frames ([PublishSpec]).
    - Threads: calls that overlap in any order neither leave a buffer, use a destroyed
      entity nor misuse the lock, provided no entity is destroyed while another call may
      use it; nothing deadlocks and every call returns; nothing that [mutex_] guards
      changes without it; match counts are exact whenever no call is in flight, in runs
      without announcements that change only a QoS ([ThreadSafeSpec]).
    - Networks: a network of participants, however its threads interleave and however it
      loses, repeats, reorders and misdirects frames, implements a bus of channels that
      deliver published samples with their bytes and a number at most once; well-typed
      networks do not go wrong ([PoolNetSpec], and [BusSpec] for whole operations); whatever
      calls are in flight, the threads can be scheduled so that an announce turn, whose frame
      fits and is taken by the transport, makes the receiver's graph exact
      ([ConvergenceSpec]) and so that one exchange of heartbeat,
      ACKNACK and answer closes or gives up every number asked about ([RepairSpec]).
    - The whole program: participants over their real backends, with all the threads of
      both, implement that network and so the bus; a UDP link passes frames on whole and
      under the right identity ([StackSpec]).
    - The example: the listener's counts and exit code are exact, and with one talker it
      never counts a duplicate ([E2eSpec]).  The probe shuts down every socket it sends
      on ([ProbeSpec]).
    - Backends: lanes are FIFO, bounded and end when stopped ([SendLaneSpec]); up and
      down reports add up with the peer tables ([UdpSpec], [DsoftbusSpec]); the threads of
      the DSoftBus backend send frames in order, to the right node and at most once, all its
      calls return, and an undisturbed call is the step of [TransportDsoftbus]
      ([DsoftbusLanesSpec]).

    Where the code does something else than it means to, a theorem outside the list
    above exhibits it: [prefix_overflows], [add_fragment_wraps],
    [encode_data_length_wraps], [window_stalls_after_gap], [jump_counts_received],
    [qos_change_unnoticed], [late_peer_down], [listen_shutdown_wedges],
    [budget_overshoot], [short_payload_collides], [destroy_races_delivery],
    [destroy_races_write], [publication_times_overtake], [local_delivery_reorders],
    [oversize_announce_lost], [reused_descriptor_misdelivers], [bind_after_stop].

    ** Bounds and fuel

    [slide] gets 64 units of fuel, one per bit of the window ([slide_done]);
    [fragment_loop] one per payload byte and one more, since each turn consumes at least
    a byte ([fragment_loop_spec]); [run] of a stopped lane one per queued frame and one
    more ([run_stops]); [digits] ten, as many as an [int] has;
    [announce_loop] as many turns as asked for, because the code's loop ends only with the
    participant.  The turns left to the threads of the DSoftBus backend are a number
    ([cost]); every turn lowers it.

    ** Not modelled

    The C++ memory model: an act of [Locked] is one access under a lock, one atomic access or
    one call outside, and acts are sequentially consistent; the match counts, atomics that
    [recompute_matches] stores one by one under the lock, change in one act.  A callback is
    an event; what an application calls from inside one is a call of its own.  Transports
    that come up while [start_transport] still runs.  The theorems about whole exchanges
    ([Convergence], [Repair]) start in the middle of any overlapping calls, but let the
    calls of the exchange itself run without another act in between.  [Stack] takes the
    calls of the DSoftBus backend whole, as [undisturbed_bus_call] justifies for a call that
    runs by itself.

    Real time and blocking (the announce period, waits on condition variables, thread
    start-up and joining), socket calls and the SoftBus service (parameters), random
    numbers (a parameter), the Windows branches, debug and console output and the
    unit tests. *)

From stdpp Require Export base list numbers option sorting.
From Stdlib Require Export ZArith Lia.

(** ** Machine integers

    A [uintN_t] is a [Z]; [uN] is the conversion C++ performs on assignment to
    an [N]-bit unsigned type and [fits N z] says that [z] is such a value. *)

Declare Scope mdds_scope.
Delimit Scope mdds_scope with mdds.
#[global] Open Scope Z_scope.
#[global] Open Scope mdds_scope.

Definition wrap (w z : Z) : Z := z mod 2 ^ w.
Abbreviation u8 := (wrap 8).
Abbreviation u16 := (wrap 16).
Abbreviation u32 := (wrap 32).
Abbreviation u64 := (wrap 64).

Definition fits (w z : Z) : Prop := 0 <= z < 2 ^ w.

#[global] Instance fits_dec w z : Decision (fits w z).
Proof. unfold fits. apply _. Defined.

(** The length of a buffer as a [size_t]. *)
Abbreviation len l := (Z.of_nat (length l)).

(** Every element of a buffer is a byte. *)
Definition bytes_ok (l : list Z) : Prop := Forall (fits 8) l.

(** ** Automation *)

Create HintDb mdds.
Create Rewrite HintDb mdds_len.

(** Decide linear goals about widths, [fits] and buffer lengths. *)
Ltac ulia :=
  unfold fits, wrap in *; change (2 ^ 8) with 256 in *;
  change (2 ^ 16) with 65536 in *; change (2 ^ 32) with 4294967296 in *;
  change (2 ^ 56) with 72057594037927936 in *;
  change (2 ^ 64) with 18446744073709551616 in *;
  first [lia | Z.to_euclidean_division_equations; lia].

(** Compute the length of a concatenation of encoded fields. *)
Ltac solve_len :=
  autorewrite with mdds_len in *; rewrite ?length_app in *;
  autorewrite with mdds_len in *; simpl length in *; ulia.

(** Case analysis on a test of the model, keeping the equation. *)
Ltac case_if :=
  match goal with
  | |- context [if decide ?P then _ else _] => destruct (decide P)
  | |- context [if ?b then _ else _] => let E := fresh "E" in destruct b eqn:E
  end.

(** Turn boolean comparisons into propositions. *)
Ltac zbool :=
  repeat (progress (rewrite ?andb_true_iff, ?andb_false_iff, ?orb_true_iff,
    ?orb_false_iff, ?negb_true_iff, ?negb_false_iff, ?Z.eqb_eq, ?Z.eqb_neq,
    ?Z.leb_le, ?Z.leb_gt, ?Z.ltb_lt, ?Z.ltb_ge in *)).

Lemma wrap_fits w z : 0 <= w -> fits w (wrap w z).
Proof. intros. apply Z.mod_pos_bound. lia. Qed.

Lemma wrap_id w z : fits w z -> wrap w z = z.
Proof. apply Z.mod_small. Qed.

Lemma fits_weaken w w' z : fits w z -> w <= w' -> fits w' z.
Proof.
  unfold fits. intros H Hle.
  pose proof (Z.pow_le_mono_r 2 w w'). lia.
Qed.

#[export] Hint Resolve wrap_fits fits_weaken : mdds.

Lemma bytes_ok_check l : forallb (fun b => (0 <=? b) && (b <? 256)) l = true -> bytes_ok l.
Proof.
  intros Hl. apply Forall_forall. intros b Hb. apply list_elem_of_In in Hb.
  apply forallb_forall with (x := b) in Hl; [|done]. zbool. ulia.
Qed.

(** ** Bits of machine words *)

Lemma land_255 z : Z.land z 255 = z mod 256.
Proof. apply (Z.land_ones z 8). lia. Qed.

Lemma land_1 z : Z.land z 1 = z mod 2.
Proof. apply (Z.land_ones z 1). lia. Qed.

Lemma shiftl_lor_add a b n :
  0 <= n -> 0 <= b < 2 ^ n -> Z.lor (Z.shiftl a n) b = a * 2 ^ n + b.
Proof.
  intros Hn Hb. rewrite <- Z.shiftl_mul_pow2 by lia.
  rewrite <- (Z.add_nocarry_lor (Z.shiftl a n) b); [done|].
  apply Z.bits_inj'. intros i Hi. rewrite Z.land_spec, Z.bits_0.
  destruct (Z.lt_ge_cases i n).
  - by rewrite Z.shiftl_spec_low.
  - rewrite <- (Z.mod_small b (2 ^ n)) by lia.
    rewrite Z.mod_pow2_bits_high by lia. apply andb_false_r.
Qed.

Lemma testbit_above_fits w z i : fits w z -> 0 <= w <= i -> Z.testbit z i = false.
Proof.
  intros Hz Hi. rewrite <- (wrap_id w z Hz).
  apply Z.mod_pow2_bits_high. lia.
Qed.

(** [x & (1 << i)] tests bit [i]. *)
Lemma land_shiftl_1 x i :
  0 <= i -> (Z.land x (Z.shiftl 1 i) =? 0) = negb (Z.testbit x i).
Proof.
  intros Hi. destruct (Z.testbit x i) eqn:Hx; simpl.
  - apply Z.eqb_neq. intros H0. apply (f_equal (fun z => Z.testbit z i)) in H0.
    rewrite Z.land_spec, Z.shiftl_spec, Z.sub_diag, Hx, Z.bits_0 in H0 by lia. done.
  - apply Z.eqb_eq. apply Z.bits_inj'. intros j Hj.
    rewrite Z.land_spec, Z.bits_0, Z.shiftl_1_l, Z.pow2_bits_eqb by lia.
    destruct (Z.eqb_spec i j) as [->|]; [by rewrite Hx|apply andb_false_r].
Qed.

Lemma lor_shiftl_1_spec x i j :
  0 <= i -> 0 <= j ->
  Z.testbit (Z.lor x (Z.shiftl 1 i)) j = Z.testbit x j || (i =? j).
Proof.
  intros. by rewrite Z.lor_spec, Z.shiftl_1_l, Z.pow2_bits_eqb by lia.
Qed.

Lemma fits_of_bits w z :
  0 <= w -> 0 <= z -> (forall i, w <= i -> Z.testbit z i = false) -> fits w z.
Proof.
  intros Hw Hz H. split; [done|].
  destruct (decide (z = 0)) as [->|]; [lia|].
  apply Z.log2_lt_pow2; [lia|].
  apply Z.nle_gt. intros Hle. specialize (H _ Hle).
  rewrite Z.bit_log2 in H by lia. done.
Qed.

Lemma fits_lor w a b : 0 <= w -> fits w a -> fits w b -> fits w (Z.lor a b).
Proof.
  intros Hw Ha Hb. apply fits_of_bits; [done|apply Z.lor_nonneg; unfold fits in *; lia|].
  intros i Hi. rewrite Z.lor_spec.
  by rewrite (testbit_above_fits w a), (testbit_above_fits w b) by (done || lia).
Qed.

Lemma fits_shiftr w z n : 0 <= n -> fits w z -> fits w (Z.shiftr z n).
Proof.
  intros Hn [? ?]. split; [by apply Z.shiftr_nonneg|].
  rewrite Z.shiftr_div_pow2 by lia.
  apply Z.le_lt_trans with z; [|done].
  apply Z.div_le_upper_bound; [lia|]. nia.
Qed.

Lemma fits_pow2 w i : 0 <= i < w -> fits w (Z.shiftl 1 i).
Proof.
  intros. rewrite Z.shiftl_1_l. split; [lia|]. apply Z.pow_lt_mono_r; lia.
Qed.

#[export] Hint Resolve fits_lor fits_shiftr fits_pow2 : mdds.

(** ** Outcomes

    [Done a] is a normal result, [Fail] the error return of the code ([false],
    [nullptr] or an empty result) and [UB] an access outside a buffer, which
    C++ leaves undefined.  Proving that an operation is never [UB] is proving
    it memory safe. *)

Inductive res (A : Type) : Type :=
| Done (a : A)
| Fail
| UB.
Arguments Done {A} _.
Arguments Fail {A}.
Arguments UB {A}.

#[global] Instance res_ret : MRet res := fun A a => Done a.
#[global] Instance res_bind : MBind res := fun A B k m =>
  match m with Done a => k a | Fail => Fail | UB => UB end.

#[global] Instance res_eq_dec {A} `{EqDecision A} : EqDecision (res A).
Proof. solve_decision. Defined.

(** One step of a computation that succeeds. *)
Lemma bind_done {A B} (m : res A) (a : A) (k : A -> res B) (r : res B) :
  m = Done a -> k a = r -> m ≫= k = r.
Proof. by intros -> <-. Qed.

Lemma bind_Done_inv {A B} (m : res A) (k : A -> res B) (b : B) :
  m ≫= k = Done b -> exists a, m = Done a /\ k a = Done b.
Proof. destruct m as [a| |]; simpl; [by exists a|done..]. Qed.

(** Invert a successful computation, one bind at a time. *)
Ltac inv_done H :=
  repeat (apply bind_Done_inv in H; let a := fresh "v" in let E := fresh "E" in
    destruct H as (a & E & H); cbv beta in H).

(** [safe P r]: no undefined behaviour, and a normal result satisfies [P]. *)
Definition safe {A} (P : A -> Prop) (r : res A) : Prop :=
  match r with Done a => P a | Fail => True | UB => False end.

Lemma safe_bind {A B} (Q : A -> Prop) (P : B -> Prop) (m : res A) (k : A -> res B) :
  safe Q m -> (forall a, Q a -> safe P (k a)) -> safe P (m ≫= k).
Proof. destruct m; simpl; auto. Qed.

Lemma safe_mono {A} (P Q : A -> Prop) (r : res A) :
  safe P r -> (forall a, P a -> Q a) -> safe Q r.
Proof. destruct r; simpl; auto. Qed.

Lemma safe_not_UB {A} (P : A -> Prop) (r : res A) : safe P r -> r <> UB.
Proof. by intros H ->. Qed.

Lemma safe_Done {A} (P : A -> Prop) (r : res A) a : safe P r -> r = Done a -> P a.
Proof. by intros H ->. Qed.

Definition is_done {A} (r : res A) : bool :=
  match r with Done _ => true | _ => false end.

(** ** List facts shared by the components *)

Fixpoint zsum (l : list Z) : Z := match l with [] => 0 | x :: l => x + zsum l end.

Lemma zsum_app l k : zsum (l ++ k) = zsum l + zsum k.
Proof. induction l; simpl; lia. Qed.

Lemma zsum_nonneg l : Forall (fun z => 0 <= z) l -> 0 <= zsum l.
Proof. induction 1; simpl; lia. Qed.

(** [while (q.size() > n) q.pop_front()] *)
Fixpoint trim_front {A} (n : Z) (q : list A) : list A :=
  match q with
  | [] => []
  | x :: q' => if n <? len q then trim_front n q' else q
  end.

Lemma trim_front_suffix {A} n (q : list A) : trim_front n q `suffix_of` q.
Proof.
  induction q as [|x q IH]; cbn [trim_front]; [done|].
  case_if; [by apply suffix_cons_r|done].
Qed.

Lemma trim_front_drop {A} n (q : list A) : 0 <= n -> trim_front n q = drop (Z.to_nat (len q - n)) q.
Proof.
  intros Hn. induction q as [|x q IH]; [by rewrite drop_nil|]. cbn [trim_front].
  destruct (Z.ltb_spec n (len (x :: q))) as [H|H]; simpl length in *.
  - rewrite IH. replace (Z.to_nat (Z.of_nat (S (length q)) - n))
      with (S (Z.to_nat (len q - n))) by lia. done.
  - by replace (Z.to_nat (Z.of_nat (S (length q)) - n)) with 0%nat by lia.
Qed.

Lemma length_trim_front {A} n (q : list A) : 0 <= n -> len (trim_front n q) = Z.min n (len q).
Proof. intros. rewrite trim_front_drop, length_drop by done. lia. Qed.

Lemma suffix_sublist {A} (l k : list A) : l `suffix_of` k -> sublist l k.
Proof. intros [l' ->]. by apply sublist_inserts_l. Qed.

Lemma sublist_filter {A} (P : A -> Prop) `{forall x, Decision (P x)} (l : list A) :
  sublist (filter P l) l.
Proof.
  induction l as [|x l IH]; [done|]. rewrite filter_cons.
  case_decide; by constructor.
Qed.

Lemma length_filter_compl {A} (P : A -> Prop) `{forall x, Decision (P x)} (l : list A) :
  len (filter P l) + len (filter (fun x => ~ P x) l) = len l.
Proof. rewrite <- (filter_app_complement P l) at 3. rewrite length_app. lia. Qed.

Lemma filter_none {A} (P : A -> Prop) `{forall x, Decision (P x)} (l : list A) :
  (forall x, x ∈ l -> ~ P x) -> filter P l = [].
Proof.
  intros H1. destruct (filter P l) as [|x k] eqn:E; [done|]. exfalso.
  assert (Hx : x ∈ filter P l) by (rewrite E; left).
  apply list_elem_of_filter in Hx as [HP Hl]. by apply (H1 x).
Qed.

Lemma length_filter_ext {A} (P Q : A -> Prop) `{forall x, Decision (P x), forall x, Decision (Q x)}
    (l : list A) :
  (forall x, x ∈ l -> P x <-> Q x) -> len (filter P l) = len (filter Q l).
Proof.
  induction l as [|x l IH]; intros HPQ; [done|]. rewrite !filter_cons.
  specialize (IH ltac:(intros y Hy; apply HPQ; by right)).
  pose proof (HPQ x ltac:(left)). do 2 case_decide; simpl; tauto || lia.
Qed.

Lemma length_filter_fmap {A B} (f : A -> B) (P : B -> Prop) `{forall x, Decision (P x)} (l : list A) :
  len (filter P (f <$> l)) = len (filter (fun x => P (f x)) l).
Proof.
  induction l as [|x l IH]; [done|]. rewrite fmap_cons, !filter_cons.
  case_decide; simpl; lia.
Qed.
