(* ===== verification/Memory.v ===== *)
(** * Byte buffers and big-endian fields

    Buffers ([std::vector<uint8_t>], [uint8_t *] with a length) are lists of
    bytes; an access outside the buffer is [UB].  The [put_*]/[get_*] helpers
    are those of src/frame.cpp (src/qos.cpp and src/discovery.cpp repeat them). *)

From S2P Require Import Prelude.

(** ** Accesses *)

(** The [n] bytes at offset [off]. *)
Definition load (buf : list Z) (off n : Z) : res (list Z) :=
  if decide (0 <= off /\ 0 <= n /\ off + n <= len buf)
  then Done (take (Z.to_nat n) (drop (Z.to_nat off) buf))
  else UB.

Definition load_u8 (buf : list Z) (off : Z) : res Z :=
  match load buf off 1 with Done [b] => Done b | _ => UB end.

(** [memcpy(buf + off, bs, len bs)] *)
Definition store (buf : list Z) (off : Z) (bs : list Z) : res (list Z) :=
  if decide (0 <= off /\ off + len bs <= len buf)
  then Done (take (Z.to_nat off) buf ++ bs ++ drop (Z.to_nat (off + len bs)) buf)
  else UB.

(** A vector of [n] zero bytes. *)
Definition zeros (n : Z) : list Z := replicate (Z.to_nat n) 0.

(** ** Big-endian fields *)

Definition put_u16 (v : Z) : list Z := [u8 (Z.shiftr v 8); u8 (Z.land v 255)].

Definition put_u32 (v : Z) : list Z :=
  [u8 (Z.shiftr v 24); u8 (Z.land (Z.shiftr v 16) 255);
   u8 (Z.land (Z.shiftr v 8) 255); u8 (Z.land v 255)].

Definition put_u64 (v : Z) : list Z :=
  put_u32 (u32 (Z.shiftr v 32)) ++ put_u32 (u32 (Z.land v (Z.ones 32))).

Definition get_u16 (buf : list Z) (off : Z) : res Z :=
  b0 ← load_u8 buf off; b1 ← load_u8 buf (off + 1);
  Done (u16 (Z.lor (Z.shiftl b0 8) b1)).

Definition get_u32 (buf : list Z) (off : Z) : res Z :=
  b0 ← load_u8 buf off; b1 ← load_u8 buf (off + 1);
  b2 ← load_u8 buf (off + 2); b3 ← load_u8 buf (off + 3);
  Done (Z.lor (Z.lor (Z.lor (Z.shiftl b0 24) (Z.shiftl b1 16)) (Z.shiftl b2 8)) b3).

Definition get_u64 (buf : list Z) (off : Z) : res Z :=
  hi ← get_u32 buf off; lo ← get_u32 buf (off + 4);
  Done (Z.lor (Z.shiftl hi 32) lo).

(** ** Loads *)

Lemma load_here bs post off n :
  off = 0 -> n = len bs -> load (bs ++ post) off n = Done bs.
Proof.
  intros -> ->. unfold load. rewrite decide_True by (rewrite length_app; lia).
  by rewrite drop_0, Nat2Z.id, take_app_length.
Qed.

Lemma load_all bs off n : off = 0 -> n = len bs -> load bs off n = Done bs.
Proof. intros. rewrite <- (app_nil_r bs) at 1. by apply load_here. Qed.

Lemma load_skip pre post off n :
  len pre <= off -> load (pre ++ post) off n = load post (off - len pre) n.
Proof.
  intros Hoff. unfold load. rewrite length_app. do 2 case_decide; [|lia..|done].
  rewrite drop_app_ge by lia. do 3 f_equal. lia.
Qed.

Lemma load_length buf off n bs : load buf off n = Done bs -> len bs = n.
Proof.
  unfold load. case_decide; [|done]. intros [= <-].
  rewrite length_take, length_drop. lia.
Qed.

Lemma load_in_bounds buf off n :
  0 <= off -> 0 <= n -> off + n <= len buf ->
  exists bs, load buf off n = Done bs /\ len bs = n.
Proof.
  intros. destruct (load buf off n) as [bs| |] eqn:E.
  - eauto using load_length.
  - unfold load in E. by case_decide.
  - unfold load in E. case_decide; [done|lia].
Qed.

Lemma load_bytes_ok buf off n bs :
  bytes_ok buf -> load buf off n = Done bs -> bytes_ok bs.
Proof.
  unfold load, bytes_ok. intros H. case_decide; [|done]. intros [= <-].
  by apply Forall_take, Forall_drop.
Qed.

Lemma load_u8_of buf off b : load buf off 1 = Done [b] -> load_u8 buf off = Done b.
Proof. unfold load_u8. by intros ->. Qed.

(** Splitting a load of several bytes into loads of single ones. *)
Lemma load_u8_of_load buf off n bs i :
  load buf off n = Done bs -> 0 <= i < n ->
  load_u8 buf (off + i) = Done (nth (Z.to_nat i) bs 0).
Proof.
  unfold load_u8, load. case_decide as H; [|done]. intros [= <-] Hi.
  rewrite decide_True by lia.
  rewrite nth_lookup, lookup_take_lt, lookup_drop by lia.
  destruct (drop (Z.to_nat (off + i)) buf) as [|b r] eqn:Hd.
  { apply (f_equal length) in Hd. rewrite length_drop in Hd. simpl in Hd. lia. }
  replace (Z.to_nat off + Z.to_nat i)%nat with (Z.to_nat (off + i)) by lia.
  rewrite <- (Nat.add_0_r (Z.to_nat (off + i))), <- lookup_drop, Hd.
  replace (Z.to_nat 1) with 1%nat by lia. done.
Qed.

Lemma load_u8_in_bounds buf off :
  0 <= off < len buf -> exists b, load_u8 buf off = Done b.
Proof.
  intros H. destruct (load_in_bounds buf off 1) as (bs & Hl & Hn); [lia..|].
  exists (nth 0 bs 0). replace off with (off + 0) at 1 by lia.
  by apply (load_u8_of_load _ _ _ _ 0 Hl).
Qed.

(** ** Round trips of the fields *)

Lemma length_put_u16 v : length (put_u16 v) = 2%nat.
Proof. done. Qed.
Lemma length_put_u32 v : length (put_u32 v) = 4%nat.
Proof. done. Qed.
Lemma length_put_u64 v : length (put_u64 v) = 8%nat.
Proof. done. Qed.
Lemma length_zeros n : length (zeros n) = Z.to_nat n.
Proof. apply length_replicate. Qed.

#[export] Hint Rewrite length_put_u16 length_put_u32 length_put_u64 length_zeros
  @length_replicate : mdds_len.

Lemma fits_u8 z : fits 8 (u8 z).
Proof. by apply wrap_fits. Qed.

Lemma put_u32_bytes_ok v : bytes_ok (put_u32 v).
Proof. repeat constructor; apply fits_u8. Qed.
Lemma put_u64_bytes_ok v : bytes_ok (put_u64 v).
Proof. apply Forall_app; split; apply put_u32_bytes_ok. Qed.
Lemma put_u16_bytes_ok v : bytes_ok (put_u16 v).
Proof. repeat constructor; apply fits_u8. Qed.

#[export] Hint Resolve put_u16_bytes_ok put_u32_bytes_ok put_u64_bytes_ok fits_u8 : mdds.

Lemma get_u16_put buf off v :
  load buf off 2 = Done (put_u16 v) -> fits 16 v -> get_u16 buf off = Done v.
Proof.
  intros H Hv. unfold get_u16. replace off with (off + 0) at 1 by lia.
  rewrite !(load_u8_of_load _ _ _ _ _ H) by lia. simpl. f_equal.
  unfold wrap. rewrite land_255, Z.shiftr_div_pow2, Z.mod_mod by lia.
  rewrite shiftl_lor_add by ulia. ulia.
Qed.

Lemma get_u32_put buf off v :
  load buf off 4 = Done (put_u32 v) -> fits 32 v -> get_u32 buf off = Done v.
Proof.
  intros H Hv. unfold get_u32. replace off with (off + 0) at 1 by lia.
  rewrite !(load_u8_of_load _ _ _ _ _ H) by lia. simpl. f_equal.
  unfold wrap. rewrite !land_255, !Z.shiftr_div_pow2, !Z.mod_mod by lia.
  rewrite <- !Z.lor_assoc.
  rewrite shiftl_lor_add with (n := 8) by ulia.
  rewrite shiftl_lor_add with (n := 16) by ulia.
  rewrite shiftl_lor_add with (n := 24) by ulia.
  ulia.
Qed.

Lemma load_split buf off n a b :
  load buf off n = Done (a ++ b) ->
  load buf off (len a) = Done a /\ load buf (off + len a) (len b) = Done b.
Proof.
  intros H. pose proof (load_length _ _ _ _ H) as Hn. rewrite length_app in Hn.
  unfold load in *. case_decide as Hb; [|done]. injection H as H.
  apply (f_equal (fun l => (take (length a) l, drop (length a) l))) in H.
  rewrite take_app_length, drop_app_length, take_take, skipn_firstn_comm, drop_drop in H.
  injection H as Ha Hd. rewrite !decide_True by lia. split; f_equal.
  - etrans; [|exact Ha]. f_equal. lia.
  - etrans; [|exact Hd]. f_equal; [lia|]. f_equal. lia.
Qed.

Lemma get_u64_put buf off v :
  load buf off 8 = Done (put_u64 v) -> fits 64 v -> get_u64 buf off = Done v.
Proof.
  intros [H1 H2]%load_split Hv. unfold get_u64.
  rewrite !length_put_u32 in *. change (Z.of_nat 4) with 4 in *.
  rewrite (get_u32_put _ _ _ H1) by (by apply wrap_fits). simpl.
  rewrite (get_u32_put _ _ _ H2) by (by apply wrap_fits). simpl. f_equal.
  rewrite Z.land_ones, Z.shiftr_div_pow2 by lia.
  rewrite shiftl_lor_add by ulia. ulia.
Qed.

(** ** Reads inside the buffer succeed *)

Lemma get_u16_in_bounds buf off :
  0 <= off -> off + 2 <= len buf -> exists v, get_u16 buf off = Done v.
Proof.
  intros. unfold get_u16.
  destruct (load_u8_in_bounds buf off) as [b0 ->]; [lia|].
  destruct (load_u8_in_bounds buf (off + 1)) as [b1 ->]; [lia|]. by eexists.
Qed.

Lemma load_u8_fits buf off b :
  bytes_ok buf -> load_u8 buf off = Done b -> fits 8 b.
Proof.
  unfold load_u8. intros Hok.
  destruct (load buf off 1) as [[|x [|]]| |] eqn:E; try done. intros [= <-].
  apply (load_bytes_ok _ _ _ _ Hok) in E. by inversion E.
Qed.

Lemma get_u32_in_bounds buf off :
  0 <= off -> off + 4 <= len buf -> exists v, get_u32 buf off = Done v.
Proof.
  intros. unfold get_u32.
  destruct (load_u8_in_bounds buf off) as [b0 ->]; [lia|].
  destruct (load_u8_in_bounds buf (off + 1)) as [b1 ->]; [lia|].
  destruct (load_u8_in_bounds buf (off + 2)) as [b2 ->]; [lia|].
  destruct (load_u8_in_bounds buf (off + 3)) as [b3 ->]; [lia|]. by eexists.
Qed.

Lemma get_u64_in_bounds buf off :
  0 <= off -> off + 8 <= len buf -> exists v, get_u64 buf off = Done v.
Proof.
  intros. unfold get_u64.
  destruct (get_u32_in_bounds buf off) as [hi ->]; [lia..|].
  destruct (get_u32_in_bounds buf (off + 4)) as [lo ->]; [lia..|]. by eexists.
Qed.

(** The fields read from real bytes have their width. *)
Lemma get_u32_fits buf off v :
  bytes_ok buf -> get_u32 buf off = Done v -> fits 32 v.
Proof.
  intros Hok. unfold get_u32.
  destruct (load_u8 buf off) as [b0| |] eqn:E0; try done.
  destruct (load_u8 buf (off + 1)) as [b1| |] eqn:E1; try done.
  destruct (load_u8 buf (off + 2)) as [b2| |] eqn:E2; try done.
  destruct (load_u8 buf (off + 3)) as [b3| |] eqn:E3; try done.
  intros [= <-].
  apply (load_u8_fits _ _ _ Hok) in E0, E1, E2, E3.
  rewrite <- !Z.lor_assoc.
  rewrite shiftl_lor_add with (n := 8) by ulia.
  rewrite shiftl_lor_add with (n := 16) by ulia.
  rewrite shiftl_lor_add with (n := 24) by ulia. ulia.
Qed.

Lemma get_u64_fits buf off v :
  bytes_ok buf -> get_u64 buf off = Done v -> fits 64 v.
Proof.
  intros Hok. unfold get_u64.
  destruct (get_u32 buf off) as [hi| |] eqn:E0; try done.
  destruct (get_u32 buf (off + 4)) as [lo| |] eqn:E1; try done.
  intros [= <-]. apply (get_u32_fits _ _ _ Hok) in E0, E1.
  rewrite shiftl_lor_add by ulia. ulia.
Qed.

(** The same facts as rules for computations over real bytes. *)
Section safe_reads.
Context (buf : list Z) (Hok : bytes_ok buf).

Lemma safe_load off n :
  0 <= off -> 0 <= n -> off + n <= len buf ->
  safe (fun bs => len bs = n /\ bytes_ok bs) (load buf off n).
Proof.
  intros. destruct (load_in_bounds buf off n) as (bs & E & Hn); [lia..|].
  rewrite E. split; [done|]. by eapply load_bytes_ok.
Qed.

Lemma safe_load_u8 off :
  0 <= off -> off + 1 <= len buf -> safe (fits 8) (load_u8 buf off).
Proof.
  intros. destruct (load_u8_in_bounds buf off) as [b E]; [lia|].
  rewrite E. by eapply load_u8_fits.
Qed.

Lemma safe_get_u16 off :
  0 <= off -> off + 2 <= len buf -> safe (fits 16) (get_u16 buf off).
Proof.
  intros. destruct (get_u16_in_bounds buf off) as [v E]; [lia..|].
  rewrite E. simpl. unfold get_u16 in E. inv_done E. injection E as <-.
  by apply wrap_fits.
Qed.

Lemma safe_get_u32 off :
  0 <= off -> off + 4 <= len buf -> safe (fits 32) (get_u32 buf off).
Proof.
  intros. destruct (get_u32_in_bounds buf off) as [v E]; [lia..|].
  rewrite E. by eapply get_u32_fits.
Qed.

Lemma safe_get_u64 off :
  0 <= off -> off + 8 <= len buf -> safe (fits 64) (get_u64 buf off).
Proof.
  intros. destruct (get_u64_in_bounds buf off) as [v E]; [lia..|].
  rewrite E. by eapply get_u64_fits.
Qed.
End safe_reads.

(** ** Filling a fresh vector

    Encoders allocate a vector of zeros and write consecutive fields into it;
    each write extends the filled prefix. *)

Lemma store_fill pre n bs :
  len bs <= n ->
  store (pre ++ zeros n) (len pre) bs = Done (pre ++ bs ++ zeros (n - len bs)).
Proof.
  intros Hn. unfold store. rewrite decide_True by solve_len.
  rewrite Nat2Z.id, take_app_length. do 3 f_equal.
  rewrite drop_app_ge by lia. unfold zeros. rewrite drop_replicate. f_equal. lia.
Qed.

(** [store_fill] with the offset given as a number. *)
Lemma store_fill_at pre n off bs :
  off = len pre -> len bs <= n ->
  store (pre ++ zeros n) off bs = Done ((pre ++ bs) ++ zeros (n - len bs)).
Proof. intros -> ?. rewrite store_fill by done. by rewrite <- app_assoc. Qed.

Lemma store_length buf off bs buf' :
  store buf off bs = Done buf' -> length buf' = length buf.
Proof.
  unfold store. case_decide; [|done]. intros [= <-].
  rewrite !length_app, length_take, length_drop. lia.
Qed.

Lemma store_lookup buf off bs buf' x :
  store buf off bs = Done buf' -> 0 <= x ->
  buf' !! Z.to_nat x =
  if decide (off <= x < off + len bs) then bs !! Z.to_nat (x - off) else buf !! Z.to_nat x.
Proof.
  unfold store. case_decide as Hb; [|done]. intros [= <-] Hx. case_decide.
  - rewrite lookup_app_r, lookup_app_l by (rewrite length_take; lia).
    f_equal. rewrite length_take. lia.
  - destruct (decide (x < off)).
    + rewrite lookup_app_l by (rewrite length_take; lia). apply lookup_take_lt. lia.
    + rewrite !lookup_app_r, lookup_drop by (rewrite ?length_take; lia).
      f_equal. rewrite length_take. lia.
Qed.

Lemma store_in_bounds buf off bs :
  0 <= off -> off + len bs <= len buf -> exists buf', store buf off bs = Done buf'.
Proof. intros. unfold store. rewrite decide_True by lia. by eexists. Qed.

(** Whatever a store does, the length is the same after it. *)
Lemma store_then_UB {A} buf off bs (k : list Z -> res A) :
  (forall buf', len buf' = len buf -> k buf' = UB) -> (b ← store buf off bs; k b) = UB.
Proof.
  intros Hk. destruct (store buf off bs) eqn:E; [|by unfold store in E; case_decide|done].
  apply Hk. by rewrite (store_length _ _ _ _ E).
Qed.

(** Tactics that find a field in a concatenation of fields of known length. *)
Ltac load_step :=
  first [ rewrite load_here by solve_len
        | rewrite load_skip by solve_len
        | rewrite load_all by solve_len ].
Ltac find_field := rewrite <- ?app_assoc; repeat load_step; try done.
