(* ===== verification/StdMap.v ===== *)
(** * [std::map] and [std::set]

    The containers the program keeps its tables in: association lists in
    increasing key order, so that iteration visits the entries in the order the
    C++ container does.  [map_ok] is the container invariant. *)

From S2P Require Import Prelude.

(** ** Keys *)

(** [operator<] of the key type, and its laws. *)
Class KeyLt (K : Type) := key_lt : K -> K -> bool.
#[global] Hint Mode KeyLt ! : typeclass_instances.

Class KeyOrder (K : Type) `{KeyLt K} : Prop := {
  key_lt_irrefl (k : K) : key_lt k k = false;
  key_lt_trans (k1 k2 k3 : K) : key_lt k1 k2 = true -> key_lt k2 k3 = true -> key_lt k1 k3 = true;
  key_lt_total (k1 k2 : K) : k1 <> k2 -> key_lt k1 k2 = false -> key_lt k2 k1 = true;
}.

#[global] Instance key_lt_Z : KeyLt Z := Z.ltb.
#[global] Instance key_order_Z : KeyOrder Z.
Proof. split; unfold key_lt, key_lt_Z; intros; zbool; lia. Qed.

(** Lexicographic order of byte strings and arrays. *)
Fixpoint lex_lt (l k : list Z) : bool :=
  match l, k with
  | _, [] => false
  | [], _ :: _ => true
  | x :: l', y :: k' => (x <? y) || ((x =? y) && lex_lt l' k')
  end.

#[global] Instance key_lt_bytes : KeyLt (list Z) := lex_lt.
#[global] Instance key_order_bytes : KeyOrder (list Z).
Proof.
  split; unfold key_lt, key_lt_bytes.
  - intros k. induction k as [|x k IH]; simpl; [done|].
    rewrite IH, andb_false_r, orb_false_r. apply Z.ltb_irrefl.
  - intros k1. induction k1 as [|x k1 IH]; intros [|y k2] [|z k3]; simpl; try done.
    zbool. intros [?|[-> ?]] [?|[-> ?]]; [left; lia|left; lia|left; lia|].
    right. split; [done|]. by eapply IH.
  - intros k1. induction k1 as [|x k1 IH]; intros [|y k2]; simpl; try done.
    zbool. intros Hne [H1 H2]. destruct (decide (x = y)) as [->|].
    + right. split; [done|]. apply IH; [congruence|]. destruct H2; [lia|done].
    + left. lia.
Qed.

#[global] Instance key_lt_prod {A B} `{KeyLt A, KeyLt B, EqDecision A} : KeyLt (A * B) :=
  fun p q => key_lt p.1 q.1 || (bool_decide (p.1 = q.1) && key_lt p.2 q.2).

#[global] Instance key_order_prod {A B} `{KeyLt A, KeyLt B, EqDecision A, !KeyOrder A, !KeyOrder B} :
  KeyOrder (A * B).
Proof.
  split; unfold key_lt, key_lt_prod.
  - intros k. by rewrite !key_lt_irrefl, andb_false_r.
  - intros k1 k2 k3. rewrite !orb_true_iff, !andb_true_iff, !bool_decide_eq_true.
    intros [H12|[E12 H12]] [H23|[E23 H23]].
    + left. by eapply key_lt_trans.
    + left. by rewrite <- E23.
    + left. by rewrite E12.
    + right. split; [congruence|by eapply key_lt_trans].
  - intros [a b] [a' b'] Hne. simpl.
    rewrite orb_false_iff, orb_true_iff, !andb_true_iff, andb_false_iff, bool_decide_eq_true.
    intros [H1 H2]. destruct (decide (a = a')) as [->|Ha].
    + right. split; [done|]. destruct H2 as [H2|H2]; [by apply bool_decide_eq_false in H2|].
      apply key_lt_total; [congruence|done].
    + left. by apply key_lt_total.
Qed.

(** ** The map *)

Abbreviation std_map K V := (list (K * V)).

Section map.
Context {K V : Type} `{EqDecision K} `{KeyLt K}.
Implicit Types (k : K) (v : V) (m : std_map K V).

Fixpoint map_find k m : option V :=
  match m with
  | [] => None
  | (k', v) :: m' => if decide (k = k') then Some v else map_find k m'
  end.

(** [m[k] = v] *)
Fixpoint map_set k v m : std_map K V :=
  match m with
  | [] => [(k, v)]
  | (k', v') :: m' =>
      if decide (k = k') then (k, v) :: m'
      else if key_lt k k' then (k, v) :: (k', v') :: m'
      else (k', v') :: map_set k v m'
  end.

(** [m.emplace(k, v)]: no effect when the key is present. *)
Definition map_emplace k v m : std_map K V :=
  match map_find k m with Some _ => m | None => map_set k v m end.

Definition map_erase k m : std_map K V := filter (fun e => e.1 <> k) m.

(** The erase loops of the program: keep the entries that satisfy [keep]. *)
Definition map_keep (keep : K -> V -> bool) m : std_map K V :=
  filter (fun e => keep e.1 e.2 = true) m.

(** In-place update of one value. *)
Definition map_adjust (f : V -> V) k m : std_map K V :=
  (fun e => if decide (e.1 = k) then (e.1, f e.2) else e) <$> m.

Definition map_keys m : list K := m.*1.

(** *** Lookups after updates *)

Lemma map_find_set k k' v m :
  map_find k (map_set k' v m) = if decide (k = k') then Some v else map_find k m.
Proof.
  induction m as [|[k0 v0] m IH]; simpl; [done|].
  destruct (decide (k' = k0)) as [->|Hne]; simpl.
  { by destruct (decide (k = k0)). }
  destruct (key_lt k' k0); simpl; [done|].
  rewrite IH. destruct (decide (k = k0)) as [->|], (decide (k0 = k')); congruence || done.
Qed.

Lemma map_find_set_eq k v m : map_find k (map_set k v m) = Some v.
Proof. rewrite map_find_set. by rewrite decide_True. Qed.

Lemma map_find_set_ne k k' v m : k <> k' -> map_find k (map_set k' v m) = map_find k m.
Proof. intros. rewrite map_find_set. by rewrite decide_False. Qed.

Lemma map_find_erase k k' m :
  map_find k (map_erase k' m) = if decide (k = k') then None else map_find k m.
Proof.
  unfold map_erase. induction m as [|[k0 v0] m IH]; simpl.
  { by destruct (decide (k = k')). }
  rewrite filter_cons. simpl. destruct (decide (k0 <> k')) as [Hne|Hne]; simpl; rewrite IH.
  - destruct (decide (k = k0)) as [->|], (decide (k0 = k')); congruence || done.
  - apply dec_stable in Hne as ->. by destruct (decide (k = k')).
Qed.

Lemma map_find_adjust f k k' m :
  map_find k (map_adjust f k' m) =
  if decide (k = k') then f <$> map_find k m else map_find k m.
Proof.
  induction m as [|[k0 v0] m IH]; simpl.
  { by destruct (decide (k = k')). }
  destruct (decide (k0 = k')) as [->|Hne]; simpl.
  - destruct (decide (k = k')) as [->|]; [done|]. by rewrite IH.
  - destruct (decide (k = k0)) as [->|]; [by rewrite decide_False|done].
Qed.

Lemma map_find_In k v m : map_find k m = Some v -> (k, v) ∈ m.
Proof.
  induction m as [|[k0 v0] m IH]; simpl; [done|].
  destruct (decide (k = k0)) as [->|]; [intros [= ->]; left|right; auto].
Qed.

Lemma map_find_None k m : map_find k m = None <-> k ∉ map_keys m.
Proof.
  induction m as [|[k0 v0] m IH]; simpl; [split; [intros _; by apply not_elem_of_nil|done]|].
  rewrite not_elem_of_cons. destruct (decide (k = k0)); [split; [done|tauto]|]. tauto.
Qed.

(** *** Order *)

Definition entry_lt (e e' : K * V) : Prop := key_lt e.1 e'.1 = true.
Definition map_ok m : Prop := StronglySorted entry_lt m.

Lemma map_ok_nil : map_ok [].
Proof. constructor. Qed.

Lemma Forall_filter_weaken (Q : K * V -> Prop) (P : K * V -> Prop) `{forall e, Decision (P e)} m :
  Forall Q m -> Forall Q (filter P m).
Proof.
  rewrite !Forall_forall. intros HQ e [_ He]%list_elem_of_filter. by apply HQ.
Qed.

Lemma map_ok_filter (P : K * V -> Prop) `{forall e, Decision (P e)} m :
  map_ok m -> map_ok (filter P m).
Proof.
  unfold map_ok. induction 1 as [|e m Hs IH Hall]; [constructor|].
  rewrite filter_cons. case_decide; [|done]. constructor; [done|].
  by apply Forall_filter_weaken.
Qed.

Lemma map_ok_erase k m : map_ok m -> map_ok (map_erase k m).
Proof. apply map_ok_filter. Qed.

Lemma map_ok_keep f m : map_ok m -> map_ok (map_keep f m).
Proof. apply map_ok_filter. Qed.

Context `{!KeyOrder K}.

Lemma map_set_Forall (P : K * V -> Prop) k v m :
  P (k, v) -> Forall P m -> Forall P (map_set k v m).
Proof.
  intros Hk. induction 1 as [|[k0 v0] m Hk0 Hm IH]; simpl; [by repeat constructor|].
  repeat case_if; by repeat constructor.
Qed.

Lemma map_ok_set k v m : map_ok m -> map_ok (map_set k v m).
Proof.
  unfold map_ok. induction 1 as [|[k0 v0] m Hs IH Hall]; simpl; [by repeat constructor|].
  destruct (decide (k = k0)) as [->|Hne]; [by constructor|].
  destruct (key_lt k k0) eqn:Hlt.
  - constructor; [by constructor|]. constructor; [done|].
    eapply Forall_impl; [exact Hall|]. intros [k1 v1]. unfold entry_lt. simpl.
    by apply key_lt_trans.
  - constructor; [done|]. apply map_set_Forall; [|done].
    by apply key_lt_total.
Qed.

Lemma map_ok_emplace k v m : map_ok m -> map_ok (map_emplace k v m).
Proof. unfold map_emplace. destruct (map_find k m); [done|apply map_ok_set]. Qed.

Lemma map_keys_NoDup m : map_ok m -> NoDup (map_keys m).
Proof.
  unfold map_ok. induction 1 as [|[k v] m Hs IH Hall]; simpl; constructor; [|done].
  intros ([k' v'] & -> & Hin)%list_elem_of_fmap.
  rewrite Forall_forall in Hall. specialize (Hall _ Hin).
  unfold entry_lt in Hall. simpl in Hall. by rewrite key_lt_irrefl in Hall.
Qed.

Lemma map_In_find k v m : map_ok m -> (k, v) ∈ m -> map_find k m = Some v.
Proof.
  intros Hok%map_keys_NoDup. induction m as [|[k0 v0] m IH]; simpl.
  { by intros ?%elem_of_nil. }
  inversion_clear Hok as [|? ? Hnin Hnd]. intros [[= -> ->]|Hin]%elem_of_cons.
  - by rewrite decide_True.
  - rewrite decide_False; [by apply IH|]. intros ->. apply Hnin.
    by apply (list_elem_of_fmap_2 fst _ (k0, v)).
Qed.

Lemma map_find_keep f k m :
  map_ok m ->
  map_find k (map_keep f m) =
  match map_find k m with Some v => if f k v then Some v else None | None => None end.
Proof.
  intros Hok. destruct (map_find k (map_keep f m)) as [v|] eqn:E.
  - apply map_find_In in E. apply list_elem_of_filter in E as [Hf Hin].
    rewrite (map_In_find _ _ _ Hok Hin). simpl in Hf. by rewrite Hf.
  - destruct (map_find k m) as [v|] eqn:E'; [|done].
    destruct (f k v) eqn:Hf; [|done].
    apply map_find_None in E. exfalso. apply E.
    apply (list_elem_of_fmap_2 fst _ (k, v)), list_elem_of_filter.
    by split; [|apply map_find_In].
Qed.
End map.

(** ** The set *)

Section set.
Context {K : Type} `{EqDecision K} `{KeyLt K}.
Implicit Types (k : K) (s : list K).

Fixpoint set_insert k s : list K :=
  match s with
  | [] => [k]
  | k' :: s' =>
      if decide (k = k') then s
      else if key_lt k k' then k :: s
      else k' :: set_insert k s'
  end.

Definition set_erase k s : list K := filter (fun k' => k' <> k) s.

Lemma elem_of_set_insert k k' s : k ∈ set_insert k' s <-> k = k' \/ k ∈ s.
Proof.
  induction s as [|k0 s IH]; simpl; [rewrite list_elem_of_singleton, elem_of_nil; tauto|].
  destruct (decide (k' = k0)) as [->|]; [rewrite elem_of_cons; tauto|].
  destruct (key_lt k' k0); rewrite !elem_of_cons; [done|]. rewrite IH. tauto.
Qed.

Lemma elem_of_set_erase k k' s : k ∈ set_erase k' s <-> k <> k' /\ k ∈ s.
Proof. unfold set_erase. by rewrite list_elem_of_filter. Qed.
End set.

#[export] Hint Resolve map_ok_nil map_ok_set map_ok_emplace map_ok_erase map_ok_keep : mdds.

Lemma map_set_set {K V} `{EqDecision K} `{KeyLt K} (k : K) (v v' : V) (m : std_map K V) :
  map_set k v (map_set k v' m) = map_set k v m.
Proof.
  induction m as [|[k1 v1] m IH]; simpl; [by rewrite decide_True|].
  destruct (decide (k = k1)); simpl; [by rewrite decide_True|].
  destruct (key_lt k k1) eqn:E; simpl; [by rewrite decide_True|]. rewrite decide_False, E by done. by f_equal.
Qed.

Lemma map_erase_set {K V} `{EqDecision K} `{KeyLt K} (k : K) (v : V) (m : std_map K V) :
  map_erase k (map_set k v m) = map_erase k m.
Proof.
  unfold map_erase. induction m as [|[k1 v1] m IH]; simpl; [by rewrite filter_cons_False by auto|].
  destruct (decide (k = k1)) as [->|Hk]; [by rewrite !filter_cons_False by auto|].
  destruct (key_lt k k1); [by rewrite filter_cons_False by auto|].
  rewrite !filter_cons_True by done. by f_equal.
Qed.

Lemma map_set_same {K V} `{EqDecision K, KeyLt K, !KeyOrder K} (k : K) (v : V) (m : std_map K V) :
  map_ok m -> map_find k m = Some v -> map_set k v m = m.
Proof.
  induction 1 as [|[k1 v1] m Hs IH Hall]; simpl; [done|]. destruct (decide (k = k1)) as [->|Hk]; [by intros [= ->]|].
  intros Hf. destruct (key_lt k k1) eqn:E; [|by rewrite IH]. apply map_find_In in Hf.
  rewrite Forall_forall in Hall. specialize (Hall _ Hf). unfold entry_lt in Hall. simpl in Hall.
  pose proof (key_lt_trans _ _ _ E Hall) as Hc. by rewrite key_lt_irrefl in Hc.
Qed.
