(* ===== verification/Guid.v ===== *)
(** * GUIDs (include/mdds/guid.hpp, and the prefix generator of src/frame.cpp) *)

From S2P Require Import Prelude Memory StdMap.

(** 16 bytes: a 12-byte participant prefix and a 4-byte entity id. *)
Record Guid := mkGuid { guid_bytes : list Z }.

#[global] Instance guid_eq_dec : EqDecision Guid.
Proof. solve_decision. Defined.

Definition guid_ok (g : Guid) : Prop := length (guid_bytes g) = 16%nat /\ bytes_ok (guid_bytes g).

#[global] Instance guid_key_lt : KeyLt Guid :=
  fun a b => lex_lt (guid_bytes a) (guid_bytes b).
#[global] Instance guid_key_order : KeyOrder Guid.
Proof.
  split; unfold key_lt, guid_key_lt.
  - intros. apply (key_lt_irrefl (K := list Z)).
  - intros ???. apply (key_lt_trans (K := list Z)).
  - intros [a] [b] Hne. apply (key_lt_total (K := list Z)). simpl. congruence.
Qed.

Definition zero_guid : Guid := mkGuid (replicate 16 0).

Lemma zero_guid_ok : guid_ok zero_guid.
Proof. split; [done|]. by repeat constructor. Qed.

Definition guid_is_zero (g : Guid) : bool := forallb (fun b => b =? 0) (guid_bytes g).

(** ** Entity kinds

    A kind read from the wire is cast, so a value outside the enumeration is
    kept as it is. *)

Inductive EntityKind := PARTICIPANT | WRITER | READER | OtherKind (raw : Z).

#[global] Instance entity_kind_eq_dec : EqDecision EntityKind.
Proof. solve_decision. Defined.

Definition kind_to_u8 (k : EntityKind) : Z :=
  match k with PARTICIPANT => 0 | WRITER => 1 | READER => 2 | OtherKind r => r end.

Definition kind_of_u8 (b : Z) : EntityKind :=
  if b =? 0 then PARTICIPANT else if b =? 1 then WRITER
  else if b =? 2 then READER else OtherKind b.

(** A value of the underlying type, in its one representation. *)
Definition kind_ok (k : EntityKind) : Prop :=
  fits 8 (kind_to_u8 k) /\ kind_of_u8 (kind_to_u8 k) = k.

Lemma kind_of_u8_ok b : fits 8 b -> kind_ok (kind_of_u8 b).
Proof.
  intros Hb. assert (E : kind_to_u8 (kind_of_u8 b) = b).
  { unfold kind_of_u8. repeat case_if; zbool; simpl; congruence. }
  by split; rewrite E.
Qed.

(** ** Composition *)

Definition make_guid (prefix : list Z) (kind : EntityKind) (serial : Z) : Guid :=
  mkGuid (prefix ++
    [kind_to_u8 kind; u8 (Z.land (Z.shiftr serial 16) 255);
     u8 (Z.land (Z.shiftr serial 8) 255); u8 (Z.land serial 255)]).

Lemma make_guid_ok prefix kind serial :
  length prefix = 12%nat -> bytes_ok prefix -> fits 8 (kind_to_u8 kind) ->
  guid_ok (make_guid prefix kind serial).
Proof.
  intros Hl Hb Hk. split; simpl; [rewrite length_app; simpl; lia|].
  apply Forall_app. split; [done|]. rewrite !Forall_cons, Forall_nil. auto using fits_u8.
Qed.

(** The id bytes are the low 24 bits of the serial. *)
Lemma make_guid_inj p k s p' k' s' :
  length p = 12%nat -> length p' = 12%nat ->
  make_guid p k s = make_guid p' k' s' ->
  p = p' /\ kind_to_u8 k = kind_to_u8 k' /\ s mod 2 ^ 24 = s' mod 2 ^ 24.
Proof.
  intros Hp Hp' [= E]. apply app_inj_1 in E as [-> E]; [|congruence].
  injection E as E1 E2 E3 E4. split_and!; [done..|].
  unfold wrap in *. rewrite !land_255 in *. rewrite !Z.shiftr_div_pow2 in * by lia.
  change (2 ^ 24) with 16777216. change (2 ^ 16) with 65536 in *. change (2 ^ 8) with 256 in *.
  Z.to_euclidean_division_equations. lia.
Qed.

Lemma make_guid_collision p k s : make_guid p k (s + 2 ^ 24) = make_guid p k s.
Proof.
  unfold make_guid. do 2 f_equal. unfold wrap.
  rewrite !land_255, !Z.shiftr_div_pow2 by lia.
  change (2 ^ 24) with 16777216. change (2 ^ 16) with 65536. change (2 ^ 8) with 256.
  replace ((s + 16777216) / 65536) with (s / 65536 + 1 * 256) by ulia.
  replace ((s + 16777216) / 256) with (s / 256 + 256 * 256) by ulia.
  replace (s + 16777216) with (s + 65536 * 256) by ulia.
  by rewrite !Z_mod_plus_full.
Qed.

(** ** Text form *)

Definition hex_digit (n : Z) : Z := if n <? 10 then 48 + n else 97 + (n - 10).

Definition guid_to_string (g : Guid) : list Z :=
  flat_map (fun b => [hex_digit (Z.shiftr b 4); hex_digit (Z.land b 15)]) (guid_bytes g).

Lemma hex_digit_inj a b : 0 <= a < 16 -> 0 <= b < 16 -> hex_digit a = hex_digit b -> a = b.
Proof. unfold hex_digit. intros ??. do 2 case_if; zbool; lia. Qed.

Lemma hex_byte_inj a b :
  fits 8 a -> fits 8 b ->
  hex_digit (Z.shiftr a 4) = hex_digit (Z.shiftr b 4) ->
  hex_digit (Z.land a 15) = hex_digit (Z.land b 15) -> a = b.
Proof.
  intros Ha Hb. change 15 with (Z.ones 4). rewrite !Z.land_ones by lia.
  rewrite !Z.shiftr_div_pow2 by lia. change (2 ^ 4) with 16.
  unfold fits in *. change (2 ^ 8) with 256 in *.
  intros H1%hex_digit_inj H2%hex_digit_inj; Z.to_euclidean_division_equations; lia.
Qed.

Lemma length_hex_bytes l :
  length (flat_map (fun b => [hex_digit (Z.shiftr b 4); hex_digit (Z.land b 15)]) l) =
  (2 * length l)%nat.
Proof. induction l as [|c l IH]; simpl; [done|]. rewrite IH. lia. Qed.

(** ** The random prefix

    [std::array<uint8_t, 12>] is filled 8 bytes at a time from a 64-bit
    generator ([gen i] is its [i]-th output, in memory order). *)

Definition generate_participant_prefix (gen : nat -> list Z) : res (list Z) :=
  p ← store (zeros 12) 0 (gen 0%nat);
  store p 8 (gen 1%nat).

(** ** Properties *)

Module GuidSpec.

(** Entities of one or several participants get distinct GUIDs: the prefix, the
    kind and (below 2^24) the serial can be read back from the GUID. *)
Theorem make_guid_distinct p k s p' k' s' :
  length p = 12%nat -> length p' = 12%nat -> kind_ok k -> kind_ok k' ->
  0 <= s < 2 ^ 24 -> 0 <= s' < 2 ^ 24 ->
  make_guid p k s = make_guid p' k' s' -> p = p' /\ k = k' /\ s = s'.
Proof.
  intros Hp Hp' [_ Hk] [_ Hk'] Hs Hs' E.
  destruct (make_guid_inj _ _ _ _ _ _ Hp Hp' E) as (-> & Ek & Es).
  rewrite !Z.mod_small in Es by done. split_and!; congruence.
Qed.

Lemma make_guid_distinct_witness :
  let p := replicate 12 7 in p = p /\ WRITER = WRITER /\ 5 = 5.
Proof.
  apply (make_guid_distinct (replicate 12 7) WRITER 5 (replicate 12 7) WRITER 5);
    try reflexivity; try lia; split; reflexivity || ulia || (simpl; ulia).
Defined.

(** The text form has 32 characters and determines the GUID. *)
Theorem guid_to_string_inj (a b : Guid) :
  guid_ok a -> guid_ok b ->
  length (guid_to_string a) = 32%nat /\ (guid_to_string a = guid_to_string b -> a = b).
Proof.
  destruct a as [x], b as [y]. intros [Hx Hxok] [Hy Hyok]. unfold guid_to_string. simpl in *.
  split; [by rewrite length_hex_bytes, Hx|].
  intros E. f_equal. rewrite <- Hy in Hx. clear Hy. revert y Hyok Hx E.
  induction Hxok as [|c x Hc Hxok IH]; intros [|d y] Hyok Hl E; try done.
  inversion_clear Hyok. simpl in E. injection E as E1 E2 E.
  f_equal; [by apply hex_byte_inj|]. apply IH; [done|simpl in Hl; lia|done].
Qed.

Lemma guid_to_string_inj_witness :
  length (guid_to_string zero_guid) = 32%nat /\
  (guid_to_string zero_guid = guid_to_string zero_guid -> zero_guid = zero_guid).
Proof. apply guid_to_string_inj; exact zero_guid_ok. Defined.

(** The prefix generator copies 8 bytes to offset 8 of a 12-byte array: it leaves
    the array whatever the generator returns. *)
Theorem prefix_overflows (gen : nat -> list Z) :
  length (gen 0%nat) = 8%nat -> length (gen 1%nat) = 8%nat ->
  generate_participant_prefix gen = UB.
Proof.
  intros H0 H1. unfold generate_participant_prefix. apply store_then_UB. intros b Hb.
  unfold store. rewrite decide_False; [done|]. rewrite Hb, H1. simpl. lia.
Qed.
End GuidSpec.
