(* ===== verification/Qos.v ===== *)
(** * QoS profiles (include/mdds/qos.hpp, src/qos.cpp)

    The four enumerations are scoped [uint8_t] enums: a value read from the wire
    is cast without a check, so each type also holds the values outside its
    enumerators. *)

From S2P Require Import Prelude Memory.

(** ** Enumerations *)

Inductive Reliability := BEST_EFFORT | RELIABLE | OtherReliability (raw : Z).
Inductive Durability := VOLATILE | TRANSIENT_LOCAL | OtherDurability (raw : Z).
Inductive History := KEEP_LAST | KEEP_ALL | OtherHistory (raw : Z).
Inductive Liveliness := AUTOMATIC | MANUAL_BY_TOPIC | OtherLiveliness (raw : Z).

#[global] Instance reliability_eq_dec : EqDecision Reliability.
Proof. solve_decision. Defined.
#[global] Instance durability_eq_dec : EqDecision Durability.
Proof. solve_decision. Defined.
#[global] Instance history_eq_dec : EqDecision History.
Proof. solve_decision. Defined.
#[global] Instance liveliness_eq_dec : EqDecision Liveliness.
Proof. solve_decision. Defined.

(** An enumeration of the wire format: its conversions from and to [uint8_t]. *)
Class WireEnum (E : Type) := {
  enum_to_u8 : E -> Z;
  enum_of_u8 : Z -> E;
  enum_to_of b : enum_to_u8 (enum_of_u8 b) = b;
}.

Definition reliability_to_u8 (e : Reliability) : Z :=
  match e with BEST_EFFORT => 0 | RELIABLE => 1 | OtherReliability r => r end.
Definition reliability_of_u8 (b : Z) : Reliability :=
  if b =? 0 then BEST_EFFORT else if b =? 1 then RELIABLE else OtherReliability b.

Definition durability_to_u8 (e : Durability) : Z :=
  match e with VOLATILE => 0 | TRANSIENT_LOCAL => 1 | OtherDurability r => r end.
Definition durability_of_u8 (b : Z) : Durability :=
  if b =? 0 then VOLATILE else if b =? 1 then TRANSIENT_LOCAL else OtherDurability b.

Definition history_to_u8 (e : History) : Z :=
  match e with KEEP_LAST => 0 | KEEP_ALL => 1 | OtherHistory r => r end.
Definition history_of_u8 (b : Z) : History :=
  if b =? 0 then KEEP_LAST else if b =? 1 then KEEP_ALL else OtherHistory b.

Definition liveliness_to_u8 (e : Liveliness) : Z :=
  match e with AUTOMATIC => 0 | MANUAL_BY_TOPIC => 1 | OtherLiveliness r => r end.
Definition liveliness_of_u8 (b : Z) : Liveliness :=
  if b =? 0 then AUTOMATIC else if b =? 1 then MANUAL_BY_TOPIC else OtherLiveliness b.

Ltac solve_enum := intros b; match goal with |- ?f (?g b) = b => unfold f, g end;
  repeat case_if; zbool; congruence.

#[global] Instance reliability_enum : WireEnum Reliability.
Proof. refine {| enum_to_u8 := reliability_to_u8; enum_of_u8 := reliability_of_u8 |}. solve_enum. Defined.
#[global] Instance durability_enum : WireEnum Durability.
Proof. refine {| enum_to_u8 := durability_to_u8; enum_of_u8 := durability_of_u8 |}. solve_enum. Defined.
#[global] Instance history_enum : WireEnum History.
Proof. refine {| enum_to_u8 := history_to_u8; enum_of_u8 := history_of_u8 |}. solve_enum. Defined.
#[global] Instance liveliness_enum : WireEnum Liveliness.
Proof. refine {| enum_to_u8 := liveliness_to_u8; enum_of_u8 := liveliness_of_u8 |}. solve_enum. Defined.

(** A value of the C++ type: a byte, in its one representation. *)
Definition enum_ok {E} `{WireEnum E} (e : E) : Prop :=
  fits 8 (enum_to_u8 e) /\ enum_of_u8 (enum_to_u8 e) = e.

Lemma enum_of_u8_ok {E} `{WireEnum E} b : fits 8 b -> enum_ok (enum_of_u8 b).
Proof. intros. unfold enum_ok. by rewrite enum_to_of. Qed.

(** ** Profiles *)

Record QosProfile := mkQos {
  reliability : Reliability;
  durability : Durability;
  history : History;
  liveliness : Liveliness;
  depth : Z;
  deadline_ms : Z;
  lifespan_ms : Z;
  liveliness_lease_ms : Z;
}.

#[global] Instance qos_eq_dec : EqDecision QosProfile.
Proof. solve_decision. Defined.

Record qos_ok (q : QosProfile) : Prop := {
  qos_ok_reliability : enum_ok (reliability q);
  qos_ok_durability : enum_ok (durability q);
  qos_ok_history : enum_ok (history q);
  qos_ok_liveliness : enum_ok (liveliness q);
  qos_ok_depth : fits 32 (depth q);
  qos_ok_deadline : fits 64 (deadline_ms q);
  qos_ok_lifespan : fits 64 (lifespan_ms q);
  qos_ok_lease : fits 64 (liveliness_lease_ms q);
}.

Definition preset_default : QosProfile :=
  mkQos RELIABLE VOLATILE KEEP_LAST AUTOMATIC 10 0 0 0.
Definition preset_best_effort : QosProfile :=
  mkQos BEST_EFFORT VOLATILE KEEP_LAST AUTOMATIC 1 0 0 0.
Definition preset_sensor_data : QosProfile :=
  mkQos BEST_EFFORT VOLATILE KEEP_LAST AUTOMATIC 5 100 0 0.
Definition preset_transient_local : QosProfile :=
  mkQos RELIABLE TRANSIENT_LOCAL KEEP_LAST AUTOMATIC 10 0 0 0.
Definition preset_bulk_data : QosProfile :=
  mkQos RELIABLE VOLATILE KEEP_ALL AUTOMATIC 10 0 0 0.

Definition kQosWireSize : Z := 32.

(** ** Validation and matching *)

Definition qos_valid (q : QosProfile) : bool :=
  if (enum_to_u8 RELIABLE <? enum_to_u8 (reliability q)) ||
     (enum_to_u8 TRANSIENT_LOCAL <? enum_to_u8 (durability q)) ||
     (enum_to_u8 KEEP_ALL <? enum_to_u8 (history q)) ||
     (enum_to_u8 MANUAL_BY_TOPIC <? enum_to_u8 (liveliness q))
  then false
  else if bool_decide (history q = KEEP_LAST) && (depth q =? 0) then false
  else true.

Definition qos_compatible (requested offered : QosProfile) : bool :=
  if bool_decide (reliability requested = RELIABLE) &&
     bool_decide (reliability offered = BEST_EFFORT) then false
  else if bool_decide (durability requested = TRANSIENT_LOCAL) &&
          bool_decide (durability offered = VOLATILE) then false
  else true.

Definition qos_accepted_by_reader (reader_qos writer_qos : QosProfile) : bool :=
  if bool_decide (durability reader_qos = TRANSIENT_LOCAL) &&
     bool_decide (durability writer_qos = VOLATILE) then false
  else true.

(** ** Wire form *)

Definition encode_qos (out : list Z) (q : QosProfile) : res (list Z) :=
  out ← store out 0 [enum_to_u8 (reliability q)];
  out ← store out 1 [enum_to_u8 (durability q)];
  out ← store out 2 [enum_to_u8 (history q)];
  out ← store out 3 [enum_to_u8 (liveliness q)];
  out ← store out 4 (put_u32 (depth q));
  out ← store out 8 (put_u64 (deadline_ms q));
  out ← store out 16 (put_u64 (lifespan_ms q));
  store out 24 (put_u64 (liveliness_lease_ms q)).

Definition decode_qos (buf : list Z) : res QosProfile :=
  if len buf <? kQosWireSize then Fail
  else
    r ← load_u8 buf 0; d ← load_u8 buf 1; h ← load_u8 buf 2; l ← load_u8 buf 3;
    dep ← get_u32 buf 4; dl ← get_u64 buf 8;
    ls ← get_u64 buf 16; lease ← get_u64 buf 24;
    Done (mkQos (enum_of_u8 r) (enum_of_u8 d) (enum_of_u8 h) (enum_of_u8 l)
      dep dl ls lease).

(** The 32 bytes of a profile. *)
Definition qos_bytes (q : QosProfile) : list Z :=
  [enum_to_u8 (reliability q)] ++ [enum_to_u8 (durability q)] ++
  [enum_to_u8 (history q)] ++ [enum_to_u8 (liveliness q)] ++
  put_u32 (depth q) ++ put_u64 (deadline_ms q) ++
  put_u64 (lifespan_ms q) ++ put_u64 (liveliness_lease_ms q).

Lemma length_qos_bytes q : length (qos_bytes q) = 32%nat.
Proof. done. Qed.
#[export] Hint Rewrite length_qos_bytes : mdds_len.

Lemma encode_qos_bytes q : encode_qos (zeros kQosWireSize) q = Done (qos_bytes q).
Proof. reflexivity. Qed.

(** ** Round trip and memory safety *)

Lemma qos_bytes_ok q : qos_ok q -> bytes_ok (qos_bytes q).
Proof.
  intros [[] [] [] [] ? ? ? ?]. unfold qos_bytes, bytes_ok.
  rewrite !Forall_app, !Forall_cons, !Forall_nil.
  split_and!; auto with mdds; apply put_u32_bytes_ok || apply put_u64_bytes_ok.
Qed.

Lemma decode_qos_bytes q tail :
  qos_ok q -> decode_qos (qos_bytes q ++ tail) = Done q.
Proof.
  intros [[Hr Hr'] [Hd Hd'] [Hh Hh'] [Hl Hl'] Hdep Hdl Hls Hle]. unfold decode_qos.
  rewrite (proj2 (Z.ltb_ge _ _)) by (unfold kQosWireSize; solve_len).
  unfold qos_bytes. rewrite <- !app_assoc.
  do 4 (eapply bind_done; [apply load_u8_of; find_field|]).
  eapply bind_done; [apply get_u32_put; [find_field|done]|].
  do 3 (eapply bind_done; [apply get_u64_put; [find_field|done]|]).
  rewrite Hr', Hd', Hh', Hl'. by destruct q.
Qed.

(** Whatever the 32 bytes are, the profile read from them is a value of the
    C++ type, and no byte outside the buffer is read. *)
Lemma decode_qos_total buf :
  bytes_ok buf -> kQosWireSize <= len buf ->
  exists q, decode_qos buf = Done q /\ qos_ok q.
Proof.
  unfold kQosWireSize. intros Hok Hlen. unfold decode_qos, kQosWireSize.
  rewrite (proj2 (Z.ltb_ge _ _)) by done.
  destruct (load_u8_in_bounds buf 0) as [r Er]; [lia|].
  destruct (load_u8_in_bounds buf 1) as [d Ed]; [lia|].
  destruct (load_u8_in_bounds buf 2) as [h Eh]; [lia|].
  destruct (load_u8_in_bounds buf 3) as [l El]; [lia|].
  destruct (get_u32_in_bounds buf 4) as [dep Edep]; [lia..|].
  destruct (get_u64_in_bounds buf 8) as [dl Edl]; [lia..|].
  destruct (get_u64_in_bounds buf 16) as [ls Els]; [lia..|].
  destruct (get_u64_in_bounds buf 24) as [le Ele]; [lia..|].
  rewrite Er, Ed, Eh, El, Edep, Edl, Els, Ele. eexists. split; [reflexivity|].
  split; try (apply enum_of_u8_ok; by eapply load_u8_fits); simpl;
    eauto using get_u32_fits, get_u64_fits.
Qed.

(** A valid profile has one of the two known values of each policy. *)
Lemma valid_two_valued q :
  qos_valid q = true ->
  enum_ok (reliability q) -> enum_ok (durability q) ->
  (reliability q = BEST_EFFORT \/ reliability q = RELIABLE) /\
  (durability q = VOLATILE \/ durability q = TRANSIENT_LOCAL).
Proof.
  unfold qos_valid. destruct (_ || _ || _ || _) eqn:E; [done|]. intros _ [[Fr _] Hr] [[Fd _] Hd]. zbool.
  destruct E as [[[E1 E2] _] _]. rewrite <- Hr, <- Hd.
  revert E1 E2 Fr Fd. generalize (enum_to_u8 (reliability q)) (enum_to_u8 (durability q)). intros x y.
  simpl. unfold reliability_of_u8, durability_of_u8. intros.
  clear Hr Hd. split; repeat case_if; zbool; auto; lia.
Qed.

(** ** Properties *)

Module QosSpec.

(** The 32-byte wire form carries a profile exactly (whatever follows it), and
    any received bytes, if there are at least 32, are read inside the buffer as a
    value of the type; shorter input is refused. *)
Theorem qos_wire (q : QosProfile) (tail buf : list Z) :
  qos_ok q -> bytes_ok buf ->
  (b ← encode_qos (zeros kQosWireSize) q; decode_qos (b ++ tail)) = Done q /\
  (if decide (kQosWireSize <= len buf) then exists q', decode_qos buf = Done q' /\ qos_ok q'
   else decode_qos buf = Fail).
Proof.
  intros Hq Hb. split; [rewrite encode_qos_bytes; by apply decode_qos_bytes|].
  case_decide; [by apply decode_qos_total|]. unfold decode_qos.
  by rewrite (proj2 (Z.ltb_lt _ _)) by lia.
Qed.

Lemma qos_wire_witness :
  (b ← encode_qos (zeros kQosWireSize) preset_sensor_data; decode_qos (b ++ [1; 2])) =
    Done preset_sensor_data /\
  (if decide (kQosWireSize <= len [1; 2]) then exists q', decode_qos [1; 2] = Done q' /\ qos_ok q'
   else decode_qos [1; 2] = Fail).
Proof.
  apply qos_wire; [|repeat (apply Forall_cons; split; [ulia|]); constructor].
  split; simpl; try ulia; split; reflexivity || (simpl; ulia).
Defined.

(** Requested against offered: the writer's view is a preorder on valid profiles
    (so equal profiles always match), it implies the reader's, and the two differ only
    for a reliable reader of a best-effort writer. *)
Theorem qos_matching_order (a b c : QosProfile) :
  qos_ok b -> qos_valid b = true ->
  qos_compatible a a = true /\
  (qos_compatible a b = true -> qos_compatible b c = true -> qos_compatible a c = true) /\
  (qos_compatible a b = true <->
   qos_accepted_by_reader a b = true /\
   ~ (reliability a = RELIABLE /\ reliability b = BEST_EFFORT)).
Proof.
  intros [Hr Hd _ _ _ _ _ _] Hv.
  destruct (valid_two_valued b Hv Hr Hd) as [Hrb Hdb].
  unfold qos_compatible, qos_accepted_by_reader. split_and!.
  - by destruct (reliability a), (durability a).
  - destruct Hrb as [-> | ->], Hdb as [-> | ->];
      destruct (reliability a), (durability a), (reliability c), (durability c); done.
  - destruct Hrb as [-> | ->], Hdb as [-> | ->]; destruct (reliability a), (durability a);
      simpl; split; intros H; try done; try (split; [done|by intros []]);
      exfalso; destruct H as [? H]; try done; by apply H.
Qed.

Lemma qos_matching_order_witness :
  qos_compatible preset_default preset_default = true /\
  (qos_compatible preset_default preset_transient_local = true ->
   qos_compatible preset_transient_local preset_sensor_data = true ->
   qos_compatible preset_default preset_sensor_data = true) /\
  (qos_compatible preset_default preset_transient_local = true <->
   qos_accepted_by_reader preset_default preset_transient_local = true /\
   ~ (reliability preset_default = RELIABLE /\ reliability preset_transient_local = BEST_EFFORT)).
Proof.
  apply qos_matching_order; [|reflexivity].
  split; simpl; try ulia; split; reflexivity || (simpl; ulia).
Defined.
End QosSpec.
