(* ===== verification/Frame.v ===== *)
(** * Wire frames (include/mdds/frame.hpp, src/frame.cpp)

    Encoders fill a fresh vector field by field, as the code does; decoders read
    at offsets of a received buffer.  Both are [UB] on an access outside the
    buffer, so "never [UB]" is memory safety. *)

From S2P Require Import Prelude Memory Guid.

(** ** Constants and frame types *)

Inductive FrameType :=
| DATA | DATA_FRAG | ACKNACK | HEARTBEAT | ANNOUNCE | GAP | OtherFrame (raw : Z).

#[global] Instance frame_type_eq_dec : EqDecision FrameType.
Proof. solve_decision. Defined.

Definition frame_type_to_u8 (t : FrameType) : Z :=
  match t with
  | DATA => 1 | DATA_FRAG => 2 | ACKNACK => 3 | HEARTBEAT => 4
  | ANNOUNCE => 5 | GAP => 6 | OtherFrame r => r
  end.

Definition frame_type_of_u8 (b : Z) : FrameType :=
  if b =? 1 then DATA else if b =? 2 then DATA_FRAG else if b =? 3 then ACKNACK
  else if b =? 4 then HEARTBEAT else if b =? 5 then ANNOUNCE
  else if b =? 6 then GAP else OtherFrame b.

Definition kProtocolVersion : Z := 4.
Definition kFlagReliable : Z := 1.
Definition kHeaderSize : Z := 12.
Definition kDataBodyFixedSize : Z := 36.
Definition kDataFragBodyFixedSize : Z := 44.
Definition kAckNackBodySize : Z := 48.
Definition kHeartbeatBodySize : Z := 32.
Definition kGapBodySize : Z := 48.
Definition kTlvOriginGuid : Z := 1.
Definition kTlvOriginSeq : Z := 2.

(** ** Frame contents *)

Record DataTrailer := mkTrailer {
  has_origin : bool;
  origin_guid : Guid;
  origin_seq : Z;
}.

(** [DataTrailer{}] *)
Definition no_trailer : DataTrailer := mkTrailer false zero_guid 0.

Record FrameHeader := mkHeader {
  hdr_type : FrameType;
  hdr_flags : Z;
  hdr_body_len : Z;
}.

(** [payload] points into the decoded buffer: the bytes it points to. *)
Record DataBody := mkData {
  data_writer : Guid;
  data_seq : Z;
  data_pub_time_ms : Z;
  data_payload : list Z;
  data_trailer : DataTrailer;
}.

Record DataFragBody := mkDataFrag {
  frag_writer : Guid;
  frag_seq : Z;
  frag_pub_time_ms : Z;
  frag_total_size : Z;
  frag_offset : Z;
  frag_payload : list Z;
  frag_trailer : DataTrailer;
}.

Record AckNackBody := mkAckNack {
  ack_reader : Guid;
  ack_writer : Guid;
  ack_base_seq : Z;
  ack_bitmap : Z;
}.

Record HeartbeatBody := mkHeartbeat {
  hb_writer : Guid;
  hb_first_seq : Z;
  hb_last_seq : Z;
}.

Record GapBody := mkGap {
  gap_writer : Guid;
  gap_reader : Guid;
  gap_start : Z;
  gap_end : Z;
}.

(** ** Header *)

Definition encode_header (out : list Z) (type : FrameType) (flags body_len : Z)
    : res (list Z) :=
  out ← store out 0 [77];   (* 'M' *)
  out ← store out 1 [68];   (* 'D' *)
  out ← store out 2 [68];   (* 'D' *)
  out ← store out 3 [83];   (* 'S' *)
  out ← store out 4 [kProtocolVersion];
  out ← store out 5 [frame_type_to_u8 type];
  out ← store out 6 (put_u16 flags);
  store out 8 (put_u32 body_len).

Definition decode_header (buf : list Z) : res FrameHeader :=
  if len buf <? kHeaderSize then Fail
  else
    b0 ← load_u8 buf 0; b1 ← load_u8 buf 1; b2 ← load_u8 buf 2; b3 ← load_u8 buf 3;
    if negb (b0 =? 77) || negb (b1 =? 68) || negb (b2 =? 68) || negb (b3 =? 83)
    then Fail
    else
      v ← load_u8 buf 4;
      if negb (v =? kProtocolVersion) then Fail
      else
        ty ← load_u8 buf 5; flags ← get_u16 buf 6; body_len ← get_u32 buf 8;
        if len buf - kHeaderSize <? body_len then Fail
        else Done (mkHeader (frame_type_of_u8 ty) flags body_len).

(** ** TLV trailer *)

Definition encode_trailer (t : DataTrailer) : res (list Z) :=
  if negb (has_origin t) then Done []
  else
    let out := zeros (2 + 16 + 2 + 8) in
    out ← store out 0 [kTlvOriginGuid];
    out ← store out 1 [16];
    out ← store out 2 (guid_bytes (origin_guid t));
    out ← store out 18 [kTlvOriginSeq];
    out ← store out 19 [8];
    store out 20 (put_u64 (origin_seq t)).

(** One recognised or unknown entry. *)
Definition parse_entry (buf : list Z) (pos type tlen : Z) (out : DataTrailer)
    : res DataTrailer :=
  if type =? kTlvOriginGuid then
    if tlen =? 16
    then g ← load buf (pos + 2) 16; Done (mkTrailer true (mkGuid g) (origin_seq out))
    else Done out
  else if type =? kTlvOriginSeq then
    if tlen =? 8
    then s ← get_u64 buf (pos + 2); Done (mkTrailer (has_origin out) (origin_guid out) s)
    else Done out
  else Done out.

(** The loop of [parse_trailer]; the fuel bounds its iterations. *)
Fixpoint parse_loop (fuel : nat) (buf : list Z) (pos : Z) (out : DataTrailer)
    : res (bool * DataTrailer) :=
  match fuel with
  | O => Done (false, out)
  | S fuel =>
      if pos + 2 <=? len buf then
        type ← load_u8 buf pos;
        tlen ← load_u8 buf (pos + 1);
        if len buf <? pos + 2 + tlen then Done (false, out)
        else
          out ← parse_entry buf pos type tlen out;
          parse_loop fuel buf (pos + 2 + tlen) out
      else Done (pos =? len buf, out)
  end.

(** Each entry advances by at least 2 bytes, so the buffer length is enough
    fuel ([parse_loop_fuel]). *)
Definition parse_trailer (buf : list Z) (out : DataTrailer) : res (bool * DataTrailer) :=
  parse_loop (S (length buf)) buf 0 out.

(** ** DATA *)

Definition encode_data (writer : Guid) (seq pub_time_ms : Z)
    (payload : option (list Z)) (payload_len flags : Z)
    (trailer : option DataTrailer) : res (list Z) :=
  tail ← match trailer with Some t => encode_trailer t | None => Done [] end;
  let body_len := u32 (kDataBodyFixedSize + payload_len + len tail) in
  let out := zeros (kHeaderSize + body_len) in
  let body := kHeaderSize in
  out ← encode_header out DATA flags body_len;
  out ← store out body (guid_bytes writer);
  out ← store out (body + 16) (put_u64 seq);
  out ← store out (body + 24) (put_u64 pub_time_ms);
  out ← store out (body + 32) (put_u32 payload_len);
  out ← match payload with
        | Some p =>
            if 0 <? payload_len
            then bs ← load p 0 payload_len; store out (body + kDataBodyFixedSize) bs
            else Done out
        | None => Done out
        end;
  if 0 <? len tail then store out (body + kDataBodyFixedSize + payload_len) tail
  else Done out.

Definition decode_data (buf : list Z) : res DataBody :=
  hdr ← decode_header buf;
  if negb (bool_decide (hdr_type hdr = DATA)) then Fail
  else if hdr_body_len hdr <? kDataBodyFixedSize then Fail
  else
    let body := kHeaderSize in
    writer ← load buf body 16;
    seq ← get_u64 buf (body + 16);
    pub ← get_u64 buf (body + 24);
    payload_len ← get_u32 buf (body + 32);
    if hdr_body_len hdr - kDataBodyFixedSize <? payload_len then Fail
    else
      payload ← load buf (body + kDataBodyFixedSize) payload_len;
      let tail_off := kDataBodyFixedSize + payload_len in
      trailer ← (if tail_off <? hdr_body_len hdr then
                   tl ← load buf (body + tail_off) (hdr_body_len hdr - tail_off);
                   r ← parse_trailer tl no_trailer; Done (snd r)
                 else Done no_trailer);
      Done (mkData (mkGuid writer) seq pub payload trailer).

(** ** DATA_FRAG *)

Definition encode_data_frag (writer : Guid) (seq pub_time_ms total_size offset : Z)
    (payload : option (list Z)) (payload_len flags : Z)
    (trailer : option DataTrailer) : res (list Z) :=
  tail ← match trailer with Some t => encode_trailer t | None => Done [] end;
  let body_len := u32 (kDataFragBodyFixedSize + payload_len + len tail) in
  let out := zeros (kHeaderSize + body_len) in
  let body := kHeaderSize in
  out ← encode_header out DATA_FRAG flags body_len;
  out ← store out body (guid_bytes writer);
  out ← store out (body + 16) (put_u64 seq);
  out ← store out (body + 24) (put_u64 pub_time_ms);
  out ← store out (body + 32) (put_u32 total_size);
  out ← store out (body + 36) (put_u32 offset);
  out ← store out (body + 40) (put_u32 payload_len);
  out ← match payload with
        | Some p =>
            if 0 <? payload_len
            then bs ← load p 0 payload_len; store out (body + kDataFragBodyFixedSize) bs
            else Done out
        | None => Done out
        end;
  if 0 <? len tail then store out (body + kDataFragBodyFixedSize + payload_len) tail
  else Done out.

Definition decode_data_frag (buf : list Z) : res DataFragBody :=
  hdr ← decode_header buf;
  if negb (bool_decide (hdr_type hdr = DATA_FRAG)) then Fail
  else if hdr_body_len hdr <? kDataFragBodyFixedSize then Fail
  else
    let body := kHeaderSize in
    writer ← load buf body 16;
    seq ← get_u64 buf (body + 16);
    pub ← get_u64 buf (body + 24);
    total_size ← get_u32 buf (body + 32);
    offset ← get_u32 buf (body + 36);
    payload_len ← get_u32 buf (body + 40);
    if hdr_body_len hdr - kDataFragBodyFixedSize <? payload_len then Fail
    else
      payload ← load buf (body + kDataFragBodyFixedSize) payload_len;
      let tail_off := kDataFragBodyFixedSize + payload_len in
      trailer ← (if tail_off <? hdr_body_len hdr then
                   tl ← load buf (body + tail_off) (hdr_body_len hdr - tail_off);
                   r ← parse_trailer tl no_trailer; Done (snd r)
                 else Done no_trailer);
      if total_size <? u64 (offset + payload_len) then Fail
      else Done (mkDataFrag (mkGuid writer) seq pub total_size offset payload trailer).

(** ** ACKNACK, HEARTBEAT and GAP *)

Definition encode_acknack (reader writer : Guid) (base_seq bitmap : Z) : res (list Z) :=
  let out := zeros (kHeaderSize + kAckNackBodySize) in
  let body := kHeaderSize in
  out ← encode_header out ACKNACK 0 kAckNackBodySize;
  out ← store out body (guid_bytes reader);
  out ← store out (body + 16) (guid_bytes writer);
  out ← store out (body + 32) (put_u64 base_seq);
  store out (body + 40) (put_u64 bitmap).

Definition decode_acknack (buf : list Z) : res AckNackBody :=
  hdr ← decode_header buf;
  if negb (bool_decide (hdr_type hdr = ACKNACK)) then Fail
  else if hdr_body_len hdr <? kAckNackBodySize then Fail
  else
    let body := kHeaderSize in
    reader ← load buf body 16;
    writer ← load buf (body + 16) 16;
    base ← get_u64 buf (body + 32);
    bitmap ← get_u64 buf (body + 40);
    Done (mkAckNack (mkGuid reader) (mkGuid writer) base bitmap).

Definition encode_heartbeat (writer : Guid) (first_seq last_seq : Z) : res (list Z) :=
  let out := zeros (kHeaderSize + kHeartbeatBodySize) in
  let body := kHeaderSize in
  out ← encode_header out HEARTBEAT 0 kHeartbeatBodySize;
  out ← store out body (guid_bytes writer);
  out ← store out (body + 16) (put_u64 first_seq);
  store out (body + 24) (put_u64 last_seq).

Definition decode_heartbeat (buf : list Z) : res HeartbeatBody :=
  hdr ← decode_header buf;
  if negb (bool_decide (hdr_type hdr = HEARTBEAT)) then Fail
  else if hdr_body_len hdr <? kHeartbeatBodySize then Fail
  else
    let body := kHeaderSize in
    writer ← load buf body 16;
    first ← get_u64 buf (body + 16);
    last ← get_u64 buf (body + 24);
    Done (mkHeartbeat (mkGuid writer) first last).

Definition encode_gap (writer reader : Guid) (start stop : Z) : res (list Z) :=
  let out := zeros (kHeaderSize + kGapBodySize) in
  let body := kHeaderSize in
  out ← encode_header out GAP 0 kGapBodySize;
  out ← store out body (guid_bytes writer);
  out ← store out (body + 16) (guid_bytes reader);
  out ← store out (body + 32) (put_u64 start);
  store out (body + 40) (put_u64 stop).

Definition decode_gap (buf : list Z) : res GapBody :=
  hdr ← decode_header buf;
  if negb (bool_decide (hdr_type hdr = GAP)) then Fail
  else if hdr_body_len hdr <? kGapBodySize then Fail
  else
    let body := kHeaderSize in
    writer ← load buf body 16;
    reader ← load buf (body + 16) 16;
    start ← get_u64 buf (body + 32);
    stop ← get_u64 buf (body + 40);
    Done (mkGap (mkGuid writer) (mkGuid reader) start stop).

(** ** What the encoders write *)

Definition header_bytes (type : FrameType) (flags body_len : Z) : list Z :=
  [77] ++ [68] ++ [68] ++ [83] ++ [kProtocolVersion] ++ [frame_type_to_u8 type] ++
  put_u16 flags ++ put_u32 body_len.

Lemma length_header_bytes t f n : length (header_bytes t f n) = 12%nat.
Proof. done. Qed.
#[export] Hint Rewrite length_header_bytes : mdds_len.

(** One [store] into a partly filled fresh vector. *)
Ltac fill_step := eapply bind_done; [apply store_fill_at; solve_len|]; cbv beta.
Ltac fill_last := rewrite store_fill_at by solve_len.
Ltac fill_start :=
  match goal with |- context [zeros ?n] => rewrite <- (app_nil_l (zeros n)) end.

(** The vector is filled up to its last [k] bytes. *)
Ltac fill_done k :=
  match goal with |- Done (_ ++ zeros ?m) = _ => replace m with k by solve_len end;
  try change (zeros 0) with (@nil Z);
  rewrite <- ?app_assoc, ?app_nil_r; reflexivity.

Lemma encode_header_bytes t flags bl n :
  12 <= n ->
  encode_header (zeros n) t flags bl = Done (header_bytes t flags bl ++ zeros (n - 12)).
Proof.
  intros Hn. unfold encode_header. fill_start. do 7 fill_step. fill_last.
  fill_done (n - 12).
Qed.

Lemma encode_trailer_bytes t :
  guid_ok (origin_guid t) ->
  encode_trailer t =
  Done (if has_origin t
        then [kTlvOriginGuid; 16] ++ guid_bytes (origin_guid t) ++
             [kTlvOriginSeq; 8] ++ put_u64 (origin_seq t)
        else []).
Proof.
  intros [Hg _]. unfold encode_trailer. destruct (has_origin t); [|done]. simpl negb. cbv iota.
  fill_start. do 5 fill_step. fill_last. fill_done 0.
Qed.

Definition trailer_bytes (o : option DataTrailer) : list Z :=
  match o with
  | Some t => if has_origin t
              then [kTlvOriginGuid; 16] ++ guid_bytes (origin_guid t) ++
                   [kTlvOriginSeq; 8] ++ put_u64 (origin_seq t)
              else []
  | None => []
  end.

Definition trailer_ok (o : option DataTrailer) : Prop :=
  match o with Some t => guid_ok (origin_guid t) /\ fits 64 (origin_seq t) | None => True end.

Lemma trailer_tail o :
  trailer_ok o ->
  match o with Some t => encode_trailer t | None => Done [] end = Done (trailer_bytes o).
Proof. destruct o as [t|]; [|done]. intros [? _]. by apply encode_trailer_bytes. Qed.

Lemma trailer_bytes_length o : trailer_ok o -> len (trailer_bytes o) <= 28.
Proof.
  destruct o as [t|]; simpl; [|lia]. intros [[Hg _] _].
  destruct (has_origin t); simpl; [|lia]. rewrite length_app. simpl. lia.
Qed.

Definition data_bytes (writer : Guid) (seq pub : Z) (p : list Z) (flags : Z)
    (o : option DataTrailer) : list Z :=
  header_bytes DATA flags (36 + len p + len (trailer_bytes o)) ++
  guid_bytes writer ++ put_u64 seq ++ put_u64 pub ++ put_u32 (len p) ++ p ++ trailer_bytes o.

(** The optional copy of the payload into the vector. *)
Lemma payload_fill pre n off p :
  off = len pre -> len p <= n ->
  (if 0 <? len p
   then bs ← load p 0 (len p); store (pre ++ zeros n) off bs
   else Done (pre ++ zeros n)) = Done ((pre ++ p) ++ zeros (n - len p)).
Proof.
  intros -> Hn. destruct (Z.ltb_spec 0 (len p)).
  - rewrite load_all by done. simpl. by apply store_fill_at.
  - destruct p; simpl in *; [|lia]. by rewrite app_nil_r, Z.sub_0_r.
Qed.

Lemma tail_fill pre n off tl :
  off = len pre -> n = len tl ->
  (if 0 <? len tl then store (pre ++ zeros n) off tl else Done (pre ++ zeros n)) =
  Done (pre ++ tl).
Proof.
  intros -> ->. destruct (Z.ltb_spec 0 (len tl)).
  - rewrite store_fill_at by lia. by rewrite Z.sub_diag, app_nil_r.
  - destruct tl; simpl in *; [done|lia].
Qed.

Lemma encode_data_bytes writer seq pub p flags o :
  guid_ok writer -> trailer_ok o -> 64 + len p < 2 ^ 32 ->
  encode_data writer seq pub (Some p) (len p) flags o = Done (data_bytes writer seq pub p flags o).
Proof.
  intros [Hg _] Ho Hp. pose proof (trailer_bytes_length o Ho).
  unfold encode_data. rewrite (trailer_tail o Ho). simpl mbind.
  rewrite wrap_id by (unfold kDataBodyFixedSize; ulia).
  unfold kHeaderSize, kDataBodyFixedSize.
  eapply bind_done; [apply encode_header_bytes; lia|]. cbv beta.
  do 4 fill_step.
  eapply bind_done; [apply payload_fill; solve_len|]. cbv beta.
  rewrite tail_fill by solve_len. unfold data_bytes. by rewrite <- !app_assoc.
Qed.

Definition data_frag_bytes (writer : Guid) (seq pub total off : Z) (p : list Z) (flags : Z)
    (o : option DataTrailer) : list Z :=
  header_bytes DATA_FRAG flags (44 + len p + len (trailer_bytes o)) ++
  guid_bytes writer ++ put_u64 seq ++ put_u64 pub ++ put_u32 total ++ put_u32 off ++
  put_u32 (len p) ++ p ++ trailer_bytes o.

Lemma encode_data_frag_bytes writer seq pub total off p flags o :
  guid_ok writer -> trailer_ok o -> 72 + len p < 2 ^ 32 ->
  encode_data_frag writer seq pub total off (Some p) (len p) flags o =
  Done (data_frag_bytes writer seq pub total off p flags o).
Proof.
  intros [Hg _] Ho Hp. pose proof (trailer_bytes_length o Ho).
  unfold encode_data_frag. rewrite (trailer_tail o Ho). simpl mbind.
  rewrite wrap_id by (unfold kDataFragBodyFixedSize; ulia).
  unfold kHeaderSize, kDataFragBodyFixedSize.
  eapply bind_done; [apply encode_header_bytes; lia|]. cbv beta.
  do 6 fill_step.
  eapply bind_done; [apply payload_fill; solve_len|]. cbv beta.
  rewrite tail_fill by solve_len. unfold data_frag_bytes. by rewrite <- !app_assoc.
Qed.

Definition acknack_bytes (r w : Guid) (base bitmap : Z) : list Z :=
  header_bytes ACKNACK 0 48 ++ guid_bytes r ++ guid_bytes w ++ put_u64 base ++ put_u64 bitmap.
Definition heartbeat_bytes (w : Guid) (first last : Z) : list Z :=
  header_bytes HEARTBEAT 0 32 ++ guid_bytes w ++ put_u64 first ++ put_u64 last.
Definition gap_bytes (w r : Guid) (start stop : Z) : list Z :=
  header_bytes GAP 0 48 ++ guid_bytes w ++ guid_bytes r ++ put_u64 start ++ put_u64 stop.

Ltac solve_fixed_encoder :=
  eapply bind_done; [apply encode_header_bytes; lia|]; cbv beta;
  repeat fill_step; fill_last; fill_done 0.

Lemma encode_acknack_bytes r w base bitmap :
  guid_ok r -> guid_ok w -> encode_acknack r w base bitmap = Done (acknack_bytes r w base bitmap).
Proof.
  intros [Hr _] [Hw _]. unfold encode_acknack, kHeaderSize, kAckNackBodySize.
  solve_fixed_encoder.
Qed.

Lemma encode_heartbeat_bytes w first last :
  guid_ok w -> encode_heartbeat w first last = Done (heartbeat_bytes w first last).
Proof.
  intros [Hw _]. unfold encode_heartbeat, kHeaderSize, kHeartbeatBodySize.
  solve_fixed_encoder.
Qed.

Lemma encode_gap_bytes w r start stop :
  guid_ok w -> guid_ok r -> encode_gap w r start stop = Done (gap_bytes w r start stop).
Proof.
  intros [Hw _] [Hr _]. unfold encode_gap, kHeaderSize, kGapBodySize.
  solve_fixed_encoder.
Qed.

(** ** What the decoders read *)

(** A frame type a received byte stands for. *)
Definition type_ok (t : FrameType) : Prop :=
  fits 8 (frame_type_to_u8 t) /\ frame_type_of_u8 (frame_type_to_u8 t) = t.

Lemma decode_header_bytes t flags bl rest :
  type_ok t -> fits 16 flags -> fits 32 bl -> bl <= len rest ->
  decode_header (header_bytes t flags bl ++ rest) = Done (mkHeader t flags bl).
Proof.
  intros [_ Ht] Hf Hbl Hrest. unfold decode_header, kHeaderSize.
  rewrite (proj2 (Z.ltb_ge _ _)) by solve_len.
  unfold header_bytes. rewrite <- !app_assoc.
  do 4 (eapply bind_done; [apply load_u8_of; find_field|]). simpl negb. cbv iota.
  eapply bind_done; [apply load_u8_of; find_field|]. simpl negb. cbv iota.
  eapply bind_done; [apply load_u8_of; find_field|].
  eapply bind_done; [apply get_u16_put; [find_field|done]|].
  eapply bind_done; [apply get_u32_put; [find_field|done]|].
  cbv beta. rewrite (proj2 (Z.ltb_ge _ _)) by solve_len. by rewrite Ht.
Qed.

(** *** The trailer loop *)

Lemma parse_entry_total buf pos type tlen out :
  bytes_ok buf -> 0 <= pos -> 0 <= tlen -> pos + 2 + tlen <= len buf ->
  exists out', parse_entry buf pos type tlen out = Done out'.
Proof.
  intros Hok Hpos Ht Hb. unfold parse_entry.
  repeat case_if; zbool; subst; eauto.
  - destruct (load_in_bounds buf (pos + 2) 16) as (g & -> & _); [lia..|]. by eexists.
  - destruct (get_u64_in_bounds buf (pos + 2)) as [s ->]; [lia..|]. by eexists.
Qed.

Lemma parse_loop_total fuel buf pos out :
  bytes_ok buf -> 0 <= pos -> exists r, parse_loop fuel buf pos out = Done r.
Proof.
  intros Hok. revert pos out. induction fuel as [|fuel IH]; intros pos out Hpos; simpl.
  { by eexists. }
  destruct (Z.leb_spec (pos + 2) (len buf)); [|by eexists].
  destruct (load_u8_in_bounds buf pos) as [ty ->]; [lia|]. simpl.
  destruct (load_u8_in_bounds buf (pos + 1)) as [tl Htl]; [lia|]. rewrite Htl. simpl.
  apply (load_u8_fits _ _ _ Hok) in Htl.
  destruct (Z.ltb_spec (len buf) (pos + 2 + tl)); [by eexists|].
  destruct (parse_entry_total buf pos ty tl out) as [out' ->]; [done|ulia..|].
  simpl. apply IH. ulia.
Qed.

(** Any two amounts of fuel that exceed the bytes left give the same result:
    the loop terminates by itself, and never for lack of fuel. *)
Lemma parse_loop_fuel f1 f2 buf pos out :
  bytes_ok buf -> 0 <= pos -> len buf - pos < Z.of_nat f1 -> len buf - pos < Z.of_nat f2 ->
  parse_loop f1 buf pos out = parse_loop f2 buf pos out.
Proof.
  intros Hok. revert f2 pos out.
  induction f1 as [|f1 IH]; intros [|f2] pos out Hpos H1 H2; simpl; try reflexivity.
  - rewrite (proj2 (Z.leb_gt _ _)) by lia. simpl. by rewrite (proj2 (Z.eqb_neq _ _)) by lia.
  - rewrite (proj2 (Z.leb_gt _ _)) by lia. by rewrite (proj2 (Z.eqb_neq _ _)) by lia.
  - destruct (Z.leb_spec (pos + 2) (len buf)); [|done].
    destruct (load_u8_in_bounds buf pos) as [ty ->]; [lia|]. simpl.
    destruct (load_u8_in_bounds buf (pos + 1)) as [tl Htl]; [lia|]. rewrite Htl. simpl.
    apply (load_u8_fits _ _ _ Hok) in Htl.
    destruct (Z.ltb_spec (len buf) (pos + 2 + tl)); [done|].
    destruct (parse_entry_total buf pos ty tl out) as [out' ->]; [done|ulia..|].
    simpl. apply IH; ulia.
Qed.

Lemma load_u8_app pre post off :
  len pre <= off -> load_u8 (pre ++ post) off = load_u8 post (off - len pre).
Proof. intros. unfold load_u8. by rewrite load_skip. Qed.

Lemma get_u64_app pre post off :
  len pre <= off -> get_u64 (pre ++ post) off = get_u64 post (off - len pre).
Proof.
  intros. unfold get_u64, get_u32. rewrite !load_u8_app by lia.
  by rewrite !Z.add_sub_swap.
Qed.

Lemma parse_entry_app pre post pos ty tl out :
  len pre <= pos -> parse_entry (pre ++ post) pos ty tl out = parse_entry post (pos - len pre) ty tl out.
Proof.
  intros. unfold parse_entry. rewrite load_skip, get_u64_app by lia.
  by rewrite !Z.add_sub_swap.
Qed.

(** Entries already consumed do not matter. *)
Lemma parse_loop_app fuel pre post pos out :
  bytes_ok post -> len pre <= pos ->
  parse_loop fuel (pre ++ post) pos out = parse_loop fuel post (pos - len pre) out.
Proof.
  intros Hok. revert pos out. induction fuel as [|fuel IH]; intros pos out Hpos; [done|].
  cbn [parse_loop]. rewrite !load_u8_app by lia. rewrite !length_app, !Nat2Z.inj_add.
  replace (pos + 2 <=? len pre + len post) with (pos - len pre + 2 <=? len post)
    by (apply eq_true_iff_eq; zbool; lia).
  replace (pos + 1 - len pre) with (pos - len pre + 1) by lia.
  replace (pos =? len pre + len post) with (pos - len pre =? len post)
    by (apply eq_true_iff_eq; zbool; lia).
  destruct (pos - len pre + 2 <=? len post); [|done].
  destruct (load_u8 post (pos - len pre)) as [ty| |]; try done. simpl.
  destruct (load_u8 post (pos - len pre + 1)) as [tl| |] eqn:Htl; try done. simpl.
  apply (load_u8_fits _ _ _ Hok) in Htl.
  replace (len pre + len post <? pos + 2 + tl) with (len post <? pos - len pre + 2 + tl)
    by (apply eq_true_iff_eq; zbool; lia).
  destruct (len post <? pos - len pre + 2 + tl); [done|].
  rewrite parse_entry_app by lia.
  destruct (parse_entry post _ _ _ _) as [out'| |]; try done. simpl.
  rewrite IH by ulia. f_equal. lia.
Qed.

(** One entry [type | len | value], then the rest. *)
Lemma parse_trailer_cons ty v rest out out' :
  bytes_ok rest -> len v < 256 -> bytes_ok v -> fits 8 ty ->
  parse_entry (([ty] ++ [len v] ++ v) ++ rest) 0 ty (len v) out = Done out' ->
  parse_trailer (([ty] ++ [len v] ++ v) ++ rest) out = parse_trailer rest out'.
Proof.
  intros Hr Hv Hvok Hty He. set (pre := [ty] ++ [len v] ++ v).
  assert (Hpre : len pre = 2 + len v).
  { unfold pre. rewrite !length_app. simpl length. lia. }
  unfold parse_trailer. set (r := parse_loop (S (length rest)) rest 0 out').
  cbn [parse_loop]. subst r. rewrite length_app, (proj2 (Z.leb_le _ _)) by lia.
  eapply bind_done; [apply load_u8_of; unfold pre; find_field|]. cbv beta.
  eapply bind_done; [apply load_u8_of; unfold pre; find_field|]. cbv beta.
  rewrite (proj2 (Z.ltb_ge _ _)) by lia.
  eapply bind_done; [exact He|]. cbv beta.
  rewrite parse_loop_app by (done || lia).
  replace (0 + 2 + len v - len pre) with 0 by lia.
  apply parse_loop_fuel; try done; lia.
Qed.

Lemma parse_trailer_bytes t :
  has_origin t = true -> guid_ok (origin_guid t) -> fits 64 (origin_seq t) ->
  parse_trailer (trailer_bytes (Some t)) no_trailer = Done (true, t).
Proof.
  intros Ht [Hg Hgok] Hs. unfold trailer_bytes. rewrite Ht.
  destruct t as [b [g] s]. simpl in *. subst b.
  trans (parse_trailer (([1] ++ [len g] ++ g) ++
    (([2] ++ [len (put_u64 s)] ++ put_u64 s) ++ [])) no_trailer).
  { apply (f_equal (fun l => parse_trailer l no_trailer)). rewrite Hg, app_nil_r, <- !app_assoc. reflexivity. }
  rewrite (parse_trailer_cons 1 g _ _ (mkTrailer true (mkGuid g) 0)).
  - apply (parse_trailer_cons 2 (put_u64 s) [] _ (mkTrailer true (mkGuid g) s)).
    + constructor.
    + done.
    + apply put_u64_bytes_ok.
    + ulia.
    + apply (bind_done _ s); [apply get_u64_put; [find_field|done]|done].
  - unfold bytes_ok. rewrite !Forall_app, !Forall_cons, !Forall_nil.
    split_and!; try done; apply put_u64_bytes_ok.
  - lia.
  - done.
  - ulia.
  - unfold parse_entry. rewrite Hg. apply (bind_done _ g); [find_field|done].
Qed.

(** *** Round trips *)

Definition decoded_trailer (o : option DataTrailer) : DataTrailer :=
  match o with Some t => if has_origin t then t else no_trailer | None => no_trailer end.

(** Reading the optional trailer back: it occupies the body from [a] to [b]. *)
Lemma read_trailer_bytes buf off a b o :
  trailer_ok o -> load buf off (b - a) = Done (trailer_bytes o) ->
  (if a <? b then
     tl ← load buf off (b - a); r ← parse_trailer tl no_trailer; Done (snd r)
   else Done no_trailer) = Done (decoded_trailer o).
Proof.
  intros Ho Hl. pose proof (load_length _ _ _ _ Hl) as Hn.
  rewrite Hl. simpl mbind. destruct o as [t|]; simpl in *.
  2:{ by rewrite (proj2 (Z.ltb_ge _ _)) by lia. }
  destruct (has_origin t) eqn:Ht.
  2:{ by rewrite (proj2 (Z.ltb_ge _ _)) by (simpl in Hn; lia). }
  destruct Ho. rewrite (proj2 (Z.ltb_lt _ _)) by (simpl in Hn; lia).
  pose proof (parse_trailer_bytes t Ht) as Hp. simpl in Hp. rewrite Ht in Hp.
  by rewrite Hp.
Qed.

Ltac enter_body :=
  eapply bind_done;
    [apply decode_header_bytes; [by split| ulia | solve_len | solve_len]|];
  cbv beta; simpl hdr_type; simpl hdr_body_len;
  rewrite bool_decide_true by done; simpl negb; cbv iota.

Ltac read_field :=
  eapply bind_done;
    [first [ apply get_u64_put; [find_field|done]
           | apply get_u32_put; [find_field|ulia]
           | find_field ]|]; cbv beta.

Lemma decode_data_bytes w seq pub p flags o extra :
  guid_ok w -> fits 64 seq -> fits 64 pub -> 64 + len p < 2 ^ 32 -> fits 16 flags ->
  trailer_ok o ->
  decode_data (data_bytes w seq pub p flags o ++ extra) =
  Done (mkData w seq pub p (decoded_trailer o)).
Proof.
  intros [Hg _] Hs Hpub Hp Hf Ho. pose proof (trailer_bytes_length o Ho).
  unfold decode_data, data_bytes, kHeaderSize, kDataBodyFixedSize. rewrite <- !app_assoc.
  enter_body. rewrite (proj2 (Z.ltb_ge _ _)) by lia.
  do 4 read_field. rewrite (proj2 (Z.ltb_ge _ _)) by lia.
  read_field.
  eapply bind_done; [apply read_trailer_bytes; [done|find_field]|]. by destruct w.
Qed.

Lemma decode_data_frag_bytes w seq pub total off p flags o extra :
  guid_ok w -> fits 64 seq -> fits 64 pub -> 72 + len p < 2 ^ 32 -> fits 16 flags ->
  fits 32 total -> fits 32 off -> off + len p <= total -> trailer_ok o ->
  decode_data_frag (data_frag_bytes w seq pub total off p flags o ++ extra) =
  Done (mkDataFrag w seq pub total off p (decoded_trailer o)).
Proof.
  intros [Hg _] Hs Hpub Hp Hf Ht Hoff Hle Ho. pose proof (trailer_bytes_length o Ho).
  unfold decode_data_frag, data_frag_bytes, kHeaderSize, kDataFragBodyFixedSize.
  rewrite <- !app_assoc. enter_body. rewrite (proj2 (Z.ltb_ge _ _)) by lia.
  do 6 read_field. rewrite (proj2 (Z.ltb_ge _ _)) by lia.
  read_field.
  eapply bind_done; [apply read_trailer_bytes; [done|find_field]|]. cbv beta.
  rewrite wrap_id by ulia. rewrite (proj2 (Z.ltb_ge _ _)) by lia. by destruct w.
Qed.

Lemma decode_acknack_bytes r w base bitmap extra :
  guid_ok r -> guid_ok w -> fits 64 base -> fits 64 bitmap ->
  decode_acknack (acknack_bytes r w base bitmap ++ extra) = Done (mkAckNack r w base bitmap).
Proof.
  intros [Hr _] [Hw _] Hb Hm. unfold decode_acknack, acknack_bytes, kHeaderSize, kAckNackBodySize.
  rewrite <- !app_assoc. enter_body. rewrite (proj2 (Z.ltb_ge _ _)) by lia.
  do 4 read_field. by destruct r, w.
Qed.

Lemma decode_heartbeat_bytes w first last extra :
  guid_ok w -> fits 64 first -> fits 64 last ->
  decode_heartbeat (heartbeat_bytes w first last ++ extra) = Done (mkHeartbeat w first last).
Proof.
  intros [Hw _] Hb Hm. unfold decode_heartbeat, heartbeat_bytes, kHeaderSize, kHeartbeatBodySize.
  rewrite <- !app_assoc. enter_body. rewrite (proj2 (Z.ltb_ge _ _)) by lia.
  do 3 read_field. by destruct w.
Qed.

Lemma decode_gap_bytes w r start stop extra :
  guid_ok w -> guid_ok r -> fits 64 start -> fits 64 stop ->
  decode_gap (gap_bytes w r start stop ++ extra) = Done (mkGap w r start stop).
Proof.
  intros [Hw _] [Hr _] Hb Hm. unfold decode_gap, gap_bytes, kHeaderSize, kGapBodySize.
  rewrite <- !app_assoc. enter_body. rewrite (proj2 (Z.ltb_ge _ _)) by lia.
  do 4 read_field. by destruct r, w.
Qed.

(** ** Memory safety: any received bytes are decoded without leaving the buffer *)

(** One read of a decoder on a buffer of real bytes. *)
Ltac safe_step :=
  eapply safe_bind;
  [ first [ apply safe_load; [assumption|lia..]
          | apply safe_load_u8; [assumption|lia..]
          | apply safe_get_u16; lia
          | apply safe_get_u32; [assumption|lia..]
          | apply safe_get_u64; [assumption|lia..] ]
  | let a := fresh "v" in let H := fresh "Hv" in intros a H; cbv beta in H |- * ].

Definition header_ok (buf : list Z) (h : FrameHeader) : Prop :=
  fits 16 (hdr_flags h) /\ fits 32 (hdr_body_len h) /\
  kHeaderSize + hdr_body_len h <= len buf.

Section safe_decoders.
Context (buf : list Z) (Hok : bytes_ok buf).

Lemma decode_header_safe : safe (header_ok buf) (decode_header buf).
Proof.
  unfold decode_header, header_ok, kHeaderSize.
  destruct (Z.ltb_spec (len buf) 12); [done|].
  do 4 safe_step. case_if; [done|]. safe_step. case_if; [done|].
  do 3 safe_step. destruct (Z.ltb_spec (len buf - 12) v6); [done|].
  simpl. split_and!; [done..|lia].
Qed.

Lemma guid_ok_intro bs n : len bs = 16 /\ bytes_ok bs -> n = bs -> guid_ok (mkGuid n).
Proof. intros [? ?] ->. split; simpl; [lia|done]. Qed.

(** Header and length checks shared by the decoders. *)
Lemma safe_body {A} (P : A -> Prop) t n (k : FrameHeader -> res A) :
  (forall h, header_ok buf h -> n <= hdr_body_len h -> safe P (k h)) ->
  safe P (hdr ← decode_header buf;
          if negb (bool_decide (hdr_type hdr = t)) then Fail
          else if hdr_body_len hdr <? n then Fail else k hdr).
Proof.
  intros Hk. eapply safe_bind; [apply decode_header_safe|]. intros h Hh. cbv beta.
  case_if; [done|]. destruct (Z.ltb_spec (hdr_body_len h) n); [done|auto].
Qed.

Lemma safe_trailer off n :
  0 <= off -> off + n <= len buf ->
  safe (fun _ => True)
    (if 0 <? n then tl ← load buf off n; r ← parse_trailer tl no_trailer; Done (snd r)
     else Done no_trailer).
Proof.
  intros. destruct (Z.ltb_spec 0 n); [|done]. safe_step.
  destruct (parse_loop_total (S (length v)) v 0 no_trailer) as [r Hr]; [apply Hv|lia|].
  unfold parse_trailer. by rewrite Hr.
Qed.

Lemma decode_acknack_safe :
  safe (fun b => guid_ok (ack_reader b) /\ guid_ok (ack_writer b) /\
                 fits 64 (ack_base_seq b) /\ fits 64 (ack_bitmap b)) (decode_acknack buf).
Proof.
  apply safe_body. unfold kAckNackBodySize, kHeaderSize, header_ok.
  intros h (_ & _ & Hlen) Hn. unfold kHeaderSize in Hlen. do 4 safe_step.
  simpl. split_and!; eauto using guid_ok_intro.
Qed.

Lemma decode_heartbeat_safe :
  safe (fun b => guid_ok (hb_writer b) /\ fits 64 (hb_first_seq b) /\
                 fits 64 (hb_last_seq b)) (decode_heartbeat buf).
Proof.
  apply safe_body. unfold kHeartbeatBodySize, kHeaderSize, header_ok.
  intros h (_ & _ & Hlen) Hn. unfold kHeaderSize in Hlen. do 3 safe_step.
  simpl. split_and!; eauto using guid_ok_intro.
Qed.

Lemma decode_gap_safe :
  safe (fun b => guid_ok (gap_writer b) /\ guid_ok (gap_reader b) /\
                 fits 64 (gap_start b) /\ fits 64 (gap_end b)) (decode_gap buf).
Proof.
  apply safe_body. unfold kGapBodySize, kHeaderSize, header_ok.
  intros h (_ & _ & Hlen) Hn. unfold kHeaderSize in Hlen. do 4 safe_step.
  simpl. split_and!; eauto using guid_ok_intro.
Qed.

Definition data_ok (b : DataBody) : Prop :=
  guid_ok (data_writer b) /\ fits 64 (data_seq b) /\ fits 64 (data_pub_time_ms b) /\
  bytes_ok (data_payload b) /\ fits 32 (len (data_payload b)).

Lemma decode_data_within :
  safe (fun b => data_ok b /\ 48 + len (data_payload b) <= len buf) (decode_data buf).
Proof.
  apply safe_body. unfold kDataBodyFixedSize, kHeaderSize, header_ok.
  intros h (_ & _ & Hlen) Hn. unfold kHeaderSize in Hlen. do 4 safe_step.
  destruct (Z.ltb_spec (hdr_body_len h - 36) v2); [done|].
  unfold fits in Hv2. safe_step.
  eapply safe_bind.
  { replace (36 + v2 <? hdr_body_len h) with (0 <? hdr_body_len h - (36 + v2))
      by (apply eq_true_iff_eq; zbool; lia).
    apply safe_trailer; lia. }
  intros tl _. simpl. unfold data_ok, fits; simpl.
  destruct Hv3 as [-> ?].
  split_and!; eauto using guid_ok_intro; (apply Hv2 || apply Hv0 || apply Hv1 || lia).
Qed.

Lemma decode_data_safe : safe data_ok (decode_data buf).
Proof. eapply safe_mono; [apply decode_data_within|]. intros b Hb. apply Hb. Qed.

(** The range check of the fragment is the one the reassembler relies on. *)
Definition data_frag_ok (b : DataFragBody) : Prop :=
  guid_ok (frag_writer b) /\ fits 64 (frag_seq b) /\ fits 64 (frag_pub_time_ms b) /\
  bytes_ok (frag_payload b) /\ fits 32 (frag_total_size b) /\ 0 <= frag_offset b /\
  frag_offset b + len (frag_payload b) <= frag_total_size b.

Lemma decode_data_frag_safe : safe data_frag_ok (decode_data_frag buf).
Proof.
  apply safe_body. unfold kDataFragBodyFixedSize, kHeaderSize, header_ok.
  intros h (_ & _ & Hlen) Hn. unfold kHeaderSize in Hlen. do 6 safe_step.
  destruct (Z.ltb_spec (hdr_body_len h - 44) v4); [done|].
  unfold fits in Hv2, Hv3, Hv4. safe_step.
  eapply safe_bind.
  { replace (44 + v4 <? hdr_body_len h) with (0 <? hdr_body_len h - (44 + v4))
      by (apply eq_true_iff_eq; zbool; lia).
    apply safe_trailer; lia. }
  intros tl _. simpl. rewrite wrap_id by ulia.
  destruct (Z.ltb_spec v2 (v3 + v4)); [done|]. unfold data_frag_ok; simpl.
  destruct Hv5 as [Hv5 ?]. split_and!; eauto using guid_ok_intro; ulia.
Qed.
End safe_decoders.

(** ** Forward compatibility *)

(** A TLV entry of a type this version does not know. *)
Definition unknown_entry (e : Z * list Z) : Prop :=
  fits 8 e.1 /\ e.1 <> kTlvOriginGuid /\ e.1 <> kTlvOriginSeq /\ len e.2 < 256 /\ bytes_ok e.2.

Definition entry_bytes (e : Z * list Z) : list Z := [e.1] ++ [len e.2] ++ e.2.

Lemma parse_unknown e rest out :
  unknown_entry e -> bytes_ok rest ->
  parse_trailer (entry_bytes e ++ rest) out = parse_trailer rest out.
Proof.
  intros (Hty & Hg & Hs & Hl & Hv) Hr. apply parse_trailer_cons; try done.
  unfold parse_entry. by rewrite (proj2 (Z.eqb_neq _ _) Hg), (proj2 (Z.eqb_neq _ _) Hs).
Qed.

Lemma entry_bytes_ok e : unknown_entry e -> bytes_ok (entry_bytes e).
Proof.
  intros (Hty & _ & _ & Hl & Hv). unfold entry_bytes, bytes_ok.
  rewrite !Forall_app, !Forall_cons, Forall_nil. split_and!; try done; ulia.
Qed.

Lemma trailer_bytes_ok t : guid_ok (origin_guid t) -> bytes_ok (trailer_bytes (Some t)).
Proof.
  intros [_ Hg]. cbn [trailer_bytes]. destruct (has_origin t); [|constructor].
  unfold bytes_ok in *. rewrite !Forall_app, !Forall_cons, !Forall_nil.
  split_and!; try done; try apply put_u64_bytes_ok; ulia.
Qed.

(** ** Properties *)

Module FrameSpec.

(** C38. DATA round trip: a sample that fits the 32-bit length field is encoded
    without leaving the vector, into a frame of the announced size, and decodes
    to the same fields, payload and trailer, whatever follows it in the buffer. *)
Theorem data_roundtrip w seq pub p flags o extra :
  guid_ok w -> fits 64 seq -> fits 64 pub -> 64 + len p < 2 ^ 32 -> fits 16 flags ->
  trailer_ok o ->
  exists frame,
    encode_data w seq pub (Some p) (len p) flags o = Done frame /\
    len frame <= kHeaderSize + kDataBodyFixedSize + len p + 28 /\
    decode_data (frame ++ extra) = Done (mkData w seq pub p (decoded_trailer o)).
Proof.
  intros Hw ? ? ? ? Ho. exists (data_bytes w seq pub p flags o). split_and!.
  - by apply encode_data_bytes.
  - unfold data_bytes, kHeaderSize, kDataBodyFixedSize. destruct Hw.
    pose proof (trailer_bytes_length o Ho). solve_len.
  - by apply decode_data_bytes.
Qed.

Lemma data_roundtrip_witness :
  exists frame,
    encode_data zero_guid 7 3 (Some [1; 2; 255]) (len [1; 2; 255]) kFlagReliable
      (Some (mkTrailer true zero_guid 5)) = Done frame /\
    len frame <= kHeaderSize + kDataBodyFixedSize + len [1; 2; 255] + 28 /\
    decode_data (frame ++ [0]) =
      Done (mkData zero_guid 7 3 [1; 2; 255] (decoded_trailer (Some (mkTrailer true zero_guid 5)))).
Proof.
  apply data_roundtrip; [exact zero_guid_ok|unfold kFlagReliable; simpl; ulia..|].
  split; [exact zero_guid_ok|simpl; ulia].
Defined.

(** DATA_FRAG round trip, for a fragment inside its message. *)
Theorem data_frag_roundtrip w seq pub total off p flags o extra :
  guid_ok w -> fits 64 seq -> fits 64 pub -> 72 + len p < 2 ^ 32 -> fits 16 flags ->
  fits 32 total -> fits 32 off -> off + len p <= total -> trailer_ok o ->
  exists frame,
    encode_data_frag w seq pub total off (Some p) (len p) flags o = Done frame /\
    decode_data_frag (frame ++ extra) =
      Done (mkDataFrag w seq pub total off p (decoded_trailer o)).
Proof.
  intros. exists (data_frag_bytes w seq pub total off p flags o). split.
  - by apply encode_data_frag_bytes.
  - by apply decode_data_frag_bytes.
Qed.

Lemma data_frag_roundtrip_witness :
  exists frame,
    encode_data_frag zero_guid 7 3 10 4 (Some [1; 2; 255]) (len [1; 2; 255]) 0 None = Done frame /\
    decode_data_frag (frame ++ []) =
      Done (mkDataFrag zero_guid 7 3 10 4 [1; 2; 255] (decoded_trailer None)).
Proof. apply data_frag_roundtrip; [exact zero_guid_ok|simpl; ulia..|done]. Defined.

(** ACKNACK, HEARTBEAT and GAP round trips. *)
Theorem control_roundtrip a b x y extra :
  guid_ok a -> guid_ok b -> fits 64 x -> fits 64 y ->
  (f ← encode_acknack a b x y; decode_acknack (f ++ extra)) = Done (mkAckNack a b x y) /\
  (f ← encode_heartbeat a x y; decode_heartbeat (f ++ extra)) = Done (mkHeartbeat a x y) /\
  (f ← encode_gap a b x y; decode_gap (f ++ extra)) = Done (mkGap a b x y).
Proof.
  intros Ha Hb Hx Hy. split_and!.
  - rewrite encode_acknack_bytes by done. by apply decode_acknack_bytes.
  - rewrite encode_heartbeat_bytes by done. by apply decode_heartbeat_bytes.
  - rewrite encode_gap_bytes by done. by apply decode_gap_bytes.
Qed.

Lemma control_roundtrip_witness :
  (f ← encode_acknack zero_guid zero_guid 1 6; decode_acknack (f ++ [9])) =
    Done (mkAckNack zero_guid zero_guid 1 6) /\
  (f ← encode_heartbeat zero_guid 1 6; decode_heartbeat (f ++ [9])) =
    Done (mkHeartbeat zero_guid 1 6) /\
  (f ← encode_gap zero_guid zero_guid 1 6; decode_gap (f ++ [9])) =
    Done (mkGap zero_guid zero_guid 1 6).
Proof. apply control_roundtrip; try exact zero_guid_ok; ulia. Defined.

(** C37. Whatever bytes arrive, no decoder reads outside the buffer; and what a
    decoder accepts satisfies the invariants its callers rely on (a fragment lies
    inside its message, a payload inside the frame). *)
Theorem decoders_memory_safe (buf : list Z) :
  bytes_ok buf ->
  safe (header_ok buf) (decode_header buf) /\
  safe (fun b => data_ok b /\ 48 + len (data_payload b) <= len buf) (decode_data buf) /\
  safe data_frag_ok (decode_data_frag buf) /\
  safe (fun b => guid_ok (ack_reader b) /\ guid_ok (ack_writer b)) (decode_acknack buf) /\
  safe (fun b => guid_ok (hb_writer b)) (decode_heartbeat buf) /\
  safe (fun b => guid_ok (gap_writer b) /\ guid_ok (gap_reader b)) (decode_gap buf).
Proof.
  intros Hok. split_and!.
  - by apply decode_header_safe.
  - by apply decode_data_within.
  - by apply decode_data_frag_safe.
  - eapply safe_mono; [by apply decode_acknack_safe|]. intros b Hb. repeat split; apply Hb.
  - eapply safe_mono; [by apply decode_heartbeat_safe|]. intros b Hb. repeat split; apply Hb.
  - eapply safe_mono; [by apply decode_gap_safe|]. intros b Hb. repeat split; apply Hb.
Qed.

Lemma decoders_memory_safe_witness :
  safe (header_ok [77; 68; 68; 83; 4; 1; 0; 0; 0]) (decode_header [77; 68; 68; 83; 4; 1; 0; 0; 0]).
Proof. apply decoders_memory_safe. repeat (apply Forall_cons; split; [ulia|]). constructor. Defined.

(** A newer sender may add trailer entries of types this version does not know:
    the parser skips them and still finds the origin. *)
Theorem unknown_entries_skipped (t : DataTrailer) (es : list (Z * list Z)) :
  has_origin t = true -> guid_ok (origin_guid t) -> fits 64 (origin_seq t) ->
  Forall unknown_entry es ->
  (tl ← encode_trailer t; parse_trailer (concat (entry_bytes <$> es) ++ tl) no_trailer) =
  Done (true, t).
Proof.
  intros Ht Hg Hs Hes.
  assert (Henc : encode_trailer t = Done (trailer_bytes (Some t))).
  { rewrite <- (trailer_tail (Some t)) by done. done. }
  rewrite Henc. cbn [mbind]. pose proof (trailer_bytes_ok t Hg) as Htl.
  transitivity (parse_trailer (trailer_bytes (Some t)) no_trailer); [|by apply parse_trailer_bytes].
  change (parse_trailer (concat (entry_bytes <$> es) ++ trailer_bytes (Some t)) no_trailer =
          parse_trailer (trailer_bytes (Some t)) no_trailer).
  induction Hes as [|e es He Hes IH]; [done|].
  cbn [fmap list_fmap concat]. rewrite <- app_assoc, parse_unknown; [done|done|].
  apply Forall_app. split; [|done]. apply Forall_concat, Forall_fmap.
  eapply Forall_impl; [exact Hes|]. apply entry_bytes_ok.
Qed.

Lemma unknown_entries_skipped_witness :
  (tl ← encode_trailer (mkTrailer true zero_guid 5);
   parse_trailer (concat (entry_bytes <$> [(9, [1; 2]); (3, [])]) ++ tl) no_trailer) =
  Done (true, mkTrailer true zero_guid 5).
Proof.
  apply unknown_entries_skipped; [done|exact zero_guid_ok|simpl; ulia|].
  repeat constructor; simpl; unfold kTlvOriginGuid, kTlvOriginSeq; ulia.
Defined.

(** The body length is computed in 32 bits: for a payload within 36 bytes of
    4 GiB it wraps to less than the fixed part, and the encoder writes past the
    vector it has allocated. *)
Theorem encode_data_length_wraps w seq pub p flags :
  guid_ok w -> 2 ^ 32 - 36 <= len p < 2 ^ 32 ->
  encode_data w seq pub (Some p) (len p) flags None = UB.
Proof.
  intros [Hg _] Hp. unfold encode_data.
  eapply bind_done; [reflexivity|]. cbv beta zeta.
  assert (E : u32 (kDataBodyFixedSize + len p + len (@nil Z)) = 36 + len p - 2 ^ 32).
  { unfold kDataBodyFixedSize. simpl length. ulia. }
  rewrite E. unfold kHeaderSize, kDataBodyFixedSize.
  eapply bind_done; [apply encode_header_bytes; ulia|]. cbv beta.
  assert (Hout : len (header_bytes DATA flags (36 + len p - 2 ^ 32) ++
            zeros (12 + (36 + len p - 2 ^ 32) - 12)) = 48 + len p - 2 ^ 32) by solve_len.
  revert Hout. generalize (header_bytes DATA flags (36 + len p - 2 ^ 32) ++
            zeros (12 + (36 + len p - 2 ^ 32) - 12)). intros out Hout.
  do 4 (apply store_then_UB; intros ? ?).
  rewrite (proj2 (Z.ltb_lt 0 (len p))) by (clear E; ulia). rewrite load_all by done.
  cbn [mbind res_bind]. unfold store. rewrite decide_False by (clear E; ulia). done.
Qed.
End FrameSpec.
