(* ===== verification/Fragment.v ===== *)
(** * Fragmenter (include/mdds/fragment.hpp, src/fragment.cpp)

    [Fragmenter::fragment] splits one serialized sample into frames that fit the
    channel.  A loop that would not end is [UB], like an access outside a
    buffer; [fragment_done] rules both out. *)

From S2P Require Import Prelude Memory Guid Frame.

(** The [while (offset < payload_len)] loop. *)
Fixpoint fragment_loop (fuel : nat) (writer : Guid) (seq pub_time_ms : Z)
    (payload : list Z) (payload_len frag_capacity flags offset : Z)
    (frames : list (list Z)) : res (list (list Z)) :=
  match fuel with
  | O => UB
  | S fuel =>
      if offset <? payload_len then
        let chunk := Z.min frag_capacity (u32 (payload_len - offset)) in
        f ← encode_data_frag writer seq pub_time_ms payload_len offset
              (Some (drop (Z.to_nat offset) payload)) chunk flags None;
        fragment_loop fuel writer seq pub_time_ms payload payload_len frag_capacity flags
          (u32 (offset + chunk)) (frames ++ [f])
      else Done frames
  end.

(** An empty list is the error result of the code. *)
Definition fragment (writer : Guid) (seq pub_time_ms : Z) (payload : option (list Z))
    (payload_len max_payload flags : Z) : res (list (list Z)) :=
  if (0 <? payload_len) && bool_decide (payload = None) then Done []
  else if kHeaderSize + kDataBodyFixedSize + payload_len <=? max_payload then
    f ← encode_data writer seq pub_time_ms payload payload_len flags None;
    Done [f]
  else if max_payload <=? kHeaderSize + kDataFragBodyFixedSize then Done []
  else
    let frag_capacity := u32 (max_payload - kHeaderSize - kDataFragBodyFixedSize) in
    fragment_loop (S (Z.to_nat payload_len)) writer seq pub_time_ms
      (default [] payload) payload_len frag_capacity flags 0 [].

(** ** Tilings: consecutive fragments of a payload *)

Fixpoint tiles (off : Z) (p : list Z) (bs : list DataFragBody) : Prop :=
  match bs with
  | [] => p = []
  | b :: bs =>
      frag_offset b = off /\ 0 < len (frag_payload b) /\
      exists rest, p = frag_payload b ++ rest /\ tiles (off + len (frag_payload b)) rest bs
  end.

(** The fields every fragment of a sample shares. *)
Definition frag_of (w : Guid) (seq pub total : Z) (b : DataFragBody) : Prop :=
  frag_writer b = w /\ frag_seq b = seq /\ frag_pub_time_ms b = pub /\
  frag_total_size b = total /\ frag_trailer b = no_trailer.

(** What a receiver makes of a frame, whatever follows it in the buffer. *)
Definition decodes_frag (f : list Z) (b : DataFragBody) : Prop :=
  forall extra, decode_data_frag (f ++ extra) = Done b.

Section fragment_loop.
Context (w : Guid) (seq pub flags cap : Z) (p : list Z).
Context (Hw : guid_ok w) (Hseq : fits 64 seq) (Hpub : fits 64 pub) (Hflags : fits 16 flags).
Context (Hp : 64 + len p < 2 ^ 32) (Hcap : 0 < cap) (Hcap' : cap < len p - 8).

Lemma encode_chunk off rest :
  0 <= off -> drop (Z.to_nat off) p = rest -> off + len rest = len p -> rest <> [] ->
  let chunk := Z.min cap (len rest) in
  encode_data_frag w seq pub (len p) off (Some rest) chunk flags None =
  Done (data_frag_bytes w seq pub (len p) off (take (Z.to_nat chunk) rest) flags None).
Proof.
  intros Hoff Hd Hl Hne chunk.
  assert (Hlen : len (take (Z.to_nat chunk) rest) = chunk).
  { rewrite length_take. subst chunk. lia. }
  rewrite <- (encode_data_frag_bytes w seq pub (len p) off _ flags None)
    by (done || rewrite Hlen; subst chunk; lia).
  rewrite Hlen. unfold encode_data_frag. simpl mbind.
  assert (Hload : load rest 0 chunk = load (take (Z.to_nat chunk) rest) 0 chunk).
  { unfold load. rewrite Hlen, !decide_True by (subst chunk; lia).
    by rewrite !drop_0, take_take, Nat.min_id. }
  by rewrite Hload.
Qed.

Lemma fragment_loop_spec fuel off rest frames :
  0 <= off -> drop (Z.to_nat off) p = rest -> off + len rest = len p ->
  len rest < Z.of_nat fuel ->
  exists fs bs,
    fragment_loop fuel w seq pub p (len p) cap flags off frames = Done (frames ++ fs) /\
    Forall2 decodes_frag fs bs /\ tiles off rest bs /\
    Forall (frag_of w seq pub (len p)) bs /\
    Forall (fun f => len f <= 56 + cap) fs.
Proof.
  revert off rest frames. induction fuel as [|fuel IH]; intros off rest frames Hoff Hd Hl Hf.
  { pose proof (Nat2Z.is_nonneg (length rest)). lia. }
  cbn [fragment_loop]. cbv zeta. destruct (Z.ltb_spec off (len p)) as [Hlt|Hge].
  2:{ exists [], []. rewrite app_nil_r. destruct rest; simpl in *; [by repeat constructor|lia]. }
  assert (Hne : rest <> []) by (intros ->; simpl in *; lia).
  rewrite (wrap_id 32 (len p - off)) by ulia. replace (len p - off) with (len rest) by lia. rewrite Hd.
  set (chunk := Z.min cap (len rest)).
  assert (Hlen : len (take (Z.to_nat chunk) rest) = chunk).
  { rewrite length_take. subst chunk. lia. }
  assert (Hpos : 0 < chunk).
  { subst chunk. destruct rest; [done|]. simpl length in *. lia. }
  pose proof (encode_chunk off rest Hoff Hd Hl Hne) as E. cbv zeta in E. fold chunk in E.
  rewrite E. simpl mbind. clear E.
  rewrite (wrap_id 32 (off + chunk)) by (subst chunk; ulia).
  destruct (IH (off + chunk) (drop (Z.to_nat chunk) rest)
    (frames ++ [data_frag_bytes w seq pub (len p) off (take (Z.to_nat chunk) rest) flags None]))
    as (fs & bs & E & HF & HT & HA & HL); [lia|..|].
  - rewrite <- Hd, drop_drop. f_equal. lia.
  - rewrite length_drop. subst chunk. lia.
  - rewrite length_drop. lia.
  - eexists (_ :: fs), (mkDataFrag w seq pub (len p) off (take (Z.to_nat chunk) rest) no_trailer :: bs).
    split_and!.
    + rewrite E. by rewrite <- app_assoc.
    + constructor; [|done]. intros extra. apply decode_data_frag_bytes; try done; ulia.
    + simpl. split_and!; [done|lia|]. exists (drop (Z.to_nat chunk) rest).
      rewrite take_drop, Hlen. done.
    + constructor; [|done]. by repeat split.
    + constructor; [|done]. unfold data_frag_bytes. destruct Hw. simpl trailer_bytes. solve_len.
Qed.
End fragment_loop.

Section fragment.
Context (w : Guid) (seq pub flags max_payload : Z) (p : list Z).
Context (Hw : guid_ok w) (Hseq : fits 64 seq) (Hpub : fits 64 pub) (Hflags : fits 16 flags).
Context (Hp : 64 + len p < 2 ^ 32).

Lemma fragment_single :
  48 + len p <= max_payload ->
  fragment w seq pub (Some p) (len p) max_payload flags =
  Done [data_bytes w seq pub p flags None].
Proof.
  intros Hm. unfold fragment. rewrite bool_decide_false, andb_false_r by done.
  rewrite (proj2 (Z.leb_le _ _)) by (unfold kHeaderSize, kDataBodyFixedSize; lia).
  by rewrite encode_data_bytes.
Qed.

Lemma fragment_too_narrow :
  max_payload < 48 + len p -> max_payload <= 56 ->
  fragment w seq pub (Some p) (len p) max_payload flags = Done [].
Proof.
  intros Hm Hm'. unfold fragment. rewrite bool_decide_false, andb_false_r by done.
  unfold kHeaderSize, kDataBodyFixedSize, kDataFragBodyFixedSize.
  rewrite (proj2 (Z.leb_gt _ _)) by lia. by rewrite (proj2 (Z.leb_le _ _)) by lia.
Qed.

(** The capacity survives its conversion to 32 bits: it is below the sample
    size, which has 32 bits. *)
Lemma fragment_many :
  56 < max_payload -> max_payload < 48 + len p ->
  exists fs bs,
    fragment w seq pub (Some p) (len p) max_payload flags = Done fs /\
    Forall2 decodes_frag fs bs /\ tiles 0 p bs /\
    Forall (frag_of w seq pub (len p)) bs /\
    Forall (fun f => len f <= max_payload) fs.
Proof.
  intros Hm Hm'. unfold fragment. rewrite bool_decide_false, andb_false_r by done.
  unfold kHeaderSize, kDataBodyFixedSize, kDataFragBodyFixedSize.
  rewrite (proj2 (Z.leb_gt _ _)) by lia. rewrite (proj2 (Z.leb_gt _ _)) by lia.
  rewrite wrap_id by ulia. simpl default.
  destruct (fragment_loop_spec w seq pub flags (max_payload - 12 - 44) p Hw Hseq Hpub Hflags Hp)
    with (fuel := S (Z.to_nat (len p))) (off := 0) (rest := p) (frames := @nil (list Z))
    as (fs & bs & E & HF & HT & HA & HL); [lia..|done|lia|lia|].
  exists fs, bs. split_and!; try done.
  eapply Forall_impl; [exact HL|]. simpl. lia.
Qed.

Lemma fragment_total : exists fs, fragment w seq pub (Some p) (len p) max_payload flags = Done fs.
Proof.
  destruct (Z.le_gt_cases (48 + len p) max_payload).
  { eexists. by apply fragment_single. }
  destruct (Z.le_gt_cases max_payload 56).
  { eexists. by apply fragment_too_narrow. }
  destruct fragment_many as (fs & bs & E & _); [done..|]. by exists fs.
Qed.

Lemma fragment_nonempty :
  56 < max_payload -> exists fs, fragment w seq pub (Some p) (len p) max_payload flags = Done fs /\ fs <> [].
Proof.
  intros Hm. destruct (Z.le_gt_cases (48 + len p) max_payload).
  { eexists. by rewrite fragment_single by done. }
  destruct fragment_many as (fs & bs & E & HF & HT & _); [done..|]. exists fs. split; [done|]. intros ->.
  apply Forall2_nil_inv_l in HF. subst bs. simpl in HT. subst p. simpl in *. lia.
Qed.
End fragment.

(** ** Properties *)

Module FragmentSpec.

(** C39. Fragmenting ends, never leaves a buffer, produces no frame that exceeds
    the channel limit, and produces nothing exactly when no frame could carry a
    byte of payload. *)
Theorem fragment_fits w seq pub flags max_payload p :
  guid_ok w -> fits 64 seq -> fits 64 pub -> fits 16 flags -> 64 + len p < 2 ^ 32 ->
  exists frames,
    fragment w seq pub (Some p) (len p) max_payload flags = Done frames /\
    Forall (fun f => len f <= max_payload) frames /\
    (frames = [] <-> max_payload < 48 + len p /\ max_payload <= 56).
Proof.
  intros Hw Hs Hpub Hf Hp. destruct (Z.le_gt_cases (48 + len p) max_payload).
  { eexists. split; [by apply fragment_single|]. split.
    - constructor; [|done]. destruct Hw. unfold data_bytes. simpl trailer_bytes. solve_len.
    - split; [done|lia]. }
  destruct (Z.le_gt_cases max_payload 56).
  { exists []. split_and!; [by apply fragment_too_narrow|done|done]. }
  destruct (fragment_many w seq pub flags max_payload p)
    as (fs & bs & E & HF & HT & _ & HL); try done; try lia.
  exists fs. split_and!; [done..|]. split; [|lia]. intros ->.
  apply Forall2_nil_inv_l in HF. subst bs. simpl in HT. subst p. simpl in *. lia.
Qed.

Lemma fragment_fits_witness :
  exists frames,
    fragment zero_guid 7 3 (Some [1; 2; 3; 4; 5; 6; 7; 8; 9; 10])
      (len [1; 2; 3; 4; 5; 6; 7; 8; 9; 10]) 57 0 = Done frames /\
    Forall (fun f => len f <= 57) frames /\
    (frames = [] <-> 57 < 48 + len [1; 2; 3; 4; 5; 6; 7; 8; 9; 10] /\ 57 <= 56).
Proof. apply fragment_fits; [exact zero_guid_ok|simpl; ulia..]. Defined.
End FragmentSpec.
