(* ===== verification/Reassembler.v ===== *)
(** * Reassembler (include/mdds/fragment.hpp, src/fragment.cpp)

    Partial messages keyed by (writer, sequence number), each with its buffer and
    the merged byte intervals received so far.  Time points of the steady clock are
    nanoseconds, the timeout is in milliseconds ([duration] comparisons convert). *)

From S2P Require Import Prelude Memory StdMap Guid Frame Fragment.

Record Partial := mkPartial {
  part_total_size : Z;
  part_buffer : list Z;
  part_intervals : list (Z * Z);
  part_last_update : Z;
}.

Abbreviation PartialKey := (Guid * Z)%type.

Record Reassembler := mkReassembler {
  partials : std_map PartialKey Partial;
  reasm_timeout : Z;
}.

Definition new_reassembler : Reassembler := mkReassembler [] 5000.

Definition set_partials (m : std_map PartialKey Partial) (r : Reassembler) : Reassembler :=
  mkReassembler m (reasm_timeout r).

(** The interval loop: [merged], [cur_begin] and [cur_end] are its variables. *)
Fixpoint merge_loop (ivs merged : list (Z * Z)) (cur_begin cur_end : Z) : list (Z * Z) :=
  match ivs with
  | [] => merged ++ [(cur_begin, cur_end)]
  | iv :: ivs =>
      if snd iv <? cur_begin then merge_loop ivs (merged ++ [iv]) cur_begin cur_end
      else if cur_end <? fst iv then
        merge_loop ivs (merged ++ [(cur_begin, cur_end)]) (fst iv) (snd iv)
      else merge_loop ivs merged (Z.min cur_begin (fst iv)) (Z.max cur_end (snd iv))
  end.

(** [now1] and [now2] are the two readings of the steady clock.  The result
    carries the complete payload when the message completed. *)
Definition add_fragment (r : Reassembler) (now1 now2 : Z) (writer : Guid)
    (seq total_size offset : Z) (data : option (list Z)) (data_len : Z)
    : res (Reassembler * option (list Z)) :=
  if (total_size =? 0) || (total_size <? u32 (offset + data_len)) then Done (r, None)
  else if (0 <? data_len) && bool_decide (data = None) then Done (r, None)
  else
    let key := (writer, seq) in
    let m := map_emplace key (mkPartial total_size (zeros total_size) [] now1) (partials r) in
    match map_find key m with
    | None => UB
    | Some p =>
        if negb (part_total_size p =? total_size) then Done (set_partials m r, None)
        else
          buffer ← (if 0 <? data_len
                    then bs ← load (default [] data) 0 data_len;
                         store (part_buffer p) offset bs
                    else Done (part_buffer p));
          let intervals := merge_loop (part_intervals p) [] offset (u32 (offset + data_len)) in
          let p' := mkPartial (part_total_size p) buffer intervals now2 in
          if bool_decide (intervals = [(0, total_size)])
          then Done (set_partials (map_erase key m) r, Some buffer)
          else Done (set_partials (map_set key p' m) r, None)
    end.

(** The overload taking a decoded fragment. *)
Definition add_fragment_body (r : Reassembler) (now1 now2 : Z) (b : DataFragBody)
    : res (Reassembler * option (list Z)) :=
  add_fragment r now1 now2 (frag_writer b) (frag_seq b) (frag_total_size b) (frag_offset b)
    (Some (frag_payload b)) (len (frag_payload b)).

Definition sweep_expired (r : Reassembler) (now : Z) : Reassembler * Z :=
  let kept := map_keep (fun _ p => negb (reasm_timeout r * 1000000 <? now - part_last_update p)) (partials r) in
  (set_partials kept r, len (partials r) - len kept).

Definition drop_writer (r : Reassembler) (writer : Guid) : Reassembler :=
  set_partials (map_keep (fun k _ => negb (bool_decide (fst k = writer))) (partials r)) r.

Definition pending_count (r : Reassembler) : Z := len (partials r).

(** ** Interval lists *)

(** Ascending and separated by at least one byte, everything above [lo]. *)
Fixpoint separated (lo : Z) (ivs : list (Z * Z)) : Prop :=
  match ivs with
  | [] => True
  | (b, e) :: ivs => lo < b /\ b <= e /\ separated e ivs
  end.

Definition covered (ivs : list (Z * Z)) (x : Z) : Prop :=
  Exists (fun iv => fst iv <= x < snd iv) ivs.

Lemma separated_weaken lo lo' ivs : lo' <= lo -> separated lo ivs -> separated lo' ivs.
Proof. destruct ivs as [|[b e] ivs]; simpl; [done|]. intuition lia. Qed.

Lemma merge_loop_app ivs merged b e : merge_loop ivs merged b e = merged ++ merge_loop ivs [] b e.
Proof.
  revert merged b e. induction ivs as [|iv ivs IH]; intros; simpl; [done|].
  repeat case_if; rewrite ?(IH (merged ++ _)), ?(IH [_]), <- ?app_assoc; done || apply IH.
Qed.

Lemma merge_separated lo ivs b e :
  separated lo ivs -> lo < b -> b <= e -> separated lo (merge_loop ivs [] b e).
Proof.
  revert lo b e. induction ivs as [|[b0 e0] ivs IH]; intros lo b e; simpl; [lia|].
  intros (Hlo & Hbe & Hs) Hb He.
  destruct (Z.ltb_spec e0 b); [|destruct (Z.ltb_spec e b0)]; rewrite ?(merge_loop_app _ [_]).
  - simpl. split_and!; [done..|]. apply IH; done || lia.
  - simpl. split_and!; [done..|]. apply IH; try lia. eapply separated_weaken; [|done]. lia.
  - apply IH; try lia. eapply separated_weaken; [|done]. lia.
Qed.

Lemma covered_cons iv ivs x : covered (iv :: ivs) x <-> fst iv <= x < snd iv \/ covered ivs x.
Proof. apply Exists_cons. Qed.

(** Merging adds exactly the bytes of the new fragment. *)
Lemma merge_covered lo ivs b e x :
  separated lo ivs -> b <= e ->
  covered (merge_loop ivs [] b e) x <-> b <= x < e \/ covered ivs x.
Proof.
  revert lo b e. induction ivs as [|[b0 e0] ivs IH]; intros lo b e; simpl.
  { intros _ _. unfold covered. rewrite Exists_cons, Exists_nil. simpl. tauto. }
  intros (Hlo & Hbe & Hs) He. rewrite covered_cons. simpl.
  destruct (Z.ltb_spec e0 b); [|destruct (Z.ltb_spec e b0)]; rewrite ?(merge_loop_app _ [_]); simpl.
  - rewrite covered_cons, (IH e0) by done. simpl. tauto.
  - rewrite covered_cons, (IH e0) by (done || lia). simpl. tauto.
  - rewrite (IH e0) by (done || lia). split; [intros [?|?]|intros [?|[?|?]]]; try tauto.
    + assert (b <= x < e \/ b0 <= x < e0) by lia. tauto.
    + left. lia.
    + left. lia.
Qed.

(** The completion test: one interval [0, total) exactly when every byte was
    received. *)
Lemma complete_iff ivs total :
  separated (-1) ivs -> (forall x, covered ivs x -> x < total) -> 0 < total ->
  Forall (fun iv => snd iv <= total) ivs -> ivs <> [] ->
  ivs = [(0, total)] <-> (forall x, 0 <= x < total -> covered ivs x).
Proof.
  intros Hs Hub Htot Hle Hne. split.
  { intros -> x Hx. left. simpl. lia. }
  intros Hall. destruct ivs as [|[b e] ivs]; [done|]. simpl in Hs. destruct Hs as (Hb & Hbe & Hs).
  assert (Habove : forall y, covered ivs y -> e < y).
  { clear -Hs. revert e Hs. induction ivs as [|[b0 e0] ivs IH]; intros e Hs y Hy.
    - by apply Exists_nil in Hy.
    - simpl in Hs. apply covered_cons in Hy as [Hy|Hy]; simpl in *; [lia|].
      apply (IH e0) in Hy; [lia|]. by destruct Hs as (_ & _ & Hs). }
  assert (b = 0).
  { assert (b < 0 \/ b = 0 \/ 0 < b) as [?|[?|?]] by lia; [lia|done|].
    pose proof (Hall 0 ltac:(lia)) as [Hc|Hc]%covered_cons; [simpl in Hc; lia|].
    apply Habove in Hc. lia. }
  subst b. inversion_clear Hle as [|? ? Hle1 Hle2]. simpl in Hle1.
  destruct (decide (e = total)) as [->|Hlt].
  - destruct ivs as [|[b1 e1] ivs]; [done|]. inversion_clear Hle2. simpl in *. lia.
  - pose proof (Hall e ltac:(lia)) as [Hc|Hc]%covered_cons; [simpl in Hc; lia|].
    apply Habove in Hc. lia.
Qed.

Lemma merge_bounded ivs b e total :
  Forall (fun iv => snd iv <= total) ivs -> e <= total ->
  Forall (fun iv => snd iv <= total) (merge_loop ivs [] b e).
Proof.
  intros H. revert b e. induction H as [|[b0 e0] ivs H0 H IH]; intros b e He; simpl in *.
  { by repeat constructor. }
  repeat case_if; rewrite ?(merge_loop_app _ [_]); simpl; try constructor; try done;
    apply IH; lia.
Qed.

Lemma merge_nonempty ivs b e : merge_loop ivs [] b e <> [].
Proof.
  revert b e. induction ivs as [|[b0 e0] ivs IH]; intros b e; simpl; [done|].
  repeat case_if; rewrite ?(merge_loop_app _ [_]); done || apply IH.
Qed.

(** ** Well-formed reassemblers *)

Definition frag_key (b : DataFragBody) : PartialKey := (frag_writer b, frag_seq b).

Definition partial_ok (p : Partial) : Prop :=
  len (part_buffer p) = part_total_size p /\ fits 32 (part_total_size p).

Definition reasm_ok (r : Reassembler) : Prop :=
  forall k p, map_find k (partials r) = Some p -> partial_ok p.

(** The state of one key just before a fragment is merged into it. *)
Definition lookup_or_fresh (r : Reassembler) (k : PartialKey) (total now : Z) : Partial :=
  default (mkPartial total (zeros total) [] now) (map_find k (partials r)).

(** [add_fragment] on a fragment that passed the decoder's checks, in terms of
    the state of its key. *)
Lemma add_fragment_eq r now1 now2 b :
  reasm_ok r -> data_frag_ok b -> frag_total_size b <> 0 ->
  let k := frag_key b in
  let p := lookup_or_fresh r k (frag_total_size b) now1 in
  let m := map_emplace k p (partials r) in
  let ivs := merge_loop (part_intervals p) [] (frag_offset b)
               (frag_offset b + len (frag_payload b)) in
  partial_ok p /\
  if decide (part_total_size p = frag_total_size b) then
    exists buffer,
      store (part_buffer p) (frag_offset b) (frag_payload b) = Done buffer /\
      add_fragment_body r now1 now2 b =
      Done (if bool_decide (ivs = [(0, frag_total_size b)])
            then (set_partials (map_erase k m) r, Some buffer)
            else (set_partials (map_set k (mkPartial (part_total_size p) buffer ivs now2) m) r, None))
  else add_fragment_body r now1 now2 b = Done (set_partials m r, None).
Proof.
  intros Hr (_ & _ & _ & Hpok & Ht & Hoff & Hle) Hnz. intros k p m ivs.
  assert (Hp : partial_ok p).
  { subst p. unfold lookup_or_fresh. destruct (map_find k (partials r)) as [q|] eqn:E; simpl.
    - by eapply Hr.
    - split; [|done]. simpl. rewrite length_zeros. ulia. }
  split; [done|].
  assert (Hm : map_emplace k (mkPartial (frag_total_size b) (zeros (frag_total_size b)) [] now1)
                 (partials r) = m).
  { subst m p. unfold map_emplace, lookup_or_fresh. by destruct (map_find k (partials r)). }
  assert (Hfind : map_find k m = Some p).
  { subst m p. unfold map_emplace, lookup_or_fresh.
    destruct (map_find k (partials r)) eqn:E; [done|]. apply map_find_set_eq. }
  unfold add_fragment_body, add_fragment. rewrite wrap_id by ulia.
  rewrite (proj2 (Z.eqb_neq _ _)), (proj2 (Z.ltb_ge _ _)) by lia. simpl orb. cbv iota.
  rewrite bool_decide_false, andb_false_r by done. cbv zeta.
  change (frag_writer b, frag_seq b) with k. rewrite Hm, Hfind.
  case_decide as Htot.
  - rewrite (proj2 (Z.eqb_eq _ _)) by done. simpl negb. cbv iota.
    destruct Hp as [Hbl _].
    destruct (store_in_bounds (part_buffer p) (frag_offset b) (frag_payload b))
      as [buffer Hb]; [lia..|].
    exists buffer. split; [done|].
    replace (if 0 <? len (frag_payload b) then _ else _) with (Done buffer); [simpl; fold ivs; by case_bool_decide|].
    simpl default. destruct (Z.ltb_spec 0 (len (frag_payload b))) as [Hpos|Hpos].
    + rewrite load_all by done. simpl. by rewrite Hb.
    + rewrite <- Hb. destruct (frag_payload b) eqn:Hfp; [|simpl in Hpos; lia].
      unfold store. simpl. rewrite decide_True by (simpl in *; lia).
      rewrite Z.add_0_r. by rewrite take_drop.
  - rewrite (proj2 (Z.eqb_neq _ _)) by done. done.
Qed.

(** Fragments that passed the decoder never make the reassembler leave its
    buffers, whatever was received before, and touch only their own message. *)
Lemma add_fragment_frame r now1 now2 b :
  reasm_ok r -> data_frag_ok b ->
  exists r' o, add_fragment_body r now1 now2 b = Done (r', o) /\ reasm_ok r' /\
    forall k, k <> frag_key b -> map_find k (partials r') = map_find k (partials r).
Proof.
  intros Hr Hb. destruct (decide (frag_total_size b = 0)) as [Hz|Hnz].
  { exists r, None. unfold add_fragment_body, add_fragment. by rewrite Hz. }
  destruct (add_fragment_eq r now1 now2 b Hr Hb Hnz) as [Hp H].
  set (k0 := frag_key b) in *. set (p := lookup_or_fresh r k0 _ now1) in *.
  assert (Hm : forall k q, map_find k (map_emplace k0 p (partials r)) = Some q -> partial_ok q).
  { intros k q. unfold map_emplace. destruct (map_find k0 (partials r)); [apply Hr|].
    rewrite map_find_set. destruct (decide (k = k0)); [by intros [= <-]|apply Hr]. }
  assert (Hne : forall k, k <> k0 ->
    map_find k (map_emplace k0 p (partials r)) = map_find k (partials r)).
  { intros k Hk. unfold map_emplace. destruct (map_find k0 (partials r)); [done|].
    by apply map_find_set_ne. }
  case_decide; [destruct H as (buffer & Hst & ->)|rewrite H; by eauto 10].
  case_bool_decide; do 2 eexists; (split; [reflexivity|]); simpl; split.
  - intros k q. simpl. rewrite map_find_erase. case_decide; [done|]. apply Hm.
  - intros k Hk. rewrite map_find_erase, decide_False by done. by apply Hne.
  - intros k q. simpl. rewrite map_find_set. destruct (decide (k = k0)); [|apply Hm].
    intros [= <-]. destruct Hp as [Hl Hf]. split; simpl; [|done].
    apply store_length in Hst. lia.
  - intros k Hk. rewrite map_find_set_ne by done. by apply Hne.
Qed.

(** ** Fragments of one payload *)

(** [b] is a fragment of the sample [p]. *)
Definition frag_matches (p : list Z) (b : DataFragBody) : Prop :=
  frag_total_size b = len p /\
  load p (frag_offset b) (len (frag_payload b)) = Done (frag_payload b).

(** Byte [x] is carried by one of the fragments. *)
Definition hit (bs : list DataFragBody) (x : Z) : Prop :=
  Exists (fun b => frag_offset b <= x < frag_offset b + len (frag_payload b)) bs.

(** Together the fragments carry every byte of [p]. *)
Definition full (p : list Z) (bs : list DataFragBody) : Prop :=
  forall x, 0 <= x < len p -> hit bs x.

Lemma hit_app bs bs' x : hit (bs ++ bs') x <-> hit bs x \/ hit bs' x.
Proof. apply Exists_app. Qed.

Lemma full_mono p bs bs' : full p bs -> full p (bs ++ bs').
Proof. intros H x Hx. apply hit_app. left. by apply H. Qed.

(** What the partial state knows after receiving [bs]. *)
Record part_inv (p : list Z) (bs : list DataFragBody) (q : Partial) : Prop := {
  pi_total : part_total_size q = len p;
  pi_length : len (part_buffer q) = len p;
  pi_separated : separated (-1) (part_intervals q);
  pi_bounded : Forall (fun iv => snd iv <= len p) (part_intervals q);
  pi_covered x : covered (part_intervals q) x <-> hit bs x;
  pi_content x : 0 <= x -> covered (part_intervals q) x ->
    part_buffer q !! Z.to_nat x = p !! Z.to_nat x;
}.

Lemma part_inv_fresh p now : part_inv p [] (mkPartial (len p) (zeros (len p)) [] now).
Proof.
  split; simpl; try done.
  - rewrite length_zeros. lia.
  - intros x. unfold covered, hit. by rewrite !Exists_nil.
  - intros x _ H. by apply Exists_nil in H.
Qed.

(** Merging one more fragment. *)
Lemma part_inv_merge p bs q b buffer now :
  part_inv p bs q -> frag_matches p b ->
  store (part_buffer q) (frag_offset b) (frag_payload b) = Done buffer ->
  part_inv p (bs ++ [b]) (mkPartial (part_total_size q) buffer
    (merge_loop (part_intervals q) [] (frag_offset b) (frag_offset b + len (frag_payload b))) now).
Proof.
  intros Hq [Ht Hl] Hst. destruct Hq as [Hqt Hql Hqs Hqb Hqc Hqx].
  assert (Hrange : 0 <= frag_offset b /\ frag_offset b + len (frag_payload b) <= len p).
  { unfold load in Hl. case_decide; [lia|done]. }
  assert (Hcov : forall x, covered (merge_loop (part_intervals q) [] (frag_offset b)
      (frag_offset b + len (frag_payload b))) x <->
    frag_offset b <= x < frag_offset b + len (frag_payload b) \/ covered (part_intervals q) x).
  { intros x. by apply (merge_covered (-1)); [|lia]. }
  split; simpl.
  - done.
  - apply store_length in Hst. lia.
  - apply merge_separated; [done|lia..].
  - apply merge_bounded; [done|lia].
  - intros x. rewrite Hcov, hit_app, Hqc. unfold hit at 3. rewrite Exists_cons, Exists_nil. tauto.
  - intros x Hx Hc%Hcov. rewrite (store_lookup _ _ _ _ _ Hst Hx). case_decide.
    + unfold load in Hl. case_decide; [|done]. injection Hl as Hl.
      rewrite <- Hl, lookup_take_lt, lookup_drop by lia. f_equal. lia.
    + apply Hqx; [done|]. destruct Hc; [lia|done].
Qed.

Lemma buffer_complete (buffer p : list Z) :
  len buffer = len p ->
  (forall x, 0 <= x < len p -> buffer !! Z.to_nat x = p !! Z.to_nat x) -> buffer = p.
Proof.
  intros Hl Hx. apply list_eq. intros i.
  destruct (decide (Z.of_nat i < len p)).
  - specialize (Hx (Z.of_nat i)). rewrite Nat2Z.id in Hx. apply Hx. lia.
  - rewrite !lookup_ge_None_2 by lia. done.
Qed.

Definition key_inv (r : Reassembler) (k : PartialKey) (p : list Z) (bs : list DataFragBody) : Prop :=
  match map_find k (partials r) with Some q => part_inv p bs q | None => bs = [] end.

(** One fragment of [p]: the sample completes exactly when all its bytes have
    been received, and then with the right content. *)
Lemma add_fragment_step r now1 now2 k p bs b :
  reasm_ok r -> data_frag_ok b -> frag_key b = k -> frag_matches p b -> p <> [] ->
  key_inv r k p bs ->
  exists r',
    (full p (bs ++ [b]) /\ add_fragment_body r now1 now2 b = Done (r', Some p) /\
     map_find k (partials r') = None) \/
    (~ full p (bs ++ [b]) /\ add_fragment_body r now1 now2 b = Done (r', None) /\
     key_inv r' k p (bs ++ [b])).
Proof.
  intros Hr Hb Hk Hm Hne Hinv.
  assert (Hpos : 0 < len p) by (destruct p; [done|simpl; lia]).
  destruct Hm as [Ht Hload].
  destruct (add_fragment_eq r now1 now2 b Hr Hb) as [_ H]; [lia|].
  rewrite Hk, Ht in H.
  assert (Hpi : part_inv p bs (lookup_or_fresh r k (len p) now1)).
  { unfold key_inv in Hinv. unfold lookup_or_fresh.
    destruct (map_find k (partials r)); simpl; [done|]. subst bs. apply part_inv_fresh. }
  set (q := lookup_or_fresh r k (len p) now1) in *.
  rewrite decide_True in H by apply Hpi. destruct H as (buffer & Hst & Heq).
  pose proof (part_inv_merge p bs q b buffer now2 Hpi (conj Ht Hload) Hst) as Hpi'.
  set (q' := mkPartial _ _ _ now2) in Hpi'.
  assert (Hiff : part_intervals q' = [(0, len p)] <-> full p (bs ++ [b])).
  { rewrite (complete_iff _ (len p)); [|apply Hpi'| |done|apply Hpi'|apply merge_nonempty].
    - unfold full. by setoid_rewrite (pi_covered _ _ _ Hpi').
    - intros x. intros (iv & Hin & Hiv)%Exists_exists.
      pose proof (pi_bounded _ _ _ Hpi') as HF. rewrite Forall_forall in HF.
      specialize (HF _ Hin). simpl in *. lia. }
  rewrite Heq. case_bool_decide as Hd.
  - exists (set_partials (map_erase k (map_emplace k q (partials r))) r). left.
    split_and!; [by apply Hiff| |simpl; rewrite map_find_erase; by case_decide].
    do 3 f_equal. apply buffer_complete; [apply Hpi'|].
    intros x Hx. apply (pi_content _ _ _ Hpi'); [lia|].
    apply (pi_covered _ _ _ Hpi'). by apply Hiff.
  - eexists. right. split_and!; [by intros ?%Hiff|reflexivity|].
    unfold key_inv. simpl. by rewrite map_find_set_eq.
Qed.

(** ** Sequences of fragments *)

(** Fragments in order of arrival, each with its two clock readings; the
    completed samples in order of completion. *)
Fixpoint feed (r : Reassembler) (evs : list (Z * Z * DataFragBody))
    : res (Reassembler * list (PartialKey * list Z)) :=
  match evs with
  | [] => Done (r, [])
  | (now1, now2, b) :: evs =>
      ro ← add_fragment_body r now1 now2 b;
      rest ← feed (fst ro) evs;
      let done := match snd ro with Some out => [(frag_key b, out)] | None => [] end in
      Done (fst rest, done ++ snd rest)
  end.

(** The fragments of one message among the arrivals. *)
Definition of_key (k : PartialKey) (evs : list (Z * Z * DataFragBody)) : list DataFragBody :=
  filter (fun b => frag_key b = k) evs.*2.

Lemma of_key_cons k e evs :
  of_key k (e :: evs) = if decide (frag_key (snd e) = k) then snd e :: of_key k evs else of_key k evs.
Proof. unfold of_key. rewrite fmap_cons, filter_cons. done. Qed.

Lemma of_key_app k evs evs' : of_key k (evs ++ evs') = of_key k evs ++ of_key k evs'.
Proof. unfold of_key. by rewrite fmap_app, filter_app. Qed.

Lemma feed_app r evs evs' :
  feed r (evs ++ evs') =
  (ro ← feed r evs; rest ← feed (fst ro) evs'; Done (fst rest, snd ro ++ snd rest)).
Proof.
  revert r. induction evs as [|[[n1 n2] b] evs IH]; intros r; simpl.
  { by destruct (feed r evs') as [[? ?]| |]. }
  destruct (add_fragment_body r n1 n2 b) as [[r1 o]| |]; simpl; [|done..]. rewrite IH.
  destruct (feed r1 evs) as [[r2 outs]| |]; simpl; [|done..].
  destruct (feed r2 evs') as [[r3 outs']| |]; simpl; [|done..].
  by rewrite app_assoc.
Qed.

(** Only messages that were fed can complete. *)
Lemma feed_keys r evs r' outs k :
  feed r evs = Done (r', outs) -> k ∈ outs.*1 -> exists e, e ∈ evs /\ frag_key (snd e) = k.
Proof.
  revert r r' outs. induction evs as [|[[n1 n2] b] evs IH]; intros r r' outs; simpl.
  { intros [= <- <-] ?%elem_of_nil. done. }
  intros H. inv_done H. injection H as <- <-. rewrite fmap_app, elem_of_app.
  intros [Hin|Hin].
  - exists (n1, n2, b). split; [left|]. destruct (snd v); simpl in Hin.
    + by apply list_elem_of_singleton in Hin.
    + by apply elem_of_nil in Hin.
  - destruct v0 as [r2 outs2]. destruct (IH _ _ _ E0 Hin) as (e & He & Hk).
    exists e. split; [by right|done].
Qed.

Section feed.
Context (k : PartialKey) (p : list Z).

(** While bytes are missing nothing is delivered for [k], whatever arrives
    for other messages in between. *)
Lemma feed_incomplete r bs evs :
  reasm_ok r -> key_inv r k p bs -> p <> [] ->
  Forall (fun e => data_frag_ok (snd e)) evs ->
  Forall (frag_matches p) (of_key k evs) ->
  ~ full p (bs ++ of_key k evs) ->
  exists r' outs,
    feed r evs = Done (r', outs) /\ reasm_ok r' /\ (k ∉ outs.*1) /\
    key_inv r' k p (bs ++ of_key k evs).
Proof.
  revert r bs. induction evs as [|[[n1 n2] b] evs IH]; intros r bs Hr Hinv Hne Hok Hmat Hnf.
  { exists r, []. rewrite app_nil_r. simpl. split_and!; try done. by apply not_elem_of_nil. }
  inversion_clear Hok as [|? ? Hb Hok']. simpl in Hb.
  rewrite of_key_cons in Hmat, Hnf |- *. simpl in *.
  destruct (add_fragment_frame r n1 n2 b Hr Hb) as (r1 & o & E & Hr1 & Hframe).
  destruct (decide (frag_key b = k)) as [Hk|Hk].
  - inversion_clear Hmat as [|? ? Hmb Hmat'].
    rewrite (cons_middle b bs), app_assoc in Hnf |- *.
    destruct (add_fragment_step r n1 n2 k p bs b Hr Hb Hk Hmb Hne Hinv)
      as (r1' & [(Hf & _)|(_ & E' & Hinv')]).
    { exfalso. by apply Hnf, full_mono. }
    rewrite E in E'. injection E' as -> ->.
    destruct (IH r1' (bs ++ [b])) as (r2 & outs & E2 & Hr2 & Hout & Hinv2); [done..|].
    exists r2, outs. rewrite E. simpl. rewrite E2. by split_and!.
  - assert (Hinv1 : key_inv r1 k p bs) by (unfold key_inv; rewrite Hframe by done; done).
    destruct (IH r1 bs) as (r2 & outs & E2 & Hr2 & Hout & Hinv2); [done..|].
    eexists r2, _. rewrite E. simpl. rewrite E2. simpl. split_and!; [done..| |done].
    rewrite fmap_app, not_elem_of_app. split; [|done].
    destruct o; simpl; rewrite ?list_elem_of_singleton; [congruence|by apply not_elem_of_nil].
Qed.

(** The fragment that supplies the last missing byte completes the sample. *)
Lemma feed_complete r evs n1 n2 b :
  reasm_ok r -> map_find k (partials r) = None -> p <> [] ->
  Forall (fun e => data_frag_ok (snd e)) evs -> data_frag_ok b -> frag_key b = k ->
  Forall (frag_matches p) (of_key k evs) -> frag_matches p b ->
  ~ full p (of_key k evs) -> full p (of_key k evs ++ [b]) ->
  exists r' outs,
    feed r (evs ++ [(n1, n2, b)]) = Done (r', outs ++ [(k, p)]) /\ (k ∉ outs.*1) /\
    map_find k (partials r') = None.
Proof.
  intros Hr Hnone Hne Hok Hb Hk Hmat Hmb Hnf Hf.
  destruct (feed_incomplete r [] evs) as (r1 & outs & E & Hr1 & Hout & Hinv); try done.
  { unfold key_inv. by rewrite Hnone. }
  destruct (add_fragment_step r1 n1 n2 k p (of_key k evs) b Hr1 Hb Hk Hmb Hne Hinv)
    as (r2 & [(_ & E2 & Hn2)|(Hnf' & _)]); [|done].
  exists r2, outs. split_and!; [|done..].
  rewrite feed_app, E. simpl. rewrite E2. simpl. by rewrite Hk.
Qed.
End feed.

(** ** The fragments of one sample, in any order *)

Lemma tiles_range off p bs b :
  tiles off p bs -> b ∈ bs ->
  off <= frag_offset b /\ frag_offset b + len (frag_payload b) <= off + len p /\
  0 < len (frag_payload b).
Proof.
  revert off p. induction bs as [|b0 bs IH]; intros off p; simpl; [by intros _ ?%elem_of_nil|].
  intros (Ho & Hpos & rest & -> & Ht). rewrite length_app.
  intros [->|Hin]%elem_of_cons; [lia|].
  specialize (IH _ _ Ht Hin). lia.
Qed.

(** No other fragment carries the first byte of [b]. *)
Lemma tiles_disjoint off p l1 b l2 :
  tiles off p (l1 ++ b :: l2) -> ~ hit (l1 ++ l2) (frag_offset b).
Proof.
  revert off p. induction l1 as [|b0 l1 IH]; intros off p; simpl.
  - intros (Ho & Hpos & rest & -> & Ht) (c & Hin & Hc)%Exists_exists.
    apply (tiles_range _ _ _ _ Ht) in Hin. lia.
  - intros (Ho & Hpos & rest & -> & Ht). unfold hit. rewrite Exists_cons.
    intros [Hc|Hc]; [|by apply (IH _ _ Ht)].
    assert (Hin : b ∈ l1 ++ b :: l2) by (apply elem_of_app; right; left).
    apply (tiles_range _ _ _ _ Ht) in Hin. lia.
Qed.

Lemma tiles_full off p bs x :
  tiles off p bs -> off <= x < off + len p -> hit bs x.
Proof.
  revert off p. induction bs as [|b bs IH]; intros off p; simpl.
  - intros ->. simpl. lia.
  - intros (Ho & Hpos & rest & -> & Ht). rewrite length_app. intros Hx.
    unfold hit. rewrite Exists_cons.
    destruct (decide (x < off + len (frag_payload b))); [left; lia|right].
    apply (IH _ _ Ht). lia.
Qed.

Lemma tiles_load off pre p bs b :
  off = len pre -> tiles off p bs -> b ∈ bs ->
  load (pre ++ p) (frag_offset b) (len (frag_payload b)) = Done (frag_payload b).
Proof.
  revert off pre p. induction bs as [|b0 bs IH]; intros off pre p Hoff; simpl; [by intros _ ?%elem_of_nil|].
  intros (Ho & Hpos & rest & -> & Ht) [->|Hin]%elem_of_cons.
  - rewrite load_skip by lia. apply load_here; lia.
  - rewrite app_assoc. apply (IH (off + len (frag_payload b0))); [rewrite length_app; lia|done..].
Qed.

Lemma Permutation_snoc_split {A} (l : list A) pre x :
  l ≡ₚ pre ++ [x] -> exists l1 l2, l = l1 ++ x :: l2 /\ pre ≡ₚ l1 ++ l2.
Proof.
  intros HP. assert (Hin : x ∈ l).
  { rewrite HP. apply elem_of_app. right. by left. }
  apply list_elem_of_split in Hin as (l1 & l2 & ->). exists l1, l2. split; [done|].
  rewrite <- Permutation_middle, (Permutation_app_comm pre) in HP. simpl in HP.
  symmetry. by apply Permutation_cons_inv in HP.
Qed.

Section any_order.
Context (w : Guid) (seq pub : Z) (p : list Z) (bs : list DataFragBody).
Context (Hw : guid_ok w) (Hseq : fits 64 seq) (Hpub : fits 64 pub).
Context (Hp : bytes_ok p) (Hp' : fits 32 (len p)).
Context (Ht : tiles 0 p bs) (Hof : Forall (frag_of w seq pub (len p)) bs).

Lemma tile_ok b : b ∈ bs -> data_frag_ok b /\ frag_key b = (w, seq) /\ frag_matches p b.
Proof.
  intros Hin. pose proof (tiles_range _ _ _ _ Ht Hin) as Hr.
  pose proof (tiles_load 0 [] p bs b eq_refl Ht Hin) as Hl.
  rewrite Forall_forall in Hof. destruct (Hof _ Hin) as (Ew & Es & Ep & Et & _).
  split_and!.
  - unfold data_frag_ok. rewrite Ew, Es, Ep, Et. split_and!; try done; try lia.
    by eapply load_bytes_ok.
  - unfold frag_key. by rewrite Ew, Es.
  - done.
Qed.

(** All the fragments, each once, in any order: the sample comes out with the
    last of them. *)
Lemma tiles_any_order r evs :
  reasm_ok r -> map_find (w, seq) (partials r) = None -> p <> [] -> evs.*2 ≡ₚ bs ->
  exists r', feed r evs = Done (r', [((w, seq), p)]) /\
    map_find (w, seq) (partials r') = None.
Proof.
  intros Hr Hnone Hne HP.
  assert (Hin : forall e, e ∈ evs -> snd e ∈ bs).
  { intros e He. rewrite <- HP. by apply list_elem_of_fmap_2. }
  assert (Hkey : forall evs', (forall e, e ∈ evs' -> snd e ∈ bs) -> of_key (w, seq) evs' = evs'.*2).
  { intros evs'. induction evs' as [|e evs' IH]; intros He; [done|].
    rewrite of_key_cons, decide_True by (apply tile_ok, He; left).
    simpl. rewrite IH; [done|]. intros e' ?. apply He. by right. }
  destruct evs as [|[[n1 n2] b] evs _] using rev_ind.
  { apply Permutation_nil_l in HP. subst bs. by simpl in Ht. }
  rewrite fmap_app in HP. simpl in HP.
  assert (Hpre : forall e, e ∈ evs -> snd e ∈ bs).
  { intros e He. apply Hin, elem_of_app. by left. }
  assert (Hb : b ∈ bs) by (apply (Hin (n1, n2, b)), elem_of_app; right; by left).
  symmetry in HP. apply Permutation_snoc_split in HP as (l1 & l2 & El & HP).
  destruct (feed_complete (w, seq) p r evs n1 n2 b) as (r' & outs & E & Hout & Hn');
    try done; try (by apply tile_ok).
  - rewrite Forall_forall. intros e He. by apply tile_ok, Hpre.
  - rewrite Hkey by done. rewrite Forall_forall. intros c (e & -> & He)%list_elem_of_fmap.
    by apply tile_ok, Hpre.
  - rewrite Hkey by done. intros Hf.
    destruct (tiles_range _ _ _ _ Ht Hb) as (? & ? & ?).
    specialize (Hf (frag_offset b)). unfold hit in Hf. rewrite HP in Hf.
    rewrite El in Ht. apply (tiles_disjoint _ _ _ _ _ Ht), Hf. lia.
  - rewrite Hkey by done. intros x Hx. unfold hit. rewrite HP.
    pose proof (tiles_full _ _ _ x Ht ltac:(lia)) as Hh. rewrite El in Hh.
    unfold hit in Hh. rewrite <- Permutation_middle in Hh.
    rewrite Exists_app. rewrite Exists_cons in Hh. rewrite Exists_cons, Exists_nil. tauto.
  - exists r'. split; [|done]. rewrite E. do 2 f_equal.
    destruct outs as [|[k0 o0] outs]; [done|]. exfalso. apply Hout. simpl.
    destruct (feed_keys _ _ _ _ k0 E) as (e & He & Hk0); [by left|].
    rewrite elem_of_app, list_elem_of_singleton in He.
    assert (k0 = (w, seq)) as -> by (destruct He as [He| ->]; rewrite <- Hk0; by apply tile_ok; auto).
    by left.
Qed.
End any_order.

(** ** The container invariant *)

Lemma add_fragment_map_ok r now1 now2 w seq total off data n r' o :
  map_ok (partials r) -> add_fragment r now1 now2 w seq total off data n = Done (r', o) ->
  map_ok (partials r').
Proof.
  intros Hr. unfold add_fragment.
  destruct (_ || _); [by intros [= <- _]|]. destruct (_ && _); [by intros [= <- _]|].
  set (m := map_emplace _ _ _). assert (Hm : map_ok m) by (by apply map_ok_emplace).
  destruct (map_find _ m); [|done]. destruct (negb _); [by intros [= <- _]|].
  destruct (if 0 <? n then _ else _) as [buffer| |]; cbn [mbind res_bind]; try done.
  case_bool_decide; intros [= <- _]; [by apply map_ok_erase|by apply map_ok_set].
Qed.

Lemma feed_map_ok r evs r' outs :
  map_ok (partials r) -> feed r evs = Done (r', outs) -> map_ok (partials r').
Proof.
  revert r outs. induction evs as [|[[n1 n2] b] evs IH]; intros r outs Hr; simpl.
  { by intros [= <- _]. }
  destruct (add_fragment_body r n1 n2 b) as [[r1 o]| |] eqn:E; simpl; try done.
  destruct (feed r1 evs) as [[r2 outs2]| |] eqn:E2; simpl; try done.
  intros [= <- _]. eapply IH; [|exact E2]. by eapply add_fragment_map_ok.
Qed.

(** The fragments of one message of two, for the witnesses. *)
Definition half (b : bool) (seq : Z) : DataFragBody :=
  if b then mkDataFrag zero_guid seq 3 4 0 [1; 2] no_trailer
  else mkDataFrag zero_guid seq 3 4 2 [3; 4] no_trailer.

Lemma half_ok b : data_frag_ok (half b 7).
Proof.
  destruct b; unfold data_frag_ok; simpl; (split; [exact zero_guid_ok|]);
    split_and!; try ulia; repeat (apply Forall_cons; split; [ulia|]); constructor.
Qed.

(** ** Properties *)

Module ReassemblerSpec.

(** C15. Fragmenting a sample and reassembling its fragments in any order
    gives back the sample, exactly once, with the last fragment to arrive. *)
Theorem fragment_reassemble w seq pub flags p max_payload :
  guid_ok w -> fits 64 seq -> fits 64 pub -> fits 16 flags -> bytes_ok p ->
  64 + len p < 2 ^ 32 -> 56 < max_payload -> max_payload < 48 + len p ->
  exists frames bodies,
    fragment w seq pub (Some p) (len p) max_payload flags = Done frames /\
    Forall2 (fun f b => decode_data_frag f = Done b) frames bodies /\
    forall evs, evs.*2 ≡ₚ bodies ->
      exists r, feed new_reassembler evs = Done (r, [((w, seq), p)]) /\
        map_find (w, seq) (partials r) = None.
Proof.
  intros Hw Hs Hpub Hf Hok Hp Hm Hm'.
  destruct (fragment_many w seq pub flags max_payload p) as (fs & bs & E & HF & HT & HA & _);
    try done.
  exists fs, bs. split_and!; [done| |].
  - eapply Forall2_impl; [exact HF|]. intros f b Hd. specialize (Hd []).
    by rewrite app_nil_r in Hd.
  - intros evs HP. apply (tiles_any_order w seq pub p bs); try done.
    + ulia.
    + intros ->. simpl in Hm'. lia.
Qed.

Lemma fragment_reassemble_witness :
  exists frames bodies,
    fragment zero_guid 7 3 (Some [1; 2; 3; 4; 5; 6; 7; 8; 9; 10]) 10 57 0 = Done frames /\
    Forall2 (fun f b => decode_data_frag f = Done b) frames bodies /\
    forall evs, evs.*2 ≡ₚ bodies ->
      exists r, feed new_reassembler evs = Done (r, [((zero_guid, 7), [1; 2; 3; 4; 5; 6; 7; 8; 9; 10])]) /\
        map_find (zero_guid, 7) (partials r) = None.
Proof.
  apply (fragment_reassemble zero_guid 7 3 0 [1; 2; 3; 4; 5; 6; 7; 8; 9; 10] 57);
    [exact zero_guid_ok|simpl; try ulia..].
  repeat (apply Forall_cons; split; [ulia|]). constructor.
Defined.

(** Fragments may be duplicated, overlap, and interleave with those of
    other messages: a message is delivered when its last missing byte arrives,
    with the right content, and nothing is delivered for it before. *)
Theorem reassembly_interleaved k p r evs now1 now2 b :
  reasm_ok r -> map_find k (partials r) = None -> p <> [] ->
  Forall (fun e => data_frag_ok (snd e)) evs -> data_frag_ok b -> frag_key b = k ->
  Forall (frag_matches p) (of_key k evs) -> frag_matches p b ->
  ~ full p (of_key k evs) -> full p (of_key k evs ++ [b]) ->
  exists r' outs,
    feed r (evs ++ [(now1, now2, b)]) = Done (r', outs ++ [(k, p)]) /\ (k ∉ outs.*1) /\
    map_find k (partials r') = None.
Proof. apply feed_complete. Qed.

Lemma reassembly_interleaved_witness :
  exists r' outs,
    feed new_reassembler ([(0, 0, half false 7); (0, 0, half false 8); (0, 0, half false 7)] ++
      [(0, 0, half true 7)]) = Done (r', outs ++ [((zero_guid, 7), [1; 2; 3; 4])]) /\
    ((zero_guid, 7) ∉ outs.*1) /\
    map_find (zero_guid, 7) (partials r') = None.
Proof.
  assert (H8 : data_frag_ok (half false 8)) by (pose proof (half_ok false) as H; exact H).
  apply reassembly_interleaved; try done; try apply half_ok.
  - repeat (apply Forall_cons; split; [simpl; first [apply half_ok|exact H8]|]). constructor.
  - repeat (apply Forall_cons; split; [split; reflexivity|]). constructor.
  - intros Hf. specialize (Hf 0 ltac:(simpl; lia)). unfold hit in Hf.
    change (of_key (zero_guid, 7) _) with [half false 7; half false 7] in Hf.
    rewrite !Exists_cons, Exists_nil in Hf. simpl in Hf. lia.
  - intros x Hx. change (of_key (zero_guid, 7) _) with [half false 7; half false 7].
    unfold hit. simpl in *. rewrite !Exists_cons. simpl. lia.
Defined.

(** Any sequence of received frames that decode as fragments is processed
    without leaving a buffer, whatever the frames contain. *)
Theorem reassembler_memory_safe r evs :
  reasm_ok r -> Forall (fun e => exists frame, bytes_ok frame /\
                                   decode_data_frag frame = Done (snd e)) evs ->
  exists r' outs, feed r evs = Done (r', outs) /\ reasm_ok r'.
Proof.
  intros Hr H. revert r Hr. induction H as [|[[n1 n2] b] evs (f & Hf & Hd) H IH]; intros r Hr.
  { by exists r, []. }
  assert (Hb : data_frag_ok b) by (by eapply safe_Done; [apply decode_data_frag_safe|]).
  destruct (add_fragment_frame r n1 n2 b Hr Hb) as (r1 & o & E & Hr1 & _).
  destruct (IH r1 Hr1) as (r2 & outs & E2 & Hr2).
  eexists r2, _. simpl. rewrite E. simpl. rewrite E2. by split.
Qed.

Lemma reassembler_memory_safe_witness :
  exists r' outs, feed new_reassembler [(0, 0, half false 7)] = Done (r', outs) /\ reasm_ok r'.
Proof.
  apply reassembler_memory_safe; [done|]. constructor; [|constructor].
  exists (data_frag_bytes zero_guid 7 3 4 2 [3; 4] 0 None). split.
  - vm_compute. repeat (apply Forall_cons; split; [split; [intros [=]|reflexivity]|]). constructor.
  - vm_compute. reflexivity.
Defined.

(** The sweep is exact: from any state reached by receiving fragments it drops
    precisely the partial messages that no fragment has touched for longer than the
    timeout, reports their number, and leaves the others as they are. *)
Theorem sweep_exact evs r outs now k :
  feed new_reassembler evs = Done (r, outs) ->
  let (r', dropped) := sweep_expired r now in
  map_find k (partials r') =
    match map_find k (partials r) with
    | Some p => if decide (now - part_last_update p <= reasm_timeout r * 1000000) then Some p else None
    | None => None
    end /\
  pending_count r' + dropped = pending_count r.
Proof.
  intros Hf. unfold sweep_expired, pending_count. simpl. split; [|lia].
  rewrite map_find_keep by (by eapply feed_map_ok; [|exact Hf]; apply map_ok_nil).
  destruct (map_find k (partials r)) as [p|]; [|done].
  case_decide; destruct (Z.ltb_spec (reasm_timeout r * 1000000) (now - part_last_update p));
    done || lia.
Qed.

Lemma sweep_exact_witness :
  let r := mkReassembler [((zero_guid, 7), mkPartial 4 [0; 0; 3; 4] [(2, 4)] 10)] 5000 in
  let (r', dropped) := sweep_expired r 5000000011 in
  map_find (zero_guid, 7) (partials r') =
    match map_find (zero_guid, 7) (partials r) with
    | Some p => if decide (5000000011 - part_last_update p <= reasm_timeout r * 1000000)
                then Some p else None
    | None => None
    end /\
  pending_count r' + dropped = pending_count r.
Proof.
  apply (sweep_exact [(10, 10, half false 7)] _ [] 5000000011 (zero_guid, 7)).
  vm_compute. reflexivity.
Defined.

(** The overload that takes the fields directly checks the range in 32
    bits: a fragment whose end wraps around passes the check and is copied
    past the end of the buffer. *)
Theorem add_fragment_wraps :
  add_fragment new_reassembler 0 0 zero_guid 1 10 (2 ^ 32 - 4) (Some (zeros 8)) 8 = UB.
Proof. vm_compute. reflexivity. Qed.
End ReassemblerSpec.
