(* ===== verification/ReassemblerRef.v ===== *)
(** * A reference reassembler

    The obvious reassembler remembers, for every byte of a message, whether and what it
    received; the one of src/fragment.cpp keeps merged intervals and one buffer.  Under
    any sequence of fragments, time-out sweeps and drops the two answer alike. *)

From S2P Require Import Prelude Memory StdMap Guid Frame Fragment Reassembler.

(** ** Entry-wise related maps *)

Section related.
Context {K A B : Type} `{EqDecision K} `{KeyLt K} (R : A -> B -> Prop).
Implicit Types (m : std_map K A) (n : std_map K B).

Definition map_related m n : Prop := Forall2 (fun e e' => e.1 = e'.1 /\ R e.2 e'.2) m n.

Lemma related_find k m n :
  map_related m n ->
  match map_find k m, map_find k n with Some a, Some b => R a b | None, None => True | _, _ => False end.
Proof.
  induction 1 as [|[k1 a] [k2 b] m n [E HR] _ IH]; [done|]. simpl in *. subst k2. by destruct (decide (k = k1)).
Qed.

Lemma related_set k a b m n : R a b -> map_related m n -> map_related (map_set k a m) (map_set k b n).
Proof.
  intros HR. induction 1 as [|[k1 a1] [k2 b1] m n [E HR1] Hm IH]; [by constructor|].
  simpl in *. subst k2. destruct (decide (k = k1)); [by constructor|].
  destruct (key_lt k k1); [by repeat constructor|]. by constructor.
Qed.

Lemma related_filter (P : K * A -> Prop) (Q : K * B -> Prop) `{forall e, Decision (P e), forall e, Decision (Q e)} m n :
  (forall k a b, R a b -> P (k, a) <-> Q (k, b)) -> map_related m n -> map_related (filter P m) (filter Q n).
Proof.
  intros HPQ. induction 1 as [|[k1 a1] [k2 b1] m n [E HR1] Hm IH]; [constructor|]. simpl in E, HR1. subst k2.
  rewrite !filter_cons. specialize (HPQ k1 a1 b1 HR1).
  destruct (decide (P (k1, a1))), (decide (Q (k1, b1))); [by constructor|tauto..|done].
Qed.

Lemma related_length m n : map_related m n -> len m = len n.
Proof. intros Hm. by rewrite (Forall2_length _ _ _ Hm). Qed.
End related.

Lemma map_emplace_cases {K V} `{EqDecision K} `{KeyLt K} (k : K) (v : V) (m : std_map K V) :
  map_emplace k v m = m \/ map_emplace k v m = map_set k v m.
Proof. unfold map_emplace. destruct (map_find k m); auto. Qed.

(** ** The reference *)

(** One entry per byte of the message: what was received for it last. *)
Record RefPartial := mkRef { ref_bytes : list (option Z); ref_last : Z }.

Abbreviation RefReassembler := (std_map PartialKey RefPartial).

Definition overlay (bytes : list (option Z)) (off : Z) (payload : list Z) : list (option Z) :=
  take (Z.to_nat off) bytes ++ (Some <$> payload) ++ drop (Z.to_nat (off + len payload)) bytes.

Definition ref_add (m : RefReassembler) (now1 now2 : Z) (b : DataFragBody) : RefReassembler * option (list Z) :=
  let total := frag_total_size b in
  let k := frag_key b in
  let q := default (mkRef (replicate (Z.to_nat total) None) now1) (map_find k m) in
  if (total =? 0) || negb (len (ref_bytes q) =? total) then (m, None)
  else
    let bytes := overlay (ref_bytes q) (frag_offset b) (frag_payload b) in
    match mapM id bytes with
    | Some whole => (map_erase k m, Some whole)
    | None => (map_set k (mkRef bytes now2) m, None)
    end.

Definition ref_sweep (timeout_ms : Z) (m : RefReassembler) (now : Z) : RefReassembler :=
  map_keep (fun _ q => negb (timeout_ms * 1000000 <? now - ref_last q)) m.

Definition ref_drop (m : RefReassembler) (writer : Guid) : RefReassembler :=
  map_keep (fun k _ => negb (bool_decide (fst k = writer))) m.

(** *** Runs of both *)

Inductive ReasmEvent :=
| EvFragment (now1 now2 : Z) (b : DataFragBody)
| EvSweep (now : Z)
| EvDrop (writer : Guid).

Definition event_ok (e : ReasmEvent) : Prop := match e with EvFragment _ _ b => data_frag_ok b | _ => True end.

(** What a caller sees of an event: a completed sample, the number of messages swept,
    the number of messages pending after it. *)
Record ReasmSeen := mkSeen { seen_sample : option (list Z); seen_swept : Z; seen_pending : Z }.

Definition reasm_event (r : Reassembler) (e : ReasmEvent) : res (Reassembler * ReasmSeen) :=
  match e with
  | EvFragment now1 now2 b =>
      ro ← add_fragment_body r now1 now2 b; Done (ro.1, mkSeen ro.2 0 (pending_count ro.1))
  | EvSweep now => let (r', k) := sweep_expired r now in Done (r', mkSeen None k (pending_count r'))
  | EvDrop writer => let r' := drop_writer r writer in Done (r', mkSeen None 0 (pending_count r'))
  end.

Fixpoint reasm_events (r : Reassembler) (es : list ReasmEvent) : res (Reassembler * list ReasmSeen) :=
  match es with
  | [] => Done (r, [])
  | e :: es => ro ← reasm_event r e; rest ← reasm_events ro.1 es; Done (rest.1, ro.2 :: rest.2)
  end.

Definition ref_event (timeout_ms : Z) (m : RefReassembler) (e : ReasmEvent) : RefReassembler * ReasmSeen :=
  match e with
  | EvFragment now1 now2 b => let (m', o) := ref_add m now1 now2 b in (m', mkSeen o 0 (len m'))
  | EvSweep now => let m' := ref_sweep timeout_ms m now in (m', mkSeen None (len m - len m') (len m'))
  | EvDrop writer => let m' := ref_drop m writer in (m', mkSeen None 0 (len m'))
  end.

Fixpoint ref_events (timeout_ms : Z) (m : RefReassembler) (es : list ReasmEvent) : list ReasmSeen :=
  match es with
  | [] => []
  | e :: es => let (m', o) := ref_event timeout_ms m e in o :: ref_events timeout_ms m' es
  end.

(** ** The relation *)

(** The intervals are the bytes received, and the buffer holds what was received. *)
Record partial_related (p : Partial) (q : RefPartial) : Prop := {
  pr_total : len (ref_bytes q) = part_total_size p;
  pr_length : len (part_buffer p) = part_total_size p;
  pr_fits : fits 32 (part_total_size p);
  pr_last : ref_last q = part_last_update p;
  pr_separated : separated (-1) (part_intervals p);
  pr_bounded : Forall (fun iv => snd iv <= part_total_size p) (part_intervals p);
  pr_received x : 0 <= x < part_total_size p -> covered (part_intervals p) x ->
    ref_bytes q !! Z.to_nat x = Some (part_buffer p !! Z.to_nat x);
  pr_missing x : 0 <= x < part_total_size p -> ~ covered (part_intervals p) x ->
    ref_bytes q !! Z.to_nat x = Some None;
}.

Lemma related_fresh total now :
  fits 32 total -> partial_related (mkPartial total (zeros total) [] now) (mkRef (replicate (Z.to_nat total) None) now).
Proof.
  intros Ht. split; simpl; try done.
  - rewrite length_replicate. ulia.
  - rewrite length_zeros. ulia.
  - intros x _ H. by apply Exists_nil in H.
  - intros x Hx _. apply lookup_replicate. split; [done|]. lia.
Qed.

Lemma overlay_lookup bytes off payload x :
  0 <= off -> off + len payload <= len bytes -> 0 <= x ->
  overlay bytes off payload !! Z.to_nat x =
  if decide (off <= x < off + len payload) then Some (payload !! Z.to_nat (x - off)) else bytes !! Z.to_nat x.
Proof.
  intros Ho Hle Hx. unfold overlay. case_decide as Hd.
  - rewrite lookup_app_r by (rewrite length_take; lia). rewrite length_take.
    rewrite lookup_app_l by (rewrite length_fmap; lia). rewrite list_lookup_fmap.
    replace (Z.to_nat x - Nat.min (Z.to_nat off) (length bytes))%nat with (Z.to_nat (x - off)) by lia.
    destruct (payload !! Z.to_nat (x - off)) eqn:E; [done|]. apply lookup_ge_None in E. lia.
  - destruct (decide (x < off)).
    + rewrite lookup_app_l by (rewrite length_take; lia). apply lookup_take_lt. lia.
    + rewrite !lookup_app_r, lookup_drop by (rewrite ?length_fmap, ?length_take; lia). f_equal.
      rewrite length_fmap, length_take. lia.
Qed.

Lemma length_overlay bytes off payload :
  0 <= off -> off + len payload <= len bytes -> len (overlay bytes off payload) = len bytes.
Proof. intros. unfold overlay. rewrite !length_app, length_fmap, length_take, length_drop. lia. Qed.

(** Merging a fragment on both sides. *)
Lemma related_merge p q off payload buffer now :
  partial_related p q -> 0 <= off -> off + len payload <= part_total_size p ->
  store (part_buffer p) off payload = Done buffer ->
  partial_related
    (mkPartial (part_total_size p) buffer (merge_loop (part_intervals p) [] off (off + len payload)) now)
    (mkRef (overlay (ref_bytes q) off payload) now).
Proof.
  intros [Ht Hl Hf Hla Hs Hb Hr Hm] Ho Hle Hst.
  assert (Hcov : forall x, covered (merge_loop (part_intervals p) [] off (off + len payload)) x <->
    off <= x < off + len payload \/ covered (part_intervals p) x).
  { intros x. by apply (merge_covered (-1)); [|lia]. }
  split; simpl; try done.
  - rewrite length_overlay; lia.
  - apply store_length in Hst. lia.
  - apply merge_separated; [done|lia..].
  - apply merge_bounded; [done|lia].
  - intros x Hx Hc%Hcov. rewrite overlay_lookup, (store_lookup _ _ _ _ _ Hst) by lia. case_decide; [done|].
    apply Hr; [done|]. tauto.
  - intros x Hx Hc. rewrite Hcov in Hc. rewrite overlay_lookup by lia. rewrite decide_False by tauto. apply Hm; tauto.
Qed.

(** Complete exactly when no byte is missing, and then with the same content. *)
Lemma related_complete p q :
  partial_related p q -> 0 < part_total_size p -> part_intervals p <> [] ->
  mapM id (ref_bytes q) = if decide (part_intervals p = [(0, part_total_size p)]) then Some (part_buffer p) else None.
Proof.
  intros [Ht Hl Hf Hla Hs Hb Hr Hm] Hpos Hne.
  assert (Hub : forall x, covered (part_intervals p) x -> x < part_total_size p).
  { intros x (iv & Hin & Hiv)%Exists_exists. rewrite Forall_forall in Hb. specialize (Hb _ Hin). simpl in *. lia. }
  pose proof (complete_iff _ _ Hs Hub Hpos Hb Hne) as Hiff. case_decide as Hd.
  - apply mapM_Some_2. rewrite Hiff in Hd. apply Forall2_same_length_lookup_2; [lia|].
    intros i o z Hi Hz. pose proof (lookup_lt_Some _ _ _ Hi) as Hlt.
    specialize (Hr (Z.of_nat i)). rewrite Nat2Z.id in Hr. rewrite Hr, Hz in Hi by (try apply Hd; lia). by injection Hi as <-.
  - destruct (mapM id (ref_bytes q)) as [whole|] eqn:E; [|done]. exfalso. apply Hd, Hiff. intros x Hx.
    destruct (decide (covered (part_intervals p) x)) as [|Hc]; [done|]. exfalso.
    apply mapM_Some_1 in E. specialize (Hm x Hx Hc).
    destruct (Forall2_lookup_l _ _ _ _ _ E Hm) as (z & _ & Hz). done.
Qed.

Abbreviation reasm_related := (map_related partial_related).

Lemma related_ok r m : reasm_related (partials r) m -> reasm_ok r.
Proof.
  intros Hm k p Hp. pose proof (related_find partial_related k _ _ Hm) as Hf. rewrite Hp in Hf.
  destruct (map_find k m) as [q|]; [|done]. by destruct Hf.
Qed.

Lemma related_add r m now1 now2 b :
  reasm_related (partials r) m -> data_frag_ok b ->
  exists r', add_fragment_body r now1 now2 b = Done (r', (ref_add m now1 now2 b).2) /\
    reasm_related (partials r') (ref_add m now1 now2 b).1 /\ reasm_timeout r' = reasm_timeout r.
Proof.
  intros Hm Hb. unfold ref_add. set (k := frag_key b). set (total := frag_total_size b).
  destruct (Z.eqb_spec total 0) as [Hz|Hz].
  { exists r. unfold add_fragment_body, add_fragment. fold total. rewrite Hz. by split_and!. }
  destruct (add_fragment_eq r now1 now2 b (related_ok _ _ Hm) Hb Hz) as [_ H]. fold k total in H.
  set (p := lookup_or_fresh r k total now1) in *. set (q := default _ (map_find k m)).
  assert (Hpq : partial_related p q).
  { pose proof (related_find partial_related k _ _ Hm) as Hf. unfold p, q, lookup_or_fresh.
    destruct (map_find k (partials r)), (map_find k m); simpl; [done..|]. apply related_fresh, Hb. }
  cbn [orb]. rewrite (pr_total _ _ Hpq). destruct Hb as (_ & _ & _ & _ & Ht & Hoff & Hle).
  destruct (decide (part_total_size p = total)) as [Etot|Etot].
  2:{ rewrite (proj2 (Z.eqb_neq _ _)) by done. cbn [negb]. eexists. split; [exact H|]. split; [|done]. simpl.
      unfold map_emplace. destruct (map_find k (partials r)) eqn:Ef; [done|]. exfalso.
      apply Etot. unfold p, lookup_or_fresh. by rewrite Ef. }
  rewrite (proj2 (Z.eqb_eq _ _)) by done. cbn [negb]. destruct H as (buffer & Hst & Heq).
  fold total in Hle. rewrite <- Etot in Hle. pose proof (related_merge p q _ _ buffer now2 Hpq Hoff Hle Hst) as Hpq'.
  pose proof (related_complete _ _ Hpq') as Hc. cbn [part_total_size part_intervals part_buffer ref_bytes] in Hc.
  rewrite Hc by (unfold total in *; ulia || apply merge_nonempty). rewrite Etot in *.
  rewrite Heq. clear Heq Hc. destruct (decide (_ = [(0, total)])) as [Hd|Hd].
  - rewrite bool_decide_true by done. eexists. split; [done|]. split; [|done]. simpl.
    assert (Ee : map_erase k (map_emplace k p (partials r)) = map_erase k (partials r)).
    { destruct (map_emplace_cases k p (partials r)) as [-> | ->]; [done|apply map_erase_set]. }
    rewrite Ee. by apply related_filter.
  - rewrite bool_decide_false by done. eexists. split; [done|]. split; [|done]. simpl.
    assert (Es : forall v, map_set k v (map_emplace k p (partials r)) = map_set k v (partials r)).
    { intros v. destruct (map_emplace_cases k p (partials r)) as [-> | ->]; [done|apply map_set_set]. }
    rewrite Es. by apply related_set.
Qed.

Lemma related_keep (f g : PartialKey -> _ -> bool) m n :
  (forall k p q, partial_related p q -> f k p = g k q) -> reasm_related m n ->
  reasm_related (map_keep f m) (map_keep g n).
Proof. intros Hfg. apply related_filter. intros k p q Hpq. simpl. by rewrite (Hfg k p q Hpq). Qed.

Lemma related_event r m e :
  reasm_related (partials r) m -> event_ok e ->
  exists r', reasm_event r e = Done (r', (ref_event (reasm_timeout r) m e).2) /\
    reasm_related (partials r') (ref_event (reasm_timeout r) m e).1 /\ reasm_timeout r' = reasm_timeout r.
Proof.
  intros Hm. destruct e as [now1 now2 b|now|writer]; cbn [event_ok reasm_event ref_event]; intros He.
  - destruct (related_add r m now1 now2 b Hm He) as (r' & E & Hm' & Et). rewrite E.
    destruct (ref_add m now1 now2 b) as [m' o]. simpl in *. exists r'. unfold pending_count.
    by rewrite (related_length _ _ _ Hm').
  - unfold sweep_expired, pending_count, ref_sweep. set (kept := map_keep _ (partials r)). set (rkept := map_keep _ m).
    assert (Hk : reasm_related kept rkept) by (apply related_keep; [|done]; intros k p q Hpq; by rewrite (pr_last _ _ Hpq)).
    exists (set_partials kept r). split; [|by split]. simpl. by rewrite (related_length _ _ _ Hk), (related_length _ _ _ Hm).
  - unfold drop_writer, pending_count, ref_drop. set (kept := map_keep _ (partials r)). set (rkept := map_keep _ m).
    assert (Hk : reasm_related kept rkept) by (by apply related_keep).
    exists (set_partials kept r). split; [|by split]. simpl. by rewrite (related_length _ _ _ Hk).
Qed.

Lemma related_events es r m :
  reasm_related (partials r) m -> Forall event_ok es ->
  exists r', reasm_events r es = Done (r', ref_events (reasm_timeout r) m es).
Proof.
  intros Hm Hes. revert r m Hm. induction Hes as [|e es He Hes IH]; intros r m Hm; cbn [reasm_events ref_events]; [by eexists|].
  destruct (related_event r m e Hm He) as (r1 & E & Hm1 & Et). rewrite E.
  destruct (ref_event (reasm_timeout r) m e) as [m1 o]. simpl in *.
  destruct (IH r1 m1 Hm1) as [r2 E2]. rewrite E2, Et. simpl. by eexists.
Qed.

(** A message of six bytes in three fragments that overlap and disagree, among a sweep
    that is too early, a drop of another writer, and a fragment of another size. *)
Definition test_piece (total off : Z) (bs : list Z) : ReasmEvent :=
  EvFragment 10 10 (mkDataFrag zero_guid 7 0 total off bs no_trailer).
Definition test_events : list ReasmEvent :=
  [test_piece 6 4 [5; 6]; test_piece 6 0 [1; 2; 9]; EvSweep 20; test_piece 8 2 [0; 0]; EvDrop (mkGuid (replicate 16 3));
   test_piece 6 2 [3; 4; 8]].

Lemma test_piece_ok total off bs :
  bytes_ok bs -> fits 32 total -> 0 <= off -> off + len bs <= total -> event_ok (test_piece total off bs).
Proof. intros. unfold event_ok, test_piece, data_frag_ok. simpl. split_and!; exact zero_guid_ok || done || ulia. Qed.

Module ReassemblerRefSpec.

(** C11. The interval bookkeeping is invisible: for every sequence of fragments that passed
    the decoder - of any messages, duplicated, overlapping, even contradicting each other -
    time-out sweeps and drops, the reassembler stays inside its buffers, and what a caller
    sees (completed samples with their bytes, messages swept, messages pending) is what a
    reassembler that keeps every byte of a message separately shows. *)
Theorem reassembler_is_byte_map (es : list ReasmEvent) :
  Forall event_ok es ->
  exists r, reasm_events new_reassembler es = Done (r, ref_events 5000 [] es).
Proof. intros Hes. apply (related_events es new_reassembler []); [constructor|done]. Qed.

Lemma reassembler_is_byte_map_witness :
  exists r, reasm_events new_reassembler test_events = Done (r,
    [mkSeen None 0 1; mkSeen None 0 1; mkSeen None 0 1; mkSeen None 0 1; mkSeen None 0 1;
     mkSeen (Some [1; 2; 3; 4; 8; 6]) 0 0]).
Proof.
  apply (reassembler_is_byte_map test_events).
  repeat first [apply Forall_nil | apply Forall_cons; split]; first [done | apply test_piece_ok; simpl; ulia || (repeat constructor; ulia)].
Defined.
End ReassemblerRefSpec.
