(* ===== verification/ReaderImpl.v ===== *)
(** * Readers (class [ReaderImpl] of src/participant.cpp)

    The receive queue and, per remote writer, the receive window: a contiguous
    baseline and 64 bits for the sequence numbers after it.  Each reading of the
    system clock is an argument. *)

From S2P Require Import Prelude Memory StdMap Guid Qos.

(** ** Lifespan *)

Definition lifespan_expired (lifespan_ms pub_time_ms now_ms : Z) : bool :=
  (0 <? lifespan_ms) && (0 <? pub_time_ms) && (u64 (pub_time_ms + lifespan_ms) <=? now_ms).

(** ** State *)

Record MessageInfo := mkInfo {
  mi_writer_guid : Guid;
  mi_seq : Z;
  mi_pub_time_ms : Z;
}.

Record QueuedSample := mkSample {
  qs_data : list Z;
  qs_info : MessageInfo;
  qs_lifespan_ms : Z;
}.

Record WriterRxState := mkRx {
  last_seq : Z;
  window : Z;
}.

(** [WriterRxState{}] *)
Definition rx_init : WriterRxState := mkRx 0 0.

Record ReaderImpl := mkReader {
  r_guid : Guid;
  r_topic : list Z;
  r_type : list Z;
  r_qos : QosProfile;
  r_ignore_local : bool;
  r_matched_count : Z;
  r_birth_us : Z;
  r_queue : list QueuedSample;
  r_rx : std_map Guid WriterRxState;
  r_lost_count : Z;
  r_has_callback : bool;
}.

(** A reader as [create_reader] makes it. *)
Definition new_reader (g : Guid) (topic type : list Z) (q : QosProfile) (ignore_local : bool)
    (birth_us : Z) : ReaderImpl :=
  mkReader g topic type q ignore_local 0 birth_us [] [] 0 false.

Definition set_queue (q : list QueuedSample) (r : ReaderImpl) : ReaderImpl :=
  mkReader (r_guid r) (r_topic r) (r_type r) (r_qos r) (r_ignore_local r) (r_matched_count r)
    (r_birth_us r) q (r_rx r) (r_lost_count r) (r_has_callback r).

Definition set_rx (m : std_map Guid WriterRxState) (lost : Z) (r : ReaderImpl) : ReaderImpl :=
  mkReader (r_guid r) (r_topic r) (r_type r) (r_qos r) (r_ignore_local r) (r_matched_count r)
    (r_birth_us r) (r_queue r) m lost (r_has_callback r).

Definition set_reader_matched (n : Z) (r : ReaderImpl) : ReaderImpl :=
  mkReader (r_guid r) (r_topic r) (r_type r) (r_qos r) (r_ignore_local r) n
    (r_birth_us r) (r_queue r) (r_rx r) (r_lost_count r) (r_has_callback r).

Definition set_data_callback (has : bool) (r : ReaderImpl) : ReaderImpl :=
  mkReader (r_guid r) (r_topic r) (r_type r) (r_qos r) (r_ignore_local r) (r_matched_count r)
    (r_birth_us r) (r_queue r) (r_rx r) (r_lost_count r) has.

(** ** Queue *)

Definition sample_expired (now : Z) (s : QueuedSample) : bool :=
  lifespan_expired (qs_lifespan_ms s) (mi_pub_time_ms (qs_info s)) now.

Definition sweep_expired_locked (now : Z) (q : list QueuedSample) : list QueuedSample :=
  filter (fun s => sample_expired now s = false) q.

Definition reader_take (r : ReaderImpl) (now : Z) : ReaderImpl * option (list Z * MessageInfo) :=
  match sweep_expired_locked now (r_queue r) with
  | [] => (set_queue [] r, None)
  | s :: q => (set_queue q r, Some (qs_data s, qs_info s))
  end.

Definition available (r : ReaderImpl) (now : Z) : ReaderImpl * Z :=
  let q := sweep_expired_locked now (r_queue r) in (set_queue q r, len q).

Definition messages_lost (r : ReaderImpl) : Z := r_lost_count r.

(** ** Receive window *)

(** [while (st.window & 1) { ++st.last_seq; st.window >>= 1; }]; the window has
    64 bits, so 64 iterations always suffice ([slide_done]). *)
Fixpoint slide (fuel : nat) (st : WriterRxState) : WriterRxState :=
  match fuel with
  | O => st
  | S fuel =>
      if Z.land (window st) 1 =? 0 then st
      else slide fuel (mkRx (u64 (last_seq st + 1)) (Z.shiftr (window st) 1))
  end.

(** What [enqueue] does to the state of one writer: the new state, the number of
    sequence numbers counted lost, the ACKNACK request, and whether the sample
    was new. *)
Record RxOut := mkRxOut {
  ro_state : WriterRxState;
  ro_lost : Z;
  ro_gap : option (bool * Z * Z);   (* gap_detected, gap_base, gap_bitmap *)
  ro_new : bool;
}.

Definition rx_receive (both_reliable : bool) (st : WriterRxState) (seq : Z) : RxOut :=
  if seq <=? last_seq st then mkRxOut st 0 None false
  else
    let offset := u64 (seq - last_seq st - 1) in
    if 64 <=? offset then mkRxOut (mkRx seq 0) offset None true
    else if 0 <? offset then
      if negb (Z.land (window st) (Z.shiftl 1 offset) =? 0) then mkRxOut st 0 None false
      else
        let w := Z.lor (window st) (Z.shiftl 1 offset) in
        mkRxOut (mkRx (last_seq st) w) 0
          (Some (both_reliable, u64 (last_seq st + 1), w)) true
    else
      let already_received := negb (Z.land (window st) 1 =? 0) in
      mkRxOut (slide 64 (mkRx (u64 (last_seq st + 1)) (Z.shiftr (window st) 1))) 0 None
        (negb already_received).

(** The out-parameters [gap_detected], [gap_base] and [gap_bitmap]. *)
Record EnqueueOut := mkEnqueueOut {
  eo_queued : bool;
  eo_gap : bool;
  eo_base : Z;
  eo_bitmap : Z;
}.

Definition enqueue (r : ReaderImpl) (now1 now2 : Z) (writer_guid : Guid) (seq : Z)
    (data : list Z) (writer_qos : QosProfile) (pub_time_ms : Z) : ReaderImpl * EnqueueOut :=
  let st := default rx_init (map_find writer_guid (r_rx r)) in
  let both := bool_decide (reliability (r_qos r) = RELIABLE) &&
              bool_decide (reliability writer_qos = RELIABLE) in
  let o := rx_receive both st seq in
  let out := match ro_gap o with
             | Some (g, b, m) => mkEnqueueOut false g b m
             | None => mkEnqueueOut false false 0 0
             end in
  let r1 := set_rx (map_set writer_guid (ro_state o) (r_rx r))
              (u64 (r_lost_count r + ro_lost o)) r in
  if negb (ro_new o) then (r1, out)
  else if lifespan_expired (lifespan_ms writer_qos) pub_time_ms now1 then (r1, out)
  else
    let sample := mkSample data (mkInfo writer_guid seq pub_time_ms) (lifespan_ms writer_qos) in
    let q := r_queue r ++ [sample] in
    let q := if bool_decide (history (r_qos r) = KEEP_LAST)
             then trim_front (Z.max (depth (r_qos r)) 1) q else q in
    (set_queue (sweep_expired_locked now2 q) r1,
     mkEnqueueOut true (eo_gap out) (eo_base out) (eo_bitmap out)).

Definition nack_state (r : ReaderImpl) (writer_guid : Guid) : Z * Z :=
  match map_find writer_guid (r_rx r) with
  | None => (1, 0)
  | Some st => (u64 (last_seq st + 1), window st)
  end.

Definition apply_gap (r : ReaderImpl) (writer_guid : Guid) (gap_start gap_end : Z) : ReaderImpl :=
  match map_find writer_guid (r_rx r) with
  | None => set_rx (map_set writer_guid (mkRx gap_end 0) (r_rx r)) (r_lost_count r) r
  | Some st =>
      if gap_end <=? last_seq st then r
      else
        let span := u64 (gap_end - last_seq st) in
        let tracked := Z.min span 64 in
        let received :=
          foldl (fun n i => if negb (Z.land (window st) (Z.shiftl 1 i) =? 0) then n + 1 else n)
            0 (seqZ 0 tracked) in
        let st' := mkRx gap_end (if 64 <=? span then 0 else Z.shiftr (window st) span) in
        set_rx (map_set writer_guid st' (r_rx r)) (u64 (r_lost_count r + (span - received))) r
  end.

(** ** The set of received sequence numbers *)

(** What the state of one writer stands for: [seq] was received, or given up. *)
Definition seen (st : WriterRxState) (seq : Z) : Prop :=
  seq <= last_seq st \/ Z.testbit (window st) (seq - last_seq st - 1) = true.

#[global] Instance seen_dec st seq : Decision (seen st seq).
Proof. unfold seen. apply _. Defined.

(** The state is a pair of 64-bit words whose window stays below 2^64. *)
Record rx_ok (st : WriterRxState) : Prop := {
  rx_ok_last : fits 64 (last_seq st);
  rx_ok_window : fits 64 (window st);
  rx_ok_bits i : Z.testbit (window st) i = true -> last_seq st + 1 + i < 2 ^ 64;
}.

Lemma rx_init_ok : rx_ok rx_init.
Proof. split; simpl; [ulia..|]. intros i. by rewrite Z.bits_0. Qed.

Lemma testbit_true_range w z i : fits w z -> Z.testbit z i = true -> 0 <= i < w.
Proof.
  intros Hz Hb. destruct (decide (0 <= i < w)) as [|Hn]; [done|]. exfalso.
  destruct (decide (i < 0)).
  - by rewrite Z.testbit_neg_r in Hb by lia.
  - destruct (decide (0 <= w)); [|unfold fits in Hz; rewrite Z.pow_neg_r in Hz; lia].
    by rewrite (testbit_above_fits w z) in Hb by (done || lia).
Qed.

Lemma land_1_bit0 z : (Z.land z 1 =? 0) = negb (Z.testbit z 0).
Proof. apply (land_shiftl_1 z 0). done. Qed.

(** [++last_seq; window >>= 1] accounts for the next number. *)
Lemma advance st :
  rx_ok st -> last_seq st + 1 < 2 ^ 64 ->
  let st' := mkRx (u64 (last_seq st + 1)) (Z.shiftr (window st) 1) in
  rx_ok st' /\ forall s, seen st' s <-> seen st s \/ s = last_seq st + 1.
Proof.
  intros [Hl Hw Hb] Hlt st'.
  assert (E : last_seq st' = last_seq st + 1) by (simpl; rewrite wrap_id; ulia).
  split.
  - split; [rewrite E; ulia|apply fits_shiftr; done|].
    intros i Hi. rewrite E. simpl in Hi.
    destruct (decide (0 <= i)); [|by rewrite Z.testbit_neg_r in Hi by lia].
    rewrite Z.shiftr_spec in Hi by done. specialize (Hb _ Hi). lia.
  - intros s. unfold seen. rewrite E. simpl.
    destruct (Z.lt_trichotomy s (last_seq st + 1)) as [H|[H|H]].
    + split; intros _; left; [left|]; lia.
    + split; intros _; [right; done|left; lia].
    + rewrite Z.shiftr_spec by lia.
      replace (s - (last_seq st + 1) - 1 + 1) with (s - last_seq st - 1) by lia.
      split; [intros [?|?]; [lia|left; by right]|intros [[?|?]|?]; [lia|by right|lia]].
Qed.

(** One turn of the [while] loop. *)
Lemma slide_step st :
  rx_ok st -> Z.testbit (window st) 0 = true ->
  let st' := mkRx (u64 (last_seq st + 1)) (Z.shiftr (window st) 1) in
  rx_ok st' /\ forall s, seen st' s <-> seen st s.
Proof.
  intros Hok H0. cbv zeta. pose proof (rx_ok_bits _ Hok 0 H0) as Hlt.
  destruct (advance st Hok) as [Hok' Hs]; [lia|]. split; [done|].
  intros s. rewrite (Hs s). split; [intros [?| ->]; [done|]|by left].
  right. by replace (last_seq st + 1 - last_seq st - 1) with 0 by lia.
Qed.

Lemma slide_spec fuel st :
  rx_ok st -> rx_ok (slide fuel st) /\ forall s, seen (slide fuel st) s <-> seen st s.
Proof.
  revert st. induction fuel as [|fuel IH]; intros st Hok; cbn [slide]; [done|].
  rewrite land_1_bit0. destruct (Z.testbit (window st) 0) eqn:H0; simpl; [|done].
  destruct (slide_step st Hok H0) as [Hok' Hs]. destruct (IH _ Hok') as [Hok'' Hs'].
  split; [done|]. intros s. by rewrite Hs'.
Qed.

(** 64 turns are enough for any 64-bit window: the loop has stopped. *)
Lemma slide_done fuel st :
  fits (Z.of_nat fuel) (window st) -> Z.testbit (window (slide fuel st)) 0 = false.
Proof.
  revert st. induction fuel as [|fuel IH]; intros st Hw; cbn [slide].
  { unfold fits in Hw. simpl in Hw. replace (window st) with 0 by lia. apply Z.bits_0. }
  rewrite land_1_bit0. destruct (Z.testbit (window st) 0) eqn:H0; simpl; [|done].
  apply IH. simpl. unfold fits in *. rewrite Z.shiftr_div_pow2 by lia.
  rewrite Nat2Z.inj_succ, Z.pow_succ_r in Hw by lia. change (2 ^ 1) with 2. ulia.
Qed.

(** Bit 0 of the window is clear: the number after the baseline is missing. *)
Definition canonical (st : WriterRxState) : Prop := Z.testbit (window st) 0 = false.

Section rx_receive.
Context (both : bool) (st : WriterRxState) (seq : Z).
Context (Hok : rx_ok st) (Hseq : fits 64 seq).

(** The arrival is too far ahead to be tracked. *)
Definition jumps : Prop := last_seq st + 64 < seq.

Lemma offset_eq : last_seq st < seq -> u64 (seq - last_seq st - 1) = seq - last_seq st - 1.
Proof. intros. apply wrap_id. destruct Hok. ulia. Qed.

Lemma rx_receive_new : ro_new (rx_receive both st seq) = bool_decide (~ seen st seq).
Proof.
  unfold rx_receive. destruct (Z.leb_spec seq (last_seq st)) as [Hle|Hgt].
  { symmetry. apply bool_decide_eq_false. intros H. apply H. by left. }
  rewrite offset_eq by done. set (off := seq - last_seq st - 1).
  assert (Hseen : seen st seq <-> Z.testbit (window st) off = true).
  { unfold seen. fold off. split; [intros [?|?]; [lia|done]|by right]. }
  rewrite (bool_decide_ext _ (Z.testbit (window st) off <> true)) by (by rewrite Hseen).
  destruct Hok as [Hl Hw Hb].
  destruct (Z.leb_spec 64 off); [|destruct (Z.ltb_spec 0 off)]; cbv zeta; simpl.
  - rewrite (testbit_above_fits 64) by (done || lia). done.
  - rewrite land_shiftl_1 by lia. by destruct (Z.testbit (window st) off).
  - replace off with 0 by (subst off; lia). rewrite land_1_bit0.
    by destruct (Z.testbit (window st) 0).
Qed.

Lemma rx_receive_jump :
  jumps -> rx_receive both st seq = mkRxOut (mkRx seq 0) (seq - last_seq st - 1) None true.
Proof.
  unfold jumps. intros Hj. unfold rx_receive.
  rewrite (proj2 (Z.leb_gt _ _)) by lia. rewrite offset_eq by lia.
  by rewrite (proj2 (Z.leb_le _ _)) by lia.
Qed.

Lemma rx_receive_tracked :
  ~ jumps -> rx_ok (ro_state (rx_receive both st seq)) /\
  ro_lost (rx_receive both st seq) = 0 /\
  (canonical st -> canonical (ro_state (rx_receive both st seq))) /\
  forall s, seen (ro_state (rx_receive both st seq)) s <-> seen st s \/ s = seq.
Proof.
  unfold jumps. intros Hj. unfold rx_receive.
  destruct (Z.leb_spec seq (last_seq st)) as [Hle|Hgt].
  { simpl. split_and!; try done. intros s. split; [by left|].
    intros [?| ->]; [done|by left]. }
  rewrite offset_eq by done. set (off := seq - last_seq st - 1). destruct Hok as [Hl Hw Hb].
  rewrite (proj2 (Z.leb_gt _ _)) by lia. cbv zeta.
  destruct (Z.ltb_spec 0 off).
  - rewrite land_shiftl_1 by lia. destruct (Z.testbit (window st) off) eqn:Hbit; simpl.
    { split_and!; try done. intros s. split; [by left|].
      intros [?| ->]; [done|by right]. }
    assert (Hbits : forall i, Z.testbit (Z.lor (window st) (Z.shiftl 1 off)) i = true ->
      Z.testbit (window st) i = true \/ i = off).
    { intros i Hi. destruct (decide (0 <= i)); [|by rewrite Z.testbit_neg_r in Hi by lia].
      rewrite lor_shiftl_1_spec in Hi by lia. zbool. destruct Hi; [by left|right; lia]. }
    split_and!; [|done|..].
    + split; simpl; [done|apply fits_lor; [done|done|apply fits_pow2; lia]|].
      intros i [Hi| ->]%Hbits; [by apply Hb|]. ulia.
    + unfold canonical. cbn [window ro_state]. rewrite lor_shiftl_1_spec by lia. intros ->.
      apply Z.eqb_neq. lia.
    + intros s. unfold seen. simpl. split.
      * intros [?|[?|?]%Hbits]; [left; by left|left; by right|right; lia].
      * intros [[?|Hs]| ->]; [by left|right|right].
        -- assert (0 <= s - last_seq st - 1) by (by eapply testbit_true_range).
           rewrite lor_shiftl_1_spec by lia. by rewrite Hs.
        -- rewrite lor_shiftl_1_spec by lia. fold off. by rewrite Z.eqb_refl, orb_true_r.
  - assert (Hlt : last_seq st + 1 < 2 ^ 64) by ulia.
    destruct (advance st ltac:(by split) Hlt) as [Hok' Hs].
    destruct (slide_spec 64 _ Hok') as [Hok'' Hs']. cbn [ro_state ro_lost].
    split_and!; [exact Hok''|done|intros _; apply (slide_done 64), Hok'|].
    intros s. rewrite Hs', Hs. replace (last_seq st + 1) with seq by lia. done.
Qed.
End rx_receive.

(** ** Gaps *)

Lemma count_foldl (P : Z -> bool) l n :
  foldl (fun n i => if P i then n + 1 else n) n l = n + len (filter (fun i => P i = true) l).
Proof.
  revert n. induction l as [|i l IH]; intros n; simpl; [lia|].
  rewrite IH, filter_cons.
  destruct (P i); [rewrite decide_True by done|rewrite decide_False by done]; simpl; lia.
Qed.

(** The numbers of a range that were never received. *)
Definition missing (st : WriterRxState) (upto : Z) : list Z :=
  filter (fun s => ~ seen st s) (seqZ (last_seq st + 1) (upto - last_seq st)).

(** Only the 64 tracked bits can be set. *)
Lemma received_tracked st span :
  rx_ok st -> 0 <= span ->
  len (filter (fun i => Z.testbit (window st) i = true) (seqZ 0 (Z.min span 64))) =
  len (filter (fun i => Z.testbit (window st) i = true) (seqZ 0 span)).
Proof.
  intros Hok Hspan. destruct (Z.le_gt_cases span 64); [by rewrite Z.min_l|].
  rewrite Z.min_r by lia. replace span with (64 + (span - 64)) by lia.
  rewrite seqZ_app, filter_app, length_app by lia.
  rewrite (filter_none _ (seqZ (0 + 64) _)); [simpl; lia|].
  intros i [Hi _]%elem_of_seqZ Hb. apply (testbit_true_range 64) in Hb; [lia|apply Hok].
Qed.

Lemma missing_count st upto :
  rx_ok st -> last_seq st < upto ->
  len (missing st upto) =
  (upto - last_seq st) -
  len (filter (fun i => Z.testbit (window st) i = true) (seqZ 0 (Z.min (upto - last_seq st) 64))).
Proof.
  intros Hok Hlt. rewrite received_tracked by (done || lia).
  set (span := upto - last_seq st).
  pose proof (length_filter_compl (fun i => Z.testbit (window st) i = true) (seqZ 0 span)) as H.
  rewrite length_seqZ in H. unfold missing. fold span.
  replace (last_seq st + 1) with (last_seq st + 1 + 0) by lia.
  rewrite <- fmap_add_seqZ, length_filter_fmap.
  rewrite (length_filter_ext _ (fun i => ~ Z.testbit (window st) i = true)); [lia|].
  intros i [Hi _]%elem_of_seqZ. unfold seen.
  replace (last_seq st + 1 + i - last_seq st - 1) with i by lia.
  split; [intros Hn ?; apply Hn; by right|intros Hn [?|?]; [lia|done]].
Qed.

(** Applying a GAP to a known writer: the baseline moves to its end, the numbers
    received in the window are kept, the others of the range are counted lost. *)
Lemma apply_gap_known r w start stop st :
  map_find w (r_rx r) = Some st -> rx_ok st -> fits 64 stop -> last_seq st < stop ->
  exists st',
    apply_gap r w start stop =
      set_rx (map_set w st' (r_rx r)) (u64 (r_lost_count r + len (missing st stop))) r /\
    rx_ok st' /\ last_seq st' = stop /\
    forall s, seen st' s <-> s <= stop \/ seen st s.
Proof.
  intros Hf Hok Hstop Hlt. pose proof Hok as [Hl Hw Hb].
  eexists. split; [|split; [|split]].
  - unfold apply_gap. rewrite Hf, (proj2 (Z.leb_gt _ _)) by done.
    rewrite wrap_id by ulia. cbv zeta. rewrite count_foldl, Z.add_0_l.
    rewrite (length_filter_ext _ (fun i => Z.testbit (window st) i = true)).
    { by rewrite <- missing_count. }
    intros i [Hi _]%elem_of_seqZ. rewrite land_shiftl_1 by done.
    by destruct (Z.testbit (window st) i).
  - split; simpl; [done|case_if; [ulia|by apply fits_shiftr; [lia|]]|].
    intros i. case_if; [by rewrite Z.bits_0|]. zbool. intros Hi.
    destruct (decide (0 <= i)); [|by rewrite Z.testbit_neg_r in Hi by lia].
    rewrite Z.shiftr_spec in Hi by done. specialize (Hb _ Hi). lia.
  - done.
  - intros s. unfold seen. simpl. destruct (Z.le_gt_cases s stop); [tauto|].
    destruct (Z.leb_spec 64 (stop - last_seq st)).
    { rewrite Z.bits_0. split; [intros [?|?]; [lia|done]|intros [?|[?|Hs]]; [lia..|]].
      apply (testbit_true_range 64) in Hs; [lia|done]. }
    rewrite Z.shiftr_spec by lia.
    replace (s - stop - 1 + (stop - last_seq st)) with (s - last_seq st - 1) by lia.
    split; [intros [?|?]; [lia|right; by right]|intros [?|[?|?]]; [lia..|by right]].
Qed.

(** ** Everything a state transition does to the received set *)

Lemma rx_receive_sound both st seq :
  rx_ok st -> fits 64 seq ->
  let st' := ro_state (rx_receive both st seq) in
  rx_ok st' /\ seen st' seq /\ forall s, seen st s -> seen st' s.
Proof.
  intros Hok Hseq. cbv zeta. destruct (decide (last_seq st + 64 < seq)) as [Hj|Hj].
  - rewrite rx_receive_jump by done. simpl. split_and!.
    + split; simpl; [done|ulia|]. intros i. by rewrite Z.bits_0.
    + left. simpl. lia.
    + intros s [?|Hs]; left; simpl; [lia|].
      apply (testbit_true_range 64) in Hs; [lia|apply Hok].
  - destruct (rx_receive_tracked both st seq Hok Hseq Hj) as (Hok' & _ & _ & Hs).
    split_and!; [done|apply Hs; by right|]. intros s ?. apply Hs. by left.
Qed.

(** ** Runs of a reader *)

Inductive ReaderOp :=
| OpEnqueue (now1 now2 : Z) (w : Guid) (seq : Z) (data : list Z) (wq : QosProfile) (pub : Z)
| OpGap (w : Guid) (start stop : Z)
| OpTake (now : Z)
| OpAvailable (now : Z).

Definition op_ok (op : ReaderOp) : Prop :=
  match op with
  | OpEnqueue _ _ _ seq _ _ _ => fits 64 seq
  | OpGap _ _ stop => fits 64 stop
  | _ => True
  end.

Definition sample_id (i : MessageInfo) : Guid * Z := (mi_writer_guid i, mi_seq i).
Definition queue_ids (r : ReaderImpl) : list (Guid * Z) :=
  (fun s => sample_id (qs_info s)) <$> r_queue r.

(** A reader with its history: the samples queued and the samples taken, in order. *)
Record ReaderTrace := mkTrace {
  tr_reader : ReaderImpl;
  tr_accepted : list (Guid * Z);
  tr_taken : list (Guid * Z);
}.

Definition reader_step (t : ReaderTrace) (op : ReaderOp) : ReaderTrace :=
  match op with
  | OpEnqueue now1 now2 w seq data wq pub =>
      let (r, o) := enqueue (tr_reader t) now1 now2 w seq data wq pub in
      mkTrace r (if eo_queued o then tr_accepted t ++ [(w, seq)] else tr_accepted t) (tr_taken t)
  | OpGap w start stop => mkTrace (apply_gap (tr_reader t) w start stop) (tr_accepted t) (tr_taken t)
  | OpTake now =>
      match reader_take (tr_reader t) now with
      | (r, Some (_, i)) => mkTrace r (tr_accepted t) (tr_taken t ++ [sample_id i])
      | (r, None) => mkTrace r (tr_accepted t) (tr_taken t)
      end
  | OpAvailable now => mkTrace (fst (available (tr_reader t) now)) (tr_accepted t) (tr_taken t)
  end.

Definition reader_run (r : ReaderImpl) (ops : list ReaderOp) : ReaderTrace :=
  foldl reader_step (mkTrace r [] []) ops.

Record trace_inv (t : ReaderTrace) : Prop := {
  ti_rx w st : map_find w (r_rx (tr_reader t)) = Some st -> rx_ok st;
  ti_seen w s : (w, s) ∈ tr_accepted t ->
    exists st, map_find w (r_rx (tr_reader t)) = Some st /\ seen st s;
  ti_nodup : NoDup (tr_accepted t);
  ti_queue : sublist (tr_taken t ++ queue_ids (tr_reader t)) (tr_accepted t);
}.

Lemma sublist_fmap {A B} (f : A -> B) (l k : list A) : sublist l k -> sublist (f <$> l) (f <$> k).
Proof. induction 1; simpl; by constructor. Qed.

Lemma sweep_sublist now q : sublist (sweep_expired_locked now q) q.
Proof. apply sublist_filter. Qed.

Lemma trim_sublist {A} n (q : list A) : sublist (trim_front n q) q.
Proof. apply suffix_sublist, trim_front_suffix. Qed.

(** What is left of the queue after pushing a sample, trimming and sweeping. *)
Lemma queue_push_sublist now trim n q (s : QueuedSample) :
  sublist (sweep_expired_locked now (if trim : bool then trim_front n (q ++ [s]) else q ++ [s]))
    (q ++ [s]).
Proof. etrans; [apply sweep_sublist|]. destruct trim; [apply trim_sublist|done]. Qed.

Lemma enqueue_step t now1 now2 w seq data wq pub :
  trace_inv t -> fits 64 seq ->
  trace_inv (reader_step t (OpEnqueue now1 now2 w seq data wq pub)).
Proof.
  intros [Hrx Hseen Hnd Hq] Hseq. destruct t as [r acc tk]. simpl in *. unfold enqueue.
  set (st := default rx_init (map_find w (r_rx r))).
  set (both := bool_decide _ && bool_decide _).
  assert (Hst : rx_ok st).
  { subst st. destruct (map_find w (r_rx r)) eqn:E; simpl; [by eapply Hrx|apply rx_init_ok]. }
  destruct (rx_receive_sound both st seq Hst Hseq) as (Hok' & Hs1 & Hs2).
  pose proof (rx_receive_new both st seq Hst Hseq) as Hnew.
  set (o := rx_receive both st seq) in *.
  assert (Hrx' : forall w' st', map_find w' (map_set w (ro_state o) (r_rx r)) = Some st' -> rx_ok st').
  { intros w' st'. rewrite map_find_set. case_decide; [by intros [= <-]|apply Hrx]. }
  assert (Hseen' : forall w' s, (w', s) ∈ acc ->
    exists st', map_find w' (map_set w (ro_state o) (r_rx r)) = Some st' /\ seen st' s).
  { intros w' s Hin. destruct (Hseen _ _ Hin) as (st' & E & Hs). rewrite map_find_set.
    case_decide as Hw; [|by exists st']. subst w'. eexists. split; [done|]. apply Hs2.
    subst st. by rewrite E. }
  destruct (ro_new o) eqn:Eo; simpl; [destruct (lifespan_expired _ _ _)|]; simpl.
  1,3: (split; simpl; try done; by destruct (ro_gap o) as [[[]]|]).
  split; simpl; [done|..].
  - intros w' s. rewrite elem_of_app, list_elem_of_singleton. intros [Hin|[= -> ->]]; [by apply Hseen'|].
    exists (ro_state o). by rewrite map_find_set_eq.
  - apply NoDup_app. split_and!; [done| |by apply NoDup_singleton].
    intros [w' s] Hin. rewrite list_elem_of_singleton. intros [= -> ->].
    symmetry in Hnew. apply bool_decide_eq_true in Hnew. apply Hnew.
    destruct (Hseen _ _ Hin) as (st' & E & Hs). subst st. by rewrite E.
  - etrans; [|apply sublist_app; [exact Hq|apply (sublist_skip _ _ _ (sublist_nil))]].
    rewrite <- app_assoc. apply sublist_app; [done|]. unfold queue_ids. simpl.
    replace [(w, seq)] with ((fun s => sample_id (qs_info s)) <$>
      [mkSample data (mkInfo w seq pub) (lifespan_ms wq)]) by done.
    rewrite <- fmap_app. apply sublist_fmap, queue_push_sublist.
Qed.

Lemma gap_step t w start stop :
  trace_inv t -> fits 64 stop -> trace_inv (reader_step t (OpGap w start stop)).
Proof.
  intros [Hrx Hseen Hnd Hq] Hstop. destruct t as [r acc tk]. simpl in *.
  assert (Hset : forall st' lost, rx_ok st' ->
    (forall st s, map_find w (r_rx r) = Some st -> seen st s -> seen st' s) ->
    trace_inv (mkTrace (set_rx (map_set w st' (r_rx r)) lost r) acc tk)).
  { intros st' lost Hok' Hmono. split; simpl; try done.
    - intros w' st''. rewrite map_find_set. case_decide; [by intros [= <-]|apply Hrx].
    - intros w' s Hin. destruct (Hseen _ _ Hin) as (st & E & Hs). rewrite map_find_set.
      case_decide; [|by exists st]. subst w'. exists st'. eauto. }
  destruct (map_find w (r_rx r)) as [st|] eqn:E.
  - destruct (Z.le_gt_cases stop (last_seq st)).
    { unfold apply_gap. rewrite E, (proj2 (Z.leb_le _ _)) by lia. by split. }
    destruct (apply_gap_known r w start stop st E) as (st' & -> & Hok' & _ & Hs); try done.
    { by eapply Hrx. }
    apply Hset; [done|]. intros st0 s [= <-] ?. apply Hs. by right.
  - unfold apply_gap. rewrite E. apply Hset; [|done].
    split; simpl; [done|ulia|]. intros i. by rewrite Z.bits_0.
Qed.

(** Sweeping the queue, and handing over its first sample. *)
Lemma sweep_step t now acc tk q' ids :
  trace_inv t -> tr_accepted t = acc ->
  sublist (ids ++ ((fun s => sample_id (qs_info s)) <$> q'))
    ((fun s => sample_id (qs_info s)) <$> sweep_expired_locked now (r_queue (tr_reader t))) ->
  tk = tr_taken t ++ ids ->
  trace_inv (mkTrace (set_queue q' (tr_reader t)) acc tk).
Proof.
  intros [Hrx Hseen Hnd Hq] <- Hsub ->. split; simpl; try done.
  etrans; [|exact Hq]. rewrite <- app_assoc. apply sublist_app; [done|].
  etrans; [exact Hsub|]. apply sublist_fmap, sweep_sublist.
Qed.

Lemma reader_step_inv t op : trace_inv t -> op_ok op -> trace_inv (reader_step t op).
Proof.
  intros Hi. destruct op as [now1 now2 w seq data wq pub|w start stop|now|now]; simpl op_ok.
  - by apply enqueue_step.
  - by apply gap_step.
  - intros _. simpl. unfold reader_take.
    destruct (sweep_expired_locked now (r_queue (tr_reader t))) as [|s q] eqn:E.
    + eapply (sweep_step _ now _ _ _ []); [done..|by rewrite E|by rewrite app_nil_r].
    + eapply (sweep_step _ now _ _ _ [sample_id (qs_info s)]); [done..|by rewrite E|done].
  - intros _. eapply (sweep_step _ now _ _ _ []); [done..|by rewrite app_nil_r].
Qed.

Lemma reader_run_inv t ops :
  trace_inv t -> Forall op_ok ops -> trace_inv (foldl reader_step t ops).
Proof.
  intros Hi Hops. revert t Hi. induction Hops as [|op ops Hop Hops IH]; intros t Hi; simpl; [done|].
  by apply IH, reader_step_inv.
Qed.

(** A reader that has received nothing yet. *)
Definition fresh (r : ReaderImpl) : Prop := r_queue r = [] /\ r_rx r = [].

Lemma fresh_inv r : fresh r -> trace_inv (mkTrace r [] []).
Proof.
  intros [Hq Hrx]. split; simpl.
  - rewrite Hrx. done.
  - intros w s Hin. by apply not_elem_of_nil in Hin.
  - constructor.
  - unfold queue_ids. by rewrite Hq.
Qed.

(** ** The bound on the queue *)

Lemma reader_step_qos t op : r_qos (tr_reader (reader_step t op)) = r_qos (tr_reader t).
Proof.
  destruct op as [now1 now2 w seq data wq pub|w start stop|now|now]; simpl.
  - unfold enqueue. by repeat (case_match; simplify_eq/=).
  - unfold apply_gap. by repeat (case_match; simplify_eq/=).
  - unfold reader_take. by repeat (case_match; simplify_eq/=).
  - done.
Qed.

Lemma length_sweep now q : len (sweep_expired_locked now q) <= len q.
Proof. pose proof (length_filter (fun s => sample_expired now s = false) q). unfold sweep_expired_locked. lia. Qed.

Definition queue_bounded (r : ReaderImpl) : Prop :=
  history (r_qos r) = KEEP_LAST -> len (r_queue r) <= Z.max (depth (r_qos r)) 1.

Lemma reader_step_bounded t op :
  queue_bounded (tr_reader t) -> queue_bounded (tr_reader (reader_step t op)).
Proof.
  unfold queue_bounded. rewrite reader_step_qos. intros Hb Hh. specialize (Hb Hh).
  destruct op as [now1 now2 w seq data wq pub|w start stop|now|now]; simpl.
  - unfold enqueue. set (o := rx_receive _ _ _). destruct (ro_new o); simpl; [|done].
    destruct (lifespan_expired _ _ _); simpl; [done|].
    etrans; [apply length_sweep|]. rewrite bool_decide_true, length_trim_front by (done || lia). lia.
  - unfold apply_gap. by repeat (case_match; simplify_eq/=).
  - unfold reader_take. pose proof (length_sweep now (r_queue (tr_reader t))) as Hl.
    destruct (sweep_expired_locked _ _) as [|s q]; simpl in *; lia.
  - etrans; [apply length_sweep|done].
Qed.

(** ** Arrivals from one writer, in any order within the window *)

Record Arrival := mkArrival {
  ar_now1 : Z;
  ar_now2 : Z;
  ar_seq : Z;
  ar_data : list Z;
  ar_pub : Z;
}.

Definition arrival_op (w : Guid) (wq : QosProfile) (a : Arrival) : ReaderOp :=
  OpEnqueue (ar_now1 a) (ar_now2 a) w (ar_seq a) (ar_data a) wq (ar_pub a).

(** Each arrival comes at most 63 numbers ahead of the first one still missing. *)
Definition window_reordered (l : list Z) : Prop :=
  forall l1 s l2, l = l1 ++ s :: l2 ->
  1 <= s < 2 ^ 64 /\ forall k, 1 <= k <= s - 64 -> k ∈ l1.

Lemma window_reordered_init l s : window_reordered (l ++ [s]) -> window_reordered l.
Proof. intros H l1 s' l2 ->. eapply H. by rewrite <- app_assoc. Qed.

(** The state of a writer all of whose arrivals were tracked. *)
Record tracks (st : WriterRxState) (l : list Z) : Prop := {
  tk_ok : rx_ok st;
  tk_canonical : canonical st;
  tk_seen s : seen st s <-> s <= 0 \/ s ∈ l;
}.

Lemma canonical_first st : canonical st -> ~ seen st (last_seq st + 1).
Proof.
  unfold canonical, seen. replace (last_seq st + 1 - last_seq st - 1) with 0 by lia.
  intros ->. intros [?|?]; [lia|done].
Qed.

Lemma tracks_init : tracks rx_init [].
Proof.
  split; [apply rx_init_ok|done|]. intros s. unfold seen. simpl. rewrite Z.bits_0.
  split; [intros [?|?]; [by left|done]|intros [?|H]; [by left|by apply not_elem_of_nil in H]].
Qed.

Lemma tracks_step both st l s :
  tracks st l -> window_reordered (l ++ [s]) ->
  ~ jumps st s /\ tracks (ro_state (rx_receive both st s)) (l ++ [s]) /\
  ro_lost (rx_receive both st s) = 0 /\
  ro_new (rx_receive both st s) = bool_decide (s ∉ l).
Proof.
  intros [Hok Hcan Hs] Hw. destruct (Hw l s []) as [Hr Hk]; [done|].
  assert (Hf : fits 64 s) by ulia.
  pose proof (canonical_first _ Hcan) as Hfirst. rewrite Hs in Hfirst.
  assert (Hj : ~ jumps st s).
  { unfold jumps. intros Hj. apply Hfirst. right. apply Hk.
    destruct (decide (last_seq st + 1 <= 0)); [tauto|lia]. }
  destruct (rx_receive_tracked both st s Hok Hf Hj) as (Hok' & Hl & Hc & Hs').
  split_and!; [done| |done|].
  - split; [done|by apply Hc|]. intros k.
    rewrite Hs', Hs, elem_of_app, list_elem_of_singleton. tauto.
  - rewrite rx_receive_new by done. apply bool_decide_ext. rewrite Hs.
    split; [tauto|]. intros H [?|?]; [lia|done].
Qed.

(** A sequence of arrivals, and the reader after it. *)
Section arrivals.
Context (r : ReaderImpl) (w : Guid) (wq : QosProfile).
Context (Hr : map_find w (r_rx r) = None) (Hlost : fits 64 (r_lost_count r)).
Context (Hlife : lifespan_ms wq = 0).

Lemma arrivals_tracked arrivals :
  window_reordered (ar_seq <$> arrivals) ->
  let t := reader_run r (arrival_op w wq <$> arrivals) in
  exists st,
    default rx_init (map_find w (r_rx (tr_reader t))) = st /\
    (arrivals <> [] -> map_find w (r_rx (tr_reader t)) = Some st) /\
    tracks st (ar_seq <$> arrivals) /\
    r_lost_count (tr_reader t) = r_lost_count r /\
    NoDup (tr_accepted t) /\
    forall p, p ∈ tr_accepted t <-> p.1 = w /\ p.2 ∈ ar_seq <$> arrivals.
Proof.
  induction arrivals as [|a arrivals IH] using rev_ind; intros Hw; cbv zeta.
  { exists rx_init. unfold reader_run. cbn [fmap list_fmap foldl tr_reader tr_accepted].
    rewrite Hr. split_and!; [done..|apply tracks_init|done|constructor|].
    intros p. split; [intros H|intros [_ H]]; by apply not_elem_of_nil in H. }
  rewrite fmap_app in Hw. rewrite fmap_app. destruct IH as (st & Hst & _ & Htr & Hl & Hnd & Hacc).
  { by eapply window_reordered_init. }
  rewrite fmap_app. unfold reader_run. rewrite foldl_app.
  fold (reader_run r (arrival_op w wq <$> arrivals)).
  set (t := reader_run r _) in *. destruct t as [r' acc tk].
  cbn [fmap list_fmap foldl tr_reader tr_accepted] in *.
  unfold arrival_op, reader_step, enqueue. cbn [tr_reader tr_accepted]. rewrite Hst.
  set (both := bool_decide _ && bool_decide _).
  destruct (tracks_step both st _ (ar_seq a) Htr Hw) as (_ & Htr' & Hlost0 & Hnew).
  set (o := rx_receive both st (ar_seq a)) in *. exists (ro_state o).
  assert (Hle : lifespan_expired (lifespan_ms wq) (ar_pub a) (ar_now1 a) = false).
  { unfold lifespan_expired. by rewrite Hlife. }
  rewrite Hle, Hlost0, Z.add_0_r, Hl, wrap_id by done.
  rewrite Hnew. destruct (bool_decide_reflect (ar_seq a ∉ ar_seq <$> arrivals)) as [Hn|Hn]; simpl.
  - rewrite map_find_set_eq. split_and!; [done..| |].
    + apply NoDup_app. split_and!; [done| |apply NoDup_singleton].
      intros p Hp. rewrite list_elem_of_singleton. intros ->. apply Hacc in Hp. by destruct Hp.
    + intros p. rewrite !elem_of_app, !list_elem_of_singleton, Hacc. destruct p; simpl.
      split; [intros [[]|[= -> ->]]; auto|intros [-> [?| ->]]; auto].
  - rewrite map_find_set_eq. apply dec_stable in Hn.
    destruct (ro_gap o) as [[[]]|]; simpl; (split_and!; [done..|]);
      (intros p; rewrite Hacc, elem_of_app, list_elem_of_singleton;
       split; [intros []; auto|intros [-> [?| ->]]; auto]).
Qed.
End arrivals.

(** A canonical state that has seen exactly the numbers up to [n]. *)
Lemma tracks_complete st l n :
  tracks st l -> 0 <= n -> (forall s, s ∈ l <-> 1 <= s <= n) -> st = mkRx n 0.
Proof.
  intros [Hok Hcan Hs] Hn Hl. pose proof (canonical_first _ Hcan) as Hf.
  rewrite Hs, Hl in Hf. assert (Hlast : seen st (last_seq st)) by (by left).
  rewrite Hs, Hl in Hlast. assert (E : last_seq st = n) by (destruct Hok as [[? _] _ _]; lia).
  destruct st as [ls w]; simpl in *. subst ls. f_equal.
  apply Z.bits_inj_0. intros i. destruct (Z.testbit w i) eqn:Hb; [|done]. exfalso.
  pose proof (testbit_true_range 64 w i (rx_ok_window _ Hok) Hb).
  assert (Hseen : seen (mkRx n w) (n + 1 + i)).
  { right. simpl. by replace (n + 1 + i - n - 1) with i by lia. }
  rewrite Hs, Hl in Hseen. lia.
Qed.

(** ** Concrete readers for the witnesses *)

Definition test_qos (rel : Reliability) (hist : History) (d : Z) : QosProfile :=
  mkQos rel VOLATILE hist AUTOMATIC d 0 0 0.
Definition test_guid (b : Z) : Guid := mkGuid (repeat b 16).
Definition test_reader (hist : History) (d : Z) : ReaderImpl :=
  new_reader (test_guid 9) [116] [105] (test_qos RELIABLE hist d) false 0.
Definition test_arrival (seq : Z) : Arrival := mkArrival 5 5 seq [seq] 1.
Definition test_run (hist : History) (d : Z) (seqs : list Z) : ReaderTrace :=
  reader_run (test_reader hist d)
    (arrival_op (test_guid 1) (test_qos RELIABLE KEEP_ALL 0) <$> (test_arrival <$> seqs)).

Lemma test_reordered : window_reordered (ar_seq <$> (test_arrival <$> [2; 1; 3; 2])).
Proof.
  intros l1 s l2 E.
  assert (Hs : s ∈ [2; 1; 3; 2]) by (change [2; 1; 3; 2] with (ar_seq <$> (test_arrival <$> [2; 1; 3; 2]));
    rewrite E; apply elem_of_app; right; left).
  assert (H : Forall (fun s => 1 <= s <= 3) [2; 1; 3; 2]) by (repeat constructor; lia).
  rewrite Forall_forall in H. specialize (H s Hs). split; [ulia|]. lia.
Qed.

Module ReaderSpec.

(** C13. At most once, in order: whatever samples, gaps, takes and sweeps a new
    reader goes through (any interleaving of writers, any retransmission, any
    lifespan, any clock), no (writer, sequence number) is ever queued twice, and
    what the application has taken, followed by what is still queued, is a
    subsequence of the samples accepted. *)
Theorem at_most_once (r : ReaderImpl) (ops : list ReaderOp) :
  fresh r -> Forall op_ok ops ->
  let t := reader_run r ops in
  NoDup (tr_accepted t) /\
  sublist (tr_taken t ++ queue_ids (tr_reader t)) (tr_accepted t) /\
  NoDup (tr_taken t).
Proof.
  intros Hf Hops t. destruct (reader_run_inv _ ops (fresh_inv r Hf) Hops) as [_ _ Hnd Hsub].
  fold t in Hnd, Hsub. split_and!; [done..|].
  eapply (sublist_NoDup _ _ Hnd). etrans; [|exact Hsub]. by apply sublist_inserts_r.
Qed.

Lemma at_most_once_witness :
  let t := reader_run (test_reader KEEP_ALL 0)
    [arrival_op (test_guid 1) (test_qos RELIABLE KEEP_ALL 0) (test_arrival 1);
     OpTake 5; arrival_op (test_guid 1) (test_qos RELIABLE KEEP_ALL 0) (test_arrival 1);
     OpGap (test_guid 1) 2 4] in
  NoDup (tr_accepted t) /\
  sublist (tr_taken t ++ queue_ids (tr_reader t)) (tr_accepted t) /\
  NoDup (tr_taken t).
Proof.
  apply at_most_once; [by split|]. repeat constructor; simpl; ulia.
Defined.

(** C18. Reordering and duplication heal without loss: if the samples 1..n of one
    writer arrive in any order and any number of times, none more than 63 ahead of
    the first missing one, then each is accepted exactly once, the window closes
    (baseline n, no bit set) and nothing is counted lost. *)
Theorem reordering_heals (r : ReaderImpl) (w : Guid) (wq : QosProfile) (arrivals : list Arrival)
    (n : Z) :
  map_find w (r_rx r) = None -> fits 64 (r_lost_count r) -> lifespan_ms wq = 0 ->
  0 < n -> window_reordered (ar_seq <$> arrivals) ->
  (forall s, s ∈ (ar_seq <$> arrivals) <-> 1 <= s <= n) ->
  let t := reader_run r (arrival_op w wq <$> arrivals) in
  map_find w (r_rx (tr_reader t)) = Some (mkRx n 0) /\
  messages_lost (tr_reader t) = messages_lost r /\
  tr_accepted t ≡ₚ (fun s => (w, s)) <$> seqZ 1 n.
Proof.
  intros Hr Hlost Hlife Hn Hw Hall t.
  destruct (arrivals_tracked r w wq Hr Hlost Hlife arrivals Hw)
    as (st & _ & Hst & Htr & Hl & Hnd & Hacc). fold t in Hst, Hl, Hnd, Hacc.
  rewrite (tracks_complete st _ n Htr) in Hst by (done || lia). split_and!.
  - apply Hst. intros ->. by apply (not_elem_of_nil (A := Z) 1), Hall; lia.
  - done.
  - apply NoDup_Permutation; [done| |].
    + apply NoDup_fmap_2; [by intros ?? [= ->]|apply NoDup_seqZ].
    + intros [w' s]. rewrite Hacc. simpl. rewrite Hall, list_elem_of_fmap. split.
      * intros [-> Hs]. exists s. split; [done|]. apply elem_of_seqZ. lia.
      * intros (s' & [= -> ->] & Hs%elem_of_seqZ). split; [done|lia].
Qed.

Lemma reordering_heals_witness :
  let t := test_run KEEP_ALL 0 [2; 1; 3; 2] in
  map_find (test_guid 1) (r_rx (tr_reader t)) = Some (mkRx 3 0) /\
  messages_lost (tr_reader t) = messages_lost (test_reader KEEP_ALL 0) /\
  tr_accepted t ≡ₚ (fun s => (test_guid 1, s)) <$> seqZ 1 3.
Proof.
  apply reordering_heals; [done|simpl; ulia|done|lia|exact test_reordered|].
  intros s. change (ar_seq <$> (test_arrival <$> [2; 1; 3; 2])) with [2; 1; 3; 2].
  rewrite !elem_of_cons. split; [|lia].
  intros [?|[?|[?|[?|H]]]]; [lia..|by apply not_elem_of_nil in H].
Defined.

(** The ACKNACK names exactly what is missing: after any arrivals that stay
    within the window, [nack_state] returns the first number never received as base,
    and bit i of the bitmap is set exactly when base + i was received (so the bits
    the writer reads as requests are the numbers missing below the highest one). *)
Theorem nack_state_exact (r : ReaderImpl) (w : Guid) (wq : QosProfile) (arrivals : list Arrival) :
  map_find w (r_rx r) = None -> fits 64 (r_lost_count r) -> lifespan_ms wq = 0 ->
  arrivals <> [] -> window_reordered (ar_seq <$> arrivals) ->
  (forall s, s ∈ ar_seq <$> arrivals -> s < 2 ^ 64 - 1) ->
  let (base, bitmap) := nack_state (tr_reader (reader_run r (arrival_op w wq <$> arrivals))) w in
  (base ∉ ar_seq <$> arrivals) /\
  (forall s, 1 <= s < base -> s ∈ ar_seq <$> arrivals) /\
  forall i, 0 <= i -> (Z.testbit bitmap i = true <-> base + i ∈ ar_seq <$> arrivals).
Proof.
  intros Hr Hlost Hlife Hne Hw Hmax. unfold nack_state.
  destruct (arrivals_tracked r w wq Hr Hlost Hlife arrivals Hw)
    as (st & _ & Hst & [Hok Hcan Hs] & _). rewrite (Hst Hne).
  assert (Hlast : last_seq st + 1 < 2 ^ 64).
  { assert (H : seen st (last_seq st)) by (by left). rewrite Hs in H.
    destruct H as [?|?%Hmax]; lia. }
  pose proof (rx_ok_last _ Hok) as Hfit.
  rewrite wrap_id by ulia. split_and!.
  - pose proof (canonical_first _ Hcan) as H. rewrite Hs in H. tauto.
  - intros s Hrange. assert (H : seen st s) by (left; lia). rewrite Hs in H.
    destruct H; [lia|done].
  - intros i Hi. assert (H : seen st (last_seq st + 1 + i) <-> Z.testbit (window st) i = true).
    { unfold seen. replace (last_seq st + 1 + i - last_seq st - 1) with i by lia.
      split; [intros [?|?]; [lia|done]|by right]. }
    rewrite <- H, Hs. split; [intros [?|?]; [ulia|done]|by right].
Qed.

Lemma nack_state_exact_witness :
  let (base, bitmap) := nack_state (tr_reader (test_run KEEP_ALL 0 [2; 1; 3; 2])) (test_guid 1) in
  (base ∉ ar_seq <$> (test_arrival <$> [2; 1; 3; 2])) /\
  (forall s, 1 <= s < base -> s ∈ ar_seq <$> (test_arrival <$> [2; 1; 3; 2])) /\
  forall i, 0 <= i ->
    (Z.testbit bitmap i = true <-> base + i ∈ ar_seq <$> (test_arrival <$> [2; 1; 3; 2])).
Proof.
  apply nack_state_exact; [done|simpl; ulia|done|done|exact test_reordered|].
  intros s Hs. destruct (list_elem_of_split _ _ Hs) as (l1 & l2 & E).
  assert (H : Forall (fun s => s < 2 ^ 64 - 1) [2; 1; 3; 2]) by (repeat constructor).
  rewrite Forall_forall in H. apply H, Hs.
Defined.

(** A GAP is accounted exactly: for a writer already known, [apply_gap] adds to
    the loss count the number of sequence numbers up to the end of the gap that were
    never received, moves the baseline there and forgets nothing received beyond. *)
Theorem apply_gap_exact (r : ReaderImpl) (w : Guid) (start stop : Z) (st : WriterRxState) :
  map_find w (r_rx r) = Some st -> rx_ok st -> fits 64 stop -> last_seq st < stop ->
  let r' := apply_gap r w start stop in
  messages_lost r' = u64 (messages_lost r + len (missing st stop)) /\
  r_queue r' = r_queue r /\
  exists st', map_find w (r_rx r') = Some st' /\ rx_ok st' /\
    forall s, seen st' s <-> s <= stop \/ seen st s.
Proof.
  intros Hf Hok Hstop Hlt r'.
  destruct (apply_gap_known r w start stop st Hf Hok Hstop Hlt) as (st' & E & Hok' & _ & Hs).
  subst r'. rewrite E. split_and!; [done..|]. exists st'. split_and!; [|done..].
  apply map_find_set_eq.
Qed.

Lemma apply_gap_exact_witness :
  let r := tr_reader (test_run KEEP_ALL 0 [1; 3]) in
  let r' := apply_gap r (test_guid 1) 2 4 in
  messages_lost r' = u64 (messages_lost r + len (missing (mkRx 1 2) 4)) /\
  r_queue r' = r_queue r /\
  exists st', map_find (test_guid 1) (r_rx r') = Some st' /\ rx_ok st' /\
    forall s, seen st' s <-> s <= 4 \/ seen (mkRx 1 2) s.
Proof.
  apply apply_gap_exact; [by vm_compute| |ulia|done].
  split; simpl; [ulia..|]. intros i Hi.
  pose proof (testbit_true_range 64 2 i ltac:(ulia) Hi). lia.
Defined.

(** A KEEP_LAST reader never holds more than its depth (one, if the depth is
    zero), whatever it goes through, and a sample it hands over has not expired. *)
Theorem keep_last_bounded (r : ReaderImpl) (ops : list ReaderOp) (now : Z) :
  fresh r -> history (r_qos r) = KEEP_LAST ->
  let r' := tr_reader (reader_run r ops) in
  len (r_queue r') <= Z.max (depth (r_qos r)) 1 /\
  match snd (reader_take r' now) with
  | None => Forall (fun s => sample_expired now s = true) (r_queue r')
  | Some (data, info) => exists s, s ∈ r_queue r' /\ sample_expired now s = false /\
      (qs_data s, qs_info s) = (data, info)
  end.
Proof.
  intros [Hq _] Hh r'. split.
  - assert (H : queue_bounded r' /\ r_qos r' = r_qos r).
    { subst r'. unfold reader_run. assert (H0 : queue_bounded r) by (intros _; rewrite Hq; simpl; lia).
      change r with (tr_reader (mkTrace r [] [])) in H0 |- * at 3. revert H0.
      generalize (mkTrace r [] []). induction ops as [|op ops IH]; intros t Ht; simpl; [done|].
      destruct (IH (reader_step t op)) as [? ->]; [by apply reader_step_bounded|].
      split; [done|apply reader_step_qos]. }
    destruct H as [Hb E]. rewrite <- E in *. by apply Hb.
  - unfold reader_take. destruct (sweep_expired_locked now (r_queue r')) as [|s q] eqn:E; simpl.
    + apply Forall_forall. intros s Hs. destruct (sample_expired now s) eqn:Hx; [done|]. exfalso.
      apply (not_elem_of_nil s). rewrite <- E. by apply list_elem_of_filter.
    + exists s. assert (Hs : s ∈ sweep_expired_locked now (r_queue r')) by (rewrite E; left).
      by apply list_elem_of_filter in Hs as [? ?].
Qed.

Lemma keep_last_bounded_witness :
  let r' := tr_reader (test_run KEEP_LAST 2 [1; 2; 3]) in
  len (r_queue r') <= Z.max (depth (r_qos (test_reader KEEP_LAST 2))) 1 /\
  match snd (reader_take r' 7) with
  | None => Forall (fun s => sample_expired 7 s = true) (r_queue r')
  | Some (data, info) => exists s, s ∈ r_queue r' /\ sample_expired 7 s = false /\
      (qs_data s, qs_info s) = (data, info)
  end.
Proof. apply keep_last_bounded; [by split|reflexivity]. Defined.

(** Window stall: when a GAP ends just before a number already received, the
    baseline is not advanced over it.  All of 1..67 but number 2 arrive, in order,
    each at most one past what came before, yet after the GAP for 2 the baseline
    stays at 2 and the arrival of 67 counts 64 received samples as lost. *)
Theorem window_stalls_after_gap :
  let t := reader_run (test_reader KEEP_ALL 0)
    ((arrival_op (test_guid 1) (test_qos RELIABLE KEEP_ALL 0) <$> (test_arrival <$> [1; 3])) ++
     [OpGap (test_guid 1) 2 2] ++
     (arrival_op (test_guid 1) (test_qos RELIABLE KEEP_ALL 0) <$> (test_arrival <$> seqZ 4 64))) in
  tr_accepted t = (fun s => (test_guid 1, s)) <$> ([1; 3] ++ seqZ 4 64) /\
  messages_lost (tr_reader t) = 65.
Proof. split; vm_compute; reflexivity. Qed.

(** A jump of more than 64 counts the whole distance as lost, including numbers
    received in the window: 2 and then 100 arrive, 98 numbers below 100 never did,
    99 are counted. *)
Theorem jump_counts_received :
  let t := test_run KEEP_ALL 0 [2; 100] in
  tr_accepted t = [(test_guid 1, 2); (test_guid 1, 100)] /\
  len (missing (mkRx 0 2) 99) = 98 /\
  messages_lost (tr_reader t) = 99.
Proof. split_and!; vm_compute; reflexivity. Qed.

End ReaderSpec.
