(* ===== verification/WriterImpl.v ===== *)
(** * Writers (class [WriterImpl] of src/participant.cpp)

    The sequence counter and the history kept for retransmission and for late
    joiners, and the part of [handle_acknack] that reads it. *)

From S2P Require Import Prelude Memory StdMap Guid Qos ReaderImpl.

Definition kKeepAllCap : Z := 256.

Record CachedSample := mkCached {
  cs_seq : Z;
  cs_pub_time_ms : Z;
  cs_pub_time_us : Z;
  cs_data : list Z;
}.

Record WriterImpl := mkWriter {
  w_guid : Guid;
  w_topic : list Z;
  w_type : list Z;
  w_qos : QosProfile;
  w_seq : Z;
  w_matched_count : Z;
  w_birth_us : Z;
  w_history : list CachedSample;
}.

(** A writer as [create_writer] makes it. *)
Definition new_writer (g : Guid) (topic type : list Z) (q : QosProfile) (birth_us : Z) : WriterImpl :=
  mkWriter g topic type q 0 0 birth_us [].

Definition set_history (h : list CachedSample) (w : WriterImpl) : WriterImpl :=
  mkWriter (w_guid w) (w_topic w) (w_type w) (w_qos w) (w_seq w) (w_matched_count w) (w_birth_us w) h.

Definition set_seq (seq : Z) (w : WriterImpl) : WriterImpl :=
  mkWriter (w_guid w) (w_topic w) (w_type w) (w_qos w) seq (w_matched_count w) (w_birth_us w) (w_history w).

Definition set_writer_matched (n : Z) (w : WriterImpl) : WriterImpl :=
  mkWriter (w_guid w) (w_topic w) (w_type w) (w_qos w) (w_seq w) n (w_birth_us w) (w_history w).

(** Whether samples are cached at all, and how many. *)
Definition caches (q : QosProfile) : bool :=
  bool_decide (reliability q = RELIABLE) || bool_decide (durability q = TRANSIENT_LOCAL).
Definition history_cap (q : QosProfile) : Z :=
  if bool_decide (history q = KEEP_ALL) then kKeepAllCap else Z.max (depth q) 1.

(** The loop that pops expired samples off the front. *)
Fixpoint pop_expired (lifespan now : Z) (h : list CachedSample) : list CachedSample :=
  match h with
  | [] => []
  | e :: h' => if lifespan_expired lifespan (cs_pub_time_ms e) now then pop_expired lifespan now h' else h
  end.

Definition cache_sample (w : WriterImpl) (seq pub_time_ms pub_time_us : Z) (data : list Z) (now : Z)
    : WriterImpl * bool :=
  if negb (caches (w_qos w)) then (w, true)
  else
    let cap := history_cap (w_qos w) in
    if bool_decide (history (w_qos w) = KEEP_ALL) && (cap <=? len (w_history w)) then (w, false)
    else
      let h := w_history w ++ [mkCached seq pub_time_ms pub_time_us data] in
      let h := trim_front cap h in
      (set_history (pop_expired (lifespan_ms (w_qos w)) now h) w, true).

(** The first part of [write_sample]: claim the next number, unless the history
    rejects the sample. *)
Definition claim_seq (w : WriterImpl) (pub_time_us : Z) (data : list Z) (now : Z)
    : WriterImpl * option Z :=
  let seq := u64 (w_seq w + 1) in
  match cache_sample w seq (pub_time_us / 1000) pub_time_us data now with
  | (w', false) => (w', None)
  | (w', true) => (set_seq seq w', Some seq)
  end.

(** ** Answering an ACKNACK *)

(** One turn of the loop over the 64 requested numbers: [resend] and
    [unavail_end] are its variables. *)
Definition acknack_turn (w : WriterImpl) (clamp : bool) (birth_us base bitmap : Z)
    (acc : list CachedSample * Z) (i : Z) : list CachedSample * Z :=
  let '(resend, unavail_end) := acc in
  let first_avail := match w_history w with [] => 0 | e :: _ => cs_seq e end in
  let seq := u64 (base + i) in
  if negb (Z.land bitmap (Z.shiftl 1 i) =? 0) then (resend, unavail_end)
  else
    match find (fun e => cs_seq e =? seq) (w_history w) with
    | Some e =>
        if clamp && (cs_pub_time_us e <? birth_us) then (resend, seq)
        else (resend ++ [e], unavail_end)
    | None =>
        if (0 <? first_avail) && (seq <? first_avail) then (resend, seq)
        else (resend, unavail_end)
    end.

Definition acknack_scan (w : WriterImpl) (clamp : bool) (birth_us base bitmap : Z)
    : list CachedSample * Z :=
  foldl (acknack_turn w clamp birth_us base bitmap) ([], 0) (seqZ 0 64).

(** Whatever is requested, only samples of the history are resent. *)
Lemma acknack_scan_within w clamp birth base bitmap :
  Forall (fun e => e ∈ w_history w) (fst (acknack_scan w clamp birth base bitmap)) /\
  fits 64 (snd (acknack_scan w clamp birth base bitmap)).
Proof.
  unfold acknack_scan. assert (H0 : Forall (fun e => e ∈ w_history w) (fst ([], 0)) /\
    fits 64 (snd (@nil CachedSample, 0))) by (split; [constructor|simpl; ulia]).
  revert H0. generalize (@nil CachedSample, 0). induction (seqZ 0 64) as [|i l IH]; intros acc Hacc; [done|].
  cbn [foldl]. apply IH. destruct acc as [resend u]. destruct Hacc as [Hr Hu].
  unfold acknack_turn. case_if; [done|]. destruct (find _ _) as [e|] eqn:Ef.
  - apply find_some in Ef as [He _]. apply list_elem_of_In in He.
    case_if; (split; [|first [done|by apply wrap_fits]]); [done|].
    apply Forall_app. split; [done|by constructor].
  - case_if; (split; [done|]); [by apply wrap_fits|done].
Qed.

(** ** The history invariant *)

(** The history holds the last published numbers, without a hole, and never more
    than its cap. *)
Record history_ok (w : WriterImpl) : Prop := {
  ho_seq : fits 64 (w_seq w);
  ho_contiguous : cs_seq <$> w_history w = seqZ (w_seq w - len (w_history w) + 1) (len (w_history w));
  ho_positive : len (w_history w) <= w_seq w;
  ho_cap : len (w_history w) <= history_cap (w_qos w);
  ho_caches : caches (w_qos w) = false -> w_history w = [];
}.

Lemma history_cap_pos q : 1 <= history_cap q.
Proof. unfold history_cap, kKeepAllCap. case_if; lia. Qed.

Lemma new_writer_ok g topic type q birth : history_ok (new_writer g topic type q birth).
Proof.
  pose proof (history_cap_pos q). split; simpl; try done; try ulia.
Qed.

Lemma pop_expired_suffix l now h : pop_expired l now h `suffix_of` h.
Proof.
  induction h as [|e h IH]; simpl; [done|]. case_if; [|done]. by apply suffix_cons_r.
Qed.

(** A suffix of consecutive numbers is the consecutive numbers up to the same end. *)
Lemma suffix_seqZ (l : list CachedSample) h stop :
  h `suffix_of` l -> cs_seq <$> l = seqZ (stop - len l + 1) (len l) ->
  cs_seq <$> h = seqZ (stop - len h + 1) (len h).
Proof.
  intros [k ->]. rewrite fmap_app, length_app, Nat2Z.inj_add, seqZ_app by lia.
  intros E. apply app_inj_1 in E as [_ E]; [|rewrite length_fmap, length_seqZ; lia].
  rewrite E. f_equal; lia.
Qed.

Lemma suffix_len {A} (h l : list A) : h `suffix_of` l -> len h <= len l.
Proof. intros H%suffix_length. lia. Qed.

(** Caching a sample: the new history. *)
Definition cached_history (w : WriterImpl) (e : CachedSample) (now : Z) : list CachedSample :=
  pop_expired (lifespan_ms (w_qos w)) now (trim_front (history_cap (w_qos w)) (w_history w ++ [e])).

Lemma cached_history_suffix w e now : cached_history w e now `suffix_of` w_history w ++ [e].
Proof. etrans; [apply pop_expired_suffix|apply trim_front_suffix]. Qed.

Lemma cached_history_cap w e now : len (cached_history w e now) <= history_cap (w_qos w).
Proof.
  pose proof (history_cap_pos (w_qos w)).
  etrans; [apply suffix_len, pop_expired_suffix|]. rewrite length_trim_front; lia.
Qed.

(** The sweep pops a run of expired samples and stops at one that is not. *)
Lemma pop_expired_split l now h :
  exists gone, h = gone ++ pop_expired l now h /\
    Forall (fun x => lifespan_expired l (cs_pub_time_ms x) now = true) gone /\
    (forall x, head (pop_expired l now h) = Some x -> lifespan_expired l (cs_pub_time_ms x) now = false) /\
    (l = 0 -> gone = []).
Proof.
  induction h as [|e h (gone & E & Hg & Hk & Hz)]; simpl; [by exists []|]. destruct (lifespan_expired _ _ _) eqn:Ee.
  - exists (e :: gone). split; [by rewrite E at 1|]. split; [by constructor|]. split; [done|]. intros ->. by unfold lifespan_expired in Ee.
  - exists []. split_and!; [done|done| |done]. by intros x [= <-].
Qed.

(** Every case of [claim_seq]. *)
Lemma claim_seq_cases w pub data now :
  fits 64 (w_seq w) -> w_seq w + 1 < 2 ^ 64 ->
  let seq := w_seq w + 1 in
  let e := mkCached seq (pub / 1000) pub data in
  claim_seq w pub data now =
  if negb (caches (w_qos w)) then (set_seq seq w, Some seq)
  else if bool_decide (history (w_qos w) = KEEP_ALL) && (kKeepAllCap <=? len (w_history w))
  then (w, None)
  else (set_seq seq (set_history (cached_history w e now) w), Some seq).
Proof.
  intros Hf Hlt. cbv zeta. unfold claim_seq, cache_sample, history_cap.
  rewrite wrap_id by ulia. destruct (caches (w_qos w)); [|done]. simpl.
  unfold cached_history, history_cap. case_bool_decide; simpl; [|done]. by case_if.
Qed.

Lemma claim_seq_ok w pub data now :
  history_ok w -> w_seq w + 1 < 2 ^ 64 -> history_ok (fst (claim_seq w pub data now)).
Proof.
  intros Hok Hlt. rewrite claim_seq_cases by (done || apply Hok).
  pose proof Hok as [Hs Hc Hp Hcap Hn]. destruct (caches (w_qos w)) eqn:Ec; simpl.
  2:{ pose proof (Hn eq_refl) as E. rewrite E in Hp, Hcap. split; simpl in *; rewrite ?E; simpl; try done; ulia. }
  case_if; simpl; [done|].
  set (e := mkCached _ _ _ _). pose proof (cached_history_suffix w e now) as Hsuf.
  pose proof (suffix_len _ _ Hsuf) as Hl. rewrite length_app in Hl. simpl in Hl.
  split; simpl; [ulia| |lia|apply cached_history_cap|congruence].
  eapply suffix_seqZ; [exact Hsuf|]. rewrite fmap_app, Hc, length_app. simpl.
  rewrite Nat2Z.inj_add, seqZ_app by lia. f_equal.
  - f_equal; lia.
  - replace (Z.of_nat 1) with 1 by done. rewrite seqZ_cons by lia. rewrite seqZ_nil by lia.
    f_equal; lia.
Qed.

(** ** What the scan computes *)

Section acknack.
Context (w : WriterImpl) (clamp : bool) (birth_us base bitmap : Z).

Definition first_avail : Z := match w_history w with [] => 0 | e :: _ => cs_seq e end.
Definition cached (seq : Z) : option CachedSample :=
  find (fun e => cs_seq e =? seq) (w_history w).
(** The reader may have this sample: it is not volatile, or was born before. *)
Definition entitled (e : CachedSample) : bool := negb (clamp && (cs_pub_time_us e <? birth_us)).
Definition requested (seq : Z) : bool := negb (Z.testbit bitmap (seq - base)).
Definition resendable (seq : Z) : bool :=
  requested seq && match cached seq with Some e => entitled e | None => false end.
Definition unavailable (seq : Z) : bool :=
  requested seq && match cached seq with
                   | Some e => negb (entitled e)
                   | None => (0 <? first_avail) && (seq <? first_avail)
                   end.

Context (Hbase : 0 <= base) (Hwrap : base + 64 <= 2 ^ 64).

Lemma acknack_turn_eq resend u i :
  0 <= i < 64 ->
  acknack_turn w clamp birth_us base bitmap (resend, u) i =
  (resend ++ (if resendable (base + i) then option_list (cached (base + i)) else []),
   if unavailable (base + i) then base + i else u).
Proof.
  intros Hi. unfold acknack_turn, resendable, unavailable, requested, entitled, cached.
  rewrite wrap_id by ulia. rewrite land_shiftl_1 by lia.
  replace (base + i - base) with i by lia. fold first_avail.
  destruct (Z.testbit bitmap i); simpl; [by rewrite app_nil_r|].
  destruct (find _ _) as [e|]; simpl; [|case_if; by rewrite app_nil_r].
  destruct (clamp && _); simpl; by rewrite ?app_nil_r.
Qed.

Lemma acknack_scan_spec n :
  0 <= n <= 64 ->
  foldl (acknack_turn w clamp birth_us base bitmap) ([], 0) (seqZ 0 n) =
  (omap cached (filter (fun s => resendable s = true) (seqZ base n)),
   default 0 (last (filter (fun s => unavailable s = true) (seqZ base n)))).
Proof.
  intros [H0 Hn]. revert Hn. pattern n. apply natlike_ind; [done| |done].
  clear n H0. intros n H0 IH Hn. unfold Z.succ in *. rewrite !seqZ_app by lia.
  replace (seqZ (0 + n) 1) with [n] by (rewrite seqZ_cons, seqZ_nil by lia; f_equal; lia).
  replace (seqZ (base + n) 1) with [base + n] by (by rewrite seqZ_cons, seqZ_nil by lia).
  rewrite foldl_app, IH by lia. cbn [foldl]. rewrite acknack_turn_eq by lia.
  rewrite !filter_app, !filter_cons, !filter_nil, omap_app. f_equal.
  - f_equal. destruct (resendable (base + n)); [|done]. simpl.
    by destruct (cached (base + n)).
  - destruct (unavailable (base + n)); simpl; [by rewrite last_snoc|by rewrite app_nil_r].
Qed.

Lemma acknack_scan_eq :
  acknack_scan w clamp birth_us base bitmap =
  (omap cached (filter (fun s => resendable s = true) (seqZ base 64)),
   default 0 (last (filter (fun s => unavailable s = true) (seqZ base 64)))).
Proof. by apply acknack_scan_spec. Qed.

Lemma cached_Some seq e : cached seq = Some e -> e ∈ w_history w /\ cs_seq e = seq.
Proof.
  intros H%find_some. destruct H as [Hin He]. zbool. split; [|done]. by apply list_elem_of_In.
Qed.

Lemma cached_None seq : cached seq = None -> seq ∉ cs_seq <$> w_history w.
Proof.
  intros Hn (e & -> & He)%list_elem_of_fmap. apply list_elem_of_In in He.
  pose proof (find_none _ _ Hn _ He) as Hf. simpl in Hf. zbool. done.
Qed.

Lemma elem_of_resend e :
  e ∈ fst (acknack_scan w clamp birth_us base bitmap) <->
  exists seq, base <= seq < base + 64 /\ resendable seq = true /\ cached seq = Some e.
Proof.
  rewrite acknack_scan_eq. simpl. rewrite list_elem_of_omap.
  split; intros (seq & H1 & H2); exists seq.
  - apply list_elem_of_filter in H1 as [Hr Hs%elem_of_seqZ]. auto with lia.
  - split; [|apply H2]. apply list_elem_of_filter. split; [apply H2|]. by apply elem_of_seqZ.
Qed.

(** The last element of an increasing list is its greatest. *)
Lemma last_filter_max (P : Z -> bool) m n s :
  0 <= n -> s ∈ filter (fun s => P s = true) (seqZ m n) ->
  exists u, last (filter (fun s => P s = true) (seqZ m n)) = Some u /\ s <= u /\ P u = true /\
    m <= u < m + n.
Proof.
  intros Hn. revert s. pattern n. apply natlike_ind; [| |done]; clear n Hn.
  { intros s. rewrite seqZ_nil by lia. by intros ?%not_elem_of_nil. }
  intros n H0 IH s. unfold Z.succ. rewrite seqZ_app by lia.
  replace (seqZ (m + n) 1) with [m + n] by (by rewrite seqZ_cons, seqZ_nil by lia).
  rewrite filter_app, filter_cons, filter_nil. destruct (P (m + n)) eqn:HP; simpl.
  - rewrite last_snoc. intros Hs. exists (m + n). split_and!; try done; try lia.
    apply elem_of_app in Hs as [Hs|Hs%list_elem_of_singleton]; [|lia].
    apply list_elem_of_filter in Hs as [_ Hs%elem_of_seqZ]. lia.
  - rewrite app_nil_r. intros (u & Hu & ? & ? & ?)%IH. exists u. split_and!; try done; lia.
Qed.

Lemma first_avail_eq :
  history_ok w -> w_history w <> [] -> first_avail = w_seq w - len (w_history w) + 1.
Proof.
  intros [_ Hc _ _ _] Hne. unfold first_avail. destruct (w_history w) as [|e h]; [done|].
  cbn [fmap list_fmap] in Hc. rewrite seqZ_cons in Hc by (simpl; lia). by injection Hc.
Qed.

Lemma history_elem_range e :
  history_ok w -> e ∈ w_history w -> w_seq w - len (w_history w) < cs_seq e <= w_seq w.
Proof.
  intros [_ Hc _ _ _] He. apply (list_elem_of_fmap_2 cs_seq) in He. rewrite Hc in He.
  apply elem_of_seqZ in He. lia.
Qed.

(** The history holds every number from its first to the last published. *)
Lemma cached_or_evicted seq :
  history_ok w -> w_history w <> [] -> seq <= w_seq w ->
  (exists e, cached seq = Some e) \/ (cached seq = None /\ 0 < first_avail /\ seq < first_avail).
Proof.
  intros Hok Hne Hle. pose proof Hok as [Hs Hc Hp _ _]. destruct (cached seq) eqn:E; [left; by eexists|right].
  apply cached_None in E. rewrite Hc in E. rewrite elem_of_seqZ in E.
  assert (Hf : first_avail = w_seq w - len (w_history w) + 1) by (by apply first_avail_eq).
  split_and!; [done|lia|]. destruct (Z.lt_ge_cases seq first_avail); [done|]. exfalso. apply E. lia.
Qed.

(** Every number requested and already published is answered. *)
Lemma acknack_answers seq :
  history_ok w -> w_history w <> [] -> base <= seq < base + 64 -> seq <= w_seq w ->
  requested seq = true ->
  (exists e, e ∈ fst (acknack_scan w clamp birth_us base bitmap) /\ cs_seq e = seq) \/
  seq <= snd (acknack_scan w clamp birth_us base bitmap).
Proof.
  intros Hok Hne Hr Hle Hreq.
  assert (Hcase : resendable seq = true \/ unavailable seq = true).
  { unfold resendable, unavailable. rewrite Hreq. simpl.
    destruct (cached_or_evicted seq Hok Hne Hle) as [[e ->]|(-> & H1 & H2)].
    - destruct (entitled e); auto.
    - right. rewrite andb_true_iff. zbool. lia. }
  destruct Hcase as [Hc|Hc]; [left|right].
  - pose proof Hc as Hc'. unfold resendable in Hc'. apply andb_true_iff in Hc' as [_ Hc'].
    destruct (cached seq) as [e|] eqn:E; [|done]. exists e.
    split; [|by apply cached_Some in E as [_ E]]. apply elem_of_resend. exists seq. auto.
  - rewrite acknack_scan_eq. simpl.
    destruct (last_filter_max unavailable base 64 seq) as (u & -> & Hu & _); [lia| |exact Hu].
    apply list_elem_of_filter. split; [done|]. by apply elem_of_seqZ.
Qed.

Lemma unavail_end_source :
  let u := snd (acknack_scan w clamp birth_us base bitmap) in
  u = 0 \/ (base <= u < base + 64 /\ unavailable u = true).
Proof.
  cbv zeta. rewrite acknack_scan_eq. simpl.
  destruct (last (filter _ (seqZ base 64))) as [u|] eqn:E; simpl; [right|by left].
  apply last_Some in E as [l E].
  assert (Hu : u ∈ filter (fun s => unavailable s = true) (seqZ base 64)).
  { rewrite E. apply elem_of_app. right. by apply list_elem_of_singleton. }
  apply list_elem_of_filter in Hu as [Hu Hr%elem_of_seqZ]. done.
Qed.
End acknack.

Lemma fmap_NoDup_inj {A B} (f : A -> B) l x y :
  NoDup (f <$> l) -> x ∈ l -> y ∈ l -> f x = f y -> x = y.
Proof.
  intros Hnd [i Hi]%list_elem_of_lookup [j Hj]%list_elem_of_lookup E.
  assert (Hij : i = j).
  { eapply (NoDup_lookup _ i j (f x) Hnd); rewrite list_lookup_fmap, ?Hi, ?Hj; simpl; congruence. }
  subst j. congruence.
Qed.

Lemma history_seq_inj w e e' :
  history_ok w -> e ∈ w_history w -> e' ∈ w_history w -> cs_seq e = cs_seq e' -> e = e'.
Proof.
  intros Hok. apply fmap_NoDup_inj. rewrite (ho_contiguous _ Hok). apply NoDup_seqZ.
Qed.

(** ** Runs of a writer *)

(** Publishing a sequence of (publication time, data, clock reading). *)
Fixpoint writer_run (w : WriterImpl) (pubs : list (Z * list Z * Z)) : WriterImpl * list (option Z) :=
  match pubs with
  | [] => (w, [])
  | (pub, data, now) :: pubs =>
      let (w1, o) := claim_seq w pub data now in
      let (w2, os) := writer_run w1 pubs in (w2, o :: os)
  end.

Lemma claim_seq_frame w pub data now :
  w_qos (fst (claim_seq w pub data now)) = w_qos w /\
  w_guid (fst (claim_seq w pub data now)) = w_guid w.
Proof. unfold claim_seq, cache_sample. by repeat case_if. Qed.

Lemma claim_seq_number w pub data now :
  fits 64 (w_seq w) -> w_seq w + 1 < 2 ^ 64 ->
  match claim_seq w pub data now with
  | (w', Some s) => s = w_seq w + 1 /\ w_seq w' = s
  | (w', None) => w' = w
  end.
Proof. intros Hf Hlt. rewrite claim_seq_cases by done. by repeat case_if. Qed.

Lemma writer_run_ok w pubs :
  history_ok w -> w_seq w + len pubs < 2 ^ 64 ->
  let (w', os) := writer_run w pubs in
  history_ok w' /\ w_qos w' = w_qos w /\ w_seq w <= w_seq w' /\
  omap id os = seqZ (w_seq w + 1) (w_seq w' - w_seq w).
Proof.
  revert w. induction pubs as [|[[pub data] now] pubs IH]; intros w Hok Hlt; simpl.
  { split_and!; [done..|lia|]. by rewrite Z.sub_diag. }
  simpl length in Hlt. pose proof (claim_seq_ok w pub data now Hok) as Hok'.
  pose proof (claim_seq_number w pub data now (ho_seq _ Hok)) as Hn.
  destruct (claim_seq_frame w pub data now) as [Hq _].
  destruct (claim_seq w pub data now) as [w1 o]. cbn [fst] in *.
  specialize (Hok' ltac:(lia)). specialize (Hn ltac:(lia)).
  assert (Hs : w_seq w <= w_seq w1 <= w_seq w + 1).
  { destruct o; [destruct Hn; lia|subst w1; lia]. }
  specialize (IH w1 Hok' ltac:(lia)). destruct (writer_run w1 pubs) as [w2 os].
  destruct IH as (H1 & H2 & H3 & H4). split_and!; [done|congruence|lia|].
  destruct o as [s|]; [|by subst w1].
  change (omap id (Some s :: os)) with (s :: omap id os). destruct Hn as [-> Hw1]. rewrite H4, Hw1.
  rewrite (seqZ_cons (w_seq w + 1)) by lia. f_equal. f_equal; lia.
Qed.

(** A full KEEP_ALL history rejects every further sample. *)
Definition keep_all_full (w : WriterImpl) : Prop :=
  history (w_qos w) = KEEP_ALL /\ caches (w_qos w) = true /\ kKeepAllCap <= len (w_history w).

Lemma keep_all_full_claim w pub data now :
  keep_all_full w -> claim_seq w pub data now = (w, None).
Proof.
  intros (Hh & Hc & Hl). unfold claim_seq, cache_sample, history_cap.
  rewrite Hc. cbn [negb]. rewrite bool_decide_true by done.
  by rewrite (proj2 (Z.leb_le _ _)) by done.
Qed.

Definition test_writer (hist : History) (d : Z) : WriterImpl :=
  new_writer (test_guid 1) [116] [105] (test_qos RELIABLE hist d) 0.
Definition test_pubs (n : Z) : list (Z * list Z * Z) := (fun i => (1000 * i, [u8 i], i)) <$> seqZ 1 n.

Lemma test_writer_ok hist d n :
  len (test_pubs n) < 2 ^ 64 -> history_ok (fst (writer_run (test_writer hist d) (test_pubs n))).
Proof.
  intros Hn. pose proof (writer_run_ok (test_writer hist d) (test_pubs n) (new_writer_ok _ _ _ _ _) Hn) as H.
  destruct (writer_run _ _). apply H.
Qed.

(** A KEEP_ALL writer whose one sample expires after a millisecond, and one that is full. *)
Definition lifespan_qos : QosProfile :=
  mkQos RELIABLE VOLATILE KEEP_ALL AUTOMATIC 0 0 1 0.
Definition keep_all_short : WriterImpl :=
  fst (claim_seq (new_writer (test_guid 1) [116] [105] lifespan_qos 0) 5000 [1] 5).
Definition keep_all_full_writer : WriterImpl := fst (writer_run (test_writer KEEP_ALL 0) (test_pubs 256)).

Lemma keep_all_short_ok : history_ok keep_all_short.
Proof. apply claim_seq_ok; [apply new_writer_ok|simpl; lia]. Qed.
Lemma keep_all_full_writer_ok : history_ok keep_all_full_writer.
Proof. apply test_writer_ok. by vm_compute. Qed.

Module WriterSpec.

(** C19. Whatever is published, and whatever the history rejects or evicts, a new
    writer hands out the numbers 1, 2, 3, ... without a hole, and its history is
    exactly the last ones, in order, within the cap (so that its first number is
    the [first_seq] a heartbeat may announce). *)
Theorem history_is_window (g : Guid) (topic type : list Z) (q : QosProfile) (birth : Z)
    (pubs : list (Z * list Z * Z)) :
  len pubs < 2 ^ 64 ->
  let (w, os) := writer_run (new_writer g topic type q birth) pubs in
  omap id os = seqZ 1 (w_seq w) /\
  cs_seq <$> w_history w = seqZ (w_seq w - len (w_history w) + 1) (len (w_history w)) /\
  len (w_history w) <= Z.min (w_seq w) (history_cap q).
Proof.
  intros Hlt. pose proof (writer_run_ok _ pubs (new_writer_ok g topic type q birth) Hlt) as H.
  destruct (writer_run _ pubs) as [w os]. destruct H as ([_ Hc Hp Hcap _] & Hq & _ & Hos).
  simpl in Hq, Hos. rewrite Hq in Hcap. split_and!; [|done|lia].
  by rewrite Z.sub_0_r in Hos.
Qed.

Lemma history_is_window_witness :
  let (w, os) := writer_run (test_writer KEEP_LAST 2) (test_pubs 5) in
  omap id os = seqZ 1 (w_seq w) /\
  cs_seq <$> w_history w = seqZ (w_seq w - len (w_history w) + 1) (len (w_history w)) /\
  len (w_history w) <= Z.min (w_seq w) (history_cap (test_qos RELIABLE KEEP_LAST 2)).
Proof. apply history_is_window. vm_compute. reflexivity. Defined.

(** C40. KEEP_ALL back-pressure.  A KEEP_ALL writer that keeps samples accepts one as long
    as its history holds fewer than 256: the sample gets the next number and goes to the end
    of the history, and what leaves the front is expired, all of it - without a lifespan
    nothing leaves.  Once the history holds 256 samples every later one is rejected, for
    ever: no number is burnt, the writer stays as it is, and the lifespan makes no room, since
    the test precedes the sweep.  A writer that keeps no samples (best effort and volatile) accepts
    each of them. *)
Theorem keep_all_backpressure (w : WriterImpl) (pub now : Z) (data : list Z)
    (pubs : list (Z * list Z * Z)) :
  history_ok w -> history (w_qos w) = KEEP_ALL -> w_seq w + 1 < 2 ^ 64 ->
  let e := mkCached (w_seq w + 1) (pub / 1000) pub data in
  let expired x := lifespan_expired (lifespan_ms (w_qos w)) (cs_pub_time_ms x) now in
  if negb (caches (w_qos w)) then claim_seq w pub data now = (set_seq (w_seq w + 1) w, Some (w_seq w + 1))
  else if len (w_history w) <? kKeepAllCap then
    exists gone kept,
      claim_seq w pub data now = (set_seq (w_seq w + 1) (set_history kept w), Some (w_seq w + 1)) /\
      w_history w ++ [e] = gone ++ kept /\ Forall (fun x => expired x = true) gone /\
      (forall x, head kept = Some x -> expired x = false) /\
      (lifespan_ms (w_qos w) = 0 -> gone = [])
  else writer_run w pubs = (w, replicate (length pubs) None).
Proof.
  intros Hok Hh Hlt. cbv zeta. destruct (caches (w_qos w)) eqn:Hc; cbn [negb].
  2:{ rewrite claim_seq_cases by (done || apply Hok). by rewrite Hc. }
  destruct (Z.ltb_spec (len (w_history w)) kKeepAllCap) as [Hl|Hl].
  - rewrite claim_seq_cases by (done || apply Hok). rewrite Hc, bool_decide_true by done. cbn [negb andb].
    rewrite (proj2 (Z.leb_gt _ _)) by done. unfold cached_history, history_cap. rewrite bool_decide_true by done.
    rewrite trim_front_drop by (unfold kKeepAllCap; lia).
    replace (Z.to_nat _) with 0%nat by (rewrite length_app; simpl; unfold kKeepAllCap in *; lia). rewrite drop_0.
    destruct (pop_expired_split (lifespan_ms (w_qos w)) now (w_history w ++ [mkCached (w_seq w + 1) (pub / 1000) pub data]))
      as (gone & Eg & Hg & Hk & Hz). eexists gone, _. by split_and!.
  - induction pubs as [|[[p d] n] pubs IH]; simpl; [done|].
    rewrite keep_all_full_claim by done. by rewrite IH.
Qed.

(** A sample is accepted and an expired one leaves; a full history rejects two samples. *)
Lemma keep_all_backpressure_witness :
  (exists gone kept,
    claim_seq keep_all_short 9000 [2] 9 = (set_seq 2 (set_history kept keep_all_short), Some 2) /\
    w_history keep_all_short ++ [mkCached 2 9 9000 [2]] = gone ++ kept /\ length gone = 1%nat) /\
  writer_run keep_all_full_writer (test_pubs 2) = (keep_all_full_writer, [None; None]).
Proof.
  split.
  - pose proof (keep_all_backpressure keep_all_short 9000 9 [2] [] keep_all_short_ok eq_refl ltac:(vm_compute; reflexivity)) as Hw.
    change (negb (caches (w_qos keep_all_short))) with false in Hw.
    change (len (w_history keep_all_short) <? kKeepAllCap) with true in Hw. cbv iota zeta in Hw.
    destruct Hw as (gone & kept & E & Es & Hg & Hk & _). exists gone, kept. split; [exact E|]. split; [exact Es|].
    destruct gone as [|x [|y gone]]; [|done|].
    + simpl in Es. rewrite <- Es in Hk. specialize (Hk _ eq_refl). vm_compute in Hk. discriminate Hk.
    + injection Es as <- <- _. apply Forall_cons in Hg as [_ [Hy _]%Forall_cons]. vm_compute in Hy. discriminate Hy.
  - pose proof (keep_all_backpressure keep_all_full_writer 0 0 [] (test_pubs 2) keep_all_full_writer_ok eq_refl ltac:(vm_compute; reflexivity)) as Hw.
    assert (El : (len (w_history keep_all_full_writer) <? kKeepAllCap) = false) by (vm_compute; reflexivity).
    change (negb (caches (w_qos keep_all_full_writer))) with false in Hw. cbv zeta in Hw. rewrite El in Hw. exact Hw.
Defined.


End WriterSpec.
