(* ===== verification/Reliability.v ===== *)
(** * The repair protocol between a writer and a reader

    One round of ACKNACK, retransmission and GAP: the reader's [nack_state], the
    writer's [acknack_scan] on it, and the reader's [enqueue] and [apply_gap] on the
    answer, in the order [handle_acknack] sends it. *)

From S2P Require Import Prelude Memory StdMap Guid Qos ReaderImpl WriterImpl.

(** ** What one operation does to the state of the writer it concerns *)

Definition rx_of (r : ReaderImpl) (w : Guid) : WriterRxState :=
  default rx_init (map_find w (r_rx r)).

(** What [rx_of] holds is well formed in any state the reader can reach. *)
Definition reader_ok (r : ReaderImpl) : Prop := forall w, rx_ok (rx_of r w).

Lemma enqueue_rx r now1 now2 w seq data wq pub :
  let r' := fst (enqueue r now1 now2 w seq data wq pub) in
  let both := bool_decide (reliability (r_qos r) = RELIABLE) &&
              bool_decide (reliability wq = RELIABLE) in
  rx_of r' w = ro_state (rx_receive both (rx_of r w) seq) /\
  (forall w', w' <> w -> rx_of r' w' = rx_of r w') /\
  map_find w (r_rx r') = Some (rx_of r' w) /\
  r_lost_count r' = u64 (r_lost_count r + ro_lost (rx_receive both (rx_of r w) seq)).
Proof.
  cbv zeta. unfold rx_of, enqueue. set (o := rx_receive _ _ _).
  assert (H : forall r', r_rx r' = map_set w (ro_state o) (r_rx r) ->
    r_lost_count r' = u64 (r_lost_count r + ro_lost o) ->
    default rx_init (map_find w (r_rx r')) = ro_state o /\
    (forall w', w' <> w -> default rx_init (map_find w' (r_rx r')) = default rx_init (map_find w' (r_rx r))) /\
    map_find w (r_rx r') = Some (default rx_init (map_find w (r_rx r'))) /\
    r_lost_count r' = u64 (r_lost_count r + ro_lost o)).
  { intros r' -> ->. rewrite map_find_set_eq. split_and!; [done| |done..].
    intros w' Hw. by rewrite map_find_set_ne. }
  destruct (negb (ro_new o)); [|destruct (lifespan_expired _ _ _)]; cbn [fst]; by apply H.
Qed.

Lemma enqueue_ok r now1 now2 w seq data wq pub :
  reader_ok r -> fits 64 seq ->
  let r' := fst (enqueue r now1 now2 w seq data wq pub) in
  reader_ok r' /\ seen (rx_of r' w) seq /\ (forall s, seen (rx_of r w) s -> seen (rx_of r' w) s).
Proof.
  intros Hr Hseq. cbv zeta. destruct (enqueue_rx r now1 now2 w seq data wq pub) as (E & Hne & _).
  destruct (rx_receive_sound (bool_decide (reliability (r_qos r) = RELIABLE) &&
    bool_decide (reliability wq = RELIABLE)) (rx_of r w) seq (Hr w) Hseq) as (H1 & H2 & H3).
  rewrite <- E in *. split_and!; [|done..].
  intros w'. destruct (decide (w' = w)) as [->|Hw]; [done|]. rewrite Hne by done. apply Hr.
Qed.

Lemma gap_ok r w start stop :
  reader_ok r -> fits 64 stop ->
  let r' := apply_gap r w start stop in
  reader_ok r' /\ (forall s, s <= stop -> seen (rx_of r' w) s) /\
  (forall s, seen (rx_of r w) s -> seen (rx_of r' w) s).
Proof.
  intros Hr Hstop. cbv zeta. destruct (map_find w (r_rx r)) as [st|] eqn:E.
  - assert (Est : rx_of r w = st) by (unfold rx_of; by rewrite E).
    pose proof (Hr w) as Hok. rewrite Est in *.
    destruct (Z.le_gt_cases stop (last_seq st)) as [Hle|Hgt].
    { unfold apply_gap. rewrite E, (proj2 (Z.leb_le _ _)) by done. rewrite Est.
      split_and!; [done| |done]. intros s Hs. left. lia. }
    destruct (apply_gap_known r w start stop st E Hok Hstop Hgt) as (st' & -> & Hok' & _ & Hs).
    assert (E' : rx_of (set_rx (map_set w st' (r_rx r)) (u64 (r_lost_count r + len (missing st stop))) r) w = st').
    { unfold rx_of. simpl. by rewrite map_find_set_eq. }
    rewrite E'. split_and!; [|intros; apply Hs; by left|intros; apply Hs; by right].
    intros w'. destruct (decide (w' = w)) as [->|Hw]; [by rewrite E'|].
    unfold rx_of. simpl. rewrite map_find_set_ne by done. apply Hr.
  - unfold apply_gap. rewrite E. unfold rx_of. simpl. rewrite map_find_set_eq. simpl.
    rewrite E. simpl. split_and!; [|intros s ?; left; simpl; lia|].
    2:{ intros s [Hs|Hs]; simpl in Hs; [left; simpl; ulia|by rewrite Z.bits_0 in Hs]. }
    intros w'. unfold rx_of. simpl. rewrite map_find_set.
    destruct (decide (w' = w)); [|apply Hr]. split; simpl; [done|ulia|].
    intros i. by rewrite Z.bits_0.
Qed.

(** ** One round *)

(** The answer as the reader processes it: the retransmissions, then the GAP. *)
Definition answer_ops (w : Guid) (wq : QosProfile) (now base : Z) (resend : list CachedSample)
    (unavail_end : Z) : list ReaderOp :=
  ((fun e => OpEnqueue now now w (cs_seq e) (cs_data e) wq (cs_pub_time_ms e)) <$> resend) ++
  (if 0 <? unavail_end then [OpGap w base unavail_end] else []).

(** The reader's request, the writer's answer, and the reader after it. *)
Definition repair_round (t : ReaderTrace) (w : WriterImpl) (clamp : bool) (birth now : Z) : ReaderTrace :=
  let (base, bitmap) := nack_state (tr_reader t) (w_guid w) in
  let (resend, unavail_end) := acknack_scan w clamp birth base bitmap in
  foldl reader_step t (answer_ops (w_guid w) (w_qos w) now base resend unavail_end).

Lemma reader_step_enqueue t now1 now2 w seq data wq pub :
  tr_reader (reader_step t (OpEnqueue now1 now2 w seq data wq pub)) =
  fst (enqueue (tr_reader t) now1 now2 w seq data wq pub).
Proof. simpl. by destruct (enqueue _ _ _ _ _ _ _ _). Qed.

Lemma resend_ok wg wq now es t :
  reader_ok (tr_reader t) -> Forall (fun e => fits 64 (cs_seq e)) es ->
  let t' := foldl reader_step t
    ((fun e => OpEnqueue now now wg (cs_seq e) (cs_data e) wq (cs_pub_time_ms e)) <$> es) in
  reader_ok (tr_reader t') /\
  (forall s, s ∈ cs_seq <$> es \/ seen (rx_of (tr_reader t) wg) s -> seen (rx_of (tr_reader t') wg) s).
Proof.
  intros Hr Hes. revert t Hr.
  induction Hes as [|e es He Hes IH]; intros t Hr; cbn [fmap list_fmap foldl].
  { split_and!; [done|]. intros s [Hs|?]; [by apply not_elem_of_nil in Hs|done]. }
  pose proof (reader_step_enqueue t now now wg (cs_seq e) (cs_data e) wq (cs_pub_time_ms e)) as E.
  destruct (enqueue_ok (tr_reader t) now now wg (cs_seq e) (cs_data e) wq (cs_pub_time_ms e) Hr He)
    as (H1 & H2 & H3).
  rewrite <- E in H1, H2, H3. destruct (IH _ H1) as [H5 H6]. split; [done|].
  intros s [Hs|Hs]; apply H6; [|right; by apply H3].
  apply elem_of_cons in Hs as [-> |Hs]; [right; exact H2|by left].
Qed.

(** What the reader asks for: nothing it has seen. *)
Lemma nack_state_eq r w :
  reader_ok r -> last_seq (rx_of r w) + 1 < 2 ^ 64 ->
  nack_state r w = (last_seq (rx_of r w) + 1, window (rx_of r w)).
Proof.
  intros Hr Hl. specialize (Hr w). unfold nack_state, rx_of in *.
  destruct (map_find w (r_rx r)) as [st|]; [|done]. simpl in *.
  rewrite wrap_id; [done|]. destruct Hr. ulia.
Qed.

(** Retransmissions within the window of a canonical state are never lost. *)
Lemma resend_tracked wg wq now es t :
  reader_ok (tr_reader t) -> canonical (rx_of (tr_reader t) wg) -> fits 64 (r_lost_count (tr_reader t)) ->
  Forall (fun e => fits 64 (cs_seq e) /\ cs_seq e <= last_seq (rx_of (tr_reader t) wg) + 64) es ->
  let t' := foldl reader_step t
    ((fun e => OpEnqueue now now wg (cs_seq e) (cs_data e) wq (cs_pub_time_ms e)) <$> es) in
  rx_ok (rx_of (tr_reader t') wg) /\ canonical (rx_of (tr_reader t') wg) /\
  r_lost_count (tr_reader t') = r_lost_count (tr_reader t) /\
  forall s, seen (rx_of (tr_reader t') wg) s <-> seen (rx_of (tr_reader t) wg) s \/ s ∈ cs_seq <$> es.
Proof.
  intros Hr Hcan Hlost Hes. revert t Hr Hcan Hlost Hes.
  induction es as [|e es IH]; intros t Hr Hcan Hlost Hes; cbn [fmap list_fmap foldl].
  { split_and!; [apply Hr|done..|]. intros s. rewrite elem_of_nil. tauto. }
  apply Forall_cons in Hes as [[He Hle] Hes].
  pose proof (reader_step_enqueue t now now wg (cs_seq e) (cs_data e) wq (cs_pub_time_ms e)) as E.
  destruct (enqueue_ok (tr_reader t) now now wg (cs_seq e) (cs_data e) wq (cs_pub_time_ms e) Hr He)
    as (H1 & _ & _).
  destruct (enqueue_rx (tr_reader t) now now wg (cs_seq e) (cs_data e) wq (cs_pub_time_ms e))
    as (H2 & _ & _ & H3).
  rewrite <- E in H1, H2, H3. set (both := bool_decide _ && bool_decide _) in *.
  destruct (rx_receive_tracked both _ (cs_seq e) (Hr wg) He) as (Hok & Hl0 & Hc & Hs).
  { unfold jumps. lia. }
  rewrite <- H2 in Hok, Hc, Hs. rewrite Hl0, Z.add_0_r, wrap_id in H3 by done. specialize (Hc Hcan).
  assert (Hmono : last_seq (rx_of (tr_reader t) wg) <=
    last_seq (rx_of (tr_reader (reader_step t (OpEnqueue now now wg (cs_seq e) (cs_data e) wq
      (cs_pub_time_ms e)))) wg)).
  { pose proof (canonical_first _ Hc) as Hf. rewrite Hs in Hf.
    destruct (Z.le_gt_cases (last_seq (rx_of (tr_reader (reader_step t (OpEnqueue now now wg (cs_seq e)
      (cs_data e) wq (cs_pub_time_ms e)))) wg) + 1) (last_seq (rx_of (tr_reader t) wg))); [|lia].
    exfalso. apply Hf. left. by left. }
  destruct (IH _ H1 Hc) as (H4 & H5 & H6 & H7).
  { by rewrite H3. }
  { eapply Forall_impl; [exact Hes|]. cbv beta. intros e' [? ?]. split; [done|lia]. }
  split_and!; [done|done|by rewrite H6|].
  intros s. rewrite H7, Hs, elem_of_cons. tauto.
Qed.

(** Every reader that started empty is well formed. *)
Lemma reader_run_ok r ops : fresh r -> Forall op_ok ops -> reader_ok (tr_reader (reader_run r ops)).
Proof.
  intros Hf Hops w. destruct (reader_run_inv _ ops (fresh_inv r Hf) Hops) as [Hrx _ _ _].
  unfold rx_of. destruct (map_find w _) eqn:E; simpl; [by eapply Hrx|apply rx_init_ok].
Qed.

Definition behind_run : ReaderTrace := test_run KEEP_ALL 0 [1; 3].

Lemma behind_run_ok : reader_ok (tr_reader behind_run).
Proof.
  apply reader_run_ok; [done|]. change (Forall op_ok (arrival_op (test_guid 1) (test_qos RELIABLE KEEP_ALL 0) <$>
    (test_arrival <$> [1; 3]))). repeat constructor; simpl; ulia.
Qed.

Module ReliabilitySpec.

(** One round repairs: whatever the reader missed among the next 64 numbers, after
    it has sent its ACKNACK and processed the answer every one of them that has been
    published is accounted for: received, or given up because the writer declared it
    unavailable.  Nothing seen before is forgotten. *)
Theorem repair_round_complete (t : ReaderTrace) (w : WriterImpl) (clamp : bool) (birth now : Z) :
  reader_ok (tr_reader t) -> history_ok w -> w_history w <> [] ->
  last_seq (rx_of (tr_reader t) (w_guid w)) + 65 <= 2 ^ 64 ->
  let st := rx_of (tr_reader t) (w_guid w) in
  let st' := rx_of (tr_reader (repair_round t w clamp birth now)) (w_guid w) in
  forall s, s <= last_seq st + 64 -> s <= w_seq w \/ seen st s -> seen st' s.
Proof.
  intros Hr Hok Hne Hl st st' s Hs Hcase. subst st'. unfold repair_round.
  rewrite nack_state_eq by (done || lia). fold st.
  assert (Hb : 0 <= last_seq st + 1) by (destruct (Hr (w_guid w)) as [[? _] _ _]; subst st; lia).
  pose proof (elem_of_resend w clamp birth (last_seq st + 1) (window st) Hb ltac:(subst st; lia)) as Hre.
  pose proof (unavail_end_source w clamp birth (last_seq st + 1) (window st) Hb ltac:(subst st; lia)) as Hun.
  pose proof (acknack_answers w clamp birth (last_seq st + 1) (window st) Hb ltac:(subst st; lia) s Hok Hne)
    as Han.
  destruct (acknack_scan w clamp birth (last_seq st + 1) (window st)) as [resend u]. simpl in Hre, Hun, Han.
  unfold answer_ops. rewrite foldl_app.
  assert (Hfit : Forall (fun e => fits 64 (cs_seq e)) resend).
  { apply Forall_forall. intros e (k & Hk & _ & Hc)%Hre. apply cached_Some in Hc as [_ ->].
    subst st. ulia. }
  destruct (resend_ok (w_guid w) (w_qos w) now resend t Hr Hfit) as [Hr1 Hs1]. fold st in Hs1.
  set (t1 := foldl reader_step t _) in *.
  assert (Hgap : seen (rx_of (tr_reader t1) (w_guid w)) s \/ s <= u).
  { destruct (decide (seen st s)) as [Hseen|Hn]; [left; apply Hs1; by right|].
    destruct Hcase as [Hle|?]; [|done].
    assert (Hlow : last_seq st < s).
    { destruct (Z.le_gt_cases s (last_seq st)); [|done]. exfalso. apply Hn. by left. }
    assert (Hreq : requested (last_seq st + 1) (window st) s = true).
    { unfold requested. destruct (Z.testbit _ _) eqn:Hbit; [|done]. exfalso. apply Hn. right.
      by replace (s - last_seq st - 1) with (s - (last_seq st + 1)) by lia. }
    destruct (Han ltac:(lia) Hle Hreq) as [(e & He & <-)|?]; [|by right].
    left. apply Hs1. left. by apply list_elem_of_fmap_2. }
  destruct (Z.ltb_spec 0 u) as [Hu|Hu]; cbn [foldl].
  - assert (Hfu : fits 64 u) by (destruct Hun as [?|[? _]]; subst st; ulia).
    destruct (gap_ok (tr_reader t1) (w_guid w) (last_seq st + 1) u Hr1 Hfu) as (_ & H1 & H2).
    cbn [reader_step tr_reader]. destruct Hgap; auto.
  - destruct Hgap as [?|Hsu]; [done|]. left.
    destruct (Hr1 (w_guid w)) as [[? _] _ _]. cbn [foldl]. lia.
Qed.

Lemma repair_round_complete_witness :
  let w := fst (writer_run (test_writer KEEP_LAST 2) (test_pubs 5)) in
  seen (rx_of (tr_reader (repair_round behind_run w true 0 9)) (w_guid w)) 4.
Proof.
  apply repair_round_complete; [exact behind_run_ok|apply test_writer_ok; vm_compute; reflexivity
    |vm_compute; intros [=]|vm_compute; intros [=]|vm_compute; intros [=]|].
  left. vm_compute. intros [=].
Defined.


End ReliabilitySpec.
