(* ===== verification/Discovery.v ===== *)
(** * ANNOUNCE frames (include/mdds/discovery.hpp, src/discovery.cpp)

    A participant's snapshot, its encoding, and its decoding with the cursor class
    [Reader2], here a parser monad over a body and a position. *)

From S2P Require Import Prelude Memory StdMap Guid Qos Frame.

(** ** Snapshots *)

Record NodeInfo := mkNode {
  node_ns : list Z;
  node_name : list Z;
}.

#[global] Instance node_eq_dec : EqDecision NodeInfo.
Proof. solve_decision. Defined.

Record EndpointRecord := mkEndpoint {
  ep_guid : Guid;
  ep_kind : EntityKind;
  ep_topic : list Z;
  ep_type_name : list Z;
  ep_qos : QosProfile;
  ep_birth_us : Z;
}.

#[global] Instance endpoint_eq_dec : EqDecision EndpointRecord.
Proof. solve_decision. Defined.

(** [EndpointRecord::operator==]: the QoS and the birth time are not compared. *)
Definition endpoint_eqb (a b : EndpointRecord) : bool :=
  bool_decide (ep_guid a = ep_guid b) && bool_decide (ep_kind a = ep_kind b) &&
  bool_decide (ep_topic a = ep_topic b) && bool_decide (ep_type_name a = ep_type_name b).

Record ParticipantSnapshot := mkSnapshot {
  participant_guid : Guid;
  snap_nodes : list NodeInfo;
  snap_endpoints : list EndpointRecord;
}.

(** [std::vector]'s operator== on endpoints. *)
Fixpoint endpoints_eqb (l k : list EndpointRecord) : bool :=
  match l, k with
  | [], [] => true
  | a :: l', b :: k' => endpoint_eqb a b && endpoints_eqb l' k'
  | _, _ => false
  end.

(** ** Encoding *)

(** The [push_back] loop of [put_u64]. *)
Definition push_u64 (v : Z) : list Z :=
  (fun i => u8 (Z.land (Z.shiftr v (i * 8)) 255)) <$> [7; 6; 5; 4; 3; 2; 1; 0].

Definition put_string (s : list Z) : list Z := put_u16 (u16 (len s)) ++ s.

Definition node_bytes (n : NodeInfo) : list Z := put_string (node_ns n) ++ put_string (node_name n).

Definition endpoint_bytes (e : EndpointRecord) (qos_buf : list Z) : list Z :=
  guid_bytes (ep_guid e) ++ [kind_to_u8 (ep_kind e)] ++
  put_string (ep_topic e) ++ put_string (ep_type_name e) ++ qos_buf ++ push_u64 (ep_birth_us e).

(** The loop over the endpoints. *)
Fixpoint encode_endpoints (body : list Z) (es : list EndpointRecord) : res (list Z) :=
  match es with
  | [] => Done body
  | e :: es =>
      qos_buf ← encode_qos (zeros kQosWireSize) (ep_qos e);
      encode_endpoints (body ++ endpoint_bytes e qos_buf) es
  end.

Definition encode_announce (snap : ParticipantSnapshot) (announce_seq : Z) : res (list Z) :=
  let body := guid_bytes (participant_guid snap) ++ push_u64 announce_seq ++
              put_u16 (u16 (len (snap_nodes snap))) ++ concat (node_bytes <$> snap_nodes snap) ++
              put_u16 (u16 (len (snap_endpoints snap))) in
  body ← encode_endpoints body (snap_endpoints snap);
  let frame := zeros (kHeaderSize + len body) in
  frame ← encode_header frame ANNOUNCE 0 (u32 (len body));
  store frame kHeaderSize body.

(** ** The cursor *)

(** A method of [Reader2]: the buffer and [pos_] before, the result and [pos_] after. *)
Definition parser (A : Type) : Type := list Z -> Z -> res (A * Z).

#[global] Instance parser_ret : MRet parser := fun A a _ pos => Done (a, pos).
#[global] Instance parser_bind : MBind parser := fun A B k p buf pos =>
  match p buf pos with Done (a, pos) => k a buf pos | Fail => Fail | UB => UB end.

Definition rd_u16 : parser Z := fun buf pos =>
  if len buf <? pos + 2 then Fail
  else v ← get_u16 buf pos; Done (v, pos + 2).

(** The loop of [Reader2::u64]. *)
Fixpoint u64_loop (n : nat) (v : Z) : parser Z := fun buf pos =>
  match n with
  | O => Done (v, pos)
  | S n => b ← load_u8 buf pos; u64_loop n (u64 (Z.lor (Z.shiftl v 8) b)) buf (pos + 1)
  end.

Definition rd_u64 : parser Z := fun buf pos =>
  if len buf <? pos + 8 then Fail else u64_loop 8 0 buf pos.

Definition rd_bytes (n : Z) : parser (list Z) := fun buf pos =>
  if len buf <? pos + n then Fail
  else bs ← load buf pos n; Done (bs, pos + n).

Definition rd_str : parser (list Z) := n ← rd_u16; rd_bytes n.

(** [for (uint16_t i = 0; i < count; ++i)] *)
Fixpoint rd_many {A} (count : nat) (p : parser A) : parser (list A) :=
  match count with
  | O => mret []
  | S count => x ← p; xs ← rd_many count p; mret (x :: xs)
  end.

Definition rd_node : parser NodeInfo :=
  ns ← rd_str; name ← rd_str; mret (mkNode ns name).

(** A decoder of its own buffer, inside the parser. *)
Definition run_res {A} (r : res A) : parser A := fun _ pos => a ← r; Done (a, pos).

Definition rd_endpoint : parser EndpointRecord :=
  g ← rd_bytes 16;
  kind ← rd_bytes 1;
  kind ← run_res (load_u8 kind 0);
  topic ← rd_str;
  type_name ← rd_str;
  qos_buf ← rd_bytes kQosWireSize;
  qos ← run_res (decode_qos qos_buf);
  birth ← rd_u64;
  mret (mkEndpoint (mkGuid g) (kind_of_u8 kind) topic type_name qos birth).

Definition rd_snapshot : parser (ParticipantSnapshot * Z) :=
  g ← rd_bytes 16;
  announce_seq ← rd_u64;
  node_count ← rd_u16;
  nodes ← rd_many (Z.to_nat node_count) rd_node;
  ep_count ← rd_u16;
  endpoints ← rd_many (Z.to_nat ep_count) rd_endpoint;
  mret (mkSnapshot (mkGuid g) nodes endpoints, announce_seq).

Definition decode_announce (buf : list Z) : res (ParticipantSnapshot * Z) :=
  hdr ← decode_header buf;
  if negb (bool_decide (hdr_type hdr = ANNOUNCE)) then Fail
  else
    body ← load buf kHeaderSize (hdr_body_len hdr);
    r ← rd_snapshot body 0;
    Done (fst r).

(** ** What a parser reads

    [reads p bs a]: wherever the bytes [bs] stand at the cursor, [p] consumes
    exactly them and returns [a]. *)

Definition reads {A} (p : parser A) (bs : list Z) (a : A) : Prop :=
  forall pre post, p (pre ++ bs ++ post) (len pre) = Done (a, len pre + len bs).

Lemma reads_ret {A} (a : A) : reads (mret a) [] a.
Proof. intros pre post. unfold mret, parser_ret. simpl. by rewrite Z.add_0_r. Qed.

Lemma reads_bind {A B} (p : parser A) (k : A -> parser B) bs bs' a b :
  reads p bs a -> reads (k a) bs' b -> reads (p ≫= k) (bs ++ bs') b.
Proof.
  intros Hp Hk pre post. unfold mbind, parser_bind. rewrite <- app_assoc, Hp.
  specialize (Hk (pre ++ bs) post). rewrite <- app_assoc, length_app, Nat2Z.inj_add in Hk.
  rewrite Hk, length_app. do 2 f_equal. lia.
Qed.

(** The last parser of a chain. *)
Lemma reads_last {A B} (p : parser A) (k : A -> B) bs a :
  reads p bs a -> reads (x ← p; mret (k x)) bs (k a).
Proof.
  intros Hp. rewrite <- (app_nil_r bs). eapply reads_bind; [exact Hp|apply reads_ret].
Qed.

Lemma reads_bind_res {A B} (r : res A) (k : A -> parser B) a bs b :
  r = Done a -> reads (k a) bs b -> reads (run_res r ≫= k) bs b.
Proof. intros -> Hk pre post. exact (Hk pre post). Qed.

Lemma reads_bytes bs n : n = len bs -> reads (rd_bytes n) bs bs.
Proof.
  intros -> pre post. unfold rd_bytes.
  rewrite (proj2 (Z.ltb_ge _ _)) by (rewrite !length_app; lia).
  rewrite load_skip by lia. rewrite load_here by lia. done.
Qed.

Lemma reads_u16 v : fits 16 v -> reads rd_u16 (put_u16 v) v.
Proof.
  intros Hv pre post. unfold rd_u16.
  rewrite (proj2 (Z.ltb_ge _ _)) by (rewrite !length_app; simpl; lia).
  rewrite (get_u16_put _ _ v); [done| |done]. rewrite load_skip by lia. by apply load_here; [lia|].
Qed.

Lemma reads_str s : fits 16 (len s) -> reads rd_str (put_string s) s.
Proof.
  intros Hs. unfold rd_str, put_string. rewrite wrap_id by done.
  eapply reads_bind; [by apply reads_u16|by apply reads_bytes].
Qed.

(** One turn of the [u64] loop: the bytes from the top, down to bit [k]. *)
Lemma shiftr_step v k :
  0 <= k -> Z.lor (Z.shiftl (Z.shiftr v (k + 8)) 8) (Z.land (Z.shiftr v k) 255) = Z.shiftr v k.
Proof.
  intros Hk. rewrite <- Z.shiftr_shiftr by lia. set (x := Z.shiftr v k).
  rewrite land_255, Z.shiftr_div_pow2 by lia. change (2 ^ 8) with 256.
  rewrite shiftl_lor_add by (change (2 ^ 8) with 256; ulia). change (2 ^ 8) with 256. ulia.
Qed.

Lemma u64_loop_reads n v :
  fits 64 v ->
  reads (u64_loop n (Z.shiftr v (Z.of_nat n * 8)))
    ((fun i => u8 (Z.land (Z.shiftr v (i * 8)) 255)) <$> (Z.of_nat <$> rev (seq 0 n))) v.
Proof.
  intros Hv. induction n as [|n IH].
  { intros pre post. simpl. rewrite Z.shiftr_0_r. by rewrite Z.add_0_r. }
  intros pre post. rewrite seq_S, rev_app_distr. cbn [rev app u64_loop]. rewrite !fmap_cons.
  set (b := u8 _). match type of IH with reads _ ?l _ => set (bs := l) in * end.
  rewrite <- (app_comm_cons bs).
  rewrite (load_u8_of _ _ b).
  2:{ rewrite load_skip, Z.sub_diag by lia. by apply (load_here [b]). }
  cbn [mbind res_bind].
  assert (Eb : b = Z.land (Z.shiftr v (Z.of_nat n * 8)) 255).
  { subst b. apply wrap_id. rewrite land_255. apply wrap_fits. lia. }
  replace (Z.of_nat (S n) * 8) with (Z.of_nat n * 8 + 8) by lia.
  rewrite Eb at 1. rewrite shiftr_step by lia. rewrite wrap_id by (apply fits_shiftr; [lia|done]).
  specialize (IH (pre ++ [b]) post). rewrite <- app_assoc, length_app in IH. simpl in IH.
  replace (len pre + 1) with (Z.of_nat (length pre + 1)) by lia.
  rewrite IH. do 2 f_equal. simpl. lia.
Qed.

Lemma reads_u64 v : fits 64 v -> reads rd_u64 (push_u64 v) v.
Proof.
  intros Hv pre post. unfold rd_u64.
  rewrite (proj2 (Z.ltb_ge _ _)) by (rewrite !length_app; simpl; lia).
  pose proof (u64_loop_reads 8 v Hv pre post) as H.
  replace (Z.shiftr v (Z.of_nat 8 * 8)) with 0 in H; [exact H|].
  rewrite Z.shiftr_div_pow2 by lia. change (Z.of_nat 8 * 8) with 64. ulia.
Qed.

Lemma reads_many {A} (p : parser A) (enc : A -> list Z) xs :
  Forall (fun x => reads p (enc x) x) xs -> reads (rd_many (length xs) p) (concat (enc <$> xs)) xs.
Proof.
  induction 1 as [|x xs Hx Hxs IH]; simpl; [apply reads_ret|].
  eapply reads_bind; [exact Hx|]. by apply (reads_last _ (cons x)).
Qed.

(** ** Well-formed snapshots *)

Definition string_ok (s : list Z) : Prop := fits 16 (len s) /\ bytes_ok s.
Definition node_ok (n : NodeInfo) : Prop := string_ok (node_ns n) /\ string_ok (node_name n).
Record endpoint_ok (e : EndpointRecord) : Prop := {
  eo_guid : guid_ok (ep_guid e);
  eo_kind : kind_ok (ep_kind e);
  eo_topic : string_ok (ep_topic e);
  eo_type : string_ok (ep_type_name e);
  eo_qos : qos_ok (ep_qos e);
  eo_birth : fits 64 (ep_birth_us e);
}.
Record snapshot_ok (s : ParticipantSnapshot) : Prop := {
  so_guid : guid_ok (participant_guid s);
  so_nodes : Forall node_ok (snap_nodes s);
  so_node_count : fits 16 (len (snap_nodes s));
  so_endpoints : Forall endpoint_ok (snap_endpoints s);
  so_endpoint_count : fits 16 (len (snap_endpoints s));
}.

Definition endpoint_wire (e : EndpointRecord) : list Z := endpoint_bytes e (qos_bytes (ep_qos e)).

Definition announce_body (s : ParticipantSnapshot) (seq : Z) : list Z :=
  guid_bytes (participant_guid s) ++ push_u64 seq ++
  put_u16 (len (snap_nodes s)) ++ concat (node_bytes <$> snap_nodes s) ++
  put_u16 (len (snap_endpoints s)) ++ concat (endpoint_wire <$> snap_endpoints s).

Lemma reads_node n : node_ok n -> reads rd_node (node_bytes n) n.
Proof.
  intros [[H1 _] [H2 _]]. unfold rd_node, node_bytes. destruct n as [ns name].
  cbn [node_ns node_name] in *.
  eapply reads_bind; [by apply reads_str|]. by apply (reads_last _ (mkNode ns)), reads_str.
Qed.

Lemma reads_endpoint e : endpoint_ok e -> reads rd_endpoint (endpoint_wire e) e.
Proof.
  intros [[Hg _] [Hk Hk'] [Ht _] [Hty _] Hq Hb]. unfold rd_endpoint, endpoint_wire, endpoint_bytes.
  destruct e as [[g] kind topic type q birth].
  cbn [ep_guid ep_kind ep_topic ep_type_name ep_qos ep_birth_us guid_bytes] in *.
  eapply reads_bind; [by apply reads_bytes; rewrite Hg|].
  eapply reads_bind; [by apply reads_bytes|].
  eapply reads_bind_res; [reflexivity|].
  eapply reads_bind; [by apply reads_str|]. eapply reads_bind; [by apply reads_str|].
  eapply reads_bind; [by apply reads_bytes|].
  eapply reads_bind_res.
  { pose proof (decode_qos_bytes q [] Hq) as H. rewrite app_nil_r in H. exact H. }
  rewrite Hk'. by apply (reads_last _ (mkEndpoint (mkGuid g) kind topic type q)), reads_u64.
Qed.

Lemma reads_snapshot s seq :
  snapshot_ok s -> fits 64 seq -> reads rd_snapshot (announce_body s seq) (s, seq).
Proof.
  intros [[Hg _] Hn Hnc He Hec] Hs. unfold rd_snapshot, announce_body.
  destruct s as [[g] nodes eps].
  cbn [participant_guid snap_nodes snap_endpoints guid_bytes] in *.
  eapply reads_bind; [by apply reads_bytes; rewrite Hg|].
  eapply reads_bind; [by apply reads_u64|].
  eapply reads_bind; [by apply reads_u16|]. rewrite Nat2Z.id.
  eapply reads_bind.
  { apply reads_many. eapply Forall_impl; [exact Hn|]. apply reads_node. }
  eapply reads_bind; [by apply reads_u16|]. rewrite Nat2Z.id.
  apply (reads_last _ (fun es => (mkSnapshot (mkGuid g) nodes es, seq))), reads_many.
  eapply Forall_impl; [exact He|]. apply reads_endpoint.
Qed.

(** *** The encoder *)

Lemma encode_endpoints_eq body es :
  encode_endpoints body es = Done (body ++ concat (endpoint_wire <$> es)).
Proof.
  revert body. induction es as [|e es IH]; intros body; cbn [encode_endpoints].
  { by rewrite app_nil_r. }
  rewrite encode_qos_bytes. cbn [mbind res_bind]. rewrite IH. by rewrite <- app_assoc.
Qed.

Definition announce_bytes (s : ParticipantSnapshot) (seq : Z) : list Z :=
  header_bytes ANNOUNCE 0 (len (announce_body s seq)) ++ announce_body s seq.

Lemma encode_announce_bytes s seq :
  snapshot_ok s -> len (announce_body s seq) < 2 ^ 32 ->
  encode_announce s seq = Done (announce_bytes s seq).
Proof.
  intros [_ _ Hnc _ Hec] Hl. unfold encode_announce. rewrite !(wrap_id 16) by done.
  rewrite encode_endpoints_eq. cbn [mbind res_bind].
  rewrite <- !app_assoc. fold (announce_body s seq). rewrite wrap_id by ulia.
  unfold kHeaderSize. eapply bind_done; [apply encode_header_bytes; lia|]. cbv beta.
  rewrite store_fill_at by solve_len. unfold announce_bytes.
  replace (12 + _ - 12 - _) with 0 by lia. by rewrite app_nil_r.
Qed.

(** Whatever the snapshot, the frame is built inside its vector. *)
Lemma encode_announce_total s seq : exists frame, encode_announce s seq = Done frame.
Proof.
  unfold encode_announce. rewrite encode_endpoints_eq. cbn [mbind res_bind].
  set (body := _ ++ concat _). unfold kHeaderSize. rewrite encode_header_bytes by lia.
  cbn [mbind res_bind]. rewrite store_fill_at by solve_len. by eexists.
Qed.

Lemma decode_announce_bytes s seq extra :
  snapshot_ok s -> fits 64 seq -> len (announce_body s seq) < 2 ^ 32 ->
  decode_announce (announce_bytes s seq ++ extra) = Done (s, seq).
Proof.
  intros Hs Hseq Hl. unfold decode_announce, announce_bytes. rewrite <- app_assoc.
  eapply bind_done.
  { apply decode_header_bytes; [by split|ulia|ulia|]. rewrite length_app. lia. }
  cbv beta. simpl hdr_type. rewrite bool_decide_true by done. cbn [negb]. simpl hdr_body_len.
  eapply bind_done.
  { unfold kHeaderSize. rewrite load_skip by solve_len. by apply load_here; [solve_len|]. }
  cbv beta. pose proof (reads_snapshot s seq Hs Hseq [] []) as H.
  rewrite app_nil_r in H. simpl app in H. eapply bind_done; [exact H|]. done.
Qed.

(** ** Memory safety *)

(** Run anywhere in a buffer of bytes, [p] stays inside it and returns a [P]. *)
Definition psafe {A} (P : A -> Prop) (p : parser A) : Prop :=
  forall buf pos, bytes_ok buf -> 0 <= pos <= len buf ->
  safe (fun r => P r.1 /\ 0 <= r.2 <= len buf) (p buf pos).

Lemma psafe_ret {A} (P : A -> Prop) a : P a -> psafe P (mret a).
Proof. intros Ha buf pos Hok Hpos. done. Qed.

Lemma psafe_bind {A B} (Q : A -> Prop) (P : B -> Prop) (p : parser A) (k : A -> parser B) :
  psafe Q p -> (forall a, Q a -> psafe P (k a)) -> psafe P (p ≫= k).
Proof.
  intros Hp Hk buf pos Hok Hpos. unfold mbind, parser_bind. specialize (Hp buf pos Hok Hpos).
  destruct (p buf pos) as [[a pos']| |]; simpl in *; [|done..]. destruct Hp. by apply Hk.
Qed.

Lemma psafe_mono {A} (P Q : A -> Prop) (p : parser A) :
  psafe P p -> (forall a, P a -> Q a) -> psafe Q p.
Proof.
  intros Hp HPQ buf pos Hok Hpos. eapply safe_mono; [by apply Hp|].
  intros r [? ?]. auto.
Qed.

Lemma psafe_res {A} (P : A -> Prop) (r : res A) : safe P r -> psafe P (run_res r).
Proof. intros Hr buf pos _ Hpos. unfold run_res. by destruct r. Qed.

Lemma psafe_u16 : psafe (fits 16) rd_u16.
Proof.
  intros buf pos Hok Hpos. unfold rd_u16. destruct (Z.ltb_spec (len buf) (pos + 2)); [done|].
  eapply safe_bind; [apply safe_get_u16; lia|]. intros v Hv. simpl. split; [done|lia].
Qed.

Lemma u64_loop_safe n v buf pos :
  bytes_ok buf -> 0 <= pos -> pos + Z.of_nat n <= len buf -> fits 64 v ->
  safe (fun r => fits 64 r.1 /\ 0 <= r.2 <= len buf) (u64_loop n v buf pos).
Proof.
  intros Hok. revert v pos. induction n as [|n IH]; intros v pos Hpos Hn Hv; cbn [u64_loop].
  { simpl. split; [done|lia]. }
  eapply safe_bind; [apply safe_load_u8; [done|lia..]|]. intros b Hb. cbv beta.
  apply IH; [lia..|]. by apply wrap_fits.
Qed.

Lemma psafe_u64 : psafe (fits 64) rd_u64.
Proof.
  intros buf pos Hok Hpos. unfold rd_u64. destruct (Z.ltb_spec (len buf) (pos + 8)); [done|].
  apply u64_loop_safe; [done|lia..|ulia].
Qed.

Lemma psafe_bytes n : 0 <= n -> psafe (fun bs => len bs = n /\ bytes_ok bs) (rd_bytes n).
Proof.
  intros Hn buf pos Hok Hpos. unfold rd_bytes. destruct (Z.ltb_spec (len buf) (pos + n)); [done|].
  eapply safe_bind; [apply safe_load; [done|lia..]|]. intros bs [? ?]. simpl. split; [done|lia].
Qed.

Lemma psafe_str : psafe string_ok rd_str.
Proof.
  eapply psafe_bind; [apply psafe_u16|]. intros n Hn.
  eapply psafe_mono; [apply psafe_bytes, Hn|]. intros bs [<- ?]. by split.
Qed.

Lemma psafe_many {A} (P : A -> Prop) n (p : parser A) :
  psafe P p -> psafe (fun xs => length xs = n /\ Forall P xs) (rd_many n p).
Proof.
  intros Hp. induction n as [|n IH]; cbn [rd_many]; [by apply psafe_ret|].
  eapply psafe_bind; [exact Hp|]. intros x Hx. eapply psafe_bind; [exact IH|].
  intros xs [Hl Hxs]. apply psafe_ret. split; [simpl; lia|by constructor].
Qed.

Ltac psafe_step lem :=
  eapply psafe_bind; [apply lem|let a := fresh "v" in let H := fresh "Hv" in intros a H; cbv beta in H |- *].

Lemma psafe_node : psafe node_ok rd_node.
Proof. unfold rd_node. do 2 psafe_step psafe_str. by apply psafe_ret. Qed.

Lemma psafe_endpoint : psafe endpoint_ok rd_endpoint.
Proof.
  unfold rd_endpoint. psafe_step psafe_bytes; [lia|].
  psafe_step psafe_bytes; [lia|].
  eapply psafe_bind; [apply psafe_res, (safe_load_u8 v0); [apply Hv0|lia|lia]|]. intros k Hk.
  do 2 psafe_step psafe_str. psafe_step psafe_bytes; [done|].
  destruct (decode_qos_total v3) as (q & Eq & Hq); [apply Hv3|lia|].
  rewrite Eq. eapply (psafe_bind (fun x => x = q)); [by apply psafe_res|]. intros ? ->.
  psafe_step psafe_u64. apply psafe_ret.
  split; simpl; try done; [split; simpl; [lia|apply Hv]|by apply kind_of_u8_ok].
Qed.

Lemma psafe_snapshot : psafe (fun r => snapshot_ok r.1 /\ fits 64 r.2) rd_snapshot.
Proof.
  unfold rd_snapshot. psafe_step psafe_bytes; [lia|]. psafe_step psafe_u64.
  psafe_step psafe_u16. psafe_step (psafe_many node_ok); [apply psafe_node|].
  psafe_step psafe_u16. psafe_step (psafe_many endpoint_ok); [apply psafe_endpoint|].
  apply psafe_ret. split; [|done].
  split; simpl; [split; simpl; [lia|apply Hv]|apply Hv2| |apply Hv4|];
    rewrite ?(proj1 Hv2), ?(proj1 Hv4); ulia.
Qed.

Lemma decode_announce_safe buf :
  bytes_ok buf -> safe (fun r => snapshot_ok r.1 /\ fits 64 r.2) (decode_announce buf).
Proof.
  intros Hok. unfold decode_announce. eapply safe_bind; [by apply decode_header_safe|].
  intros h (_ & Hb & Hl). unfold kHeaderSize in Hl. cbv beta. case_if; [done|].
  eapply safe_bind; [apply safe_load; [done|done|apply Hb|unfold kHeaderSize; lia]|].
  intros body [Hbl Hbok]. cbv beta.
  eapply safe_bind; [apply psafe_snapshot; [done|lia]|]. intros [r pos] [Hr _]. exact Hr.
Qed.

(** ** Properties *)

Definition test_snapshot : ParticipantSnapshot :=
  mkSnapshot zero_guid [mkNode [47] [97]]
    [mkEndpoint zero_guid READER [116] [105] preset_transient_local 12345678901].

Lemma test_snapshot_ok : snapshot_ok test_snapshot.
Proof.
  split; simpl; try exact zero_guid_ok; try ulia; repeat constructor; simpl; try ulia;
    try exact zero_guid_ok; repeat constructor; simpl; ulia.
Qed.

Module DiscoverySpec.

(** C36. ANNOUNCE round trip: a snapshot whose strings and counts fit their 16-bit
    fields and whose body fits the 32-bit length is encoded inside its vector and
    decoded back exactly: nodes, endpoints, QoS, birth times and sequence number. *)
Theorem announce_roundtrip (s : ParticipantSnapshot) (seq : Z) (extra : list Z) :
  snapshot_ok s -> fits 64 seq -> len (announce_body s seq) < 2 ^ 32 ->
  (f ← encode_announce s seq; decode_announce (f ++ extra)) = Done (s, seq).
Proof.
  intros Hs Hseq Hl. rewrite encode_announce_bytes by done. by apply decode_announce_bytes.
Qed.

Lemma announce_roundtrip_witness :
  (f ← encode_announce test_snapshot 17; decode_announce (f ++ [1; 2])) = Done (test_snapshot, 17).
Proof.
  apply announce_roundtrip; [exact test_snapshot_ok|ulia|vm_compute; reflexivity].
Defined.

(** Whatever bytes arrive, the ANNOUNCE decoder never reads outside the buffer,
    and a snapshot it accepts is well formed (16-byte GUIDs, bounded strings and
    counts), so it can be announced again. *)
Theorem announce_memory_safe (buf : list Z) :
  bytes_ok buf ->
  decode_announce buf <> UB /\
  forall s seq, decode_announce buf = Done (s, seq) -> snapshot_ok s /\ fits 64 seq.
Proof.
  intros Hok. pose proof (decode_announce_safe buf Hok) as H. split.
  - by eapply safe_not_UB.
  - intros s seq E. by apply (safe_Done _ _ _ H) in E.
Qed.

Lemma announce_memory_safe_witness :
  decode_announce [77; 68; 68; 83] <> UB /\
  forall s seq, decode_announce [77; 68; 68; 83] = Done (s, seq) -> snapshot_ok s /\ fits 64 seq.
Proof.
  apply announce_memory_safe. repeat (apply Forall_cons; split; [ulia|]). constructor.
Defined.
End DiscoverySpec.
