(* ===== verification/Wire.v ===== *)
(** * Frames are bytes

    Every encoder turns well-typed fields into a string of bytes.  The types are those of
    the C++ declarations: byte strings, arrays of 16 bytes, machine integers. *)

From S2P Require Import Prelude Memory StdMap Guid Qos Frame Fragment Discovery.

Lemma store_bytes_ok buf off bs buf' :
  store buf off bs = Done buf' -> bytes_ok buf -> bytes_ok bs -> bytes_ok buf'.
Proof.
  intros Hs Hb Hbs. unfold store in Hs. case_decide; [|done]. injection Hs as <-.
  apply Forall_app. split; [by apply Forall_take|]. apply Forall_app. split; [done|by apply Forall_drop].
Qed.

Lemma zeros_bytes_ok n : bytes_ok (zeros n).
Proof. apply Forall_replicate. ulia. Qed.

(** Peel the stores of an encoder off, last to first. *)
Ltac chase_bytes :=
  repeat match goal with
  | H : (_ ≫= _) = Done _ |- _ => apply bind_Done_inv in H as (? & ? & H)
  end;
  repeat match goal with
  | H : store _ _ _ = Done ?o |- bytes_ok ?o =>
      apply (store_bytes_ok _ _ _ _ H); [clear H|try (apply put_u16_bytes_ok || apply put_u32_bytes_ok || apply put_u64_bytes_ok)]
  end.

Lemma encode_header_bytes_ok out t flags n out' :
  encode_header out t flags n = Done out' -> fits 8 (frame_type_to_u8 t) -> bytes_ok out -> bytes_ok out'.
Proof.
  unfold encode_header. intros E Ht Ho. chase_bytes; try done.
  all: try (by apply bytes_ok_check). by apply Forall_singleton.
Qed.

(** The frame built by an encoder from bytes is bytes. *)
Ltac solve_bytes :=
  chase_bytes; try done;
  try match goal with
  | H : encode_header _ _ _ _ = Done ?o |- bytes_ok ?o =>
      apply (encode_header_bytes_ok _ _ _ _ _ H); [simpl; ulia|apply zeros_bytes_ok]
  end.

Lemma encode_acknack_bytes_ok r w base bitmap f :
  guid_ok r -> guid_ok w -> encode_acknack r w base bitmap = Done f -> bytes_ok f.
Proof. intros [_ Hr] [_ Hw]. unfold encode_acknack. intros E. solve_bytes. Qed.

Lemma encode_heartbeat_bytes_ok w first last f :
  guid_ok w -> encode_heartbeat w first last = Done f -> bytes_ok f.
Proof. intros [_ Hw]. unfold encode_heartbeat. intros E. solve_bytes. Qed.

Lemma encode_gap_bytes_ok w r start stop f :
  guid_ok w -> guid_ok r -> encode_gap w r start stop = Done f -> bytes_ok f.
Proof. intros [_ Hw] [_ Hr]. unfold encode_gap. intros E. solve_bytes. Qed.

(** The payload, when there is one, is copied behind the fixed fields. *)
Lemma payload_bytes_ok out off p n out' :
  (if 0 <? n then bs ← load p 0 n; store out off bs else Done out) = Done out' ->
  bytes_ok out -> bytes_ok p -> bytes_ok out'.
Proof.
  case_if; [|by intros [= <-]]. intros Es Ho Hp. apply bind_Done_inv in Es as (bs & Hl & Hs).
  eapply store_bytes_ok; [exact Hs|done|]. by eapply load_bytes_ok.
Qed.

Lemma encode_data_bytes_ok w seq pub p n flags f :
  guid_ok w -> bytes_ok p -> encode_data w seq pub (Some p) n flags None = Done f -> bytes_ok f.
Proof.
  intros [_ Hw] Hp. unfold encode_data. cbn [mbind res_bind]. cbv zeta. intros E.
  do 6 (apply bind_Done_inv in E as (? & ? & E)). cbn in E. injection E as ->.
  eapply payload_bytes_ok; [done| |done]. solve_bytes.
Qed.

Lemma encode_data_frag_bytes_ok w seq pub total off p n flags f :
  guid_ok w -> bytes_ok p -> encode_data_frag w seq pub total off (Some p) n flags None = Done f -> bytes_ok f.
Proof.
  intros [_ Hw] Hp. unfold encode_data_frag. cbn [mbind res_bind]. cbv zeta. intros E.
  do 8 (apply bind_Done_inv in E as (? & ? & E)). cbn in E. injection E as ->.
  eapply payload_bytes_ok; [done| |done]. solve_bytes.
Qed.

Lemma fragment_bytes_ok w seq pub p n max_p flags fs :
  guid_ok w -> bytes_ok p -> fragment w seq pub (Some p) n max_p flags = Done fs -> Forall bytes_ok fs.
Proof.
  intros Hw Hp. unfold fragment. case_if; [by intros [= <-]|]. case_if.
  { intros Ed. apply bind_Done_inv in Ed as (f & Ef & [= <-]). apply Forall_singleton. by eapply encode_data_bytes_ok. }
  case_if; [by intros [= <-]|]. cbn [default]. set (cap := u32 _).
  assert (Hloop : forall fuel off acc, Forall bytes_ok acc ->
    fragment_loop fuel w seq pub p n cap flags off acc = Done fs -> Forall bytes_ok fs).
  { induction fuel as [|fuel IH]; intros off acc Hacc; cbn [fragment_loop]; [done|].
    case_if; [|by intros [= <-]]. intros Ed. apply bind_Done_inv in Ed as (f & Ef & Ed). revert Ed. apply IH.
    apply Forall_app. split; [done|]. apply Forall_singleton. eapply encode_data_frag_bytes_ok; [done| |exact Ef].
    by apply Forall_drop. }
  by apply Hloop.
Qed.

(** ** Announcements *)

(** What the types of a snapshot say; lengths are not bounded. *)
Definition node_typed (n : NodeInfo) : Prop := bytes_ok (node_ns n) /\ bytes_ok (node_name n).
Definition names_typed (topic type : list Z) (q : QosProfile) : Prop := bytes_ok topic /\ bytes_ok type /\ qos_ok q.
Definition endpoint_typed (e : EndpointRecord) : Prop :=
  guid_ok (ep_guid e) /\ kind_ok (ep_kind e) /\ names_typed (ep_topic e) (ep_type_name e) (ep_qos e) /\
  fits 64 (ep_birth_us e).
Definition snapshot_typed (s : ParticipantSnapshot) : Prop :=
  guid_ok (participant_guid s) /\ Forall node_typed (snap_nodes s) /\ Forall endpoint_typed (snap_endpoints s).

Lemma snapshot_ok_typed s : snapshot_ok s -> snapshot_typed s.
Proof.
  intros [Hg Hn _ He _]. split_and!; [done|..].
  - eapply Forall_impl; [exact Hn|]. intros x [[_ ?] [_ ?]]. by split.
  - eapply Forall_impl; [exact He|]. by intros e [? ? [_ ?] [_ ?] ? ?].
Qed.

Lemma bytes_ok_app a b : bytes_ok a -> bytes_ok b -> bytes_ok (a ++ b).
Proof. intros. by apply Forall_app. Qed.

Ltac split_bytes := repeat match goal with |- bytes_ok (_ ++ _) => apply bytes_ok_app end.

Lemma concat_bytes_ok {A} (f : A -> list Z) l : Forall (fun a => bytes_ok (f a)) l -> bytes_ok (concat (f <$> l)).
Proof. induction 1; simpl; [constructor|]. by apply Forall_app. Qed.

Lemma put_string_bytes_ok s : bytes_ok s -> bytes_ok (put_string s).
Proof. intros Hb. apply Forall_app. split; [apply put_u16_bytes_ok|done]. Qed.

Lemma push_u64_bytes_ok v : bytes_ok (push_u64 v).
Proof. unfold push_u64, bytes_ok. simpl. repeat constructor; apply fits_u8. Qed.

(** Whatever the lengths, an announcement is bytes. *)
Lemma encode_announce_bytes_ok s n f : snapshot_typed s -> encode_announce s n = Done f -> bytes_ok f.
Proof.
  intros (Hg & Hn & He). unfold encode_announce. rewrite encode_endpoints_eq. cbn [mbind res_bind].
  set (body := _ ++ concat _). intros E. apply bind_Done_inv in E as (o & Eo & Es).
  eapply store_bytes_ok; [exact Es| |].
  { eapply encode_header_bytes_ok; [exact Eo|simpl; ulia|apply zeros_bytes_ok]. }
  subst body. split_bytes; auto using push_u64_bytes_ok, put_u16_bytes_ok; [apply Hg|..].
  - apply concat_bytes_ok. eapply Forall_impl; [exact Hn|]. intros x [? ?].
    apply bytes_ok_app; auto using put_string_bytes_ok.
  - apply concat_bytes_ok. eapply Forall_impl; [exact He|]. intros e (Heg & Hk & (Ht & Hty & Hq) & _).
    unfold endpoint_wire, endpoint_bytes. split_bytes;
      auto using push_u64_bytes_ok, put_string_bytes_ok, qos_bytes_ok; [apply Heg|].
    constructor; [apply Hk|constructor].
Qed.

Lemma announce_bytes_ok s n :
  snapshot_ok s -> len (announce_body s n) < 2 ^ 32 -> bytes_ok (announce_bytes s n).
Proof.
  intros Hs Hl. eapply encode_announce_bytes_ok; [by apply snapshot_ok_typed|]. by apply encode_announce_bytes.
Qed.
