(* ===== verification/Participant.v ===== *)
(** * The participant (class [ParticipantImpl] of src/participant.cpp)

    The tables a participant keeps and its operations, as computations over a world
    that also holds the transports, the clocks and the callbacks fired.  Writers and
    readers are identified by their addresses, as in the code; a fresh address is an
    argument of the operation that allocates. *)

From S2P Require Import Prelude Memory StdMap Guid Qos Frame Fragment Reassembler ReaderImpl WriterImpl Discovery.

(** ** Peers *)

Abbreviation PeerId := Z (only parsing).

(** High 8 bits: index of the transport; low 56 bits: the backend's id. *)
Definition make_peer_id (transport_index backend_id : Z) : PeerId :=
  Z.lor (u64 (Z.shiftl transport_index 56)) (Z.land backend_id (Z.ones 56)).
Definition peer_transport_index (peer : PeerId) : Z := Z.shiftr peer 56.
Definition peer_backend_id (peer : PeerId) : Z := Z.land peer (Z.ones 56).

(** ** Transports

    What a participant uses of a started [Transport]: handing over a frame, the
    largest frame a peer accepts, and stopping it. *)

Class Transport (T : Type) := {
  transport_send : T -> PeerId -> list Z -> T * bool;
  transport_max_payload : T -> PeerId -> Z;
  transport_stop : T -> T;
}.

(** ** State *)

Record RemoteParticipant := mkRemote {
  rp_peer : PeerId;
  rp_announce_seq : Z;
  rp_snap : ParticipantSnapshot;
  rp_last_announce_ms : Z;
}.

Record ParticipantImpl := mkParticipant {
  p_prefix : list Z;
  p_guid : Guid;
  p_entity_serial : Z;
  p_writers : std_map Z WriterImpl;
  p_readers : std_map Z ReaderImpl;
  p_nodes : list NodeInfo;
  p_peers : list PeerId;
  p_remote : std_map Guid RemoteParticipant;
  p_writer_last_seen : std_map Guid Z;
  p_reassemblers : std_map PeerId Reassembler;
  p_has_graph_callback : bool;
  p_announce_seq : Z;
  p_running : bool;
}.

(** The constructor, given the generated prefix. *)
Definition new_participant (prefix : list Z) : ParticipantImpl :=
  mkParticipant prefix (make_guid prefix PARTICIPANT 0) 0 [] [] [] [] [] [] [] false 0 false.

Section setters.
Context (p : ParticipantImpl).

Definition set_entities (serial : Z) (ws : std_map Z WriterImpl) (rs : std_map Z ReaderImpl) : ParticipantImpl :=
  mkParticipant (p_prefix p) (p_guid p) serial ws rs (p_nodes p) (p_peers p) (p_remote p)
    (p_writer_last_seen p) (p_reassemblers p) (p_has_graph_callback p) (p_announce_seq p) (p_running p).
Definition set_writers (ws : std_map Z WriterImpl) : ParticipantImpl :=
  set_entities (p_entity_serial p) ws (p_readers p).
Definition set_readers (rs : std_map Z ReaderImpl) : ParticipantImpl :=
  set_entities (p_entity_serial p) (p_writers p) rs.
Definition set_nodes (ns : list NodeInfo) : ParticipantImpl :=
  mkParticipant (p_prefix p) (p_guid p) (p_entity_serial p) (p_writers p) (p_readers p) ns (p_peers p)
    (p_remote p) (p_writer_last_seen p) (p_reassemblers p) (p_has_graph_callback p) (p_announce_seq p) (p_running p).
Definition set_net (peers : list PeerId) (remote : std_map Guid RemoteParticipant)
    (reasm : std_map PeerId Reassembler) : ParticipantImpl :=
  mkParticipant (p_prefix p) (p_guid p) (p_entity_serial p) (p_writers p) (p_readers p) (p_nodes p) peers
    remote (p_writer_last_seen p) reasm (p_has_graph_callback p) (p_announce_seq p) (p_running p).
Definition set_peers (peers : list PeerId) : ParticipantImpl :=
  set_net peers (p_remote p) (p_reassemblers p).
Definition set_remote (remote : std_map Guid RemoteParticipant) : ParticipantImpl :=
  set_net (p_peers p) remote (p_reassemblers p).
Definition set_reassemblers (reasm : std_map PeerId Reassembler) : ParticipantImpl :=
  set_net (p_peers p) (p_remote p) reasm.
Definition set_last_seen (seen : std_map Guid Z) : ParticipantImpl :=
  mkParticipant (p_prefix p) (p_guid p) (p_entity_serial p) (p_writers p) (p_readers p) (p_nodes p)
    (p_peers p) (p_remote p) seen (p_reassemblers p) (p_has_graph_callback p) (p_announce_seq p) (p_running p).
Definition set_announce_seq (seq : Z) : ParticipantImpl :=
  mkParticipant (p_prefix p) (p_guid p) (p_entity_serial p) (p_writers p) (p_readers p) (p_nodes p)
    (p_peers p) (p_remote p) (p_writer_last_seen p) (p_reassemblers p) (p_has_graph_callback p) seq (p_running p).
Definition set_graph_callback (has : bool) : ParticipantImpl :=
  mkParticipant (p_prefix p) (p_guid p) (p_entity_serial p) (p_writers p) (p_readers p) (p_nodes p)
    (p_peers p) (p_remote p) (p_writer_last_seen p) (p_reassemblers p) has (p_announce_seq p) (p_running p).
Definition set_running (b : bool) : ParticipantImpl :=
  mkParticipant (p_prefix p) (p_guid p) (p_entity_serial p) (p_writers p) (p_readers p) (p_nodes p)
    (p_peers p) (p_remote p) (p_writer_last_seen p) (p_reassemblers p) (p_has_graph_callback p) (p_announce_seq p) b.
End setters.

(** ** Matching, on the tables *)

Definition endpoints_match (reader_topic reader_type : list Z) (reader_qos : QosProfile)
    (writer_ep : EndpointRecord) : bool :=
  bool_decide (ep_topic writer_ep = reader_topic) && bool_decide (ep_type_name writer_ep = reader_type) &&
  qos_accepted_by_reader reader_qos (ep_qos writer_ep).

(** The remote endpoints, in table order. *)
Definition remote_endpoints (p : ParticipantImpl) : list EndpointRecord :=
  concat ((fun kv => snap_endpoints (rp_snap kv.2)) <$> p_remote p).

(** A remote reader this writer sends to. *)
Definition reader_wants (w : WriterImpl) (ep : EndpointRecord) : bool :=
  bool_decide (ep_kind ep = READER) &&
  (bool_decide (ep_topic ep = w_topic w) && bool_decide (ep_type_name ep = w_type w) &&
   qos_accepted_by_reader (ep_qos ep) (w_qos w)).

Definition send_targets_locked (p : ParticipantImpl) (w : WriterImpl) : list PeerId :=
  foldl (fun out kv =>
    if existsb (reader_wants w) (snap_endpoints (rp_snap kv.2)) then set_insert (rp_peer kv.2) out else out)
    [] (p_remote p).

(** Local readers that take samples straight from this writer. *)
Definition local_readers (p : ParticipantImpl) (w : WriterImpl) : list Z :=
  (filter (fun kv : Z * ReaderImpl =>
     r_ignore_local kv.2 = false /\
     (bool_decide (r_topic kv.2 = w_topic w) && bool_decide (r_type kv.2 = w_type w) &&
      qos_accepted_by_reader (r_qos kv.2) (w_qos w)) = true) (p_readers p)).*1.

Definition find_writer_locked (p : ParticipantImpl) (g : Guid) : option Z :=
  fst <$> find (fun kv => bool_decide (w_guid kv.2 = g)) (p_writers p).
Definition find_reader_locked (p : ParticipantImpl) (g : Guid) : option Z :=
  fst <$> find (fun kv => bool_decide (r_guid kv.2 = g)) (p_readers p).
Definition find_remote_endpoint_locked (p : ParticipantImpl) (g : Guid) : option EndpointRecord :=
  find (fun ep => bool_decide (ep_guid ep = g)) (remote_endpoints p).

Definition count_if {A} (f : A -> bool) (l : list A) : Z := len (filter (fun a => f a = true) l).

(** The two counts of [recompute_matches]. *)
Definition writer_matches (p : ParticipantImpl) (w : WriterImpl) : Z :=
  count_if (fun ep => bool_decide (ep_kind ep = READER) && bool_decide (ep_topic ep = w_topic w) &&
    bool_decide (ep_type_name ep = w_type w) && qos_compatible (ep_qos ep) (w_qos w)) (remote_endpoints p) +
  count_if (fun kv : Z * ReaderImpl => bool_decide (r_topic kv.2 = w_topic w) && bool_decide (r_type kv.2 = w_type w) &&
    qos_compatible (r_qos kv.2) (w_qos w)) (p_readers p).
Definition reader_matches (p : ParticipantImpl) (r : ReaderImpl) : Z :=
  count_if (fun ep => bool_decide (ep_kind ep = WRITER) &&
    endpoints_match (r_topic r) (r_type r) (r_qos r) ep) (remote_endpoints p) +
  count_if (fun kv : Z * WriterImpl => bool_decide (w_topic kv.2 = r_topic r) && bool_decide (w_type kv.2 = r_type r) &&
    qos_accepted_by_reader (r_qos r) (w_qos kv.2)) (p_writers p).

Definition recompute_matches (p : ParticipantImpl) : ParticipantImpl :=
  let p1 := set_writers p ((fun kv => (kv.1, set_writer_matched (writer_matches p kv.2) kv.2)) <$> p_writers p) in
  set_readers p1 ((fun kv => (kv.1, set_reader_matched (reader_matches p1 kv.2) kv.2)) <$> p_readers p1).

Definition snapshot_locked (p : ParticipantImpl) : ParticipantSnapshot :=
  mkSnapshot (p_guid p) (p_nodes p)
    (((fun kv => mkEndpoint (w_guid kv.2) WRITER (w_topic kv.2) (w_type kv.2) (w_qos kv.2) (w_birth_us kv.2)) <$> p_writers p) ++
     ((fun kv => mkEndpoint (r_guid kv.2) READER (r_topic kv.2) (r_type kv.2) (r_qos kv.2) (r_birth_us kv.2)) <$> p_readers p)).

(** ** Queries *)

Definition remote_participants (p : ParticipantImpl) : list ParticipantSnapshot :=
  (fun kv => rp_snap kv.2) <$> p_remote p.
Definition remote_writer_last_seen_ms (p : ParticipantImpl) (writer : Guid) : option Z :=
  map_find writer (p_writer_last_seen p).
Definition remote_participant_last_seen_ms (p : ParticipantImpl) (g : Guid) : option Z :=
  match map_find g (p_remote p) with
  | None => None
  | Some rp => if rp_last_announce_ms rp =? 0 then None else Some (rp_last_announce_ms rp)
  end.

(** Node names: no duplicates are added. *)
Definition add_node (p : ParticipantImpl) (ns name : list Z) : ParticipantImpl :=
  let n := mkNode ns name in
  if bool_decide (n ∈ p_nodes p) then p else set_nodes p (p_nodes p ++ [n]).
Definition remove_node (p : ParticipantImpl) (ns name : list Z) : ParticipantImpl :=
  set_nodes p (filter (fun n => n <> mkNode ns name) (p_nodes p)).

(** ** The world and its actions *)

(** Callbacks handed to the application. *)
Inductive Event :=
| GraphChanged
| DataAvailable (reader : Z).

#[global] Instance event_eq_dec : EqDecision Event.
Proof. solve_decision. Defined.

(** The n-th reading of a clock is its value at [n]: [w_sys] in microseconds,
    [w_steady] in nanoseconds; [w_tick] counts the readings. *)
Record World (T : Type) := mkWorld {
  w_self : ParticipantImpl;
  w_transports : list T;
  w_hook : option (list Z -> bool);
  w_sys : nat -> Z;
  w_steady : nat -> Z;
  w_tick : nat;
  w_events : list Event;
}.
Arguments mkWorld {T} _ _ _ _ _ _ _.
Arguments w_self {T} _.
Arguments w_transports {T} _.
Arguments w_hook {T} _.
Arguments w_sys {T} _.
Arguments w_steady {T} _.
Arguments w_tick {T} _.
Arguments w_events {T} _.

(** An action either succeeds with a new world or leaves a buffer ([UB]). *)
Definition act (T A : Type) : Type := World T -> res (A * World T).

#[global] Instance act_ret T : MRet (act T) := fun A a w => Done (a, w).
#[global] Instance act_bind T : MBind (act T) := fun A B k m w =>
  match m w with Done (a, w') => k a w' | Fail => Fail | UB => UB end.

Section actions.
Context {T : Type} `{Transport T}.

Definition with_self (p : ParticipantImpl) (w : World T) : World T :=
  mkWorld p (w_transports w) (w_hook w) (w_sys w) (w_steady w) (w_tick w) (w_events w).

Definition get_self : act T ParticipantImpl := fun w => Done (w_self w, w).
Definition modify (f : ParticipantImpl -> ParticipantImpl) : act T unit :=
  fun w => Done (tt, with_self (f (w_self w)) w).
Definition fire (e : Event) : act T unit := fun w =>
  Done (tt, mkWorld (w_self w) (w_transports w) (w_hook w) (w_sys w) (w_steady w) (w_tick w)
              (w_events w ++ [e])).
Definition tick {A} (f : World T -> A) : act T A := fun w =>
  Done (f w, mkWorld (w_self w) (w_transports w) (w_hook w) (w_sys w) (w_steady w) (S (w_tick w))
               (w_events w)).
Definition system_now_us : act T Z := tick (fun w => w_sys w (w_tick w)).
Definition system_now_ms : act T Z := tick (fun w => w_sys w (w_tick w) / 1000).
Definition steady_now : act T Z := tick (fun w => w_steady w (w_tick w)).
Definition steady_now_ms : act T Z := tick (fun w => w_steady w (w_tick w) / 1000000).

(** An encoder, which always returns a frame; a decoder, which may refuse. *)
Definition encoded {A} (r : res A) : act T A := fun w => a ← r; Done (a, w).
Definition decoded {A} (r : res A) : act T (option A) := fun w =>
  match r with Done a => Done (Some a, w) | Fail => Done (None, w) | UB => UB end.

Fixpoint for_each {A} (l : list A) (f : A -> act T unit) : act T unit :=
  match l with
  | [] => mret tt
  | a :: l => _ ← f a; for_each l f
  end.

(** *** Sending *)

Definition send_frame (peer : PeerId) (frame : list Z) : act T bool := fun w =>
  if match w_hook w with Some hook => hook frame | None => false end then Done (true, w)
  else
    let idx := Z.to_nat (peer_transport_index peer) in
    match w_transports w !! idx with
    | None => Done (false, w)
    | Some t =>
        let (t', ok) := transport_send t (peer_backend_id peer) frame in
        Done (ok, mkWorld (w_self w) (<[idx := t']> (w_transports w)) (w_hook w) (w_sys w) (w_steady w)
                    (w_tick w) (w_events w))
    end.

Definition max_payload (peer : PeerId) : act T Z := fun w =>
  match w_transports w !! Z.to_nat (peer_transport_index peer) with
  | None => Done (0, w)
  | Some t => Done (transport_max_payload t (peer_backend_id peer), w)
  end.

(** [ok = send_frame(...) && ok] over the frames of a sample. *)
Fixpoint send_frames (peer : PeerId) (frames : list (list Z)) (ok : bool) : act T bool :=
  match frames with
  | [] => mret ok
  | f :: frames => sent ← send_frame peer f; send_frames peer frames (sent && ok)
  end.

Definition send_sample_to (peer : PeerId) (writer_guid : Guid) (seq pub_time_ms : Z) (data : list Z)
    (flags : Z) : act T bool :=
  max_p ← max_payload peer;
  if max_p =? 0 then mret false
  else
    frames ← encoded (fragment writer_guid seq pub_time_ms (Some data) (u32 (len data)) max_p flags);
    ok ← send_frames peer frames true;
    mret (ok && negb (bool_decide (frames = []))).

Definition send_announce (peer : PeerId) : act T unit :=
  p ← get_self;
  frame ← encoded (encode_announce (snapshot_locked p) (p_announce_seq p));
  _ ← send_frame peer frame; mret tt.

Definition broadcast_announce : act T unit :=
  p ← get_self;
  frame ← encoded (encode_announce (snapshot_locked p) (p_announce_seq p));
  for_each (p_peers p) (fun peer => _ ← send_frame peer frame; mret tt).

(** The heartbeats due: one per reliable writer that holds something. *)
Definition heartbeats (p : ParticipantImpl) : list (Guid * Z * Z) :=
  omap (fun kv : Z * WriterImpl =>
    if negb (bool_decide (reliability (w_qos kv.2) = RELIABLE)) then None
    else match w_history kv.2 with
         | [] => None
         | e :: _ => Some (w_guid kv.2, cs_seq e, w_seq kv.2)
         end) (p_writers p).

Definition send_heartbeats : act T unit :=
  p ← get_self;
  for_each (p_peers p) (fun peer =>
    for_each (heartbeats p) (fun hb =>
      frame ← encoded (encode_heartbeat hb.1.1 hb.1.2 hb.2);
      _ ← send_frame peer frame; mret tt)).

Definition broadcast_writer_heartbeat (writer : Z) : act T unit :=
  p ← get_self;
  match map_find writer (p_writers p) with
  | None => fun _ => UB
  | Some w =>
      let last := w_seq w in
      let first := match w_history w with [] => last | e :: _ => cs_seq e end in
      frame ← encoded (encode_heartbeat (w_guid w) first last);
      for_each (p_peers p) (fun peer => _ ← send_frame peer frame; mret tt)
  end.

Definition assert_liveliness (writer : Z) : act T unit := broadcast_writer_heartbeat writer.

(** *** Callbacks *)

Definition fire_graph_callback : act T unit :=
  p ← get_self; if p_has_graph_callback p then fire GraphChanged else mret tt.

Definition fire_callback (reader : Z) : act T unit :=
  p ← get_self;
  match map_find reader (p_readers p) with
  | None => fun _ => UB
  | Some r => if r_has_callback r then fire (DataAvailable reader) else mret tt
  end.

(** [r->enqueue(...)] on a reader of the table.  The two readings of the clock that
    [enqueue] may need are taken ahead; where it returns before one of them, the next
    reading is the clock's next value, as arbitrary as the one left out. *)
Definition enqueue_at (reader : Z) (writer_guid : Guid) (seq : Z) (data : list Z) (wq : QosProfile)
    (pub_time_ms : Z) : act T EnqueueOut :=
  now1 ← system_now_ms;
  now2 ← system_now_ms;
  p ← get_self;
  match map_find reader (p_readers p) with
  | None => fun _ => UB
  | Some r =>
      let (r', out) := enqueue r now1 now2 writer_guid seq data wq pub_time_ms in
      _ ← modify (fun p => set_readers p (map_set reader r' (p_readers p)));
      mret out
  end.

(** *** Writing *)

Definition reliable_flag (q : QosProfile) : Z :=
  if bool_decide (reliability q = RELIABLE) then kFlagReliable else 0.

Fixpoint send_to_targets (targets : list PeerId) (send : PeerId -> act T bool) (any : bool) : act T bool :=
  match targets with
  | [] => mret any
  | peer :: targets => sent ← send peer; send_to_targets targets send (any || sent)
  end.

Definition write_sample (writer : Z) (data : list Z) : act T bool :=
  pub_time_us ← system_now_us;
  let pub_time_ms := pub_time_us / 1000 in
  now ← system_now_ms;
  p ← get_self;
  match map_find writer (p_writers p) with
  | None => fun _ => UB
  | Some w =>
      match claim_seq w pub_time_us data now with
      | (_, None) => mret false
      | (w', Some seq) =>
          _ ← modify (fun p => set_writers p (map_set writer w' (p_writers p)));
          _ ← for_each (local_readers p w) (fun r =>
                out ← enqueue_at r (w_guid w) seq data (w_qos w) pub_time_ms;
                if eo_queued out then fire_callback r else mret tt);
          let targets := send_targets_locked p w in
          any ← send_to_targets targets (fun peer =>
                  send_sample_to peer (w_guid w) seq pub_time_ms data (reliable_flag (w_qos w))) false;
          mret (any || bool_decide (targets = []))
      end
  end.

(** [WriterImpl::write]: a null pointer with a length is refused. *)
Definition writer_write (writer : Z) (data : option (list Z)) (length : Z) : act T bool :=
  match data with
  | None => if 0 <? length then mret false else write_sample writer []
  | Some bytes => bs ← encoded (load bytes 0 length); write_sample writer bs
  end.

(** *** Discovery *)

Definition handle_peer_up (peer : PeerId) : act T unit :=
  _ ← modify (fun p => set_peers p (set_insert peer (p_peers p)));
  send_announce peer.

Definition handle_peer_down (peer : PeerId) : act T unit :=
  p ← get_self;
  let gone := existsb (fun kv => rp_peer kv.2 =? peer) (p_remote p) in
  _ ← modify (fun p => set_net p (set_erase peer (p_peers p))
                 (map_keep (fun _ rp => negb (rp_peer rp =? peer)) (p_remote p))
                 (map_erase peer (p_reassemblers p)));
  if gone then _ ← modify recompute_matches; fire_graph_callback else mret tt.

(** Readers of [snap] that the participant's previous snapshot did not list. *)
Definition new_reader_endpoints (old : option RemoteParticipant) (snap : ParticipantSnapshot)
    : list EndpointRecord :=
  filter (fun ep => ep_kind ep = READER /\
    match old with
    | None => true
    | Some rp => negb (existsb (fun o => bool_decide (ep_guid o = ep_guid ep)) (snap_endpoints (rp_snap rp)))
    end = true) (snap_endpoints snap).

(** The samples [replay_history_to_peer] collects under the lock. *)
Definition replay_todo (p : ParticipantImpl) (new_readers : list EndpointRecord) (now : Z)
    : list (CachedSample * Guid * Z) :=
  concat ((fun ep =>
    if negb (bool_decide (durability (ep_qos ep) = TRANSIENT_LOCAL)) then []
    else concat ((fun kv : Z * WriterImpl =>
      let w := kv.2 in
      if negb (bool_decide (durability (w_qos w) = TRANSIENT_LOCAL)) ||
         negb (bool_decide (ep_topic ep = w_topic w)) || negb (bool_decide (ep_type_name ep = w_type w)) ||
         negb (qos_accepted_by_reader (ep_qos ep) (w_qos w)) then []
      else
        (fun e => (e, w_guid w, reliable_flag (w_qos w))) <$>
        filter (fun e => lifespan_expired (lifespan_ms (w_qos w)) (cs_pub_time_ms e) now = false)
          (w_history w)) <$> p_writers p)) <$> new_readers).

Definition replay_history_to_peer (peer : PeerId) (new_readers : list EndpointRecord) : act T unit :=
  if bool_decide (new_readers = []) then mret tt
  else
    now ← system_now_ms;
    p ← get_self;
    for_each (replay_todo p new_readers now) (fun t =>
      _ ← send_sample_to peer t.1.2 (cs_seq t.1.1) (cs_pub_time_ms t.1.1) (cs_data t.1.1) t.2;
      mret tt).

Definition handle_announce (peer : PeerId) (frame : list Z) : act T unit :=
  d ← decoded (decode_announce frame);
  match d with
  | None => mret tt
  | Some (snap, seq) =>
      p ← get_self;
      let key := participant_guid snap in
      let old := map_find key (p_remote p) in
      stale ← match old with
              | None => mret false
              | Some rp =>
                  now ← steady_now_ms;
                  _ ← modify (fun p => set_remote p (map_set key
                        (mkRemote (rp_peer rp) (rp_announce_seq rp) (rp_snap rp) now) (p_remote p)));
                  mret (seq <=? rp_announce_seq rp)
              end;
      if stale : bool then mret tt
      else
        let changed :=
          match old with
          | None => true
          | Some rp => negb (bool_decide (snap_nodes (rp_snap rp) = snap_nodes snap) &&
                             endpoints_eqb (snap_endpoints (rp_snap rp)) (snap_endpoints snap))
          end in
        let new_readers := new_reader_endpoints old snap in
        now ← steady_now_ms;
        _ ← modify (fun p => set_remote p (map_set key (mkRemote peer seq snap now) (p_remote p)));
        _ ← replay_history_to_peer peer new_readers;
        if changed then _ ← modify recompute_matches; fire_graph_callback else mret tt
  end.

(** *** Data *)

Definition deliver_sample (peer : PeerId) (writer_guid : Guid) (seq pub_time_ms : Z) (data : list Z)
    : act T unit :=
  now ← steady_now_ms;
  _ ← modify (fun p => set_last_seen p (map_set writer_guid now (p_writer_last_seen p)));
  p ← get_self;
  match find_remote_endpoint_locked p writer_guid with
  | None => mret tt
  | Some writer_ep =>
      let matched := (filter (fun kv : Z * ReaderImpl =>
        endpoints_match (r_topic kv.2) (r_type kv.2) (r_qos kv.2) writer_ep = true) (p_readers p)) in
      outs ← mapM (fun kv : Z * ReaderImpl =>
               out ← enqueue_at kv.1 writer_guid seq data (ep_qos writer_ep) pub_time_ms;
               mret (kv.1, r_guid kv.2, out)) matched;
      _ ← for_each outs (fun o =>
            if eo_gap o.2 then
              frame ← encoded (encode_acknack o.1.2 writer_guid (eo_base o.2) (eo_bitmap o.2));
              _ ← send_frame peer frame; mret tt
            else mret tt);
      for_each outs (fun o => if eo_queued o.2 then fire_callback o.1.1 else mret tt)
  end.

Definition handle_acknack (peer : PeerId) (frame : list Z) : act T unit :=
  d ← decoded (decode_acknack frame);
  match d with
  | None => mret tt
  | Some body =>
      p ← get_self;
      match find_writer_locked p (ack_writer body), find_remote_endpoint_locked p (ack_reader body) with
      | Some ptr, Some reader_ep =>
          match map_find ptr (p_writers p) with
          | None => fun _ => UB
          | Some w =>
              let clamp := bool_decide (durability (ep_qos reader_ep) = VOLATILE) in
              let (resend, unavail_end) :=
                acknack_scan w clamp (ep_birth_us reader_ep) (ack_base_seq body) (ack_bitmap body) in
              _ ← for_each resend (fun e =>
                    _ ← send_sample_to peer (ack_writer body) (cs_seq e) (cs_pub_time_ms e) (cs_data e)
                          (reliable_flag (w_qos w));
                    mret tt);
              if 0 <? unavail_end then
                gap ← encoded (encode_gap (ack_writer body) (ack_reader body) (ack_base_seq body) unavail_end);
                _ ← send_frame peer gap; mret tt
              else mret tt
          end
      | _, _ => mret tt
      end
  end.

Definition handle_gap (peer : PeerId) (frame : list Z) : act T unit :=
  d ← decoded (decode_gap frame);
  match d with
  | None => mret tt
  | Some body =>
      if gap_end body <? gap_start body then mret tt
      else modify (fun p =>
        match find_reader_locked p (gap_reader body) with
        | None => p
        | Some ptr =>
            set_readers p (map_adjust (fun r => apply_gap r (gap_writer body) (gap_start body) (gap_end body))
              ptr (p_readers p))
        end)
  end.

(** The ACKNACKs a heartbeat triggers: one per matched reliable reader that is behind. *)
Definition nacks_due (p : ParticipantImpl) (writer : Guid) (writer_ep : EndpointRecord) (last : Z)
    : list (Guid * Z * Z) :=
  omap (fun kv : Z * ReaderImpl =>
    let r := kv.2 in
    if negb (bool_decide (reliability (r_qos r) = RELIABLE)) then None
    else if negb (endpoints_match (r_topic r) (r_type r) (r_qos r) writer_ep) then None
    else let (base, bitmap) := nack_state r writer in
         if base <=? last then Some (r_guid r, base, bitmap) else None) (p_readers p).

Definition handle_heartbeat (peer : PeerId) (frame : list Z) : act T unit :=
  d ← decoded (decode_heartbeat frame);
  match d with
  | None => mret tt
  | Some body =>
      now ← steady_now_ms;
      _ ← modify (fun p => set_last_seen p (map_set (hb_writer body) now (p_writer_last_seen p)));
      p ← get_self;
      match find_remote_endpoint_locked p (hb_writer body) with
      | None => mret tt
      | Some writer_ep =>
          for_each (nacks_due p (hb_writer body) writer_ep (hb_last_seq body)) (fun nk =>
            nack ← encoded (encode_acknack nk.1.1 (hb_writer body) nk.1.2 nk.2);
            _ ← send_frame peer nack; mret tt)
      end
  end.

(** [reassemblers_[peer].add_fragment(body, full)] *)
Definition reassemble (peer : PeerId) (body : DataFragBody) : act T (option (list Z)) :=
  now1 ← steady_now;
  now2 ← steady_now;
  p ← get_self;
  let r := default new_reassembler (map_find peer (p_reassemblers p)) in
  ro ← encoded (add_fragment_body r now1 now2 body);
  _ ← modify (fun p => set_reassemblers p (map_set peer (fst ro) (p_reassemblers p)));
  mret (snd ro).

Definition handle_bytes (peer : PeerId) (frame : list Z) : act T unit :=
  h ← decoded (decode_header frame);
  match h with
  | None => mret tt
  | Some hdr =>
      match hdr_type hdr with
      | ANNOUNCE => handle_announce peer frame
      | DATA =>
          d ← decoded (decode_data frame);
          match d with
          | None => mret tt
          | Some b => deliver_sample peer (data_writer b) (data_seq b) (data_pub_time_ms b) (data_payload b)
          end
      | DATA_FRAG =>
          d ← decoded (decode_data_frag frame);
          match d with
          | None => mret tt
          | Some b =>
              full ← reassemble peer b;
              match full with
              | None => mret tt
              | Some data => deliver_sample peer (frag_writer b) (frag_seq b) (frag_pub_time_ms b) data
              end
          end
      | ACKNACK => handle_acknack peer frame
      | HEARTBEAT => handle_heartbeat peer frame
      | GAP => handle_gap peer frame
      | OtherFrame _ => mret tt
      end
  end.

(** *** Entities *)

(** [announce_now] wakes a wait whose predicate is [!running_]: nothing follows. *)
Definition announce_now : act T unit := mret tt.

Definition replay_local_history (reader : Z) : act T unit :=
  p ← get_self;
  match map_find reader (p_readers p) with
  | None => fun _ => UB
  | Some r =>
      if negb (bool_decide (durability (r_qos r) = TRANSIENT_LOCAL)) || r_ignore_local r then mret tt
      else
        now ← system_now_ms;
        let todo := concat ((fun kv : Z * WriterImpl =>
          let w := kv.2 in
          if negb (bool_decide (durability (w_qos w) = TRANSIENT_LOCAL)) ||
             negb (bool_decide (w_topic w = r_topic r)) || negb (bool_decide (w_type w = r_type r)) ||
             negb (qos_accepted_by_reader (r_qos r) (w_qos w)) then []
          else (fun e => (w, e)) <$>
               filter (fun e => lifespan_expired (lifespan_ms (w_qos w)) (cs_pub_time_ms e) now = false)
                 (w_history w)) <$> p_writers p) in
        outs ← mapM (fun t : WriterImpl * CachedSample =>
                 enqueue_at reader (w_guid t.1) (cs_seq t.2) (cs_data t.2) (w_qos t.1) (cs_pub_time_ms t.2)) todo;
        if existsb eo_queued outs then fire_callback reader else mret tt
  end.

Definition create_writer (ptr : Z) (topic type : list Z) (q : QosProfile) : act T (option Z) :=
  if negb (qos_valid q) then mret None
  else
    birth ← system_now_us;
    _ ← modify (fun p =>
          let serial := u32 (p_entity_serial p + 1) in
          let w := new_writer (make_guid (p_prefix p) WRITER serial) topic type q birth in
          set_entities p serial (map_emplace ptr w (p_writers p)) (p_readers p));
    _ ← announce_now;
    _ ← modify recompute_matches;
    mret (Some ptr).

Definition create_reader (ptr : Z) (topic type : list Z) (q : QosProfile) (ignore_local : bool)
    : act T (option Z) :=
  if negb (qos_valid q) then mret None
  else
    birth ← system_now_us;
    _ ← modify (fun p =>
          let serial := u32 (p_entity_serial p + 1) in
          let r := ReaderImpl.new_reader (make_guid (p_prefix p) READER serial) topic type q ignore_local birth in
          set_entities p serial (p_writers p) (map_emplace ptr r (p_readers p)));
    _ ← announce_now;
    _ ← modify recompute_matches;
    _ ← replay_local_history ptr;
    mret (Some ptr).

Definition destroy_writer (ptr : Z) : act T unit :=
  _ ← modify (fun p => set_writers p (map_erase ptr (p_writers p)));
  _ ← announce_now;
  modify recompute_matches.

Definition destroy_reader (ptr : Z) : act T unit :=
  _ ← modify (fun p => set_readers p (map_erase ptr (p_readers p)));
  _ ← announce_now;
  modify recompute_matches.

(** *** The announce thread *)

(** The sweep of every reassembler, each with its own reading of the clock. *)
Definition sweep_reassemblers_locked : act T unit :=
  p ← get_self;
  swept ← mapM (fun kv : PeerId * Reassembler =>
            now ← steady_now; mret (kv.1, fst (sweep_expired kv.2 now))) (p_reassemblers p);
  modify (fun p => set_reassemblers p swept).

(** The body of the loop of [announce_loop]. *)
Definition announce_tick : act T unit :=
  _ ← modify (fun p => set_announce_seq p (u64 (p_announce_seq p + 1)));
  _ ← sweep_reassemblers_locked;
  _ ← broadcast_announce;
  send_heartbeats.

(** [n] turns of the loop, while [running_] holds. *)
Fixpoint announce_loop (n : nat) : act T unit :=
  match n with
  | O => mret tt
  | S n => p ← get_self; if p_running p then _ ← announce_tick; announce_loop n else mret tt
  end.

(** A transport that started is kept; its index is its position. *)
Definition start_transport (t : T) (started : bool) : act T unit := fun w =>
  Done (tt, if started
            then mkWorld (w_self w) (w_transports w ++ [t]) (w_hook w) (w_sys w) (w_steady w) (w_tick w) (w_events w)
            else w).

Definition init (udp dsoftbus : option (T * bool)) : act T bool :=
  _ ← match udp with Some (t, ok) => start_transport t ok | None => mret tt end;
  _ ← match dsoftbus with Some (t, ok) => start_transport t ok | None => mret tt end;
  _ ← modify (fun p => set_running p true);
  mret true.

(** [Participant::create]: the constructor and [init]. *)
Definition create (prefix : list Z) (hook : option (list Z -> bool)) (sys steady : nat -> Z)
    (udp dsoftbus : option (T * bool)) : res (option (World T)) :=
  match init udp dsoftbus (mkWorld (new_participant prefix) [] hook sys steady 0 []) with
  | Done (true, w) => Done (Some w)
  | Done (false, _) => Done None
  | Fail => Fail
  | UB => UB
  end.

(** The destructor: the announce thread ends, then every transport stops. *)
Definition destructor : act T unit := fun w =>
  Done (tt, mkWorld (set_running (w_self w) false) (transport_stop <$> w_transports w) (w_hook w) (w_sys w)
              (w_steady w) (w_tick w) (w_events w)).

(** Relays tag a backend's peer with the index of the transport. *)
Definition relay_on_peer_up (index p : Z) : act T unit := handle_peer_up (make_peer_id index p).
Definition relay_on_peer_down (index p : Z) : act T unit := handle_peer_down (make_peer_id index p).
Definition relay_on_bytes (index p : Z) (frame : list Z) : act T unit :=
  handle_bytes (make_peer_id index p) frame.

End actions.
