(* ===== verification/ParticipantFacts.v ===== *)
(** * Reasoning about the participant

    Rules for actions, the invariant of a participant's tables, and that every
    operation terminates without leaving a buffer and keeps the invariant. *)

From S2P Require Import Prelude Memory StdMap Guid Qos Frame Fragment Reassembler ReaderImpl WriterImpl Reliability Discovery Participant.

(** ** Rules *)

Section rules.
Context {T : Type}.

(** [runs P m w]: started in [w], [m] ends without undefined behaviour, with a
    result and a world that satisfy [P]. *)
Definition runs {A} (P : A -> World T -> Prop) (m : act T A) (w : World T) : Prop :=
  match m w with Done (a, w') => P a w' | _ => False end.

Lemma runs_ret {A} (P : A -> World T -> Prop) (a : A) w : P a w -> runs P (mret a) w.
Proof. done. Qed.

Lemma runs_bind {A B} (Q : A -> World T -> Prop) (P : B -> World T -> Prop)
    (m : act T A) (k : A -> act T B) w :
  runs Q m w -> (forall a w', Q a w' -> runs P (k a) w') -> runs P (m ≫= k) w.
Proof.
  unfold runs, mbind, act_bind. destruct (m w) as [[a w']| |]; [|done..].
  intros Hm Hk. by apply Hk.
Qed.

Lemma runs_mono {A} (P Q : A -> World T -> Prop) (m : act T A) w :
  runs P m w -> (forall a w', P a w' -> Q a w') -> runs Q m w.
Proof. unfold runs. destruct (m w) as [[a w']| |]; [|done..]. auto. Qed.

Lemma runs_encoded {A} (P : A -> World T -> Prop) (r : res A) a w :
  r = Done a -> P a w -> runs P (encoded r) w.
Proof. by intros ->. Qed.

Lemma runs_decoded {A} (Q : A -> Prop) (P : option A -> World T -> Prop) (r : res A) w :
  safe Q r -> P None w -> (forall a, Q a -> r = Done a -> P (Some a) w) -> runs P (decoded r) w.
Proof. unfold runs, decoded. destruct r; simpl; auto. Qed.
End rules.

(** ** The invariant *)

Definition cached_ok (e : CachedSample) : Prop :=
  fits 64 (cs_seq e) /\ fits 64 (cs_pub_time_ms e) /\ bytes_ok (cs_data e) /\ 64 + len (cs_data e) < 2 ^ 32.

Record writer_ok (w : WriterImpl) : Prop := {
  wo_guid : guid_ok (w_guid w);
  wo_history : history_ok w;
  wo_cached : Forall cached_ok (w_history w);
}.

Definition peer_reasm_ok (r : Reassembler) : Prop := reasm_ok r /\ map_ok (partials r).

Definition local_reader_ok (r : ReaderImpl) : Prop := guid_ok (r_guid r) /\ reader_ok r.

Record part_ok (p : ParticipantImpl) : Prop := {
  po_prefix : length (p_prefix p) = 12%nat /\ bytes_ok (p_prefix p);
  po_writers_map : map_ok (p_writers p);
  po_readers_map : map_ok (p_readers p);
  po_remote_map : map_ok (p_remote p);
  po_writers ptr w : map_find ptr (p_writers p) = Some w -> writer_ok w;
  po_readers ptr r : map_find ptr (p_readers p) = Some r -> local_reader_ok r;
  po_remote g rp : map_find g (p_remote p) = Some rp -> snapshot_ok (rp_snap rp);
  po_reassemblers peer r : map_find peer (p_reassemblers p) = Some r -> peer_reasm_ok r;
}.

(** What the operations never change of an entity: everything of a writer but its
    match count, the identity of a reader. *)
Definition writer_view (w : WriterImpl) : WriterImpl := set_writer_matched 0 w.
Definition reader_view (r : ReaderImpl) : Guid * list Z * list Z * QosProfile * bool * Z * bool :=
  (r_guid r, r_topic r, r_type r, r_qos r, r_ignore_local r, r_birth_us r, r_has_callback r).
Definition view {K A B} (f : A -> B) (m : std_map K A) : std_map K B := (fun kv => (kv.1, f kv.2)) <$> m.

Definition clocks_ok {T} (w : World T) : Prop :=
  forall n, fits 64 (w_sys w n).

Definition identity (p : ParticipantImpl) : list Z * Guid * Z := (p_prefix p, p_guid p, p_entity_serial p).

(** [steps_if strict w w']: the tables of [w'] are well formed, the participant is the
    same, and its entities are those of [w] with the same identity and, for writers,
    the same history.  In the strict form the remote participants and every match count are those of [w]. *)
Record quiet (p p' : ParticipantImpl) : Prop := {
  q_remote : p_remote p' = p_remote p;
  q_writers : view w_matched_count (p_writers p') = view w_matched_count (p_writers p);
  q_readers : view r_matched_count (p_readers p') = view r_matched_count (p_readers p);
}.

Definition steps_if {T} (strict : bool) (w w' : World T) : Prop :=
  part_ok (w_self w') /\ clocks_ok w' /\
  view writer_view (p_writers (w_self w')) = view writer_view (p_writers (w_self w)) /\
  view reader_view (p_readers (w_self w')) = view reader_view (p_readers (w_self w)) /\
  (strict = true -> quiet (w_self w) (w_self w')) /\
  identity (w_self w') = identity (w_self w).

Definition world_ok {T} (w : World T) : Prop := part_ok (w_self w) /\ clocks_ok w.

Section steps.
Context {T : Type} {strict : bool}.
Abbreviation steps := (steps_if strict).
Implicit Types w : World T.

Lemma quiet_refl p : quiet p p.
Proof. by split. Qed.

Lemma quiet_trans p p1 p2 : quiet p p1 -> quiet p1 p2 -> quiet p p2.
Proof. intros [] []. split; congruence. Qed.

Lemma steps_refl w : world_ok w -> steps w w.
Proof. intros [??]. by split_and!. Qed.

Lemma steps_ok w w' : steps w w' -> world_ok w'.
Proof. intros (?&?&_). by split. Qed.

Lemma steps_trans w w1 w2 : steps w w1 -> steps w1 w2 -> steps w w2.
Proof.
  intros (_&_&E1&E2&Hq&Ei) (H1&H2&E3&E4&Hq'&Ei'). split_and!; [done|done|congruence|congruence| |congruence].
  intros Hs. eapply quiet_trans; [by apply Hq|by apply Hq'].
Qed.

(** Actions that leave the tables alone. *)
Lemma steps_same_self w w' : world_ok w -> w_self w' = w_self w -> w_sys w' = w_sys w -> steps w w'.
Proof.
  intros [Hp Hc] Es Ec. unfold steps_if, clocks_ok. rewrite Es, Ec. by split_and!.
Qed.

Lemma runs_steps_bind {A B} (Q : A -> World T -> Prop) (m : act T A) (k : A -> act T B) w :
  runs (fun a w1 => steps w w1 /\ Q a w1) m w ->
  (forall a w1, steps w w1 -> Q a w1 -> runs (fun _ w2 => steps w1 w2) (k a) w1) ->
  runs (fun _ w2 => steps w w2) (m ≫= k) w.
Proof.
  intros Hm Hk. eapply runs_bind; [exact Hm|]. intros a w1 [Hs HQ]. cbv beta.
  eapply runs_mono; [by apply Hk|]. intros b w2. by apply steps_trans.
Qed.

Lemma runs_for_each {A} (l : list A) (f : A -> act T unit) w :
  world_ok w ->
  (forall a w1, a ∈ l -> steps w w1 -> runs (fun _ w2 => steps w1 w2) (f a) w1) ->
  runs (fun _ w2 => steps w w2) (for_each l f) w.
Proof.
  revert w. induction l as [|a l IH]; intros w Hw Hf; cbn [for_each].
  { by apply runs_ret, steps_refl. }
  apply (runs_steps_bind (fun _ _ => True)).
  - eapply runs_mono; [apply Hf; [left|by apply steps_refl]|]. auto.
  - intros u w1 Hs _. apply IH; [by eapply steps_ok|].
    intros a' w2 Ha Hs'. apply Hf; [by right|]. by eapply steps_trans.
Qed.

Lemma runs_mapM {A B} (Q : A -> B -> Prop) (l : list A) (f : A -> act T B) w :
  world_ok w ->
  (forall a w1, a ∈ l -> steps w w1 -> runs (fun b w2 => steps w1 w2 /\ Q a b) (f a) w1) ->
  runs (fun bs w2 => steps w w2 /\ Forall2 Q l bs) (mapM f l) w.
Proof.
  revert w. induction l as [|a l IH]; intros w Hw Hf; cbn [mapM].
  { split; [by apply steps_refl|constructor]. }
  eapply runs_bind; [apply Hf; [left|by apply steps_refl]|]. intros b w1 [Hs HQ]. cbv beta.
  eapply runs_bind; [apply IH; [by eapply steps_ok|]|].
  { intros a' w2 Ha Hs'. apply Hf; [by right|]. by eapply steps_trans. }
  intros bs w2 [Hs' Hall]. split; [by eapply steps_trans|by constructor].
Qed.
End steps.

(** ** Views and updates *)

Section views.
Context {K A B : Type} `{EqDecision K, KeyLt K, !KeyOrder K} (f : A -> B).
Implicit Types m : std_map K A.

Lemma map_find_view k m : map_find k (view f m) = f <$> map_find k m.
Proof.
  induction m as [|[k' v] m IH]; simpl; [done|]. by destruct (decide (k = k')).
Qed.

Lemma map_ok_view m : map_ok m <-> map_ok (view f m).
Proof.
  unfold map_ok, view. split.
  - induction 1 as [|e m Hs IH Hall]; simpl; [constructor|]. constructor; [done|].
    rewrite Forall_fmap. eapply Forall_impl; [exact Hall|]. done.
  - induction m as [|e m IH]; simpl; [constructor|]. intros Hs.
    apply StronglySorted_inv in Hs as [Hs Hall]. constructor; [by apply IH|].
    rewrite Forall_fmap in Hall. eapply Forall_impl; [exact Hall|]. done.
Qed.

Lemma view_set k v v' m :
  map_ok m -> map_find k m = Some v -> f v' = f v -> view f (map_set k v' m) = view f m.
Proof.
  intros Hok Hf E. induction Hok as [|[k0 v0] m Hs IH Hall]; simpl in *; [done|].
  destruct (decide (k = k0)) as [->|Hne]; simpl.
  - injection Hf as ->. by rewrite E.
  - destruct (key_lt k k0) eqn:Hlt; simpl; [|by rewrite IH].
    exfalso. apply map_find_In in Hf. rewrite Forall_forall in Hall.
    specialize (Hall _ Hf). unfold entry_lt in Hall. simpl in Hall.
    pose proof (key_lt_trans _ _ _ Hlt Hall) as Hc. by rewrite key_lt_irrefl in Hc.
Qed.
End views.

(** In a sorted table an update in place is an assignment. *)
Lemma map_adjust_set {A} (f : A -> A) k (m : std_map Z A) v :
  map_ok m -> map_find k m = Some v -> map_adjust f k m = map_set k (f v) m.
Proof.
  intros Hok Hf. induction Hok as [|[k0 v0] m Hs IH Hall]; simpl in *; [done|].
  destruct (decide (k = k0)) as [->|Hne].
  - injection Hf as ->. rewrite decide_True by done. f_equal.
    transitivity (id <$> m); [|by rewrite list_fmap_id]. apply list_fmap_ext. intros i [k1 v1] Hin. simpl.
    rewrite decide_False; [done|]. intros ->. rewrite Forall_forall in Hall.
    apply list_elem_of_lookup_2 in Hin. specialize (Hall _ Hin). unfold entry_lt in Hall. simpl in Hall.
    by rewrite key_lt_irrefl in Hall.
  - rewrite decide_False by done. destruct (key_lt k k0) eqn:Hlt; [|by rewrite IH].
    exfalso. apply map_find_In in Hf. rewrite Forall_forall in Hall.
    specialize (Hall _ Hf). unfold entry_lt in Hall. simpl in Hall.
    pose proof (key_lt_trans _ _ _ Hlt Hall) as Hc. by rewrite key_lt_irrefl in Hc.
Qed.

Lemma view_fmap {A B} (f : A -> B) (g : Z * A -> Z * A) m :
  (forall kv, (g kv).1 = kv.1 /\ f (g kv).2 = f kv.2) -> view f (g <$> m) = view f m.
Proof.
  intros Hg. unfold view. rewrite <- list_fmap_compose. apply list_fmap_ext.
  intros i kv _. simpl. destruct (Hg kv) as [-> ->]. done.
Qed.

(** ** Updates of the tables keep the invariant *)

(** The parts of [part_ok] that depend on the readers, and on the rest. *)
Lemma part_ok_set_readers p rs :
  part_ok p -> map_ok rs -> (forall ptr r, map_find ptr rs = Some r -> local_reader_ok r) ->
  part_ok (set_readers p rs).
Proof. intros [] ??. by split. Qed.

Lemma part_ok_set_writers p ws :
  part_ok p -> map_ok ws -> (forall ptr w, map_find ptr ws = Some w -> writer_ok w) ->
  part_ok (set_writers p ws).
Proof. intros [] ??. by split. Qed.

Lemma part_ok_set_remote p rem :
  part_ok p -> map_ok rem -> (forall g rp, map_find g rem = Some rp -> snapshot_ok (rp_snap rp)) ->
  part_ok (set_remote p rem).
Proof. intros [] ??. by split. Qed.

Lemma part_ok_set_reassemblers p m :
  part_ok p -> (forall peer r, map_find peer m = Some r -> peer_reasm_ok r) ->
  part_ok (set_reassemblers p m).
Proof. intros [] ?. by split. Qed.

Lemma part_ok_set_last_seen p m : part_ok p -> part_ok (set_last_seen p m).
Proof. intros []. by split. Qed.

Lemma part_ok_set_peers p ps : part_ok p -> part_ok (set_peers p ps).
Proof. intros []. by split. Qed.

Lemma part_ok_set_announce_seq p n : part_ok p -> part_ok (set_announce_seq p n).
Proof. intros []. by split. Qed.

Lemma writer_ok_matched n w : writer_ok w -> writer_ok (set_writer_matched n w).
Proof. intros [Hg [H1 H2 H3 H4 H5] Hc]. split; [done| |done]. by split. Qed.

(** [recompute_matches] as an update of the values. *)
Lemma recompute_eq p :
  let p1 := set_writers p (view (fun w => set_writer_matched (writer_matches p w) w) (p_writers p)) in
  recompute_matches p =
  set_readers p1 (view (fun r => set_reader_matched (reader_matches p1 r) r) (p_readers p)).
Proof. done. Qed.

Lemma recompute_ok p : part_ok p -> part_ok (recompute_matches p).
Proof.
  intros Hp. rewrite recompute_eq. cbv zeta. pose proof Hp as [_ Hw Hr _ Hws Hrs _ _].
  apply part_ok_set_readers; [apply part_ok_set_writers; [done|by apply map_ok_view|]|by apply map_ok_view|].
  - intros ptr w. rewrite map_find_view.
    destruct (map_find ptr (p_writers p)) as [w0|] eqn:E; [|done]. intros [= <-].
    by apply writer_ok_matched, (Hws ptr).
  - intros ptr r. rewrite map_find_view.
    destruct (map_find ptr (p_readers p)) as [r0|] eqn:E; [|done]. intros [= <-].
    destruct (Hrs _ _ E) as [Hg Hok]. by split.
Qed.

Lemma recompute_views p :
  view writer_view (p_writers (recompute_matches p)) = view writer_view (p_writers p) /\
  view reader_view (p_readers (recompute_matches p)) = view reader_view (p_readers p).
Proof. split; simpl; by apply view_fmap. Qed.

Lemma recompute_find p ptr r :
  map_find ptr (p_readers p) = Some r ->
  exists r', map_find ptr (p_readers (recompute_matches p)) = Some r'.
Proof. intros Hr. rewrite recompute_eq. simpl. rewrite map_find_view, Hr. by eexists. Qed.

(** *** As steps of the world *)

Section table_steps.
Context {T : Type} {strict : bool}.
Abbreviation steps := (steps_if strict).
Implicit Types w : World T.

Lemma runs_modify (P : unit -> World T -> Prop) f w :
  P tt (with_self (f (w_self w)) w) -> runs P (modify f) w.
Proof. done. Qed.

Lemma runs_get_self (P : ParticipantImpl -> World T -> Prop) w : P (w_self w) w -> runs P get_self w.
Proof. done. Qed.

(** The first action of a handler: reading the tables, updating them, reading a clock. *)
Lemma runs_self_bind {B} (P : B -> World T -> Prop) k w :
  runs P (k (w_self w)) w -> runs P (get_self ≫= k) w.
Proof. done. Qed.

Lemma runs_ret_bind {A B} (P : B -> World T -> Prop) (a : A) k w :
  runs P (k a) w -> runs P (mret a ≫= k) w.
Proof. done. Qed.

Lemma runs_modify_bind {B} (P : B -> World T -> Prop) f k w :
  runs P (k tt) (with_self (f (w_self w)) w) -> runs P (modify f ≫= k) w.
Proof. done. Qed.

Lemma steps_with_self w p :
  world_ok w -> part_ok p ->
  view writer_view (p_writers p) = view writer_view (p_writers (w_self w)) ->
  view reader_view (p_readers p) = view reader_view (p_readers (w_self w)) ->
  (strict = true -> quiet (w_self w) p) -> identity p = identity (w_self w) ->
  steps w (with_self p w).
Proof. intros [_ Hc] Hp E1 E2 Hq Ei. by split_and!. Qed.

Lemma runs_tick {A} (f : World T -> A) w :
  world_ok w -> runs (fun a w' => steps w w' /\ a = f w /\ w_self w' = w_self w) (tick f) w.
Proof. intros Hw. split; [|done]. by apply steps_same_self. Qed.

(** A reading of a clock only counts it. *)
Definition ticked w : World T :=
  mkWorld (w_self w) (w_transports w) (w_hook w) (w_sys w) (w_steady w) (S (w_tick w)) (w_events w).

Lemma runs_tick_bind {A B} (P : B -> World T -> Prop) (f : World T -> A) (k : A -> act T B) w :
  runs P (k (f w)) (ticked w) -> runs P (tick f ≫= k) w.
Proof. done. Qed.

Lemma runs_tick_steps {A} (f : World T -> A) w :
  world_ok w -> runs (fun _ w' => steps w w' /\ True) (tick f) w.
Proof. intros Hw. split; [|done]. by apply steps_same_self. Qed.

Lemma runs_fire e w : world_ok w -> runs (fun _ w' => steps w w') (fire e) w.
Proof. intros Hw. by apply steps_same_self. Qed.
End table_steps.

Lemma steps_recompute {T} (w : World T) :
  world_ok w -> steps_if false w (with_self (recompute_matches (w_self w)) w).
Proof.
  intros Hw. destruct (recompute_views (w_self w)).
  apply steps_with_self; [done|apply recompute_ok, Hw|done..].
Qed.

(** The strict form implies the other. *)
Lemma steps_weaken {T} strict (w w' : World T) : steps_if strict w w' -> steps_if false w w'.
Proof. intros (?&?&?&?&_&?). by split_and!. Qed.

(** ** Sending keeps everything *)

Section sending.
Context {T : Type} `{Transport T} {strict : bool}.
Abbreviation steps := (steps_if strict).
Implicit Types w : World T.

(** Only transports change: nothing is read from a clock, no callback fires. *)
Definition sent_only w w' : Prop :=
  w_self w' = w_self w /\ w_events w' = w_events w /\ w_sys w' = w_sys w /\ w_steady w' = w_steady w.

Lemma sent_only_steps w w' : world_ok w -> sent_only w w' -> steps w w'.
Proof. intros Hw (? & _ & ? & _). by apply steps_same_self. Qed.

Lemma sent_only_trans w w1 w2 : sent_only w w1 -> sent_only w1 w2 -> sent_only w w2.
Proof. intros (? & ? & ? & ?) (? & ? & ? & ?). split_and!; congruence. Qed.

Lemma runs_send_frame peer frame w :
  world_ok w -> runs (fun _ w' => steps w w' /\ sent_only w w') (send_frame peer frame) w.
Proof.
  intros Hw. unfold runs, send_frame. case_if; [split; [by apply steps_refl|done]|].
  destruct (w_transports w !! _) as [t|]; [|split; [by apply steps_refl|done]].
  destruct (transport_send t _ _) as [t' ok].
  apply (runs_ret (fun _ w' => steps w w' /\ sent_only w w') ok). split; [by apply steps_same_self|done].
Qed.

(** The common continuation: send, and drop the result. *)
Lemma runs_send_unit peer frame w :
  world_ok w -> runs (fun _ w' => steps w w') (_ ← send_frame peer frame; mret tt) w.
Proof.
  intros Hw. eapply runs_bind; [by apply runs_send_frame|]. intros ok w1 [Hs _]. exact Hs.
Qed.

Lemma runs_max_payload peer w : world_ok w -> runs (fun _ w' => w' = w) (max_payload peer) w.
Proof. intros _. unfold runs, max_payload. by destruct (_ !! _). Qed.

Lemma runs_send_frames peer frames ok w :
  world_ok w -> runs (fun _ w' => steps w w' /\ sent_only w w') (send_frames peer frames ok) w.
Proof.
  revert ok w. induction frames as [|f frames IH]; intros ok w Hw; cbn [send_frames].
  { split; [by apply steps_refl|done]. }
  eapply runs_bind; [by apply runs_send_frame|]. intros sent w1 [Hs E]. cbv beta.
  eapply runs_mono; [apply IH; by eapply (steps_ok (strict := strict))|]. intros b w2 [Hs' E'].
  split; [by eapply steps_trans|by eapply sent_only_trans].
Qed.

Lemma runs_send_sample_to peer g seq pub data flags w :
  world_ok w -> guid_ok g -> fits 64 seq -> fits 64 pub -> fits 16 flags -> 64 + len data < 2 ^ 32 ->
  runs (fun _ w' => steps w w' /\ sent_only w w') (send_sample_to peer g seq pub data flags) w.
Proof.
  intros Hw Hg Hseq Hpub Hf Hl. unfold send_sample_to.
  eapply runs_bind; [by apply runs_max_payload|]. intros max_p w1 ->. cbv beta.
  case_if; [split; [by apply steps_refl|done]|]. rewrite wrap_id by ulia.
  destruct (fragment_total g seq pub flags max_p data Hg Hseq Hpub Hf Hl) as [fs Hfs].
  eapply runs_bind; [by eapply (runs_encoded (fun fs' w' => w' = w)); [exact Hfs|]|].
  intros fs' w1 ->. cbv beta. eapply runs_bind; [by apply runs_send_frames|].
  intros ok w1 Hs. exact Hs.
Qed.

Lemma reliable_flag_fits q : fits 16 (reliable_flag q).
Proof. unfold reliable_flag, kFlagReliable. case_if; ulia. Qed.

Lemma runs_fire_graph w : world_ok w -> runs (fun _ w' => steps w w') (fire_graph_callback) w.
Proof.
  intros Hw. unfold fire_graph_callback. apply runs_self_bind.
  case_if; [by apply runs_fire|by apply runs_ret, steps_refl].
Qed.

Lemma runs_fire_callback reader r w :
  world_ok w -> map_find reader (p_readers (w_self w)) = Some r ->
  runs (fun _ w' => steps w w') (fire_callback reader) w.
Proof.
  intros Hw Hr. unfold fire_callback. apply runs_self_bind. rewrite Hr. case_if; [by apply runs_fire|by apply runs_ret, steps_refl].
Qed.
End sending.

(** ** Enqueueing *)

Section enqueueing.
Context {T : Type} {strict : bool}.
Abbreviation steps := (steps_if strict).
Implicit Types w : World T.

Lemma enqueue_reader_view r n1 n2 g seq data wq pub :
  reader_view (fst (enqueue r n1 n2 g seq data wq pub)) = reader_view r.
Proof. unfold enqueue. by repeat case_if. Qed.

Lemma enqueue_reader_count r n1 n2 g seq data wq pub :
  r_matched_count (fst (enqueue r n1 n2 g seq data wq pub)) = r_matched_count r.
Proof. unfold enqueue. by repeat case_if. Qed.

Lemma apply_gap_reader_count r g start stop : r_matched_count (apply_gap r g start stop) = r_matched_count r.
Proof. unfold apply_gap. destruct (map_find g (r_rx r)); [by case_if|done]. Qed.

Lemma apply_gap_reader_view r g start stop : reader_view (apply_gap r g start stop) = reader_view r.
Proof. unfold apply_gap. destruct (map_find g (r_rx r)); [by case_if|done]. Qed.

(** Replacing a reader of the table by one with the same identity. *)
Lemma steps_set_reader w ptr r r' :
  world_ok w -> map_find ptr (p_readers (w_self w)) = Some r ->
  reader_view r' = reader_view r -> r_matched_count r' = r_matched_count r -> local_reader_ok r' ->
  steps w (with_self (set_readers (w_self w) (map_set ptr r' (p_readers (w_self w)))) w).
Proof.
  intros [Hp Hc] Hr Hv Hcnt Hok. pose proof Hp as [_ _ Hm _ _ Hrs _ _].
  apply steps_with_self; [by split| |done|by eapply view_set| |done].
  2:{ intros _. split; simpl; [done..|]. by eapply view_set. }
  apply part_ok_set_readers; [done|by apply map_ok_set|].
  intros ptr' r0. rewrite map_find_set. destruct (decide (ptr' = ptr)); [by intros [= <-]|apply Hrs].
Qed.

(** What a reader says when it asks for a retransmission. *)
Definition gap_request_ok (out : EnqueueOut) : Prop := fits 64 (eo_base out) /\ fits 64 (eo_bitmap out).

Lemma rx_gap_fits both st seq g b m :
  rx_ok st -> fits 64 seq -> ro_gap (rx_receive both st seq) = Some (g, b, m) -> fits 64 b /\ fits 64 m.
Proof.
  intros [_ Hw _] Hseq. unfold rx_receive. case_if; [done|]. cbv zeta. case_if; [done|].
  case_if; [|done]. case_if; [done|]. simpl. intros [= _ <- <-]. zbool.
  split; [by apply wrap_fits|]. apply fits_lor; [done|done|apply fits_pow2; ulia].
Qed.

Lemma enqueue_request_ok r n1 n2 g seq data wq pub :
  reader_ok r -> fits 64 seq -> gap_request_ok (snd (enqueue r n1 n2 g seq data wq pub)).
Proof.
  intros Hr Hseq. unfold gap_request_ok, enqueue. set (both := bool_decide _ && bool_decide _).
  pose proof (rx_gap_fits both (rx_of r g) seq) as Hfit. unfold rx_of in Hfit.
  set (o := rx_receive _ _ _) in *. specialize (Hfit) with (1 := Hr g) (2 := Hseq).
  destruct (ro_gap o) as [[[gd b] m]|].
  - destruct (Hfit gd b m eq_refl). by repeat case_if.
  - repeat case_if; simpl; split; ulia.
Qed.

Lemma runs_enqueue_at ptr r g seq data wq pub w :
  world_ok w -> map_find ptr (p_readers (w_self w)) = Some r -> fits 64 seq ->
  runs (fun out w' => steps w w' /\ gap_request_ok out /\ exists n1 n2,
      w_self w' = set_readers (w_self w)
        (map_set ptr (fst (enqueue r n1 n2 g seq data wq pub)) (p_readers (w_self w))) /\
      out = snd (enqueue r n1 n2 g seq data wq pub))
    (enqueue_at ptr g seq data wq pub) w.
Proof.
  intros Hw Hr Hseq. unfold enqueue_at.
  eapply runs_bind; [by apply (runs_tick (strict := strict))|]. intros n1 w1 (Hs1 & _ & E1). cbv beta.
  eapply runs_bind; [by apply (runs_tick (strict := strict)), (steps_ok (strict := strict) w)|]. intros n2 w2 (Hs2 & _ & E2). cbv beta.
  apply runs_self_bind. rewrite E2, E1, Hr.
  pose proof (enqueue_reader_view r n1 n2 g seq data wq pub) as Hv.
  pose proof (po_readers _ (proj1 Hw) ptr r Hr) as [Hg Hrok].
  destruct (enqueue_ok r n1 n2 g seq data wq pub Hrok Hseq) as [Hok' _].
  pose proof (enqueue_request_ok r n1 n2 g seq data wq pub Hrok Hseq) as Hreq.
  pose proof (enqueue_reader_count r n1 n2 g seq data wq pub) as Hcnt.
  destruct (enqueue r n1 n2 g seq data wq pub) as [r' out] eqn:E. simpl in Hv, Hok', Hreq, Hcnt.
  apply runs_modify_bind, runs_ret. rewrite E2, E1. split; [|split; [done|]].
  - pose proof (steps_trans _ _ _ Hs1 Hs2) as Hs. eapply steps_trans; [exact Hs|].
    rewrite <- E1, <- E2. apply (steps_set_reader w2 ptr r); [by eapply (steps_ok (strict := strict))|by rewrite E2, E1|done|done|].
    split; [|done]. unfold reader_view in Hv. congruence.
  - exists n1, n2. by rewrite E.
Qed.
End enqueueing.

(** ** Receiving *)

Lemma Forall2_in_r {A B} (Q : A -> B -> Prop) l k b :
  Forall2 Q l k -> b ∈ k -> exists a, a ∈ l /\ Q a b.
Proof.
  induction 1 as [|a b' l k HQ Hall IH]; [by intros ?%not_elem_of_nil|].
  intros [-> |Hb]%elem_of_cons; [exists a; split; [left|done]|].
  destruct (IH Hb) as (a' & ? & ?). exists a'. split; [by right|done].
Qed.

Section handlers.
Context {T : Type} `{Transport T} {strict : bool}.
Abbreviation steps := (steps_if strict).
Implicit Types w : World T.

Lemma steps_find_reader w w' ptr r :
  steps w w' -> map_find ptr (p_readers (w_self w)) = Some r ->
  exists r', map_find ptr (p_readers (w_self w')) = Some r' /\ reader_view r' = reader_view r.
Proof.
  intros (_ & _ & _ & E & _) Hr. pose proof (map_find_view reader_view ptr (p_readers (w_self w'))) as H1.
  rewrite E, map_find_view, Hr in H1. simpl in H1.
  destruct (map_find ptr (p_readers (w_self w'))) as [r'|]; simpl in H1; [|done].
  exists r'. split; [done|congruence].
Qed.

Lemma find_remote_ok p g ep :
  part_ok p -> find_remote_endpoint_locked p g = Some ep -> endpoint_ok ep /\ ep_guid ep = g.
Proof.
  intros Hp Hf. unfold find_remote_endpoint_locked in Hf. apply find_some in Hf as [Hin Hg].
  apply bool_decide_eq_true in Hg. split; [|done]. apply list_elem_of_In in Hin.
  unfold remote_endpoints in Hin. apply list_elem_of_In, in_concat in Hin as (l & Hl & Hin).
  apply list_elem_of_In, list_elem_of_fmap in Hl as ([k rp] & -> & Hl). simpl in Hin.
  apply list_elem_of_In in Hin.
  apply (map_In_find _ _ _ (po_remote_map _ Hp)) in Hl.
  pose proof (so_endpoints _ (po_remote _ Hp _ _ Hl)) as Hall. rewrite Forall_forall in Hall. auto.
Qed.

(** An entry of a table is found under its key. *)
Lemma entry_find {A} (m : std_map Z A) kv : map_ok m -> kv ∈ m -> map_find kv.1 m = Some kv.2.
Proof. intros Hm Hin. apply map_In_find; [done|]. by destruct kv. Qed.

Lemma steps_set_last_seen w m :
  world_ok w -> steps w (with_self (set_last_seen (w_self w) m) w).
Proof. intros Hw. apply steps_with_self; [done|apply part_ok_set_last_seen, Hw|done..]. Qed.

(** What is sent back to the writer, and which callbacks are due. *)
Definition delivered (p : ParticipantImpl) (kv : Z * ReaderImpl) (o : Z * Guid * EnqueueOut) : Prop :=
  o.1.1 = kv.1 /\ guid_ok o.1.2 /\ gap_request_ok o.2.

Lemma runs_deliver_sample peer g seq pub data w :
  world_ok w -> guid_ok g -> fits 64 seq ->
  runs (fun _ w' => steps w w') (deliver_sample peer g seq pub data) w.
Proof.
  intros Hw Hg Hseq. unfold deliver_sample.
  apply (runs_steps_bind (fun _ _ => True)); [by apply runs_tick_steps|].
  intros now w1 Hs1 _. apply steps_ok in Hs1 as Hw1.
  apply (runs_steps_bind (fun _ _ => True)).
  { apply runs_modify. split; [|done]. by apply steps_set_last_seen. }
  intros [] w2 Hs2 _. apply steps_ok in Hs2 as Hw2. apply runs_self_bind.
  destruct (find_remote_endpoint_locked (w_self w2) g) as [ep|]; [|by apply runs_ret, steps_refl].
  set (matched := filter _ (p_readers (w_self w2))).
  assert (Hmatched : forall kv, kv ∈ matched -> map_find kv.1 (p_readers (w_self w2)) = Some kv.2).
  { intros kv [_ Hin]%list_elem_of_filter. apply entry_find; [apply Hw2|done]. }
  apply (runs_steps_bind (fun outs w3 => steps w2 w3 /\ Forall2 (delivered (w_self w2)) matched outs)).
  { eapply runs_mono; [apply ((runs_mapM (strict := strict)) (delivered (w_self w2)))|].
    - done.
    - intros kv w3 Hin Hs3. destruct (steps_find_reader w2 w3 kv.1 kv.2 Hs3 (Hmatched kv Hin)) as (r' & Hr' & _).
      eapply runs_bind; [by apply (runs_enqueue_at (strict := strict) kv.1 r'); [eapply (steps_ok (strict := strict))|..]|].
      intros out w4 (Hs4 & Hreq & _). split; [done|]. split_and!; [done| |done].
      by apply (po_readers _ (proj1 Hw2) kv.1), Hmatched.
    - intros outs w3 [Hs3 Hall]. by split_and!. }
  intros outs w3 Hs3 [_ Hall]. apply (runs_steps_bind (fun _ _ => True)).
  { eapply runs_mono; [apply (runs_for_each (strict := strict)); [by eapply (steps_ok (strict := strict))|]|auto].
    intros o w4 Ho Hs4. case_if; [|by apply runs_ret, steps_refl, (steps_ok (strict := strict) w3)].
    destruct (Forall2_in_r _ _ _ _ Hall Ho) as (kv & Hkv & _ & Hg' & Hb & Hm).
    eapply runs_bind; [by eapply (runs_encoded (fun f w' => w' = w4)); [apply encode_acknack_bytes|]|].
    intros f w5 ->. apply runs_send_unit. by eapply (steps_ok (strict := strict)). }
  intros [] w4 Hs4 _. apply runs_for_each; [by eapply (steps_ok (strict := strict))|].
  intros o w5 Ho Hs5. case_if; [|by apply runs_ret, steps_refl, (steps_ok (strict := strict) w4)].
  destruct (Forall2_in_r _ _ _ _ Hall Ho) as (kv & Hkv & -> & _).
  assert (Hs : steps w2 w5) by (eapply steps_trans; [exact Hs3|]; by eapply steps_trans).
  destruct (steps_find_reader w2 w5 kv.1 kv.2 Hs (Hmatched kv Hkv)) as (r' & Hr' & _).
  eapply runs_fire_callback; [by eapply (steps_ok (strict := strict))|exact Hr'].
Qed.

Lemma find_writer_ok p g ptr :
  part_ok p -> find_writer_locked p g = Some ptr ->
  exists wr, map_find ptr (p_writers p) = Some wr /\ w_guid wr = g.
Proof.
  intros Hp Hf. unfold find_writer_locked in Hf.
  destruct (find _ (p_writers p)) as [kv|] eqn:E; [|done]. injection Hf as <-.
  apply find_some in E as [Hin Hg%bool_decide_eq_true]. apply list_elem_of_In in Hin.
  exists kv.2. split; [|done]. apply entry_find; [apply Hp|done].
Qed.

Lemma find_reader_ok p g ptr :
  part_ok p -> find_reader_locked p g = Some ptr ->
  exists r, map_find ptr (p_readers p) = Some r /\ r_guid r = g.
Proof.
  intros Hp Hf. unfold find_reader_locked in Hf.
  destruct (find _ (p_readers p)) as [kv|] eqn:E; [|done]. injection Hf as <-.
  apply find_some in E as [Hin Hg%bool_decide_eq_true]. apply list_elem_of_In in Hin.
  exists kv.2. split; [|done]. apply entry_find; [apply Hp|done].
Qed.

(** Sending a sample and dropping the result. *)
Lemma runs_send_sample_unit peer g seq pub data flags w :
  world_ok w -> guid_ok g -> fits 64 seq -> fits 64 pub -> fits 16 flags -> 64 + len data < 2 ^ 32 ->
  runs (fun _ w' => steps w w') (_ ← send_sample_to peer g seq pub data flags; mret tt) w.
Proof.
  intros. eapply runs_bind; [by apply (runs_send_sample_to (strict := strict))|]. intros ok w1 [Hs _]. exact Hs.
Qed.

Lemma runs_handle_acknack peer frame w :
  world_ok w -> bytes_ok frame -> runs (fun _ w' => steps w w') (handle_acknack peer frame) w.
Proof.
  intros Hw Hf. unfold handle_acknack.
  eapply runs_bind.
  { eapply (runs_decoded _ (fun o w' => w' = w /\ match o with
      Some b => guid_ok (ack_reader b) /\ guid_ok (ack_writer b) /\ fits 64 (ack_base_seq b) | None => True end));
      [by apply decode_acknack_safe|done|]. intros b Hb _. split; [done|]. split_and!; apply Hb. }
  intros [b|] w1 [-> Hb]; [|by apply runs_ret, steps_refl]. destruct Hb as (Hgr & Hgw & Hbase).
  apply runs_self_bind.
  destruct (find_writer_locked (w_self w) (ack_writer b)) as [ptr|] eqn:Ew; [|by apply runs_ret, steps_refl].
  destruct (find_remote_endpoint_locked (w_self w) (ack_reader b)) as [ep|]; [|by apply runs_ret, steps_refl].
  destruct (find_writer_ok _ _ _ (proj1 Hw) Ew) as (wr & Hwr & _). rewrite Hwr.
  set (clamp := bool_decide _).
  destruct (acknack_scan_within wr clamp (ep_birth_us ep) (ack_base_seq b) (ack_bitmap b)) as [Hre Hu].
  destruct (acknack_scan wr clamp _ _ _) as [resend u]. simpl in Hre, Hu.
  apply (runs_steps_bind (fun _ _ => True)).
  { eapply runs_mono; [apply (runs_for_each (strict := strict)); [done|]|auto]. intros e w1 He Hs1.
    rewrite Forall_forall in Hre. specialize (Hre _ He).
    pose proof (wo_cached _ (po_writers _ (proj1 Hw) _ _ Hwr)) as Hc. rewrite Forall_forall in Hc.
    destruct (Hc _ Hre) as (? & ? & _ & ?).
    apply runs_send_sample_unit; auto using reliable_flag_fits. by eapply (steps_ok (strict := strict)). }
  intros [] w1 Hs1 _. case_if; [|by apply runs_ret, steps_refl, (steps_ok (strict := strict) w)].
  eapply runs_bind; [by eapply (runs_encoded (fun f w' => w' = w1)); [apply encode_gap_bytes|]|].
  intros f w2 ->. apply runs_send_unit. by eapply (steps_ok (strict := strict)).
Qed.

(** A GAP for a reader of the table. *)
Lemma steps_gap b w :
  world_ok w -> fits 64 (gap_end b) ->
  steps w (with_self (match find_reader_locked (w_self w) (gap_reader b) with
    | None => w_self w
    | Some ptr => set_readers (w_self w)
        (map_adjust (fun r => apply_gap r (gap_writer b) (gap_start b) (gap_end b)) ptr (p_readers (w_self w)))
    end) w).
Proof.
  intros Hw Hb. destruct (find_reader_locked (w_self w) (gap_reader b)) as [ptr|] eqn:Er.
  2:{ by apply steps_same_self. }
  destruct (find_reader_ok _ _ _ (proj1 Hw) Er) as (r & Hr & _).
  pose proof (po_readers _ (proj1 Hw) ptr r Hr) as [Hg Hrok].
  destruct (gap_ok r (gap_writer b) (gap_start b) (gap_end b) Hrok Hb) as [Hok' _].
  rewrite (map_adjust_set _ _ _ r) by (done || apply (po_readers_map _ (proj1 Hw))).
  apply (steps_set_reader w ptr r); [done|done|apply apply_gap_reader_view|apply apply_gap_reader_count|].
  split; [|done]. pose proof (apply_gap_reader_view r (gap_writer b) (gap_start b) (gap_end b)) as Hv.
  unfold reader_view in Hv. congruence.
Qed.

Lemma runs_handle_gap peer frame w :
  world_ok w -> bytes_ok frame -> runs (fun _ w' => steps w w') (handle_gap peer frame) w.
Proof.
  intros Hw Hf. unfold handle_gap. eapply runs_bind.
  { eapply (runs_decoded _ (fun o w' => w' = w /\ match o with Some b => fits 64 (gap_end b) | None => True end));
      [by apply decode_gap_safe|done|]. intros b Hb _. split; [done|]. apply Hb. }
  intros [b|] w1 [-> Hb]; [|by apply runs_ret, steps_refl]. case_if; [by apply runs_ret, steps_refl|].
  apply runs_modify. by apply steps_gap.
Qed.

Lemma nacks_due_ok p g ep last nk :
  part_ok p -> nk ∈ nacks_due p g ep last -> guid_ok nk.1.1.
Proof.
  intros Hp Hin. unfold nacks_due in Hin. apply list_elem_of_omap in Hin as (kv & Hkv & Hnk).
  revert Hnk. do 2 (case_if; [done|]). destruct (nack_state kv.2 g) as [base bitmap].
  case_if; [|done]. intros [= <-]. simpl.
  by apply (po_readers _ Hp kv.1), entry_find; [apply Hp|].
Qed.

Lemma runs_handle_heartbeat peer frame w :
  world_ok w -> bytes_ok frame -> runs (fun _ w' => steps w w') (handle_heartbeat peer frame) w.
Proof.
  intros Hw Hf. unfold handle_heartbeat. eapply runs_bind.
  { eapply (runs_decoded _ (fun o w' => w' = w /\ match o with Some b => guid_ok (hb_writer b) | None => True end));
      [by apply decode_heartbeat_safe|done|]. intros b Hb _. split; [done|]. apply Hb. }
  intros [b|] w1 [-> Hb]; [|by apply runs_ret, steps_refl].
  apply (runs_steps_bind (fun _ _ => True)); [by apply runs_tick_steps|].
  intros now w1 Hs1 _. apply steps_ok in Hs1 as Hw1. apply (runs_steps_bind (fun _ _ => True)).
  { apply runs_modify. split; [|done]. by apply steps_set_last_seen. }
  intros [] w2 Hs2 _. apply steps_ok in Hs2 as Hw2. apply runs_self_bind.
  destruct (find_remote_endpoint_locked (w_self w2) _) as [ep|]; [|by apply runs_ret, steps_refl].
  apply runs_for_each; [done|]. intros nk w3 Hnk Hs3.
  pose proof (nacks_due_ok _ _ _ _ _ (proj1 Hw2) Hnk) as Hg.
  eapply runs_bind; [by eapply (runs_encoded (fun f w' => w' = w3)); [apply encode_acknack_bytes|]|].
  intros f w4 ->. apply runs_send_unit. by eapply (steps_ok (strict := strict)).
Qed.

(** What is replayed comes from the history of a local writer. *)
Lemma replay_todo_in p eps now t :
  t ∈ replay_todo p eps now ->
  exists kv, kv ∈ p_writers p /\ t.1.1 ∈ w_history kv.2 /\ t.1.2 = w_guid kv.2 /\
    t.2 = reliable_flag (w_qos kv.2).
Proof.
  unfold replay_todo. intros (l & Hl & Hin)%list_elem_of_In%in_concat.
  apply list_elem_of_In, list_elem_of_fmap in Hl as (ep & -> & Hep).
  apply list_elem_of_In in Hin. revert Hin. case_if; [by intros ?%not_elem_of_nil|].
  intros (l & Hl & Hin)%list_elem_of_In%in_concat.
  apply list_elem_of_In, list_elem_of_fmap in Hl as (kv & -> & Hkv).
  apply list_elem_of_In in Hin. revert Hin. cbv zeta. case_if; [by intros ?%not_elem_of_nil|].
  intros (e & -> & [_ He]%list_elem_of_filter)%list_elem_of_fmap. by exists kv.
Qed.

Lemma runs_for_each_sent {A} (l : list A) (f : A -> act T unit) w :
  world_ok w ->
  (forall a w1, a ∈ l -> world_ok w1 -> runs (fun _ w2 => sent_only w1 w2) (f a) w1) ->
  runs (fun _ w2 => sent_only w w2) (for_each l f) w.
Proof.
  revert w. induction l as [|a l IH]; intros w Hw Hf; cbn [for_each]; [done|].
  eapply runs_bind; [apply Hf; [left|done]|]. intros u w1 Hs1. cbv beta.
  assert (Hw1 : world_ok w1) by (eapply (steps_ok (strict := true)), sent_only_steps; done).
  eapply runs_mono; [apply IH; [done|]|].
  - intros a' w2 Ha. apply Hf. by right.
  - intros u' w2. by apply sent_only_trans.
Qed.

Lemma runs_replay_sent peer eps w :
  world_ok w -> runs (fun _ w' => sent_only w w') (replay_history_to_peer peer eps) w.
Proof.
  intros Hw. unfold replay_history_to_peer. case_if; [done|].
  eapply (runs_bind (fun _ w1 => sent_only w w1)); [done|]. intros now w1 Hs1. cbv beta.
  assert (Hw1 : world_ok w1) by (eapply (steps_ok (strict := true)), sent_only_steps; done).
  apply runs_self_bind. eapply runs_mono; [|intros u w2; by apply (sent_only_trans w w1)].
  apply runs_for_each_sent; [done|]. intros t w2 Ht Hw2.
  destruct (replay_todo_in _ _ _ _ Ht) as (kv & Hkv & He & -> & ->).
  pose proof (po_writers _ (proj1 Hw1) _ _ (entry_find _ _ (po_writers_map _ (proj1 Hw1)) Hkv)) as [Hg _ Hc].
  rewrite Forall_forall in Hc. destruct (Hc _ He) as (? & ? & _ & ?).
  eapply runs_bind.
  { apply (runs_send_sample_to (strict := true)); auto using reliable_flag_fits. }
  intros ok w3 [_ Hs3]. exact Hs3.
Qed.

Lemma runs_replay peer eps w :
  world_ok w -> runs (fun _ w' => steps w w') (replay_history_to_peer peer eps) w.
Proof.
  intros Hw. eapply runs_mono; [by apply runs_replay_sent|]. intros u w'. by apply sent_only_steps.
Qed.

End handlers.

Section discovery.
Context {T : Type} `{Transport T} {strict : bool}.
Abbreviation steps := (steps_if strict).
Implicit Types w : World T.

Lemma steps_set_remote w key rp :
  world_ok w -> snapshot_ok (rp_snap rp) ->
  steps_if false w (with_self (set_remote (w_self w) (map_set key rp (p_remote (w_self w)))) w).
Proof.
  intros Hw Hs. apply steps_with_self; [done| |done..].
  apply part_ok_set_remote; [apply Hw|apply map_ok_set, Hw|].
  intros g rp'. rewrite map_find_set. destruct (decide (g = key)); [by intros [= <-]|].
  apply (po_remote _ (proj1 Hw)).
Qed.

(** The common end of a change of the graph. *)
Lemma runs_graph_changed w :
  world_ok w ->
  runs (fun _ w' => steps_if false w w') (_ ← modify recompute_matches; fire_graph_callback) w.
Proof.
  intros Hw. apply (runs_steps_bind (fun _ _ => True)).
  - apply runs_modify. split; [by apply steps_recompute|done].
  - intros [] w1 Hs _. by apply runs_fire_graph, (steps_ok (strict := false) w).
Qed.

Lemma runs_handle_announce peer frame w :
  world_ok w -> bytes_ok frame -> runs (fun _ w' => steps_if false w w') (handle_announce peer frame) w.
Proof.
  intros Hw Hf. unfold handle_announce. eapply runs_bind.
  { eapply (runs_decoded _ (fun o w' => w' = w /\ match o with Some b => snapshot_ok b.1 | None => True end));
      [by apply decode_announce_safe|done|]. intros b Hb _. split; [done|]. apply Hb. }
  intros [[snap seq]|] w1 [-> Hsnap]; [|by apply runs_ret, steps_refl]. apply runs_self_bind.
  apply (runs_steps_bind (fun _ _ => True)).
  { destruct (map_find (participant_guid snap) (p_remote (w_self w))) as [rp|] eqn:Erp.
    2:{ split; [by apply steps_refl|done]. }
    eapply runs_bind; [by apply (runs_tick (strict := false))|]. intros now w1 (Hs & _ & E).
    apply runs_modify_bind, runs_ret. split; [|done]. eapply steps_trans; [exact Hs|].
    apply steps_set_remote; [by eapply (steps_ok (strict := false))|]. by apply (po_remote _ (proj1 Hw) _ _ Erp). }
  intros stale w1 Hs1 _. apply steps_ok in Hs1 as Hw1. case_if; [by apply runs_ret, steps_refl|].
  apply (runs_steps_bind (fun _ _ => True)); [by apply runs_tick_steps|].
  intros now w2 Hs2 _. apply steps_ok in Hs2 as Hw2. apply (runs_steps_bind (fun _ _ => True)).
  { apply runs_modify. split; [|done]. by apply steps_set_remote. }
  intros [] w3 Hs3 _. apply steps_ok in Hs3 as Hw3. apply (runs_steps_bind (fun _ _ => True)).
  { eapply runs_mono; [by apply (runs_replay (strict := false))|auto]. }
  intros [] w4 Hs4 _. apply steps_ok in Hs4 as Hw4.
  case_if; [by apply runs_graph_changed|by apply runs_ret, steps_refl].
Qed.

(** Reassembly: the reassembler of the peer takes the fragment. *)
Lemma runs_reassemble peer b w :
  world_ok w -> data_frag_ok b ->
  runs (fun o w' => steps w w' /\ (exists r' n1 n2,
      add_fragment_body (default new_reassembler (map_find peer (p_reassemblers (w_self w)))) n1 n2 b = Done (r', o) /\
      w_self w' = set_reassemblers (w_self w) (map_set peer r' (p_reassemblers (w_self w)))))
    (reassemble peer b) w.
Proof.
  intros Hw Hb. unfold reassemble.
  eapply runs_bind; [by apply (runs_tick (strict := strict))|]. intros n1 w1 (Hs1 & _ & E1). cbv beta.
  eapply runs_bind; [by apply (runs_tick (strict := strict)), (steps_ok (strict := strict) w)|]. intros n2 w2 (Hs2 & _ & E2). cbv beta.
  apply runs_self_bind. rewrite E2, E1. set (r := default _ _).
  assert (Hr : peer_reasm_ok r).
  { subst r. destruct (map_find peer _) eqn:E; simpl; [by eapply (po_reassemblers _ (proj1 Hw))|].
    split; [done|apply map_ok_nil]. }
  destruct (add_fragment_frame r n1 n2 b (proj1 Hr) Hb) as (r' & o & E & Hr' & _).
  pose proof (add_fragment_map_ok _ _ _ _ _ _ _ _ _ _ _ (proj2 Hr) E) as Hm'.
  eapply runs_bind; [by eapply (runs_encoded (fun ro w' => ro = (r', o) /\ w' = w2)); [exact E|]|].
  intros ro w3 [-> ->]. apply runs_modify_bind, runs_ret. rewrite E2, E1. split.
  - eapply steps_trans; [exact Hs1|]. eapply steps_trans; [exact Hs2|].
    rewrite <- E1, <- E2. apply steps_with_self; [by eapply (steps_ok (strict := strict))| |done..].
    apply part_ok_set_reassemblers; [by eapply (steps_ok (strict := strict))|]. rewrite E2, E1.
    intros peer' r0. rewrite map_find_set. destruct (decide (peer' = peer)); [intros [= <-]; by split|].
    apply (po_reassemblers _ (proj1 Hw)).
  - exists r', n1, n2. done.
Qed.

End discovery.

(** *** Every frame received *)

Section receive.
Context {T : Type} `{Transport T}.
Implicit Types w : World T.


(** Only an announcement changes the remote participants. *)
Definition no_announce (frame : list Z) : Prop := forall h, decode_header frame = Done h -> hdr_type h <> ANNOUNCE.

Lemma runs_handle_frame strict peer frame w :
  world_ok w -> bytes_ok frame -> (strict = true -> no_announce frame) ->
  runs (fun _ w' => steps_if strict w w') (handle_bytes peer frame) w.
Proof.
  intros Hw Hf Hna. unfold handle_bytes. eapply runs_bind.
  { eapply (runs_decoded _ (fun o w' => w' = w /\ match o with Some h => decode_header frame = Done h | None => True end));
      [by apply decode_header_safe|by split|done]. }
  intros [hdr|] w1 [-> Eh]; [|by apply runs_ret, steps_refl]. destruct (hdr_type hdr) eqn:Ht.
  - eapply runs_bind.
    { eapply (runs_decoded _ (fun o w' => w' = w /\ match o with Some b => data_ok b | None => True end));
        [by apply decode_data_safe|done|done]. }
    intros [b|] w1 [-> Hb]; [|by apply runs_ret, steps_refl]. destruct Hb as (? & ? & ? & ? & ?).
    by apply runs_deliver_sample.
  - eapply runs_bind.
    { eapply (runs_decoded _ (fun o w' => w' = w /\ match o with Some b => data_frag_ok b | None => True end));
        [by apply decode_data_frag_safe|done|done]. }
    intros [b|] w1 [-> Hb]; [|by apply runs_ret, steps_refl].
    apply (runs_steps_bind (fun _ _ => True)).
    { eapply runs_mono; [by apply (runs_reassemble (strict := strict))|]. by intros o w' [? _]. }
    intros [data|] w1 Hs1 _; apply steps_ok in Hs1 as Hw1; [|by apply runs_ret, steps_refl].
    destruct Hb as (? & ? & ? & _). by apply runs_deliver_sample.
  - by apply runs_handle_acknack.
  - by apply runs_handle_heartbeat.
  - destruct strict; [by destruct (Hna eq_refl hdr Eh)|by apply runs_handle_announce].
  - by apply runs_handle_gap.
  - by apply runs_ret, steps_refl.
Qed.
Lemma runs_handle_bytes peer frame w :
  world_ok w -> bytes_ok frame -> runs (fun _ w' => steps_if false w w') (handle_bytes peer frame) w.
Proof. intros Hw Hf. by apply runs_handle_frame. Qed.
End receive.

(** ** The other operations *)

Section operations.
Context {T : Type} `{Transport T} {strict : bool}.
Abbreviation steps := (steps_if strict).
Implicit Types w : World T.

Lemma runs_broadcast peers frame w :
  world_ok w ->
  runs (fun _ w' => steps w w') (for_each peers (fun peer => _ ← send_frame peer frame; mret tt)) w.
Proof.
  intros Hw. apply runs_for_each; [done|]. intros peer w1 _ Hs.
  by apply runs_send_unit, (steps_ok (strict := strict) w).
Qed.

Lemma runs_handle_peer_up peer w :
  world_ok w -> runs (fun _ w' => steps w w') (handle_peer_up peer) w.
Proof.
  intros Hw. unfold handle_peer_up. apply (runs_steps_bind (fun _ _ => True)).
  { apply runs_modify. split; [|done].
    apply steps_with_self; [done|apply part_ok_set_peers, Hw|done..]. }
  intros [] w1 Hs _. apply steps_ok in Hs as Hw1. unfold send_announce. apply runs_self_bind.
  destruct (encode_announce_total (snapshot_locked (w_self w1)) (p_announce_seq (w_self w1))) as [f Ef].
  eapply runs_bind; [by eapply (runs_encoded (fun f w' => w' = w1)); [exact Ef|]|].
  intros f' w2 ->. by apply runs_send_unit.
Qed.

(** The tables without what came from [peer]. *)
Definition without_peer (peer : PeerId) (p : ParticipantImpl) : ParticipantImpl :=
  set_net p (set_erase peer (p_peers p)) (map_keep (fun _ rp => negb (rp_peer rp =? peer)) (p_remote p))
    (map_erase peer (p_reassemblers p)).

Lemma without_peer_ok peer p : part_ok p -> part_ok (without_peer peer p).
Proof.
  intros [Hpre Hw Hr Hm Hws Hrs Hrem Hre]. split; simpl; try done.
  - by apply map_ok_keep.
  - intros g rp. rewrite map_find_keep by done. destruct (map_find g _) as [rp'|] eqn:E; [|done].
    case_if; [|done]. intros [= <-]. by eapply Hrem.
  - intros peer' r. rewrite map_find_erase. destruct (decide (peer' = peer)); [done|]. apply Hre.
Qed.

Lemma runs_handle_peer_down peer w :
  world_ok w -> runs (fun _ w' => steps_if false w w') (handle_peer_down peer) w.
Proof.
  intros Hw. unfold handle_peer_down. apply runs_self_bind. apply (runs_steps_bind (fun _ _ => True)).
  { apply runs_modify. split; [|done]. apply steps_with_self; [done| |done..].
    apply (without_peer_ok peer), Hw. }
  intros [] w1 Hs _. apply steps_ok in Hs as Hw1.
  case_if; [by apply runs_graph_changed|by apply runs_ret, steps_refl].
Qed.

Lemma heartbeats_ok p hb : part_ok p -> hb ∈ heartbeats p -> guid_ok hb.1.1.
Proof.
  intros Hp Hin. unfold heartbeats in Hin. apply list_elem_of_omap in Hin as (kv & Hkv & Hhb).
  revert Hhb. case_if; [done|]. destruct (w_history kv.2); [done|]. intros [= <-]. simpl.
  apply (wo_guid _ (po_writers _ Hp kv.1 kv.2 (entry_find _ _ (po_writers_map _ Hp) Hkv))).
Qed.

Lemma runs_send_heartbeats w :
  world_ok w -> runs (fun _ w' => steps w w') send_heartbeats w.
Proof.
  intros Hw. unfold send_heartbeats. apply runs_self_bind.
  apply runs_for_each; [done|]. intros peer w1 _ Hs1.
  apply runs_for_each; [by eapply (steps_ok (strict := strict))|]. intros hb w2 Hhb Hs2.
  pose proof (heartbeats_ok _ _ (proj1 Hw) Hhb) as Hg.
  eapply runs_bind; [by eapply (runs_encoded (fun f w' => w' = w2)); [by apply encode_heartbeat_bytes|]|].
  intros f w3 ->. by apply runs_send_unit, (steps_ok (strict := strict) w1).
Qed.

Lemma sweep_reasm_ok r now : peer_reasm_ok r -> peer_reasm_ok (fst (sweep_expired r now)).
Proof.
  intros [Hr Hm]. split; simpl; [|by apply map_ok_keep].
  intros k p. simpl. rewrite map_find_keep by done.
  destruct (map_find k (partials r)) as [p'|] eqn:E; [|done]. case_if; [|done]. intros [= <-]. by eapply Hr.
Qed.

Lemma map_find_zip {A B} (Q : A -> B -> Prop) (m : std_map Z A) (m' : std_map Z B) k b :
  Forall2 (fun x y => y.1 = x.1 /\ Q x.2 y.2) m m' -> map_find k m' = Some b ->
  exists a, map_find k m = Some a /\ Q a b.
Proof.
  induction 1 as [|[k1 a] [k2 b'] m m' [Hk HQ] Hall IH]; simpl in *; [done|]. subst k2.
  destruct (decide (k = k1)); [|done]. intros [= <-]. by exists a.
Qed.

Lemma runs_sweep w : world_ok w -> runs (fun _ w' => steps w w') sweep_reassemblers_locked w.
Proof.
  intros Hw. unfold sweep_reassemblers_locked. apply runs_self_bind.
  set (Q := fun (kv kv' : Z * Reassembler) =>
    kv'.1 = kv.1 /\ (peer_reasm_ok kv.2 -> peer_reasm_ok kv'.2)).
  apply (runs_steps_bind (fun swept w1 => w_self w1 = w_self w1 /\ Forall2 Q (p_reassemblers (w_self w)) swept)).
  { eapply runs_mono; [apply ((runs_mapM (strict := strict)) Q); [done|]|by intros swept w1 [? ?]].
    intros kv w1 _ Hs. eapply runs_bind; [by apply (runs_tick (strict := strict)), (steps_ok (strict := strict) w)|].
    intros now w2 (Hs' & _ & _). split; [done|]. split; [done|]. apply sweep_reasm_ok. }
  intros swept w1 Hs [_ Hall]. apply steps_ok in Hs as Hw1. apply runs_modify.
  apply steps_with_self; [done| |done..]. apply part_ok_set_reassemblers; [apply Hw1|].
  intros peer r Hr. destruct (map_find_zip (fun a b => peer_reasm_ok a -> peer_reasm_ok b) _ _ _ _ Hall Hr) as (r0 & Hr0 & Hok).
  by apply Hok, (po_reassemblers _ (proj1 Hw) peer).
Qed.

Lemma runs_announce_tick w : world_ok w -> runs (fun _ w' => steps w w') announce_tick w.
Proof.
  intros Hw. unfold announce_tick. apply (runs_steps_bind (fun _ _ => True)).
  { apply runs_modify. split; [|done].
    apply steps_with_self; [done|apply part_ok_set_announce_seq, Hw|done..]. }
  intros [] w1 Hs1 _. apply steps_ok in Hs1 as Hw1. apply (runs_steps_bind (fun _ _ => True)).
  { eapply runs_mono; [by apply runs_sweep|auto]. }
  intros [] w2 Hs2 _. apply steps_ok in Hs2 as Hw2. apply (runs_steps_bind (fun _ _ => True)).
  { unfold broadcast_announce. apply runs_self_bind.
    destruct (encode_announce_total (snapshot_locked (w_self w2)) (p_announce_seq (w_self w2))) as [f Ef].
    eapply runs_bind; [by eapply (runs_encoded (fun f w' => w' = w2)); [exact Ef|]|].
    intros f' w3 ->. eapply runs_mono; [by apply runs_broadcast|auto]. }
  intros [] w3 Hs3 _. by apply runs_send_heartbeats, (steps_ok (strict := strict) w2).
Qed.

Lemma runs_broadcast_writer_heartbeat ptr wr w :
  world_ok w -> map_find ptr (p_writers (w_self w)) = Some wr ->
  runs (fun _ w' => steps w w') (broadcast_writer_heartbeat ptr) w.
Proof.
  intros Hw Hwr. unfold broadcast_writer_heartbeat. apply runs_self_bind. rewrite Hwr.
  pose proof (wo_guid _ (po_writers _ (proj1 Hw) _ _ Hwr)) as Hg.
  eapply runs_bind; [by eapply (runs_encoded (fun f w' => w' = w)); [by apply encode_heartbeat_bytes|]|].
  intros f w1 ->. by apply runs_broadcast.
Qed.
End operations.

(** ** Local operations *)

Section local.
Context {T : Type} `{Transport T} {strict : bool}.
Abbreviation steps := (steps_if strict).
Implicit Types w : World T.

(** The local readers named by [local_readers] are in the table. *)
Lemma local_readers_in p wr ptr :
  part_ok p -> ptr ∈ local_readers p wr -> exists r, map_find ptr (p_readers p) = Some r.
Proof.
  intros Hp (kv & -> & Hkv)%list_elem_of_fmap. apply list_elem_of_filter in Hkv as [_ Hkv].
  exists kv.2. by apply entry_find; [apply Hp|].
Qed.

Lemma runs_send_to_targets targets (send : Z -> act T bool) any w :
  world_ok w ->
  (forall peer w1, steps w w1 -> runs (fun _ w2 => steps w1 w2 /\ sent_only w1 w2) (send peer) w1) ->
  runs (fun _ w2 => steps w w2 /\ sent_only w w2) (send_to_targets targets send any) w.
Proof.
  revert any w. induction targets as [|peer targets IH]; intros any w Hw Hsend; cbn [send_to_targets].
  { split; [by apply steps_refl|done]. }
  eapply runs_bind; [apply Hsend; by apply steps_refl|]. intros sent w1 [Hs E]. cbv beta.
  eapply runs_mono; [apply IH; [by eapply (steps_ok (strict := strict))|]|].
  - intros peer' w2 Hs2. apply Hsend. by eapply steps_trans.
  - intros b w2 [Hs2 E2]. split; [by eapply steps_trans|by eapply sent_only_trans].
Qed.

Lemma pub_ms_fits pub : fits 64 pub -> fits 64 (pub / 1000).
Proof. unfold fits. intros. split; [apply Z.div_pos; lia|]. apply Z.div_lt_upper_bound; lia. Qed.

(** A new sample keeps the writer well formed. *)
Lemma claim_writer_ok wr pub data now :
  writer_ok wr -> w_seq wr + 1 < 2 ^ 64 -> fits 64 pub -> bytes_ok data -> 64 + len data < 2 ^ 32 ->
  writer_ok (fst (claim_seq wr pub data now)).
Proof.
  intros [Hg Hh Hc] Hlt Hpub Hd Hl. pose proof (claim_seq_ok wr pub data now Hh Hlt) as Hh'.
  destruct (claim_seq_frame wr pub data now) as [_ Eg]. split; [by rewrite Eg|done|].
  rewrite claim_seq_cases by (done || apply Hh). case_if; [done|]. case_if; [done|]. simpl.
  assert (Hall : Forall cached_ok (w_history wr ++ [mkCached (w_seq wr + 1) (pub / 1000) pub data])).
  { apply Forall_app. split; [done|]. constructor; [|constructor].
    destruct Hh as [Hs _ _ _ _]. split_and!; simpl; [ulia|by apply pub_ms_fits|done|done]. }
  destruct (cached_history_suffix wr (mkCached (w_seq wr + 1) (pub / 1000) pub data) now) as [k Ek].
  rewrite Ek in Hall. by apply Forall_app in Hall as [_ ?].
Qed.

(** The table entry of the writer is replaced, and then only samples are delivered. *)
Definition writes (ptr : Z) (wr' : WriterImpl) w w' : Prop :=
  exists w3, world_ok w3 /\
    w_self w3 = set_writers (w_self w) (map_set ptr wr' (p_writers (w_self w))) /\ steps w3 w'.

(** What the writer does with the sample, given the two readings of the clock. *)
Definition claim_at w (wr : WriterImpl) (data : list Z) : WriterImpl * option Z :=
  claim_seq wr (w_sys w (w_tick w)) data (w_sys w (S (w_tick w)) / 1000).

Lemma runs_write_sample ptr wr data w :
  world_ok w -> map_find ptr (p_writers (w_self w)) = Some wr ->
  w_seq wr + 1 < 2 ^ 64 -> bytes_ok data -> 64 + len data < 2 ^ 32 ->
  runs (fun ok w' =>
      match claim_at w wr data with
      | (_, None) => ok = false /\ steps w w' /\ w_self w' = w_self w
      | (wr', Some seq) => seq = w_seq wr + 1 /\ writes ptr wr' w w'
      end) (write_sample ptr data) w.
Proof.
  intros Hw Hwr Hlt Hd Hl. unfold write_sample, system_now_us, system_now_ms, claim_at.
  apply runs_tick_bind, runs_tick_bind. cbn [w_sys w_tick ticked]. cbv beta zeta.
  set (pub := w_sys w (w_tick w)). set (now := w_sys w (S (w_tick w)) / 1000). set (w2 := ticked (ticked w)).
  assert (Hs : steps w w2) by (by apply steps_same_self). apply steps_ok in Hs as Hw2.
  assert (Hfp : fits 64 pub) by apply (proj2 Hw).
  apply runs_self_bind. change (w_self w2) with (w_self w). rewrite Hwr.
  pose proof (claim_writer_ok wr pub data now (po_writers _ (proj1 Hw) _ _ Hwr) Hlt Hfp Hd Hl) as Hok'.
  pose proof (claim_seq_number wr pub data now (ho_seq _ (wo_history _ (po_writers _ (proj1 Hw) _ _ Hwr))) Hlt)
    as Hnum.
  destruct (claim_seq wr pub data now) as [wr' [seq|]] eqn:Ecl.
  2:{ by apply runs_ret. }
  destruct Hnum as [-> _]. simpl in Hok'. apply runs_modify_bind.
  set (w3 := with_self _ w2).
  assert (Hw3 : world_ok w3).
  { split; [|apply Hw2]. unfold w3. simpl. apply part_ok_set_writers; [apply Hw2|apply map_ok_set, Hw2|].
    intros p' x. rewrite map_find_set. destruct (decide (p' = ptr)); [by intros [= <-]|].
    apply (po_writers _ (proj1 Hw2)). }
  eapply runs_mono with (P := fun _ w' => steps w3 w').
  2:{ intros ok w' Hs'. split; [done|]. by exists w3. }
  pose proof (po_writers _ (proj1 Hw) _ _ Hwr) as [Hg Hh _].
  assert (Hseq : fits 64 (w_seq wr + 1)) by (destruct Hh as [? _ _ _ _]; ulia).
  apply (runs_steps_bind (fun _ _ => True)).
  { eapply runs_mono; [apply (runs_for_each (strict := strict)); [done|]|auto]. intros r w4 Hr Hs4.
    destruct (local_readers_in _ _ _ (proj1 Hw) Hr) as [r0 Hr0].
    destruct (steps_find_reader w3 w4 r r0 Hs4 Hr0) as (r1 & Hr1 & _).
    apply (runs_steps_bind (fun _ w5 => exists r2, map_find r (p_readers (w_self w5)) = Some r2)).
    { eapply runs_mono; [by apply (runs_enqueue_at (strict := strict) r r1); [eapply (steps_ok (strict := strict))|..]|].
      intros out w5 (Hs5 & _ & n1 & n2 & E5 & _). split; [done|]. rewrite E5. simpl.
      eexists. apply map_find_set_eq. }
    intros out w5 Hs5 [r2 Hr2]. apply steps_ok in Hs5 as Hw5.
    case_if; [by eapply runs_fire_callback|by apply runs_ret, steps_refl]. }
  intros [] w4 Hs4 _. apply steps_ok in Hs4 as Hw4.
  eapply runs_bind.
  { apply runs_send_to_targets; [done|]. intros peer w5 Hs5.
    apply runs_send_sample_to; auto using reliable_flag_fits, pub_ms_fits. by eapply (steps_ok (strict := strict)). }
  intros any w5 [Hs5 _]. exact Hs5.
Qed.

Lemma Forall_map_find {A} (P : A -> Prop) k v0 (m : std_map Z A) :
  (forall k v, map_find k m = Some v -> P v) -> P v0 ->
  forall k' v, map_find k' (map_emplace k v0 m) = Some v -> P v.
Proof.
  intros Hm H0 k' v. unfold map_emplace. destruct (map_find k m); [apply Hm|].
  rewrite map_find_set. destruct (decide (k' = k)); [by intros [= <-]|apply Hm].
Qed.

(** The tables with a new entity at [ptr]. *)
Definition with_new_writer p ptr topic type q birth : ParticipantImpl :=
  let serial := u32 (p_entity_serial p + 1) in
  let w := new_writer (make_guid (p_prefix p) WRITER serial) topic type q birth in
  set_entities p serial (map_emplace ptr w (p_writers p)) (p_readers p).
Definition with_new_reader p ptr topic type q ignore_local birth : ParticipantImpl :=
  let serial := u32 (p_entity_serial p + 1) in
  let r := ReaderImpl.new_reader (make_guid (p_prefix p) READER serial) topic type q ignore_local birth in
  set_entities p serial (p_writers p) (map_emplace ptr r (p_readers p)).

Lemma with_new_writer_ok p ptr topic type q birth :
  part_ok p -> part_ok (with_new_writer p ptr topic type q birth).
Proof.
  intros [Hpre H1 H2 H3 H4 H5 H6 H7]. split; simpl; try done.
  - by apply map_ok_emplace.
  - apply Forall_map_find; [done|]. split; simpl; [|apply new_writer_ok|constructor].
    apply make_guid_ok; [apply Hpre|apply Hpre|simpl; ulia].
Qed.

Lemma with_new_reader_ok p ptr topic type q ign birth :
  part_ok p -> part_ok (with_new_reader p ptr topic type q ign birth).
Proof.
  intros [Hpre H1 H2 H3 H4 H5 H6 H7]. split; simpl; try done.
  - by apply map_ok_emplace.
  - apply Forall_map_find; [done|]. split; simpl; [|intros g; apply rx_init_ok].
    apply make_guid_ok; [apply Hpre|apply Hpre|simpl; ulia].
Qed.

(** What creating a writer or a reader leaves: nothing when the QoS is invalid, the
    new entity and fresh counts otherwise. *)
Lemma runs_create_writer ptr topic type q w :
  world_ok w ->
  runs (fun o w' => world_ok w' /\
    if qos_valid q
    then o = Some ptr /\ exists birth, w_self w' = recompute_matches (with_new_writer (w_self w) ptr topic type q birth)
    else o = None /\ w' = w) (create_writer ptr topic type q) w.
Proof.
  intros Hw. unfold create_writer. destruct (qos_valid q); [|done]. cbn [negb].
  eapply runs_bind; [by apply (runs_tick (strict := strict))|]. intros birth w1 (Hs1 & _ & E1).
  apply steps_ok in Hs1 as Hw1. cbv beta. apply runs_modify_bind. unfold announce_now.
  apply runs_ret_bind, runs_modify_bind, runs_ret. simpl. rewrite E1. split; [|by eauto].
  split; [|apply Hw1]. simpl. apply recompute_ok. by apply with_new_writer_ok, Hw.
Qed.

Lemma runs_replay_local ptr r' w :
  world_ok w -> map_find ptr (p_readers (w_self w)) = Some r' ->
  runs (fun _ w' => steps w w') (replay_local_history ptr) w.
Proof.
  intros Hw Hr'.
  unfold replay_local_history. apply runs_self_bind. rewrite Hr'.
  case_if; [by apply runs_ret, steps_refl|].
  apply (runs_steps_bind (fun _ w' => w_self w' = w_self w)).
  { eapply runs_mono; [by apply (runs_tick (strict := strict))|]. by intros n w' (? & _ & ?). }
  intros now w3 Hs3 E3. apply steps_ok in Hs3 as Hw3. set (todo := concat _).
  assert (Htodo : forall t, t ∈ todo -> exists kv, kv ∈ p_writers (w_self w) /\ t.1 = kv.2 /\ t.2 ∈ w_history kv.2).
  { intros t (l & Hl & Hin)%list_elem_of_In%in_concat.
    apply list_elem_of_In, list_elem_of_fmap in Hl as (kv & -> & Hkv). apply list_elem_of_In in Hin.
    revert Hin. cbv zeta. case_if; [by intros ?%not_elem_of_nil|].
    intros (e & -> & [_ He]%list_elem_of_filter)%list_elem_of_fmap. by exists kv. }
  clearbody todo. rewrite <- E3 in Hr'.
  apply (runs_steps_bind (fun _ w4 => exists r4, map_find ptr (p_readers (w_self w4)) = Some r4)).
  { eapply runs_mono; [apply ((runs_mapM (strict := strict)) (fun _ _ => True)); [done|]|].
    - intros t w4 Ht Hs4. destruct (Htodo t Ht) as (kv & Hkv & -> & He).
      destruct (steps_find_reader w3 w4 ptr r' Hs4 Hr') as (r4 & Hr4 & _).
      pose proof (entry_find _ _ (po_writers_map _ (proj1 Hw)) Hkv) as Hf.
      pose proof (wo_cached _ (po_writers _ (proj1 Hw) _ _ Hf)) as Hc. rewrite Forall_forall in Hc.
      destruct (Hc _ He) as [Hseq _].
      eapply runs_mono; [by apply (runs_enqueue_at (strict := strict) ptr r4); [eapply (steps_ok (strict := strict))|..]|]. by intros ? ? [? _].
    - intros outs w4 [Hs4 _]. split; [done|].
      destruct (steps_find_reader w3 w4 ptr r' Hs4 Hr') as (r4 & Hr4 & _). by exists r4. }
  intros outs w4 Hs4 [r4 Hr4]. apply steps_ok in Hs4 as Hw4.
  case_if; [by eapply runs_fire_callback|by apply runs_ret, steps_refl].
Qed.

Lemma runs_create_reader ptr topic type q ign w :
  world_ok w -> map_find ptr (p_readers (w_self w)) = None ->
  runs (fun o w' => world_ok w' /\
    if qos_valid q
    then o = Some ptr /\ exists birth w2, world_ok w2 /\
      w_self w2 = recompute_matches (with_new_reader (w_self w) ptr topic type q ign birth) /\ steps w2 w'
    else o = None /\ w' = w) (create_reader ptr topic type q ign) w.
Proof.
  intros Hw Hfresh. unfold create_reader. destruct (qos_valid q); [|done]. cbn [negb].
  eapply runs_bind; [by apply (runs_tick (strict := strict))|]. intros birth w1 (Hs1 & _ & E1).
  apply steps_ok in Hs1 as Hw1. cbv beta. apply runs_modify_bind. unfold announce_now.
  apply runs_ret_bind, runs_modify_bind. set (w2 := with_self _ _).
  assert (E2 : w_self w2 = recompute_matches (with_new_reader (w_self w) ptr topic type q ign birth)).
  { unfold w2. simpl. by rewrite E1. }
  assert (Hw2 : world_ok w2).
  { split; [|apply Hw1]. rewrite E2. apply recompute_ok. by apply with_new_reader_ok, Hw. }
  assert (Hr : exists r', map_find ptr (p_readers (w_self w2)) = Some r').
  { rewrite E2. eapply recompute_find. simpl. unfold map_emplace. rewrite Hfresh. apply map_find_set_eq. }
  destruct Hr as [r' Hr]. eapply runs_bind; [by eapply runs_replay_local|]. intros [] w3 Hs3.
  apply runs_ret. split; [by eapply (steps_ok (strict := strict))|]. split; [done|]. by exists birth, w2.
Qed.

Lemma map_find_erased {A} (P : A -> Prop) k (m : std_map Z A) :
  (forall k v, map_find k m = Some v -> P v) -> forall k' v, map_find k' (map_erase k m) = Some v -> P v.
Proof. intros Hm k' v. rewrite map_find_erase. destruct (decide (k' = k)); [done|apply Hm]. Qed.

Lemma runs_destroy_writer ptr w :
  world_ok w ->
  runs (fun _ w' => world_ok w' /\
    w_self w' = recompute_matches (set_writers (w_self w) (map_erase ptr (p_writers (w_self w)))))
    (destroy_writer ptr) w.
Proof.
  intros Hw. unfold destroy_writer, announce_now. apply runs_modify_bind, runs_ret_bind, runs_modify.
  split; [|done]. split; [|apply Hw]. simpl. apply recompute_ok. destruct Hw as [Hp _].
  apply part_ok_set_writers; [done|apply map_ok_erase, Hp|].
  apply map_find_erased. apply (po_writers _ Hp).
Qed.

Lemma runs_destroy_reader ptr w :
  world_ok w ->
  runs (fun _ w' => world_ok w' /\
    w_self w' = recompute_matches (set_readers (w_self w) (map_erase ptr (p_readers (w_self w)))))
    (destroy_reader ptr) w.
Proof.
  intros Hw. unfold destroy_reader, announce_now. apply runs_modify_bind, runs_ret_bind, runs_modify.
  split; [|done]. split; [|apply Hw]. simpl. apply recompute_ok. destruct Hw as [Hp _].
  apply part_ok_set_readers; [done|apply map_ok_erase, Hp|].
  apply map_find_erased. apply (po_readers _ Hp).
Qed.
End local.
