(* ===== verification/Matching.v ===== *)
(** * Match counts

    [matched_count_] of every writer and reader is what a recount over the current
    tables would give, whatever the participant goes through. *)

From S2P Require Import Prelude Memory StdMap Guid Qos Frame Fragment Reassembler ReaderImpl WriterImpl Reliability Discovery Participant ParticipantFacts.

Record matches_ok (p : ParticipantImpl) : Prop := {
  mo_writers ptr w : map_find ptr (p_writers p) = Some w -> w_matched_count w = writer_matches p w;
  mo_readers ptr r : map_find ptr (p_readers p) = Some r -> r_matched_count r = reader_matches p r;
}.

(** ** What the counts depend on *)

Lemma concat_fmap {A B} (f : A -> B) (l : list (list A)) : f <$> concat l = concat ((fun k : list A => f <$> k) <$> l).
Proof. induction l as [|a l IH]; simpl; [done|]. by rewrite fmap_app, IH. Qed.

(** The part of an endpoint that matching looks at. *)
Definition ep_sig (e : EndpointRecord) : EntityKind * list Z * list Z * QosProfile :=
  (ep_kind e, ep_topic e, ep_type_name e, ep_qos e).

Definition writer_sig (w : WriterImpl) : list Z * list Z * QosProfile := (w_topic w, w_type w, w_qos w).
Definition reader_sig (r : ReaderImpl) : list Z * list Z * QosProfile := (r_topic r, r_type r, r_qos r).

Definition same_signature (p p' : ParticipantImpl) : Prop :=
  ep_sig <$> remote_endpoints p' = ep_sig <$> remote_endpoints p /\
  view writer_sig (p_writers p') = view writer_sig (p_writers p) /\
  view reader_sig (p_readers p') = view reader_sig (p_readers p).

(** A view determines every coarser one. *)
Lemma view_coarser {A B C} (f : A -> B) (g : B -> C) (m m' : std_map Z A) :
  view f m = view f m' -> view (fun a => g (f a)) m = view (fun a => g (f a)) m'.
Proof.
  intros E. apply (f_equal (view g)) in E. unfold view in *. rewrite <- !list_fmap_compose in E. exact E.
Qed.

Lemma same_signature_views p p' :
  ep_sig <$> remote_endpoints p' = ep_sig <$> remote_endpoints p ->
  view writer_view (p_writers p') = view writer_view (p_writers p) ->
  view reader_view (p_readers p') = view reader_view (p_readers p) -> same_signature p p'.
Proof.
  intros E1 E2 E3. split_and!; [done|exact (view_coarser _ writer_sig _ _ E2)|].
  exact (view_coarser _ (fun v => (v.1.1.1.1.1.2, v.1.1.1.1.2, v.1.1.1.2)) _ _ E3).
Qed.

Lemma count_if_fmap {A B} (f : A -> B) (g : B -> bool) (l : list A) :
  count_if (fun a => g (f a)) l = count_if g (f <$> l).
Proof. symmetry. exact (length_filter_fmap f (fun b => g b = true) l). Qed.

Lemma count_if_map {A B} (f : A -> B) (g : B -> bool) (l k : list A) :
  f <$> l = f <$> k -> count_if (fun a => g (f a)) l = count_if (fun a => g (f a)) k.
Proof. intros E. by rewrite (count_if_fmap f g l), (count_if_fmap f g k), E. Qed.

(** The tests of the four counts, on signatures and views. *)
Definition sig_reader_for (w : WriterImpl) (s : EntityKind * list Z * list Z * QosProfile) : bool :=
  bool_decide (s.1.1.1 = READER) && bool_decide (s.1.1.2 = w_topic w) &&
  bool_decide (s.1.2 = w_type w) && qos_compatible s.2 (w_qos w).
Definition sig_writer_for (r : ReaderImpl) (s : EntityKind * list Z * list Z * QosProfile) : bool :=
  bool_decide (s.1.1.1 = WRITER) && (bool_decide (s.1.1.2 = r_topic r) &&
  bool_decide (s.1.2 = r_type r) && qos_accepted_by_reader (r_qos r) s.2).
Definition view_reader_for (w : WriterImpl) (s : Z * (list Z * list Z * QosProfile)) : bool :=
  bool_decide (s.2.1.1 = w_topic w) && bool_decide (s.2.1.2 = w_type w) && qos_compatible s.2.2 (w_qos w).
Definition view_writer_for (r : ReaderImpl) (s : Z * (list Z * list Z * QosProfile)) : bool :=
  bool_decide (s.2.1.1 = r_topic r) && bool_decide (s.2.1.2 = r_type r) &&
  qos_accepted_by_reader (r_qos r) s.2.2.

Lemma writer_matches_same p p' w w' :
  same_signature p p' -> writer_sig w' = writer_sig w -> writer_matches p' w' = writer_matches p w.
Proof.
  intros (Er & _ & Ev) Hw. unfold writer_matches.
  injection Hw as -> -> ->. f_equal.
  - apply (count_if_map ep_sig (sig_reader_for w)), Er.
  - apply (count_if_map (fun kv : Z * ReaderImpl => (kv.1, reader_sig kv.2)) (view_reader_for w)), Ev.
Qed.

Lemma reader_matches_same p p' r r' :
  same_signature p p' -> reader_sig r' = reader_sig r -> reader_matches p' r' = reader_matches p r.
Proof.
  intros (Er & Ev & _) Hr. unfold reader_matches.
  injection Hr as -> -> ->. f_equal.
  - apply (count_if_map ep_sig (sig_writer_for r)), Er.
  - apply (count_if_map (fun kv : Z * WriterImpl => (kv.1, writer_sig kv.2)) (view_writer_for r)), Ev.
Qed.

(** ** Counting *)

Lemma recompute_signature p : same_signature p (recompute_matches p).
Proof. apply same_signature_views; [done|apply recompute_views..]. Qed.

Lemma recompute_matches_ok p : matches_ok (recompute_matches p).
Proof.
  pose proof (recompute_signature p) as Hs. split.
  - intros ptr w Hf. rewrite recompute_eq in Hf. simpl in Hf. rewrite map_find_view in Hf.
    destruct (map_find ptr (p_writers p)) as [w0|]; [|done]. injection Hf as <-. simpl.
    symmetry. by apply writer_matches_same.
  - intros ptr r Hf. rewrite recompute_eq in Hf. simpl in Hf. rewrite map_find_view in Hf.
    destruct (map_find ptr (p_readers p)) as [r0|]; [|done]. injection Hf as <-. simpl.
    symmetry. apply reader_matches_same; [|done]. destruct Hs as (E1 & E2 & E3). split; [done|]. split; [reflexivity|done].
Qed.

(** Entities with the same identity and the same counts keep them exact. *)
Lemma matches_ok_same p p' :
  same_signature p p' ->
  view w_matched_count (p_writers p') = view w_matched_count (p_writers p) ->
  view r_matched_count (p_readers p') = view r_matched_count (p_readers p) ->
  matches_ok p -> matches_ok p'.
Proof.
  intros Hs Ew Er [Hw Hr]. pose proof Hs as (_ & Ev & Erv). split.
  - intros ptr w' Hf. pose proof (map_find_view writer_sig ptr (p_writers p')) as H1.
    pose proof (map_find_view w_matched_count ptr (p_writers p')) as H2.
    rewrite Ev, map_find_view, Hf in H1. rewrite Ew, map_find_view, Hf in H2.
    destruct (map_find ptr (p_writers p)) as [w|] eqn:E; [|done]. cbn [fmap option_fmap option_map] in *.
    injection H2 as <-. rewrite (Hw _ _ E). symmetry. apply writer_matches_same; [done|congruence].
  - intros ptr r' Hf. pose proof (map_find_view reader_sig ptr (p_readers p')) as H1.
    pose proof (map_find_view r_matched_count ptr (p_readers p')) as H2.
    rewrite Erv, map_find_view, Hf in H1. rewrite Er, map_find_view, Hf in H2.
    destruct (map_find ptr (p_readers p)) as [r|] eqn:E; [|done]. cbn [fmap option_fmap option_map] in *.
    injection H2 as <-. rewrite (Hr _ _ E). symmetry. apply reader_matches_same; [done|congruence].
Qed.

Lemma claim_seq_sig wr pub data now :
  writer_sig (fst (claim_seq wr pub data now)) = writer_sig wr /\
  w_matched_count (fst (claim_seq wr pub data now)) = w_matched_count wr.
Proof. unfold claim_seq, cache_sample. by repeat case_if. Qed.

Section matching.
Context {T : Type} `{Transport T}.
Implicit Types w : World T.

Definition good w : Prop := world_ok w /\ matches_ok (w_self w).

Lemma quiet_good w w' : good w -> steps_if true w w' -> good w'.
Proof.
  intros [Hw Hm] Hs. split; [by eapply steps_ok|]. destruct Hs as (_ & _ & E1 & E2 & Hq & _).
  destruct (Hq eq_refl) as [Er Ew Erc]. eapply matches_ok_same; [|done..].
  apply same_signature_views; [|done..]. unfold remote_endpoints. by rewrite Er.
Qed.

(** After a recount nothing else matters. *)
Lemma recount_good w :
  world_ok w -> runs (fun _ w' => good w') (_ ← modify recompute_matches; fire_graph_callback) w.
Proof.
  intros Hw. apply runs_modify_bind.
  assert (Hg : good (with_self (recompute_matches (w_self w)) w)).
  { split; [|apply recompute_matches_ok]. by apply (steps_ok (strict := false) w), steps_recompute. }
  eapply runs_mono; [by apply (runs_fire_graph (strict := true)), Hg|].
  intros u w'. by apply quiet_good.
Qed.

(** Replacing a remote participant by one whose endpoints match the same way. *)
Lemma set_remote_good w key rp rp' :
  good w -> map_find key (p_remote (w_self w)) = Some rp -> snapshot_ok (rp_snap rp') ->
  ep_sig <$> snap_endpoints (rp_snap rp') = ep_sig <$> snap_endpoints (rp_snap rp) ->
  good (with_self (set_remote (w_self w) (map_set key rp' (p_remote (w_self w)))) w).
Proof.
  intros [Hw Hm] Hf Hs E. split; [by eapply steps_ok, steps_set_remote|].
  apply (matches_ok_same (w_self w)); [|done..]. split_and!; [|done..].
  pose proof (view_set (fun rp => ep_sig <$> snap_endpoints (rp_snap rp)) key rp rp' (p_remote (w_self w))
    (po_remote_map _ (proj1 Hw)) Hf E) as Hv.
  apply (f_equal (fun l => concat l.*2)) in Hv. unfold view in Hv.
  rewrite <- !list_fmap_compose in Hv. unfold remote_endpoints. rewrite !concat_fmap.
  rewrite <- !list_fmap_compose. exact Hv.
Qed.

(** ** Operations *)

(** An announcement of a known participant that changes no endpoint changes no QoS. *)
Definition qos_stable (p : ParticipantImpl) (frame : list Z) : Prop :=
  forall snap seq rp, decode_announce frame = Done (snap, seq) ->
    map_find (participant_guid snap) (p_remote p) = Some rp ->
    endpoints_eqb (snap_endpoints (rp_snap rp)) (snap_endpoints snap) = true ->
    ep_qos <$> snap_endpoints (rp_snap rp) = ep_qos <$> snap_endpoints snap.

Lemma endpoints_eqb_sig es es' :
  endpoints_eqb es es' = true -> ep_qos <$> es = ep_qos <$> es' -> ep_sig <$> es' = ep_sig <$> es.
Proof.
  revert es'. induction es as [|e es IH]; intros [|e' es']; simpl; try done.
  intros [He Hes]%andb_prop [= Eq E]. f_equal; [|by apply IH]. unfold endpoint_eqb in He.
  rewrite !andb_true_iff, !bool_decide_eq_true in He. unfold ep_sig. intuition congruence.
Qed.

Lemma good_ret {A} (a : A) w : good w -> runs (fun _ w' => good w') (mret a) w.
Proof. done. Qed.

Lemma good_quietly {A} (m : act T A) w :
  good w -> runs (fun _ w' => steps_if true w w') m w -> runs (fun _ w' => good w') m w.
Proof. intros Hg Hm. eapply runs_mono; [exact Hm|]. intros a w'. by apply quiet_good. Qed.

Lemma good_handle_announce peer frame w :
  good w -> bytes_ok frame -> qos_stable (w_self w) frame ->
  runs (fun _ w' => good w') (handle_announce peer frame) w.
Proof.
  intros Hg Hf Hq. unfold handle_announce. eapply runs_bind.
  { eapply (runs_decoded _ (fun o w' => w' = w /\
      match o with Some b => snapshot_ok b.1 /\ decode_announce frame = Done b | None => True end));
      [by apply decode_announce_safe|done|]. intros b Hb E. split_and!; [done|apply Hb|done]. }
  intros [[snap seq]|] w1 [-> Hb]; [|by apply good_ret]. destruct Hb as [Hsnap Hdec]. simpl in Hsnap.
  apply runs_self_bind. specialize (Hq snap seq).
  set (key := participant_guid snap) in *. set (old := map_find key (p_remote (w_self w))) in *.
  apply (runs_bind (fun _ w1 => good w1 /\ match old with
    | None => True
    | Some rp => exists rp', map_find key (p_remote (w_self w1)) = Some rp' /\ rp_snap rp' = rp_snap rp end)).
  { destruct old as [rp|] eqn:Eo; [|by apply runs_ret].
    apply (runs_bind (fun _ w1 => good w1 /\ w_self w1 = w_self w)).
    { eapply runs_mono; [apply (runs_tick (strict := true)), Hg|]. intros n w1 (Hs & _ & E).
      split; [by eapply quiet_good|done]. }
    intros now w1 [Hg1 E1]. apply runs_modify_bind, runs_ret. split.
    - apply (set_remote_good _ _ rp); [done|by rewrite E1| |done]. apply (po_remote _ (proj1 (proj1 Hg)) _ _ Eo).
    - simpl. rewrite map_find_set_eq. by eexists. }
  intros stale w1 [Hg1 Hold]. case_if; [by apply good_ret|].
  apply (runs_bind (fun _ w2 => good w2 /\ w_self w2 = w_self w1)).
  { eapply runs_mono; [apply (runs_tick (strict := true)), Hg1|]. intros n w2 (Hs & _ & ?).
    split; [by eapply quiet_good|done]. }
  intros now w2 [Hg2 E2]. apply runs_modify_bind. set (w3 := with_self _ w2).
  assert (Hw3 : world_ok w3).
  { eapply (steps_ok (strict := false)), steps_set_remote; [apply Hg2|done]. }
  apply (runs_bind (fun _ w4 => sent_only w3 w4)); [by apply runs_replay_sent|].
  intros [] w4 Hs4. assert (Hst : steps_if true w3 w4) by (by apply sent_only_steps).
  case_if; [apply recount_good; by eapply (steps_ok (strict := true))|]. apply runs_ret.
  eapply quiet_good; [|exact Hst].
  destruct old as [rp|]; [|done]. destruct Hold as (rp' & Hf' & Esnap).
  assert (Heq : endpoints_eqb (snap_endpoints (rp_snap rp)) (snap_endpoints snap) = true) .
  { apply negb_false_iff, andb_true_iff in E0. apply E0. }
  apply (set_remote_good _ _ rp'); [done|by rewrite E2|done|]. simpl. rewrite Esnap.
  apply endpoints_eqb_sig; [done|by eapply Hq].
Qed.

(** The frames of a participant other than announcements leave the remote table alone. *)
Lemma good_handle_bytes peer frame w :
  good w -> bytes_ok frame -> qos_stable (w_self w) frame ->
  runs (fun _ w' => good w') (handle_bytes peer frame) w.
Proof.
  intros Hg Hf Hq. pose proof (proj1 Hg) as Hw. unfold handle_bytes. eapply runs_bind.
  { eapply (runs_decoded _ (fun o w' => w' = w)); [by apply decode_header_safe|done|done]. }
  intros [hdr|] w1 ->; [|by apply good_ret]. destruct (hdr_type hdr).
  - eapply runs_bind.
    { eapply (runs_decoded _ (fun o w' => w' = w /\ match o with Some b => data_ok b | None => True end));
        [by apply decode_data_safe|done|done]. }
    intros [b|] w1 [-> Hb]; [|by apply good_ret]. destruct Hb as (? & ? & ? & ? & ?).
    by apply good_quietly, runs_deliver_sample.
  - eapply runs_bind.
    { eapply (runs_decoded _ (fun o w' => w' = w /\ match o with Some b => data_frag_ok b | None => True end));
        [by apply decode_data_frag_safe|done|done]. }
    intros [b|] w1 [-> Hb]; [|by apply good_ret]. eapply (runs_bind (fun _ w' => good w')).
    { eapply runs_mono; [by apply (runs_reassemble (strict := true))|]. intros o w' [Hs _].
      by eapply quiet_good. }
    intros [data|] w1 Hg1; [|by apply good_ret]. destruct Hb as (? & ? & ? & _).
    apply good_quietly; [done|]. by apply runs_deliver_sample; [apply Hg1|..].
  - by apply good_quietly, runs_handle_acknack.
  - by apply good_quietly, runs_handle_heartbeat.
  - by apply good_handle_announce.
  - by apply good_quietly, runs_handle_gap.
  - by apply good_ret.
Qed.

Lemma keep_all {V} (drop : V -> bool) (m : std_map Guid V) :
  existsb (fun kv => drop kv.2) m = false -> map_keep (fun _ v => negb (drop v)) m = m.
Proof.
  unfold map_keep. induction m as [|[k v] m IH]; simpl; [done|]. intros [Hk Hm]%orb_false_iff.
  rewrite filter_cons_True by (simpl; by rewrite Hk). by rewrite IH.
Qed.

Lemma good_handle_peer_down peer w : good w -> runs (fun _ w' => good w') (handle_peer_down peer) w.
Proof.
  intros [Hw Hm]. unfold handle_peer_down. apply runs_self_bind, runs_modify_bind.
  set (w1 := with_self _ w).
  assert (Hw1 : world_ok w1) by (split; [apply (without_peer_ok peer), Hw|apply Hw]).
  destruct (existsb _ _) eqn:Eg; [by apply recount_good|]. apply runs_ret. split; [done|].
  apply (matches_ok_same (w_self w)); [|done..]. split_and!; [|done..].
  unfold remote_endpoints. simpl. by rewrite (keep_all (fun rp => rp_peer rp =? peer)).
Qed.

(** A new sample leaves the writer's signature and its count. *)
Lemma good_write_sample ptr wr data w :
  good w -> map_find ptr (p_writers (w_self w)) = Some wr ->
  w_seq wr + 1 < 2 ^ 64 -> bytes_ok data -> 64 + len data < 2 ^ 32 ->
  runs (fun _ w' => good w') (write_sample ptr data) w.
Proof.
  intros Hg Hf Hlt Hd Hl. eapply runs_mono; [by apply (runs_write_sample (strict := true)); [apply Hg|..]|].
  intros ok w' Hcl. unfold claim_at in Hcl. set (pub := w_sys w (w_tick w)) in Hcl.
  set (now := w_sys w _ / 1000) in Hcl. pose proof (claim_seq_sig wr pub data now) as Hsig.
  destruct (claim_seq wr pub data now) as [wr' [seq|]]; [|by eapply quiet_good, Hcl].
  destruct Hcl as (_ & w3 & Hw3 & E3 & Hs). simpl in Hsig. destruct Hsig as [Hsig Hcnt].
  eapply quiet_good; [|exact Hs]. split; [done|].
  pose proof (po_writers_map _ (proj1 (proj1 Hg))) as Hok.
  rewrite E3. apply (matches_ok_same (w_self w)); [| |done|apply Hg].
  - split_and!; [done| |done]. simpl. by eapply view_set.
  - simpl. by eapply view_set.
Qed.

Lemma good_recomputed w' p :
  world_ok w' -> w_self w' = recompute_matches p -> good w'.
Proof. intros Hw E. split; [done|]. rewrite E. apply recompute_matches_ok. Qed.

Lemma good_create_writer ptr topic type q w :
  good w -> runs (fun _ w' => good w') (create_writer ptr topic type q) w.
Proof.
  intros Hg. eapply runs_mono; [apply (runs_create_writer (strict := true)), Hg|].
  intros o w' [Hw' Hcase]. destruct (qos_valid q); [|by destruct Hcase as [_ ->]].
  destruct Hcase as (_ & birth & E). by eapply good_recomputed.
Qed.

Lemma good_create_reader ptr topic type q ign w :
  good w -> map_find ptr (p_readers (w_self w)) = None ->
  runs (fun _ w' => good w') (create_reader ptr topic type q ign) w.
Proof.
  intros Hg Hf. eapply runs_mono; [by apply (runs_create_reader (strict := true)); [apply Hg|]|].
  intros o w' [Hw' Hcase]. destruct (qos_valid q); [|by destruct Hcase as [_ ->]].
  destruct Hcase as (_ & birth & w2 & Hw2 & E & Hs). eapply quiet_good; [|exact Hs].
  by eapply good_recomputed.
Qed.

Lemma good_destroy_writer ptr w : good w -> runs (fun _ w' => good w') (destroy_writer ptr) w.
Proof.
  intros Hg. eapply runs_mono; [apply runs_destroy_writer, Hg|]. intros u w' [Hw E]. by eapply good_recomputed.
Qed.

Lemma good_destroy_reader ptr w : good w -> runs (fun _ w' => good w') (destroy_reader ptr) w.
Proof.
  intros Hg. eapply runs_mono; [apply runs_destroy_reader, Hg|]. intros u w' [Hw E]. by eapply good_recomputed.
Qed.
End matching.
