(* ===== verification/Session.v ===== *)
(** * Sessions of a participant

    A participant lives through calls of its API, of its transports and of its own
    thread, in any order; each is one step here, one after the other ([Interleave] has the
    calls that overlap).  The step relation, its reachable states, and their invariant. *)

From S2P Require Import Prelude Memory StdMap Guid Qos Frame Fragment Reassembler ReaderImpl WriterImpl Reliability Discovery Participant ParticipantFacts Matching.

(** ** Entity ids *)

Definition entity_guids (p : ParticipantImpl) : list Guid :=
  ((fun kv => w_guid kv.2) <$> p_writers p) ++ ((fun kv => r_guid kv.2) <$> p_readers p).

(** Ids are distinct, and come from the serials handed out so far. *)
Record guids_ok (p : ParticipantImpl) : Prop := {
  go_serial : 0 <= p_entity_serial p < 2 ^ 24;
  go_nodup : NoDup (entity_guids p);
  go_source g : g ∈ entity_guids p ->
    exists kind n, kind_ok kind /\ 0 <= n <= p_entity_serial p /\ g = make_guid (p_prefix p) kind n;
}.

Lemma map_set_perm {A} k v (m : std_map Z A) : map_find k m = None -> map_set k v m ≡ₚ (k, v) :: m.
Proof.
  induction m as [|[k' v'] m IH]; simpl; [done|]. destruct (decide (k = k')); [done|]. intros Hf.
  destruct (key_lt k k'); [done|]. rewrite IH by done. apply Permutation_swap.
Qed.

Lemma fmap_view {A B C} (f : A -> B) (g : B -> C) (m m' : std_map Z A) :
  view f m = view f m' -> (fun kv => g (f kv.2)) <$> m = (fun kv => g (f kv.2)) <$> m'.
Proof.
  intros E. apply (f_equal (fmap (fun kv => g kv.2))) in E. unfold view in E.
  rewrite <- !list_fmap_compose in E. exact E.
Qed.

Lemma guids_same p p' :
  identity p' = identity p ->
  view writer_view (p_writers p') = view writer_view (p_writers p) ->
  view reader_view (p_readers p') = view reader_view (p_readers p) -> guids_ok p -> guids_ok p'.
Proof.
  intros [= E1 _ E2] Ew Er [Hs Hnd Hsrc].
  assert (E : entity_guids p' = entity_guids p).
  { unfold entity_guids. f_equal; [exact (fmap_view _ w_guid _ _ Ew)|].
    exact (fmap_view _ (fun v => v.1.1.1.1.1.1) _ _ Er). }
  split; rewrite ?E, ?E1, ?E2; done.
Qed.

Lemma guids_steps {T} strict (w w' : World T) :
  steps_if strict w w' -> guids_ok (w_self w) -> guids_ok (w_self w').
Proof. intros (_ & _ & Ew & Er & _ & Ei). by apply guids_same. Qed.

Lemma guids_recompute p : guids_ok p -> guids_ok (recompute_matches p).
Proof. destruct (recompute_views p) as [Ew Er]. by apply guids_same. Qed.

(** One more id, with the next serial. *)
Lemma guids_new p p' kind :
  guids_ok p -> length (p_prefix p) = 12%nat -> kind_ok kind -> p_entity_serial p + 1 < 2 ^ 24 ->
  p_prefix p' = p_prefix p -> p_entity_serial p' = p_entity_serial p + 1 ->
  entity_guids p' ≡ₚ make_guid (p_prefix p) kind (p_entity_serial p + 1) :: entity_guids p -> guids_ok p'.
Proof.
  intros [Hs Hnd Hsrc] Hl Hk Hlt Ep Es Hperm. split; rewrite ?Hperm, ?Ep, ?Es; [lia| |].
  - constructor; [|done]. intros (k & n & [_ Hk'] & Hn & E)%Hsrc.
    destruct (make_guid_inj _ _ _ _ _ _ Hl Hl E) as (_ & _ & Emod).
    rewrite !Z.mod_small in Emod by lia. lia.
  - intros g. rewrite Hperm. intros [-> |Hg]%elem_of_cons; [exists kind, (p_entity_serial p + 1); split_and!; [done|lia|lia|done]|].
    destruct (Hsrc g Hg) as (k & n & ? & ? & ?). exists k, n. split_and!; [done|lia|lia|done].
Qed.

Lemma guids_sub p p' :
  guids_ok p -> p_prefix p' = p_prefix p -> p_entity_serial p' = p_entity_serial p ->
  sublist (entity_guids p') (entity_guids p) -> guids_ok p'.
Proof.
  intros [Hs Hnd Hsrc] Ep Es Hsub. split; rewrite ?Ep, ?Es; [done| |].
  - by eapply sublist_NoDup.
  - intros g Hg. apply Hsrc. by eapply elem_of_sublist.
Qed.

(** An id finds its own entity. *)
Lemma find_by_guid {A} (f : A -> Guid) (m : std_map Z A) ptr a :
  NoDup ((fun kv => f kv.2) <$> m) -> map_find ptr m = Some a ->
  fst <$> find (fun kv => bool_decide (f kv.2 = f a)) m = Some ptr.
Proof.
  intros Hnd Hf. apply map_find_In in Hf. destruct (find _ m) as [kv|] eqn:E.
  - apply find_some in E as [Hin Hg%bool_decide_eq_true]. apply list_elem_of_In in Hin.
    by rewrite (fmap_NoDup_inj (fun kv => f kv.2) m kv (ptr, a) Hnd Hin Hf Hg).
  - exfalso. apply list_elem_of_In in Hf. apply (find_none _ _ E) in Hf. by rewrite bool_decide_true in Hf.
Qed.

(** ** Steps *)

(** [Reader::take] and [Reader::available] on a reader of the table. *)
Section reader_calls.
Context {T : Type}.

Definition at_reader (ptr : Z) (f : ReaderImpl -> ReaderImpl) : act T unit :=
  p ← get_self;
  match map_find ptr (p_readers p) with
  | None => fun _ => UB
  | Some r => modify (fun p => set_readers p (map_set ptr (f r) (p_readers p)))
  end.

Definition take_at (ptr : Z) : act T unit :=
  now ← system_now_ms; at_reader ptr (fun r => fst (reader_take r now)).
Definition available_at (ptr : Z) : act T unit :=
  now ← system_now_ms; at_reader ptr (fun r => fst (available r now)).
End reader_calls.

Inductive Op :=
| PeerUp (peer : PeerId)
| PeerDown (peer : PeerId)
| Receive (peer : PeerId) (frame : list Z)
| AnnounceTick
| CreateWriter (ptr : Z) (topic type : list Z) (q : QosProfile)
| CreateReader (ptr : Z) (topic type : list Z) (q : QosProfile) (ignore_local : bool)
| DestroyWriter (ptr : Z)
| DestroyReader (ptr : Z)
| Write (ptr : Z) (data : option (list Z)) (length : Z)
| AssertLiveliness (ptr : Z)
| Take (ptr : Z)
| Available (ptr : Z)
| SetDataCallback (ptr : Z) (has : bool)
| AddNode (ns name : list Z)
| RemoveNode (ns name : list Z)
| SetGraphCallback (has : bool).

Section session.
Context {T : Type} `{Transport T}.
Implicit Types w : World T.

Definition run_op (op : Op) : act T unit :=
  match op with
  | PeerUp peer => handle_peer_up peer
  | PeerDown peer => handle_peer_down peer
  | Receive peer frame => handle_bytes peer frame
  | AnnounceTick => announce_tick
  | CreateWriter ptr topic type q => _ ← create_writer ptr topic type q; mret tt
  | CreateReader ptr topic type q ign => _ ← create_reader ptr topic type q ign; mret tt
  | DestroyWriter ptr => destroy_writer ptr
  | DestroyReader ptr => destroy_reader ptr
  | Write ptr data length => _ ← writer_write ptr data length; mret tt
  | AssertLiveliness ptr => assert_liveliness ptr
  | Take ptr => take_at ptr
  | Available ptr => available_at ptr
  | SetDataCallback ptr has => at_reader ptr (set_data_callback has)
  | AddNode ns name => modify (fun p => add_node p ns name)
  | RemoveNode ns name => modify (fun p => remove_node p ns name)
  | SetGraphCallback has => modify (fun p => set_graph_callback p has)
  end.

Definition fresh_entity (ptr : Z) (p : ParticipantImpl) : Prop :=
  map_find ptr (p_writers p) = None /\ map_find ptr (p_readers p) = None /\
  p_entity_serial p + 1 < 2 ^ 24.

(** What a caller owes: bytes are bytes, the entity it names exists, a buffer holds
    the length it announces, a sample is below 4 GiB, an allocation is fresh, and
    the counters are not exhausted.  Nothing is asked of what a frame contains. *)
Definition op_pre (op : Op) (p : ParticipantImpl) : Prop :=
  match op with
  | Receive _ frame => bytes_ok frame
  | CreateWriter ptr _ _ _ | CreateReader ptr _ _ _ _ => fresh_entity ptr p
  | Write ptr data length =>
      exists wr, map_find ptr (p_writers p) = Some wr /\ w_seq wr + 1 < 2 ^ 64 /\
        match data with
        | Some bytes => bytes_ok bytes /\ 0 <= length <= len bytes /\ 64 + length < 2 ^ 32
        | None => True
        end
  | AssertLiveliness ptr => exists wr, map_find ptr (p_writers p) = Some wr
  | Take ptr | Available ptr | SetDataCallback ptr _ => exists r, map_find ptr (p_readers p) = Some r
  | _ => True
  end.

(** Announcements that would change only a QoS are left out of [stable] sessions. *)
Definition op_stable (op : Op) (p : ParticipantImpl) : Prop :=
  match op with Receive _ frame => qos_stable p frame | _ => True end.

(** A participant as [create] returns it. *)
Definition new_world (prefix : list Z) (transports : list T) (hook : option (list Z -> bool))
    (sys steady : nat -> Z) : World T :=
  mkWorld (set_running (new_participant prefix) true) transports hook sys steady 0 [].

(** Worlds a participant can be in; [stable] restricts its announcements. *)
Inductive reachable (stable : bool) : World T -> Prop :=
| reach_new prefix transports hook sys steady :
    length prefix = 12%nat -> bytes_ok prefix -> (forall n, fits 64 (sys n)) ->
    reachable stable (new_world prefix transports hook sys steady)
| reach_step w op w' :
    reachable stable w -> op_pre op (w_self w) -> (stable = true -> op_stable op (w_self w)) ->
    run_op op w = Done (tt, w') -> reachable stable w'.

(** ** Every step is safe *)

Definition session_ok w : Prop := world_ok w /\ guids_ok (w_self w).

Lemma session_steps strict w w' : session_ok w -> steps_if strict w w' -> session_ok w'.
Proof. intros [Hw Hg] Hs. split; [by eapply steps_ok|by eapply guids_steps]. Qed.

Lemma session_step_op {A} strict (m : act T A) w :
  session_ok w -> runs (fun _ w' => steps_if strict w w') m w -> runs (fun _ w' => session_ok w') m w.
Proof. intros Hw Hm. eapply runs_mono; [exact Hm|]. intros a w'. by apply session_steps. Qed.

Lemma runs_discard {A} (P : World T -> Prop) (m : act T A) w :
  runs (fun _ w' => P w') m w -> runs (fun _ w' => P w') (_ ← m; mret tt) w.
Proof. intros Hm. by eapply runs_bind; [exact Hm|]. Qed.

Lemma guids_new_writer p ptr topic type q birth :
  part_ok p -> guids_ok p -> fresh_entity ptr p ->
  guids_ok (with_new_writer p ptr topic type q birth).
Proof.
  intros Hp Hg (Hf & _ & Hlt). pose proof (go_serial _ Hg) as Hs.
  apply (guids_new p _ WRITER); [done|apply Hp|split; simpl; done || ulia|done|done|..];
    unfold with_new_writer, entity_guids; simpl; rewrite wrap_id by ulia; [done|].
  unfold map_emplace. by rewrite Hf, map_set_perm.
Qed.

Lemma guids_new_reader p ptr topic type q ign birth :
  part_ok p -> guids_ok p -> fresh_entity ptr p ->
  guids_ok (with_new_reader p ptr topic type q ign birth).
Proof.
  intros Hp Hg (_ & Hf & Hlt). pose proof (go_serial _ Hg) as Hs.
  apply (guids_new p _ READER); [done|apply Hp|split; simpl; done || ulia|done|done|..];
    unfold with_new_reader, entity_guids; simpl; rewrite wrap_id by ulia; [done|].
  unfold map_emplace. rewrite Hf, map_set_perm by done. simpl. by rewrite Permutation_middle.
Qed.

Lemma session_create_writer ptr topic type q w :
  session_ok w -> fresh_entity ptr (w_self w) ->
  runs (fun _ w' => session_ok w') (create_writer ptr topic type q) w.
Proof.
  intros [Hw Hg] Hf. eapply runs_mono; [by apply (runs_create_writer (strict := true))|].
  intros o w' [Hw' Hcase]. split; [done|]. destruct (qos_valid q); [|by destruct Hcase as [_ ->]].
  destruct Hcase as (_ & birth & ->). apply guids_recompute. apply guids_new_writer; [apply Hw|done..].
Qed.

Lemma session_create_reader ptr topic type q ign w :
  session_ok w -> fresh_entity ptr (w_self w) ->
  runs (fun _ w' => session_ok w') (create_reader ptr topic type q ign) w.
Proof.
  intros [Hw Hg] Hf. eapply runs_mono; [apply (runs_create_reader (strict := true)); [done|apply Hf]|].
  intros o w' [Hw' Hcase]. split; [done|]. destruct (qos_valid q); [|by destruct Hcase as [_ ->]].
  destruct Hcase as (_ & birth & w2 & Hw2 & E & Hs). eapply guids_steps; [exact Hs|]. rewrite E.
  apply guids_recompute. apply guids_new_reader; [apply Hw|done..].
Qed.

Lemma sublist_erase {A} (f : A -> Guid) k (m : std_map Z A) :
  sublist ((fun kv => f kv.2) <$> map_erase k m) ((fun kv => f kv.2) <$> m).
Proof. apply sublist_fmap, sublist_filter. Qed.

Lemma session_destroy_writer ptr w :
  session_ok w -> runs (fun _ w' => session_ok w') (destroy_writer ptr) w.
Proof.
  intros [Hw Hg]. eapply runs_mono; [by apply runs_destroy_writer|]. intros u w' [Hw' E]. split; [done|].
  rewrite E. apply guids_recompute, (guids_sub (w_self w)); [done..|].
  apply sublist_app; [apply sublist_erase|done].
Qed.

Lemma session_destroy_reader ptr w :
  session_ok w -> runs (fun _ w' => session_ok w') (destroy_reader ptr) w.
Proof.
  intros [Hw Hg]. eapply runs_mono; [by apply runs_destroy_reader|]. intros u w' [Hw' E]. split; [done|].
  rewrite E. apply guids_recompute, (guids_sub (w_self w)); [done..|].
  apply sublist_app; [done|apply sublist_erase].
Qed.

(** Publishing: the writer keeps its id. *)
Lemma session_write_sample ptr wr data w :
  session_ok w -> map_find ptr (p_writers (w_self w)) = Some wr ->
  w_seq wr + 1 < 2 ^ 64 -> bytes_ok data -> 64 + len data < 2 ^ 32 ->
  runs (fun _ w' => session_ok w') (write_sample ptr data) w.
Proof.
  intros Hs Hf Hlt Hd Hl. eapply runs_mono; [by apply (runs_write_sample (strict := true)); [apply Hs|..]|].
  intros ok w' Hcl. unfold claim_at in Hcl. set (pub := w_sys w (w_tick w)) in Hcl.
  set (now := w_sys w _ / 1000) in Hcl. pose proof (claim_seq_frame wr pub data now) as [_ Eg].
  destruct (claim_seq wr pub data now) as [wr' [seq|]]; [|by eapply session_steps, Hcl].
  destruct Hcl as (_ & w3 & Hw3 & E3 & Hst). simpl in Eg. apply (session_steps true w3); [|done].
  split; [done|]. rewrite E3. destruct Hs as [Hw Hg]. apply (guids_sub (w_self w)); [done..|].
  apply sublist_app; [|done]. simpl.
  pose proof (view_set w_guid ptr wr wr' _ (po_writers_map _ (proj1 Hw)) Hf Eg) as Ev.
  apply (fmap_view w_guid id) in Ev. unfold id in Ev. by rewrite Ev.
Qed.

(** The bytes a caller hands to [write]. *)
Lemma runs_writer_write (P : bool -> World T -> Prop) ptr data length w :
  match data with
  | Some bytes => bytes_ok bytes /\ 0 <= length <= len bytes /\ 64 + length < 2 ^ 32
  | None => True
  end ->
  (forall bs, bytes_ok bs -> 64 + len bs < 2 ^ 32 -> runs P (write_sample ptr bs) w) ->
  P false w -> runs P (writer_write ptr data length) w.
Proof.
  intros Hpre Hws Hfalse. unfold writer_write. destruct data as [bytes|].
  - destruct Hpre as (Hb & Hl & Hlt). destruct (load_in_bounds bytes 0 length) as (bs & E & Hlen); [lia..|].
    eapply runs_bind; [by eapply (runs_encoded (fun b w' => b = bs /\ w' = w)); [exact E|]|].
    intros b w' [-> ->]. apply Hws; [by eapply load_bytes_ok|lia].
  - case_if; [done|]. apply Hws; [constructor|done].
Qed.

(** Calls on a reader of the table. *)
Lemma runs_at_reader ptr r f w :
  world_ok w -> map_find ptr (p_readers (w_self w)) = Some r ->
  reader_view (f r) = reader_view r -> r_matched_count (f r) = r_matched_count r ->
  local_reader_ok (f r) -> runs (fun _ w' => steps_if true w w') (at_reader ptr f) w.
Proof.
  intros Hw Hf Hv Hc Hok. unfold at_reader. apply runs_self_bind. rewrite Hf. apply runs_modify.
  by apply (steps_set_reader w ptr r).
Qed.

Lemma local_reader_ok_queue r q : local_reader_ok r -> local_reader_ok (set_queue q r).
Proof. by intros []. Qed.

(** [take] and [available] only shorten the queue. *)
Lemma runs_queue_call ptr (f : Z -> ReaderImpl -> ReaderImpl) w :
  world_ok w -> (exists r, map_find ptr (p_readers (w_self w)) = Some r) ->
  (forall now r, exists q, f now r = set_queue q r) ->
  runs (fun _ w' => steps_if true w w') (now ← system_now_ms; at_reader ptr (f now)) w.
Proof.
  intros Hw [r Hr] Hf. apply (runs_steps_bind (fun _ w' => w_self w' = w_self w)).
  { eapply runs_mono; [by apply (runs_tick (strict := true))|]. by intros n w' (? & _ & ?). }
  intros now w1 Hs E. destruct (Hf now r) as [q Eq].
  apply (runs_at_reader ptr r); rewrite ?E, ?Eq; try done; [by eapply (steps_ok (strict := true))|].
  by apply local_reader_ok_queue, (po_readers _ (proj1 Hw) ptr).
Qed.

Lemma take_shortens now r : exists q, fst (reader_take r now) = set_queue q r.
Proof. unfold reader_take. destruct (sweep_expired_locked _ _); by eexists. Qed.

(** Setting a callback changes no table entry but that flag. *)
Lemma callback_world ptr r has w :
  world_ok w -> map_find ptr (p_readers (w_self w)) = Some r ->
  world_ok (with_self (set_readers (w_self w) (map_set ptr (set_data_callback has r) (p_readers (w_self w)))) w).
Proof.
  intros Hw Hf. split; [|apply Hw]. apply part_ok_set_readers; [apply Hw|apply map_ok_set, Hw|].
  intros ptr' r'. rewrite map_find_set. destruct (decide (ptr' = ptr)).
  - intros [= <-]. destruct (po_readers _ (proj1 Hw) _ _ Hf). by split.
  - apply (po_readers _ (proj1 Hw)).
Qed.

Lemma session_set_callback ptr has w :
  session_ok w -> (exists r, map_find ptr (p_readers (w_self w)) = Some r) ->
  runs (fun _ w' => session_ok w') (at_reader ptr (set_data_callback has)) w.
Proof.
  intros [Hw Hg] [r Hr]. unfold at_reader. apply runs_self_bind. rewrite Hr. apply runs_modify.
  split; [by apply callback_world|]. apply (guids_sub (w_self w)); [done..|]. apply sublist_app; [done|].
  pose proof (view_set r_guid ptr r (set_data_callback has r) _ (po_readers_map _ (proj1 Hw)) Hr eq_refl) as Ev.
  apply (fmap_view r_guid id) in Ev. unfold id in Ev. simpl. by rewrite Ev.
Qed.

Lemma good_set_callback ptr has w :
  good w -> (exists r, map_find ptr (p_readers (w_self w)) = Some r) ->
  runs (fun _ w' => good w') (at_reader ptr (set_data_callback has)) w.
Proof.
  intros [Hw Hm] [r Hr]. unfold at_reader. apply runs_self_bind. rewrite Hr. apply runs_modify.
  split; [by apply callback_world|]. pose proof (po_readers_map _ (proj1 Hw)) as Hok.
  apply (matches_ok_same (w_self w)); [|done| |done]; [split_and!; [done|done|]|]; by eapply view_set.
Qed.

(** The operations on the nodes and the graph callback. *)
Lemma steps_set_nodes w ns : world_ok w -> steps_if true w (with_self (set_nodes (w_self w) ns) w).
Proof. intros Hw. apply steps_with_self; try done. by destruct (proj1 Hw). Qed.
Lemma steps_set_graph_callback w b :
  world_ok w -> steps_if true w (with_self (set_graph_callback (w_self w) b) w).
Proof. intros Hw. apply steps_with_self; try done. by destruct (proj1 Hw). Qed.

Lemma runs_add_node ns name w :
  world_ok w -> runs (fun _ w' => steps_if true w w') (modify (fun p => add_node p ns name)) w.
Proof.
  intros Hw. apply runs_modify. unfold add_node. case_if; [by apply steps_same_self|by apply steps_set_nodes].
Qed.

(** Operations that keep every count. *)
Definition quiet_op (op : Op) : bool :=
  match op with
  | PeerUp _ | AnnounceTick | AssertLiveliness _ | Take _ | Available _ | AddNode _ _ | RemoveNode _ _
  | SetGraphCallback _ => true
  | _ => false
  end.

Lemma quiet_op_runs op w :
  quiet_op op = true -> world_ok w -> op_pre op (w_self w) ->
  runs (fun _ w' => steps_if true w w') (run_op op) w.
Proof.
  intros Hq Hw Hpre. destruct op; try discriminate Hq; simpl in Hpre |- *.
  - by apply runs_handle_peer_up.
  - by apply runs_announce_tick.
  - destruct Hpre as [wr Hwr]. by eapply runs_broadcast_writer_heartbeat.
  - apply (runs_queue_call ptr (fun now r => fst (reader_take r now))); auto using take_shortens.
  - apply (runs_queue_call ptr (fun now r => fst (available r now))); [done..|]. intros now r. by eexists.
  - by apply runs_add_node.
  - by apply runs_modify, steps_set_nodes.
  - by apply runs_modify, steps_set_graph_callback.
Qed.

Lemma op_safe op w :
  session_ok w -> op_pre op (w_self w) -> runs (fun _ w' => session_ok w') (run_op op) w.
Proof.
  intros Hs Hpre. destruct (quiet_op op) eqn:Hq.
  { eapply session_step_op; [done|]. apply quiet_op_runs; [done|apply Hs|done]. }
  destruct op; try discriminate Hq; simpl in Hpre |- *.
  - eapply session_step_op; [done|]. apply runs_handle_peer_down, Hs.
  - eapply session_step_op; [done|]. apply runs_handle_bytes; [apply Hs|done].
  - apply runs_discard. by apply session_create_writer.
  - apply runs_discard. by apply session_create_reader.
  - by apply session_destroy_writer.
  - by apply session_destroy_reader.
  - destruct Hpre as (wr & Hwr & Hlt & Hdata). apply runs_discard.
    apply runs_writer_write; [done| |done]. intros bs ??. by eapply session_write_sample.
  - by apply session_set_callback.
Qed.

Lemma op_good op w :
  good w -> op_pre op (w_self w) -> op_stable op (w_self w) -> runs (fun _ w' => good w') (run_op op) w.
Proof.
  intros Hg Hpre Hst. destruct (quiet_op op) eqn:Hq.
  { apply good_quietly; [done|]. apply quiet_op_runs; [done|apply Hg|done]. }
  destruct op; try discriminate Hq; simpl in Hpre, Hst |- *.
  - by apply good_handle_peer_down.
  - by apply good_handle_bytes.
  - apply runs_discard. by apply good_create_writer.
  - apply runs_discard. by apply good_create_reader; [|apply Hpre].
  - by apply good_destroy_writer.
  - by apply good_destroy_reader.
  - destruct Hpre as (wr & Hwr & Hlt & Hdata). apply runs_discard.
    apply runs_writer_write; [done| |done]. intros bs ??. by eapply good_write_sample.
  - by apply good_set_callback.
Qed.

(** ** Reachable worlds *)

Lemma new_world_ok prefix transports hook sys steady :
  length prefix = 12%nat -> bytes_ok prefix -> (forall n, fits 64 (sys n)) ->
  session_ok (new_world prefix transports hook sys steady).
Proof.
  intros Hl Hb Hc. split; [split; [|done]|].
  - split; simpl; try done; apply map_ok_nil.
  - split; simpl; [lia|constructor|]. by intros g ?%not_elem_of_nil.
Qed.

Lemma runs_result {A} (P : A -> World T -> Prop) (m : act T A) w a w' :
  runs P m w -> m w = Done (a, w') -> P a w'.
Proof. unfold runs. intros Hm E. by rewrite E in Hm. Qed.

Lemma reachable_ok stable w : reachable stable w -> session_ok w.
Proof.
  induction 1 as [|w op w' _ IH Hpre _ E]; [by apply new_world_ok|].
  exact (runs_result _ _ _ _ _ (op_safe op w IH Hpre) E).
Qed.

Lemma reachable_good w : reachable true w -> good w.
Proof.
  induction 1 as [|w op w' _ IH Hpre Hst E].
  - split; [by eapply new_world_ok|]. by split.
  - exact (runs_result _ _ _ _ _ (op_good op w IH Hpre (Hst eq_refl)) E).
Qed.
End session.

(** ** A recording transport

    It accepts every frame and remembers it: the instance the examples run on. *)

Record Recorder := mkRecorder { rec_max : Z; rec_sent : list (PeerId * list Z) }.

#[global] Instance recorder_transport : Transport Recorder := {
  transport_send t peer frame := (mkRecorder (rec_max t) (rec_sent t ++ [(peer, frame)]), true);
  transport_max_payload t _ := rec_max t;
  transport_stop t := t;
}.

Definition test_prefix : list Z := replicate 12 7.
Definition test_world : World Recorder :=
  new_world test_prefix [mkRecorder 1000 []] None  (fun _ => 1000000) (fun _ => 5000000).

Lemma test_world_reachable stable : reachable stable test_world.
Proof.
  apply reach_new; [done| |].
  - apply Forall_replicate. ulia.
  - intros n. ulia.
Qed.

(** A remote participant with one reader of topic "t", type "i". *)
Definition test_remote_snapshot (q : QosProfile) : ParticipantSnapshot :=
  mkSnapshot (make_guid (replicate 12 9) PARTICIPANT 0) []
    [mkEndpoint (make_guid (replicate 12 9) READER 1) READER [116] [105] q 3].
Definition test_announce (q : QosProfile) (seq : Z) : list Z :=
  match encode_announce (test_remote_snapshot q) seq with Done f => f | _ => [] end.
Definition test_ops (q : QosProfile) : list Op :=
  [CreateWriter 100 [116] [105] preset_default; PeerUp 5; Receive 5 (test_announce q 1)].

Definition run_ops {T} `{Transport T} (ops : list Op) : act T unit := for_each ops run_op.
Definition test_after (ops : list Op) : World Recorder :=
  match run_ops ops test_world with Done (_, w) => w | _ => test_world end.

(** The steps of [test_ops], one after the other. *)
Lemma test_step stable ops op w' :
  reachable stable (test_after ops) -> op_pre op (w_self (test_after ops)) ->
  op_stable op (w_self (test_after ops)) -> run_op op (test_after ops) = Done (tt, w') -> reachable stable w'.
Proof. intros Hr Hp Hs E. by eapply reach_step. Qed.

Definition test_op1 : Op := CreateWriter 100 [116] [105] preset_default.

Lemma test_run_reachable stable : reachable stable (test_after (test_ops preset_default)).
Proof.
  apply (test_step stable [test_op1; PeerUp 5] (Receive 5 (test_announce preset_default 1))).
  - apply (test_step stable [test_op1] (PeerUp 5)); [|exact I|exact I|vm_compute; reflexivity].
    apply (test_step stable [] test_op1); [apply test_world_reachable| |exact I|vm_compute; reflexivity].
    split_and!; vm_compute; reflexivity.
  - apply bytes_ok_check. vm_compute. reflexivity.
  - intros snap seq rp _ Hf. vm_compute in Hf. discriminate Hf.
  - vm_compute. reflexivity.
Qed.

Module SessionSpec.
Section spec.
Context {T : Type} `{Transport T}.
Implicit Types w : World T.

(** A participant cannot be driven outside its buffers or its tables: in every
    state reached by any sequence of API calls, transport events, announce turns and
    frames with arbitrary contents, every further operation ends normally and leaves
    well-formed tables (sorted, contiguous histories, reassembly buffers of the
    announced size, well-formed snapshots and windows). *)
Theorem participant_safe (stable : bool) w (op : Op) :
  reachable stable w -> op_pre op (w_self w) ->
  exists w', run_op op w = Done (tt, w') /\ part_ok (w_self w').
Proof.
  intros Hw Hpre. pose proof (op_safe op w (reachable_ok _ _ Hw) Hpre) as Hr. unfold runs in Hr.
  destruct (run_op op w) as [[[] w']| |]; [|done..]. exists w'. split; [done|apply Hr].
Qed.

(** The endpoints of the whole graph: the remote participants' and one's own. *)
Definition graph_endpoints (p : ParticipantImpl) : list EndpointRecord :=
  concat (snap_endpoints <$> (remote_participants p ++ [snapshot_locked p])).

(** [e] pairs with an entity of the other kind on the same topic and type. *)
Definition pairs (kind : EntityKind) (topic type : list Z) (accepts : QosProfile -> bool)
    (e : EndpointRecord) : bool :=
  bool_decide (ep_kind e = kind) && (bool_decide (ep_topic e = topic) && bool_decide (ep_type_name e = type) &&
  accepts (ep_qos e)).

Lemma count_if_app {A} (f : A -> bool) l k : count_if f (l ++ k) = count_if f l + count_if f k.
Proof. unfold count_if. rewrite filter_app, length_app. lia. Qed.

Lemma count_if_ext {A} (f g : A -> bool) l : (forall a, f a = g a) -> count_if f l = count_if g l.
Proof.
  intros E. unfold count_if. do 2 f_equal. apply list_filter_iff. intros a. by rewrite E.
Qed.

Lemma count_if_none {A} (f : A -> bool) l : (forall a, f a = false) -> count_if f l = 0.
Proof.
  intros E. unfold count_if. induction l as [|a l IH]; [done|]. by rewrite filter_cons_False by (by rewrite E).
Qed.

Lemma graph_endpoints_eq p :
  graph_endpoints p = remote_endpoints p ++ snap_endpoints (snapshot_locked p).
Proof.
  unfold graph_endpoints, remote_participants, remote_endpoints. rewrite fmap_app, concat_app. simpl.
  by rewrite app_nil_r, <- list_fmap_compose.
Qed.

Lemma writer_matches_graph p wr :
  writer_matches p wr =
  count_if (pairs READER (w_topic wr) (w_type wr) (fun q => qos_compatible q (w_qos wr))) (graph_endpoints p).
Proof.
  rewrite graph_endpoints_eq, !count_if_app. cbn [snapshot_locked snap_endpoints]. rewrite count_if_app.
  rewrite <- !(count_if_fmap _ (pairs _ _ _ _)). rewrite (count_if_none _ (p_writers p)) by done.
  unfold writer_matches. rewrite Z.add_0_l. f_equal. apply count_if_ext. intros e. unfold pairs.
  by rewrite !andb_assoc.
Qed.

Lemma reader_matches_graph p r :
  reader_matches p r =
  count_if (pairs WRITER (r_topic r) (r_type r) (qos_accepted_by_reader (r_qos r))) (graph_endpoints p).
Proof.
  rewrite graph_endpoints_eq, !count_if_app. cbn [snapshot_locked snap_endpoints]. rewrite count_if_app.
  rewrite <- !(count_if_fmap _ (pairs _ _ _ _)). rewrite (count_if_none _ (p_readers p)) by done.
  unfold reader_matches. by rewrite Z.add_0_r.
Qed.

(** Match counts are always exact: in every state reached without QoS-only
    re-announcements, the count of a writer is the number of compatible reader
    endpoints of the whole graph (remote participants and its own), and the count of
    a reader the number of acceptable writer endpoints. *)
Theorem match_counts_exact w :
  reachable true w ->
  (forall ptr wr, map_find ptr (p_writers (w_self w)) = Some wr ->
     w_matched_count wr =
     count_if (pairs READER (w_topic wr) (w_type wr) (fun q => qos_compatible q (w_qos wr)))
       (graph_endpoints (w_self w))) /\
  (forall ptr r, map_find ptr (p_readers (w_self w)) = Some r ->
     r_matched_count r =
     count_if (pairs WRITER (r_topic r) (r_type r) (qos_accepted_by_reader (r_qos r)))
       (graph_endpoints (w_self w))).
Proof.
  intros [_ [Hw Hr]]%reachable_good. split.
  - intros ptr wr Hf. by rewrite (Hw _ _ Hf), writer_matches_graph.
  - intros ptr r Hf. by rewrite (Hr _ _ Hf), reader_matches_graph.
Qed.

(** C33. A GUID names one entity: whatever writers and readers were created and
    destroyed, looking up the id of a live writer or reader finds that entity, so a
    NACK or a GAP is handled by the endpoint it names. *)
Theorem guid_lookup_exact (stable : bool) w :
  reachable stable w ->
  (forall ptr wr, map_find ptr (p_writers (w_self w)) = Some wr ->
     find_writer_locked (w_self w) (w_guid wr) = Some ptr) /\
  (forall ptr r, map_find ptr (p_readers (w_self w)) = Some r ->
     find_reader_locked (w_self w) (r_guid r) = Some ptr).
Proof.
  intros [_ Hg]%reachable_ok. pose proof (go_nodup _ Hg) as Hnd. apply NoDup_app in Hnd as (H1 & _ & H2).
  split; intros ptr a; [by apply find_by_guid|by apply find_by_guid].
Qed.
End spec.

Lemma participant_safe_witness :
  exists w', run_op (Receive 5 (test_announce preset_default 2)) (test_after (test_ops preset_default)) = Done (tt, w') /\
    part_ok (w_self w').
Proof.
  apply (participant_safe false); [apply test_run_reachable|]. apply bytes_ok_check. by vm_compute.
Defined.

Lemma match_counts_exact_witness :
  exists wr, map_find 100 (p_writers (w_self (test_after (test_ops preset_default)))) = Some wr /\
    w_matched_count wr = 1 /\
    1 = count_if (pairs READER (w_topic wr) (w_type wr) (fun q => qos_compatible q (w_qos wr)))
       (graph_endpoints (w_self (test_after (test_ops preset_default)))).
Proof.
  destruct (match_counts_exact (test_after (test_ops preset_default))) as [Hw _].
  { apply test_run_reachable. }
  destruct (map_find 100 (p_writers (w_self (test_after (test_ops preset_default))))) as [wr|] eqn:E.
  - exists wr. split; [reflexivity|]. rewrite <- (Hw 100 wr E). vm_compute in E. injection E as <-. by split.
  - by vm_compute in E.
Defined.

Lemma guid_lookup_exact_witness :
  find_writer_locked (w_self (test_after (test_ops preset_default))) (make_guid test_prefix WRITER 1) = Some 100.
Proof.
  destruct (guid_lookup_exact true (test_after (test_ops preset_default))) as [Hw _].
  { apply test_run_reachable. }
  destruct (map_find 100 (p_writers (w_self (test_after (test_ops preset_default))))) as [wr|] eqn:E.
  - rewrite <- (Hw 100 wr E). vm_compute in E. injection E as <-. reflexivity.
  - by vm_compute in E.
Defined.

(** A participant that re-announces its reader with another durability: the endpoint
    list compares equal, nothing is recounted, and the writer still counts a reader that
    no longer matches. *)
Theorem qos_change_unnoticed :
  let w := test_after (test_ops preset_default ++ [Receive 5 (test_announce preset_transient_local 2)]) in
  (w_matched_count <$> map_find 100 (p_writers (w_self w))) = Some 1 /\
  (writer_matches (w_self w) <$> map_find 100 (p_writers (w_self w))) = Some 0.
Proof. by vm_compute. Qed.
End SessionSpec.
