(* ===== verification/Locked.v ===== *)
(** * The participant's operations, lock region by lock region

    [ParticipantImpl] (src/participant.cpp) is called from several threads: the
    application's, the transports' and its own.  Its tables are guarded by [mutex_], each
    reader's queue by that reader's [queue_mutex_], and no operation holds [mutex_] from
    beginning to end.  Here every operation is a program: a tree of indivisible acts, with
    the points where [mutex_] is taken and released.  An act touches what the thread has
    locked, or the queue of one reader, or a transport, a clock or a callback.  Run by
    itself, the program of an operation does what the operation does in [Participant]. *)

From S2P Require Import Prelude Memory StdMap Guid Qos Frame Fragment Reassembler ReaderImpl WriterImpl Reliability Discovery Participant ParticipantFacts Matching Session.

(** ** Programs *)

Inductive prog (T A : Type) : Type :=
| Ret (a : A)
| Step {B : Type} (m : act T B) (k : B -> prog T A)
| Lock (k : prog T A)
| Unlock (k : prog T A).
Arguments Ret {T A} a.
Arguments Step {T A B} m k.
Arguments Lock {T A} k.
Arguments Unlock {T A} k.

Section programs.
Context {T : Type}.

Fixpoint prog_bind {A B} (k : A -> prog T B) (p : prog T A) : prog T B :=
  match p with
  | Ret a => k a
  | Step m k' => Step m (fun b => prog_bind k (k' b))
  | Lock p => Lock (prog_bind k p)
  | Unlock p => Unlock (prog_bind k p)
  end.

#[global] Instance prog_ret : MRet (prog T) := fun A => Ret.
#[global] Instance prog_mbind : MBind (prog T) := fun A B => prog_bind.

(** One act. *)
Definition lift {A} (m : act T A) : prog T A := Step m Ret.

(** The scope of a [std::lock_guard] on [mutex_]: a return inside it releases the lock. *)
Definition locked {A} (body : prog T A) : prog T A := Lock (body ≫= fun a => Unlock (Ret a)).

Fixpoint each {A} (l : list A) (f : A -> prog T unit) : prog T unit :=
  match l with
  | [] => Ret tt
  | a :: l => f a ≫= fun _ => each l f
  end.

(** The program in a thread of its own: nobody else moves, so taking the lock succeeds. *)
Fixpoint run_alone {A} (p : prog T A) : act T A :=
  match p with
  | Ret a => mret a
  | Step m k => m ≫= fun b => run_alone (k b)
  | Lock p | Unlock p => run_alone p
  end.
End programs.

(** ** The operations *)

Section operations.
Context {T : Type} `{Transport T}.

(** Dereferencing a [WriterImpl] or [ReaderImpl] the table no longer owns is undefined. *)
Definition deref {A} (o : option A) : act T A := encoded (match o with Some a => Done a | None => UB end).
Definition writer_at (ptr : Z) : act T WriterImpl := p ← get_self; deref (map_find ptr (p_writers p)).
Definition reader_at (ptr : Z) : act T ReaderImpl := p ← get_self; deref (map_find ptr (p_readers p)).

(** *** Callbacks and counts *)

Definition fire_graph_callback_prog : prog T unit :=
  has ← locked (lift (p ← get_self; mret (p_has_graph_callback p)));
  if has : bool then lift (fire GraphChanged) else mret tt.

(** The callback is copied under [queue_mutex_] and called without it. *)
Definition fire_callback_prog (reader : Z) : prog T unit :=
  r ← lift (reader_at reader);
  if r_has_callback r then lift (fire (DataAvailable reader)) else mret tt.

Definition recompute_matches_prog : prog T unit := locked (lift (modify recompute_matches)).

Definition graph_changed_prog : prog T unit := _ ← recompute_matches_prog; fire_graph_callback_prog.

(** *** Sending *)

Definition send_prog (peer : PeerId) (frame : list Z) : prog T unit :=
  _ ← lift (send_frame peer frame); mret tt.

Fixpoint send_frames_prog (peer : PeerId) (frames : list (list Z)) (ok : bool) : prog T bool :=
  match frames with
  | [] => mret ok
  | f :: frames => sent ← lift (send_frame peer f); send_frames_prog peer frames (sent && ok)
  end.

Definition send_sample_to_prog (peer : PeerId) (writer_guid : Guid) (seq pub_time_ms : Z) (data : list Z)
    (flags : Z) : prog T bool :=
  max_p ← lift (max_payload peer);
  if max_p =? 0 then mret false
  else
    frames ← lift (encoded (fragment writer_guid seq pub_time_ms (Some data) (u32 (len data)) max_p flags));
    ok ← send_frames_prog peer frames true;
    mret (ok && negb (bool_decide (frames = []))).

(** What [send_announce] and [broadcast_announce] copy under the lock. *)
Definition announcement : act T (ParticipantSnapshot * Z * list PeerId) :=
  p ← get_self; mret (snapshot_locked p, p_announce_seq p, p_peers p).

Definition send_announce_prog (peer : PeerId) : prog T unit :=
  s ← locked (lift announcement);
  frame ← lift (encoded (encode_announce s.1.1 s.1.2));
  send_prog peer frame.

Definition broadcast_announce_prog : prog T unit :=
  s ← locked (lift announcement);
  frame ← lift (encoded (encode_announce s.1.1 s.1.2));
  each s.2 (fun peer => send_prog peer frame).

Definition send_heartbeats_prog : prog T unit :=
  s ← locked (lift (p ← get_self; mret (p_peers p, heartbeats p)));
  each s.1 (fun peer =>
    each s.2 (fun hb =>
      frame ← lift (encoded (encode_heartbeat hb.1.1 hb.1.2 hb.2)); send_prog peer frame)).

Definition assert_liveliness_prog (writer : Z) : prog T unit :=
  s ← locked (lift (p ← get_self; w ← writer_at writer;
        mret (p_peers p, (match w_history w with [] => w_seq w | e :: _ => cs_seq e end, w_seq w))));
  w ← lift (writer_at writer);
  frame ← lift (encoded (encode_heartbeat (w_guid w) s.2.1 s.2.2));
  each s.1 (fun peer => send_prog peer frame).

(** *** Writing *)

(** The lock region of [write_sample]: the number is claimed and the receivers are
    collected, or the sample is refused. *)
Definition claim_section (writer : Z) (data : list Z) (pub_time_us : Z)
    : act T (option (Z * list Z * list PeerId)) :=
  now ← system_now_ms;
  p ← get_self;
  w ← writer_at writer;
  match claim_seq w pub_time_us data now with
  | (_, None) => mret None
  | (w', Some seq) =>
      _ ← modify (fun p => set_writers p (map_set writer w' (p_writers p)));
      mret (Some (seq, local_readers p w, send_targets_locked p w))
  end.

Fixpoint send_to_targets_prog (targets : list PeerId) (send : PeerId -> prog T bool) (any : bool) : prog T bool :=
  match targets with
  | [] => mret any
  | peer :: targets => sent ← send peer; send_to_targets_prog targets send (any || sent)
  end.

(** After the lock is released the sample goes to the local readers, then to the peers;
    the writer is dereferenced all along. *)
Definition publish_prog (writer seq pub_time_ms : Z) (data : list Z) (readers targets : list Z) : prog T bool :=
  _ ← each readers (fun r =>
        out ← lift (w ← writer_at writer; enqueue_at r (w_guid w) seq data (w_qos w) pub_time_ms);
        if eo_queued out then fire_callback_prog r else mret tt);
  w ← lift (writer_at writer);
  any ← send_to_targets_prog targets (fun peer =>
          w' ← lift (writer_at writer);
          send_sample_to_prog peer (w_guid w') seq pub_time_ms data (reliable_flag (w_qos w))) false;
  mret (any || bool_decide (targets = [])).

Definition write_sample_prog (writer : Z) (data : list Z) : prog T bool :=
  pub_time_us ← lift system_now_us;
  c ← locked (lift (claim_section writer data pub_time_us));
  match c with
  | None => mret false
  | Some (seq, readers, targets) => publish_prog writer seq (pub_time_us / 1000) data readers targets
  end.

Definition writer_write_prog (writer : Z) (data : option (list Z)) (length : Z) : prog T bool :=
  match data with
  | None => if 0 <? length then mret false else write_sample_prog writer []
  | Some bytes => bs ← lift (encoded (load bytes 0 length)); write_sample_prog writer bs
  end.

(** *** Discovery *)

Definition handle_peer_up_prog (peer : PeerId) : prog T unit :=
  _ ← locked (lift (modify (fun p => set_peers p (set_insert peer (p_peers p)))));
  send_announce_prog peer.

Definition forget_peer (peer : PeerId) : act T bool :=
  p ← get_self;
  _ ← modify (fun p => set_net p (set_erase peer (p_peers p))
                 (map_keep (fun _ rp => negb (rp_peer rp =? peer)) (p_remote p))
                 (map_erase peer (p_reassemblers p)));
  mret (existsb (fun kv => rp_peer kv.2 =? peer) (p_remote p)).

Definition handle_peer_down_prog (peer : PeerId) : prog T unit :=
  gone ← locked (lift (forget_peer peer));
  if gone : bool then graph_changed_prog else mret tt.

Definition replay_history_to_peer_prog (peer : PeerId) (new_readers : list EndpointRecord) : prog T unit :=
  if bool_decide (new_readers = []) then mret tt
  else
    todo ← locked (lift (now ← system_now_ms; p ← get_self; mret (replay_todo p new_readers now)));
    each todo (fun t =>
      _ ← send_sample_to_prog peer t.1.2 (cs_seq t.1.1) (cs_pub_time_ms t.1.1) (cs_data t.1.1) t.2;
      mret tt).

(** The lock region of [handle_announce]: nothing when the announcement is stale,
    otherwise whether the graph changed and which readers are new. *)
Definition announce_section (peer : PeerId) (snap : ParticipantSnapshot) (seq : Z)
    : act T (option (bool * list EndpointRecord)) :=
  p ← get_self;
  let key := participant_guid snap in
  let old := map_find key (p_remote p) in
  stale ← match old with
          | None => mret false
          | Some rp =>
              now ← steady_now_ms;
              _ ← modify (fun p => set_remote p (map_set key
                    (mkRemote (rp_peer rp) (rp_announce_seq rp) (rp_snap rp) now) (p_remote p)));
              mret (seq <=? rp_announce_seq rp)
          end;
  if stale : bool then mret None
  else
    let changed :=
      match old with
      | None => true
      | Some rp => negb (bool_decide (snap_nodes (rp_snap rp) = snap_nodes snap) &&
                         endpoints_eqb (snap_endpoints (rp_snap rp)) (snap_endpoints snap))
      end in
    now ← steady_now_ms;
    _ ← modify (fun p => set_remote p (map_set key (mkRemote peer seq snap now) (p_remote p)));
    mret (Some (changed, new_reader_endpoints old snap)).

Definition handle_announce_prog (peer : PeerId) (frame : list Z) : prog T unit :=
  d ← lift (decoded (decode_announce frame));
  match d with
  | None => mret tt
  | Some (snap, seq) =>
      o ← locked (lift (announce_section peer snap seq));
      match o with
      | None => mret tt
      | Some (changed, new_readers) =>
          _ ← replay_history_to_peer_prog peer new_readers;
          if changed : bool then graph_changed_prog else mret tt
      end
  end.

(** *** Data *)

(** Data and heartbeats refresh the writer's liveliness; then its endpoint is looked up. *)
Definition seen_writer (writer : Guid) : act T (option EndpointRecord * list (Z * ReaderImpl)) :=
  now ← steady_now_ms;
  _ ← modify (fun p => set_last_seen p (map_set writer now (p_writer_last_seen p)));
  p ← get_self;
  mret (find_remote_endpoint_locked p writer, p_readers p).

(** The lock region of [deliver_sample]; each reader takes the sample under its own
    [queue_mutex_]. *)
Definition deliver_section (writer_guid : Guid) (seq pub_time_ms : Z) (data : list Z)
    : prog T (list (Z * Guid * EnqueueOut)) :=
  s ← lift (seen_writer writer_guid);
  match s.1 with
  | None => mret []
  | Some writer_ep =>
      mapM (fun kv : Z * ReaderImpl =>
        out ← lift (enqueue_at kv.1 writer_guid seq data (ep_qos writer_ep) pub_time_ms);
        mret (kv.1, r_guid kv.2, out))
      (filter (fun kv : Z * ReaderImpl =>
        endpoints_match (r_topic kv.2) (r_type kv.2) (r_qos kv.2) writer_ep = true) s.2)
  end.

Definition deliver_sample_prog (peer : PeerId) (writer_guid : Guid) (seq pub_time_ms : Z) (data : list Z)
    : prog T unit :=
  outs ← locked (deliver_section writer_guid seq pub_time_ms data);
  _ ← each outs (fun o =>
        if eo_gap o.2 then
          frame ← lift (encoded (encode_acknack o.1.2 writer_guid (eo_base o.2) (eo_bitmap o.2)));
          send_prog peer frame
        else mret tt);
  each outs (fun o => if eo_queued o.2 then fire_callback_prog o.1.1 else mret tt).

(** The lock region of [handle_acknack]. *)
Definition acknack_section (body : AckNackBody) : act T (option (Z * list CachedSample * Z)) :=
  p ← get_self;
  match find_writer_locked p (ack_writer body), find_remote_endpoint_locked p (ack_reader body) with
  | Some ptr, Some reader_ep =>
      w ← writer_at ptr;
      let clamp := bool_decide (durability (ep_qos reader_ep) = VOLATILE) in
      let (resend, unavail_end) :=
        acknack_scan w clamp (ep_birth_us reader_ep) (ack_base_seq body) (ack_bitmap body) in
      mret (Some (reliable_flag (w_qos w), resend, unavail_end))
  | _, _ => mret None
  end.

Definition handle_acknack_prog (peer : PeerId) (frame : list Z) : prog T unit :=
  d ← lift (decoded (decode_acknack frame));
  match d with
  | None => mret tt
  | Some body =>
      s ← locked (lift (acknack_section body));
      match s with
      | None => mret tt
      | Some (flags, resend, unavail_end) =>
          _ ← each resend (fun e =>
                _ ← send_sample_to_prog peer (ack_writer body) (cs_seq e) (cs_pub_time_ms e) (cs_data e) flags;
                mret tt);
          if 0 <? unavail_end then
            gap ← lift (encoded (encode_gap (ack_writer body) (ack_reader body) (ack_base_seq body) unavail_end));
            send_prog peer gap
          else mret tt
      end
  end.

Definition handle_gap_prog (peer : PeerId) (frame : list Z) : prog T unit :=
  d ← lift (decoded (decode_gap frame));
  match d with
  | None => mret tt
  | Some body =>
      if gap_end body <? gap_start body then mret tt
      else locked (lift (modify (fun p =>
        match find_reader_locked p (gap_reader body) with
        | None => p
        | Some ptr =>
            set_readers p (map_adjust (fun r => apply_gap r (gap_writer body) (gap_start body) (gap_end body))
              ptr (p_readers p))
        end)))
  end.

(** One reader's part of [nacks_due]: [nack_state] reads under [queue_mutex_]. *)
Definition nack_due (writer : Guid) (writer_ep : EndpointRecord) (last : Z) (r : ReaderImpl) : option (Guid * Z * Z) :=
  if negb (bool_decide (reliability (r_qos r) = RELIABLE)) then None
  else if negb (endpoints_match (r_topic r) (r_type r) (r_qos r) writer_ep) then None
  else let (base, bitmap) := nack_state r writer in
       if base <=? last then Some (r_guid r, base, bitmap) else None.
Definition nack_due_at (reader : Z) (writer : Guid) (writer_ep : EndpointRecord) (last : Z)
    : act T (option (Guid * Z * Z)) :=
  r ← reader_at reader; mret (nack_due writer writer_ep last r).

Definition heartbeat_section (body : HeartbeatBody) : prog T (list (option (Guid * Z * Z))) :=
  s ← lift (seen_writer (hb_writer body));
  match s.1 with
  | None => mret []
  | Some writer_ep =>
      mapM (fun kv : Z * ReaderImpl => lift (nack_due_at kv.1 (hb_writer body) writer_ep (hb_last_seq body))) s.2
  end.

Definition handle_heartbeat_prog (peer : PeerId) (frame : list Z) : prog T unit :=
  d ← lift (decoded (decode_heartbeat frame));
  match d with
  | None => mret tt
  | Some body =>
      nacks ← locked (heartbeat_section body);
      each (omap id nacks) (fun nk =>
        nack ← lift (encoded (encode_acknack nk.1.1 (hb_writer body) nk.1.2 nk.2)); send_prog peer nack)
  end.

Definition handle_bytes_prog (peer : PeerId) (frame : list Z) : prog T unit :=
  h ← lift (decoded (decode_header frame));
  match h with
  | None => mret tt
  | Some hdr =>
      match hdr_type hdr with
      | ANNOUNCE => handle_announce_prog peer frame
      | DATA =>
          d ← lift (decoded (decode_data frame));
          match d with
          | None => mret tt
          | Some b => deliver_sample_prog peer (data_writer b) (data_seq b) (data_pub_time_ms b) (data_payload b)
          end
      | DATA_FRAG =>
          d ← lift (decoded (decode_data_frag frame));
          match d with
          | None => mret tt
          | Some b =>
              full ← locked (lift (reassemble peer b));
              match full with
              | None => mret tt
              | Some data => deliver_sample_prog peer (frag_writer b) (frag_seq b) (frag_pub_time_ms b) data
              end
          end
      | ACKNACK => handle_acknack_prog peer frame
      | HEARTBEAT => handle_heartbeat_prog peer frame
      | GAP => handle_gap_prog peer frame
      | OtherFrame _ => mret tt
      end
  end.

(** *** Entities *)

(** [++entity_serial_] is an atomic operation of its own, before any lock. *)
Definition next_guid (kind : EntityKind) : act T Guid :=
  p ← get_self;
  let serial := u32 (p_entity_serial p + 1) in
  _ ← modify (fun p => set_entities p serial (p_writers p) (p_readers p));
  mret (make_guid (p_prefix p) kind serial).

(** The samples [replay_local_history] finds for a reader. *)
Definition local_replay_todo (p : ParticipantImpl) (r : ReaderImpl) (now : Z) : list (WriterImpl * CachedSample) :=
  concat ((fun kv : Z * WriterImpl =>
    let w := kv.2 in
    if negb (bool_decide (durability (w_qos w) = TRANSIENT_LOCAL)) ||
       negb (bool_decide (w_topic w = r_topic r)) || negb (bool_decide (w_type w = r_type r)) ||
       negb (qos_accepted_by_reader (r_qos r) (w_qos w)) then []
    else (fun e => (w, e)) <$>
         filter (fun e => lifespan_expired (lifespan_ms (w_qos w)) (cs_pub_time_ms e) now = false)
           (w_history w)) <$> p_writers p).

Definition replay_local_section (reader : Z) (r : ReaderImpl) : prog T bool :=
  todo ← lift (now ← system_now_ms; p ← get_self; mret (local_replay_todo p r now));
  outs ← mapM (fun t : WriterImpl * CachedSample =>
           lift (enqueue_at reader (w_guid t.1) (cs_seq t.2) (cs_data t.2) (w_qos t.1) (cs_pub_time_ms t.2))) todo;
  mret (existsb eo_queued outs).

Definition replay_local_history_prog (reader : Z) : prog T unit :=
  r ← lift (reader_at reader);
  if negb (bool_decide (durability (r_qos r) = TRANSIENT_LOCAL)) || r_ignore_local r then mret tt
  else
    any ← locked (replay_local_section reader r);
    if any : bool then fire_callback_prog reader else mret tt.

Definition create_writer_prog (ptr : Z) (topic type : list Z) (q : QosProfile) : prog T (option Z) :=
  if negb (qos_valid q) then mret None
  else
    guid ← lift (next_guid WRITER);
    birth ← lift system_now_us;
    _ ← locked (lift (modify (fun p =>
          set_writers p (map_emplace ptr (new_writer guid topic type q birth) (p_writers p)))));
    _ ← recompute_matches_prog;
    mret (Some ptr).

Definition create_reader_prog (ptr : Z) (topic type : list Z) (q : QosProfile) (ignore_local : bool)
    : prog T (option Z) :=
  if negb (qos_valid q) then mret None
  else
    guid ← lift (next_guid READER);
    birth ← lift system_now_us;
    _ ← locked (lift (modify (fun p =>
          set_readers p (map_emplace ptr (ReaderImpl.new_reader guid topic type q ignore_local birth) (p_readers p)))));
    _ ← recompute_matches_prog;
    _ ← replay_local_history_prog ptr;
    mret (Some ptr).

Definition destroy_writer_prog (ptr : Z) : prog T unit :=
  _ ← locked (lift (modify (fun p => set_writers p (map_erase ptr (p_writers p)))));
  recompute_matches_prog.
Definition destroy_reader_prog (ptr : Z) : prog T unit :=
  _ ← locked (lift (modify (fun p => set_readers p (map_erase ptr (p_readers p)))));
  recompute_matches_prog.

(** The body of the loop of the announce thread. *)
Definition announce_tick_prog : prog T unit :=
  _ ← locked (lift (_ ← modify (fun p => set_announce_seq p (u64 (p_announce_seq p + 1)));
                    sweep_reassemblers_locked));
  _ ← broadcast_announce_prog;
  send_heartbeats_prog.

(** Every call, as a program. *)
Definition op_prog (op : Op) : prog T unit :=
  match op with
  | PeerUp peer => handle_peer_up_prog peer
  | PeerDown peer => handle_peer_down_prog peer
  | Receive peer frame => handle_bytes_prog peer frame
  | AnnounceTick => announce_tick_prog
  | CreateWriter ptr topic type q => _ ← create_writer_prog ptr topic type q; mret tt
  | CreateReader ptr topic type q ign => _ ← create_reader_prog ptr topic type q ign; mret tt
  | DestroyWriter ptr => destroy_writer_prog ptr
  | DestroyReader ptr => destroy_reader_prog ptr
  | Write ptr data length => _ ← writer_write_prog ptr data length; mret tt
  | AssertLiveliness ptr => assert_liveliness_prog ptr
  | Take ptr => lift (take_at ptr)
  | Available ptr => lift (available_at ptr)
  | SetDataCallback ptr has => lift (at_reader ptr (set_data_callback has))
  | AddNode ns name => locked (lift (modify (fun p => add_node p ns name)))
  | RemoveNode ns name => locked (lift (modify (fun p => remove_node p ns name)))
  | SetGraphCallback has => locked (lift (modify (fun p => set_graph_callback p has)))
  end.
End operations.

(** What is replayed comes from the history of a local writer. *)
Lemma local_replay_todo_in p r now t :
  t ∈ local_replay_todo p r now -> exists kv, kv ∈ p_writers p /\ t.2 ∈ w_history kv.2.
Proof.
  unfold local_replay_todo. intros (l & Hl & Hin)%list_elem_of_In%in_concat.
  apply list_elem_of_In, list_elem_of_fmap in Hl as (kv & -> & Hkv). apply list_elem_of_In in Hin.
  revert Hin. cbv zeta. case_if; [by intros ?%not_elem_of_nil|].
  intros (e & -> & [_ He]%list_elem_of_filter)%list_elem_of_fmap. by exists kv.
Qed.

(** ** Run alone, a program is its operation *)

Section alone.
Context {T : Type}.
Implicit Types w : World T.

Lemma alone_then {A B} (p : prog T A) (k : A -> prog T B) w :
  run_alone (p ≫= k) w = (run_alone p ≫= fun a => run_alone (k a)) w.
Proof.
  revert w. induction p as [a|B' m k' IH|p IH|p IH]; intros w; [done| |apply IH..].
  cbn. unfold mbind, act_bind. destruct (m w) as [[b w']| |]; [|done..]. apply (IH b).
Qed.

(** Both sides take the same steps, up to what the first part has established. *)
Lemma alone_bind {A B} (p : prog T A) (m : act T A) (k : A -> prog T B) (k' : A -> act T B) w :
  run_alone p w = m w -> (forall a w', m w = Done (a, w') -> run_alone (k a) w' = k' a w') ->
  run_alone (p ≫= k) w = (m ≫= k') w.
Proof.
  intros Hp Hk. rewrite alone_then. unfold mbind, act_bind. rewrite Hp.
  destruct (m w) as [[a w']| |]; [by apply Hk|done..].
Qed.

Lemma alone_lift {A} (m : act T A) w : run_alone (lift m) w = m w.
Proof. cbn. unfold mbind, act_bind. by destruct (m w) as [[a w']| |]. Qed.

Lemma alone_locked {A} (body : prog T A) w : run_alone (locked body) w = run_alone body w.
Proof.
  cbn. rewrite alone_then. unfold mbind, act_bind. by destruct (run_alone body w) as [[a w']| |].
Qed.

Lemma alone_section {A} (m : act T A) w : run_alone (locked (lift m)) w = m w.
Proof. by rewrite alone_locked, alone_lift. Qed.

Lemma act_assoc {A B C} (m : act T A) (k : A -> act T B) (k' : B -> act T C) w :
  ((m ≫= k) ≫= k') w = (m ≫= fun a => k a ≫= k') w.
Proof. unfold mbind, act_bind. by destruct (m w) as [[a w']| |]. Qed.

Lemma act_ext {A B} (m : act T A) (k k' : A -> act T B) w :
  (forall a w', m w = Done (a, w') -> k a w' = k' a w') -> (m ≫= k) w = (m ≫= k') w.
Proof. intros Hk. unfold mbind, act_bind. destruct (m w) as [[a w']| |]; [by apply Hk|done..]. Qed.

(** [m] relates the worlds before and after by [R]. *)
Definition moves {A} (R : World T -> World T -> Prop) (m : act T A) : Prop :=
  forall w a w', m w = Done (a, w') -> R w w'.

Section loops.
Context (R : World T -> World T -> Prop) `{!PreOrder R}.

Lemma moves_bind {A B} (m : act T A) (k : A -> act T B) :
  moves R m -> (forall a, moves R (k a)) -> moves R (m ≫= k).
Proof.
  intros Hm Hk w b w'. unfold mbind, act_bind. destruct (m w) as [[a w1]| |] eqn:E; [|done..].
  intros E'. etrans; [by eapply Hm|by eapply Hk].
Qed.

Lemma moves_ret {A} (a : A) : moves R (mret a).
Proof. by intros w b w' [= _ <-]. Qed.

Lemma moves_for_each {A} (l : list A) f : (forall a, moves R (f a)) -> moves R (for_each l f).
Proof.
  intros Hf. induction l as [|a l IH]; [apply moves_ret|]. apply moves_bind; [apply Hf|done].
Qed.

(** Loops run in step, from worlds where the invariant [I], kept by [R], holds. *)
Lemma alone_each (I : World T -> Prop) {A} (l : list A) (f : A -> prog T unit) (g : A -> act T unit) w :
  (forall w w', I w -> R w w' -> I w') -> (forall a, moves R (g a)) ->
  (forall a w', I w' -> run_alone (f a) w' = g a w') -> I w ->
  run_alone (each l f) w = for_each l g w.
Proof.
  intros Hkeep Hm Hf. revert w. induction l as [|a l IH]; intros w Hw; [done|].
  apply alone_bind; [by apply Hf|]. intros [] w' E. apply IH. eapply Hkeep; [exact Hw|by eapply Hm].
Qed.
End loops.

Definition anywhere (w w' : World T) : Prop := True.
#[global] Instance anywhere_preorder : PreOrder anywhere.
Proof. by split. Qed.

Lemma moves_anywhere {A} (m : act T A) : moves anywhere m.
Proof. done. Qed.

Lemma alone_each_same {A} (l : list A) (f : A -> prog T unit) (g : A -> act T unit) w :
  (forall a w', run_alone (f a) w' = g a w') -> run_alone (each l f) w = for_each l g w.
Proof. intros Hf. by apply (alone_each anywhere (fun _ => True)). Qed.

Lemma alone_mapM {A B} (l : list A) (f : A -> prog T B) (g : A -> act T B) w :
  (forall a w', run_alone (f a) w' = g a w') -> run_alone (mapM f l) w = mapM g l w.
Proof.
  intros Hf. revert w. induction l as [|a l IH]; intros w; [done|]. cbn [mapM].
  apply alone_bind; [apply Hf|]. intros b w' _. by apply alone_bind; [apply IH|].
Qed.
End alone.

Section operations_alone.
Context {T : Type} `{Transport T}.
Implicit Types w : World T.

Ltac alone_step := apply alone_bind; [first [apply alone_section|apply alone_lift|done]|].

(** A lock region [sec] that an operation goes through before [k']. *)
Lemma alone_region {A B} (sec : act T A) (k : A -> prog T B) (k' : A -> act T B) (m : act T B) w :
  (sec ≫= k') w = m w ->
  (forall a w', sec w = Done (a, w') -> run_alone (k a) w' = k' a w') ->
  run_alone (locked (lift sec) ≫= k) w = m w.
Proof. intros <- Hk. by apply alone_bind; [apply alone_section|]. Qed.

Lemma alone_send peer f w : run_alone (send_prog peer f) w = (_ ← send_frame peer f; mret tt) w.
Proof. by alone_step. Qed.

Lemma alone_fire_graph w : run_alone fire_graph_callback_prog w = fire_graph_callback w.
Proof.
  apply (alone_region _ _ (fun has : bool => if has then fire GraphChanged else mret tt)); [done|].
  intros [] w' _; [apply alone_lift|done].
Qed.

Lemma alone_graph_changed w : run_alone graph_changed_prog w = (_ ← modify recompute_matches; fire_graph_callback) w.
Proof. alone_step. intros u w' _. apply alone_fire_graph. Qed.

Lemma alone_fire_callback r w : run_alone (fire_callback_prog r) w = fire_callback r w.
Proof.
  unfold fire_callback_prog. rewrite alone_then. unfold mbind at 1, act_bind at 1. rewrite alone_lift.
  unfold reader_at, fire_callback, mbind, act_bind, get_self, deref, encoded.
  destruct (map_find r (p_readers (w_self w))) as [x|]; [|done]. cbn.
  destruct (r_has_callback x); [apply alone_lift|done].
Qed.

Lemma alone_send_frames peer fs ok w : run_alone (send_frames_prog peer fs ok) w = send_frames peer fs ok w.
Proof. revert ok w. induction fs as [|f fs IH]; intros ok w; [done|]. alone_step. intros sent w' _. apply IH. Qed.

Lemma alone_send_sample peer g seq pub data flags w :
  run_alone (send_sample_to_prog peer g seq pub data flags) w = send_sample_to peer g seq pub data flags w.
Proof.
  alone_step. intros n w1 _. destruct (n =? 0); [done|]. alone_step. intros fs w2 _.
  by apply alone_bind; [apply alone_send_frames|].
Qed.

Lemma alone_send_sample_unit peer g seq pub data flags w :
  run_alone (_ ← send_sample_to_prog peer g seq pub data flags; mret tt) w =
  (_ ← send_sample_to peer g seq pub data flags; mret tt) w.
Proof. by apply alone_bind; [apply alone_send_sample|]. Qed.

Lemma alone_peer_up peer w : run_alone (handle_peer_up_prog peer) w = handle_peer_up peer w.
Proof.
  alone_step. intros u w1 _.
  apply (alone_region _ _ (fun s => frame ← encoded (encode_announce s.1.1 s.1.2); _ ← send_frame peer frame; mret tt)); [done|].
  intros s w2 _. alone_step. intros f w3 _. apply alone_send.
Qed.

Lemma alone_broadcast_announce w : run_alone broadcast_announce_prog w = broadcast_announce w.
Proof.
  apply (alone_region _ _ (fun s => frame ← encoded (encode_announce s.1.1 s.1.2);
    for_each s.2 (fun peer => _ ← send_frame peer frame; mret tt))); [done|].
  intros s w1 _. alone_step. intros f w2 _. apply alone_each_same. intros peer w3. apply alone_send.
Qed.

Lemma alone_send_heartbeats w : run_alone send_heartbeats_prog w = send_heartbeats w.
Proof.
  apply (alone_region _ _ (fun s => for_each s.1 (fun peer => for_each s.2 (fun hb =>
    frame ← encoded (encode_heartbeat hb.1.1 hb.1.2 hb.2); _ ← send_frame peer frame; mret tt)))); [done|].
  intros s w1 _. apply alone_each_same. intros peer w2. apply alone_each_same. intros hb w3.
  alone_step. intros f w4 _. apply alone_send.
Qed.

Lemma alone_announce_tick w : run_alone announce_tick_prog w = announce_tick w.
Proof.
  apply (alone_region _ _ (fun _ => _ ← broadcast_announce; send_heartbeats)).
  { by rewrite act_assoc. }
  intros [] w1 _. apply alone_bind; [apply alone_broadcast_announce|]. intros [] w2 _. apply alone_send_heartbeats.
Qed.

Lemma alone_peer_down peer w : run_alone (handle_peer_down_prog peer) w = handle_peer_down peer w.
Proof.
  apply (alone_region _ _ (fun gone : bool => if gone then _ ← modify recompute_matches; fire_graph_callback else mret tt));
    [done|].
  intros [] w1 _; [apply alone_graph_changed|done].
Qed.

Lemma alone_replay peer eps w : run_alone (replay_history_to_peer_prog peer eps) w = replay_history_to_peer peer eps w.
Proof.
  unfold replay_history_to_peer_prog, replay_history_to_peer. case_if; [done|].
  apply (alone_region _ _ (fun todo => for_each todo (fun t =>
    _ ← send_sample_to peer t.1.2 (cs_seq t.1.1) (cs_pub_time_ms t.1.1) (cs_data t.1.1) t.2; mret tt))); [done|].
  intros todo w1 _. apply alone_each_same. intros t w2. apply alone_send_sample_unit.
Qed.

(** The lock region of [handle_announce], and what follows it. *)
Lemma announce_regions peer snap seq w :
  (o ← announce_section peer snap seq;
   match o with
   | None => mret tt
   | Some (changed, new_readers) =>
       _ ← replay_history_to_peer peer new_readers;
       if changed : bool then _ ← modify recompute_matches; fire_graph_callback else mret tt
   end) w =
  (p ← get_self;
   let key := participant_guid snap in
   let old := map_find key (p_remote p) in
   stale ← match old with
           | None => mret false
           | Some rp =>
               now ← steady_now_ms;
               _ ← modify (fun p => set_remote p (map_set key
                     (mkRemote (rp_peer rp) (rp_announce_seq rp) (rp_snap rp) now) (p_remote p)));
               mret (seq <=? rp_announce_seq rp)
           end;
   if stale : bool then mret tt
   else
     let changed :=
       match old with
       | None => true
       | Some rp => negb (bool_decide (snap_nodes (rp_snap rp) = snap_nodes snap) &&
                          endpoints_eqb (snap_endpoints (rp_snap rp)) (snap_endpoints snap))
       end in
     now ← steady_now_ms;
     _ ← modify (fun p => set_remote p (map_set key (mkRemote peer seq snap now) (p_remote p)));
     _ ← replay_history_to_peer peer (new_reader_endpoints old snap);
     if changed then _ ← modify recompute_matches; fire_graph_callback else mret tt) w.
Proof.
  unfold announce_section. rewrite act_assoc. apply act_ext. intros p w1 _. cbv zeta. rewrite act_assoc.
  apply act_ext. intros [] w2 _; [done|]. rewrite act_assoc. apply act_ext. intros now w3 _.
  rewrite act_assoc. apply act_ext. by intros [] w4 _.
Qed.

Lemma alone_announce peer frame w : run_alone (handle_announce_prog peer frame) w = handle_announce peer frame w.
Proof.
  alone_step. intros [[snap seq]|] w1 _; [|done].
  eapply alone_region; [apply announce_regions|]. intros [[changed eps]|] w2 _; [|done].
  apply alone_bind; [apply alone_replay|]. intros [] w3 _. destruct changed; [apply alone_graph_changed|done].
Qed.

Lemma alone_deliver_section g seq pub data w :
  run_alone (deliver_section g seq pub data) w =
  (s ← seen_writer g;
   match s.1 with
   | None => mret []
   | Some ep =>
       mapM (fun kv : Z * ReaderImpl => out ← enqueue_at kv.1 g seq data (ep_qos ep) pub; mret (kv.1, r_guid kv.2, out))
         (filter (fun kv : Z * ReaderImpl =>
            endpoints_match (r_topic kv.2) (r_type kv.2) (r_qos kv.2) ep = true) s.2)
   end) w.
Proof.
  alone_step. intros [[ep|] rs] w1 _; [|done]. apply alone_mapM. intros kv w2. by alone_step.
Qed.

Lemma alone_deliver peer g seq pub data w :
  run_alone (deliver_sample_prog peer g seq pub data) w = deliver_sample peer g seq pub data w.
Proof.
  unfold deliver_sample_prog. rewrite alone_then. unfold mbind at 1, act_bind at 1. rewrite alone_locked, alone_deliver_section.
  transitivity ((outs ← (s ← seen_writer g;
     match s.1 with
     | None => mret []
     | Some ep =>
         mapM (fun kv : Z * ReaderImpl => out ← enqueue_at kv.1 g seq data (ep_qos ep) pub; mret (kv.1, r_guid kv.2, out))
           (filter (fun kv : Z * ReaderImpl =>
              endpoints_match (r_topic kv.2) (r_type kv.2) (r_qos kv.2) ep = true) s.2)
     end);
   _ ← for_each outs (fun o =>
         if eo_gap o.2 then
           frame ← encoded (encode_acknack o.1.2 g (eo_base o.2) (eo_bitmap o.2)); _ ← send_frame peer frame; mret tt
         else mret tt);
   for_each outs (fun o => if eo_queued o.2 then fire_callback o.1.1 else mret tt)) w).
  2:{ rewrite act_assoc. unfold seen_writer, deliver_sample. rewrite act_assoc. apply act_ext. intros now w1 _.
      rewrite act_assoc. apply act_ext. intros [] w2 _. rewrite act_assoc. apply act_ext. intros p w3 _.
      by destruct (find_remote_endpoint_locked p g). }
  apply act_ext. intros outs w1 _. apply alone_bind.
  - apply alone_each_same. intros o w2. case_if; [|done]. alone_step. intros f w3 _. apply alone_send.
  - intros [] w2 _. apply alone_each_same. intros o w3. case_if; [apply alone_fire_callback|done].
Qed.

Lemma alone_acknack peer frame w : run_alone (handle_acknack_prog peer frame) w = handle_acknack peer frame w.
Proof.
  alone_step. intros [b|] w1 _; [|done].
  apply (alone_region _ _ (fun s => match s with
    | None => mret tt
    | Some (flags, resend, unavail_end) =>
        _ ← for_each resend (fun e =>
              _ ← send_sample_to peer (ack_writer b) (cs_seq e) (cs_pub_time_ms e) (cs_data e) flags; mret tt);
        if 0 <? unavail_end then
          gap ← encoded (encode_gap (ack_writer b) (ack_reader b) (ack_base_seq b) unavail_end);
          _ ← send_frame peer gap; mret tt
        else mret tt
    end)).
  - unfold acknack_section. rewrite act_assoc. apply act_ext. intros p w2 E. injection E as <- <-.
    destruct (find_writer_locked _ _) as [ptr|]; [|done]. destruct (find_remote_endpoint_locked _ _) as [ep|]; [|done].
    unfold writer_at, mbind, act_bind, get_self, deref, encoded.
    destruct (map_find ptr _) as [wr|]; [|done]. cbn. by destruct (acknack_scan _ _ _ _ _).
  - intros [[[flags resend] u]|] w2 _; [|done]. apply alone_bind.
    + apply alone_each_same. intros e w3. apply alone_send_sample_unit.
    + intros [] w3 _. case_if; [|done]. alone_step. intros f w4 _. apply alone_send.
Qed.

Lemma alone_gap peer frame w : run_alone (handle_gap_prog peer frame) w = handle_gap peer frame w.
Proof. alone_step. intros [b|] w1 _; [|done]. case_if; [done|]. apply alone_section. Qed.

Lemma reader_at_run ptr r w : map_find ptr (p_readers (w_self w)) = Some r -> reader_at ptr w = Done (r, w).
Proof. intros E. unfold reader_at, mbind, act_bind, get_self. by rewrite E. Qed.
Lemma writer_at_run ptr wr w : map_find ptr (p_writers (w_self w)) = Some wr -> writer_at ptr w = Done (wr, w).
Proof. intros E. unfold writer_at, mbind, act_bind, get_self. by rewrite E. Qed.

(** A result known beforehand. *)
Lemma run_first {A B} (m : act T A) (k : A -> act T B) w a w' :
  m w = Done (a, w') -> (m ≫= k) w = k a w'.
Proof. unfold mbind, act_bind. by intros ->. Qed.

(** Asking the readers one by one is asking the table. *)
Lemma nacks_one_by_one g ep last (l : list (Z * ReaderImpl)) w :
  (forall kv, kv ∈ l -> map_find kv.1 (p_readers (w_self w)) = Some kv.2) ->
  mapM (fun kv : Z * ReaderImpl => nack_due_at kv.1 g ep last) l w =
  Done ((fun kv => nack_due g ep last kv.2) <$> l, w).
Proof.
  induction l as [|kv l IH]; intros Hl; [done|]. cbn [mapM].
  assert (Hn : nack_due_at kv.1 g ep last w = Done (nack_due g ep last kv.2, w)).
  { unfold nack_due_at. by rewrite (run_first _ _ _ _ _ (reader_at_run _ _ _ (Hl kv ltac:(left)))). }
  rewrite (run_first _ _ _ _ _ Hn).
  by rewrite (run_first _ _ _ _ _ (IH ltac:(intros kv' ?; apply Hl; by right))).
Qed.

Lemma omap_some {A B} (f : A -> option B) (l : list A) : omap id (f <$> l) = omap f l.
Proof. induction l as [|a l IH]; [done|]. cbn. destruct (f a); cbn; f_equal; exact IH. Qed.

Lemma alone_heartbeat peer frame w :
  part_ok (w_self w) -> run_alone (handle_heartbeat_prog peer frame) w = handle_heartbeat peer frame w.
Proof.
  intros Hok. alone_step. intros [b|] w1 E; [|done].
  assert (E1 : w_self w1 = w_self w).
  { unfold decoded in E. destruct (decode_heartbeat frame); [by injection E as _ <-|done..]. }
  rewrite (alone_then (locked _)). unfold mbind at 1, act_bind at 1. rewrite alone_locked.
  unfold heartbeat_section. rewrite alone_then. unfold mbind at 1, act_bind at 1. rewrite alone_lift.
  unfold seen_writer, steady_now_ms, tick, modify, get_self, mret, act_ret, mbind, act_bind.
  cbn [with_self w_self p_readers set_last_seen fst snd].
  destruct (find_remote_endpoint_locked _ _) as [ep|]; [|done]. rewrite E1.
  rewrite (alone_mapM _ _ (fun kv : Z * ReaderImpl => nack_due_at kv.1 (hb_writer b) ep (hb_last_seq b)))
    by (intros; apply alone_lift).
  rewrite nacks_one_by_one by (intros kv Hkv; apply entry_find; [apply Hok|done]).
  rewrite omap_some. apply alone_each_same. intros nk w2. alone_step. intros f w3 _. apply alone_send.
Qed.

Lemma decoded_same {A} (r : res A) w o w' : decoded r w = Done (o, w') -> w' = w.
Proof. unfold decoded. destruct r; [by intros [= _ <-]|by intros [= _ <-]|done]. Qed.

Lemma alone_bytes peer frame w :
  part_ok (w_self w) -> run_alone (handle_bytes_prog peer frame) w = handle_bytes peer frame w.
Proof.
  intros Hok. alone_step. intros [h|] w1 E; [|done]. apply decoded_same in E as ->. destruct (hdr_type h).
  - alone_step. intros [b|] w1 _; [apply alone_deliver|done].
  - alone_step. intros [b|] w1 _; [|done]. alone_step. intros [data|] w2 _; [apply alone_deliver|done].
  - apply alone_acknack.
  - by apply alone_heartbeat.
  - apply alone_announce.
  - apply alone_gap.
  - done.
Qed.

(** *** Entities *)

Lemma alone_recompute w : run_alone recompute_matches_prog w = modify recompute_matches w.
Proof. apply alone_section. Qed.

Lemma alone_replay_local ptr w : run_alone (replay_local_history_prog ptr) w = replay_local_history ptr w.
Proof.
  unfold replay_local_history_prog, replay_local_history.
  rewrite (run_first _ _ _ _ _ (eq_refl : get_self w = Done (w_self w, w))).
  rewrite alone_then. unfold mbind at 1, act_bind at 1. rewrite alone_lift.
  destruct (map_find ptr (p_readers (w_self w))) as [r|] eqn:Er.
  2:{ unfold reader_at, mbind, act_bind, get_self. by rewrite Er. }
  rewrite (reader_at_run _ _ _ Er). case_if; [done|].
  transitivity ((any ← (todo ← (now ← system_now_ms; p ← get_self; mret (local_replay_todo p r now));
      outs ← mapM (fun t : WriterImpl * CachedSample =>
        enqueue_at ptr (w_guid t.1) (cs_seq t.2) (cs_data t.2) (w_qos t.1) (cs_pub_time_ms t.2)) todo;
      mret (existsb eo_queued outs)); if any : bool then fire_callback ptr else mret tt) w).
  - apply alone_bind.
    + rewrite alone_locked. alone_step. intros todo w1 _. apply alone_bind; [|done].
      apply alone_mapM. intros t w2. apply alone_lift.
    + intros [] w1 _; [apply alone_fire_callback|done].
  - rewrite !act_assoc. apply act_ext. intros now w1 Ew. injection Ew as _ <-.
    etransitivity; [apply (act_assoc (mapM _ (local_replay_todo (w_self w) r now)))|].
    apply act_ext. by intros outs w2 _.
Qed.

Lemma alone_create_writer ptr topic type q w :
  run_alone (create_writer_prog ptr topic type q) w = create_writer ptr topic type q w.
Proof. unfold create_writer_prog, create_writer. by destruct (qos_valid q). Qed.

Lemma alone_create_reader ptr topic type q ign w :
  run_alone (create_reader_prog ptr topic type q ign) w = create_reader ptr topic type q ign w.
Proof.
  unfold create_reader_prog, create_reader. destruct (qos_valid q); [|done]. cbn [negb].
  transitivity ((_ ← replay_local_history ptr; mret (Some ptr))
    (with_self (recompute_matches (with_new_reader (w_self w) ptr topic type q ign (w_sys w (w_tick w)))) (ticked w))); [|done].
  change (run_alone (_ ← replay_local_history_prog ptr; mret (Some ptr))
    (with_self (recompute_matches (with_new_reader (w_self w) ptr topic type q ign (w_sys w (w_tick w)))) (ticked w)) =
    (_ ← replay_local_history ptr; mret (Some ptr))
    (with_self (recompute_matches (with_new_reader (w_self w) ptr topic type q ign (w_sys w (w_tick w)))) (ticked w))).
  by apply alone_bind; [apply alone_replay_local|].
Qed.

(** *** Publishing *)

(** What a publication does after its number is claimed leaves the writers alone. *)
Definition same_writers w w' : Prop := p_writers (w_self w') = p_writers (w_self w).

#[local] Instance same_writers_preorder : PreOrder same_writers.
Proof. unfold same_writers. split; [done|]. intros w1 w2 w3. congruence. Qed.

Lemma moves_same_self {A} (m : act T A) :
  (forall w a w', m w = Done (a, w') -> w_self w' = w_self w) -> moves same_writers m.
Proof. intros Hm w a w' E. unfold same_writers. by rewrite (Hm _ _ _ E). Qed.

Lemma moves_send_frame peer f : moves same_writers (send_frame peer f).
Proof.
  apply moves_same_self. intros w a w'. unfold send_frame. cbv zeta.
  generalize (Z.to_nat (peer_transport_index peer)). intros idx. case_if; [by intros [= _ <-]|].
  destruct (w_transports w !! idx) as [t|]; [|by intros [= _ <-]].
  destruct (transport_send t _ f). by intros [= _ <-].
Qed.

Lemma moves_send_frames peer fs ok : moves same_writers (send_frames peer fs ok).
Proof.
  revert ok. induction fs as [|f fs IH]; intros ok; [exact (moves_ret same_writers _)|].
  apply moves_bind; [apply _|apply moves_send_frame|done].
Qed.

Lemma moves_encoded {A} (r : res A) : moves same_writers (encoded (T := T) r).
Proof.
  apply moves_same_self. intros w a w' E. unfold encoded in E. by apply bind_Done_inv in E as (x & _ & [= _ <-]).
Qed.

Lemma moves_send_sample peer g seq pub data flags :
  moves same_writers (send_sample_to peer g seq pub data flags).
Proof.
  apply moves_bind; [apply _| |].
  { apply moves_same_self. intros w a w'. unfold max_payload. destruct (_ !! _); by intros [= _ <-]. }
  intros n. case_if; [exact (moves_ret same_writers _)|]. apply moves_bind; [apply _|apply moves_encoded|].
  intros fs. apply moves_bind; [apply _|apply moves_send_frames|]. intros ok. exact (moves_ret same_writers _).
Qed.

Lemma moves_fire_callback r : moves same_writers (fire_callback r).
Proof.
  apply moves_same_self. intros w a w'. unfold fire_callback, mbind, act_bind, get_self.
  destruct (map_find r _) as [x|]; [|done]. destruct (r_has_callback x); by intros [= _ <-].
Qed.

Lemma moves_enqueue r g seq data q pub : moves same_writers (enqueue_at (T := T) r g seq data q pub).
Proof.
  intros w a w'. unfold enqueue_at, system_now_ms, tick, mbind, act_bind, get_self, modify. cbn.
  destruct (map_find r _) as [x|]; [|done]. destruct (enqueue _ _ _ _ _ _ _ _) as [x' out]. by intros [= _ <-].
Qed.

Lemma alone_send_to_targets (I : World T -> Prop) targets (f : PeerId -> prog T bool) (g : PeerId -> act T bool) any w :
  (forall w w', I w -> same_writers w w' -> I w') -> (forall a, moves same_writers (g a)) ->
  (forall a w', I w' -> run_alone (f a) w' = g a w') -> I w ->
  run_alone (send_to_targets_prog targets f any) w = send_to_targets targets g any w.
Proof.
  intros Hkeep Hm Hf. revert any w. induction targets as [|a l IH]; intros any w Hw; [done|].
  apply alone_bind; [by apply Hf|]. intros b w' E. apply IH. eapply Hkeep; [exact Hw|by eapply Hm].
Qed.

(** What follows the lock region of [write_sample]. *)
Definition publish (g : Guid) (q : QosProfile) (seq pub_time_ms : Z) (data : list Z) (readers targets : list Z) : act T bool :=
  _ ← for_each readers (fun r =>
        out ← enqueue_at r g seq data q pub_time_ms; if eo_queued out then fire_callback r else mret tt);
  any ← send_to_targets targets (fun peer => send_sample_to peer g seq pub_time_ms data (reliable_flag q)) false;
  mret (any || bool_decide (targets = [])).

Definition writer_names_at (ptr : Z) (g : Guid) (q : QosProfile) w : Prop :=
  exists wr, map_find ptr (p_writers (w_self w)) = Some wr /\ w_guid wr = g /\ w_qos wr = q.

Lemma writer_names_keep ptr g q w w' : writer_names_at ptr g q w -> same_writers w w' -> writer_names_at ptr g q w'.
Proof. intros (wr & ? & ?) E. exists wr. by rewrite E. Qed.

Lemma writer_at_then {B} ptr g q (k : WriterImpl -> act T B) (k' : act T B) w :
  writer_names_at ptr g q w -> (forall wr, w_guid wr = g -> w_qos wr = q -> k wr w = k' w) ->
  (writer_at ptr ≫= k) w = k' w.
Proof.
  intros (wr & Hf & Hg & Hq) Hk. rewrite (run_first _ _ _ _ _ (writer_at_run _ _ _ Hf)). by apply Hk.
Qed.

Lemma alone_publish ptr g q seq pub data readers targets w :
  writer_names_at ptr g q w ->
  run_alone (publish_prog ptr seq pub data readers targets) w = publish g q seq pub data readers targets w.
Proof.
  intros Hw. unfold publish_prog, publish.
  set (f := fun r => out ← enqueue_at r g seq data q pub; if eo_queued out then fire_callback r else mret tt).
  assert (Hm : forall r, moves same_writers (f r)).
  { intros r. apply moves_bind; [apply _|apply moves_enqueue|]. intros out.
    case_if; [apply moves_fire_callback|exact (moves_ret same_writers _)]. }
  apply alone_bind.
  - apply (alone_each same_writers (writer_names_at ptr g q)); [by apply writer_names_keep|done| |done].
    intros r w1 Hw1. apply alone_bind.
    + rewrite alone_lift. apply (writer_at_then ptr g q); [done|]. by intros wr <- <-.
    + intros out w2 _. case_if; [apply alone_fire_callback|done].
  - intros [] w1 E1. assert (Hw1 : writer_names_at ptr g q w1).
    { eapply writer_names_keep; [exact Hw|]. eapply (moves_for_each same_writers); [exact Hm|exact E1]. }
    rewrite alone_then. unfold mbind at 1, act_bind at 1. rewrite alone_lift. destruct Hw1 as (wr & Hf & Hg & Hq).
    rewrite (writer_at_run _ _ _ Hf). apply alone_bind; [|done].
    apply (alone_send_to_targets (writer_names_at ptr g q)).
    + by apply writer_names_keep.
    + intros peer. apply moves_send_sample.
    + intros peer w2 Hw2. rewrite alone_then. unfold mbind at 1, act_bind at 1. rewrite alone_lift.
      destruct Hw2 as (wr2 & Hf2 & Hg2 & Hq2). rewrite (writer_at_run _ _ _ Hf2), Hg2, Hq. apply alone_send_sample.
    + by exists wr.
Qed.

Lemma alone_write_sample ptr data w :
  run_alone (write_sample_prog ptr data) w = write_sample ptr data w.
Proof.
  apply alone_bind; [apply alone_lift|]. intros pub w1 _. rewrite alone_then. unfold mbind at 1, act_bind at 1.
  rewrite alone_section. unfold claim_section.
  rewrite (run_first _ _ _ _ _ (eq_refl : system_now_ms w1 = Done (w_sys w1 (w_tick w1) / 1000, ticked w1))).
  rewrite (run_first _ _ _ _ _ (eq_refl : system_now_ms w1 = Done (w_sys w1 (w_tick w1) / 1000, ticked w1))).
  rewrite !(run_first _ _ _ _ _ (eq_refl : get_self (ticked w1) = Done (w_self w1, ticked w1))).
  destruct (map_find ptr (p_writers (w_self w1))) as [wr|] eqn:Ef.
  2:{ unfold writer_at, mbind, act_bind, get_self. cbn [w_self ticked]. by rewrite Ef. }
  rewrite (run_first _ _ _ _ _ (writer_at_run ptr wr (ticked w1) Ef)).
  pose proof (claim_seq_sig wr pub data (w_sys w1 (w_tick w1) / 1000)) as [Hsig _].
  pose proof (claim_seq_frame wr pub data (w_sys w1 (w_tick w1) / 1000)) as [_ Eg].
  destruct (claim_seq wr pub data _) as [wr' [seq|]]; [|done]. simpl in Hsig, Eg.
  rewrite !(run_first _ _ _ _ _ (eq_refl : modify _ (ticked w1) = Done (tt, _))). cbn [mret act_ret].
  rewrite (alone_publish ptr (w_guid wr) (w_qos wr)); [done|]. exists wr'. split; [|by injection Hsig].
  apply map_find_set_eq.
Qed.

Lemma alone_write ptr data length w :
  run_alone (writer_write_prog ptr data length) w = writer_write ptr data length w.
Proof.
  unfold writer_write_prog, writer_write. destruct data as [bytes|].
  - alone_step. intros bs w1 _. apply alone_write_sample.
  - case_if; [done|apply alone_write_sample].
Qed.

Lemma alone_assert_liveliness ptr w : run_alone (assert_liveliness_prog ptr) w = assert_liveliness ptr w.
Proof.
  unfold assert_liveliness_prog, assert_liveliness, broadcast_writer_heartbeat. rewrite alone_then.
  unfold mbind at 1, act_bind at 1. rewrite alone_section.
  rewrite !(run_first _ _ _ _ _ (eq_refl : get_self w = Done (w_self w, w))).
  destruct (map_find ptr (p_writers (w_self w))) as [wr|] eqn:Ef.
  2:{ unfold writer_at, mbind, act_bind, get_self. by rewrite Ef. }
  rewrite (run_first _ _ _ _ _ (writer_at_run ptr wr w Ef)). cbn [mret act_ret]. rewrite alone_then.
  unfold mbind at 1, act_bind at 1. rewrite alone_lift, (writer_at_run ptr wr w Ef).
  apply alone_bind; [apply alone_lift|]. intros f w1 _. apply alone_each_same. intros peer w2. apply alone_send.
Qed.

Lemma alone_discard {A} (p : prog T A) (m : act T A) w :
  run_alone p w = m w -> run_alone (_ ← p; mret tt) w = (_ ← m; mret tt) w.
Proof. intros E. by apply alone_bind. Qed.

(** Every call, run by itself, is the operation. *)
Lemma alone_op op w : part_ok (w_self w) -> run_alone (op_prog op) w = run_op op w.
Proof.
  intros Hok. destruct op; cbn [op_prog run_op].
  - apply alone_peer_up.
  - apply alone_peer_down.
  - by apply alone_bytes.
  - apply alone_announce_tick.
  - apply alone_discard, alone_create_writer.
  - apply alone_discard, alone_create_reader.
  - by apply alone_bind; [apply alone_section|intros; apply alone_recompute].
  - by apply alone_bind; [apply alone_section|intros; apply alone_recompute].
  - apply alone_discard, alone_write.
  - apply alone_assert_liveliness.
  - apply alone_lift.
  - apply alone_lift.
  - apply alone_lift.
  - apply alone_section.
  - apply alone_section.
  - apply alone_section.
Qed.
End operations_alone.
