(* ===== verification/Interleave.v ===== *)
(** * Calls that overlap

    Several threads are inside [ParticipantImpl] at once.  A pool holds the world, the
    owner of [mutex_] and the programs of the calls in flight; one step lets one thread
    take or release the lock or do its next act.  A logic for programs under
    interference: what a thread relies on, what it guarantees, and that a pool whose
    threads keep their guarantees never goes wrong. *)

From S2P Require Import Prelude Memory StdMap Guid Qos Frame Fragment Reassembler ReaderImpl WriterImpl Reliability Discovery Participant ParticipantFacts Matching Session Locked.

(** ** What [mutex_] guards

    Everything of the tables but the queue, the receive windows and the callback of each
    reader, which its [queue_mutex_] guards, and the atomic [entity_serial_]. *)

Definition reader_const (r : ReaderImpl) : Guid * list Z * list Z * QosProfile * bool * Z * Z :=
  (r_guid r, r_topic r, r_type r, r_qos r, r_ignore_local r, r_birth_us r, r_matched_count r).

Record guarded_same (p p' : ParticipantImpl) : Prop := {
  gs_prefix : p_prefix p' = p_prefix p;
  gs_guid : p_guid p' = p_guid p;
  gs_writers : p_writers p' = p_writers p;
  gs_readers : view reader_const (p_readers p') = view reader_const (p_readers p);
  gs_nodes : p_nodes p' = p_nodes p;
  gs_peers : p_peers p' = p_peers p;
  gs_remote : p_remote p' = p_remote p;
  gs_last_seen : p_writer_last_seen p' = p_writer_last_seen p;
  gs_reassemblers : p_reassemblers p' = p_reassemblers p;
  gs_has_graph_callback : p_has_graph_callback p' = p_has_graph_callback p;
  gs_announce_seq : p_announce_seq p' = p_announce_seq p;
  gs_running : p_running p' = p_running p;
}.

#[global] Instance guarded_same_preorder : PreOrder guarded_same.
Proof.
  split; [by split|]. intros p1 p2 p3 [] []. split; congruence.
Qed.

Definition shielded {T} (w w' : World T) : Prop := guarded_same (w_self w) (w_self w').

#[global] Instance shielded_preorder {T} : PreOrder (shielded (T := T)).
Proof.
  unfold shielded. split; [intros w; reflexivity|]. intros w1 w2 w3 H1 H2. by etrans.
Qed.

(** ** Pools *)

Record Pool (T : Type) := mkPool {
  pool_world : World T;
  pool_owner : option nat;
  pool_threads : list (Op * prog T unit);
}.
Arguments mkPool {T} _ _ _.
Arguments pool_world {T} _.
Arguments pool_owner {T} _.
Arguments pool_threads {T} _.

Definition finished {T A} (p : prog T A) : bool := match p with Ret _ => true | _ => false end.

(** Which entities a call may dereference, destroy and create. *)
Definition uses_reader (op : Op) (ptr : Z) : bool :=
  match op with
  | Receive _ _ | Write _ _ _ => true
  | Take p | Available p | SetDataCallback p _ | CreateReader p _ _ _ _ => ptr =? p
  | _ => false
  end.
Definition uses_writer (op : Op) (ptr : Z) : bool :=
  match op with Write p _ _ | AssertLiveliness p => ptr =? p | _ => false end.
Definition publishes (op : Op) (ptr : Z) : bool := match op with Write p _ _ => ptr =? p | _ => false end.
Definition kills_reader (op : Op) (ptr : Z) : bool := match op with DestroyReader p => ptr =? p | _ => false end.
Definition kills_writer (op : Op) (ptr : Z) : bool := match op with DestroyWriter p => ptr =? p | _ => false end.
Definition makes (op : Op) (ptr : Z) : bool :=
  match op with CreateWriter p _ _ _ | CreateReader p _ _ _ _ => ptr =? p | _ => false end.

(** Calls that may overlap: none destroys what the other may dereference, and
    allocations in flight differ. *)
Definition compatible (op op' : Op) : Prop :=
  forall ptr,
    (kills_reader op ptr = true -> uses_reader op' ptr = false) /\
    (kills_writer op ptr = true -> uses_writer op' ptr = false) /\
    (kills_reader op' ptr = true -> uses_reader op ptr = false) /\
    (kills_writer op' ptr = true -> uses_writer op ptr = false) /\
    (makes op ptr = true -> makes op' ptr = false).

Lemma publishes_uses op ptr : publishes op ptr = true -> uses_writer op ptr = true.
Proof. by destruct op. Qed.

Lemma compatible_sym op op' : compatible op op' -> compatible op' op.
Proof.
  intros Hc ptr. destruct (Hc ptr) as (H1 & H2 & H3 & H4 & H5). split_and!; try done.
  intros E. destruct (makes op ptr); [|done]. rewrite H5 in E by done. done.
Qed.

(** The counters have room for one more sample and one more entity. *)
Definition in_range (p : ParticipantImpl) : Prop :=
  p_entity_serial p + 1 < 2 ^ 24 /\
  forall ptr wr, map_find ptr (p_writers p) = Some wr -> w_seq wr + 1 < 2 ^ 64.

(** No remote participant's endpoints were replaced by ones that differ in QoS only. *)
Definition qos_kept (p p' : ParticipantImpl) : Prop :=
  forall g rp rp', map_find g (p_remote p) = Some rp -> map_find g (p_remote p') = Some rp' ->
    endpoints_eqb (snap_endpoints (rp_snap rp)) (snap_endpoints (rp_snap rp')) = true ->
    ep_qos <$> snap_endpoints (rp_snap rp) = ep_qos <$> snap_endpoints (rp_snap rp').

Section pools.
Context {T : Type} `{Transport T}.
Implicit Types P : Pool T.

(** A thread's move: [None] when its call has returned or waits for [mutex_].  To lock a
    mutex one holds, or to release one that one does not hold, is undefined. *)
Definition advance (i : nat) P : option (res (Pool T)) :=
  match pool_threads P !! i with
  | None => None
  | Some (op, p) =>
      match p with
      | Ret _ => None
      | Step m k => Some (match m (pool_world P) with
          | Done (b, w') => Done (mkPool w' (pool_owner P) (<[i := (op, k b)]> (pool_threads P)))
          | Fail => Fail
          | UB => UB
          end)
      | Lock k =>
          match pool_owner P with
          | None => Some (Done (mkPool (pool_world P) (Some i) (<[i := (op, k)]> (pool_threads P))))
          | Some j => if decide (j = i) then Some UB else None
          end
      | Unlock k => Some (
          if decide (pool_owner P = Some i)
          then Done (mkPool (pool_world P) None (<[i := (op, k)]> (pool_threads P))) else UB)
      end
  end.

(** A new call, in a thread of its own. *)
Definition spawn (op : Op) P : Pool T :=
  mkPool (pool_world P) (pool_owner P) (pool_threads P ++ [(op, op_prog op)]).

Definition may_spawn (op : Op) P : Prop :=
  op_pre op (w_self (pool_world P)) /\
  forall t, t ∈ pool_threads P -> finished t.2 = false -> compatible op t.1.

(** The pools a participant can be in; in [stable] ones no step changes only a QoS. *)
Inductive pool_reachable (stable : bool) : Pool T -> Prop :=
| pool_new prefix transports hook sys steady :
    length prefix = 12%nat -> bytes_ok prefix -> (forall n, fits 64 (sys n)) ->
    pool_reachable stable (mkPool (new_world prefix transports hook sys steady) None [])
| pool_spawn P op : pool_reachable stable P -> may_spawn op P -> pool_reachable stable (spawn op P)
| pool_advance P i P' :
    pool_reachable stable P -> in_range (w_self (pool_world P)) -> advance i P = Some (Done P') ->
    (stable = true -> qos_kept (w_self (pool_world P)) (w_self (pool_world P'))) ->
    pool_reachable stable P'.

Definition at_rest P : Prop := Forall (fun t => finished t.2 = true) (pool_threads P).
End pools.

(** ** Rely and guarantee *)

(** What a call in flight owns: an id it was given and has not used yet, whether the
    address it allocated is still unused, and whether it owes a recount of the matches. *)
Record Ghost := mkGhost {
  gh_guid : option Guid;
  gh_fresh : bool;
  gh_owes : bool;
}.
Definition start_ghost : Ghost := mkGhost None true false.

Definition absent (ptr : Z) (p : ParticipantImpl) : Prop :=
  map_find ptr (p_writers p) = None /\ map_find ptr (p_readers p) = None.

(** [g] comes from a serial handed out so far. *)
Definition issued (g : Guid) (p : ParticipantImpl) : Prop :=
  exists kind n, kind_ok kind /\ 0 <= n <= p_entity_serial p /\ g = make_guid (p_prefix p) kind n.

Definition owns (op : Op) (gh : Ghost) (p : ParticipantImpl) : Prop :=
  (forall g, gh_guid gh = Some g -> (g ∉ entity_guids p) /\ issued g p) /\
  (gh_fresh gh = true -> forall ptr, makes op ptr = true -> absent ptr p).

Definition has_reader (p : ParticipantImpl) (ptr : Z) : Prop := is_Some (map_find ptr (p_readers p)).
Definition has_writer (p : ParticipantImpl) (ptr : Z) : Prop := is_Some (map_find ptr (p_writers p)).

(** Where a writer comes from after an act: it was there under its id, and its number grew
    by one at most, when the call publishes on it; or the call has just placed it. *)
Definition writer_after (op : Op) (gh : Ghost) (p : ParticipantImpl) (ptr : Z) (wr' : WriterImpl) : Prop :=
  (exists wr, map_find ptr (p_writers p) = Some wr /\ w_guid wr' = w_guid wr /\
     (w_seq wr' = w_seq wr \/ publishes op ptr = true /\ w_seq wr' = w_seq wr + 1)) \/
  map_find ptr (p_writers p) = None /\ gh_guid gh = Some (w_guid wr') /\ w_seq wr' = 0.

Lemma writers_same_after op gh p p' :
  p_writers p' = p_writers p -> forall ptr wr, map_find ptr (p_writers p') = Some wr -> writer_after op gh p ptr wr.
Proof. intros -> ptr wr Hf. left. exists wr. auto. Qed.

Section logic.
Context {T : Type} `{Transport T}.
Implicit Types w : World T.

(** What the steps of other threads do, for a thread in [op] that owns [gh]: the tables
    stay well formed, what it may dereference stays, what it owns stays its own, and
    under the lock nothing guarded changes. *)
Record rely (op : Op) (held : bool) (gh : Ghost) w w' : Prop := {
  rl_session : session_ok w';
  rl_readers ptr : uses_reader op ptr = true -> has_reader (w_self w) ptr -> has_reader (w_self w') ptr;
  rl_writers ptr : uses_writer op ptr = true -> has_writer (w_self w) ptr -> has_writer (w_self w') ptr;
  rl_owns : owns op gh (w_self w');
  rl_held : held = true -> guarded_same (w_self w) (w_self w');
}.

(** What a thread's own act does. *)
Record guar (op : Op) (held : bool) (gh gh' : Ghost) w w' : Prop := {
  gr_session : session_ok w';
  gr_prefix : p_prefix (w_self w') = p_prefix (w_self w);
  gr_serial : p_entity_serial (w_self w) <= p_entity_serial (w_self w');
  gr_serial_kept : p_entity_serial (w_self w') = p_entity_serial (w_self w) \/ exists ptr, makes op ptr = true;
  gr_readers ptr : kills_reader op ptr = false -> has_reader (w_self w) ptr -> has_reader (w_self w') ptr;
  gr_writers ptr : kills_writer op ptr = false -> has_writer (w_self w) ptr -> has_writer (w_self w') ptr;
  gr_absent ptr : makes op ptr = false -> absent ptr (w_self w) -> absent ptr (w_self w');
  gr_guids g : g ∈ entity_guids (w_self w') -> g ∈ entity_guids (w_self w) \/ gh_guid gh = Some g;
  gr_owns : owns op gh' (w_self w');
  gr_new_guid g : gh_guid gh' = Some g -> gh_guid gh = Some g \/
    exists kind, kind_ok kind /\ g = make_guid (p_prefix (w_self w)) kind (p_entity_serial (w_self w) + 1) /\
      p_entity_serial (w_self w') = p_entity_serial (w_self w) + 1;
  gr_numbers ptr wr : map_find ptr (p_writers (w_self w')) = Some wr -> writer_after op gh (w_self w) ptr wr;
  gr_shield : held = false -> guarded_same (w_self w) (w_self w');
  gr_counts : qos_kept (w_self w) (w_self w') -> gh_owes gh' = false ->
    matches_ok (w_self w') \/ (gh_owes gh = false /\ (matches_ok (w_self w) -> matches_ok (w_self w')));
}.

(** [wp op held gh p Q w]: from [w] on, whatever the others do within [rely], no act of
    [p] goes wrong, each keeps [guar], the lock is used properly, and [Q] holds at the end. *)
Fixpoint wp {A} (op : Op) (held : bool) (gh : Ghost) (p : prog T A)
    (Q : bool -> Ghost -> A -> World T -> Prop) (w : World T) : Prop :=
  match p with
  | Ret a => Q held gh a w
  | Step m k => forall w1, rely op held gh w w1 -> in_range (w_self w1) ->
      runs (fun b w2 => exists gh', guar op held gh gh' w1 w2 /\ wp op held gh' (k b) Q w2) m w1
  | Lock k => held = false /\ forall w1, rely op false gh w w1 -> wp op true gh k Q w1
  | Unlock k => held = true /\ wp op false gh k Q w
  end.

(** A call that returns holds no lock and owes nothing. *)
Definition returns (held : bool) (gh : Ghost) (_ : unit) (_ : World T) : Prop :=
  held = false /\ gh_owes gh = false.

Definition stable_post {A} (op : Op) (Q : bool -> Ghost -> A -> World T -> Prop) : Prop :=
  forall held gh a w w', Q held gh a w -> rely op held gh w w' -> Q held gh a w'.

Lemma rely_trans op held gh w1 w2 w3 : rely op held gh w1 w2 -> rely op held gh w2 w3 -> rely op held gh w1 w3.
Proof.
  intros [] []. split; eauto. intros Hh. etrans; eauto.
Qed.

Lemma rely_unheld op held gh w1 w2 : rely op held gh w1 w2 -> rely op false gh w1 w2.
Proof. intros []. by split. Qed.

Lemma rely_refl op held gh w : session_ok w -> owns op gh (w_self w) -> rely op held gh w w.
Proof. intros. split; try done. Qed.

Lemma wp_rely {A} op held gh (p : prog T A) Q w w' :
  stable_post op Q -> wp op held gh p Q w -> rely op held gh w w' -> wp op held gh p Q w'.
Proof.
  intros HQ. revert held w w'. induction p as [a|B m k IH|p IH|p IH]; intros held w w'; cbn [wp].
  - apply HQ.
  - intros Hp Hr w1 Hr1. apply Hp. by eapply rely_trans.
  - intros [-> Hp] Hr. split; [done|]. intros w1 Hr1. apply Hp. by eapply rely_trans.
  - intros [-> Hp] Hr. split; [done|]. eapply IH; [exact Hp|]. by apply (rely_unheld _ true).
Qed.

Lemma wp_mono {A} op held gh (p : prog T A) (Q Q' : bool -> Ghost -> A -> World T -> Prop) w :
  wp op held gh p Q w -> (forall h g a w', Q h g a w' -> Q' h g a w') -> wp op held gh p Q' w.
Proof.
  intros Hp HQ. revert held gh w Hp. induction p as [a|B m k IH|p IH|p IH]; intros held gh w; cbn [wp].
  - apply HQ.
  - intros Hp w1 Hr Hin. eapply runs_mono; [by apply Hp|]. intros b w2 (gh' & Hg & Hk). exists gh'. eauto.
  - intros [-> Hp]. split; [done|]. eauto.
  - intros [-> Hp]. split; [done|]. eauto.
Qed.

Lemma wp_bind {A B} op held gh (p : prog T A) (k : A -> prog T B) Q w :
  wp op held gh p (fun h g a w' => wp op h g (k a) Q w') w -> wp op held gh (p ≫= k) Q w.
Proof.
  revert held gh w. induction p as [a|B' m k' IH|p IH|p IH]; intros held gh w; cbn; [done| | |].
  - intros Hp w1 Hr Hin. eapply runs_mono; [by apply Hp|]. intros b w2 (gh' & Hg & Hk). exists gh'.
    split; [done|]. by apply IH.
  - intros [-> Hp]. split; [done|]. intros w1 Hr. by apply IH, Hp.
  - intros [-> Hp]. split; [done|]. by apply IH.
Qed.
End logic.

(** ** Pools of threads that keep their guarantees *)

Lemma issued_mono g p p' :
  issued g p -> p_prefix p' = p_prefix p -> p_entity_serial p <= p_entity_serial p' -> issued g p'.
Proof. intros (kind & n & Hk & Hn & ->) E Hle. exists kind, n. rewrite E. split_and!; [done|lia|lia|done]. Qed.

(** The next serial makes an id that was not issued. *)
Lemma next_not_issued p kind :
  length (p_prefix p) = 12%nat -> kind_ok kind -> 0 <= p_entity_serial p -> p_entity_serial p + 1 < 2 ^ 24 ->
  ~ issued (make_guid (p_prefix p) kind (p_entity_serial p + 1)) p.
Proof.
  intros Hl Hk H0 Hlt (k & n & _ & Hn & E). destruct (make_guid_inj _ _ _ _ _ _ Hl Hl E) as (_ & _ & Emod).
  rewrite !Z.mod_small in Emod by lia. lia.
Qed.

Lemma guids_issued p g : guids_ok p -> g ∈ entity_guids p -> issued g p.
Proof. intros Hg Hin. exact (go_source _ Hg g Hin). Qed.

Section adequacy.
Context {T : Type} `{Transport T}.
Implicit Types (w : World T) (P : Pool T).

(** The step of one thread is within what another one relies on. *)
Lemma guar_rely op_i op_j held_i held_j gh_i gh_i' gh_j w w' :
  guar op_i held_i gh_i gh_i' w w' -> compatible op_i op_j -> owns op_j gh_j (w_self w) ->
  (forall g, gh_guid gh_i = Some g -> gh_guid gh_j = Some g -> False) -> (held_j = true -> held_i = false) ->
  rely op_j held_j gh_j w w'.
Proof.
  intros [] Hc [Hg Hf] Hd Hh. split; [done| | | |by intros; auto].
  - intros ptr Hu. apply gr_readers0. destruct (kills_reader op_i ptr) eqn:E; [|done].
    destruct (Hc ptr) as (H1 & _). by rewrite (H1 E) in Hu.
  - intros ptr Hu. apply gr_writers0. destruct (kills_writer op_i ptr) eqn:E; [|done].
    destruct (Hc ptr) as (_ & H2 & _). by rewrite (H2 E) in Hu.
  - split.
    + intros g Eg. destruct (Hg g Eg) as [Hn Hi]. split; [|by eapply issued_mono].
      intros [?|E]%gr_guids0; [done|by eapply Hd].
    + intros Ef ptr Hm. apply gr_absent0; [|by apply Hf].
      by destruct (compatible_sym _ _ Hc ptr) as (_ & _ & _ & _ & H5); apply H5.
Qed.

Definition holds P (i : nat) : bool := bool_decide (pool_owner P = Some i).

Record pool_inv (stable : bool) P (gs : list Ghost) : Prop := {
  pi_session : session_ok (pool_world P);
  pi_length : length gs = length (pool_threads P);
  pi_owner i : pool_owner P = Some i -> (i < length (pool_threads P))%nat;
  pi_wp i op p gh : pool_threads P !! i = Some (op, p) -> gs !! i = Some gh ->
    wp op (holds P i) gh p returns (pool_world P) /\
    (finished p = false -> owns op gh (w_self (pool_world P)));
  pi_compatible i j t t' : i <> j -> pool_threads P !! i = Some t -> pool_threads P !! j = Some t' ->
    finished t.2 = false -> finished t'.2 = false -> compatible t.1 t'.1;
  pi_guids i j t t' gh gh' g : i <> j -> pool_threads P !! i = Some t -> pool_threads P !! j = Some t' ->
    finished t.2 = false -> finished t'.2 = false -> gs !! i = Some gh -> gs !! j = Some gh' ->
    gh_guid gh = Some g -> gh_guid gh' = Some g -> False;
  pi_counts : stable = true -> (forall i gh, gs !! i = Some gh -> gh_owes gh = false) ->
    matches_ok (w_self (pool_world P));
}.

Lemma returns_stable op : stable_post (T := T) op returns.
Proof. by intros held gh a w w' ? _. Qed.

(** What a thread of the invariant may do next. *)
Lemma pool_thread stable P gs i op p :
  pool_inv stable P gs -> pool_threads P !! i = Some (op, p) ->
  exists gh, gs !! i = Some gh /\ wp op (holds P i) gh p returns (pool_world P) /\
    (finished p = false -> rely op (holds P i) gh (pool_world P) (pool_world P)).
Proof.
  intros Hinv Hi. assert (Hgh : is_Some (gs !! i)).
  { apply lookup_lt_is_Some. rewrite (pi_length _ _ _ Hinv). by eapply lookup_lt_Some. }
  destruct Hgh as [gh Hgh]. destruct (pi_wp _ _ _ Hinv _ _ _ _ Hi Hgh) as [Hwp Ho]. exists gh.
  split_and!; [done|done|]. intros Hf. apply rely_refl; [apply Hinv|by apply Ho].
Qed.

(** What the step of thread [i] means to a thread [j] in flight: it is within what [j]
    relies on, and hands out no id that [j] holds. *)
Lemma step_rely stable P gs i op p gh gh' w' j opj pj ghj :
  pool_inv stable P gs -> pool_threads P !! i = Some (op, p) -> finished p = false -> gs !! i = Some gh ->
  guar op (holds P i) gh gh' (pool_world P) w' ->
  j <> i -> (holds P j = true -> holds P i = false) ->
  pool_threads P !! j = Some (opj, pj) -> finished pj = false -> gs !! j = Some ghj ->
  rely opj (holds P j) ghj (pool_world P) w'.
Proof.
  intros Hinv Hi Hf Hgh Hg Hj Hex Hjt Hfj Hgj. destruct (pi_wp _ _ _ Hinv _ _ _ _ Hjt Hgj) as [_ Ho].
  eapply guar_rely; [exact Hg| |by apply Ho| |done].
  - exact (pi_compatible _ _ _ Hinv i j _ _ (not_eq_sym Hj) Hi Hjt Hf Hfj).
  - intros g E1 E2. exact (pi_guids _ _ _ Hinv i j _ _ _ _ g (not_eq_sym Hj) Hi Hjt Hf Hfj Hgh Hgj E1 E2).
Qed.

Lemma step_new_guid stable P gs i op p gh gh' w' j t ghj g :
  pool_inv stable P gs -> pool_threads P !! i = Some (op, p) -> finished p = false -> gs !! i = Some gh ->
  in_range (w_self (pool_world P)) -> guar op (holds P i) gh gh' (pool_world P) w' ->
  j <> i -> pool_threads P !! j = Some t -> finished t.2 = false -> gs !! j = Some ghj ->
  gh_guid gh' = Some g -> gh_guid ghj = Some g -> False.
Proof.
  intros Hinv Hi Hf Hgh Hin Hg Hj Hjt Hfj Hgj E1 E2. destruct t as [opj pj].
  destruct (gr_new_guid _ _ _ _ _ _ Hg g E1) as [E|(kind & Hk & -> & _)].
  - exact (pi_guids _ _ _ Hinv i j _ _ _ _ g (not_eq_sym Hj) Hi Hjt Hf Hfj Hgh Hgj E E2).
  - destruct (pi_wp _ _ _ Hinv _ _ _ _ Hjt Hgj) as [_ Ho]. destruct (Ho Hfj) as [Hog _].
    destruct (Hog _ E2) as [_ Hiss]. destruct (pi_session _ _ _ Hinv) as [[Hp _] Hgs].
    revert Hiss. apply next_not_issued; [apply Hp|done|apply Hgs|apply Hin].
Qed.

(** The thread at [i] moves from [p] to [p'] and the world to [w'], within its guarantee. *)
Lemma pool_inv_step stable P gs i op p p' gh gh' w' owner' :
  pool_inv stable P gs -> pool_threads P !! i = Some (op, p) -> finished p = false -> gs !! i = Some gh ->
  in_range (w_self (pool_world P)) ->
  guar op (holds P i) gh gh' (pool_world P) w' ->
  (stable = true -> qos_kept (w_self (pool_world P)) (w_self w')) ->
  (forall j, j <> i -> bool_decide (owner' = Some j) = holds P j) ->
  (forall j, j <> i -> holds P j = true -> holds P i = false) ->
  wp op (bool_decide (owner' = Some i)) gh' p' returns w' ->
  pool_inv stable (mkPool w' owner' (<[i := (op, p')]> (pool_threads P))) (<[i := gh']> gs).
Proof.
  intros Hinv Hi Hf Hgh Hin Hg Hqos Hown Hex Hwp. pose proof (lookup_lt_Some _ _ _ Hi) as Hlt.
  pose proof (lookup_lt_Some _ _ _ Hgh) as Hlg.
  pose proof (fun j opj pj ghj Hj => step_rely _ _ _ _ _ _ _ _ _ j opj pj ghj Hinv Hi Hf Hgh Hg Hj (Hex j Hj)) as Hother.
  pose proof (fun j t ghj g => step_new_guid _ _ _ _ _ _ _ _ _ j t ghj g Hinv Hi Hf Hgh Hin Hg) as Hnew.
  split; cbn [pool_world pool_threads pool_owner].
  - apply Hg.
  - by rewrite !length_insert, (pi_length _ _ _ Hinv).
  - intros j ->. rewrite length_insert. destruct (decide (j = i)) as [->|Hj]; [done|].
    apply (pi_owner _ _ _ Hinv). specialize (Hown j Hj). rewrite bool_decide_true in Hown by done.
    symmetry in Hown. by apply bool_decide_eq_true in Hown.
  - intros j opj pj ghj Hjt Hgj. unfold holds. cbn [pool_owner]. destruct (decide (j = i)) as [->|Hj].
    + rewrite list_lookup_insert_eq in Hjt by done. rewrite list_lookup_insert_eq in Hgj by done.
      injection Hjt as <- <-. injection Hgj as <-. split; [done|]. intros _. apply Hg.
    + rewrite list_lookup_insert_ne in Hjt by done. rewrite list_lookup_insert_ne in Hgj by done. rewrite (Hown j Hj).
      destruct (pi_wp _ _ _ Hinv _ _ _ _ Hjt Hgj) as [Hwj Hoj].
      destruct (finished pj) eqn:Hfj.
      * destruct pj; [|done..]. by split.
      * pose proof (Hother j opj pj ghj Hj Hjt Hfj Hgj) as Hr. split; [|intros _; apply Hr].
        eapply wp_rely; [apply returns_stable|exact Hwj|exact Hr].
  - intros j k t t' Hjk Hj Hk Hfj Hfk.
    rewrite list_lookup_insert_Some in Hj. rewrite list_lookup_insert_Some in Hk.
    destruct Hj as [(-> & <- & _)|[Hji Hj]], Hk as [(-> & <- & _)|[Hki Hk]]; [done| | |exact (pi_compatible _ _ _ Hinv j k t t' Hjk Hj Hk Hfj Hfk)].
    + exact (pi_compatible _ _ _ Hinv j k (op, p) t' Hjk Hi Hk Hf Hfk).
    + exact (pi_compatible _ _ _ Hinv j k t (op, p) Hjk Hj Hi Hfj Hf).
  - intros j k t t' ghj ghk g Hjk Hj Hk Hfj Hfk Hgj Hgk E1 E2.
    rewrite list_lookup_insert_Some in Hj. rewrite list_lookup_insert_Some in Hk.
    rewrite list_lookup_insert_Some in Hgj. rewrite list_lookup_insert_Some in Hgk.
    destruct Hj as [(-> & <- & _)|[Hji Hj]], Hk as [(-> & <- & _)|[Hki Hk]]; [done| | |].
    + destruct Hgj as [(_ & <- & _)|[? _]], Hgk as [(-> & _ & _)|[_ Hgk]]; [done| |done..].
      by eapply (Hnew k t' ghk g).
    + destruct Hgk as [(_ & <- & _)|[? _]], Hgj as [(-> & _ & _)|[_ Hgj]]; [done| |done..].
      by eapply (Hnew j t ghj g).
    + destruct Hgj as [(-> & _ & _)|[_ Hgj]], Hgk as [(-> & _ & _)|[_ Hgk]]; [done..|].
      by eapply (pi_guids _ _ _ Hinv j k).
  - intros Hst Hno. pose proof (Hno i gh' ltac:(by rewrite list_lookup_insert_eq)) as Ho.
    destruct (gr_counts _ _ _ _ _ _ Hg (Hqos Hst) Ho) as [Hm|[Ho' Hkeep]]; [done|]. apply Hkeep.
    apply (pi_counts _ _ _ Hinv Hst). intros j ghj Hj. destruct (decide (j = i)) as [->|Hji]; [congruence|].
    apply (Hno j). by rewrite list_lookup_insert_ne.
Qed.

(** Taking or releasing the lock. *)
Lemma guar_refl op held gh w : session_ok w -> owns op gh (w_self w) -> guar op held gh gh w w.
Proof.
  intros Hs Ho. split; try done; [by left|by left|by left|by apply writers_same_after|]. intros _ E. by right.
Qed.

Lemma qos_kept_refl p : qos_kept p p.
Proof. intros g rp rp' E. rewrite E. by intros [= <-]. Qed.

(** What one move does: thread [i], in [op], does the next act of [p] and goes on with
    [p'], from the world of [P] to that of [P']. *)
Definition next_act {A} w (p p' : prog T A) w' : Prop :=
  match p with
  | Ret _ => False
  | Step m k => exists b, m w = Done (b, w') /\ p' = k b
  | Lock k | Unlock k => p' = k /\ w' = w
  end.

Record moved (gs : list Ghost) (i : nat) P P' (op : Op) (p p' : prog T unit) (gh gh' : Ghost) : Prop := {
  mv_thread : pool_threads P !! i = Some (op, p);
  mv_ghost : gs !! i = Some gh;
  mv_threads : pool_threads P' = <[i := (op, p')]> (pool_threads P);
  mv_act : next_act (pool_world P) p p' (pool_world P');
  mv_guar : guar op (holds P i) gh gh' (pool_world P) (pool_world P');
}.

Lemma moved_unfinished gs i P P' op p p' gh gh' : moved gs i P P' op p p' gh gh' -> finished p = false.
Proof. intros Hm. pose proof (mv_act _ _ _ _ _ _ _ _ _ Hm) as Ha. by destruct p. Qed.

(** A thread's move ends normally, within its guarantee, and the invariant survives it. *)
Lemma advance_moved stable P gs i r :
  pool_inv stable P gs -> in_range (w_self (pool_world P)) -> advance i P = Some r ->
  exists P' op p p' gh gh', r = Done P' /\ moved gs i P P' op p p' gh gh' /\
    ((stable = true -> qos_kept (w_self (pool_world P)) (w_self (pool_world P'))) ->
     pool_inv stable P' (<[i := gh']> gs)).
Proof.
  intros Hinv Hin. unfold advance. destruct (pool_threads P !! i) as [[op p]|] eqn:Hi; [|done].
  destruct (pool_thread _ _ _ _ _ _ Hinv Hi) as (gh & Hgh & Hwp & Hrel).
  destruct p as [a|B m k|k|k]; [done|..].
  - intros [= <-]. specialize (Hwp _ (Hrel eq_refl) Hin). unfold runs in Hwp.
    destruct (m (pool_world P)) as [[b w']| |] eqn:Em; [|done..]. destruct Hwp as (gh' & Hg & Hk).
    eexists _, op, _, (k b), gh, gh'. split; [done|]. split; [split; [done|done|done|by exists b|done]|]. intros Hqos.
    eapply pool_inv_step; [exact Hinv|exact Hi|done|exact Hgh|done|exact Hg|exact Hqos|done| |exact Hk].
    intros j Hj Hhj. unfold holds in *. apply bool_decide_eq_true in Hhj. rewrite Hhj. apply bool_decide_eq_false.
    congruence.
  - pose proof (Hrel eq_refl) as Hr. destruct Hwp as [Hh Hwp]. destruct (pool_owner P) as [j|] eqn:Ho.
    + unfold holds in Hh. rewrite Ho in Hh. apply bool_decide_eq_false in Hh. rewrite decide_False; [done|congruence].
    + intros [= <-]. assert (Hg : guar op (holds P i) gh gh (pool_world P) (pool_world P)) by (apply guar_refl; apply Hr).
      eexists _, op, _, k, gh, gh. split; [done|]. split; [done|]. intros Hqos.
      eapply pool_inv_step; [exact Hinv|exact Hi|done|exact Hgh|done|exact Hg|done| | |].
      * intros j Hj. unfold holds. rewrite Ho. rewrite !bool_decide_false; [done|congruence|congruence].
      * intros j Hj. unfold holds. by rewrite Ho.
      * rewrite bool_decide_true by done. apply Hwp. by eapply rely_unheld.
  - pose proof (Hrel eq_refl) as Hr. destruct Hwp as [Hh Hwp]. unfold holds in Hh. apply bool_decide_eq_true in Hh.
    rewrite decide_True by done. intros [= <-].
    assert (Hg : guar op (holds P i) gh gh (pool_world P) (pool_world P)) by (apply guar_refl; apply Hr).
    eexists _, op, _, k, gh, gh. split; [done|]. split; [done|]. intros Hqos.
    eapply pool_inv_step; [exact Hinv|exact Hi|done|exact Hgh|done|exact Hg|done| | |].
    + intros j Hj. unfold holds. rewrite Hh. symmetry. rewrite !bool_decide_false; [done|congruence|congruence].
    + intros j Hj. unfold holds. rewrite Hh. intros E%bool_decide_eq_true. congruence.
    + by rewrite bool_decide_false.
Qed.

Lemma advance_inv stable P gs i r :
  pool_inv stable P gs -> in_range (w_self (pool_world P)) -> advance i P = Some r ->
  exists P', r = Done P' /\
    ((stable = true -> qos_kept (w_self (pool_world P)) (w_self (pool_world P'))) ->
     exists gs', pool_inv stable P' gs').
Proof.
  intros Hinv Hin E. destruct (advance_moved _ _ _ _ _ Hinv Hin E) as (P' & op & p & p' & gh & gh' & -> & _ & Hk).
  exists P'. split; [done|]. intros Hqos. exists (<[i := gh']> gs). by apply Hk.
Qed.

(** The calls themselves are proved in [ThreadSafe]. *)
Section reachable.
Context (op_wp : forall op w, session_ok w -> op_pre op (w_self w) -> owns op start_ghost (w_self w) ->
  wp op false start_ghost (op_prog op) returns w).

Lemma start_owns op p : op_pre op p -> owns op start_ghost p.
Proof.
  intros Hpre. split; [done|]. intros _ ptr Hm. destruct op; try done; cbn in Hm; zbool; subst; by destruct Hpre as (? & ? & _).
Qed.

Lemma spawn_inv stable P gs op :
  pool_inv stable P gs -> may_spawn op P -> pool_inv stable (spawn op P) (gs ++ [start_ghost]).
Proof.
  intros Hinv [Hpre Hcomp]. pose proof (pi_length _ _ _ Hinv) as Hlen. unfold spawn.
  assert (Hcase : forall i t, (pool_threads P ++ [(op, op_prog op)]) !! i = Some t ->
    pool_threads P !! i = Some t \/ i = length gs /\ t = (op, op_prog op)).
  { intros i t. rewrite lookup_app_Some. intros [?|[Hle E]]; [by left|]. right.
    apply list_lookup_singleton_Some in E as [E <-]. split; [lia|done]. }
  assert (Hgs : forall i gh, (gs ++ [start_ghost]) !! i = Some gh -> gs !! i = Some gh \/ i = length gs /\ gh = start_ghost).
  { intros i t. rewrite lookup_app_Some. intros [?|[Hle E]]; [by left|]. right.
    apply list_lookup_singleton_Some in E as [E <-]. split; [lia|done]. }
  assert (Hlt : forall i t, pool_threads P !! i = Some t -> i <> length gs).
  { intros i t E%lookup_lt_Some. lia. }
  assert (Hltg : forall i gh, gs !! i = Some gh -> i <> length gs).
  { intros i t E%lookup_lt_Some. lia. }
  split; cbn [pool_world pool_threads pool_owner].
  - apply Hinv.
  - rewrite !length_app. simpl. lia.
  - intros i E%(pi_owner _ _ _ Hinv). rewrite length_app. simpl. lia.
  - intros i opi pi ghi [Hi|[Ei E]]%Hcase [Hg|[Eg Egh]]%Hgs.
    + exact (pi_wp _ _ _ Hinv _ _ _ _ Hi Hg).
    + by destruct (Hlt _ _ Hi).
    + by destruct (Hltg _ _ Hg).
    + injection E as -> ->. subst ghi. unfold holds. cbn [pool_owner]. rewrite bool_decide_false.
      * pose proof (start_owns op _ Hpre). split; [|done]. by apply op_wp; [apply Hinv|..].
      * intros E%(pi_owner _ _ _ Hinv). lia.
  - intros i j t t' Hij [Hi|[Ei ->]]%Hcase [Hj|[Ej ->]]%Hcase Hfi Hfj.
    + exact (pi_compatible _ _ _ Hinv i j t t' Hij Hi Hj Hfi Hfj).
    + apply compatible_sym, Hcomp; [by eapply list_elem_of_lookup_2|done].
    + apply Hcomp; [by eapply list_elem_of_lookup_2|done].
    + congruence.
  - intros i j t t' ghi ghj g Hij [Hi|[Ei ->]]%Hcase [Hj|[Ej ->]]%Hcase Hfi Hfj [Hgi|[Egi ->]]%Hgs [Hgj|[Egj ->]]%Hgs; try done.
    + exact (pi_guids _ _ _ Hinv i j t t' ghi ghj g Hij Hi Hj Hfi Hfj Hgi Hgj).
    + by destruct (Hltg _ _ Hgj).
    + by destruct (Hltg _ _ Hgi).
    + congruence.
  - intros Hst Hno. apply (pi_counts _ _ _ Hinv Hst). intros i gh Hi. apply (Hno i).
    rewrite lookup_app_l; [done|by eapply lookup_lt_Some].
Qed.

Lemma pool_reachable_inv stable P : pool_reachable stable P -> exists gs, pool_inv stable P gs.
Proof.
  induction 1 as [prefix transports hook sys steady Hl Hb Hc|P op _ [gs IH] Hsp|P i P' _ [gs IH] Hin E Hqos].
  - exists []. split; cbn [pool_world pool_threads pool_owner]; try done. by apply new_world_ok.
  - exists (gs ++ [start_ghost]). by apply spawn_inv.
  - destruct (advance_inv _ _ _ _ _ IH Hin E) as (P1 & [= <-] & Hinv). by apply Hinv.
Qed.
End reachable.
End adequacy.
