(* ===== verification/ThreadSafe.v ===== *)
(** * Overlapping calls are safe

    Every call of the participant keeps its guarantee under any interference that the
    others' guarantees allow.  So no interleaving of calls goes wrong, the tables stay
    well formed, [mutex_] really guards what it should, nothing deadlocks, and whenever no
    call is in flight the match counts are exact. *)

From stdpp Require Import relations.
From S2P Require Import Prelude Memory StdMap Guid Qos Frame Fragment Reassembler ReaderImpl WriterImpl Reliability Discovery Participant ParticipantFacts Matching Session Locked Interleave.

(** ** Acts that change nothing guarded *)

Lemma view_has {A B} (f : A -> B) (m m' : std_map Z A) ptr :
  view f m' = view f m -> is_Some (map_find ptr m) -> is_Some (map_find ptr m').
Proof.
  intros E [a Ha]. pose proof (map_find_view f ptr m') as H1. rewrite E, map_find_view, Ha in H1.
  destruct (map_find ptr m') as [b|]; [by eexists|done].
Qed.

Lemma view_none {A B} (f : A -> B) (m m' : std_map Z A) ptr :
  view f m' = view f m -> map_find ptr m = None -> map_find ptr m' = None.
Proof.
  intros E Ha. destruct (map_find ptr m') as [b|] eqn:Eb; [|done].
  destruct (view_has f m' m ptr (eq_sym E)) as [c Hc]; [by eexists|]. congruence.
Qed.

Section quiet.
Context {T : Type}.
Implicit Types w : World T.

Record quietly w w' : Prop := {
  qy_session : session_ok w';
  qy_same : guarded_same (w_self w) (w_self w');
  qy_serial : p_entity_serial (w_self w') = p_entity_serial (w_self w);
}.

Lemma guarded_same_guids p p' : guarded_same p p' -> entity_guids p' = entity_guids p.
Proof.
  intros []. unfold entity_guids. rewrite gs_writers. f_equal.
  exact (fmap_view reader_const (fun v => v.1.1.1.1.1.1) _ _ gs_readers).
Qed.

Lemma guarded_same_matches p p' : guarded_same p p' -> matches_ok p -> matches_ok p'.
Proof.
  intros Hs. pose proof (gs_readers _ _ Hs) as Er. apply matches_ok_same; [split_and!| |].
  - unfold remote_endpoints. by rewrite (gs_remote _ _ Hs).
  - by rewrite (gs_writers _ _ Hs).
  - exact (view_coarser _ (fun v => (v.1.1.1.1.1.2, v.1.1.1.1.2, v.1.1.1.2)) _ _ Er).
  - by rewrite (gs_writers _ _ Hs).
  - exact (view_coarser _ (fun v => v.2) _ _ Er).
Qed.

Lemma owns_same op gh p p' :
  entity_guids p' = entity_guids p -> p_prefix p' = p_prefix p -> p_entity_serial p <= p_entity_serial p' ->
  (forall ptr, absent ptr p -> absent ptr p') -> owns op gh p -> owns op gh p'.
Proof.
  intros Eg Ep Hs Ha [Hg Hf]. split.
  - intros g E. destruct (Hg g E) as [Hn Hi]. rewrite Eg. split; [done|by eapply issued_mono].
  - intros E ptr Hm. by apply Ha, Hf.
Qed.

Lemma quietly_absent w w' ptr : quietly w w' -> absent ptr (w_self w) -> absent ptr (w_self w').
Proof.
  intros [_ [] _] [Hw Hr]. split; [by rewrite gs_writers|by eapply view_none].
Qed.

Lemma quietly_owns op gh w w' : quietly w w' -> owns op gh (w_self w) -> owns op gh (w_self w').
Proof.
  intros Hq. apply owns_same; [by apply guarded_same_guids, Hq|apply Hq|rewrite (qy_serial _ _ Hq); lia|].
  intros ptr. by apply quietly_absent.
Qed.

Lemma quietly_guar op held gh w w' : quietly w w' -> owns op gh (w_self w) -> guar op held gh gh w w'.
Proof.
  intros Hq Ho. pose proof Hq as [Hs Hsame Hser]. split; try done.
  - apply Hsame.
  - lia.
  - by left.
  - intros ptr _. apply view_has with (1 := gs_readers _ _ Hsame).
  - intros ptr _. unfold has_writer. by rewrite (gs_writers _ _ Hsame).
  - intros ptr _. by apply quietly_absent.
  - intros g. rewrite (guarded_same_guids _ _ Hsame). by left.
  - by eapply quietly_owns.
  - by left.
  - by apply writers_same_after, Hsame.
  - intros _ E. right. split; [done|]. by apply guarded_same_matches.
Qed.

Lemma quietly_rely op held gh w w' : quietly w w' -> owns op gh (w_self w) -> rely op held gh w w'.
Proof.
  intros Hq Ho. pose proof Hq as [Hs Hsame Hser]. split; try done.
  - intros ptr _. apply view_has with (1 := gs_readers _ _ Hsame).
  - intros ptr _. unfold has_writer. by rewrite (gs_writers _ _ Hsame).
  - by eapply quietly_owns.
Qed.

Lemma session_same_self w w' :
  session_ok w -> w_self w' = w_self w -> w_sys w' = w_sys w -> session_ok w'.
Proof.
  intros [[Hp Hc] Hg] Es Ec. split; [split|]; rewrite ?Es; [done| |done]. unfold clocks_ok. by rewrite Ec.
Qed.

Lemma quietly_same w w' :
  session_ok w -> w_self w' = w_self w -> w_sys w' = w_sys w -> quietly w w'.
Proof. intros Hs Es Ec. split; [by eapply session_same_self|by rewrite Es|by rewrite Es]. Qed.

Lemma quietly_refl w : session_ok w -> quietly w w.
Proof. intros Hs. by apply quietly_same. Qed.

(** A reader that keeps what is guarded of it. *)
Lemma quietly_set_reader w ptr r r' :
  session_ok w -> map_find ptr (p_readers (w_self w)) = Some r ->
  reader_const r' = reader_const r -> local_reader_ok r' ->
  quietly w (with_self (set_readers (w_self w) (map_set ptr r' (p_readers (w_self w)))) w).
Proof.
  intros [Hw Hg] Hr Hc Hok. pose proof (po_readers_map _ (proj1 Hw)) as Hm.
  assert (Hsame : guarded_same (w_self w) (set_readers (w_self w) (map_set ptr r' (p_readers (w_self w))))).
  { split; try done. by apply (view_set reader_const ptr r). }
  split; [|done|done]. split.
  - split; [|apply Hw]. apply part_ok_set_readers; [apply Hw|by apply map_ok_set|].
    intros ptr' x. rewrite map_find_set. destruct (decide (ptr' = ptr)); [by intros [= <-]|apply (po_readers _ (proj1 Hw))].
  - apply (guids_sub (w_self w)); [done..|]. simpl. by rewrite <- (guarded_same_guids _ _ Hsame).
Qed.
End quiet.

(** ** Rules *)

Section rules.
Context {T : Type} `{Transport T}.
Implicit Types w : World T.

(** [p] does no harm: it keeps the lock as it is and what it owns, and ends in [Φ]. *)
Definition does {A} (op : Op) (held : bool) (gh : Ghost) w (p : prog T A) (Φ : A -> World T -> Prop) : Prop :=
  rely op false gh w w ->
  wp op held gh p (fun h g a w' => h = held /\ g = gh /\ rely op false gh w w' /\ Φ a w') w.

Context {op : Op} {gh : Ghost}.
Abbreviation later := (rely op false gh).

Lemma later_here w w' : later w w' -> later w' w'.
Proof. intros Hl. apply rely_refl; apply Hl. Qed.

Lemma does_ret {A} held w (a : A) (Φ : A -> World T -> Prop) : Φ a w -> does op held gh w (mret a) Φ.
Proof. intros Ha Hw. by split_and!. Qed.

Lemma does_bind {A B} held w (p : prog T A) (k : A -> prog T B) (Φ : A -> World T -> Prop) (Ψ : B -> World T -> Prop) :
  does op held gh w p Φ -> (forall a w', later w w' -> Φ a w' -> does op held gh w' (k a) Ψ) ->
  does op held gh w (p ≫= k) Ψ.
Proof.
  intros Hp Hk Hw. apply wp_bind. eapply wp_mono; [by apply Hp|].
  intros h g a w' (-> & -> & Hl & Ha). eapply wp_mono; [apply Hk; [done|done|by eapply later_here]|].
  intros h g b w2 (-> & -> & Hl' & Hb). split_and!; [done|done|by eapply rely_trans|done].
Qed.

Lemma does_mono {A} held w (p : prog T A) (Φ Ψ : A -> World T -> Prop) :
  does op held gh w p Φ -> (forall a w', later w w' -> Φ a w' -> Ψ a w') -> does op held gh w p Ψ.
Proof.
  intros Hp HΨ Hw. eapply wp_mono; [by apply Hp|]. intros h g a w' (-> & -> & Hl & Ha). split_and!; auto.
Qed.

(** An act of one's own, within the guarantee. *)
Lemma does_act {A} held w (m : act T A) (Φ : A -> World T -> Prop) :
  (forall w1, rely op held gh w w1 -> in_range (w_self w1) ->
     runs (fun a w2 => guar op held gh gh w1 w2 /\ later w1 w2 /\ Φ a w2) m w1) ->
  does op held gh w (lift m) Φ.
Proof.
  intros Hm Hw w1 Hr Hin. eapply runs_mono; [by apply Hm|]. intros a w2 (Hg & Hl & Ha). exists gh.
  split; [done|]. split_and!; [done|done| |done]. eapply rely_trans; [|exact Hl]. by eapply rely_unheld.
Qed.

Lemma does_quiet {A} held w (m : act T A) (Φ : A -> World T -> Prop) :
  (forall w1, rely op held gh w w1 -> in_range (w_self w1) -> runs (fun a w2 => quietly w1 w2 /\ Φ a w2) m w1) ->
  does op held gh w (lift m) Φ.
Proof.
  intros Hm. apply does_act. intros w1 Hr Hin. eapply runs_mono; [by apply Hm|]. intros a w2 [Hq Ha].
  pose proof (rl_owns _ _ _ _ _ Hr). split_and!; [by apply quietly_guar|by apply quietly_rely|done].
Qed.

(** An act under the lock that only moves the tables. *)
Lemma steps_absent strict w w' ptr : steps_if strict w w' -> absent ptr (w_self w) -> absent ptr (w_self w').
Proof.
  intros (_ & _ & Ew & Er & _) [H1 H2]. split; [by eapply view_none|by eapply view_none].
Qed.

Lemma steps_guids strict w w' : steps_if strict w w' -> entity_guids (w_self w') = entity_guids (w_self w).
Proof.
  intros (_ & _ & Ew & Er & _). unfold entity_guids. f_equal; [exact (fmap_view _ w_guid _ _ Ew)|].
  exact (fmap_view _ (fun v => v.1.1.1.1.1.1) _ _ Er).
Qed.

Lemma steps_owns strict gh' w w' :
  gh_guid gh' = gh_guid gh -> gh_fresh gh' = gh_fresh gh ->
  steps_if strict w w' -> owns op gh (w_self w) -> owns op gh' (w_self w').
Proof.
  intros E1 E2 Hs Ho. pose proof Hs as (_ & _ & _ & _ & _ & Ei). injection Ei as Ep _ Es.
  assert (Ho' : owns op gh (w_self w')).
  { eapply owns_same; [by eapply steps_guids|done|lia|intros ptr; by eapply steps_absent|done]. }
  destruct Ho'. split; [by rewrite E1|by rewrite E2].
Qed.

Lemma steps_later strict w w' : session_ok w -> owns op gh (w_self w) -> steps_if strict w w' -> later w w'.
Proof.
  intros Hs Ho Hst. pose proof Hst as (_ & _ & Ew & Er & _). split; try done.
  - by eapply session_steps.
  - intros ptr _. by eapply view_has.
  - intros ptr _. by eapply view_has.
  - by eapply steps_owns.
Qed.

Lemma view_after gh' p p' :
  view writer_view (p_writers p') = view writer_view (p_writers p) ->
  forall ptr wr, map_find ptr (p_writers p') = Some wr -> writer_after op gh' p ptr wr.
Proof.
  intros E ptr wr' Hf. pose proof (map_find_view writer_view ptr (p_writers p')) as H1.
  rewrite E, map_find_view, Hf in H1. destruct (map_find ptr (p_writers p)) as [wr|] eqn:Ewr; [|done].
  assert (Hv : forall A (f : WriterImpl -> A), f (writer_view wr') = f (writer_view wr)).
  { intros A f. by apply (f_equal (from_option f (f wr))) in H1. }
  left. exists wr. split; [done|]. split; [exact (Hv _ w_guid)|left; exact (Hv _ w_seq)].
Qed.

Lemma steps_guar strict gh' w w' :
  session_ok w -> owns op gh (w_self w) -> steps_if strict w w' ->
  gh_guid gh' = gh_guid gh -> gh_fresh gh' = gh_fresh gh ->
  (qos_kept (w_self w) (w_self w') -> gh_owes gh' = false ->
    matches_ok (w_self w') \/ (gh_owes gh = false /\ (matches_ok (w_self w) -> matches_ok (w_self w')))) ->
  guar op true gh gh' w w'.
Proof.
  intros Hs Ho Hst E1 E2 Hm. pose proof Hst as (_ & _ & Ew & Er & _ & Ei). injection Ei as Ep _ Es.
  split; try done.
  - by eapply session_steps.
  - lia.
  - by left.
  - intros ptr _. by eapply view_has.
  - intros ptr _. by eapply view_has.
  - intros ptr _. by eapply steps_absent.
  - intros g. rewrite (steps_guids _ _ _ Hst). by left.
  - by eapply steps_owns.
  - intros g. rewrite E1. by left.
  - by apply view_after.
Qed.

Lemma strict_counts w w' : session_ok w -> steps_if true w w' -> matches_ok (w_self w) -> matches_ok (w_self w').
Proof. intros [Hw _] Hs Hm. by apply (quiet_good w). Qed.

Lemma does_steps {A} w (m : act T A) (Φ : A -> World T -> Prop) :
  (forall w1, rely op true gh w w1 -> in_range (w_self w1) -> runs (fun a w2 => steps_if true w1 w2 /\ Φ a w2) m w1) ->
  does op true gh w (lift m) Φ.
Proof.
  intros Hm. apply does_act. intros w1 Hr Hin. pose proof Hr as [Hs _ _ Ho _].
  eapply runs_mono; [by apply Hm|]. intros a w2 [Hst Ha]. split_and!; [|by eapply steps_later|done].
  eapply steps_guar; [done|done|exact Hst|done|done|]. intros _ E. right. split; [done|]. by apply strict_counts.
Qed.

Lemma does_locked {A} w (body : prog T A) (Φ : A -> World T -> Prop) :
  (forall w1, later w w1 -> does op true gh w1 body Φ) -> does op false gh w (locked body) Φ.
Proof.
  intros Hb Hw. split; [done|]. intros w1 Hr. apply wp_bind.
  eapply wp_mono; [apply Hb; [done|by eapply later_here]|]. intros h g a w2 (-> & -> & Hl & Ha).
  split; [done|]. split_and!; [done|done|by eapply rely_trans|done].
Qed.

Lemma does_section {A} w (m : act T A) (Φ : A -> World T -> Prop) :
  (forall w1, later w w1 -> in_range (w_self w1) -> runs (fun a w2 => steps_if true w1 w2 /\ Φ a w2) m w1) ->
  does op false gh w (locked (lift m)) Φ.
Proof.
  intros Hm. apply does_locked. intros w1 Hl. apply does_steps. intros w2 Hr Hin. apply Hm; [|done].
  eapply rely_trans; [exact Hl|]. by eapply rely_unheld.
Qed.

Lemma does_each {A} held w (l : list A) (f : A -> prog T unit) :
  (forall a w', a ∈ l -> later w w' -> does op held gh w' (f a) (fun _ _ => True)) ->
  does op held gh w (each l f) (fun _ _ => True).
Proof.
  revert w. induction l as [|a l IH]; intros w Hf; [by apply does_ret|]. intros Hw.
  eapply does_bind; [apply Hf; [left|exact Hw]| |exact Hw]. intros u w' Hl _. apply IH. intros a' w2 Ha Hl2.
  apply Hf; [by right|by eapply rely_trans].
Qed.

Lemma does_mapM {A B} held w (l : list A) (f : A -> prog T B) (R : A -> B -> Prop) :
  (forall a w', a ∈ l -> later w w' -> does op held gh w' (f a) (fun b _ => R a b)) ->
  does op held gh w (mapM f l) (fun bs _ => Forall2 R l bs).
Proof.
  revert w. induction l as [|a l IH]; intros w Hf; [by apply does_ret|]. intros Hw. cbn [mapM].
  eapply does_bind; [apply Hf; [left|exact Hw]| |exact Hw]. intros b w' Hl HR. cbv beta.
  eapply does_bind.
  - apply IH. intros a' w2 Ha Hl2. apply Hf; [by right|by eapply rely_trans].
  - intros bs w2 _ Hbs. cbv beta. apply does_ret. by constructor.
Qed.
End rules.

(** ** The parts of the operations *)

Section parts.
Context {T : Type} `{Transport T} {op : Op} {gh : Ghost}.
Implicit Types w : World T.
Abbreviation later := (rely op false gh).
Abbreviation does := (does op).
Abbreviation fine := (fun _ _ => True).

Lemma later_world w w' : later w w' -> world_ok w'.
Proof. intros Hl. apply Hl. Qed.

Lemma does_unchanged {A} held w (m : act T A) (Φ : A -> Prop) :
  (forall w1, session_ok w1 -> runs (fun a w2 => w_self w2 = w_self w1 /\ w_sys w2 = w_sys w1 /\ Φ a) m w1) ->
  does held gh w (lift m) (fun a _ => Φ a).
Proof.
  intros Hm. apply does_quiet. intros w1 Hr _. eapply runs_mono; [apply Hm, Hr|]. intros a w2 (E1 & E2 & Ha).
  split; [|done]. apply quietly_same; [apply Hr|done..].
Qed.

Lemma does_encoded {A} held w (r : res A) a : r = Done a -> does held gh w (lift (encoded r)) (fun b _ => b = a).
Proof. intros E. apply does_unchanged. intros w1 _. by eapply runs_encoded. Qed.

Lemma does_decoded {A} held w (r : res A) (Q : A -> Prop) :
  safe Q r -> does held gh w (lift (decoded r)) (fun o _ => match o with Some a => Q a /\ r = Done a | None => True end).
Proof. intros Hr. apply does_unchanged. intros w1 _. by eapply runs_decoded. Qed.

Lemma does_clock {A} held w (f : World T -> A) (Φ : A -> Prop) :
  (forall w1, clocks_ok w1 -> Φ (f w1)) -> does held gh w (lift (tick f)) (fun a _ => Φ a).
Proof. intros Hf. apply does_unchanged. intros w1 Hs. split_and!; [done|done|apply Hf, Hs]. Qed.

Lemma does_fire held w e : does held gh w (lift (fire e)) fine.
Proof. by apply does_unchanged. Qed.

Lemma does_send_frame held w peer f : does held gh w (lift (send_frame peer f)) fine.
Proof.
  apply does_unchanged. intros w1 Hs. eapply runs_mono; [apply (runs_send_frame (strict := true)), Hs|].
  by intros b w2 (_ & ? & _ & ? & _).
Qed.

Lemma does_send w peer f : does false gh w (send_prog peer f) fine.
Proof. eapply does_bind; [apply does_send_frame|]. intros. by apply does_ret. Qed.

(** Encoding and sending a frame. *)
Lemma does_encode_send w (r : res (list Z)) f peer :
  r = Done f -> does false gh w (frame ← lift (encoded r); send_prog peer frame) fine.
Proof. intros E. eapply does_bind; [by apply (does_encoded _ _ _ f)|]. intros. apply does_send. Qed.

Lemma does_send_frames w peer fs ok : does false gh w (send_frames_prog peer fs ok) fine.
Proof.
  revert ok w. induction fs as [|f fs IH]; intros ok w; [by apply does_ret|].
  eapply does_bind; [apply does_send_frame|]. intros sent w1 _ _. apply IH.
Qed.

Lemma does_send_sample w peer g seq pub data flags :
  guid_ok g -> fits 64 seq -> fits 64 pub -> fits 16 flags -> 64 + len data < 2 ^ 32 ->
  does false gh w (send_sample_to_prog peer g seq pub data flags) fine.
Proof.
  intros Hg Hseq Hpub Hf Hl. eapply (does_bind _ _ _ _ fine).
  { apply does_unchanged. intros w1 Hs. eapply runs_mono; [apply runs_max_payload, Hs|]. by intros n w2 ->. }
  intros max_p w1 _ _. case_if; [by apply does_ret|]. rewrite wrap_id by ulia.
  destruct (fragment_total g seq pub flags max_p data Hg Hseq Hpub Hf Hl) as [fs Hfs].
  eapply does_bind; [by apply (does_encoded _ _ _ fs)|]. intros fs' w2 _ ->.
  eapply does_bind; [apply does_send_frames|]. intros. by apply does_ret.
Qed.

Lemma does_send_sample_unit w peer g seq pub data flags :
  guid_ok g -> fits 64 seq -> fits 64 pub -> fits 16 flags -> 64 + len data < 2 ^ 32 ->
  does false gh w (_ ← send_sample_to_prog peer g seq pub data flags; mret tt) fine.
Proof. intros. eapply does_bind; [by apply does_send_sample|]. intros. by apply does_ret. Qed.

(** Samples of a history can be sent. *)
Lemma does_send_cached w peer g e flags :
  guid_ok g -> cached_ok e -> fits 16 flags ->
  does false gh w (_ ← send_sample_to_prog peer g (cs_seq e) (cs_pub_time_ms e) (cs_data e) flags; mret tt) fine.
Proof. intros ? (? & ? & _ & ?) ?. by apply does_send_sample_unit. Qed.

Lemma does_get {A} w (f : ParticipantImpl -> A) (Φ : A -> Prop) :
  (forall p, part_ok p -> Φ (f p)) ->
  does false gh w (locked (lift (p ← get_self; mret (f p)))) (fun a _ => Φ a).
Proof.
  intros Hf. apply does_section. intros w1 Hl _. apply runs_self_bind, runs_ret.
  split; [by apply steps_refl, (later_world w)|]. by apply Hf, (later_world w).
Qed.

Lemma does_fire_graph w : does false gh w fire_graph_callback_prog fine.
Proof.
  eapply does_bind; [by apply (does_get _ p_has_graph_callback (fun _ => True))|].
  intros [] w1 _ _; [apply does_fire|by apply does_ret].
Qed.

Lemma does_fire_callback w r :
  uses_reader op r = true -> has_reader (w_self w) r -> does false gh w (fire_callback_prog r) fine.
Proof.
  intros Hu Hr. eapply (does_bind _ _ _ _ fine).
  { apply does_quiet. intros w1 Hl _. destruct (rl_readers _ _ _ _ _ Hl r Hu Hr) as [x Hx].
    unfold runs. rewrite (reader_at_run _ _ _ Hx). split; [|done]. apply quietly_refl, Hl. }
  intros x w1 _ _. case_if; [apply does_fire|by apply does_ret].
Qed.

(** *** Announcements and heartbeats *)

Lemma does_broadcast w peers f : does false gh w (each peers (fun peer => send_prog peer f)) fine.
Proof. apply does_each. intros peer w1 _ _. apply does_send. Qed.

Lemma does_send_announce w peer : does false gh w (send_announce_prog peer) fine.
Proof.
  eapply does_bind; [by apply (does_get _ _ (fun _ => True))|]. intros s w1 _ _.
  destruct (encode_announce_total s.1.1 s.1.2) as [f Ef]. by eapply does_encode_send.
Qed.

Lemma does_broadcast_announce w : does false gh w broadcast_announce_prog fine.
Proof.
  eapply does_bind; [by apply (does_get _ _ (fun _ => True))|]. intros s w1 _ _.
  destruct (encode_announce_total s.1.1 s.1.2) as [f Ef].
  eapply does_bind; [by apply (does_encoded _ _ _ f)|]. intros. apply does_broadcast.
Qed.

Lemma does_send_heartbeats w : does false gh w send_heartbeats_prog fine.
Proof.
  eapply does_bind.
  { apply (does_get _ _ (fun s => forall hb, hb ∈ s.2 -> guid_ok hb.1.1)). intros p Hp hb. by apply heartbeats_ok. }
  intros s w1 _ Hs. apply does_each. intros peer w2 _ _. apply does_each. intros hb w3 Hhb _.
  eapply does_encode_send. by apply encode_heartbeat_bytes, Hs.
Qed.

Lemma does_peer_up w peer : does false gh w (handle_peer_up_prog peer) fine.
Proof.
  eapply (does_bind _ _ _ _ fine); [|intros; apply does_send_announce]. apply does_section. intros w1 Hl _. apply runs_modify.
  split; [|done]. apply later_world in Hl. apply steps_with_self; [done|apply part_ok_set_peers, Hl|done..].
Qed.

Lemma does_announce_tick w : does false gh w announce_tick_prog fine.
Proof.
  eapply (does_bind _ _ _ _ fine).
  { apply does_section. intros w1 Hl _. apply later_world in Hl as Hw. apply runs_modify_bind.
    set (w2 := with_self _ w1).
    assert (Hs : steps_if true w1 w2) by (apply steps_with_self; [done|apply part_ok_set_announce_seq, Hw|done..]).
    eapply runs_mono; [apply (runs_sweep (strict := true)); by apply (steps_ok _ _ Hs)|].
    intros u w3 Hs'. split; [by eapply steps_trans|done]. }
  intros u w1 _ _. eapply does_bind; [apply does_broadcast_announce|]. intros. apply does_send_heartbeats.
Qed.

(** *** Receiving *)

(** One reader takes a sample, with or without [mutex_]. *)
Lemma quietly_enqueue w1 ptr g seq data wq pub :
  session_ok w1 -> has_reader (w_self w1) ptr -> fits 64 seq ->
  runs (fun out w2 => quietly w1 w2 /\ gap_request_ok out) (enqueue_at ptr g seq data wq pub) w1.
Proof.
  intros Hs [r Hr] Hseq. eapply runs_mono; [apply (runs_enqueue_at (strict := true) ptr r); [apply Hs|done..]|].
  intros out w2 (Hst & Hgap & n1 & n2 & E & ->). split; [|done].
  set (r' := fst _) in E. assert (Hc : reader_const r' = reader_const r).
  { pose proof (enqueue_reader_view r n1 n2 g seq data wq pub) as Hv.
    pose proof (enqueue_reader_count r n1 n2 g seq data wq pub) as Hn.
    unfold reader_view in Hv. unfold reader_const, r'. congruence. }
  assert (Hok : local_reader_ok r').
  { destruct (po_readers _ (proj1 (proj1 Hs)) ptr r Hr) as [Hg Hrok]. split.
    - unfold reader_const in Hc. injection Hc as Eg _ _ _ _ _ _. by rewrite Eg.
    - by apply enqueue_ok. }
  destruct (quietly_set_reader w1 ptr r r' Hs Hr Hc Hok) as [_ Hsame Hser]. simpl in Hsame, Hser.
  split; [by eapply session_steps|by rewrite E|by rewrite E].
Qed.

Lemma does_enqueue held w ptr g seq data wq pub :
  uses_reader op ptr = true -> has_reader (w_self w) ptr -> fits 64 seq ->
  does held gh w (lift (enqueue_at ptr g seq data wq pub)) (fun out _ => gap_request_ok out).
Proof.
  intros Hu Hr Hseq. apply does_quiet. intros w1 Hl _. apply quietly_enqueue; [apply Hl| |done].
  by apply (rl_readers _ _ _ _ _ Hl).
Qed.

(** The readers of the table, while they are iterated over. *)
Definition in_table w (l : list (Z * ReaderImpl)) : Prop :=
  forall kv, kv ∈ l -> has_reader (w_self w) kv.1 /\ guid_ok (r_guid kv.2).

Lemma in_table_readers w : world_ok w -> in_table w (p_readers (w_self w)).
Proof.
  intros Hw kv Hkv. pose proof (entry_find _ _ (po_readers_map _ (proj1 Hw)) Hkv) as Hf.
  split; [by eexists|]. by apply (po_readers _ (proj1 Hw) kv.1).
Qed.

Lemma does_seen_writer w g :
  does true gh w (lift (seen_writer g)) (fun s w' => in_table w' s.2).
Proof.
  apply does_steps. intros w1 Hl _. assert (Hw1 : world_ok w1) by apply Hl. unfold seen_writer.
  eapply (runs_bind (fun _ w2 => steps_if true w1 w2)); [apply (runs_mono (fun _ w' => steps_if true w1 w' /\ True));
    [by apply runs_tick_steps|by intros ? ? [? _]]|].
  intros now w2 Hs. apply steps_ok in Hs as Hw2. apply runs_modify_bind, runs_self_bind, runs_ret.
  assert (Hs' : steps_if true w2 (with_self (set_last_seen (w_self w2) (map_set g now (p_writer_last_seen (w_self w2)))) w2)).
  { by apply steps_set_last_seen. }
  split; [by eapply steps_trans|]. apply in_table_readers. by apply (steps_ok _ _ Hs').
Qed.

Lemma does_deliver w peer g seq pub data :
  (forall ptr, uses_reader op ptr = true) -> guid_ok g -> fits 64 seq ->
  does false gh w (deliver_sample_prog peer g seq pub data) fine.
Proof.
  intros Hu Hg Hseq. eapply (does_bind _ _ _ _ (fun outs w' =>
    forall o, o ∈ outs -> has_reader (w_self w') o.1.1 /\ guid_ok o.1.2 /\ gap_request_ok o.2)).
  { apply does_locked. intros w1 _. eapply does_bind; [apply does_seen_writer|]. intros s w2 _ Hin.
    destruct s.1 as [ep|]; [|by apply does_ret; intros o ?%not_elem_of_nil].
    eapply does_mono.
    - apply (does_mapM true _ _ _ (fun kv o => o.1.1 = kv.1 /\ o.1.2 = r_guid kv.2 /\ gap_request_ok o.2)).
      intros kv w3 [_ Hkv]%list_elem_of_filter Hl3. eapply does_bind.
      + apply does_enqueue; [done| |done]. by apply (rl_readers _ _ _ _ _ Hl3), Hin.
      + intros out w4 _ Hout. by apply does_ret.
    - intros outs w3 Hl3 Hall o Ho. destruct (Forall2_in_r _ _ _ _ Hall Ho) as (kv & Hkv & -> & -> & ?).
      apply list_elem_of_filter in Hkv as [_ Hkv]. destruct (Hin kv Hkv). split_and!; [|done|done].
      by apply (rl_readers _ _ _ _ _ Hl3). }
  intros outs w1 _ Houts. eapply does_bind.
  - apply does_each. intros o w2 Ho _. destruct (Houts o Ho) as (_ & Hgo & Hb & Hm). case_if; [|by apply does_ret].
    eapply does_encode_send. by apply encode_acknack_bytes.
  - intros u w2 Hl2 _. apply does_each. intros o w3 Ho Hl3. case_if; [|by apply does_ret].
    apply does_fire_callback; [done|]. apply (rl_readers _ _ _ _ _ Hl3); [done|].
    apply (rl_readers _ _ _ _ _ Hl2); [done|]. by apply Houts.
Qed.
End parts.

Section handlers.
Context {T : Type} `{Transport T} {op : Op} {gh : Ghost}.
Implicit Types w : World T.
Abbreviation later := (rely op false gh).
Abbreviation does := (does op).
Abbreviation fine := (fun _ _ => True).

Lemma does_acknack w peer frame : bytes_ok frame -> does false gh w (handle_acknack_prog peer frame) fine.
Proof.
  intros Hf. eapply does_bind; [by eapply does_decoded, decode_acknack_safe|].
  intros [b|] w1 _ Hb; [|by apply does_ret]. destruct Hb as [Hb _].
  eapply (does_bind _ _ _ _ (fun s _ => match s with
    | Some (flags, resend, u) => fits 16 flags /\ Forall cached_ok resend /\ fits 64 u | None => True end)).
  { apply does_section. intros w2 Hl _. apply later_world in Hl as Hw2. unfold acknack_section. apply runs_self_bind.
    destruct (find_writer_locked _ _) as [ptr|] eqn:Ew; [|by apply runs_ret; split; [by apply steps_refl|]].
    destruct (find_remote_endpoint_locked _ _) as [ep|]; [|by apply runs_ret; split; [by apply steps_refl|]].
    destruct (find_writer_ok _ _ _ (proj1 Hw2) Ew) as (wr & Hwr & _).
    pose proof (po_writers _ (proj1 Hw2) _ _ Hwr) as [_ _ Hc].
    unfold runs. rewrite (run_first _ _ _ _ _ (writer_at_run _ _ _ Hwr)). cbv zeta. set (clamp := bool_decide _).
    destruct (acknack_scan_within wr clamp (ep_birth_us ep) (ack_base_seq b) (ack_bitmap b)) as [Hre Hu].
    destruct (acknack_scan wr clamp _ _ _) as [resend u]. simpl in Hre, Hu.
    split; [by apply steps_refl|]. split_and!; [apply reliable_flag_fits| |done].
    eapply Forall_impl; [exact Hre|]. intros e He. rewrite Forall_forall in Hc. by apply Hc. }
  intros [[[flags resend] u]|] w2 _ Hs; [|by apply does_ret]. destruct Hs as (Hfl & Hre & Hu).
  eapply does_bind.
  { apply does_each. intros e w3 He _. rewrite Forall_forall in Hre.
    apply does_send_cached; [apply Hb|by apply Hre|done]. }
  intros [] w3 _ _. case_if; [|by apply does_ret]. eapply does_encode_send. apply encode_gap_bytes; apply Hb || done.
Qed.

Lemma does_gap w peer frame : bytes_ok frame -> does false gh w (handle_gap_prog peer frame) fine.
Proof.
  intros Hf. eapply does_bind; [by eapply does_decoded, decode_gap_safe|].
  intros [b|] w1 _ Hb; [|by apply does_ret]. destruct Hb as [Hb _]. case_if; [by apply does_ret|].
  apply does_section. intros w2 Hl _. apply later_world in Hl as Hw2. apply runs_modify. split; [|done].
  apply steps_gap; [done|apply Hb].
Qed.

Lemma does_heartbeat w peer frame :
  (forall ptr, uses_reader op ptr = true) -> bytes_ok frame ->
  does false gh w (handle_heartbeat_prog peer frame) fine.
Proof.
  intros Hu Hf. eapply does_bind; [by eapply does_decoded, decode_heartbeat_safe|].
  intros [b|] w1 _ Hb; [|by apply does_ret]. destruct Hb as [Hb _].
  eapply (does_bind _ _ _ _ (fun nacks _ => forall nk, Some nk ∈ nacks -> guid_ok nk.1.1)).
  { apply does_locked. intros w2 _. eapply does_bind; [apply does_seen_writer|]. intros s w3 _ Hin.
    destruct s.1 as [ep|]; [|by apply does_ret; intros nk ?%not_elem_of_nil].
    eapply does_mono.
    - apply (does_mapM true _ _ _ (fun _ o => forall nk, o = Some nk -> guid_ok nk.1.1)).
      intros kv w4 Hkv Hl4. apply does_quiet. intros w5 Hl5 _.
      destruct (rl_readers _ _ _ _ _ Hl5 kv.1 (Hu _) (rl_readers _ _ _ _ _ Hl4 _ (Hu _) (proj1 (Hin kv Hkv)))) as [r Hr].
      unfold runs, nack_due_at. rewrite (run_first _ _ _ _ _ (reader_at_run _ _ _ Hr)).
      split; [by apply quietly_refl, Hl5|]. intros nk. unfold nack_due. do 2 (case_if; [done|]).
      destruct (nack_state r _) as [base bitmap]. case_if; [|done]. intros [= <-]. simpl.
      assert (Hw5 : world_ok w5) by apply Hl5. by apply (po_readers _ (proj1 Hw5) kv.1).
    - intros nacks w4 _ Hall nk Hnk. destruct (Forall2_in_r _ _ _ _ Hall Hnk) as (kv & _ & Hk). by apply Hk. }
  intros nacks w2 _ Hn. apply does_each. intros nk w3 Hnk _. eapply does_encode_send. apply encode_acknack_bytes; [|apply Hb].
  apply list_elem_of_omap in Hnk as (o & Ho & Eo). apply Hn. by rewrite <- Eo.
Qed.

Lemma does_replay w peer eps : does false gh w (replay_history_to_peer_prog peer eps) fine.
Proof.
  unfold replay_history_to_peer_prog. case_if; [by apply does_ret|].
  eapply (does_bind _ _ _ _ (fun todo _ => forall t, t ∈ todo -> guid_ok t.1.2 /\ cached_ok t.1.1 /\ fits 16 t.2)).
  { apply does_section. intros w1 Hl _. apply later_world in Hl as Hw1.
    eapply runs_bind; [by apply (runs_tick (strict := true))|]. intros now w2 (Hs & _ & Es).
    apply runs_self_bind, runs_ret. split; [done|]. intros t Ht. rewrite Es in Ht.
    destruct (replay_todo_in _ _ _ _ Ht) as (kv & Hkv & He & -> & ->).
    destruct (po_writers _ (proj1 Hw1) _ _ (entry_find _ _ (po_writers_map _ (proj1 Hw1)) Hkv)) as [Hg _ Hc].
    rewrite Forall_forall in Hc. split_and!; [done|by apply Hc|apply reliable_flag_fits]. }
  intros todo w1 _ Ht. apply does_each. intros t w2 Hin _. destruct (Ht t Hin) as (? & ? & ?). by apply does_send_cached.
Qed.
End handlers.

(** ** Operations that change the graph *)

Definition owing (b : bool) (gh : Ghost) : Ghost := mkGhost (gh_guid gh) (gh_fresh gh) b.

Lemma erase_has {A} (m : std_map Z A) k ptr : ptr <> k -> is_Some (map_find ptr m) -> is_Some (map_find ptr (map_erase k m)).
Proof. intros Hne. rewrite map_find_erase. by rewrite decide_False. Qed.
Lemma erase_none {A} (m : std_map Z A) k ptr : map_find ptr m = None -> map_find ptr (map_erase k m) = None.
Proof. intros E. rewrite map_find_erase. by destruct (decide _). Qed.
Lemma emplace_has {A} (m : std_map Z A) k v ptr : is_Some (map_find ptr m) -> is_Some (map_find ptr (map_emplace k v m)).
Proof.
  intros Hp. unfold map_emplace. destruct (map_find k m) eqn:E; [done|]. rewrite map_find_set.
  destruct (decide (ptr = k)); [by eexists|done].
Qed.
Lemma emplace_none {A} (m : std_map Z A) k v ptr : ptr <> k -> map_find ptr m = None -> map_find ptr (map_emplace k v m) = None.
Proof. intros Hne Hn. unfold map_emplace. destruct (map_find k m); [done|]. by rewrite map_find_set_ne. Qed.

Section graph.
Context {T : Type} `{Transport T} {op : Op}.
Implicit Types (w : World T) (gh : Ghost).

Lemma owns_owing b gh p : owns op gh p -> owns op (owing b gh) p.
Proof. by intros []. Qed.

Lemma rely_owing b held gh w w' : rely op held gh w w' -> rely op held (owing b gh) w w'.
Proof. intros []. split; try done. Qed.

Lemma wp_does {A B} held gh w (p : prog T A) (k : A -> prog T B) (Φ : A -> World T -> Prop) Q :
  does op held gh w p Φ -> rely op false gh w w ->
  (forall a w', rely op false gh w w' -> Φ a w' -> wp op held gh (k a) Q w') -> wp op held gh (p ≫= k) Q w.
Proof.
  intros Hp Hw Hk. apply wp_bind. eapply wp_mono; [by apply Hp|]. intros h g a w' (-> & -> & Hl & Ha). by apply Hk.
Qed.

Lemma does_returns gh w (p : prog T unit) Φ :
  does op false gh w p Φ -> gh_owes gh = false -> rely op false gh w w -> wp op false gh p returns w.
Proof. intros Hp Ho Hw. eapply wp_mono; [by apply Hp|]. by intros h g a w' (-> & -> & _). Qed.

Lemma wp_section {A B} gh w (m : act T A) (k : A -> prog T B) Q :
  (forall w1, rely op false gh w w1 -> in_range (w_self w1) ->
     runs (fun a w2 => exists gh', guar op true gh gh' w1 w2 /\ wp op false gh' (k a) Q w2) m w1) ->
  wp op false gh (locked (lift m) ≫= k) Q w.
Proof.
  intros Hm. split; [done|]. intros w1 Hr w2 Hr2 Hin.
  eapply runs_mono; [apply Hm; [|done]|].
  - eapply rely_trans; [exact Hr|]. by eapply rely_unheld.
  - intros a w3 (gh' & Hg & Hk). exists gh'. split; [done|]. by split.
Qed.

(** A section that moves the tables, and may leave the counts to be redone. *)
Lemma wp_steps {A B} gh w (m : act T A) (k : A -> prog T B) Q (owes : A -> bool) (Φ : A -> World T -> Prop) :
  gh_owes gh = false ->
  (forall w1, rely op false gh w w1 -> in_range (w_self w1) ->
     runs (fun a w2 => steps_if false w1 w2 /\ Φ a w2 /\
       (owes a = false -> qos_kept (w_self w1) (w_self w2) -> matches_ok (w_self w1) -> matches_ok (w_self w2))) m w1) ->
  (forall a w', rely op false (owing (owes a) gh) w w' -> Φ a w' -> wp op false (owing (owes a) gh) (k a) Q w') ->
  wp op false gh (locked (lift m) ≫= k) Q w.
Proof.
  intros Ho Hm Hk. apply wp_section. intros w1 Hr Hin. eapply runs_mono; [by apply Hm|].
  intros a w2 (Hst & Ha & Hc). exists (owing (owes a) gh). pose proof Hr as [Hs _ _ Hown _]. split.
  - eapply steps_guar; [done|done|exact Hst|done|done|]. intros Hq E. right. auto.
  - apply Hk; [|done]. apply rely_owing. eapply rely_trans; [exact Hr|]. by eapply steps_later.
Qed.

(** The recount pays what is owed. *)
Lemma wp_recompute {B} gh w (k : unit -> prog T B) Q :
  (forall w', rely op false (owing false gh) w w' -> wp op false (owing false gh) (k tt) Q w') ->
  wp op false gh (recompute_matches_prog ≫= k) Q w.
Proof.
  intros Hk. apply wp_section. intros w1 Hr _. apply runs_modify. pose proof Hr as [Hs _ _ Hown _].
  assert (Hst : steps_if false w1 (with_self (recompute_matches (w_self w1)) w1)) by apply steps_recompute, Hs.
  exists (owing false gh). split.
  - eapply steps_guar; [done|done|exact Hst|done|done|]. intros _ _. left. apply recompute_matches_ok.
  - apply Hk, rely_owing. eapply rely_trans; [exact Hr|]. by eapply steps_later.
Qed.

Lemma recompute_returns gh w : wp op false gh recompute_matches_prog returns w.
Proof.
  apply (wp_mono _ _ _ _ (fun h g a w' => wp op h g (Ret a) returns w')); [|done].
  apply (wp_recompute gh w Ret). intros w' _. done.
Qed.

Lemma graph_changed_returns gh w : wp op false gh graph_changed_prog returns w.
Proof.
  apply wp_recompute. intros w' Hl. eapply does_returns; [apply does_fire_graph|done|].
  by eapply later_here.
Qed.

(** *** Departures and announcements *)

Lemma forget_peer_runs peer w :
  world_ok w ->
  runs (fun gone w' => steps_if false w w' /\ True /\
    (gone = false -> qos_kept (w_self w) (w_self w') -> matches_ok (w_self w) -> matches_ok (w_self w')))
    (forget_peer peer) w.
Proof.
  intros Hw. unfold forget_peer. apply runs_self_bind, runs_modify_bind, runs_ret. split_and!; [|done|].
  - apply steps_with_self; [done| |done..]. apply (without_peer_ok peer), Hw.
  - intros Eg _. apply matches_ok_same; [|done..]. split_and!; [|done..].
    unfold remote_endpoints. simpl. by rewrite (keep_all (fun rp => rp_peer rp =? peer)).
Qed.

Lemma peer_down_returns gh w peer :
  gh_owes gh = false -> wp op false gh (handle_peer_down_prog peer) returns w.
Proof.
  intros Ho. apply (wp_steps gh w _ _ _ id (fun _ _ => True)); [done| |].
  - intros w1 Hr _. apply forget_peer_runs, Hr.
  - intros [] w' _ _; [apply graph_changed_returns|done].
Qed.

Definition section_owes (o : option (bool * list EndpointRecord)) : bool :=
  match o with Some (changed, _) => changed | None => false end.

Lemma announce_section_runs peer snap seq w :
  world_ok w -> snapshot_ok snap ->
  runs (fun o w' => steps_if false w w' /\ True /\
    (section_owes o = false -> qos_kept (w_self w) (w_self w') -> matches_ok (w_self w) -> matches_ok (w_self w')))
    (announce_section peer snap seq) w.
Proof.
  intros Hw Hsnap. unfold announce_section, steady_now_ms. apply runs_self_bind. cbv zeta.
  set (key := participant_guid snap). destruct (map_find key (p_remote (w_self w))) as [rp|] eqn:Eo.
  2:{ apply runs_ret_bind, runs_tick_bind, runs_modify_bind, runs_ret. split_and!; [|done|done].
      by apply (steps_set_remote (ticked w)). }
  pose proof (po_remote _ (proj1 Hw) _ _ Eo) as Hrp.
  set (w1 := with_self (set_remote (w_self w) (map_set key (mkRemote (rp_peer rp) (rp_announce_seq rp) (rp_snap rp)
    (w_steady w (w_tick w) / 1000000)) (p_remote (w_self w)))) (ticked w)).
  assert (Hs1 : steps_if false w w1) by (by apply (steps_set_remote (ticked w))).
  assert (Hm1 : matches_ok (w_self w) -> good w1) by (intros Hm; by apply (set_remote_good (ticked w) key rp)).
  apply (runs_bind (fun stale w' => w' = w1)); [done|]. intros stale w' ->. case_if.
  { apply runs_ret. split_and!; [done|done|]. intros _ _ Hm. by apply Hm1. }
  apply runs_tick_bind, runs_modify_bind, runs_ret. pose proof (steps_ok _ _ Hs1) as Hw1.
  assert (Hf1 : map_find key (p_remote (w_self w1)) = Some (mkRemote (rp_peer rp) (rp_announce_seq rp) (rp_snap rp)
    (w_steady w (w_tick w) / 1000000))) by apply map_find_set_eq.
  set (now := w_steady w1 (w_tick w1) / 1000000).
  split_and!; [eapply steps_trans; [exact Hs1|]; by apply (steps_set_remote (ticked w1))|done|].
  intros [_ Heq]%negb_false_iff%andb_true_iff Hq Hm.
  assert (Hg : good (ticked w1)) by (split; [apply Hw1|apply Hm1, Hm]).
  apply (set_remote_good (ticked w1) key _ (mkRemote peer seq snap now) Hg Hf1 Hsnap). simpl.
  apply endpoints_eqb_sig; [done|].
  apply (Hq key rp (mkRemote peer seq snap now)); [done|apply map_find_set_eq|done].
Qed.

Lemma announce_returns gh w peer frame :
  gh_owes gh = false -> rely op false gh w w -> bytes_ok frame ->
  wp op false gh (handle_announce_prog peer frame) returns w.
Proof.
  intros Ho Hw Hf. eapply wp_does; [by eapply does_decoded, decode_announce_safe|done|].
  intros [[snap seq]|] w1 Hl1 Hd; [|done]. destruct Hd as [Hsnap _].
  apply (wp_steps gh w1 _ _ _ section_owes (fun _ _ => True)); [done| |].
  - intros w2 Hr _. apply announce_section_runs; [apply Hr|apply Hsnap].
  - intros [[changed eps]|] w2 Hl2 _; [|done]. eapply wp_does; [apply does_replay|by eapply later_here|].
    intros [] w3 Hl3 _. destruct changed; [apply graph_changed_returns|done].
Qed.

Lemma receive_returns gh w peer frame :
  gh_owes gh = false -> rely op false gh w w -> (forall ptr, uses_reader op ptr = true) -> bytes_ok frame ->
  wp op false gh (handle_bytes_prog peer frame) returns w.
Proof.
  intros Ho Hw Hu Hf. eapply wp_does; [by eapply does_decoded, decode_header_safe|done|].
  intros [hdr|] w1 Hl1 _; [|done]. pose proof (later_here _ _ Hl1) as Hw1. destruct (hdr_type hdr).
  - eapply wp_does; [by eapply does_decoded, decode_data_safe|done|].
    intros [b|] w2 Hl2 Hb; [|done]. destruct Hb as [(? & ? & _) _].
    eapply does_returns; [by apply does_deliver|done|by eapply later_here].
  - eapply wp_does; [by eapply does_decoded, decode_data_frag_safe|done|].
    intros [b|] w2 Hl2 Hb; [|done]. destruct Hb as [Hb _]. eapply (wp_does _ _ _ _ _ (fun _ _ => True)).
    + apply does_section. intros w3 Hl3 _. apply later_world in Hl3 as Hw3.
      eapply runs_mono; [by apply (runs_reassemble (strict := true))|]. by intros o w4 [? _].
    + by eapply later_here.
    + intros [data|] w3 Hl3 _; [|done]. destruct Hb as (? & ? & _).
      eapply does_returns; [by apply does_deliver|done|by eapply later_here].
  - by eapply does_returns; [apply does_acknack|..].
  - by eapply does_returns; [apply does_heartbeat|..].
  - by apply announce_returns.
  - by eapply does_returns; [apply does_gap|..].
  - done.
Qed.
End graph.

(** ** Publishing *)

Section publishing.
Context {T : Type} `{Transport T} {op : Op} {gh : Ghost}.
Implicit Types w : World T.
Abbreviation later := (rely op false gh).

(** Only the tables of the first world matter. *)
Lemma guar_self held gh' w w1 w2 : w_self w1 = w_self w -> guar op held gh gh' w1 w2 -> guar op held gh gh' w w2.
Proof. intros E []. rewrite E in *. by split. Qed.
Lemma later_self w w1 w2 : w_self w1 = w_self w -> later w1 w2 -> later w w2.
Proof. intros E []. rewrite E in *. by split. Qed.

(** The table with a writer that keeps its names and its count. *)
Lemma set_writer_act w ptr wr wr' :
  session_ok w -> owns op gh (w_self w) -> map_find ptr (p_writers (w_self w)) = Some wr ->
  writer_ok wr' -> w_guid wr' = w_guid wr -> writer_sig wr' = writer_sig wr ->
  w_matched_count wr' = w_matched_count wr -> publishes op ptr = true -> w_seq wr' = w_seq wr + 1 ->
  let w' := with_self (set_writers (w_self w) (map_set ptr wr' (p_writers (w_self w)))) w in
  guar op true gh gh w w' /\ later w w'.
Proof.
  intros [Hw Hg] Ho Hf Hok Eg Es Em Hpub Eseq w'. pose proof (po_writers_map _ (proj1 Hw)) as Hm.
  assert (Eguids : entity_guids (w_self w') = entity_guids (w_self w)).
  { unfold entity_guids. f_equal. pose proof (view_set w_guid ptr wr wr' _ Hm Hf Eg) as Ev.
    by apply (fmap_view w_guid id) in Ev. }
  assert (Hs' : session_ok w').
  { split; [split; [|apply Hw]|].
    - apply part_ok_set_writers; [apply Hw|by apply map_ok_set|]. intros p' x. rewrite map_find_set.
      destruct (decide (p' = ptr)); [by intros [= <-]|apply (po_writers _ (proj1 Hw))].
    - apply (guids_sub (w_self w)); [done..|]. by rewrite Eguids. }
  assert (Hhas : forall p', has_writer (w_self w) p' -> has_writer (w_self w') p').
  { intros p' Hp. unfold has_writer. simpl. rewrite map_find_set. destruct (decide (p' = ptr)); [by eexists|done]. }
  assert (Habs : forall p', absent p' (w_self w) -> absent p' (w_self w')).
  { intros p' [Hp ?]. split; [|done]. simpl. rewrite map_find_set_ne; [done|]. intros ->. congruence. }
  assert (Hown : owns op gh (w_self w')) by (by apply (owns_same _ _ (w_self w))).
  split; [|by split; auto].
  split; try done; auto.
  - intros g. rewrite Eguids. by left.
  - intros ptr' x. simpl. rewrite map_find_set. destruct (decide (ptr' = ptr)) as [-> |Hne].
    + intros [= <-]. left. exists wr. auto.
    + intros Hx. left. exists x. auto.
  - intros _ E. right. split; [done|]. apply matches_ok_same; [split_and!; [done| |done]| |done].
    + by apply (view_set writer_sig ptr wr).
    + by apply (view_set w_matched_count ptr wr).
Qed.

(** The lock region of [write_sample]. *)
Lemma does_claim w ptr data pub :
  publishes op ptr = true -> has_writer (w_self w) ptr -> fits 64 pub -> bytes_ok data -> 64 + len data < 2 ^ 32 ->
  does op false gh w (locked (lift (claim_section ptr data pub))) (fun c w' =>
    match c with
    | None => True
    | Some (seq, readers, _) => fits 64 seq /\ forall r, r ∈ readers -> has_reader (w_self w') r
    end).
Proof.
  intros Hpb Hp Hpub Hd Hl. pose proof (publishes_uses _ _ Hpb) as Hu.
  apply does_locked. intros w1 Hl1. apply does_act. intros w2 Hr2 Hin.
  pose proof Hr2 as [Hs2 _ Hwr2 Ho2 _]. assert (Hw2 : world_ok w2) by apply Hs2.
  destruct (Hwr2 ptr Hu (rl_writers _ _ _ _ _ Hl1 ptr Hu Hp)) as [wr Hf].
  unfold claim_section, system_now_ms. apply runs_tick_bind, runs_self_bind.
  set (now := w_sys w2 (w_tick w2) / 1000). unfold runs.
  rewrite (run_first _ _ _ _ _ (writer_at_run ptr wr (ticked w2) Hf)).
  pose proof (po_writers _ (proj1 Hw2) _ _ Hf) as Hwr. pose proof (proj2 Hin ptr wr Hf) as Hlt.
  pose proof (claim_writer_ok wr pub data now Hwr Hlt Hpub Hd Hl) as Hok'.
  pose proof (claim_seq_sig wr pub data now) as [Hsig Hcnt].
  pose proof (claim_seq_frame wr pub data now) as [_ Eg].
  pose proof (claim_seq_number wr pub data now (ho_seq _ (wo_history _ Hwr)) Hlt) as Hnum.
  assert (Hs2' : session_ok (ticked w2)) by (by apply (session_same_self w2)).
  destruct (claim_seq wr pub data now) as [wr' [seq|]]; simpl in Hok', Hsig, Hcnt, Eg.
  2:{ assert (Hq : quietly w2 (ticked w2)) by (by apply quietly_same).
      split_and!; [by apply quietly_guar|by apply quietly_rely|done]. }
  destruct Hnum as [-> Eseq]. pose proof (ho_seq _ (wo_history _ Hwr)) as Hseq.
  destruct (set_writer_act (ticked w2) ptr wr wr' Hs2' Ho2 Hf Hok' Eg Hsig Hcnt Hpb Eseq) as [Hgu Hlt'].
  split_and!; [by apply (guar_self _ _ _ (ticked w2))|by apply (later_self _ (ticked w2))|ulia|]. intros r Hr.
  destruct (local_readers_in _ _ _ (proj1 Hw2) Hr) as [x Hx]. by exists x.
Qed.

Lemma does_writer_at held w ptr :
  uses_writer op ptr = true -> has_writer (w_self w) ptr ->
  does op held gh w (lift (writer_at ptr)) (fun wr _ => guid_ok (w_guid wr)).
Proof.
  intros Hu Hp. apply does_quiet. intros w1 Hr _. destruct (rl_writers _ _ _ _ _ Hr ptr Hu Hp) as [wr Hf].
  unfold runs. rewrite (writer_at_run _ _ _ Hf). split; [by apply quietly_refl, Hr|].
  assert (Hw1 : world_ok w1) by apply Hr. by apply (wo_guid _ (po_writers _ (proj1 Hw1) _ _ Hf)).
Qed.

Lemma does_send_to_targets w targets (f : PeerId -> prog T bool) any :
  (forall peer w', later w w' -> does op false gh w' (f peer) (fun _ _ => True)) ->
  does op false gh w (send_to_targets_prog targets f any) (fun _ _ => True).
Proof.
  revert any w. induction targets as [|peer l IH]; intros any w Hf; [by apply does_ret|]. intros Hw.
  eapply does_bind; [by apply Hf| |exact Hw]. intros sent w1 Hl1 _. apply IH. intros peer' w2 Hl2.
  apply Hf. by eapply rely_trans.
Qed.

Lemma does_publish w ptr seq pub data readers targets :
  uses_writer op ptr = true -> (forall r, uses_reader op r = true) -> has_writer (w_self w) ptr ->
  fits 64 seq -> fits 64 pub -> 64 + len data < 2 ^ 32 -> (forall r, r ∈ readers -> has_reader (w_self w) r) ->
  does op false gh w (publish_prog ptr seq pub data readers targets) (fun _ _ => True).
Proof.
  intros Hu Hur Hp Hseq Hpub Hl Hrs. eapply (does_bind _ _ _ _ (fun _ _ => True)).
  { apply does_each. intros r w1 Hr Hl1. eapply (does_bind _ _ _ _ (fun _ w' => has_reader (w_self w') r)).
    - apply does_quiet. intros w2 Hl2 _.
      destruct (rl_writers _ _ _ _ _ Hl2 ptr Hu (rl_writers _ _ _ _ _ Hl1 ptr Hu Hp)) as [wr Hf].
      assert (Hr2 : has_reader (w_self w2) r) by (apply (rl_readers _ _ _ _ _ Hl2), (rl_readers _ _ _ _ _ Hl1); auto).
      unfold runs. rewrite (run_first _ _ _ _ _ (writer_at_run _ _ _ Hf)).
      eapply runs_mono; [apply quietly_enqueue; [apply Hl2|done|done]|]. intros out w3 [Hq _].
      split; [done|]. by apply (view_has reader_const _ _ r (gs_readers _ _ (qy_same _ _ Hq))).
    - intros out w2 _ Hr2. case_if; [by apply does_fire_callback|by apply does_ret]. }
  intros [] w1 Hl1 _. assert (Hp1 : has_writer (w_self w1) ptr) by (by apply (rl_writers _ _ _ _ _ Hl1)).
  eapply does_bind; [by apply does_writer_at|]. intros wr w2 Hl2 _.
  assert (Hp2 : has_writer (w_self w2) ptr) by (by apply (rl_writers _ _ _ _ _ Hl2)).
  eapply does_bind; [|intros; by apply does_ret]. apply does_send_to_targets. intros peer w3 Hl3.
  eapply does_bind; [apply does_writer_at; [done|by apply (rl_writers _ _ _ _ _ Hl3)]|].
  intros wr' w4 _ Hg. apply does_send_sample; auto using reliable_flag_fits.
Qed.

Lemma does_write_sample w ptr data :
  publishes op ptr = true -> (forall r, uses_reader op r = true) -> has_writer (w_self w) ptr ->
  bytes_ok data -> 64 + len data < 2 ^ 32 ->
  does op false gh w (write_sample_prog ptr data) (fun _ _ => True).
Proof.
  intros Hpb Hur Hp Hd Hl. pose proof (publishes_uses _ _ Hpb) as Hu. eapply (does_bind _ _ _ _ (fun pub _ => fits 64 pub)).
  { apply does_clock. intros w1 Hc. apply Hc. }
  intros pub w1 Hl1 Hpub. assert (Hp1 : has_writer (w_self w1) ptr) by (by apply (rl_writers _ _ _ _ _ Hl1)).
  eapply does_bind; [by apply does_claim|]. intros [[[seq readers] targets]|] w2 Hl2 Hc; [|by apply does_ret].
  destruct Hc as [Hseq Hrs]. apply does_publish; auto using pub_ms_fits. by apply (rl_writers _ _ _ _ _ Hl2).
Qed.

Lemma does_write w ptr data length :
  publishes op ptr = true -> (forall r, uses_reader op r = true) -> has_writer (w_self w) ptr ->
  match data with
  | Some bytes => bytes_ok bytes /\ 0 <= length <= len bytes /\ 64 + length < 2 ^ 32
  | None => True
  end -> does op false gh w (writer_write_prog ptr data length) (fun _ _ => True).
Proof.
  intros Hpb Hur Hp Hd. pose proof (publishes_uses _ _ Hpb) as Hu. unfold writer_write_prog. destruct data as [bytes|].
  - destruct Hd as (Hb & Hle & Hlt). destruct (load_in_bounds bytes 0 length) as (bs & E & Hlen); [lia..|].
    eapply does_bind; [by apply (does_encoded _ _ _ bs)|]. intros bs' w1 Hl1 ->.
    apply does_write_sample; [done|done|by apply (rl_writers _ _ _ _ _ Hl1)|by eapply load_bytes_ok|lia].
  - case_if; [by apply does_ret|]. apply does_write_sample; [done|done|done|constructor|done].
Qed.

Lemma does_assert_liveliness w ptr :
  uses_writer op ptr = true -> has_writer (w_self w) ptr ->
  does op false gh w (assert_liveliness_prog ptr) (fun _ _ => True).
Proof.
  intros Hu Hp. eapply (does_bind _ _ _ _ (fun _ _ => True)).
  { apply does_section. intros w1 Hl1 _. destruct (rl_writers _ _ _ _ _ Hl1 ptr Hu Hp) as [wr Hf].
    apply runs_self_bind. unfold runs. rewrite (run_first _ _ _ _ _ (writer_at_run _ _ _ Hf)).
    split; [apply steps_refl, Hl1|done]. }
  intros s w1 Hl1 _. eapply does_bind; [apply does_writer_at; [done|by apply (rl_writers _ _ _ _ _ Hl1)]|].
  intros wr w2 Hl2 Hg. eapply does_bind; [by eapply does_encoded, encode_heartbeat_bytes|].
  intros f w3 _ _. apply does_broadcast.
Qed.

(** A call on one reader's queue. *)
Lemma does_at_reader w ptr (f : Z -> ReaderImpl -> ReaderImpl) :
  uses_reader op ptr = true -> has_reader (w_self w) ptr ->
  (forall now r, local_reader_ok r -> reader_const (f now r) = reader_const r /\ local_reader_ok (f now r)) ->
  does op false gh w (lift (now ← system_now_ms; at_reader ptr (f now))) (fun _ _ => True).
Proof.
  intros Hu Hp Hf. apply does_quiet. intros w1 Hr _. destruct (rl_readers _ _ _ _ _ Hr ptr Hu Hp) as [r Hx].
  apply runs_tick_bind. unfold at_reader. apply runs_self_bind. change (w_self (ticked w1)) with (w_self w1).
  rewrite Hx. apply runs_modify. split; [|done]. assert (Hs1 : session_ok (ticked w1)).
  { apply (session_same_self w1); [apply Hr|done..]. }
  destruct (Hf (w_sys w1 (w_tick w1) / 1000) r) as [Hc Hok].
  { apply (po_readers _ (proj1 (proj1 Hs1)) ptr r Hx). }
  destruct (quietly_set_reader (ticked w1) ptr r _ Hs1 Hx Hc Hok). by split.
Qed.
End publishing.

(** ** Creating and destroying *)

Section entities.
Context {T : Type} `{Transport T} {op : Op}.
Implicit Types w : World T.

(** [++entity_serial_]. *)
Lemma wp_next_guid {B} w kind (k : Guid -> prog T B) Q :
  kind_ok kind -> (exists ptr, makes op ptr = true) -> rely op false start_ghost w w ->
  (forall g w', guid_ok g -> let gh := mkGhost (Some g) true false in rely op false gh w' w' -> wp op false gh (k g) Q w') ->
  wp op false start_ghost (lift (next_guid kind) ≫= k) Q w.
Proof.
  intros Hkind Hmakes _ Hk w1 Hr [Hlt _]. pose proof Hr as [Hs _ _ [_ Hfr] _]. pose proof Hs as [[Hp Hc] Hg].
  pose proof (go_serial _ Hg) as Hser. pose proof (po_prefix _ Hp) as [Hl Hb].
  unfold runs, next_guid, get_self, modify, mbind, act_bind, mret, act_ret. cbv zeta.
  rewrite wrap_id by ulia. set (g := make_guid _ kind _). set (w2 := with_self _ w1).
  assert (Hg2 : guids_ok (w_self w2)).
  { destruct Hg as [_ Hnd Hsrc]. split; simpl; [lia|done|]. intros x Hx.
    destruct (Hsrc x Hx) as (kd & n & ? & ? & ?). exists kd, n. split_and!; [done|lia|lia|done]. }
  assert (Hs2 : session_ok w2) by (split; [split; [by destruct Hp|done]|done]).
  assert (Hown : owns op (mkGhost (Some g) true false) (w_self w2)).
  { split; [|exact Hfr]. intros x [= <-]. split.
    - intros Hin%(guids_issued _ _ Hg). revert Hin. by apply next_not_issued; [done|done|lia|].
    - exists kind, (p_entity_serial (w_self w1) + 1). split_and!; [done|lia|simpl; lia|done]. }
  exists (mkGhost (Some g) true false). split.
  - split; try done; [simpl; lia|by right|by left|..].
    + intros x [= <-]. right. exists kind. split_and!; done.
    + by apply writers_same_after.
    + intros _ _. right. split; [done|]. by apply matches_ok_same.
  - apply Hk; [apply make_guid_ok; [done|done|destruct Hkind; ulia]|]. by apply rely_refl.
Qed.

(** One more id in the table, the one that was handed out. *)
Lemma guids_add p p' g :
  guids_ok p -> (g ∉ entity_guids p) -> issued g p -> p_prefix p' = p_prefix p ->
  p_entity_serial p' = p_entity_serial p -> entity_guids p' ≡ₚ g :: entity_guids p -> guids_ok p'.
Proof.
  intros [Hs Hnd Hsrc] Hn (kind & n & Hk & Hle & E) Ep Es Hperm. split; rewrite ?Hperm, ?Ep, ?Es; [done|by constructor|].
  intros x. rewrite Hperm. intros [-> |Hx]%elem_of_cons; [by exists kind, n|by apply Hsrc].
Qed.

Definition placed (g : Guid) : Ghost := mkGhost (Some g) true false.
Definition settled (owes : bool) : Ghost := mkGhost None false owes.

(** The new entity enters its table; the counts have to be redone. *)
Lemma guar_place g ptr w1 p' :
  rely op false (placed g) w1 w1 -> makes op ptr = true ->
  part_ok p' -> p_prefix p' = p_prefix (w_self w1) -> p_entity_serial p' = p_entity_serial (w_self w1) ->
  entity_guids p' ≡ₚ g :: entity_guids (w_self w1) ->
  (forall ptr', has_reader (w_self w1) ptr' -> has_reader p' ptr') ->
  (forall ptr', has_writer (w_self w1) ptr' -> has_writer p' ptr') ->
  (forall ptr', ptr' <> ptr -> absent ptr' (w_self w1) -> absent ptr' p') ->
  (forall ptr' wr, map_find ptr' (p_writers p') = Some wr -> writer_after op (placed g) (w_self w1) ptr' wr) ->
  guar op true (placed g) (settled true) w1 (with_self p' w1) /\
  rely op false (settled true) w1 (with_self p' w1).
Proof.
  intros Hr Hm Hp' Ep Es Hperm Hrd Hwr Hab Hnum. pose proof Hr as [Hs _ _ [Hg _] _]. destruct (Hg g eq_refl) as [Hn Hi].
  assert (Hs' : session_ok (with_self p' w1)).
  { destruct Hs as [Hw Hgs]. split; [split; [done|apply Hw]|]. by apply (guids_add (w_self w1) _ g). }
  assert (Hown : owns op (settled true) p') by (split; done).
  split; [|by split; auto]. split; try done; auto.
  - simpl. lia.
  - intros ptr' Hm'. apply Hab. intros ->. congruence.
  - intros x Hx. simpl in Hx. rewrite Hperm in Hx. apply elem_of_cons in Hx as [-> |Hx]; [by right|by left].
Qed.

Lemma wp_place_writer {B} g ptr topic type q birth w (k : unit -> prog T B) Q :
  guid_ok g -> makes op ptr = true ->
  (forall w', rely op false (settled true) w' w' -> wp op false (settled true) (k tt) Q w') ->
  wp op false (placed g) (locked (lift (modify (fun p =>
    set_writers p (map_emplace ptr (new_writer g topic type q birth) (p_writers p))))) ≫= k) Q w.
Proof.
  intros Hg Hm Hk. apply wp_section. intros w1 Hr _. apply runs_modify. exists (settled true).
  pose proof Hr as [[[Hp _] _] _ _ [_ Hfr] _]. destruct (Hfr eq_refl ptr Hm) as [Hfw _].
  destruct (guar_place g ptr w1 (set_writers (w_self w1) (map_emplace ptr (new_writer g topic type q birth)
    (p_writers (w_self w1))))) as [Hgu Hl]; try done.
  - by eapply later_here.
  - apply part_ok_set_writers; [done|by apply map_ok_emplace, Hp|].
    apply Forall_map_find; [apply (po_writers _ Hp)|]. split; simpl; [done|apply new_writer_ok|constructor].
  - unfold entity_guids, map_emplace. simpl. by rewrite Hfw, map_set_perm.
  - intros ptr'. apply emplace_has.
  - intros ptr' Hne [H1 H2]. split; [by apply emplace_none|done].
  - intros ptr' wr. unfold map_emplace. simpl. rewrite Hfw, map_find_set.
    destruct (decide (ptr' = ptr)) as [-> |]; [intros [= <-]; by right|]. intros Hf. left. exists wr. auto.
  - split; [done|]. by eapply Hk, later_here.
Qed.

Lemma wp_place_reader {B} g ptr topic type q ign birth w (k : unit -> prog T B) Q :
  guid_ok g -> makes op ptr = true ->
  (forall w', rely op false (settled true) w' w' -> has_reader (w_self w') ptr -> wp op false (settled true) (k tt) Q w') ->
  wp op false (placed g) (locked (lift (modify (fun p =>
    set_readers p (map_emplace ptr (ReaderImpl.new_reader g topic type q ign birth) (p_readers p))))) ≫= k) Q w.
Proof.
  intros Hg Hm Hk. apply wp_section. intros w1 Hr _. apply runs_modify. exists (settled true).
  pose proof Hr as [[[Hp _] _] _ _ [_ Hfr] _]. destruct (Hfr eq_refl ptr Hm) as [_ Hfw].
  destruct (guar_place g ptr w1 (set_readers (w_self w1) (map_emplace ptr (ReaderImpl.new_reader g topic type q ign birth)
    (p_readers (w_self w1))))) as [Hgu Hl]; try done.
  - by eapply later_here.
  - apply part_ok_set_readers; [done|by apply map_ok_emplace, Hp|].
    apply Forall_map_find; [apply (po_readers _ Hp)|]. split; simpl; [done|intros x; apply rx_init_ok].
  - unfold entity_guids, map_emplace. simpl. rewrite Hfw, map_set_perm by done. simpl. by rewrite Permutation_middle.
  - intros ptr'. apply emplace_has.
  - intros ptr' Hne [H1 H2]. split; [done|by apply emplace_none].
  - by apply writers_same_after.
  - split; [done|]. apply Hk; [by eapply later_here|]. unfold has_reader, map_emplace. simpl. rewrite Hfw, map_find_set_eq.
    by eexists.
Qed.

Lemma does_replay_local gh w ptr :
  uses_reader op ptr = true -> has_reader (w_self w) ptr ->
  does op false gh w (replay_local_history_prog ptr) (fun _ _ => True).
Proof.
  intros Hu Hp. eapply (does_bind _ _ _ _ (fun _ w' => has_reader (w_self w') ptr)).
  { apply does_quiet. intros w1 Hr _. destruct (rl_readers _ _ _ _ _ Hr ptr Hu Hp) as [r Hx].
    unfold runs. rewrite (reader_at_run _ _ _ Hx). split; [by apply quietly_refl, Hr|by exists r]. }
  intros r w1 Hl1 Hp1. case_if; [by apply does_ret|].
  eapply (does_bind _ _ _ _ (fun _ w' => has_reader (w_self w') ptr)).
  - apply does_locked. intros w2 Hl2. eapply (does_bind _ _ _ _ (fun todo _ => forall t, t ∈ todo -> fits 64 (cs_seq t.2))).
    + apply does_steps. intros w3 Hr3 _. assert (Hw3 : world_ok w3) by apply Hr3.
      eapply runs_bind; [by apply (runs_tick (strict := true))|]. intros now w4 (Hs & _ & Es).
      apply runs_self_bind, runs_ret. split; [done|]. rewrite Es. intros t Ht.
      destruct (local_replay_todo_in _ _ _ _ Ht) as (kv & Hkv & He).
      destruct (po_writers _ (proj1 Hw3) _ _ (entry_find _ _ (po_writers_map _ (proj1 Hw3)) Hkv)) as [_ _ Hc].
      rewrite Forall_forall in Hc. by apply Hc.
    + intros todo w3 Hl3 Ht. eapply does_bind; [apply (does_mapM true _ _ _ (fun _ _ => True))|].
      * intros t w4 Hin Hl4. eapply does_mono; [apply does_enqueue|by auto]; [done| |by apply Ht].
        apply (rl_readers _ _ _ _ _ Hl4), (rl_readers _ _ _ _ _ Hl3), (rl_readers _ _ _ _ _ Hl2); auto.
      * intros outs w4 Hl4 _. apply does_ret.
        apply (rl_readers _ _ _ _ _ Hl4), (rl_readers _ _ _ _ _ Hl3), (rl_readers _ _ _ _ _ Hl2); auto.
  - intros [] w2 _ Hp2; [by apply does_fire_callback|by apply does_ret].
Qed.

Lemma create_writer_returns w ptr topic type q :
  rely op false start_ghost w w -> makes op ptr = true ->
  wp op false start_ghost (_ ← create_writer_prog ptr topic type q; mret tt) returns w.
Proof.
  intros Hw Hm. apply wp_bind. unfold create_writer_prog. destruct (qos_valid q); [|done]. cbn [negb].
  apply wp_next_guid; [split; simpl; done || ulia|by exists ptr|done|]. intros g w1 Hg gh Hw1.
  eapply (wp_does _ _ _ _ _ (fun _ _ => True)); [by apply does_clock|done|]. intros birth w2 _ _.
  apply wp_place_writer; [done|done|]. intros w3 _. apply wp_recompute. done.
Qed.

Lemma create_reader_returns w ptr topic type q ign :
  rely op false start_ghost w w -> makes op ptr = true -> uses_reader op ptr = true ->
  wp op false start_ghost (_ ← create_reader_prog ptr topic type q ign; mret tt) returns w.
Proof.
  intros Hw Hm Hu. apply wp_bind. unfold create_reader_prog. destruct (qos_valid q); [|done]. cbn [negb].
  apply wp_next_guid; [split; simpl; done || ulia|by exists ptr|done|]. intros g w1 Hg gh Hw1.
  eapply (wp_does _ _ _ _ _ (fun _ _ => True)); [by apply does_clock|done|]. intros birth w2 _ _.
  apply wp_place_reader; [done|done|]. intros w3 Hw3 Hp3. apply wp_recompute. intros w4 Hl4.
  eapply wp_does; [apply does_replay_local; [done|]|by eapply later_here|done].
  by apply (rl_readers _ _ _ _ _ Hl4).
Qed.

(** Destroying: the entity leaves its table. *)
Lemma guar_erase w1 p' :
  rely op false start_ghost w1 w1 -> part_ok p' ->
  p_prefix p' = p_prefix (w_self w1) -> p_entity_serial p' = p_entity_serial (w_self w1) ->
  sublist (entity_guids p') (entity_guids (w_self w1)) ->
  (forall ptr, kills_reader op ptr = false -> has_reader (w_self w1) ptr -> has_reader p' ptr) ->
  (forall ptr, kills_writer op ptr = false -> has_writer (w_self w1) ptr -> has_writer p' ptr) ->
  (forall ptr, makes op ptr = false) -> (forall ptr, absent ptr (w_self w1) -> absent ptr p') ->
  (forall ptr wr, map_find ptr (p_writers p') = Some wr -> map_find ptr (p_writers (w_self w1)) = Some wr) ->
  guar op true start_ghost (owing true start_ghost) w1 (with_self p' w1).
Proof.
  intros Hr Hp' Ep Es Hsub Hrd Hwr Hm Hab Hold. pose proof Hr as [[Hw Hgs] _ _ _ _]. split; try done; auto.
  - split; [split; [done|apply Hw]|]. by apply (guids_sub (w_self w1)).
  - simpl. lia.
  - intros x Hx. left. by eapply elem_of_sublist.
  - split; [done|]. intros _ ptr Hm'. by rewrite Hm in Hm'.
  - intros ptr wr Hf%Hold. left. exists wr. auto.
Qed.

Lemma destroy_writer_returns w ptr :
  (forall p, kills_writer op p = (p =? ptr)) -> (forall p, makes op p = false) ->
  wp op false start_ghost (destroy_writer_prog ptr) returns w.
Proof.
  intros Hk Hm. apply wp_section. intros w1 Hr _. apply runs_modify. pose proof Hr as [[[Hp _] _] _ _ _ _].
  exists (owing true start_ghost). split; [|apply recompute_returns]. apply guar_erase; try done.
  - by eapply later_here.
  - apply part_ok_set_writers; [done|apply map_ok_erase, Hp|]. apply map_find_erased. apply (po_writers _ Hp).
  - apply sublist_app; [apply sublist_erase|done].
  - intros p Hkp. apply erase_has. rewrite Hk in Hkp. zbool. done.
  - intros p [H1 H2]. split; [by apply erase_none|done].
  - intros p wr. simpl. rewrite map_find_erase. by destruct (decide (p = ptr)).
Qed.

Lemma destroy_reader_returns w ptr :
  (forall p, kills_reader op p = (p =? ptr)) -> (forall p, makes op p = false) ->
  wp op false start_ghost (destroy_reader_prog ptr) returns w.
Proof.
  intros Hk Hm. apply wp_section. intros w1 Hr _. apply runs_modify. pose proof Hr as [[[Hp _] _] _ _ _ _].
  exists (owing true start_ghost). split; [|apply recompute_returns]. apply guar_erase; try done.
  - by eapply later_here.
  - apply part_ok_set_readers; [done|apply map_ok_erase, Hp|]. apply map_find_erased. apply (po_readers _ Hp).
  - apply sublist_app; [done|apply sublist_erase].
  - intros p Hkp. apply erase_has. rewrite Hk in Hkp. zbool. done.
  - intros p [H1 H2]. split; [done|by apply erase_none].
Qed.
End entities.

(** ** Every call *)

Section calls.
Context {T : Type} `{Transport T}.
Implicit Types (w : World T) (P : Pool T).

Lemma op_wp op w :
  session_ok w -> op_pre op (w_self w) -> owns op start_ghost (w_self w) ->
  wp op false start_ghost (op_prog op) returns w.
Proof.
  intros Hs Hpre Ho. assert (Hw : rely op false start_ghost w w) by (by apply rely_refl).
  destruct op; cbn [op_prog op_pre] in *.
  - eapply does_returns; [apply does_peer_up|done|done].
  - by apply peer_down_returns.
  - by apply receive_returns.
  - eapply does_returns; [apply does_announce_tick|done|done].
  - apply create_writer_returns; [done|apply Z.eqb_refl].
  - apply create_reader_returns; [done|apply Z.eqb_refl|apply Z.eqb_refl].
  - by apply (destroy_writer_returns w ptr).
  - by apply (destroy_reader_returns w ptr).
  - destruct Hpre as (wr & Hf & _ & Hd). eapply does_returns; [|done|done].
    eapply does_bind; [apply does_write; [apply Z.eqb_refl|done|by exists wr|done]|]. intros. by apply (does_ret _ _ _ (fun _ _ => True)).
  - destruct Hpre as [wr Hf]. eapply does_returns; [apply does_assert_liveliness; [apply Z.eqb_refl|by exists wr]|done|done].
  - eapply does_returns; [|done|done].
    apply (does_at_reader w ptr (fun now r => fst (reader_take r now))); [apply Z.eqb_refl|done|].
    intros now r Hr. destruct (take_shortens now r) as [q ->]. split; [done|by apply local_reader_ok_queue].
  - eapply does_returns; [|done|done].
    apply (does_at_reader w ptr (fun now r => fst (available r now))); [apply Z.eqb_refl|done|].
    intros now r Hr. split; [done|by apply local_reader_ok_queue].
  - eapply does_returns; [|done|done]. eapply (does_quiet _ _ _ (fun _ _ => True)). intros w1 Hr _.
    destruct (rl_readers _ _ _ _ _ Hr ptr) as [r Hf]; [apply Z.eqb_refl|done|].
    unfold at_reader. apply runs_self_bind. rewrite Hf. apply runs_modify. split; [|done].
    assert (Hw1 : world_ok w1) by apply Hr. destruct (po_readers _ (proj1 Hw1) _ _ Hf).
    apply (quietly_set_reader w1 ptr r); [apply Hr|done|done|by split].
  - eapply does_returns; [apply (does_section _ _ (fun _ _ => True))|done|done]. intros w1 Hr _.
    eapply runs_mono; [apply runs_add_node, Hr|]. by split.
  - eapply does_returns; [apply (does_section _ _ (fun _ _ => True))|done|done]. intros w1 Hr _.
    apply runs_modify. split; [|done]. apply steps_set_nodes, Hr.
  - eapply does_returns; [apply (does_section _ _ (fun _ _ => True))|done|done]. intros w1 Hr _.
    apply runs_modify. split; [|done]. apply steps_set_graph_callback, Hr.
Qed.

Lemma reachable_inv stable P : pool_reachable stable P -> exists gs, pool_inv stable P gs.
Proof. apply pool_reachable_inv. apply op_wp. Qed.

Lemma pool_reachable_weaken stable P : pool_reachable stable P -> pool_reachable false P.
Proof. induction 1; [by apply pool_new|by apply pool_spawn|by eapply pool_advance]. Qed.

(** Some thread can move unless every call has returned. *)
Lemma some_thread_moves stable P gs :
  pool_inv stable P gs -> in_range (w_self (pool_world P)) ->
  at_rest P \/ exists i r, advance i P = Some r.
Proof.
  intros Hinv Hin. destruct (decide (at_rest P)) as [?|Hrest]; [by left|]. right.
  unfold at_rest in Hrest. apply not_Forall_Exists in Hrest; [|intros t; apply _].
  apply Exists_exists in Hrest as ([op p] & Hel & Hf). apply list_elem_of_lookup in Hel as [i Hi].
  destruct (pool_owner P) as [j|] eqn:Ho.
  - destruct (lookup_lt_is_Some_2 _ _ (pi_owner _ _ _ Hinv _ Ho)) as [[opj pj] Hj]. exists j.
    destruct (pool_thread _ _ _ _ _ _ Hinv Hj) as (gh & _ & Hwp & _). unfold advance. rewrite Hj.
    unfold holds in Hwp. rewrite Ho, bool_decide_true in Hwp by done.
    destruct pj as [a|B m k|k|k]; [by destruct Hwp|by eexists| |by eexists].
    rewrite Ho. rewrite decide_True by done. by eexists.
  - exists i. unfold advance. rewrite Hi.
    destruct p as [a|B m k|k|k]; [by destruct Hf|by eexists| |by eexists]. rewrite Ho. by eexists.
Qed.

(** Without owning the lock a thread changes nothing guarded. *)
Lemma advance_shielded stable P gs i P' :
  pool_inv stable P gs -> in_range (w_self (pool_world P)) -> advance i P = Some (Done P') ->
  pool_owner P <> Some i -> guarded_same (w_self (pool_world P)) (w_self (pool_world P')).
Proof.
  intros Hinv Hin. unfold advance. destruct (pool_threads P !! i) as [[op p]|] eqn:Hi; [|done].
  destruct (pool_thread _ _ _ _ _ _ Hinv Hi) as (gh & Hgh & Hwp & Hrel).
  destruct p as [a|B m k|k|k]; [done|..].
  - intros E Hown. specialize (Hwp _ (Hrel eq_refl) Hin). unfold runs in Hwp. revert E.
    destruct (m (pool_world P)) as [[b w']| |]; [|done..]. intros [= <-]. destruct Hwp as (gh' & Hg & _).
    apply (gr_shield _ _ _ _ _ _ Hg). by apply bool_decide_eq_false.
  - destruct (pool_owner P); [by case_decide|]. by intros [= <-] _.
  - case_decide; [|done]. by intros [= <-] _.
Qed.

(** *** Moves come to an end *)

Definition moves_to P P' : Prop := exists i, advance i P = Some (Done P').
Definition solo (i : nat) P P' : Prop := advance i P = Some (Done P').

(** A move leaves a part of the program. *)
Definition rest_of (p' p : prog T unit) : Prop :=
  match p with
  | Ret _ => False
  | Step _ k => exists b, p' = k b
  | Lock k | Unlock k => p' = k
  end.

Fixpoint shrinks (l' l : list (Op * prog T unit)) : Prop :=
  match l', l with
  | t' :: l', t :: l => (t'.1 = t.1 /\ rest_of t'.2 t.2 /\ l' = l) \/ (t' = t /\ shrinks l' l)
  | _, _ => False
  end.

Lemma rest_of_acc p : Acc rest_of p.
Proof. induction p; constructor; intros p' Hp; [done|by destruct Hp as [b ->]|by rewrite Hp..]. Qed.

Lemma shrinks_acc l : Acc shrinks l.
Proof.
  induction l as [|[op p] l IH]; [constructor; by intros []|].
  revert l IH. induction (rest_of_acc p) as [p _ IHp]. intros l Hl. induction Hl as [l Hl IHl].
  constructor. intros [|[op' p'] l'] Hs; [done|]. destruct Hs as [(Eop & Hp & ->)|[[= -> ->] Hs]]; simpl in *.
  - subst op'. by apply IHp.
  - by apply IHl.
Qed.

Lemma shrinks_insert i op p p' l :
  l !! i = Some (op, p) -> rest_of p' p -> shrinks (<[i := (op, p')]> l) l.
Proof.
  revert i. induction l as [|t l IH]; intros [|i] Hi Hp; simpl in *; [done..| |].
  - injection Hi as ->. by left.
  - right. split; [done|]. by apply IH.
Qed.

Lemma moves_shrink P P' : moves_to P P' -> shrinks (pool_threads P') (pool_threads P).
Proof.
  intros [i E]. unfold advance in E. destruct (pool_threads P !! i) as [[op p]|] eqn:Hi; [|done].
  destruct p as [a|B m k|k|k]; [done|..].
  - destruct (m (pool_world P)) as [[b w']| |]; [|done..]. injection E as <-. simpl.
    eapply shrinks_insert; [exact Hi|by exists b].
  - destruct (pool_owner P); [by case_decide|]. injection E as <-. by eapply shrinks_insert.
  - case_decide; [|done]. injection E as <-. by eapply shrinks_insert.
Qed.

Lemma moves_acc P : Acc (fun P' P => moves_to P P') P.
Proof.
  remember (pool_threads P) as l eqn:E. revert P E. induction (shrinks_acc l) as [l _ IH]. intros P ->.
  constructor. intros P' Hm. by eapply IH; [by apply moves_shrink|].
Qed.

(** *** Locks are bracketed *)

Fixpoint brackets {A} (held held' : bool) (p : prog T A) : Prop :=
  match p with
  | Ret _ => held = held'
  | Step _ k => forall b, brackets held held' (k b)
  | Lock k => held = false /\ brackets true held' k
  | Unlock k => held = true /\ brackets false held' k
  end.

Lemma brackets_bind {A B} h h1 h2 (p : prog T A) (k : A -> prog T B) :
  brackets h h1 p -> (forall a, brackets h1 h2 (k a)) -> brackets h h2 (p ≫= k).
Proof.
  intros Hp Hk. revert h Hp. induction p as [a|B' m k' IH|p IH|p IH]; intros h; cbn.
  - intros ->. apply Hk.
  - intros Hp b. by apply IH.
  - intros [-> Hp]. split; [done|]. by apply IH.
  - intros [-> Hp]. split; [done|]. by apply IH.
Qed.

Lemma brackets_ret {A} h (a : A) : brackets h h (mret a).
Proof. done. Qed.
Lemma brackets_lift {A} h (m : act T A) : brackets h h (lift m).
Proof. done. Qed.
Lemma brackets_locked {A} (p : prog T A) : brackets true true p -> brackets false false (locked p).
Proof. intros Hp. split; [done|]. eapply brackets_bind; [exact Hp|]. done. Qed.
Lemma brackets_each {A} h (l : list A) f : (forall a, brackets h h (f a)) -> brackets h h (each l f).
Proof. intros Hf. induction l as [|a l IH]; [done|]. by eapply brackets_bind. Qed.
Lemma brackets_mapM {A B} h (l : list A) (f : A -> prog T B) :
  (forall a, brackets h h (f a)) -> brackets h h (mapM f l).
Proof.
  intros Hf. induction l as [|a l IH]; [done|]. eapply brackets_bind; [apply Hf|]. intros b.
  by eapply brackets_bind.
Qed.
Lemma brackets_targets h l (f : PeerId -> prog T bool) any :
  (forall a, brackets h h (f a)) -> brackets h h (send_to_targets_prog l f any).
Proof. intros Hf. revert any. induction l as [|a l IH]; intros any; [done|]. by eapply brackets_bind. Qed.
Lemma brackets_frames h peer fs ok : brackets h h (send_frames_prog peer fs ok).
Proof. revert ok. induction fs as [|f fs IH]; intros ok; [done|]. by eapply brackets_bind. Qed.

Ltac bracketed := repeat first
  [ apply brackets_ret | apply brackets_lift | apply brackets_locked | apply brackets_each | apply brackets_mapM
  | apply brackets_targets | apply brackets_frames | eapply brackets_bind | progress intros
  | match goal with |- brackets _ _ (match ?x with _ => _ end) => destruct x end
  | progress cbn beta iota zeta ].

Lemma brackets_op op : brackets false false (op_prog op).
Proof.
  destruct op; cbn [op_prog];
    unfold handle_peer_up_prog, handle_peer_down_prog, handle_bytes_prog, announce_tick_prog, create_writer_prog,
      create_reader_prog, destroy_writer_prog, destroy_reader_prog, writer_write_prog, assert_liveliness_prog,
      handle_announce_prog, handle_acknack_prog, handle_heartbeat_prog, handle_gap_prog, deliver_sample_prog,
      deliver_section, heartbeat_section, write_sample_prog, publish_prog, replay_history_to_peer_prog,
      replay_local_history_prog, replay_local_section, broadcast_announce_prog, send_heartbeats_prog,
      send_announce_prog, graph_changed_prog, recompute_matches_prog, fire_graph_callback_prog, fire_callback_prog,
      send_sample_to_prog, send_prog; bracketed.
Qed.

(** A thread that nobody disturbs does what its program does alone. *)
Lemma undisturbed {w w' : World T} held i op p ts :
  brackets held false p -> run_alone p w = Done (tt, w') -> (i < length ts)%nat ->
  rtc (solo i) (mkPool w (if held then Some i else None) (<[i := (op, p)]> ts))
    (mkPool w' None (<[i := (op, Ret tt)]> ts)).
Proof.
  intros Hb Hrun Hi. revert held w Hb Hrun. induction p as [[]|B m k IH|p IH|p IH]; intros held w; cbn.
  - intros -> [= ->]. reflexivity.
  - unfold mbind, act_bind. destruct (m w) as [[b w1]| |] eqn:E; [|done..]. intros Hb Hrun.
    eapply rtc_l; [|by eapply (IH b)]. unfold solo, advance. cbn. rewrite list_lookup_insert_eq by done.
    by rewrite E, list_insert_insert_eq.
  - intros [-> Hb] Hrun. eapply rtc_l; [|by eapply (IH true)]. unfold solo, advance. cbn.
    rewrite list_lookup_insert_eq by done. by rewrite list_insert_insert_eq.
  - intros [-> Hb] Hrun. eapply rtc_l; [|by eapply (IH false)]. unfold solo, advance. cbn.
    rewrite list_lookup_insert_eq by done. rewrite decide_True by done. by rewrite list_insert_insert_eq.
Qed.

Lemma undisturbed_solo op w w' (ts : list (Op * prog T unit)) :
  part_ok (w_self w) -> run_op op w = Done (tt, w') ->
  rtc (solo (length ts)) (spawn op (mkPool w None ts)) (mkPool w' None (ts ++ [(op, Ret tt)])).
Proof.
  intros Hp Hrun. rewrite <- alone_op in Hrun by done. unfold spawn. cbn.
  pose proof (undisturbed false (length ts) op _ (ts ++ [(op, op_prog op)]) (brackets_op op) Hrun) as Hu.
  rewrite length_app in Hu. specialize (Hu ltac:(simpl; lia)).
  rewrite !insert_app_r_alt in Hu by done. rewrite Nat.sub_diag in Hu. exact Hu.
Qed.
End calls.

(** ** Running a schedule *)

Section schedules.
Context {T : Type} `{Transport T}.
Implicit Types (w : World T) (P : Pool T).

Definition in_range_b (p : ParticipantImpl) : bool :=
  (p_entity_serial p + 1 <? 2 ^ 24) && forallb (fun kv : Z * WriterImpl => w_seq kv.2 + 1 <? 2 ^ 64) (p_writers p).

Definition qos_kept_b (p p' : ParticipantImpl) : bool :=
  forallb (fun kv : Guid * RemoteParticipant =>
    match map_find kv.1 (p_remote p') with
    | None => true
    | Some rp' => implb (endpoints_eqb (snap_endpoints (rp_snap kv.2)) (snap_endpoints (rp_snap rp')))
        (bool_decide (ep_qos <$> snap_endpoints (rp_snap kv.2) = ep_qos <$> snap_endpoints (rp_snap rp')))
    end) (p_remote p).

Lemma in_range_check p : in_range_b p = true -> in_range p.
Proof.
  unfold in_range_b. intros [Hs Hall]%andb_prop. split; [by zbool|]. intros ptr wr Hf.
  rewrite forallb_forall in Hall. apply map_find_In, list_elem_of_In in Hf. specialize (Hall _ Hf). simpl in Hall. by zbool.
Qed.

Lemma qos_kept_check p p' : qos_kept_b p p' = true -> qos_kept p p'.
Proof.
  unfold qos_kept_b. rewrite forallb_forall. intros Hall g rp rp' Hf Hf' Heq.
  apply map_find_In, list_elem_of_In in Hf. specialize (Hall _ Hf). simpl in Hall. rewrite Hf', Heq in Hall.
  by apply bool_decide_eq_true in Hall.
Qed.

(** The moves of the threads named by the schedule, as long as the counters are in range
    and no step changes only a QoS. *)
Fixpoint run_schedule (sched : list nat) P : option (Pool T) :=
  match sched with
  | [] => Some P
  | i :: sched =>
      if in_range_b (w_self (pool_world P)) then
        match advance i P with
        | Some (Done P') =>
            if qos_kept_b (w_self (pool_world P)) (w_self (pool_world P')) then run_schedule sched P' else None
        | _ => None
        end
      else None
  end.

Lemma run_schedule_reachable stable sched P P' :
  pool_reachable stable P -> run_schedule sched P = Some P' -> pool_reachable stable P'.
Proof.
  revert P. induction sched as [|i sched IH]; intros P HP; cbn [run_schedule]; [by intros [= <-]|].
  destruct (in_range_b _) eqn:Hin; [|done]. destruct (advance i P) as [[P1| |]|] eqn:E; [|done..].
  destruct (qos_kept_b _ _) eqn:Hq; [|done]. apply IH. eapply pool_advance; [exact HP| |exact E|].
  - by apply in_range_check.
  - intros _. by apply qos_kept_check.
Qed.

Definition moves_b (i : nat) P : bool := match advance i P with Some (Done _) => true | _ => false end.
Lemma moves_check i P : moves_b i P = true -> exists P', advance i P = Some (Done P').
Proof. unfold moves_b. destruct (advance i P) as [[P'| |]|]; [by exists P'|done..]. Qed.

Definition at_rest_b P : bool := forallb (fun t => finished t.2) (pool_threads P).
Lemma at_rest_check P : at_rest_b P = true -> at_rest P.
Proof.
  unfold at_rest_b, at_rest. rewrite forallb_forall, Forall_forall. intros Hall t Ht. by apply Hall, list_elem_of_In.
Qed.

(** The first call after a rest, and a second one beside it. *)
Lemma spawn_at_rest stable P op :
  pool_reachable stable P -> at_rest P -> op_pre op (w_self (pool_world P)) -> pool_reachable stable (spawn op P).
Proof.
  intros HP Hr Hpre. apply pool_spawn; [done|]. split; [done|]. intros t Ht Hf.
  unfold at_rest in Hr. rewrite Forall_forall in Hr. specialize (Hr _ Ht). congruence.
Qed.

Lemma spawn_beside stable P op op' :
  pool_reachable stable P -> at_rest P -> op_pre op (w_self (pool_world P)) -> op_pre op' (w_self (pool_world P)) ->
  compatible op' op -> pool_reachable stable (spawn op' (spawn op P)).
Proof.
  intros HP Hr Hpre Hpre' Hc. apply pool_spawn; [by apply spawn_at_rest|]. split; [done|]. intros t Hin Hf.
  cbn in Hin. apply elem_of_app in Hin as [Hin| ->%list_elem_of_singleton]; [|done].
  unfold at_rest in Hr. rewrite Forall_forall in Hr. specialize (Hr _ Hin). congruence.
Qed.

Definition after_schedule (sched : list nat) P : Pool T := default P (run_schedule sched P).

Lemma after_schedule_reachable stable sched P : pool_reachable stable P -> pool_reachable stable (after_schedule sched P).
Proof.
  intros HP. unfold after_schedule. destruct (run_schedule sched P) eqn:E; [by eapply run_schedule_reachable|done].
Qed.
End schedules.

Lemma participant_safe_run {T} `{Transport T} (w : World T) op :
  reachable false w -> op_pre op (w_self w) -> exists w', run_op op w = Done (tt, w').
Proof.
  intros Hw%reachable_ok Hpre. pose proof (op_safe op w Hw Hpre) as Hr. unfold runs in Hr.
  destruct (run_op op w) as [[[] w']| |]; [|done..]. by exists w'.
Qed.

(** A participant with a writer, in which a peer comes up while another thread handles
    an announcement. *)
Definition test_pool0 : Pool Recorder :=
  after_schedule (replicate 8 0%nat) (spawn test_op1 (mkPool test_world None [])).
Definition test_pool1 : Pool Recorder :=
  spawn (Receive 5 (test_announce preset_default 1)) (spawn (PeerUp 5) test_pool0).
(** Thread 1 is about to copy the snapshot, thread 2 holds the lock. *)
Definition test_pool2 : Pool Recorder := after_schedule [1; 1; 1; 2; 2; 2]%nat test_pool1.
Definition test_pool3 : Pool Recorder := after_schedule ([2; 2] ++ replicate 5 1 ++ replicate 9 2)%nat test_pool2.

Lemma test_pool1_reachable stable : pool_reachable stable test_pool1.
Proof.
  apply spawn_beside.
  - apply after_schedule_reachable, spawn_at_rest.
    + apply pool_new; [done|apply Forall_replicate; ulia|intros n; ulia].
    + by apply Forall_nil.
    + split_and!; by vm_compute.
  - apply at_rest_check. by vm_compute.
  - done.
  - apply bytes_ok_check. by vm_compute.
  - intros ptr. by split_and!.
Qed.

Module ThreadSafeSpec.
Section spec.
Context {T : Type} `{Transport T}.
Implicit Types (w : World T) (P : Pool T).

(** C2. The API is thread-safe: whatever calls, transport events and announce turns are in
    flight at once, and however their threads are scheduled between any two lock
    operations, queue accesses, clock readings and sends, no move of any thread leaves a
    buffer, dereferences a destroyed entity or misuses [mutex_], and the tables stay well
    formed, as long as the counters last and no entity is destroyed while another call may
    use it. *)
Theorem overlapping_calls_safe (stable : bool) P i r :
  pool_reachable stable P -> in_range (w_self (pool_world P)) -> advance i P = Some r ->
  exists P', r = Done P' /\ part_ok (w_self (pool_world P')) /\ guids_ok (w_self (pool_world P')).
Proof.
  intros [gs Hinv]%pool_reachable_weaken%reachable_inv Hin E.
  destruct (advance_inv _ _ _ _ _ Hinv Hin E) as (P' & -> & Hinv'). exists P'. split; [done|].
  destruct Hinv' as [gs' Hinv']; [done|]. destruct (pi_session _ _ _ Hinv') as [[Hp _] Hg]. by split.
Qed.

(** Every schedule leads to a pool whose calls have all returned, unless a counter runs out. *)
Inductive ends_at_rest P : Prop :=
| ends :
    (in_range (w_self (pool_world P)) -> at_rest P \/ exists P', moves_to P P') ->
    (forall P', in_range (w_self (pool_world P)) -> moves_to P P' -> ends_at_rest P') -> ends_at_rest P.

(** C7. No deadlock and no endless call: from every reachable pool, every schedule of the
    threads comes to a pool in which all calls have returned. *)
Theorem calls_return (stable : bool) P : pool_reachable stable P -> ends_at_rest P.
Proof.
  intros HP%pool_reachable_weaken. induction (moves_acc P) as [P _ IH]. constructor.
  - intros Hin. destruct (reachable_inv _ _ HP) as [gs Hinv]. destruct (some_thread_moves _ _ _ Hinv Hin) as [?|(i & r & E)]; [by left|].
    right. destruct (advance_inv _ _ _ _ _ Hinv Hin E) as (P' & -> & _). by exists P', i.
  - intros P' Hin Hm. apply IH; [done|]. destruct Hm as [i E]. by eapply pool_advance.
Qed.

(** C14. Mutual exclusion: a thread that does not own [mutex_] changes nothing that the
    lock guards: not the tables of writers, peers, remote participants, reassemblers and
    nodes, and of a reader only its queue, windows and callback. *)
Theorem mutex_guards (stable : bool) P i P' :
  pool_reachable stable P -> in_range (w_self (pool_world P)) -> advance i P = Some (Done P') ->
  pool_owner P <> Some i -> guarded_same (w_self (pool_world P)) (w_self (pool_world P')).
Proof. intros [gs Hinv]%reachable_inv. by eapply advance_shielded. Qed.

(** C4. In runs in which no announcement changes only the QoS of endpoints, the match
    counts are exact whenever no call is in flight, whatever overlapped before: the count of
    a writer is the number of compatible reader endpoints of the whole graph, the
    participant's own among them, the count of a reader the number of acceptable writer
    endpoints.  Without that restriction they are not ([qos_change_unnoticed]), and the
    comments in participant.hpp, which speak of remote endpoints, leave out the local ones. *)
Theorem counts_exact_at_rest P :
  pool_reachable true P -> at_rest P ->
  let p := w_self (pool_world P) in
  (forall ptr wr, map_find ptr (p_writers p) = Some wr ->
     w_matched_count wr =
     count_if (SessionSpec.pairs READER (w_topic wr) (w_type wr) (fun q => qos_compatible q (w_qos wr)))
       (SessionSpec.graph_endpoints p)) /\
  (forall ptr r, map_find ptr (p_readers p) = Some r ->
     r_matched_count r =
     count_if (SessionSpec.pairs WRITER (r_topic r) (r_type r) (qos_accepted_by_reader (r_qos r)))
       (SessionSpec.graph_endpoints p)).
Proof.
  intros [gs Hinv]%reachable_inv Hrest. assert (Hm : matches_ok (w_self (pool_world P))).
  { apply (pi_counts _ _ _ Hinv eq_refl). intros i gh Hi.
    destruct (lookup_lt_is_Some_2 (pool_threads P) i) as [[op p] Ht].
    { rewrite <- (pi_length _ _ _ Hinv). by eapply lookup_lt_Some. }
    destruct (pi_wp _ _ _ Hinv _ _ _ _ Ht Hi) as [Hwp _]. unfold at_rest in Hrest. rewrite Forall_lookup in Hrest.
    specialize (Hrest _ _ Ht). destruct p; [|done..]. apply Hwp. }
  destruct Hm as [Hw Hr]. split.
  - intros ptr wr Hf. by rewrite (Hw _ _ Hf), SessionSpec.writer_matches_graph.
  - intros ptr r Hf. by rewrite (Hr _ _ Hf), SessionSpec.reader_matches_graph.
Qed.

(** C10. The lock-level programs refine the operations: a call whose thread is not
    disturbed takes the participant exactly where the operation of the sequential model
    takes it, and returns. *)
Theorem undisturbed_call op w w' (ts : list (Op * prog T unit)) :
  part_ok (w_self w) -> run_op op w = Done (tt, w') ->
  rtc moves_to (spawn op (mkPool w None ts)) (mkPool w' None (ts ++ [(op, Ret tt)])).
Proof.
  intros Hp Hrun. apply (rtc_subrel (solo (length ts))); [|by apply undisturbed_solo]. intros P P' E. by exists (length ts).
Qed.
End spec.

Lemma overlapping_calls_safe_witness :
  exists P', advance 2 test_pool2 = Some (Done P') /\ part_ok (w_self (pool_world P')).
Proof.
  destruct (moves_check 2 test_pool2) as [P1 E]; [by vm_compute|].
  destruct (overlapping_calls_safe false test_pool2 2 (Done P1)) as (P' & E' & Hp & _).
  - apply after_schedule_reachable, test_pool1_reachable.
  - apply in_range_check. by vm_compute.
  - exact E.
  - exists P'. split; [by rewrite <- E'|done].
Defined.

Lemma calls_return_witness : ends_at_rest test_pool1 /\ ~ at_rest test_pool1.
Proof.
  split; [apply (calls_return false), test_pool1_reachable|]. unfold at_rest. rewrite Forall_forall. intros Hall.
  assert (Hin : (PeerUp 5, op_prog (PeerUp 5)) ∈ pool_threads test_pool1) by (apply elem_of_app; left; apply elem_of_app; right; left).
  by specialize (Hall _ Hin).
Defined.

(** Thread 1 moves while thread 2 owns the lock. *)
Definition test_pool4 : Pool Recorder :=
  after_schedule [1; 1; 1; 1; 1; 1; 2; 2; 2]%nat test_pool1.

Lemma mutex_guards_witness :
  exists P', advance 1 test_pool4 = Some (Done P') /\ pool_owner test_pool4 = Some 2%nat /\
    p_peers (w_self (pool_world P')) = [5].
Proof.
  destruct (moves_check 1 test_pool4) as [P' E]; [by vm_compute|].
  exists P'. split; [done|]. split; [by vm_compute|].
  destruct (mutex_guards false test_pool4 1 P') as [_ _ _ _ _ -> _ _ _ _ _ _].
  - apply after_schedule_reachable, test_pool1_reachable.
  - apply in_range_check. by vm_compute.
  - exact E.
  - by vm_compute.
  - by vm_compute.
Defined.

Lemma counts_exact_at_rest_witness :
  exists wr, map_find 100 (p_writers (w_self (pool_world test_pool3))) = Some wr /\ w_matched_count wr = 1 /\
    1 = count_if (SessionSpec.pairs READER (w_topic wr) (w_type wr) (fun q => qos_compatible q (w_qos wr)))
       (SessionSpec.graph_endpoints (w_self (pool_world test_pool3))).
Proof.
  destruct (counts_exact_at_rest test_pool3) as [Hw _].
  - do 2 apply after_schedule_reachable. apply test_pool1_reachable.
  - apply at_rest_check. by vm_compute.
  - destruct (map_find 100 (p_writers (w_self (pool_world test_pool3)))) as [wr|] eqn:E.
    + exists wr. split; [reflexivity|]. rewrite <- (Hw 100 wr E). vm_compute in E. injection E as <-. by split.
    + by vm_compute in E.
Defined.

Lemma undisturbed_call_witness :
  exists w', run_op (PeerUp 7) test_world = Done (tt, w') /\
    rtc moves_to (spawn (PeerUp 7) (mkPool test_world None [])) (mkPool w' None [(PeerUp 7, Ret tt)]).
Proof.
  assert (Hp : part_ok (w_self test_world)) by apply (reachable_ok false _ (test_world_reachable false)).
  destruct (participant_safe_run test_world (PeerUp 7)) as [w' E]; [apply test_world_reachable|done|].
  exists w'. split; [exact E|]. exact (undisturbed_call (PeerUp 7) test_world w' [] Hp E).
Defined.
End ThreadSafeSpec.
