(* ===== verification/Races.v ===== *)
(** * What goes wrong when calls overlap

    Schedules, run step by step, of calls that [ThreadSafe] does not allow together, or
    whose order the code leaves open: an entity destroyed while another thread still holds
    its address, publication times that do not follow the numbers, samples that reach a
    local reader in another order than they were numbered. *)

From S2P Require Import Prelude Memory StdMap Guid Qos Frame Fragment Reassembler ReaderImpl WriterImpl Reliability Discovery Participant ParticipantFacts Matching Session Locked Interleave ThreadSafe.

(** ** Scenarios *)

(** The moves of the threads in the schedule, whatever they lead to. *)
Fixpoint play {T} `{Transport T} (sched : list nat) (P : Pool T) : option (res (Pool T)) :=
  match sched with
  | [] => Some (Done P)
  | i :: sched =>
      match advance i P with
      | Some (Done P') => play sched P'
      | r => r
      end
  end.

(** A clock that moves on with every reading. *)
Definition ticking (n : nat) : Z := u64 (Z.of_nat n * 1000).

Definition race_world (ops : list Op) : World Recorder :=
  match run_ops ops (new_world test_prefix [mkRecorder 1000 []] None ticking ticking) with
  | Done (_, w) => w
  | _ => test_world
  end.

Definition in_flight (w : World Recorder) (ops : list Op) : Pool Recorder :=
  mkPool w None ((fun op => (op, op_prog op)) <$> ops).

(** A remote writer, its announcement and its first sample. *)
Definition remote_writer : Guid := make_guid (replicate 12 9) WRITER 1.
Definition writer_announce : list Z :=
  match encode_announce (mkSnapshot (make_guid (replicate 12 9) PARTICIPANT 0) []
      [mkEndpoint remote_writer WRITER [116] [105] preset_default 3]) 1 with
  | Done f => f
  | _ => []
  end.
Definition writer_data : list Z :=
  match encode_data remote_writer 1 0 (Some [65]) 1 kFlagReliable None with Done f => f | _ => [] end.

Definition reader_ops : list Op :=
  [CreateReader 200 [116] [105] preset_default false; PeerUp 5; Receive 5 writer_announce].

(** The receiving thread has queued the sample and released the lock. *)
Definition delivering : list nat := [0; 0; 0; 0; 0; 0]%nat.
(** The application destroys the reader, and its call returns. *)
Definition destroying : list nat := [1; 1; 1; 1; 1; 1]%nat.

Definition local_ops : list Op :=
  [CreateWriter 100 [116] [105] preset_default; CreateReader 200 [116] [105] preset_default false].

(** Two threads publish on one writer, with a local reader. *)
Definition shared0 : Pool Recorder :=
  after_schedule (replicate 8 0%nat) (spawn (CreateWriter 100 [116] [105] preset_default)
    (mkPool (new_world test_prefix [mkRecorder 1000 []] None ticking ticking) None [])).
Definition shared1 : Pool Recorder :=
  after_schedule (replicate 9 1%nat) (spawn (CreateReader 200 [116] [105] preset_default false) shared0).
Definition shared_pool : Pool Recorder :=
  spawn (Write 100 (Some [66]) 1) (spawn (Write 100 (Some [65]) 1) shared1).

(** The first thread reads its clock, the second one publishes, then the first one. *)
Definition overtaking : list nat := [2; 2; 3; 3; 3; 3; 3; 3; 3; 3; 2; 2; 2; 2; 2; 2]%nat.
(** The first thread claims its number, the second one publishes and delivers, then the
    first one delivers. *)
Definition reordering : list nat := [2; 2; 2; 2; 2; 3; 3; 3; 3; 3; 3; 3; 3; 2; 2; 2]%nat.

(** A byte to publish, on a writer with room for one more sample. *)
Definition may_write (p : ParticipantImpl) (ptr : Z) : bool :=
  match map_find ptr (p_writers p) with Some wr => w_seq wr + 1 <? 2 ^ 64 | None => false end.

Lemma write_pre p ptr b : may_write p ptr = true -> fits 8 b -> op_pre (Write ptr (Some [b]) 1) p.
Proof.
  unfold may_write. destruct (map_find ptr (p_writers p)) as [wr|] eqn:E; [|done]. intros Hlt Hb. zbool.
  exists wr. split_and!; [done|done|by apply Forall_singleton|done..].
Qed.

Lemma shared_pool_reachable stable : pool_reachable stable shared_pool.
Proof.
  apply spawn_beside.
  - apply after_schedule_reachable, spawn_at_rest.
    + apply after_schedule_reachable, spawn_at_rest; [|by apply Forall_nil|split_and!; by vm_compute].
      apply pool_new; [done|apply Forall_replicate; ulia|intros n; apply wrap_fits; lia].
    + apply at_rest_check. by vm_compute.
    + split_and!; by vm_compute.
  - apply at_rest_check. by vm_compute.
  - apply write_pre; [by vm_compute|ulia].
  - apply write_pre; [by vm_compute|ulia].
  - intros ptr. by split_and!.
Qed.

Module RacesSpec.

(** A reader destroyed while a frame is being delivered: [deliver_sample] has released the
    lock and is about to call [fire_callback] on the reader [destroy_reader] has just
    deleted. *)
Theorem destroy_races_delivery :
  play (delivering ++ destroying ++ [0%nat])
    (in_flight (race_world reader_ops) [Receive 5 writer_data; DestroyReader 200]) = Some UB.
Proof. by vm_compute. Qed.

(** A reader destroyed while a local writer publishes: [write_sample] has collected the
    reader's address under the lock and enqueues into the deleted reader. *)
Theorem destroy_races_write :
  play ([0; 0; 0; 0; 0] ++ destroying ++ [0])%nat
    (in_flight (race_world local_ops) [Write 100 (Some [65]) 1; DestroyReader 200]) = Some UB.
Proof. by vm_compute. Qed.

(** Publication times do not follow the numbers: two threads publish on one writer, and
    the one that read the clock first claims the second number.  A volatile reader born
    between the two readings that asks for both is sent number 1 and told in the same
    answer that 1 and 2 will never come. *)
Theorem publication_times_overtake :
  exists P, pool_reachable false P /\ at_rest P /\
    (fun wr => (fun e => (cs_seq e, cs_pub_time_us e)) <$> w_history wr) <$>
      map_find 100 (p_writers (w_self (pool_world P))) = Some [(1, 3000); (2, 2000)] /\
    (fun wr => let (resend, unavail_end) := acknack_scan wr true 2500 1 0 in (cs_seq <$> resend, unavail_end)) <$>
      map_find 100 (p_writers (w_self (pool_world P))) = Some ([1], 2).
Proof.
  exists (after_schedule overtaking shared_pool).
  split; [apply after_schedule_reachable, shared_pool_reachable|].
  split; [apply at_rest_check; by vm_compute|]. split; by vm_compute.
Qed.

(** Samples of one writer reach a local reader in the order of the threads, not of their
    numbers. *)
Theorem local_delivery_reorders :
  exists P, pool_reachable false P /\ at_rest P /\
    (fun r => (fun s => (mi_seq (qs_info s), qs_data s)) <$> r_queue r) <$>
      map_find 200 (p_readers (w_self (pool_world P))) = Some [(2, [66]); (1, [65])].
Proof.
  exists (after_schedule reordering shared_pool).
  split; [apply after_schedule_reachable, shared_pool_reachable|].
  split; [apply at_rest_check; by vm_compute|]. by vm_compute.
Qed.
End RacesSpec.
