(* ===== verification/DataPath.v ===== *)
(** * The data path

    What [deliver_sample] does to the readers, and that a sample sent as DATA or
    DATA_FRAG frames reaches every matched reader of the receiving participant
    exactly once, in whatever order its frames arrive. *)

From S2P Require Import Prelude Memory StdMap Guid Qos Frame Fragment Reassembler ReaderImpl WriterImpl Reliability Discovery Participant ParticipantFacts Matching Session.

(** ** Delivery to the readers *)

Section deliver.
Context {T : Type} `{Transport T}.
Implicit Types w : World T.

Lemma runs_for_each_app {A} (P : unit -> World T -> Prop) (l k : list A) (f : A -> act T unit) w :
  runs P (_ ← for_each l f; for_each k f) w -> runs P (for_each (l ++ k) f) w.
Proof.
  unfold runs. intros Hr. cut (for_each (l ++ k) f w = (_ ← for_each l f; for_each k f) w); [by intros ->|].
  clear Hr. revert w. induction l as [|a l IH]; intros w; [done|]. cbn [for_each app].
  unfold mbind, act_bind in *. destruct (f a w) as [[[] w1]| |]; [apply IH|done..].
Qed.

(** Same tables, nothing broken. *)
Definition same_self w w' : Prop := world_ok w' /\ w_self w' = w_self w.

Lemma same_self_trans w w1 w2 : same_self w w1 -> same_self w1 w2 -> same_self w w2.
Proof. intros [_ E] [? E']. split; [done|congruence]. Qed.

Lemma sent_same_self w w' : world_ok w -> sent_only w w' -> same_self w w'.
Proof. intros Hw Hs. split; [by eapply (steps_ok (strict := true)), sent_only_steps|apply Hs]. Qed.

Lemma runs_for_each_self {A} (l : list A) (f : A -> act T unit) w :
  world_ok w ->
  (forall a w1, a ∈ l -> same_self w w1 -> runs (fun _ w2 => same_self w1 w2) (f a) w1) ->
  runs (fun _ w' => same_self w w') (for_each l f) w.
Proof.
  revert w. induction l as [|a l IH]; intros w Hw Hf; cbn [for_each]; [by apply runs_ret|].
  eapply runs_bind; [apply Hf; [left|done]|]. intros u w1 Hs1. cbv beta.
  eapply runs_mono; [apply IH; [apply Hs1|]|].
  - intros a' w2 Ha Hs2. apply Hf; [by right|exact (same_self_trans _ _ _ Hs1 Hs2)].
  - intros u' w2. by apply same_self_trans.
Qed.

Context (g : Guid) (seq pub : Z) (data : list Z) (wq : QosProfile).

(** [r'] is [r] after one [enqueue] of the sample. *)
Definition enqueued (r r' : ReaderImpl) : Prop :=
  exists n1 n2, r' = fst (enqueue r n1 n2 g seq data wq pub).

(** The loop over the matched readers. *)
Lemma runs_enqueue_all l w :
  world_ok w -> fits 64 seq -> NoDup l.*1 ->
  (forall kv, kv ∈ l -> map_find kv.1 (p_readers (w_self w)) = Some kv.2) ->
  runs (fun outs w' => world_ok w' /\
      (exists rs, w_self w' = set_readers (w_self w) rs /\
        (forall kv, kv ∈ l -> exists r', map_find kv.1 rs = Some r' /\ enqueued kv.2 r') /\
        (forall ptr, (ptr ∉ l.*1) -> map_find ptr rs = map_find ptr (p_readers (w_self w)))) /\
      Forall2 (delivered (w_self w)) l outs)
    (mapM (fun kv : Z * ReaderImpl =>
       out ← enqueue_at kv.1 g seq data wq pub; mret (kv.1, r_guid kv.2, out)) l) w.
Proof.
  intros Hw Hseq. revert w Hw. induction l as [|[ptr r] l IH]; intros w Hw Hnd Hl; cbn [mapM].
  { split; [done|]. split; [|constructor]. exists (p_readers (w_self w)).
    split; [by destruct (w_self w)|]. split; [by intros ? ?%not_elem_of_nil|done]. }
  apply NoDup_cons in Hnd as [Hnin Hnd]. pose proof (Hl (ptr, r) ltac:(by left)) as Hr. simpl in Hr, Hnin.
  eapply runs_bind.
  { eapply runs_bind; [by apply (runs_enqueue_at (strict := true) ptr r)|].
    intros out w1 Hout. apply (runs_ret (fun o w1 => o.1 = (ptr, r_guid r) /\ world_ok w1 /\ gap_request_ok o.2 /\
      exists r', enqueued r r' /\ w_self w1 = set_readers (w_self w) (map_set ptr r' (p_readers (w_self w))))).
    destruct Hout as (Hs & Hreq & n1 & n2 & E & _). split_and!; [done|by eapply (steps_ok (strict := true))|done|].
    eexists. split; [by exists n1, n2|done]. }
  intros o w1 (Eo & Hw1 & Hreq & r' & Hr' & E1). cbv beta. eapply runs_bind; [apply IH; [done|done|]|].
  { intros kv Hkv. rewrite E1. simpl. rewrite map_find_set_ne; [by apply Hl; right|].
    intros <-. apply Hnin. by apply list_elem_of_fmap_2. }
  intros outs w2 (Hw2 & (rs & E2 & Hin & Hout) & Hall). apply runs_ret. split; [done|]. split.
  - exists rs. rewrite E2, E1. split; [done|]. rewrite E1 in Hout. simpl in Hout. split.
    + intros kv [-> |Hkv]%elem_of_cons; [|by apply Hin]. simpl. exists r'. split; [|done].
      rewrite Hout by done. apply map_find_set_eq.
    + intros ptr' Hn. apply not_elem_of_cons in Hn as [Hne Hn].
      rewrite Hout by done. by apply map_find_set_ne.
  - constructor; [|done]. split_and!; [by rewrite Eo| |done]. rewrite Eo. simpl.
    by apply (po_readers _ (proj1 Hw) ptr).
Qed.

(** Every reader of the table, after a delivery from the writer endpoint [ep]. *)
Definition delivered_all (ep : EndpointRecord) (p p' : ParticipantImpl) : Prop :=
  forall ptr r, map_find ptr (p_readers p) = Some r ->
    exists r', map_find ptr (p_readers p') = Some r' /\
      if endpoints_match (r_topic r) (r_type r) (r_qos r) ep then enqueued r r' else r' = r.
End deliver.

Section deliver_sample.
Context {T : Type} `{Transport T}.
Implicit Types w : World T.

Lemma runs_fire_callback_self ptr r w :
  world_ok w -> map_find ptr (p_readers (w_self w)) = Some r ->
  runs (fun _ w' => same_self w w') (fire_callback ptr) w.
Proof.
  intros Hw Hr. unfold fire_callback. apply runs_self_bind. rewrite Hr. by case_if.
Qed.

Lemma runs_deliver_exact peer g seq pub data ep w :
  world_ok w -> guid_ok g -> fits 64 seq -> find_remote_endpoint_locked (w_self w) g = Some ep ->
  runs (fun _ w' => world_ok w' /\ delivered_all g seq pub data (ep_qos ep) ep (w_self w) (w_self w'))
    (deliver_sample peer g seq pub data) w.
Proof.
  intros Hw Hg Hseq Hep. unfold deliver_sample.
  eapply runs_bind; [by apply (runs_tick (strict := true))|]. intros now w1 (Hs1 & _ & E1). cbv beta.
  apply runs_modify_bind, runs_self_bind. apply steps_ok in Hs1 as Hw1.
  set (w2 := with_self _ w1). assert (Hw2 : world_ok w2).
  { eapply (steps_ok (strict := true)), steps_set_last_seen, Hw1. }
  assert (Er : p_readers (w_self w2) = p_readers (w_self w)) by (simpl; by rewrite E1).
  assert (Hep2 : find_remote_endpoint_locked (w_self w2) g = Some ep).
  { unfold find_remote_endpoint_locked, remote_endpoints in *. simpl. by rewrite E1. }
  rewrite Hep2. set (matched := filter _ (p_readers (w_self w2))).
  assert (Hmatched : forall kv, kv ∈ matched -> map_find kv.1 (p_readers (w_self w2)) = Some kv.2).
  { intros kv [_ Hin]%list_elem_of_filter. apply entry_find; [apply Hw2|done]. }
  assert (Hnd : NoDup matched.*1).
  { eapply sublist_NoDup; [apply (map_keys_NoDup _ (po_readers_map _ (proj1 Hw2)))|].
    apply sublist_fmap, sublist_filter. }
  eapply runs_bind; [by apply runs_enqueue_all|]. intros outs w3 (Hw3 & (rs & E3 & Hin & Hout) & Hall).
  cbv beta. eapply runs_bind.
  { apply runs_for_each_self; [done|]. intros o w4 Ho Hs4. case_if; [|by apply runs_ret; split; [apply Hs4|]].
    destruct (Forall2_in_r _ _ _ _ Hall Ho) as (kv & Hkv & _ & Hg' & Hb & Hm).
    eapply runs_bind; [by eapply (runs_encoded (fun f w' => w' = w4)); [apply encode_acknack_bytes|]|].
    intros f w5 ->. eapply runs_bind; [apply (runs_send_frame (strict := true)), Hs4|].
    intros ok w5 [_ Hsent]. apply runs_ret. apply sent_same_self; [apply Hs4|done]. }
  intros [] w4 [Hw4 E4]. cbv beta. eapply runs_mono; [apply runs_for_each_self; [done|]|].
  { intros o w5 Ho [Hw5 E5]. case_if; [|by apply runs_ret].
    destruct (Forall2_in_r _ _ _ _ Hall Ho) as (kv & Hkv & -> & _).
    destruct (Hin kv Hkv) as (r' & Hr' & _).
    apply (runs_fire_callback_self kv.1 r'); [done|]. by rewrite E5, E4, E3. }
  intros [] w5 [Hw5 E5]. split; [done|]. intros ptr r Hr. rewrite E5, E4, E3. simpl. rewrite <- Er in Hr.
  case_if.
  - destruct (Hin (ptr, r)) as (r' & Hr' & Henq); [|by exists r'].
    apply list_elem_of_filter. split; [done|]. by apply map_find_In.
  - exists r. split; [|done]. rewrite Hout; [done|]. intros (kv & -> & Hkv)%list_elem_of_fmap.
    pose proof (Hmatched _ Hkv) as Hkv'. rewrite Hr in Hkv'. injection Hkv' as ->.
    apply list_elem_of_filter in Hkv as [Hm _]. congruence.
Qed.
End deliver_sample.

(** ** Frames *)

Lemma decode_data_header f b :
  decode_data f = Done b -> exists h, decode_header f = Done h /\ hdr_type h = DATA.
Proof.
  unfold decode_data. intros E. apply bind_Done_inv in E as (h & Eh & E). exists h. split; [done|].
  revert E. destruct (decide (hdr_type h = DATA)) as [Ht|Ht]; [done|]. by rewrite bool_decide_false.
Qed.

Lemma decode_data_frag_header f b :
  decode_data_frag f = Done b -> exists h, decode_header f = Done h /\ hdr_type h = DATA_FRAG.
Proof.
  unfold decode_data_frag. intros E. apply bind_Done_inv in E as (h & Eh & E). exists h. split; [done|].
  revert E. destruct (decide (hdr_type h = DATA_FRAG)) as [Ht|Ht]; [done|]. by rewrite bool_decide_false.
Qed.

Section frames.
Context {T : Type} `{Transport T}.
Implicit Types w : World T.

Lemma runs_decoded_done {A B} (P : B -> World T -> Prop) (r : res A) a k w :
  r = Done a -> runs P (k (Some a)) w -> runs P (decoded r ≫= k) w.
Proof. by intros ->. Qed.

(** What [handle_bytes] does with a frame that decodes as DATA or as DATA_FRAG. *)
Lemma handle_data_frame (P : unit -> World T -> Prop) peer f b w :
  decode_data f = Done b ->
  runs P (deliver_sample peer (data_writer b) (data_seq b) (data_pub_time_ms b) (data_payload b)) w ->
  runs P (handle_bytes peer f) w.
Proof.
  intros E Hd. destruct (decode_data_header _ _ E) as (h & Eh & Ht). unfold handle_bytes.
  apply (runs_decoded_done _ _ _ _ _ Eh). rewrite Ht. by apply (runs_decoded_done _ _ _ _ _ E).
Qed.

Lemma handle_frag_frame (P : unit -> World T -> Prop) peer f b w :
  decode_data_frag f = Done b ->
  runs P (full ← reassemble peer b;
          match full with
          | None => mret tt
          | Some data => deliver_sample peer (frag_writer b) (frag_seq b) (frag_pub_time_ms b) data
          end) w ->
  runs P (handle_bytes peer f) w.
Proof.
  intros E Hd. destruct (decode_data_frag_header _ _ E) as (h & Eh & Ht). unfold handle_bytes.
  apply (runs_decoded_done _ _ _ _ _ Eh). rewrite Ht. by apply (runs_decoded_done _ _ _ _ _ E).
Qed.

Definition reassembler_of (peer : PeerId) w : Reassembler :=
  default new_reassembler (map_find peer (p_reassemblers (w_self w))).

Lemma reassembler_of_ok peer w : world_ok w -> reasm_ok (reassembler_of peer w).
Proof.
  intros Hw. unfold reassembler_of. destruct (map_find peer _) as [r|] eqn:E; simpl; [|done].
  by apply (po_reassemblers _ (proj1 Hw) peer).
Qed.

(** Only a reassembler changes: the other tables are as in [w]. *)
Definition only_reassemblers w w' : Prop :=
  world_ok w' /\ exists m, w_self w' = set_reassemblers (w_self w) m.

Lemma only_reassemblers_trans w w1 w2 :
  only_reassemblers w w1 -> only_reassemblers w1 w2 -> only_reassemblers w w2.
Proof. intros [_ [m E]] [Hw [m' E']]. split; [done|]. exists m'. by rewrite E', E. Qed.

Section sample.
Context (peer : PeerId) (g : Guid) (seq pub : Z) (p : list Z) (bs : list DataFragBody).
Context (Hg : guid_ok g) (Hseq : fits 64 seq) (Hpub : fits 64 pub).
Context (Hp : bytes_ok p) (Hp' : fits 32 (len p)) (Hne : p <> []).
Context (Ht : tiles 0 p bs) (Hof : Forall (frag_of g seq pub (len p)) bs).

(** One fragment of the sample, given those received before. *)
Lemma runs_one_fragment b got w :
  world_ok w -> b ∈ bs -> key_inv (reassembler_of peer w) (g, seq) p got ->
  runs (fun o w' => only_reassemblers w w' /\
      if decide (o = Some p) then full p (got ++ [b])
      else o = None /\ ~ full p (got ++ [b]) /\ key_inv (reassembler_of peer w') (g, seq) p (got ++ [b]))
    (reassemble peer b) w.
Proof.
  intros Hw Hb Hinv. destruct (tile_ok g seq pub p bs Hg Hseq Hpub Hp Hp' Ht Hof b Hb) as (Hok & Hk & Hm).
  eapply runs_mono; [by apply (runs_reassemble (strict := true))|].
  intros o w' (Hs & r' & n1 & n2 & E & Eself). fold (reassembler_of peer w) in E.
  destruct (add_fragment_step (reassembler_of peer w) n1 n2 (g, seq) p got b
    (reassembler_of_ok peer w Hw) Hok Hk Hm Hne Hinv) as (r1 & [(Hf & E1 & _)|(Hnf & E1 & Hinv1)]);
    rewrite E in E1; injection E1 as -> ->.
  - split; [split; [by eapply (steps_ok (strict := true))|by eexists]|]. by rewrite decide_True.
  - split; [split; [by eapply (steps_ok (strict := true))|by eexists]|]. rewrite decide_False by done.
    split_and!; [done..|]. unfold reassembler_of. rewrite Eself. simpl. by rewrite map_find_set_eq.
Qed.

(** While bytes are missing no reader changes. *)
Lemma runs_fragments fs cs got w :
  world_ok w -> Forall2 (fun f b => decode_data_frag f = Done b) fs cs ->
  (forall b, b ∈ cs -> b ∈ bs) -> key_inv (reassembler_of peer w) (g, seq) p got ->
  ~ full p (got ++ cs) ->
  runs (fun _ w' => only_reassemblers w w' /\ key_inv (reassembler_of peer w') (g, seq) p (got ++ cs))
    (for_each fs (handle_bytes peer)) w.
Proof.
  intros Hw Hd. revert got w Hw. induction Hd as [|f b fs cs Hfb Hd IH]; intros got w Hw Hin Hinv Hnf; cbn [for_each].
  { apply runs_ret. rewrite app_nil_r. split; [|done]. split; [done|].
    exists (p_reassemblers (w_self w)). by destruct (w_self w). }
  rewrite (cons_middle b got), app_assoc in Hnf |- *.
  eapply (runs_bind (fun _ w1 => only_reassemblers w w1 /\ key_inv (reassembler_of peer w1) (g, seq) p (got ++ [b]))).
  - apply (handle_frag_frame _ _ _ _ _ Hfb). eapply runs_bind; [apply runs_one_fragment; [done|apply Hin; left|done]|].
    intros o w1 [Ho Hcase]. revert Hcase. destruct (decide (o = Some p)).
    + intros Hf. exfalso. by apply Hnf, full_mono.
    + intros (-> & _ & Hk). by apply runs_ret.
  - intros [] w1 [Ho Hk]. eapply runs_mono; [apply IH; [apply Ho|intros b' ?; apply Hin; by right|done|done]|].
    intros [] w2 [Ho2 Hk2]. split; [by eapply only_reassemblers_trans|done].
Qed.

(** The fragments in any order: exactly one delivery, with the last of them. *)
Lemma runs_all_fragments fs cs ep w :
  world_ok w -> map_find (g, seq) (partials (reassembler_of peer w)) = None ->
  find_remote_endpoint_locked (w_self w) g = Some ep ->
  Forall2 (fun f b => decode_data_frag f = Done b) fs cs -> cs ≡ₚ bs ->
  runs (fun _ w' => world_ok w' /\ delivered_all g seq pub p (ep_qos ep) ep (w_self w) (w_self w'))
    (for_each fs (handle_bytes peer)) w.
Proof.
  intros Hw Hnone Hep Hd HP.
  destruct cs as [|b cs _] using rev_ind.
  { apply Permutation_nil_l in HP. subst bs. by simpl in Ht. }
  apply Forall2_app_inv_r in Hd as (fs1 & fs2 & Hd1 & Hd2 & ->).
  inversion Hd2 as [|f ? l ? Hfb Hd3]; subst. inversion Hd3; subst. clear Hd2 Hd3.
  assert (Hin : forall c, c ∈ cs -> c ∈ bs) by (intros c Hc; rewrite <- HP; apply elem_of_app; by left).
  assert (Hb : b ∈ bs) by (rewrite <- HP; apply elem_of_app; right; by left).
  symmetry in HP. apply Permutation_snoc_split in HP as (l1 & l2 & El & HP).
  assert (Hnf : ~ full p cs).
  { intros Hf. destruct (tiles_range _ _ _ _ Ht Hb) as (? & ? & ?).
    specialize (Hf (frag_offset b)). unfold hit in Hf. rewrite HP in Hf. rewrite El in Ht.
    apply (tiles_disjoint _ _ _ _ _ Ht), Hf. lia. }
  assert (Hfull : full p (cs ++ [b])).
  { intros x Hx. unfold hit. rewrite HP. pose proof (tiles_full _ _ _ x Ht ltac:(lia)) as Hh.
    rewrite El in Hh. unfold hit in Hh. rewrite <- Permutation_middle in Hh.
    rewrite Exists_app. rewrite Exists_cons in Hh. rewrite Exists_cons, Exists_nil. tauto. }
  apply runs_for_each_app. eapply runs_bind.
  { apply (runs_fragments fs1 cs []); try done. unfold key_inv. by rewrite Hnone. }
  intros [] w1 [[Hw1 [m E1]] Hinv]. simpl in Hinv. cbv beta. cbn [for_each].
  apply (runs_bind (fun _ w2 => world_ok w2 /\ delivered_all g seq pub p (ep_qos ep) ep (w_self w) (w_self w2)));
    [|done]. apply (handle_frag_frame _ _ _ _ _ Hfb). eapply runs_bind; [by apply (runs_one_fragment b cs)|].
  intros o w2 [[Hw2 [m2 E2]] Hcase]. revert Hcase. destruct (decide (o = Some p)) as [->|]; [|by intros (_ & ? & _)].
  intros _. rewrite Forall_forall in Hof. destruct (Hof _ Hb) as (-> & -> & -> & _).
  eapply runs_mono; [apply (runs_deliver_exact peer g seq pub p ep); try done; by rewrite E2, E1|].
  intros [] w3 [Hw3 Hdel]. rewrite E2, E1 in Hdel. by split.
Qed.
End sample.
End frames.

(** ** A whole sample *)

(** Frames in any order decode to bodies in that order. *)
Lemma decodes_permuted fs bs fs' :
  Forall2 decodes_frag fs bs -> fs' ≡ₚ fs ->
  exists cs, cs ≡ₚ bs /\ Forall2 (fun f b => decode_data_frag f = Done b) fs' cs.
Proof.
  intros Hd HP. symmetry in HP. destruct (Permutation_Forall2 HP Hd) as (cs & HPc & Hd').
  exists cs. split; [by symmetry|]. eapply Forall2_impl; [exact Hd'|]. intros f b Hf.
  specialize (Hf []). by rewrite app_nil_r in Hf.
Qed.

Lemma runs_sample_frames {T} `{Transport T} peer g seq pub flags max_payload data fs fs' ep (w : World T) :
  world_ok w -> guid_ok g -> fits 64 seq -> fits 64 pub -> fits 16 flags -> bytes_ok data ->
  64 + len data < 2 ^ 32 ->
  fragment g seq pub (Some data) (len data) max_payload flags = Done fs -> fs <> [] -> fs' ≡ₚ fs ->
  find_remote_endpoint_locked (w_self w) g = Some ep ->
  map_find (g, seq) (partials (reassembler_of peer w)) = None ->
  runs (fun _ w' => world_ok w' /\ delivered_all g seq pub data (ep_qos ep) ep (w_self w) (w_self w'))
    (for_each fs' (handle_bytes peer)) w.
Proof.
  intros Hw Hg Hseq Hpub Hf Hd Hl Hfs Hne HP Hep Hnone.
  destruct (Z.le_gt_cases (48 + len data) max_payload) as [Hmax|Hmax].
  - rewrite (fragment_single g seq pub flags max_payload data) in Hfs by done. injection Hfs as <-.
    apply Permutation_singleton_r in HP as ->. cbn [for_each].
    apply (runs_bind (fun _ w' => world_ok w' /\ delivered_all g seq pub data (ep_qos ep) ep (w_self w) (w_self w')));
      [|done].
    pose proof (decode_data_bytes g seq pub data flags None [] Hg Hseq Hpub Hl Hf I) as Hdec.
    rewrite app_nil_r in Hdec. apply (handle_data_frame _ _ _ _ _ Hdec). by apply runs_deliver_exact.
  - destruct (Z.le_gt_cases max_payload 56) as [Hn|Hn].
    { rewrite (fragment_too_narrow g seq pub flags max_payload data) in Hfs by done. congruence. }
    destruct (fragment_many g seq pub flags max_payload data Hg Hseq Hpub Hf Hl Hn Hmax)
      as (fs0 & bs & E & HF & HT & HA & _).
    rewrite E in Hfs. injection Hfs as ->.
    destruct (decodes_permuted _ _ _ HF HP) as (cs & HPc & Hdc).
    apply (runs_all_fragments peer g seq pub data bs Hg Hseq Hpub Hd) with (cs := cs); try done; [ulia|].
    intros ->. simpl in *. lia.
Qed.

(** A new sample of unlimited lifespan goes to the end of the queue. *)
Lemma enqueue_fresh_last r n1 n2 g seq data wq pub :
  reader_ok r -> fits 64 seq -> ~ seen (rx_of r g) seq -> lifespan_ms wq = 0 ->
  last (r_queue (fst (enqueue r n1 n2 g seq data wq pub))) = Some (mkSample data (mkInfo g seq pub) 0).
Proof.
  intros Hr Hseq Hns Hl. unfold enqueue. set (both := bool_decide _ && bool_decide _).
  change (default rx_init (map_find g (r_rx r))) with (rx_of r g).
  rewrite (rx_receive_new both (rx_of r g) seq (Hr g) Hseq), bool_decide_true by done. cbn [negb].
  rewrite Hl. unfold lifespan_expired at 1. simpl Z.ltb. cbn [andb].
  set (s := mkSample _ _ _). set (q' := if bool_decide _ then _ else _).
  assert (Hq' : exists l, q' = l ++ [s]).
  { unfold q'. case_if; [|by eexists]. rewrite trim_front_drop by lia. rewrite drop_app_le; [by eexists|].
    rewrite length_app. simpl. lia. }
  destruct Hq' as [l ->]. simpl. unfold sweep_expired_locked. rewrite filter_app, filter_cons_True by done.
  rewrite filter_nil. by rewrite last_snoc.
Qed.
