(* ===== verification/Publish.v ===== *)
(** * Publishing

    What [write_sample] hands to the transports, for transports whose sends are
    observable, and the path of a sample from one participant's writer to another
    participant's reader. *)

From S2P Require Import Prelude Memory StdMap Guid Qos Frame Fragment Reassembler ReaderImpl WriterImpl Reliability Discovery Participant ParticipantFacts Matching Session DataPath.

(** ** Observable transports

    The frames handed over so far, to whom and in which order; a send adds one and
    does not change what the peers accept. *)

Class LoggedTransport (T : Type) `{Transport T} := {
  sent_log : T -> list (PeerId * list Z);
  sent_log_send t peer f : sent_log (fst (transport_send t peer f)) = sent_log t ++ [(peer, f)];
  max_payload_send t peer f q :
    transport_max_payload (fst (transport_send t peer f)) q = transport_max_payload t q;
}.

#[global] Instance recorder_logged : LoggedTransport Recorder.
Proof. by refine {| sent_log := rec_sent |}. Defined.

Section publish.
Context {T : Type} `{LoggedTransport T}.
Implicit Types w : World T.

Definition peer_index (peer : PeerId) : nat := Z.to_nat (peer_transport_index peer).

(** What transport [i] was handed, and what [peer] accepts. *)
Definition log w (i : nat) : list (PeerId * list Z) := from_option sent_log [] (w_transports w !! i).
Definition limit w (peer : PeerId) : Z :=
  from_option (fun t => transport_max_payload t (peer_backend_id peer)) 0 (w_transports w !! peer_index peer).

(** The part of a list of (peer, frame) that goes through transport [i]. *)
Definition through (i : nat) (l : list (PeerId * list Z)) : list (PeerId * list Z) :=
  (fun pf => (peer_backend_id pf.1, pf.2)) <$> filter (fun pf => peer_index pf.1 = i) l.

Lemma through_app i l k : through i (l ++ k) = through i l ++ through i k.
Proof. unfold through. by rewrite filter_app, fmap_app. Qed.

(** A transport after it was handed the frames [l]; those of them it did not refuse. *)
Definition sends (t : T) (l : list (PeerId * list Z)) : T :=
  foldl (fun t pf => fst (transport_send t pf.1 pf.2)) t l.
Fixpoint taken (t : T) (l : list (PeerId * list Z)) : list (PeerId * list Z) :=
  match l with
  | [] => []
  | pf :: l => let (t', ok) := transport_send t pf.1 pf.2 in (if ok then [pf] else []) ++ taken t' l
  end.

Lemma sends_app t l k : sends t (l ++ k) = sends (sends t l) k.
Proof. apply foldl_app. Qed.

Lemma taken_in t l1 pf l2 :
  snd (transport_send (sends t l1) pf.1 pf.2) = true -> pf ∈ taken t (l1 ++ pf :: l2).
Proof.
  revert t. induction l1 as [|pf1 l1 IH]; intros t; simpl; destruct (transport_send t _ _) as [t' ok] eqn:E; simpl.
  - intros ->. left.
  - intros Hok. apply elem_of_app. right. by apply IH.
Qed.

(** From [w] to [w'] exactly the frames [l] were handed over, in this order. *)
Record handed w w' (l : list (PeerId * list Z)) : Prop := {
  hd_log i : log w' i = log w i ++ through i l;
  hd_sends i : w_transports w' !! i = (fun t => sends t (through i l)) <$> w_transports w !! i;
  hd_limit peer : limit w' peer = limit w peer;
  hd_hook : w_hook w' = w_hook w;
  hd_count : length (w_transports w') = length (w_transports w);
}.

Lemma handed_trans w w1 w2 l k : handed w w1 l -> handed w1 w2 k -> handed w w2 (l ++ k).
Proof.
  intros [L1 S1 M1 K1 N1] [L2 S2 M2 K2 N2]. split; [| |congruence..]; intros i.
  - by rewrite L2, L1, through_app, app_assoc.
  - rewrite S2, S1, through_app. destruct (w_transports w !! i); [|done]. simpl. by rewrite sends_app.
Qed.

Lemma handed_kept w w' : w_transports w' = w_transports w -> w_hook w' = w_hook w -> handed w w' [].
Proof.
  intros E Eh. split; [|intros i; rewrite E; by destruct (w_transports w !! i)|unfold limit; by rewrite E|done|by rewrite E].
  intros i. unfold log. by rewrite E, app_nil_r.
Qed.

Lemma runs_send_frame_log peer f w :
  w_hook w = None -> is_Some (w_transports w !! peer_index peer) ->
  runs (fun _ w' => handed w w' [(peer, f)] /\ sent_only w w') (send_frame peer f) w.
Proof.
  intros Hh [t Ht]. unfold runs, send_frame. rewrite Hh. fold (peer_index peer). rewrite Ht.
  pose proof (sent_log_send t (peer_backend_id peer) f) as Hlog.
  pose proof (max_payload_send t (peer_backend_id peer) f) as Hmax.
  destruct (transport_send t _ _) as [t' ok] eqn:Esend. simpl in Hlog, Hmax.
  apply (runs_ret (fun _ w' => handed w w' [(peer, f)] /\ sent_only w w') ok). split; [|done].
  assert (Hlt : (peer_index peer < length (w_transports w))%nat) by (by eapply lookup_lt_Some).
  split; cbn [w_transports w_hook]; [| | |done|apply length_insert].
  - intros i. unfold log. cbn [w_transports]. unfold through. destruct (decide (peer_index peer = i)) as [<-|Hne].
    + rewrite list_lookup_insert_eq, filter_cons_True, Ht by done. exact Hlog.
    + rewrite list_lookup_insert_ne, filter_cons_False by done. by rewrite filter_nil, app_nil_r.
  - intros i. unfold through. destruct (decide (peer_index peer = i)) as [<-|Hne].
    + rewrite list_lookup_insert_eq, filter_cons_True, Ht by done. simpl. by rewrite Esend.
    + rewrite list_lookup_insert_ne, filter_cons_False by done. rewrite filter_nil. simpl. by destruct (w_transports w !! i).
  - intros peer'. unfold limit. cbn [w_transports]. destruct (decide (peer_index peer = peer_index peer')) as [E|Hne].
    + rewrite <- E, list_lookup_insert_eq, Ht by done. cbn. apply Hmax.
    + by rewrite list_lookup_insert_ne.
Qed.

Definition reachable_peer w (peer : PeerId) : Prop := (peer_index peer < length (w_transports w))%nat.

Lemma handed_reachable w w' l peer : handed w w' l -> reachable_peer w peer -> reachable_peer w' peer.
Proof. intros Hh. unfold reachable_peer. by rewrite (hd_count _ _ _ Hh). Qed.

(** Sending keeps the tables; the frames sent are exactly [l]. *)
Definition hands w (l : list (PeerId * list Z)) w' : Prop := handed w w' l /\ w_self w' = w_self w.

Lemma hands_trans w w1 w2 l k : hands w l w1 -> hands w1 k w2 -> hands w (l ++ k) w2.
Proof. intros [H1 E1] [H2 E2]. split; [by eapply handed_trans|congruence]. Qed.

Lemma hands_refl w : hands w [] w.
Proof. split; [by apply handed_kept|done]. Qed.

Lemma runs_send_frames_log peer fs ok w :
  w_hook w = None -> reachable_peer w peer ->
  runs (fun _ w' => hands w ((fun f => (peer, f)) <$> fs) w') (send_frames peer fs ok) w.
Proof.
  revert ok w. induction fs as [|f fs IH]; intros ok w Hh Hp; cbn [send_frames].
  { apply runs_ret, hands_refl. }
  eapply runs_bind; [apply runs_send_frame_log; [done|by apply lookup_lt_is_Some_2]|].
  intros sent w1 [Hs (Es & _)]. cbv beta. eapply runs_mono; [apply IH|].
  - by rewrite (hd_hook _ _ _ Hs).
  - by eapply handed_reachable.
  - intros b w2 Hs2. exact (hands_trans w w1 w2 [(peer, f)] _ (conj Hs Es) Hs2).
Qed.

(** The frames of a sample for a peer that accepts [max_p] bytes. *)
Definition sample_frames (max_p : Z) (g : Guid) (seq pub : Z) (data : list Z) (flags : Z) : list (list Z) :=
  if max_p =? 0 then []
  else match fragment g seq pub (Some data) (len data) max_p flags with Done fs => fs | _ => [] end.

Definition sample_for w g seq pub data flags (peer : PeerId) : list (PeerId * list Z) :=
  (fun f => (peer, f)) <$> sample_frames (limit w peer) g seq pub data flags.

Lemma runs_send_sample_log peer g seq pub data flags w :
  w_hook w = None -> guid_ok g -> fits 64 seq -> fits 64 pub -> fits 16 flags -> 64 + len data < 2 ^ 32 ->
  runs (fun _ w' => hands w (sample_for w g seq pub data flags peer) w')
    (send_sample_to peer g seq pub data flags) w.
Proof.
  intros Hh Hg Hseq Hpub Hf Hl. unfold send_sample_to, sample_for, sample_frames.
  eapply (runs_bind (fun m w1 => w1 = w /\ m = limit w peer)).
  { unfold runs, max_payload, limit, peer_index. by destruct (w_transports w !! _). }
  intros m w1 [-> ->]. cbv beta. destruct (Z.eqb_spec (limit w peer) 0) as [E|E]; [apply runs_ret, hands_refl|].
  rewrite wrap_id by ulia.
  destruct (fragment_total g seq pub flags (limit w peer) data Hg Hseq Hpub Hf Hl) as [fs Hfs].
  rewrite Hfs. eapply runs_bind; [by eapply (runs_encoded (fun fs' w' => fs' = fs /\ w' = w)); [reflexivity|]|].
  intros fs' w1 [-> ->]. cbv beta. eapply runs_bind; [apply runs_send_frames_log; [done|]|done].
  unfold reachable_peer. apply lookup_lt_is_Some_1. unfold limit in E.
  by destruct (w_transports w !! peer_index peer).
Qed.

Lemma runs_send_to_targets_log targets g seq pub data flags any w :
  w_hook w = None -> guid_ok g -> fits 64 seq -> fits 64 pub -> fits 16 flags -> 64 + len data < 2 ^ 32 ->
  runs (fun _ w' => handed w w' (concat (sample_for w g seq pub data flags <$> targets)))
    (send_to_targets targets (fun peer => send_sample_to peer g seq pub data flags) any) w.
Proof.
  intros Hh Hg Hseq Hpub Hf Hl. revert any w Hh.
  induction targets as [|peer targets IH]; intros any w Hh; cbn [send_to_targets fmap list_fmap concat].
  { by apply runs_ret, handed_kept. }
  eapply runs_bind; [by apply runs_send_sample_log|]. intros sent w1 [Hs _]. cbv beta.
  eapply runs_mono; [apply IH; by rewrite (hd_hook _ _ _ Hs)|]. intros b w2 Hs2.
  pose proof (handed_trans _ _ _ _ _ Hs Hs2) as Hs'. revert Hs'. cbv beta.
  replace (sample_for w1 g seq pub data flags <$> targets)
    with (sample_for w g seq pub data flags <$> targets); [done|].
  apply list_fmap_ext. intros i q _. unfold sample_for. by rewrite (hd_limit _ _ _ Hs).
Qed.

(** Local delivery leaves the transports alone. *)
Definition kept w w' : Prop := w_transports w' = w_transports w /\ w_hook w' = w_hook w.

Lemma kept_handed w w1 w2 l : kept w w1 -> handed w1 w2 l -> handed w w2 l.
Proof.
  intros [E1 E2] Hh. pose proof (handed_trans w w1 w2 [] l (handed_kept w w1 E1 E2) Hh) as Hr. exact Hr.
Qed.

Lemma kept_enqueue_at ptr r g seq data wq pub w :
  map_find ptr (p_readers (w_self w)) = Some r ->
  runs (fun _ w' => kept w w') (enqueue_at ptr g seq data wq pub) w.
Proof.
  intros Hr. unfold enqueue_at, runs, system_now_ms, tick, mbind, act_bind, get_self. simpl. rewrite Hr.
  by destruct (enqueue r _ _ g seq data wq pub).
Qed.

Lemma kept_trans w w1 w2 : kept w w1 -> kept w1 w2 -> kept w w2.
Proof. intros [] []. split; congruence. Qed.

Lemma runs_and {A} (P Q : A -> World T -> Prop) (m : act T A) w :
  runs P m w -> runs Q m w -> runs (fun a w' => P a w' /\ Q a w') m w.
Proof. unfold runs. by destruct (m w) as [[a w']| |]. Qed.

Lemma runs_for_each_kept {A} (l : list A) (f : A -> act T unit) w :
  world_ok w ->
  (forall a w1, a ∈ l -> steps_if true w w1 ->
     runs (fun _ w2 => steps_if true w1 w2 /\ kept w1 w2) (f a) w1) ->
  runs (fun _ w2 => steps_if true w w2 /\ kept w w2) (for_each l f) w.
Proof.
  revert w. induction l as [|a l IH]; intros w Hw Hf; cbn [for_each].
  { split; [by apply steps_refl|done]. }
  eapply runs_bind; [apply Hf; [left|by apply steps_refl]|]. intros u w1 [Hs Hk]. cbv beta.
  eapply runs_mono; [apply IH; [by eapply (steps_ok (strict := true))|]|].
  - intros a' w2 Ha Hs'. apply Hf; [by right|]. by eapply steps_trans.
  - intros u' w2 [Hs' Hk']. split; [by eapply steps_trans|by eapply kept_trans].
Qed.

(** The local readers of [write_sample]. *)
Lemma runs_local_delivery p wr seq data pub w :
  world_ok w -> part_ok p -> p_readers (w_self w) = p_readers p -> fits 64 seq ->
  runs (fun _ w' => steps_if true w w' /\ kept w w')
    (for_each (local_readers p wr) (fun r =>
       out ← enqueue_at r (w_guid wr) seq data (w_qos wr) pub;
       if eo_queued out then fire_callback r else mret tt)) w.
Proof.
  intros Hw Hp Er Hseq. apply runs_for_each_kept; [done|]. intros r w1 Hr Hs1.
  destruct (local_readers_in _ _ _ Hp Hr) as [r0 Hr0]. rewrite <- Er in Hr0.
  destruct (steps_find_reader (strict := true) w w1 r r0 Hs1 Hr0) as (r1 & Hr1 & _).
  apply steps_ok in Hs1 as Hw1. eapply runs_bind.
  { apply runs_and; [by apply (runs_enqueue_at (strict := true) r r1)|by apply (kept_enqueue_at r r1)]. }
  intros out w2 [(Hs2 & _ & n1 & n2 & E2 & _) Hk2]. cbv beta. apply steps_ok in Hs2 as Hw2.
  eapply (runs_mono (fun _ w3 => steps_if true w2 w3 /\ kept w2 w3)).
  - case_if; [|split; [by apply steps_refl|done]]. apply runs_and.
    + eapply runs_fire_callback; [done|]. rewrite E2. simpl. apply map_find_set_eq.
    + unfold runs, fire_callback, mbind, act_bind, get_self. rewrite E2. cbn [p_readers set_readers set_entities].
      rewrite map_find_set_eq. by case_if.
  - intros u w3 [Hs3 Hk3]. split; [by eapply steps_trans|by eapply kept_trans].
Qed.

Lemma runs_write_log ptr wr data w :
  world_ok w -> w_hook w = None -> map_find ptr (p_writers (w_self w)) = Some wr ->
  w_seq wr + 1 < 2 ^ 64 -> bytes_ok data -> 64 + len data < 2 ^ 32 ->
  runs (fun ok w' => exists pub now, fits 64 pub /\
      match claim_seq wr pub data now with
      | (_, None) => ok = false /\ handed w w' []
      | (_, Some seq) => seq = w_seq wr + 1 /\
          handed w w' (concat (sample_for w (w_guid wr) seq (pub / 1000) data (reliable_flag (w_qos wr)) <$>
            send_targets_locked (w_self w) wr))
      end) (write_sample ptr data) w.
Proof.
  intros Hw Hh Hwr Hlt Hd Hl. unfold write_sample.
  eapply (runs_bind (fun pub w1 => steps_if true w w1 /\ fits 64 pub /\ w_self w1 = w_self w /\ kept w w1)).
  { split; [by apply steps_same_self|]. split; [apply (proj2 Hw)|done]. }
  intros pub w1 (Hs1 & Hpub & E1 & Hk1). cbv beta zeta. apply steps_ok in Hs1 as Hw1.
  eapply (runs_bind (fun _ w2 => steps_if true w1 w2 /\ w_self w2 = w_self w1 /\ kept w1 w2)).
  { split; [by apply steps_same_self|done]. }
  intros now w2 (Hs2 & E2 & Hk2). cbv beta. apply steps_ok in Hs2 as Hw2.
  pose proof (kept_trans _ _ _ Hk1 Hk2) as Hk. rewrite E1 in E2. apply runs_self_bind. rewrite E2, Hwr.
  pose proof (po_writers _ (proj1 Hw) _ _ Hwr) as Hok. pose proof (wo_history _ Hok) as Hho.
  pose proof (claim_writer_ok wr pub data now Hok Hlt Hpub Hd Hl) as Hok'.
  pose proof (claim_seq_number wr pub data now (ho_seq _ Hho) Hlt) as Hnum.
  destruct (claim_seq wr pub data now) as [wr' [seq|]] eqn:Ecl.
  2:{ apply runs_ret. exists pub, now. rewrite Ecl. split_and!; [done|done|apply handed_kept; apply Hk]. }
  destruct Hnum as [-> _]. simpl in Hok'. apply runs_modify_bind. set (w3 := with_self _ w2).
  assert (Hw3 : world_ok w3).
  { split; [|apply Hw2]. unfold w3. simpl. apply part_ok_set_writers; [apply Hw2|apply map_ok_set, Hw2|].
    intros p' x. rewrite map_find_set. destruct (decide (p' = ptr)); [by intros [= <-]|].
    apply (po_writers _ (proj1 Hw2)). }
  assert (Hseq : fits 64 (w_seq wr + 1)) by (destruct Hho as [? _ _ _ _]; ulia).
  eapply runs_bind.
  { apply runs_local_delivery; [done|apply Hw|simpl; by rewrite E2|done]. }
  intros [] w4 [Hs4 Hk4]. cbv beta. assert (Hk04 : kept w w4) by exact (kept_trans _ _ _ Hk Hk4).
  eapply runs_bind; [apply runs_send_to_targets_log; auto using reliable_flag_fits, pub_ms_fits|].
  { by rewrite (proj2 Hk04). }
  { apply Hok. }
  intros any w5 Hh5. apply runs_ret. exists pub, now. rewrite Ecl. split_and!; [done|done|].
  eapply kept_handed; [exact Hk04|]. revert Hh5.
  replace (sample_for w4 (w_guid wr) (w_seq wr + 1) (pub / 1000) data (reliable_flag (w_qos wr)) <$>
    send_targets_locked (w_self w) wr) with
    (sample_for w (w_guid wr) (w_seq wr + 1) (pub / 1000) data (reliable_flag (w_qos wr)) <$>
    send_targets_locked (w_self w) wr); [done|].
  apply list_fmap_ext. intros i q _. unfold sample_for, limit. by rewrite (proj1 Hk04).
Qed.
End publish.

(** ** Fixtures: the receiving side of [test_ops] *)

Definition test_sender : World Recorder := test_after (test_ops preset_default).

(** A participant with prefix 9 and a reader of topic "t", type "i", that knows the sender. *)
Definition test_receiver0 : World Recorder :=
  new_world (replicate 12 9) [mkRecorder 1000 []] None (fun _ => 1000000) (fun _ => 5000000).
Definition test_sender_announce : list Z :=
  match encode_announce (snapshot_locked (w_self test_sender)) 1 with Done f => f | _ => [] end.
Definition test_receiver_ops : list Op :=
  [CreateReader 200 [116] [105] preset_default false; Receive 3 test_sender_announce].
Definition test_received (ops : list Op) : World Recorder :=
  match run_ops ops test_receiver0 with Done (_, w) => w | _ => test_receiver0 end.
Definition test_receiver : World Recorder := test_received test_receiver_ops.

Lemma test_receiver_reachable : reachable false test_receiver.
Proof.
  apply (reach_step false (test_received (firstn 1 test_receiver_ops)) (Receive 3 test_sender_announce)).
  - apply (reach_step false test_receiver0 (CreateReader 200 [116] [105] preset_default false)).
    + apply reach_new; [reflexivity|apply Forall_replicate; ulia|intros n; ulia].
    + split_and!; vm_compute; reflexivity.
    + discriminate.
    + vm_compute. reflexivity.
  - apply bytes_ok_check. vm_compute. reflexivity.
  - discriminate.
  - vm_compute. reflexivity.
Qed.

Definition test_sender_writer : WriterImpl :=
  default (new_writer zero_guid [] [] preset_default 0) (map_find 100 (p_writers (w_self test_sender))).
Definition test_sender_endpoint : EndpointRecord :=
  default (mkEndpoint zero_guid WRITER [] [] preset_default 0)
    (find_remote_endpoint_locked (w_self test_receiver) (w_guid test_sender_writer)).

Lemma not_full_claims wr pub data now : ~ keep_all_full wr -> snd (claim_seq wr pub data now) <> None.
Proof.
  intros Hnf. unfold claim_seq, cache_sample. destruct (caches (w_qos wr)) eqn:Ec; [|done]. cbn [negb].
  destruct (bool_decide _ && _) eqn:E; [|done]. apply andb_true_iff in E as [Eh%bool_decide_eq_true El].
  zbool. unfold history_cap in El. rewrite bool_decide_true in El by done. by destruct Hnf.
Qed.

Lemma elem_split {A B} (f : A -> list B) (l : list A) a :
  a ∈ l -> exists l1 l2, concat (f <$> l) = l1 ++ f a ++ l2.
Proof.
  intros (k1 & k2 & ->)%list_elem_of_split. rewrite fmap_app, concat_app. by eexists _, _.
Qed.

Lemma through_peer peer (fs : list (list Z)) :
  through (peer_index peer) ((fun f => (peer, f)) <$> fs) = (fun f => (peer_backend_id peer, f)) <$> fs.
Proof.
  unfold through. induction fs as [|f fs IH]; [done|]. cbn [fmap list_fmap].
  rewrite filter_cons_True by done. cbn [fmap list_fmap fst snd]. f_equal. exact IH.
Qed.

#[global] Instance keep_all_full_dec wr : Decision (keep_all_full wr).
Proof. unfold keep_all_full. apply _. Defined.

Module PublishSpec.

(** C23. Publishing is exact: [write] either refuses the sample and sends nothing, or
    claims the next number and hands each matched peer the frames of this sample for
    that peer's size limit, once and in order, through the peer's own transport, and
    nothing to anyone else. *)
Theorem write_handed_exact {T} `{LoggedTransport T} (w : World T) (ptr : Z) (wr : WriterImpl) (data : list Z) :
  world_ok w -> w_hook w = None -> map_find ptr (p_writers (w_self w)) = Some wr ->
  w_seq wr + 1 < 2 ^ 64 -> bytes_ok data -> 64 + len data < 2 ^ 32 ->
  exists ok w' pub, write_sample ptr data w = Done (ok, w') /\ forall i,
    log w' i = log w i ++
      if decide (keep_all_full wr) then []
      else through i (concat (sample_for w (w_guid wr) (w_seq wr + 1) pub data (reliable_flag (w_qos wr)) <$>
             send_targets_locked (w_self w) wr)).
Proof.
  intros Hw Hh Hwr Hlt Hd Hl. pose proof (runs_write_log ptr wr data w Hw Hh Hwr Hlt Hd Hl) as Hr.
  unfold runs in Hr. destruct (write_sample ptr data w) as [[ok w']| |]; [|done..].
  destruct Hr as (pub & now & _ & Hcase). exists ok, w', (pub / 1000). split; [done|]. intros i.
  destruct (decide (keep_all_full wr)) as [Hfull|Hnf].
  - rewrite (keep_all_full_claim wr pub data now Hfull) in Hcase. apply (hd_log _ _ _ (proj2 Hcase)).
  - pose proof (not_full_claims wr pub data now Hnf) as Hc.
    destruct (claim_seq wr pub data now) as [wr' [seq|]]; [|done]. destruct Hcase as [-> Hcase].
    apply (hd_log _ _ _ Hcase).
Qed.

(** C8. From a writer to a reader: after a [write] the log of the matched peer's
    transport holds the frames of the sample, and a participant that receives those
    frames in any order, and has discovered the writer, enqueues exactly this sample
    once at each of its matched readers; a reader that had not seen the number and
    knows no lifespan holds it, unchanged, at the end of its queue. *)
Theorem publish_to_reader {T U} `{LoggedTransport T} `{Transport U} (w : World T) (v : World U)
    (ptr : Z) (wr : WriterImpl) (data : list Z) (peer from : PeerId) (ep : EndpointRecord) :
  world_ok w -> w_hook w = None -> map_find ptr (p_writers (w_self w)) = Some wr ->
  w_seq wr + 1 < 2 ^ 64 -> bytes_ok data -> 64 + len data < 2 ^ 32 -> ~ keep_all_full wr ->
  peer ∈ send_targets_locked (w_self w) wr -> 57 <= limit w peer ->
  world_ok v -> find_remote_endpoint_locked (w_self v) (w_guid wr) = Some ep ->
  map_find (w_guid wr, w_seq wr + 1) (partials (reassembler_of from v)) = None ->
  exists ok w' pub frames before after,
    write_sample ptr data w = Done (ok, w') /\
    log w' (peer_index peer) = log w (peer_index peer) ++
      before ++ ((fun f => (peer_backend_id peer, f)) <$> frames) ++ after /\
    forall fs, fs ≡ₚ frames ->
      runs (fun _ v' => forall rptr r, map_find rptr (p_readers (w_self v)) = Some r ->
          endpoints_match (r_topic r) (r_type r) (r_qos r) ep = true ->
          exists r', map_find rptr (p_readers (w_self v')) = Some r' /\
            enqueued (w_guid wr) (w_seq wr + 1) pub data (ep_qos ep) r r' /\
            (~ seen (rx_of r (w_guid wr)) (w_seq wr + 1) -> lifespan_ms (ep_qos ep) = 0 ->
             last (r_queue r') = Some (mkSample data (mkInfo (w_guid wr) (w_seq wr + 1) pub) 0)))
        (for_each fs (handle_bytes from)) v.
Proof.
  intros Hw Hh Hwr Hlt Hd Hl Hnf Hpeer Hlim Hv Hep Hnone.
  pose proof (runs_write_log ptr wr data w Hw Hh Hwr Hlt Hd Hl) as Hr.
  unfold runs in Hr at 1. destruct (write_sample ptr data w) as [[ok w']| |]; [|done..].
  destruct Hr as (pub & now & Hpub & Hcase). pose proof (not_full_claims wr pub data now Hnf) as Hc.
  destruct (claim_seq wr pub data now) as [wr' [seq|]]; [|done]. destruct Hcase as [-> Hcase].
  pose proof (po_writers _ (proj1 Hw) _ _ Hwr) as [Hg Hho _].
  assert (Hseq : fits 64 (w_seq wr + 1)) by (destruct Hho as [? _ _ _ _]; ulia).
  set (flags := reliable_flag (w_qos wr)) in *. pose proof (reliable_flag_fits (w_qos wr)) as Hf.
  apply pub_ms_fits in Hpub.
  destruct (fragment_nonempty (w_guid wr) (w_seq wr + 1) (pub / 1000) flags (limit w peer) data)
    as (frames & E & Hne); try done; [lia|].
  destruct (elem_split (sample_for w (w_guid wr) (w_seq wr + 1) (pub / 1000) data flags) _ _ Hpeer)
    as (l1 & l2 & El).
  exists ok, w', (pub / 1000), frames, (through (peer_index peer) l1), (through (peer_index peer) l2).
  split; [done|]. split.
  { rewrite (hd_log _ _ _ Hcase), El, !through_app. unfold sample_for, sample_frames.
    rewrite (proj2 (Z.eqb_neq _ _)), E, through_peer by lia. done. }
  intros fs HP. eapply runs_mono; [by apply (runs_sample_frames from (w_guid wr) (w_seq wr + 1) (pub / 1000) flags (limit w peer) data frames fs ep)|].
  intros [] v' [Hv' Hdel] rptr r Hr Hm. destruct (Hdel rptr r Hr) as (r' & Hr' & Henq). rewrite Hm in Henq.
  exists r'. split_and!; [done|done|]. intros Hns Hlife. destruct Henq as (n1 & n2 & ->).
  apply enqueue_fresh_last; try done. by apply (po_readers _ (proj1 Hv) rptr).
Qed.

Lemma write_handed_exact_witness :
  exists ok w' pub, write_sample 100 [1; 2; 3] test_sender = Done (ok, w') /\ forall i,
    log w' i = log test_sender i ++
      if decide (keep_all_full test_sender_writer) then []
      else through i (concat (sample_for test_sender (w_guid test_sender_writer) (w_seq test_sender_writer + 1) pub
             [1; 2; 3] (reliable_flag (w_qos test_sender_writer)) <$>
             send_targets_locked (w_self test_sender) test_sender_writer)).
Proof.
  apply (write_handed_exact test_sender 100 test_sender_writer [1; 2; 3]).
  - apply (reachable_ok false), test_run_reachable.
  - reflexivity.
  - vm_compute. reflexivity.
  - vm_compute. reflexivity.
  - apply bytes_ok_check. reflexivity.
  - reflexivity.
Defined.

Lemma publish_to_reader_witness :
  exists ok w' pub frames before after,
    write_sample 100 (replicate 1200 7) test_sender = Done (ok, w') /\
    log w' (peer_index 5) = log test_sender (peer_index 5) ++
      before ++ ((fun f => (peer_backend_id 5, f)) <$> frames) ++ after /\
    forall fs, fs ≡ₚ frames ->
      runs (fun _ v' => forall rptr r, map_find rptr (p_readers (w_self test_receiver)) = Some r ->
          endpoints_match (r_topic r) (r_type r) (r_qos r) test_sender_endpoint = true ->
          exists r', map_find rptr (p_readers (w_self v')) = Some r' /\
            enqueued (w_guid test_sender_writer) (w_seq test_sender_writer + 1) pub (replicate 1200 7)
              (ep_qos test_sender_endpoint) r r' /\
            (~ seen (rx_of r (w_guid test_sender_writer)) (w_seq test_sender_writer + 1) ->
             lifespan_ms (ep_qos test_sender_endpoint) = 0 ->
             last (r_queue r') = Some (mkSample (replicate 1200 7)
               (mkInfo (w_guid test_sender_writer) (w_seq test_sender_writer + 1) pub) 0)))
        (for_each fs (handle_bytes 3)) test_receiver.
Proof.
  apply publish_to_reader.
  - apply (reachable_ok false), test_run_reachable.
  - reflexivity.
  - vm_compute. reflexivity.
  - vm_compute. reflexivity.
  - apply Forall_replicate. ulia.
  - rewrite length_replicate. ulia.
  - intros (Hh & _). vm_compute in Hh. discriminate Hh.
  - vm_compute. left.
  - vm_compute. discriminate.
  - apply (reachable_ok false), test_receiver_reachable.
  - vm_compute. reflexivity.
  - vm_compute. reflexivity.
Defined.
End PublishSpec.
