(* ===== verification/Graph.v ===== *)
(** * The discovery table

    What announcements and departures do to the table of remote participants, when
    the graph callback fires, and which peers a writer sends to. *)

From S2P Require Import Prelude Memory StdMap Guid Qos Frame Fragment Reassembler ReaderImpl WriterImpl Reliability Discovery Participant ParticipantFacts Matching Session DataPath Publish.

(** ** Peer identifiers *)

Lemma make_peer_id_split index backend :
  0 <= index < 2 ^ 8 -> 0 <= backend < 2 ^ 56 ->
  make_peer_id index backend = index * 2 ^ 56 + backend.
Proof.
  intros Hi Hb. unfold make_peer_id. rewrite Z.land_ones, Z.mod_small by lia.
  rewrite wrap_id by (rewrite Z.shiftl_mul_pow2 by lia; ulia). by apply shiftl_lor_add.
Qed.

(** ** Send targets *)

Definition hosts_reader (wr : WriterImpl) (rp : RemoteParticipant) : bool :=
  existsb (reader_wants wr) (snap_endpoints (rp_snap rp)).

(** A remote endpoint the writer's samples are for: a reader of its topic and type whose
    requested QoS its offered QoS meets. *)
Definition matched_reader (wr : WriterImpl) (e : EndpointRecord) : Prop :=
  ep_kind e = READER /\ ep_topic e = w_topic wr /\ ep_type_name e = w_type wr /\
  qos_accepted_by_reader (ep_qos e) (w_qos wr) = true.

Definition add_target (wr : WriterImpl) (out : list PeerId) (kv : Guid * RemoteParticipant) : list PeerId :=
  if hosts_reader wr kv.2 then set_insert (rp_peer kv.2) out else out.

Lemma elem_of_targets wr l out peer :
  peer ∈ foldl (add_target wr) out l <->
  peer ∈ out \/ exists kv, kv ∈ l /\ rp_peer kv.2 = peer /\ hosts_reader wr kv.2 = true.
Proof.
  revert out. induction l as [|kv l IH]; intros out; cbn [foldl].
  { split; [by left|]. by intros [?|(kv & ?%not_elem_of_nil & _)]. }
  rewrite IH. unfold add_target at 1. split.
  - intros [Hin|(kv' & Hin & ? & ?)]; [|right; exists kv'; split; [by right|done]].
    destruct (hosts_reader wr kv.2) eqn:E; [|by left].
    apply elem_of_set_insert in Hin as [-> |Hin]; [|by left]. right. exists kv. split; [left|done].
  - intros [Hin|(kv' & [-> |Hin]%elem_of_cons & Ep & Eh)].
    + left. case_if; [|done]. apply elem_of_set_insert. by right.
    + left. rewrite Eh. apply elem_of_set_insert. by left.
    + right. by exists kv'.
Qed.

Lemma set_insert_sorted k s : StronglySorted Z.lt s -> StronglySorted Z.lt (set_insert k s).
Proof.
  induction 1 as [|x s Hs IH Hall]; cbn [set_insert]; [repeat constructor|].
  destruct (decide (k = x)); [by constructor|]. destruct (key_lt k x) eqn:Hlt.
  - apply Z.ltb_lt in Hlt. constructor; [by constructor|]. constructor; [done|].
    eapply Forall_impl; [exact Hall|]. simpl. lia.
  - apply Z.ltb_ge in Hlt. constructor; [done|]. apply Forall_forall. intros y Hy.
    apply elem_of_set_insert in Hy as [-> |Hy]; [lia|]. rewrite Forall_forall in Hall. by apply Hall.
Qed.

Lemma targets_sorted wr l out :
  StronglySorted Z.lt out -> StronglySorted Z.lt (foldl (add_target wr) out l).
Proof.
  revert out. induction l as [|kv l IH]; intros out Hs; cbn [foldl]; [done|]. apply IH.
  unfold add_target. case_if; [by apply set_insert_sorted|done].
Qed.

(** ** Announcements *)

Section announce.
Context {T : Type} `{LoggedTransport T}.
Implicit Types w : World T.

(** Whether a snapshot is news: an unknown participant, other nodes or endpoints. *)
Definition graph_changed (old : option RemoteParticipant) (snap : ParticipantSnapshot) : bool :=
  match old with
  | None => true
  | Some rp => negb (bool_decide (snap_nodes (rp_snap rp) = snap_nodes snap) &&
                     endpoints_eqb (snap_endpoints (rp_snap rp)) (snap_endpoints snap))
  end.

Definition callback_events (p : ParticipantImpl) (changed : bool) : list Event :=
  if changed && p_has_graph_callback p then [GraphChanged] else [].

(** The match counts are redone if the graph changed. *)
Definition recounted (b : bool) (p : ParticipantImpl) : ParticipantImpl := if b then recompute_matches p else p.

(** The end of a change: the match counts are redone, the callback fires, and that is all. *)
Lemma changed_exact (b : bool) w :
  (if b then _ ← modify recompute_matches; fire_graph_callback else mret tt) w =
  Done (tt, mkWorld (recounted b (w_self w)) (w_transports w) (w_hook w) (w_sys w) (w_steady w) (w_tick w)
    (w_events w ++ callback_events (w_self w) b)).
Proof.
  unfold callback_events, mbind, act_bind, modify, fire_graph_callback, get_self. destruct w as [p ts h sys st n evs].
  destruct b; simpl; [|by rewrite app_nil_r]. unfold mbind, act_bind, get_self. simpl.
  destruct (p_has_graph_callback p); simpl; [done|]. by rewrite app_nil_r.
Qed.

(** The entry of [key] becomes [rp]; the others stay. *)
Definition entry_replaced w w' (key : Guid) (rp : RemoteParticipant) : Prop :=
  map_find key (p_remote (w_self w')) = Some rp /\
  forall k, k <> key -> map_find k (p_remote (w_self w')) = map_find k (p_remote (w_self w)).

Lemma remote_set_replaced w w' key rp :
  p_remote (w_self w') = map_set key rp (p_remote (w_self w)) -> entry_replaced w w' key rp.
Proof. intros E. split; rewrite E; [apply map_find_set_eq|]. intros k Hk. by rewrite map_find_set_ne. Qed.

Lemma recounted_remote b p : p_remote (recounted b p) = p_remote p.
Proof. by destruct b. Qed.

(** *** Replay to a new reader *)

(** The frames of the samples that [replay_history_to_peer] picks at [now]. *)
Definition replay_frames w (peer : PeerId) (eps : list EndpointRecord) (now : Z) : list (PeerId * list Z) :=
  concat ((fun t : CachedSample * Guid * Z =>
    sample_for w t.1.2 (cs_seq t.1.1) (cs_pub_time_ms t.1.1) (cs_data t.1.1) t.2 peer) <$> replay_todo (w_self w) eps now).

Lemma runs_for_each_samples {A} (l : list A) (f : A -> act T unit) (g : World T -> A -> list (PeerId * list Z)) w :
  w_hook w = None ->
  (forall a w1, a ∈ l -> w_hook w1 = None -> runs (fun _ w2 => hands w1 (g w1 a) w2) (f a) w1) ->
  (forall w1 w2 l', handed w1 w2 l' -> forall a, g w2 a = g w1 a) ->
  runs (fun _ w2 => hands w (concat (g w <$> l)) w2) (for_each l f) w.
Proof.
  revert w. induction l as [|a l IH]; intros w Hk Hf Hg; cbn [for_each fmap list_fmap concat].
  { apply runs_ret, hands_refl. }
  eapply runs_bind; [by apply Hf; [left|]|]. intros u w1 Hs. cbv beta. pose proof Hs as [Hh _].
  eapply runs_mono; [apply IH; [by rewrite (hd_hook _ _ _ Hh)| |done]|].
  - intros a' w2 Ha. apply Hf. by right.
  - intros u' w2 Hs2. eapply hands_trans; [exact Hs|].
    rewrite <- (list_fmap_ext (g w1) (g w)); [done|]. intros i x _. by eapply Hg.
Qed.

Lemma runs_replay_log peer eps w :
  world_ok w -> w_hook w = None ->
  runs (fun _ w' => hands w (replay_frames w peer eps (w_sys w (w_tick w) / 1000)) w') (replay_history_to_peer peer eps) w.
Proof.
  intros Hw Hk. unfold replay_history_to_peer, replay_frames. case_bool_decide as He; [subst; apply runs_ret, hands_refl|].
  eapply (runs_bind (fun now w1 => now = w_sys w (w_tick w) / 1000 /\ same_self w w1 /\ kept w w1)).
  { split; [done|]. split; [|done]. split; [|done]. by eapply (steps_ok (strict := true)), steps_same_self. }
  intros now w1 (-> & [Hw1 E1] & K1). cbv beta. apply runs_self_bind. rewrite E1.
  set (todo := replay_todo _ _ _). assert (Hs : forall w1 w2 l', handed w1 w2 l' -> forall t : CachedSample * Guid * Z,
    sample_for w2 t.1.2 (cs_seq t.1.1) (cs_pub_time_ms t.1.1) (cs_data t.1.1) t.2 peer =
    sample_for w1 t.1.2 (cs_seq t.1.1) (cs_pub_time_ms t.1.1) (cs_data t.1.1) t.2 peer).
  { intros wa wb l' Hh t. unfold sample_for. by rewrite (hd_limit _ _ _ Hh). }
  eapply runs_mono; [apply (runs_for_each_samples todo _ (fun w (t : CachedSample * Guid * Z) =>
    sample_for w t.1.2 (cs_seq t.1.1) (cs_pub_time_ms t.1.1) (cs_data t.1.1) t.2 peer)); [by rewrite (proj2 K1)| |done]|].
  - intros t w2 Ht Hk2. destruct (replay_todo_in _ _ _ _ Ht) as (kv & Hkv & Hin & Eg & Ef).
    pose proof (po_writers _ (proj1 Hw) _ _ (entry_find _ _ (po_writers_map _ (proj1 Hw)) Hkv)) as [Hg _ Hc].
    rewrite Forall_forall in Hc. destruct (Hc _ Hin) as (? & ? & _ & ?). rewrite Eg, Ef.
    eapply runs_bind; [apply runs_send_sample_log; auto using reliable_flag_fits|]. done.
  - intros u w2 Hs2. eapply (hands_trans w w1 w2 []); [split; [by apply handed_kept; apply K1|done]|].
    rewrite <- (list_fmap_ext (fun t : CachedSample * Guid * Z =>
      sample_for w1 t.1.2 (cs_seq t.1.1) (cs_pub_time_ms t.1.1) (cs_data t.1.1) t.2 peer)); [exact Hs2|].
    intros i t _. apply (Hs w w1 []). by apply handed_kept; apply K1.
Qed.

(** *** What an announcement does *)

(** Only the entry of one participant changes, and nothing is sent. *)
Record refreshed w w' (key : Guid) (rp : RemoteParticipant) : Prop := {
  rf_entry : entry_replaced w w' key rp;
  rf_self : w_self w' = set_remote (w_self w) (p_remote (w_self w'));
  rf_transports : w_transports w' = w_transports w;
  rf_events : w_events w' = w_events w;
}.

(** Stored as [snap] at the [k]-th reading of the clock: the entry is the new one, the other
    tables change by a recount at most, readers that [old] did not list are sent what the
    histories hold for them, and the callback fires if the graph changed.  (The hook of the
    tests, where it is set, may swallow frames.) *)
Record stored w w' (peer : PeerId) (seq : Z) (snap : ParticipantSnapshot) (old : option RemoteParticipant)
    (k : nat) : Prop := {
  sd_entry : entry_replaced w w' (participant_guid snap) (mkRemote peer seq snap (w_steady w k / 1000000));
  sd_self : w_self w' = recounted (graph_changed old snap) (set_remote (w_self w) (p_remote (w_self w')));
  sd_sent : w_hook w = None ->
    handed w w' (replay_frames w peer (new_reader_endpoints old snap) (w_sys w (S k) / 1000));
  sd_events : w_events w' = w_events w ++ callback_events (w_self w) (graph_changed old snap);
}.

Lemma runs_store_snapshot peer seq snap old w :
  world_ok w -> snapshot_ok snap ->
  runs (fun _ w' => stored w w' peer seq snap old (w_tick w))
    (now ← steady_now_ms;
     _ ← modify (fun p => set_remote p (map_set (participant_guid snap) (mkRemote peer seq snap now) (p_remote p)));
     _ ← replay_history_to_peer peer (new_reader_endpoints old snap);
     if graph_changed old snap then _ ← modify recompute_matches; fire_graph_callback else mret tt) w.
Proof.
  intros Hw Hsnap. eapply (runs_bind (fun now w1 => now = w_steady w (w_tick w) / 1000000 /\
    w1 = mkWorld (w_self w) (w_transports w) (w_hook w) (w_sys w) (w_steady w) (S (w_tick w)) (w_events w))); [done|].
  intros now w1 [-> ->]. apply runs_modify_bind. set (rp := mkRemote peer seq snap _). set (w2 := with_self _ _).
  assert (Hw2 : world_ok w2).
  { assert (Hw1 : world_ok (mkWorld (w_self w) (w_transports w) (w_hook w) (w_sys w) (w_steady w) (S (w_tick w)) (w_events w)))
      by (by eapply (steps_ok (strict := true)), steps_same_self).
    by eapply (steps_ok (strict := false)), steps_set_remote. }
  eapply (runs_bind (fun _ w3 => sent_only w2 w3 /\
    (w_hook w = None -> handed w2 w3 (replay_frames w peer (new_reader_endpoints old snap) (w_sys w (S (w_tick w)) / 1000))))).
  { apply runs_and; [by apply runs_replay_sent|]. destruct (w_hook w) as [hook|] eqn:Eh.
    - eapply runs_mono; [by apply runs_replay_sent|]. done.
    - eapply runs_mono; [by apply runs_replay_log|]. intros u w3 [Hh _] _. exact Hh. }
  intros [] w3 [(E3 & Ev3 & _) Hh3]. cbv beta. unfold runs. rewrite changed_exact. split; cbn [w_self w_events w_transports w_hook].
  - apply remote_set_replaced. simpl. by rewrite recounted_remote, E3.
  - rewrite recounted_remote, E3. simpl. done.
  - intros Hk. pose proof (handed_trans w w2 w3 [] _ (handed_kept w w2 eq_refl eq_refl) (Hh3 Hk)) as Hh.
    pose proof (handed_trans _ _ _ _ [] Hh (handed_kept w3 (mkWorld (recounted (graph_changed old snap) (w_self w3))
      (w_transports w3) (w_hook w3) (w_sys w3) (w_steady w3) (w_tick w3)
      (w_events w3 ++ callback_events (w_self w3) (graph_changed old snap))) eq_refl eq_refl)) as Hh'.
    by rewrite app_nil_r in Hh'.
  - rewrite Ev3, E3. done.
Qed.

(** An entry that was touched before it is replaced makes no difference. *)
Lemma stored_after_refresh w w1 w' rp peer seq snap old k :
  kept w w1 -> w_sys w1 = w_sys w -> w_steady w1 = w_steady w -> w_events w1 = w_events w ->
  w_self w1 = set_remote (w_self w) (map_set (participant_guid snap) rp (p_remote (w_self w))) ->
  stored w1 w' peer seq snap old k -> stored w w' peer seq snap old k.
Proof.
  intros [Kt Kh] Es Est Ev E1 [[Hf Ho] Hself Hsent Hev]. rewrite Est in Hf. rewrite Es in Hsent. split.
  - split; [done|]. intros k' Hne. rewrite Ho by done. rewrite E1. simpl. by rewrite map_find_set_ne.
  - by rewrite Hself, E1 at 1.
  - intros Hk. apply (kept_handed w w1); [done|]. replace (replay_frames w peer _ _) with
      (replay_frames w1 peer (new_reader_endpoints old snap) (w_sys w (S k) / 1000)); [apply Hsent; congruence|].
    unfold replay_frames, sample_for, limit. by rewrite Kt, E1.
  - by rewrite Hev, Ev, E1.
Qed.

Lemma runs_announce_exact peer frame snap seq w :
  world_ok w -> bytes_ok frame -> decode_announce frame = Done (snap, seq) ->
  runs (fun _ w' =>
      let key := participant_guid snap in
      let n := w_tick w in
      match map_find key (p_remote (w_self w)) with
      | Some rp =>
          if seq <=? rp_announce_seq rp
          then refreshed w w' key (mkRemote (rp_peer rp) (rp_announce_seq rp) (rp_snap rp) (w_steady w n / 1000000))
          else stored w w' peer seq snap (Some rp) (S n)
      | None => stored w w' peer seq snap None n
      end) (handle_announce peer frame) w.
Proof.
  intros Hw Hf Hdec. unfold handle_announce.
  eapply (runs_bind (fun o w1 => o = Some (snap, seq) /\ w1 = w)).
  { unfold runs, decoded. by rewrite Hdec. }
  intros o w1 [-> ->]. apply runs_self_bind.
  pose proof (safe_Done _ _ _ (decode_announce_safe frame Hf) Hdec) as [Hsnap _]. simpl in Hsnap.
  destruct (map_find (participant_guid snap) (p_remote (w_self w))) as [rp|] eqn:Erp; cbv zeta.
  2:{ apply runs_ret_bind. by apply (runs_store_snapshot peer seq snap None). }
  set (rp' := mkRemote (rp_peer rp) (rp_announce_seq rp) (rp_snap rp) (w_steady w (w_tick w) / 1000000)).
  set (w1 := mkWorld (set_remote (w_self w) (map_set (participant_guid snap) rp' (p_remote (w_self w)))) (w_transports w)
    (w_hook w) (w_sys w) (w_steady w) (S (w_tick w)) (w_events w)).
  apply (runs_bind (fun stale w2 => stale = (seq <=? rp_announce_seq rp) /\ w2 = w1)); [done|].
  intros stale w2 [-> ->]. cbv beta. destruct (seq <=? rp_announce_seq rp).
  { apply runs_ret. split; [by apply remote_set_replaced|done..]. }
  assert (Hw1 : world_ok w1).
  { assert (Hw0 : world_ok (mkWorld (w_self w) (w_transports w) (w_hook w) (w_sys w) (w_steady w) (S (w_tick w)) (w_events w)))
      by (by eapply (steps_ok (strict := true)), steps_same_self).
    eapply (steps_ok (strict := false)), (steps_set_remote _ _ rp'); [exact Hw0|]. by apply (po_remote _ (proj1 Hw) _ _ Erp). }
  eapply runs_mono; [by apply (runs_store_snapshot peer seq snap (Some rp) w1)|]. intros [] w2 Hst.
  by apply (stored_after_refresh w w1 w2 rp').
Qed.
End announce.

(** A writer that keeps its samples for readers that join late, and one sample; then the
    announcement of such a reader. *)
Definition held_op1 : Op := CreateWriter 100 [116] [105] preset_transient_local.
Definition held_op3 : Op := Write 100 (Some [65]) 1.
Definition held_op4 : Op := Receive 5 (test_announce preset_transient_local 1).
Definition held : World Recorder := test_after [held_op1; PeerUp 5; held_op3].
Definition held_known : World Recorder := test_after [held_op1; PeerUp 5; held_op3; held_op4].

Lemma held_reachable : reachable false held.
Proof.
  apply (test_step false [held_op1; PeerUp 5] held_op3).
  - apply (test_step false [held_op1] (PeerUp 5)); [|exact I|exact I|vm_compute; reflexivity].
    apply (test_step false [] held_op1); [apply test_world_reachable| |exact I|vm_compute; reflexivity].
    split_and!; vm_compute; reflexivity.
  - assert (E : w_seq <$> map_find 100 (p_writers (w_self (test_after [held_op1; PeerUp 5]))) = Some 0) by (vm_compute; reflexivity).
    revert E. generalize (test_after [held_op1; PeerUp 5]). intros w E. unfold op_pre, held_op3.
    destruct (map_find 100 (p_writers (w_self w))) as [wr|]; [|done]. exists wr. injection E as E.
    split; [done|]. split; [rewrite E; done|]. split; [by apply bytes_ok_check|simpl; lia].
  - exact I.
  - vm_compute. reflexivity.
Qed.

Lemma held_known_reachable : reachable false held_known.
Proof.
  apply (reach_step false held held_op4); [exact held_reachable| |discriminate 1|vm_compute; reflexivity].
  apply bytes_ok_check. vm_compute. reflexivity.
Qed.

Module GraphSpec.
Section spec.
Context {T : Type} `{LoggedTransport T}.
Implicit Types w : World T.


(** C34. When a peer goes down exactly its participants, its partial messages and
    itself are forgotten; the other participants, peers and reassemblers stay as they
    are.  Exactly when some participant was lost the match counts are redone and the graph
    callback fires.  Nothing else changes: no other table, nothing in the writers and readers
    but those counts, no transport. *)
Theorem peer_down_purges (peer : PeerId) w :
  world_ok w ->
  let lost := existsb (fun kv => rp_peer kv.2 =? peer) (p_remote (w_self w)) in
  runs (fun _ w' =>
      (forall k rp, map_find k (p_remote (w_self w')) = Some rp <->
         map_find k (p_remote (w_self w)) = Some rp /\ rp_peer rp <> peer) /\
      (forall q, q ∈ p_peers (w_self w') <-> q <> peer /\ q ∈ p_peers (w_self w)) /\
      (forall q, map_find q (p_reassemblers (w_self w')) =
         if decide (q = peer) then None else map_find q (p_reassemblers (w_self w))) /\
      w_self w' = recounted lost (set_net (w_self w) (p_peers (w_self w')) (p_remote (w_self w')) (p_reassemblers (w_self w'))) /\
      w_transports w' = w_transports w /\
      w_events w' = w_events w ++ callback_events (w_self w) lost)
    (handle_peer_down peer) w.
Proof.
  intros Hw. cbv zeta. unfold handle_peer_down. apply runs_self_bind, runs_modify_bind. unfold runs. rewrite changed_exact.
  set (lost := existsb _ _). assert (E : forall p, p_peers (recounted lost p) = p_peers p /\ p_remote (recounted lost p) = p_remote p /\
    p_reassemblers (recounted lost p) = p_reassemblers p) by (by destruct lost).
  cbn [w_self w_transports w_events with_self]. destruct (E (set_net (w_self w) (set_erase peer (p_peers (w_self w)))
    (map_keep (fun _ rp => negb (rp_peer rp =? peer)) (p_remote (w_self w))) (map_erase peer (p_reassemblers (w_self w)))))
    as (-> & -> & ->). split_and!; try done.
  - intros k rp. simpl. rewrite map_find_keep by apply Hw. destruct (map_find k _) as [rp'|]; [|split; [done|by intros [? _]]].
    destruct (Z.eqb_spec (rp_peer rp') peer) as [Ep|Ep]; cbn [negb]; split.
    + done.
    + intros [[= ->] ?]. done.
    + by intros [= <-].
    + by intros [[= ->] _].
  - intros q. apply elem_of_set_erase.
  - intros q. apply map_find_erase.
Qed.

(** The peers a writer sends to are exactly those of the participants that list a
    reader of its topic and type that accepts its QoS, each once, in increasing
    order. *)
Theorem send_targets_exact (p : ParticipantImpl) (wr : WriterImpl) :
  (forall peer, peer ∈ send_targets_locked p wr <->
     exists key rp e, (key, rp) ∈ p_remote p /\ rp_peer rp = peer /\ e ∈ snap_endpoints (rp_snap rp) /\
       matched_reader wr e) /\
  StronglySorted Z.lt (send_targets_locked p wr).
Proof.
  split; [|apply (targets_sorted wr (p_remote p) []); constructor].
  intros peer. etrans; [apply (elem_of_targets wr (p_remote p) [])|]. split.
  - intros [?%not_elem_of_nil|([key rp] & Hin & Ep & Hh)]; [done|]. exists key, rp. simpl in Ep, Hh.
    unfold hosts_reader in Hh. apply existsb_exists in Hh as (e & He & Hw). apply list_elem_of_In in He.
    unfold reader_wants in Hw. rewrite !andb_true_iff, !bool_decide_eq_true in Hw. exists e.
    unfold matched_reader. tauto.
  - intros (key & rp & e & Hin & Ep & He & Hk & Ht & Hty & Hq). right. exists (key, rp). split_and!; [done..|].
    apply existsb_exists. exists e. split; [by apply list_elem_of_In|]. unfold reader_wants.
    rewrite Hk, Ht, Hty, Hq. by rewrite !bool_decide_true.
Qed.

End spec.


Lemma peer_down_purges_witness :
  let w := test_after (test_ops preset_default) in
  existsb (fun kv => rp_peer kv.2 =? 5) (p_remote (w_self w)) = true /\
  runs (fun _ w' =>
      (forall k rp, map_find k (p_remote (w_self w')) = Some rp <->
         map_find k (p_remote (w_self w)) = Some rp /\ rp_peer rp <> 5) /\
      (forall q, q ∈ p_peers (w_self w') <-> q <> 5 /\ q ∈ p_peers (w_self w)) /\
      (forall q, map_find q (p_reassemblers (w_self w')) =
         if decide (q = 5) then None else map_find q (p_reassemblers (w_self w))) /\
      w_self w' = recounted true (set_net (w_self w) (p_peers (w_self w')) (p_remote (w_self w')) (p_reassemblers (w_self w'))) /\
      w_transports w' = w_transports w /\
      w_events w' = w_events w ++ callback_events (w_self w) true)
    (handle_peer_down 5) w.
Proof.
  cbv zeta. assert (El : existsb (fun kv => rp_peer kv.2 =? 5) (p_remote (w_self (test_after (test_ops preset_default)))) = true)
    by (vm_compute; reflexivity).
  split; [exact El|]. rewrite <- El. apply (peer_down_purges 5). apply (reachable_ok false), test_run_reachable.
Defined.

End GraphSpec.
