(* ===== verification/Channel.v ===== *)
(** * The delivery channel a reader promises

    The abstract view of a reader: the samples waiting to be taken and the numbers it
    will not deliver any more.  A channel delivers only samples that were offered to
    it, a number at most once; it may give numbers up and drop waiting samples.  Every
    operation of [ReaderImpl] is a sequence of channel steps. *)

From stdpp Require Import relations.
From S2P Require Import Prelude Memory StdMap Guid Qos ReaderImpl WriterImpl Reliability.

(** ** The specification *)

(** A sample as the application sees it: who wrote it, its number, its bytes. *)
Abbreviation Sample := (Guid * Z * list Z)%type.

Record Channel := mkChannel {
  ch_queue : list Sample;
  ch_closed : Guid -> Z -> Prop;   (* delivered or given up *)
}.

(** A new channel: numbers start at 1. *)
Definition open_channel : Channel := mkChannel [] (fun _ s => s <= 0).

(** [offered g s d]: the channel was offered sample [s] of writer [g] with bytes [d]. *)
Inductive channel_step (offered : Guid -> Z -> list Z -> Prop) (c c' : Channel) : Prop :=
| ch_deliver g s d :
    offered g s d -> ~ ch_closed c g s ->
    ch_queue c' = ch_queue c ++ [(g, s, d)] ->
    (forall g' s', ch_closed c' g' s' <-> ch_closed c g' s' \/ g' = g /\ s' = s) ->
    channel_step offered c c'
| ch_give_up :
    ch_queue c' = ch_queue c ->
    (forall g s, ch_closed c g s -> ch_closed c' g s) ->
    channel_step offered c c'
| ch_drop :
    sublist (ch_queue c') (ch_queue c) ->
    (forall g s, ch_closed c' g s <-> ch_closed c g s) ->
    channel_step offered c c'.

Abbreviation channel_steps offered := (rtc (channel_step offered)).

Lemma channel_step_mono (P Q : Guid -> Z -> list Z -> Prop) c c' :
  (forall g s d, P g s d -> Q g s d) -> channel_step P c c' -> channel_step Q c c'.
Proof. intros HPQ [g s d Ho Hc Hq Hcl|Hq Hcl|Hq Hcl]; [eapply ch_deliver|apply ch_give_up|apply ch_drop]; eauto. Qed.

Lemma channel_steps_mono (P Q : Guid -> Z -> list Z -> Prop) c c' :
  (forall g s d, P g s d -> Q g s d) -> channel_steps P c c' -> channel_steps Q c c'.
Proof. intros HPQ. apply rtc_subrel. intros x y. by apply channel_step_mono. Qed.

(** Numbers once closed stay closed. *)
Lemma channel_steps_closed offered c c' :
  channel_steps offered c c' -> forall g s, ch_closed c g s -> ch_closed c' g s.
Proof.
  induction 1 as [|c c1 c2 Hs _ IH]; [done|]. intros g s Hc. apply IH.
  destruct Hs as [g0 s0 d0 _ _ _ Hcl|_ Hcl|_ Hcl]; [apply Hcl; by left|by apply Hcl|by apply Hcl].
Qed.

(** What a channel holds: offered samples, each number at most once, all closed. *)
Record channel_ok (offered : Guid -> Z -> list Z -> Prop) (c : Channel) : Prop := {
  co_offered x : x ∈ ch_queue c -> offered x.1.1 x.1.2 x.2;
  co_closed x : x ∈ ch_queue c -> ch_closed c x.1.1 x.1.2;
  co_nodup : NoDup (ch_queue c).*1;
}.

Lemma channel_step_ok offered c c' : channel_ok offered c -> channel_step offered c c' -> channel_ok offered c'.
Proof.
  intros [Ho Hc Hnd] [g s d Hoff Hn Hq Hcl|Hq Hcl|Hq Hcl].
  - split; rewrite Hq.
    + intros x [Hx| ->%list_elem_of_singleton]%elem_of_app; [by apply Ho|done].
    + intros x [Hx| ->%list_elem_of_singleton]%elem_of_app; apply Hcl; [left; by apply Hc|by right].
    + rewrite fmap_app. apply NoDup_app. split_and!; [done| |apply NoDup_singleton].
      intros x (y & -> & Hy)%list_elem_of_fmap E%list_elem_of_singleton. apply Hn.
      apply Hc in Hy. simpl in E. destruct y as [[gy sy] dy]. simpl in E. injection E as -> ->. exact Hy.
  - split; rewrite Hq; [done| |done]. intros x Hx. by apply Hcl, Hc.
  - split.
    + intros x Hx. apply Ho. by eapply elem_of_sublist.
    + intros x Hx. apply Hcl, Hc. by eapply elem_of_sublist.
    + eapply sublist_NoDup; [exact Hnd|]. by apply sublist_fmap.
Qed.

Lemma channel_steps_ok offered c c' : channel_ok offered c -> channel_steps offered c c' -> channel_ok offered c'.
Proof. intros Hc Hs. induction Hs; [done|]. eauto using channel_step_ok. Qed.

Lemma open_channel_ok offered : channel_ok offered open_channel.
Proof. split; [by intros x ?%not_elem_of_nil..|constructor]. Qed.

(** ** Readers implement it *)

Definition sample_of (q : QueuedSample) : Sample :=
  (mi_writer_guid (qs_info q), mi_seq (qs_info q), qs_data q).

Definition channel_of (r : ReaderImpl) : Channel :=
  mkChannel (sample_of <$> r_queue r) (fun g s => seen (rx_of r g) s).

Section refine.
Context (offered : Guid -> Z -> list Z -> Prop).

Lemma shorten_steps r q :
  sublist q (r_queue r) -> channel_steps offered (channel_of r) (channel_of (set_queue q r)).
Proof. intros Hq. apply rtc_once, ch_drop; [by apply sublist_fmap|done]. Qed.

(** The window of one writer changes; the queue does not. *)
Lemma give_up_steps r r' w :
  r_queue r' = r_queue r -> (forall w', w' <> w -> rx_of r' w' = rx_of r w') ->
  (forall s, seen (rx_of r w) s -> seen (rx_of r' w) s) ->
  channel_steps offered (channel_of r) (channel_of r').
Proof.
  intros Eq Hne Hs. apply rtc_once, ch_give_up; simpl; [by rewrite Eq|]. intros g s.
  destruct (decide (g = w)) as [->|Hg]; [apply Hs|by rewrite Hne].
Qed.

Lemma enqueue_steps r now1 now2 w seq data wq pub :
  reader_ok r -> fits 64 seq -> offered w seq data ->
  channel_steps offered (channel_of r) (channel_of (fst (enqueue r now1 now2 w seq data wq pub))).
Proof.
  intros Hr Hseq Ho. destruct (enqueue_ok r now1 now2 w seq data wq pub Hr Hseq) as (_ & Hs & Hmono).
  destruct (enqueue_rx r now1 now2 w seq data wq pub) as (_ & Hne & _).
  set (both := bool_decide (reliability (r_qos r) = RELIABLE) && bool_decide (reliability wq = RELIABLE)).
  pose proof (rx_receive_new both (rx_of r w) seq (Hr w) Hseq) as Hnew.
  revert Hs Hmono Hne. unfold enqueue. change (default rx_init (map_find w (r_rx r))) with (rx_of r w).
  fold both. destruct (ro_new (rx_receive both (rx_of r w) seq)); cbn [negb].
  2:{ cbn [fst]. intros. by apply (give_up_steps r _ w). }
  destruct (lifespan_expired _ _ _).
  { cbn [fst]. intros. by apply (give_up_steps r _ w). }
  symmetry in Hnew. apply bool_decide_eq_true in Hnew. cbn [fst].
  set (q := sweep_expired_locked _ _). set (r1 := set_rx _ _ r). intros Hs Hmono Hne.
  change (forall w', w' <> w -> rx_of r1 w' = rx_of r w') in Hne.
  change (seen (rx_of r1 w) seq) in Hs. change (forall s, seen (rx_of r w) s -> seen (rx_of r1 w) s) in Hmono.
  set (s0 := mkSample data (mkInfo w seq pub) (lifespan_ms wq)).
  set (mid := mkChannel (sample_of <$> r_queue r)
                (fun g s => seen (rx_of r1 g) s /\ ~ (g = w /\ s = seq))).
  apply (rtc_l _ _ mid).
  { apply ch_give_up; [done|]. simpl. intros g s Hg. destruct (decide (g = w)) as [->|Hgw].
    - split; [by apply Hmono|]. intros [_ ->]. by apply Hnew.
    - split; [by rewrite Hne|]. by intros [? _]. }
  apply (rtc_l _ _ (channel_of (set_queue (r_queue r ++ [s0]) r1))).
  - apply (ch_deliver _ _ _ w seq data); [done|..]; simpl.
    + by intros [_ []].
    + by rewrite fmap_app.
    + intros g s. change (rx_of (set_queue (r_queue r ++ [s0]) r1) g) with (rx_of r1 g).
      destruct (decide (g = w /\ s = seq)) as [[-> ->]|Hd]; tauto.
  - apply rtc_once, ch_drop; [|done]. apply sublist_fmap. apply queue_push_sublist.
Qed.

Lemma gap_steps r w start stop :
  reader_ok r -> fits 64 stop ->
  channel_steps offered (channel_of r) (channel_of (apply_gap r w start stop)).
Proof.
  intros Hr Hstop. destruct (gap_ok r w start stop Hr Hstop) as (_ & _ & Hmono).
  apply (give_up_steps r _ w); [..|exact Hmono].
  - unfold apply_gap. destruct (map_find w (r_rx r)); [|done]. by case_if.
  - intros w' Hw. unfold apply_gap. destruct (map_find w (r_rx r)); [case_if; [done|]|];
      unfold rx_of; simpl; by rewrite map_find_set_ne.
Qed.

Lemma take_steps r now : channel_steps offered (channel_of r) (channel_of (fst (reader_take r now))).
Proof.
  unfold reader_take. destruct (sweep_expired_locked now (r_queue r)) as [|s q] eqn:E; simpl;
    apply shorten_steps; (etrans; [|apply (sweep_sublist now)]); rewrite E; [done|by apply sublist_cons].
Qed.

Lemma available_steps r now : channel_steps offered (channel_of r) (channel_of (fst (available r now))).
Proof. apply shorten_steps, sweep_sublist. Qed.

(** The samples an operation offers. *)
Definition op_offers (op : ReaderOp) : Prop :=
  match op with OpEnqueue _ _ w seq data _ _ => offered w seq data | _ => True end.

Lemma reader_step_ok t op : reader_ok (tr_reader t) -> op_ok op -> reader_ok (tr_reader (reader_step t op)).
Proof.
  intros Hr. destruct op as [now1 now2 w seq data wq pub|w start stop|now|now]; simpl; intros Hop.
  - pose proof (enqueue_ok (tr_reader t) now1 now2 w seq data wq pub Hr Hop) as (Hr' & _).
    by destruct (enqueue _ _ _ _ _ _ _ _).
  - by apply gap_ok.
  - unfold reader_take. by destruct (sweep_expired_locked _ _).
  - done.
Qed.

Lemma reader_step_refines t op :
  reader_ok (tr_reader t) -> op_ok op -> op_offers op ->
  channel_steps offered (channel_of (tr_reader t)) (channel_of (tr_reader (reader_step t op))).
Proof.
  intros Hr. destruct op as [now1 now2 w seq data wq pub|w start stop|now|now]; simpl; intros Hop Ho.
  - pose proof (enqueue_steps (tr_reader t) now1 now2 w seq data wq pub Hr Hop Ho) as Hs.
    by destruct (enqueue _ _ _ _ _ _ _ _).
  - by apply gap_steps.
  - pose proof (take_steps (tr_reader t) now) as Hs.
    by destruct (reader_take (tr_reader t) now) as [r' [[? ?]|]].
  - apply available_steps.
Qed.
End refine.
