(* ===== verification/Integrity.v ===== *)
(** * What a participant vouches for

    A logic for computations that keep a participant truthful: every sample it queues,
    keeps or sends was published under its number with its bytes, and every
    announcement number it holds was announced.  Readers evolve by channel steps. *)

From stdpp Require Import relations.
From S2P Require Import Prelude Memory StdMap Guid Qos Frame Fragment Reassembler ReaderImpl WriterImpl Reliability Discovery Wire Participant ParticipantFacts Matching Session DataPath Publish Channel.

(** ** The type of a frame is its sixth byte *)

Lemma load_u8_lookup buf off b : load_u8 buf off = Done b -> buf !! Z.to_nat off = Some b.
Proof.
  unfold load_u8, load. case_decide; [|done]. destruct (take _ _) as [|x [|]] eqn:E; [done| |done].
  intros [= ->]. assert (Hx : take (Z.to_nat 1) (drop (Z.to_nat off) buf) !! 0%nat = Some b) by (by rewrite E).
  rewrite lookup_take_lt, lookup_drop in Hx by lia. by rewrite Nat.add_0_r in Hx.
Qed.

Lemma decode_header_type f h :
  decode_header f = Done h -> exists b, f !! 5%nat = Some b /\ hdr_type h = frame_type_of_u8 b.
Proof.
  unfold decode_header. case_if; [done|]. intros Hd. do 4 (apply bind_Done_inv in Hd as (? & _ & Hd)).
  revert Hd. case_if; [done|]. intros Hd. apply bind_Done_inv in Hd as (? & _ & Hd).
  revert Hd. case_if; [done|]. intros Hd. apply bind_Done_inv in Hd as (ty & Ety & Hd).
  do 2 (apply bind_Done_inv in Hd as (? & _ & Hd)). revert Hd. case_if; [done|]. intros [= <-].
  exists ty. split; [by apply load_u8_lookup in Ety|done].
Qed.

Lemma decode_announce_header f r :
  decode_announce f = Done r -> exists h, decode_header f = Done h /\ hdr_type h = ANNOUNCE.
Proof.
  unfold decode_announce. intros E. apply bind_Done_inv in E as (h & Eh & E). exists h. split; [done|].
  revert E. destruct (decide (hdr_type h = ANNOUNCE)) as [Ht|Ht]; [done|]. by rewrite bool_decide_false.
Qed.

(** The sixth byte survives what is stored behind the header. *)
Lemma store_keeps_type buf off bs buf' :
  store buf off bs = Done buf' -> 6 <= off -> buf' !! 5%nat = buf !! 5%nat.
Proof.
  intros Hs Ho. pose proof (store_lookup _ _ _ _ 5 Hs ltac:(lia)) as E.
  rewrite decide_False in E by lia. exact E.
Qed.

Lemma encode_header_type out t flags n out' :
  encode_header out t flags n = Done out' -> out' !! 5%nat = Some (frame_type_to_u8 t).
Proof.
  unfold encode_header. intros E. do 5 (apply bind_Done_inv in E as (? & _ & E)).
  apply bind_Done_inv in E as (o5 & E5 & E). apply bind_Done_inv in E as (o6 & E6 & E).
  rewrite (store_keeps_type _ _ _ _ E), (store_keeps_type _ _ _ _ E6) by lia.
  pose proof (store_lookup _ _ _ _ 5 E5 ltac:(lia)) as Hl. rewrite decide_True in Hl by (simpl; lia). exact Hl.
Qed.

Ltac chase_type :=
  repeat match goal with
  | H : (_ ≫= _) = Done _ |- _ => apply bind_Done_inv in H as (? & ? & H)
  end;
  repeat match goal with
  | H : store _ _ _ = Done ?o |- ?o !! 5%nat = _ =>
      rewrite (store_keeps_type _ _ _ _ H) by (unfold kHeaderSize; lia)
  end;
  match goal with H : encode_header _ _ _ _ = Done ?o |- ?o !! 5%nat = _ => exact (encode_header_type _ _ _ _ _ H) end.

Lemma encode_acknack_type r w b m f : encode_acknack r w b m = Done f -> f !! 5%nat = Some 3.
Proof. unfold encode_acknack. intros E. chase_type. Qed.
Lemma encode_heartbeat_type w a b f : encode_heartbeat w a b = Done f -> f !! 5%nat = Some 4.
Proof. unfold encode_heartbeat. intros E. chase_type. Qed.
Lemma encode_gap_type w r a b f : encode_gap w r a b = Done f -> f !! 5%nat = Some 6.
Proof. unfold encode_gap. intros E. chase_type. Qed.
Lemma encode_announce_type s n f : encode_announce s n = Done f -> f !! 5%nat = Some 5.
Proof. unfold encode_announce. intros E. chase_type. Qed.

(** The identity and the number of an announcement are read back whatever the rest of
    the snapshot is. *)
Lemma announce_identity s n f s' n' :
  guid_ok (participant_guid s) -> fits 64 n ->
  encode_announce s n = Done f -> decode_announce f = Done (s', n') ->
  participant_guid s' = participant_guid s /\ n' = n.
Proof.
  intros [Hg _] Hn. unfold encode_announce. rewrite encode_endpoints_eq. cbn [mbind res_bind].
  set (rest := put_u16 _ ++ _ ++ _). rewrite <- !app_assoc.
  set (body := guid_bytes _ ++ _). unfold kHeaderSize. rewrite encode_header_bytes by lia. cbn [mbind res_bind].
  rewrite store_fill_at by solve_len. intros [= <-]. unfold decode_announce. intros Hd.
  apply bind_Done_inv in Hd as (h & Eh & Hd). revert Hd. case_if; [done|]. intros Hd.
  apply bind_Done_inv in Hd as (bd & Eb & Hd). apply bind_Done_inv in Hd as (rd & Er & [= Hd]).
  assert (Hpre : exists m, bd = take m body).
  { unfold load in Eb. case_decide; [|done]. injection Eb as <-. eexists.
    rewrite drop_0. replace (12 + len body - 12 - len body) with 0 by lia. by rewrite app_nil_r. }
  destruct Hpre as [m ->]. unfold rd_snapshot in Er.
  assert (Hb : forall (b : list Z) p1 (r : list Z * Z), rd_bytes 16 b p1 = Done r -> p1 = 0 ->
    16 <= len b /\ r = (take 16 b, 16)).
  { intros b p1 r. unfold rd_bytes. case_if; [done|]. intros Hr ->. apply bind_Done_inv in Hr as (l & Hl & [= <-]).
    unfold load in Hl. case_decide; [|done]. injection Hl as <-. split; [lia|done]. }
  unfold mbind, parser_bind in Er. destruct (rd_bytes 16 (take m body) 0) as [rg| |] eqn:Eg; [|done..].
  destruct (Hb _ _ _ Eg eq_refl) as [Hl16 ->]. clear Hb Eg.
  destruct (rd_u64 (take m body) 16) as [ru| |] eqn:Eu; [|done..].
  assert (Hm : 24 <= len (take m body)).
  { unfold rd_u64 in Eu. revert Eu. case_if; [done|]. intros _. zbool. lia. }
  assert (E24 : take m body = guid_bytes (participant_guid s) ++ push_u64 n ++ drop 24 (take m body)).
  { rewrite <- (take_drop 24 (take m body)) at 1. rewrite app_assoc. f_equal. rewrite take_take.
    rewrite length_take in Hm. replace (24 `min` m)%nat with 24%nat by lia.
    unfold body. rewrite app_assoc. rewrite take_app_le by solve_len.
    apply take_ge. solve_len. }
  pose proof (reads_u64 n Hn (guid_bytes (participant_guid s)) (drop 24 (take m body))) as Hu.
  rewrite <- E24 in Hu. rewrite Hg in Hu. change (Z.of_nat 16) with 16 in Hu. rewrite Eu in Hu.
  destruct ru as [vn pos]. injection Hu as -> _.
  assert (Eg : take 16 (take m body) = guid_bytes (participant_guid s)).
  { rewrite E24, <- Hg. apply take_app_length. }
  rewrite Eg in Er. clear -Hd Er.
  destruct (rd_u16 _ _) as [[? ?]| |]; [|done..]. destruct (rd_many _ _ _ _) as [[? ?]| |]; [|done..].
  destruct (rd_u16 _ _) as [[? ?]| |]; [|done..]. destruct (rd_many _ _ _ _) as [[? ?]| |]; [|done..].
  unfold mret, parser_ret in Er. injection Er as <-. simpl in Hd. injection Hd as <- <-. simpl.
  split; [by destruct (participant_guid s)|done].
Qed.

(** ** Truthful frames and tables *)

Section truth.
(** Whose samples are vouched for, what was published, what was announced. *)
Context (ours : Guid -> Prop) (pub : Guid -> Z -> list Z -> Prop) (ann : Guid -> Z -> Prop).

Definition vouched (g : Guid) (s : Z) (d : list Z) : Prop := ours g -> pub g s d.

Definition vouched_frag (b : DataFragBody) : Prop :=
  ours (frag_writer b) -> exists d, pub (frag_writer b) (frag_seq b) d /\ frag_matches d b.

Record frame_true (f : list Z) : Prop := {
  ft_bytes : bytes_ok f;
  ft_data b : decode_data f = Done b -> vouched (data_writer b) (data_seq b) (data_payload b);
  ft_frag b : decode_data_frag f = Done b -> vouched_frag b;
  ft_announce s n : decode_announce f = Done (s, n) -> ann (participant_guid s) n;
}.

Definition writer_typed (wr : WriterImpl) : Prop :=
  guid_ok (w_guid wr) /\ names_typed (w_topic wr) (w_type wr) (w_qos wr) /\ fits 64 (w_birth_us wr).
Definition reader_typed (r : ReaderImpl) : Prop :=
  guid_ok (r_guid r) /\ names_typed (r_topic r) (r_type r) (r_qos r) /\ fits 64 (r_birth_us r).
(** What a reader announces of itself. *)
Definition reader_names (r : ReaderImpl) : Guid * list Z * list Z * QosProfile * Z :=
  (r_guid r, r_topic r, r_type r, r_qos r, r_birth_us r).

Definition writer_true (wr : WriterImpl) : Prop :=
  writer_typed wr /\
  Forall (fun e => cached_ok e /\ vouched (w_guid wr) (cs_seq e) (cs_data e)) (w_history wr).

Definition partial_true (k : PartialKey) (q : Partial) : Prop :=
  partial_ok q /\ (ours k.1 -> exists d bs, pub k.1 k.2 d /\ part_inv d bs q).

Definition reassembler_true (r : Reassembler) : Prop :=
  map_ok (partials r) /\ forall k q, map_find k (partials r) = Some q -> partial_true k q.

Record self_true (p : ParticipantImpl) : Prop := {
  st_prefix : length (p_prefix p) = 12%nat /\ bytes_ok (p_prefix p);
  st_guid : guid_ok (p_guid p);
  st_seq : fits 64 (p_announce_seq p);
  st_announced : ann (p_guid p) (p_announce_seq p);
  st_nodes : Forall node_typed (p_nodes p);
  st_writers_map : map_ok (p_writers p);
  st_writers kv : kv ∈ p_writers p -> writer_true kv.2;
  st_readers kv : kv ∈ p_readers p -> reader_ok kv.2;
  st_reader_types kv : kv ∈ p_readers p -> reader_typed kv.2;
  st_remote kv : kv ∈ p_remote p -> ann kv.1 (rp_announce_seq kv.2);
  st_reassemblers kv : kv ∈ p_reassemblers p -> reassembler_true kv.2;
}.

(** Every reader of [p'] was a reader of [p], or is at one of the addresses [fresh], and
    took only channel steps since. *)
Context (fresh : Z -> Prop).

Definition reader_from (p : ParticipantImpl) (kv' : Z * ReaderImpl) : Prop :=
  exists kv, kv ∈ p_readers p /\ kv.1 = kv'.1 /\
    r_guid kv.2 = r_guid kv'.2 /\ channel_steps vouched (channel_of kv.2) (channel_of kv'.2).

(** The participant's name and its announcement number. *)
Definition announces (p : ParticipantImpl) : Guid * Z := (p_guid p, p_announce_seq p).

Record evolves (p p' : ParticipantImpl) : Prop := {
  ev_announces : announces p' = announces p;
  ev_readers kv' : kv' ∈ p_readers p' ->
    reader_from p kv' \/ fresh kv'.1 /\ channel_steps vouched open_channel (channel_of kv'.2);
}.

Lemma evolves_refl p : evolves p p.
Proof. split; [done|]. intros kv Hkv. left. exists kv. by split_and!. Qed.

Lemma evolves_same p p' : announces p' = announces p -> p_readers p' = p_readers p -> evolves p p'.
Proof. intros Ea E. split; [done|]. intros kv. rewrite E. apply evolves_refl. Qed.

Lemma evolves_trans p1 p2 p3 : evolves p1 p2 -> evolves p2 p3 -> evolves p1 p3.
Proof.
  intros [A12 H12] [A23 H23]. split; [congruence|]. intros kv Hkv. destruct (H23 kv Hkv) as [(kv2 & Hkv2 & E2 & G2 & S2)|?]; [|by right].
  destruct (H12 kv2 Hkv2) as [(kv1 & Hkv1 & E1 & G1 & S1)|[Hf S1]].
  - left. exists kv1. split_and!; [done|congruence|congruence|by etrans].
  - right. split; [by rewrite <- E2|by etrans].
Qed.

Lemma elem_of_map_set {K V} `{EqDecision K, KeyLt K} (k : K) (v : V) (m : std_map K V) kv :
  kv ∈ map_set k v m -> kv = (k, v) \/ kv ∈ m.
Proof.
  induction m as [|[k' v'] m IH]; simpl; [intros ->%list_elem_of_singleton; by left|].
  destruct (decide (k = k')) as [->|]; [|destruct (key_lt k k')].
  - intros [-> |?]%elem_of_cons; [by left|]. right. by right.
  - intros [-> |?]%elem_of_cons; [by left|by right].
  - intros [-> |[?|?]%IH]%elem_of_cons; [right; by left|by left|]. right. by right.
Qed.

(** *** Fragments *)

Lemma fragment_true g seq pb data max_p flags fs :
  guid_ok g -> fits 64 seq -> fits 64 pb -> fits 16 flags -> bytes_ok data -> 64 + len data < 2 ^ 32 ->
  vouched g seq data -> fragment g seq pb (Some data) (len data) max_p flags = Done fs -> Forall frame_true fs.
Proof.
  intros Hg Hseq Hpub Hf Hb Hl Hv Hfs. pose proof (fragment_bytes_ok _ _ _ _ _ _ _ _ Hg Hb Hfs) as Hwire.
  destruct (Z.le_gt_cases (48 + len data) max_p) as [Hmax|Hmax].
  - rewrite (fragment_single g seq pb flags max_p data) in Hfs by done. injection Hfs as <-.
    pose proof (decode_data_bytes g seq pb data flags None [] Hg Hseq Hpub Hl Hf I) as Hdec.
    rewrite app_nil_r in Hdec. apply Forall_singleton.
    destruct (decode_data_header _ _ Hdec) as (h & Eh & Et). split; [exact (Forall_inv Hwire)|..].
    + intros b E. rewrite Hdec in E. by injection E as <-.
    + intros b (h' & Eh' & Et')%decode_data_frag_header. congruence.
    + intros s n (h' & Eh' & Et')%decode_announce_header. congruence.
  - destruct (Z.le_gt_cases max_p 56) as [Hn|Hn].
    { rewrite (fragment_too_narrow g seq pb flags max_p data) in Hfs by done. by injection Hfs as <-. }
    destruct (fragment_many g seq pb flags max_p data Hg Hseq Hpub Hf Hl Hn Hmax)
      as (fs0 & bs & E & HF & HT & HA & _). rewrite E in Hfs. injection Hfs as ->.
    apply Forall_forall. intros f Hin. apply list_elem_of_lookup in Hin as [i Hi].
    destruct (Forall2_lookup_l _ _ _ _ _ HF Hi) as (b & Hbi & Hdec). specialize (Hdec []).
    rewrite app_nil_r in Hdec. destruct (decode_data_frag_header _ _ Hdec) as (h & Eh & Et).
    split; [by rewrite Forall_lookup in Hwire; apply (Hwire i)|..].
    + intros b' (h' & Eh' & Et')%decode_data_header. congruence.
    + intros b' E'. rewrite Hdec in E'. injection E' as <-. apply list_elem_of_lookup_2 in Hbi.
      destruct (tile_ok g seq pb data bs Hg Hseq Hpub Hb ltac:(ulia) HT HA b Hbi) as (_ & Hk & Hm).
      unfold frag_key in Hk. injection Hk as Ew Es. unfold vouched_frag. rewrite Ew, Es. intros Ho.
      exists data. by split; [apply Hv|].
    + intros s n (h' & Eh' & Et')%decode_announce_header. congruence.
Qed.

(** Frames of the other types say nothing about samples or announcements. *)
Lemma control_true f ty :
  bytes_ok f -> f !! 5%nat = Some ty -> ty <> 1 -> ty <> 2 -> ty <> 5 -> frame_true f.
Proof.
  intros Hb Hf H1 H2 H5.
  assert (Hty : forall h t, decode_header f = Done h -> hdr_type h = t -> frame_type_of_u8 ty = t).
  { intros h t (b & Eb & Et)%decode_header_type. rewrite Hf in Eb. injection Eb as <-. congruence. }
  assert (Hne : frame_type_of_u8 ty <> DATA /\ frame_type_of_u8 ty <> DATA_FRAG /\ frame_type_of_u8 ty <> ANNOUNCE).
  { unfold frame_type_of_u8. repeat case_if; zbool; done || lia. }
  split; [done|..].
  - intros b (h & Eh & Et)%decode_data_header. destruct Hne as ([] & _). eauto.
  - intros b (h & Eh & Et)%decode_data_frag_header. destruct Hne as (_ & [] & _). eauto.
  - intros s n (h & Eh & Et)%decode_announce_header. destruct Hne as (_ & _ & []). eauto.
Qed.

Lemma acknack_true r w b m f : guid_ok r -> guid_ok w -> encode_acknack r w b m = Done f -> frame_true f.
Proof.
  intros Hr Hw E. apply (control_true f 3); [by eapply (encode_acknack_bytes_ok r w)|by eapply encode_acknack_type|done..].
Qed.
Lemma heartbeat_true w a b f : guid_ok w -> encode_heartbeat w a b = Done f -> frame_true f.
Proof.
  intros Hw E. apply (control_true f 4); [by eapply (encode_heartbeat_bytes_ok w)|by eapply encode_heartbeat_type|done..].
Qed.
Lemma gap_true w r a b f : guid_ok w -> guid_ok r -> encode_gap w r a b = Done f -> frame_true f.
Proof.
  intros Hw Hr E. apply (control_true f 6); [by eapply (encode_gap_bytes_ok w r)|by eapply encode_gap_type|done..].
Qed.

Lemma snapshot_true_typed p : self_true p -> snapshot_typed (snapshot_locked p).
Proof.
  intros Hp. split_and!; [apply Hp|apply (st_nodes _ Hp)|]. simpl. apply Forall_app. split; apply Forall_fmap, Forall_forall.
  - intros kv Hkv. destruct (st_writers _ Hp _ Hkv) as [(? & ? & ?) _].
    split; [done|]. split; [split; simpl; done || ulia|by split].
  - intros kv Hkv. destruct (st_reader_types _ Hp _ Hkv) as (? & ? & ?).
    split; [done|]. split; [split; simpl; done || ulia|by split].
Qed.

Lemma announce_true p f :
  self_true p -> encode_announce (snapshot_locked p) (p_announce_seq p) = Done f -> frame_true f.
Proof.
  intros Hp Hf. pose proof (encode_announce_type _ _ _ Hf) as H5.
  assert (Hty : forall h t, decode_header f = Done h -> hdr_type h = t -> t = ANNOUNCE).
  { intros h t (b & Eb & Et)%decode_header_type. rewrite H5 in Eb. injection Eb as <-. intros <-. done. }
  split; [eapply encode_announce_bytes_ok; [by apply snapshot_true_typed|exact Hf]|..].
  - intros b (h & Eh & Et)%decode_data_header. by specialize (Hty _ _ Eh Et).
  - intros b (h & Eh & Et)%decode_data_frag_header. by specialize (Hty _ _ Eh Et).
  - intros s n Hd. destruct (announce_identity _ _ _ _ _ (st_guid _ Hp : guid_ok (participant_guid (snapshot_locked p)))
      (st_seq _ Hp) Hf Hd) as [-> ->]. apply Hp.
Qed.

(** *** Reassembly *)

Context (pub_fun : forall g s d d', pub g s d -> pub g s d' -> d = d').

Lemma reassembler_true_ok r : reassembler_true r -> reasm_ok r.
Proof. intros [_ Hr] k q Hk. by apply (Hr k). Qed.

Lemma add_fragment_true r n1 n2 b r' o :
  reassembler_true r -> data_frag_ok b -> vouched_frag b ->
  add_fragment_body r n1 n2 b = Done (r', o) ->
  reassembler_true r' /\ match o with Some d => vouched (frag_writer b) (frag_seq b) d | None => True end.
Proof.
  intros Hr Hb Hv E. pose proof (reassembler_true_ok r Hr) as Hok. destruct Hr as [Hmap Hr].
  destruct (add_fragment_frame r n1 n2 b Hok Hb) as (r1 & o1 & E1 & Hok1 & Hne).
  rewrite E in E1. injection E1 as <- <-.
  assert (Hstep : ours (frag_writer b) -> exists d, pub (frag_writer b) (frag_seq b) d /\
    match o with Some d' => d' = d | None => True end /\
    forall q, map_find (frag_key b) (partials r') = Some q -> exists bs, part_inv d bs q).
  { intros Ho. destruct (Hv Ho) as (d & Hd & Hm). exists d. split; [done|].
    assert (Hinv : forall q, map_find (frag_key b) (partials r) = Some q -> exists bs, part_inv d bs q).
    { intros q Hq. destruct (Hr _ _ Hq) as [_ Hq']. destruct (Hq' Ho) as (d' & bs & Hd' & Hi).
      rewrite (pub_fun _ _ _ _ Hd Hd'). by exists bs. }
    destruct (decide (d = [])) as [->|Hnil].
    { destruct Hm as [Ht _]. simpl in Ht. unfold add_fragment_body, add_fragment in E. rewrite Ht in E.
      simpl in E. by injection E as <- <-. }
    assert (Hk : exists bs, key_inv r (frag_key b) d bs).
    { unfold key_inv. destruct (map_find (frag_key b) (partials r)) as [q|]; [by apply Hinv|by exists []]. }
    destruct Hk as [bs Hk].
    destruct (add_fragment_step r n1 n2 (frag_key b) d bs b Hok Hb eq_refl Hm Hnil Hk)
      as (r2 & [(_ & E2 & Hnone)|(_ & E2 & Hk2)]); rewrite E in E2; injection E2 as -> ->.
    - split; [done|]. by rewrite Hnone.
    - split; [done|]. intros q Hq. unfold key_inv in Hk2. rewrite Hq in Hk2. by eexists. }
  split; [split; [by eapply add_fragment_map_ok|]|].
  - intros k q Hq. split; [by apply (Hok1 k)|]. intros Ho. destruct (decide (k = frag_key b)) as [->|Hk].
    + destruct (Hstep Ho) as (d & Hd & _ & Hi). destruct (Hi q Hq) as [bs ?]. by exists d, bs.
    + rewrite Hne in Hq by done. by apply (Hr k q).
  - destruct o as [d'|]; [|done]. intros Ho. by destruct (Hstep Ho) as (d & Hd & -> & _).
Qed.

(** *** A logic for truthful computations *)

Section logic.
Context {T : Type} `{LoggedTransport T}.
Implicit Types w : World T.

(** Everything handed to a transport was true. *)
Definition transports_true w : Prop :=
  forall t pf, t ∈ w_transports w -> pf ∈ sent_log t -> frame_true pf.2.

Definition world_true w : Prop := self_true (w_self w) /\ transports_true w /\ clocks_ok w.

(** From truthful worlds [m] leads only to truthful worlds, readers take channel steps,
    and the result satisfies [Q]. *)
Definition carries {A} (m : act T A) (Q : A -> Prop) : Prop :=
  forall w a w', world_true w -> m w = Done (a, w') -> world_true w' /\ evolves (w_self w) (w_self w') /\ Q a.

Lemma carries_weaken {A} (m : act T A) (P Q : A -> Prop) :
  carries m P -> (forall a, P a -> Q a) -> carries m Q.
Proof. intros Hm HPQ w a w' Hw E. destruct (Hm w a w' Hw E) as (? & ? & ?). auto. Qed.

Lemma carries_ret {A} (a : A) (Q : A -> Prop) : Q a -> carries (mret a) Q.
Proof. intros HQ w b w' Hw [= <- <-]. split_and!; [done|apply evolves_refl|done]. Qed.

Lemma carries_bind {A B} (P : A -> Prop) (Q : B -> Prop) (m : act T A) (k : A -> act T B) :
  carries m P -> (forall a, P a -> carries (k a) Q) -> carries (m ≫= k) Q.
Proof.
  intros Hm Hk w b w' Hw. unfold mbind, act_bind. destruct (m w) as [[a w1]| |] eqn:E; [|done..].
  destruct (Hm _ _ _ Hw E) as (Hw1 & He1 & HP). intros E'.
  destruct (Hk a HP _ _ _ Hw1 E') as (Hw2 & He2 & HQ). split_and!; [done|by eapply evolves_trans|done].
Qed.

Lemma carries_ub {A} (Q : A -> Prop) : carries (fun _ => UB) Q.
Proof. by intros w a w' _. Qed.

Lemma carries_self : carries get_self self_true.
Proof. intros w a w' Hw [= <- <-]. split_and!; [done|apply evolves_refl|apply Hw]. Qed.

Lemma carries_modify (f : ParticipantImpl -> ParticipantImpl) :
  (forall p, self_true p -> self_true (f p) /\ evolves p (f p)) -> carries (modify f) (fun _ => True).
Proof.
  intros Hf w a w' (Hs & Ht & Hc) [= <- <-]. destruct (Hf _ Hs) as [Hs' He]. by split_and!.
Qed.

Lemma carries_fire e : carries (fire e) (fun _ => True).
Proof. intros w a w' Hw [= <- <-]. split_and!; [done|apply evolves_refl|done]. Qed.

Lemma carries_tick {A} (f : World T -> A) (Q : A -> Prop) :
  (forall w, clocks_ok w -> Q (f w)) -> carries (tick f) Q.
Proof. intros HQ w a w' Hw [= <- <-]. split_and!; [done|apply evolves_refl|apply HQ, Hw]. Qed.

Lemma carries_encoded {A} (r : res A) : carries (encoded r) (fun a => r = Done a).
Proof.
  intros w a w' Hw E. unfold encoded in E. apply bind_Done_inv in E as (x & Er & [= <- <-]).
  split_and!; [done|apply evolves_refl|done].
Qed.

Lemma carries_decoded {A} (r : res A) :
  carries (decoded r) (fun o => match o with Some a => r = Done a | None => True end).
Proof.
  intros w o w' Hw. unfold decoded. destruct r as [a| |]; [| |done]; intros [= <- <-];
    (split_and!; [done|apply evolves_refl|done]).
Qed.

Lemma carries_for_each {A} (l : list A) (f : A -> act T unit) :
  (forall a, a ∈ l -> carries (f a) (fun _ => True)) -> carries (for_each l f) (fun _ => True).
Proof.
  induction l as [|a l IH]; intros Hf; cbn [for_each]; [by apply carries_ret|].
  eapply carries_bind; [apply Hf; left|]. intros u _. apply IH. intros a' ?. apply Hf. by right.
Qed.

Lemma carries_mapM {A B} (Q : B -> Prop) (l : list A) (f : A -> act T B) :
  (forall a, a ∈ l -> carries (f a) Q) -> carries (mapM f l) (Forall Q).
Proof.
  induction l as [|a l IH]; intros Hf; cbn [mapM]; [by apply carries_ret|].
  eapply carries_bind; [apply Hf; left|]. intros b HQ. cbv beta.
  eapply carries_bind; [apply IH; intros a' ?; apply Hf; by right|]. intros bs Hbs. cbv beta.
  apply carries_ret. by constructor.
Qed.

(** *** Sending *)

Lemma carries_send_frame peer f : frame_true f -> carries (send_frame peer f) (fun _ => True).
Proof.
  intros Hf w a w' (Hs & Ht & Hc). unfold send_frame. cbv zeta.
  generalize (Z.to_nat (peer_transport_index peer)). intros idx.
  case_if; [intros [= <- <-]; split_and!; [done|apply evolves_refl|done]|].
  destruct (w_transports w !! _) as [t|] eqn:El; [|intros [= <- <-]; split_and!; [done|apply evolves_refl|done]].
  pose proof (sent_log_send t (peer_backend_id peer) f) as Hlog.
  destruct (transport_send t _ _) as [t' ok]. intros [= <- <-].
  split_and!; [split_and!; [done| |done]|apply evolves_refl|done]. intros t0 pf Hin Hpf. simpl in Hin, Hlog.
  apply list_elem_of_lookup in Hin as [i Hi]. apply list_lookup_insert_Some in Hi as [(_ & <- & _)|(_ & Hi)].
  - rewrite Hlog in Hpf. apply elem_of_app in Hpf as [Hpf| ->%list_elem_of_singleton]; [|done].
    eapply Ht; [by eapply list_elem_of_lookup_2|done].
  - eapply Ht; [by eapply list_elem_of_lookup_2|done].
Qed.

Lemma carries_send_unit peer f : frame_true f -> carries (_ ← send_frame peer f; mret tt) (fun _ => True).
Proof. intros Hf. eapply carries_bind; [by apply carries_send_frame|]. intros. by apply carries_ret. Qed.

Lemma carries_max_payload peer : carries (max_payload peer) (fun _ => True).
Proof.
  intros w a w' Hw. unfold max_payload. destruct (w_transports w !! _); intros [= <- <-];
    (split_and!; [done|apply evolves_refl|done]).
Qed.

Lemma carries_send_frames peer fs ok : Forall frame_true fs -> carries (send_frames peer fs ok) (fun _ => True).
Proof.
  intros Hfs. revert ok. induction Hfs as [|f fs Hf Hfs IH]; intros ok; cbn [send_frames]; [by apply carries_ret|].
  eapply carries_bind; [by apply carries_send_frame|]. intros sent _. apply IH.
Qed.

(** A sample that is vouched for and within the bounds of a cached one. *)
Definition sendable (g : Guid) (seq pb : Z) (data : list Z) : Prop :=
  guid_ok g /\ fits 64 seq /\ fits 64 pb /\ bytes_ok data /\ 64 + len data < 2 ^ 32 /\ vouched g seq data.

Lemma history_sendable p kv e :
  self_true p -> kv ∈ p_writers p -> e ∈ w_history kv.2 ->
  sendable (w_guid kv.2) (cs_seq e) (cs_pub_time_ms e) (cs_data e).
Proof.
  intros Hp Hkv He. destruct (st_writers _ Hp _ Hkv) as [[Hg _] Hh]. rewrite Forall_forall in Hh.
  destruct (Hh _ He) as [(? & ? & ? & ?) ?]. by split_and!.
Qed.

Lemma carries_send_sample peer g seq pb data q :
  sendable g seq pb data -> carries (send_sample_to peer g seq pb data (reliable_flag q)) (fun _ => True).
Proof.
  intros (Hg & Hs & Hp & Hb & Hl & Hv). unfold send_sample_to.
  eapply carries_bind; [apply carries_max_payload|]. intros max_p _. case_if; [by apply carries_ret|].
  rewrite wrap_id by ulia. eapply carries_bind; [apply carries_encoded|]. intros fs Hfs. cbv beta.
  eapply carries_bind; [|intros ok _; by apply carries_ret].
  apply carries_send_frames. by eapply (fragment_true g seq pb data); [..|exact Hfs]; auto using reliable_flag_fits.
Qed.

Lemma carries_send_sample_unit peer g seq pb data q :
  sendable g seq pb data ->
  carries (_ ← send_sample_to peer g seq pb data (reliable_flag q); mret tt) (fun _ => True).
Proof. intros Hs. eapply carries_bind; [by apply carries_send_sample|]. intros. by apply carries_ret. Qed.

(** *** The tables *)

Lemma self_true_readers p rs :
  self_true p -> (forall kv, kv ∈ rs -> reader_ok kv.2 /\ reader_typed kv.2) -> self_true (set_readers p rs).
Proof. intros [] Hrs. split; try done; intros kv Hkv; by apply Hrs. Qed.

Lemma st_reader p kv : self_true p -> kv ∈ p_readers p -> reader_ok kv.2 /\ reader_typed kv.2.
Proof. intros Hp Hkv. split; [by apply (st_readers _ Hp)|by apply (st_reader_types _ Hp)]. Qed.

Lemma reader_typed_names r r' : reader_names r' = reader_names r -> reader_typed r -> reader_typed r'.
Proof. unfold reader_names, reader_typed. by intros [= -> -> -> -> ->]. Qed.

(** Updates that leave the readers alone. *)
Lemma carries_update (f : ParticipantImpl -> ParticipantImpl) :
  (forall p, self_true p -> self_true (f p)) ->
  (forall p, announces (f p) = announces p /\ p_readers (f p) = p_readers p) ->
  carries (modify f) (fun _ => True).
Proof. intros Hf Hr. apply carries_modify. intros p Hp. split; [by apply Hf|]. destruct (Hr p). by apply evolves_same. Qed.

(** One reader of the table takes channel steps. *)
Lemma reader_update p ptr r r' :
  self_true p -> map_find ptr (p_readers p) = Some r -> reader_names r' = reader_names r -> reader_ok r' ->
  channel_steps vouched (channel_of r) (channel_of r') ->
  self_true (set_readers p (map_set ptr r' (p_readers p))) /\
  evolves p (set_readers p (map_set ptr r' (p_readers p))).
Proof.
  intros Hp Hr En Hok Hc. apply map_find_In in Hr. split.
  - apply self_true_readers; [done|]. intros kv [-> |Hkv]%elem_of_map_set; [|by apply (st_reader p)].
    split; [done|]. eapply reader_typed_names; [exact En|]. apply (st_reader_types _ Hp _ Hr).
  - split; [done|]. intros kv [-> |Hkv]%elem_of_map_set; [|by apply evolves_refl]. left. exists (ptr, r).
    split_and!; [done..| |done]. unfold reader_names in En. simpl. congruence.
Qed.

Lemma carries_enqueue_at ptr g seq data wq pb :
  fits 64 seq -> vouched g seq data -> carries (enqueue_at ptr g seq data wq pb) (fun _ => True).
Proof.
  intros Hseq Hv. unfold enqueue_at. intros w out w' Hw. unfold mbind, act_bind, system_now_ms, tick, get_self.
  cbn [w_self]. destruct (map_find ptr (p_readers (w_self w))) as [r|] eqn:Er; [|done].
  set (n1 := w_sys w _ / _). set (n2 := w_sys _ _ / _).
  pose proof (enqueue_reader_view r n1 n2 g seq data wq pb) as Hview.
  pose proof (st_readers _ (proj1 Hw) _ (map_find_In _ _ _ Er)) as Hok. simpl in Hok.
  pose proof (enqueue_steps vouched r n1 n2 g seq data wq pb Hok Hseq Hv) as Hsteps.
  destruct (enqueue_ok r n1 n2 g seq data wq pb Hok Hseq) as (Hok' & _).
  destruct (enqueue r n1 n2 g seq data wq pb) as [r' o]. unfold modify. intros [= <- <-]. simpl in *.
  unfold reader_view in Hview. destruct Hw as (Hs & Ht & Hc).
  destruct (reader_update _ ptr r r' Hs Er ltac:(unfold reader_names; congruence) Hok' Hsteps) as [Hs' He].
  by split_and!.
Qed.

Lemma carries_fire_callback ptr : carries (fire_callback ptr) (fun _ => True).
Proof.
  unfold fire_callback. eapply carries_bind; [apply carries_self|]. intros p _.
  destruct (map_find ptr (p_readers p)); [|apply carries_ub]. case_if; [apply carries_fire|by apply carries_ret].
Qed.

Lemma carries_fire_graph : carries fire_graph_callback (fun _ => True).
Proof.
  unfold fire_graph_callback. eapply carries_bind; [apply carries_self|]. intros p _.
  case_if; [apply carries_fire|by apply carries_ret].
Qed.

Lemma self_true_matched p : self_true p -> self_true (recompute_matches p).
Proof.
  intros [Hx Hg Hn Ha Hnd Hm Hw Hr Hrt Hrem Hre]. rewrite recompute_eq. split; cbn; try done.
  - by apply map_ok_view.
  - intros kv (kv0 & -> & Hkv)%list_elem_of_fmap. exact (Hw _ Hkv).
  - intros kv (kv0 & -> & Hkv)%list_elem_of_fmap. exact (Hr _ Hkv).
  - intros kv (kv0 & -> & Hkv)%list_elem_of_fmap. exact (Hrt _ Hkv).
Qed.

Lemma recompute_evolves p : evolves p (recompute_matches p).
Proof.
  rewrite recompute_eq. split; [done|]. intros kv (kv0 & -> & Hkv)%list_elem_of_fmap. left. exists kv0. by split_and!.
Qed.

Lemma carries_recompute : carries (modify recompute_matches) (fun _ => True).
Proof. apply carries_modify. intros p Hp. split; [by apply self_true_matched|apply recompute_evolves]. Qed.

Lemma carries_last_seen f : carries (modify (fun p => set_last_seen p (f p))) (fun _ => True).
Proof. apply carries_update; [|done]. intros p []. by split. Qed.

Lemma self_true_set_remote p key rp :
  self_true p -> ann key (rp_announce_seq rp) -> self_true (set_remote p (map_set key rp (p_remote p))).
Proof.
  intros [Hx Hg Hn Ha Hnd Hm Hw Hr Hrt Hrem Hre] Hann. split; cbn; try done.
  intros kv [-> |Hkv]%elem_of_map_set; [done|by apply Hrem].
Qed.

(** *** Handlers *)

Lemma carries_now_ms : carries system_now_ms (fun _ => True).
Proof. by apply carries_tick. Qed.
Lemma carries_steady : carries steady_now (fun _ => True).
Proof. by apply carries_tick. Qed.
Lemma carries_steady_ms : carries steady_now_ms (fun _ => True).
Proof. by apply carries_tick. Qed.

Lemma carries_deliver_sample peer g seq pb data :
  guid_ok g -> fits 64 seq -> vouched g seq data -> carries (deliver_sample peer g seq pb data) (fun _ => True).
Proof.
  intros Hg Hseq Hv. unfold deliver_sample. eapply carries_bind; [apply carries_steady_ms|]. intros now _.
  eapply carries_bind; [apply carries_last_seen|]. intros u _.
  eapply carries_bind; [apply carries_self|]. intros p Hp.
  destruct (find_remote_endpoint_locked p g) as [ep|]; [|by apply carries_ret].
  eapply (carries_bind (Forall (fun o => guid_ok o.1.2))).
  { apply carries_mapM. intros kv [_ Hkv]%list_elem_of_filter.
    eapply carries_bind; [by apply carries_enqueue_at|]. intros out _. apply carries_ret.
    apply (st_reader_types _ Hp _ Hkv). }
  intros outs Houts. rewrite Forall_forall in Houts. eapply carries_bind.
  { apply carries_for_each. intros o Ho. case_if; [|by apply carries_ret].
    eapply carries_bind; [apply carries_encoded|]. intros f Hf. cbv beta.
    apply carries_send_unit, (acknack_true _ _ _ _ _ (Houts _ Ho) Hg Hf). }
  intros u' _. apply carries_for_each. intros o _. case_if; [apply carries_fire_callback|by apply carries_ret].
Qed.

Lemma carries_handle_acknack peer frame : bytes_ok frame -> carries (handle_acknack peer frame) (fun _ => True).
Proof.
  intros Hb. unfold handle_acknack. eapply carries_bind; [apply carries_decoded|]. intros [b|] Hd; [|by apply carries_ret].
  pose proof (decode_acknack_safe frame Hb) as Hsafe. rewrite Hd in Hsafe. destruct Hsafe as (Hrg & Hwg & _).
  eapply carries_bind; [apply carries_self|]. intros p Hp.
  destruct (find_writer_locked p (ack_writer b)) as [ptr|] eqn:Ew; [|by apply carries_ret].
  destruct (find_remote_endpoint_locked p (ack_reader b)) as [ep|]; [|by apply carries_ret].
  destruct (map_find ptr (p_writers p)) as [wr|] eqn:Hwr; [|apply carries_ub].
  unfold find_writer_locked in Ew. destruct (find _ (p_writers p)) as [kv|] eqn:Ef; [|done]. injection Ew as <-.
  apply find_some in Ef as [Hin Hg%bool_decide_eq_true]. apply list_elem_of_In in Hin.
  rewrite (entry_find _ _ (st_writers_map _ Hp) Hin) in Hwr. injection Hwr as <-.
  set (clamp := bool_decide _).
  destruct (acknack_scan_within kv.2 clamp (ep_birth_us ep) (ack_base_seq b) (ack_bitmap b)) as [Hre _].
  destruct (acknack_scan kv.2 clamp _ _ _) as [resend u]. simpl in Hre. rewrite Forall_forall in Hre.
  eapply carries_bind.
  { apply carries_for_each. intros e He. apply carries_send_sample_unit.
    rewrite <- Hg. apply (history_sendable p); auto. }
  intros u' _. case_if; [|by apply carries_ret]. eapply carries_bind; [apply carries_encoded|].
  intros f Hf. cbv beta. apply carries_send_unit, (gap_true _ _ _ _ _ Hwg Hrg Hf).
Qed.

(** A GAP applied to the reader it names. *)
Lemma carries_gap_at (b : GapBody) :
  fits 64 (gap_end b) ->
  carries (modify (fun p =>
    match find_reader_locked p (gap_reader b) with
    | None => p
    | Some ptr =>
        set_readers p (map_adjust (fun r => apply_gap r (gap_writer b) (gap_start b) (gap_end b)) ptr (p_readers p))
    end)) (fun _ => True).
Proof.
  intros Hend.
  apply carries_modify. intros p Hp.
  destruct (find_reader_locked p (gap_reader b)) as [ptr|]; [|split; [done|apply evolves_refl]].
  assert (Hadj : forall kv, kv ∈ map_adjust (fun r => apply_gap r (gap_writer b) (gap_start b) (gap_end b)) ptr (p_readers p) ->
    exists kv0, kv0 ∈ p_readers p /\ kv0.1 = kv.1 /\
      (kv.2 = kv0.2 \/ kv.2 = apply_gap kv0.2 (gap_writer b) (gap_start b) (gap_end b))).
  { intros kv (kv0 & -> & Hin)%list_elem_of_fmap. exists kv0. split; [done|].
    case_decide; simpl; by auto. }
  split.
  - apply self_true_readers; [done|]. intros kv Hkv. destruct (Hadj kv Hkv) as (kv0 & Hin & _ & [-> | ->]);
      [by apply (st_reader p)|]. split; [apply gap_ok; [by apply (st_readers _ Hp)|done]|].
    eapply reader_typed_names; [|apply (st_reader_types _ Hp _ Hin)].
    pose proof (apply_gap_reader_view kv0.2 (gap_writer b) (gap_start b) (gap_end b)) as Hv.
    unfold reader_view in Hv. unfold reader_names. congruence.
  - split; [done|]. intros kv Hkv. destruct (Hadj kv Hkv) as (kv0 & Hin & E1 & [E2|E2]); left; exists kv0; rewrite E2; split_and!; try done.
    + pose proof (apply_gap_reader_view kv0.2 (gap_writer b) (gap_start b) (gap_end b)) as Hv.
      unfold reader_view in Hv. congruence.
    + apply gap_steps; [by apply (st_readers _ Hp)|done].
Qed.

Lemma carries_handle_gap peer frame : bytes_ok frame -> carries (handle_gap peer frame) (fun _ => True).
Proof.
  intros Hb. unfold handle_gap. eapply carries_bind; [apply carries_decoded|].
  intros [b|] Hd; [|by apply carries_ret]. case_if; [by apply carries_ret|].
  pose proof (decode_gap_safe frame Hb) as Hsafe. rewrite Hd in Hsafe. apply carries_gap_at, Hsafe.
Qed.

Lemma carries_handle_heartbeat peer frame : bytes_ok frame -> carries (handle_heartbeat peer frame) (fun _ => True).
Proof.
  intros Hb. unfold handle_heartbeat. eapply carries_bind; [apply carries_decoded|]. intros [b|] Hd; [|by apply carries_ret].
  pose proof (decode_heartbeat_safe frame Hb) as Hsafe. rewrite Hd in Hsafe. destruct Hsafe as (Hwg & _).
  eapply carries_bind; [apply carries_steady_ms|]. intros now _.
  eapply carries_bind; [apply carries_last_seen|]. intros u _.
  eapply carries_bind; [apply carries_self|]. intros p Hp.
  destruct (find_remote_endpoint_locked p _) as [ep|]; [|by apply carries_ret].
  apply carries_for_each. intros nk Hnk. eapply carries_bind; [apply carries_encoded|]. intros f Hf. cbv beta.
  assert (Hrg : guid_ok nk.1.1).
  { apply list_elem_of_omap in Hnk as (kv & Hkv & Enk). revert Enk. cbv zeta. case_if; [done|]. case_if; [done|].
    destruct (nack_state kv.2 _). case_if; [|done]. intros [= <-]. apply (st_reader_types _ Hp _ Hkv). }
  apply carries_send_unit, (acknack_true _ _ _ _ _ Hrg Hwg Hf).
Qed.

Lemma carries_replay peer eps : carries (replay_history_to_peer peer eps) (fun _ => True).
Proof.
  unfold replay_history_to_peer. case_if; [by apply carries_ret|].
  eapply carries_bind; [apply carries_now_ms|]. intros now _.
  eapply carries_bind; [apply carries_self|]. intros p Hp. apply carries_for_each. intros t Ht.
  destruct (replay_todo_in _ _ _ _ Ht) as (kv & Hkv & He & -> & ->).
  by apply carries_send_sample_unit, (history_sendable p).
Qed.

Lemma carries_handle_announce peer frame :
  frame_true frame -> carries (handle_announce peer frame) (fun _ => True).
Proof.
  intros Hf. unfold handle_announce. eapply carries_bind; [apply carries_decoded|].
  intros [[snap seq]|] Hd; [|by apply carries_ret]. pose proof (ft_announce _ Hf _ _ Hd) as Hann.
  eapply carries_bind; [apply carries_self|]. intros p Hp.
  assert (Hset : forall rp, ann (participant_guid snap) (rp_announce_seq rp) ->
    carries (modify (fun p => set_remote p (map_set (participant_guid snap) rp (p_remote p)))) (fun _ => True)).
  { intros rp Hrp. apply carries_update; [|done]. intros p' Hp'. by apply self_true_set_remote. }
  eapply (carries_bind (fun _ => True)).
  { destruct (map_find (participant_guid snap) (p_remote p)) as [rp|] eqn:Erp; [|by apply carries_ret].
    eapply carries_bind; [apply carries_steady_ms|]. intros now _.
    eapply carries_bind; [apply Hset; simpl; apply (st_remote _ Hp _ (map_find_In _ _ _ Erp))|].
    intros u _. by apply carries_ret. }
  intros stale _. case_if; [by apply carries_ret|].
  eapply carries_bind; [apply carries_steady_ms|]. intros now _.
  eapply carries_bind; [by apply Hset|]. intros u _.
  eapply carries_bind; [apply carries_replay|]. intros u' _.
  case_if; [|by apply carries_ret]. eapply carries_bind; [apply carries_recompute|]. intros. apply carries_fire_graph.
Qed.

Lemma carries_reassemble peer b :
  data_frag_ok b -> vouched_frag b ->
  carries (reassemble peer b)
    (fun o => match o with Some d => vouched (frag_writer b) (frag_seq b) d | None => True end).
Proof.
  intros Hb Hv. unfold reassemble. eapply carries_bind; [apply carries_steady|]. intros n1 _.
  eapply carries_bind; [apply carries_steady|]. intros n2 _.
  eapply carries_bind; [apply carries_self|]. intros p Hp.
  eapply carries_bind; [apply carries_encoded|]. intros [r' o] E. cbv beta in E.
  assert (Hr : reassembler_true (default new_reassembler (map_find peer (p_reassemblers p)))).
  { destruct (map_find peer (p_reassemblers p)) as [r|] eqn:Er; simpl; [|split; [apply map_ok_nil|done]].
    apply (st_reassemblers _ Hp _ (map_find_In _ _ _ Er)). }
  destruct (add_fragment_true _ _ _ _ _ _ Hr Hb Hv E) as [Hr' Ho].
  eapply carries_bind; [|intros u _; by apply carries_ret].
  apply carries_update; [|done]. intros p' []. split; cbn; try done.
  intros kv [-> |?]%elem_of_map_set; auto.
Qed.

Lemma carries_handle_bytes peer frame :
  bytes_ok frame -> frame_true frame -> carries (handle_bytes peer frame) (fun _ => True).
Proof.
  intros Hb Hf. unfold handle_bytes. eapply carries_bind; [apply carries_decoded|].
  intros [h|] _; [|by apply carries_ret]. destruct (hdr_type h).
  - eapply carries_bind; [apply carries_decoded|]. intros [b|] Hd; [|by apply carries_ret].
    pose proof (decode_data_safe frame Hb) as Hs. rewrite Hd in Hs.
    apply carries_deliver_sample; [apply Hs|apply Hs|by apply (ft_data _ Hf)].
  - eapply carries_bind; [apply carries_decoded|]. intros [b|] Hd; [|by apply carries_ret].
    pose proof (decode_data_frag_safe frame Hb) as Hs. rewrite Hd in Hs.
    eapply carries_bind; [apply carries_reassemble; [done|by apply (ft_frag _ Hf)]|].
    intros [d|] Hv; [|by apply carries_ret]. apply carries_deliver_sample; [apply Hs|apply Hs|done].
  - by apply carries_handle_acknack.
  - by apply carries_handle_heartbeat.
  - by apply carries_handle_announce.
  - by apply carries_handle_gap.
  - by apply carries_ret.
Qed.

(** *** Operations *)

Lemma carries_send_announce_frame peer p :
  self_true p ->
  carries (frame ← encoded (encode_announce (snapshot_locked p) (p_announce_seq p));
           _ ← send_frame peer frame; mret tt) (fun _ => True).
Proof.
  intros Hp. eapply carries_bind; [apply carries_encoded|]. intros f Hf. cbv beta.
  by eapply carries_send_unit, announce_true.
Qed.

Lemma carries_handle_peer_up peer : carries (handle_peer_up peer) (fun _ => True).
Proof.
  unfold handle_peer_up. eapply carries_bind.
  { apply (carries_update (fun p => set_peers p (set_insert peer (p_peers p)))); [|done]. intros p []. by split. }
  intros u _. unfold send_announce. eapply carries_bind; [apply carries_self|]. intros p Hp.
  by apply carries_send_announce_frame.
Qed.

Lemma carries_handle_peer_down peer : carries (handle_peer_down peer) (fun _ => True).
Proof.
  unfold handle_peer_down. eapply carries_bind; [apply carries_self|]. intros p _. eapply carries_bind.
  { apply carries_update; [|done]. intros p' [Hx Hg Hn Ha Hnd Hm Hw Hr Hrt Hrem Hre]. split; cbn; try done.
    - intros kv [_ Hkv]%list_elem_of_filter. by apply Hrem.
    - intros kv [_ Hkv]%list_elem_of_filter. by apply Hre. }
  intros u _. case_if; [|by apply carries_ret].
  eapply carries_bind; [apply carries_recompute|]. intros. apply carries_fire_graph.
Qed.

Lemma carries_broadcast peers f :
  frame_true f -> carries (for_each peers (fun peer => _ ← send_frame peer f; mret tt)) (fun _ => True).
Proof. intros Hf. apply carries_for_each. intros peer _. by apply carries_send_unit. Qed.

Lemma carries_assert_liveliness ptr : carries (assert_liveliness ptr) (fun _ => True).
Proof.
  unfold assert_liveliness, broadcast_writer_heartbeat. eapply carries_bind; [apply carries_self|]. intros p Hp.
  destruct (map_find ptr (p_writers p)) as [wr|] eqn:Hwr; [|apply carries_ub].
  destruct (st_writers _ Hp _ (map_find_In _ _ _ Hwr)) as [[Hg _] _].
  eapply carries_bind; [apply carries_encoded|]. intros f Hf. apply carries_broadcast, (heartbeat_true _ _ _ _ Hg Hf).
Qed.

Lemma carries_send_heartbeats : carries send_heartbeats (fun _ => True).
Proof.
  unfold send_heartbeats. eapply carries_bind; [apply carries_self|]. intros p Hp.
  apply carries_for_each. intros peer _. apply carries_for_each. intros hb Hhb.
  assert (Hg : guid_ok hb.1.1).
  { apply list_elem_of_omap in Hhb as (kv & Hkv & Ehb). revert Ehb. case_if; [done|].
    destruct (w_history kv.2); [done|]. intros [= <-]. apply (st_writers _ Hp _ Hkv). }
  eapply carries_bind; [apply carries_encoded|]. intros f Hf. apply carries_send_unit, (heartbeat_true _ _ _ _ Hg Hf).
Qed.

Lemma sweep_true r now : reassembler_true r -> reassembler_true (fst (sweep_expired r now)).
Proof.
  intros [Hm Hr]. unfold sweep_expired. split; simpl; [by apply map_ok_keep|]. intros k q.
  rewrite map_find_keep by done. destruct (map_find k (partials r)) as [q'|] eqn:E; [|done].
  case_if; [|done]. intros [= <-]. by apply Hr.
Qed.

Lemma carries_sweep : carries sweep_reassemblers_locked (fun _ => True).
Proof.
  unfold sweep_reassemblers_locked. eapply carries_bind; [apply carries_self|]. intros p Hp.
  eapply (carries_bind (Forall (fun kv => reassembler_true kv.2))).
  { apply carries_mapM. intros kv Hkv. eapply carries_bind; [apply carries_steady|]. intros now _.
    apply carries_ret. simpl. by apply sweep_true, (st_reassemblers _ Hp). }
  intros swept Hsw. apply carries_update; [|done]. intros p' []. split; cbn; try done. by apply Forall_forall.
Qed.

(** An announce turn, once the new number is vouched for. *)
Lemma carries_announce_turn : carries (_ ← sweep_reassemblers_locked; _ ← broadcast_announce; send_heartbeats) (fun _ => True).
Proof.
  eapply carries_bind; [apply carries_sweep|]. intros u _. eapply carries_bind; [|intros u' _; apply carries_send_heartbeats].
  unfold broadcast_announce. eapply carries_bind; [apply carries_self|]. intros p Hp.
  eapply carries_bind; [apply carries_encoded|]. intros f Hf. by eapply carries_broadcast, announce_true.
Qed.

Lemma self_true_announce p n :
  self_true p -> fits 64 n -> ann (p_guid p) n -> self_true (set_announce_seq p n).
Proof. intros [] ??. by split. Qed.

Lemma carries_create_writer ptr topic type q :
  names_typed topic type q -> carries (create_writer ptr topic type q) (fun _ => True).
Proof.
  intros Hnm. unfold create_writer. case_if; [by apply carries_ret|].
  eapply (carries_bind (fits 64)); [by apply carries_tick; intros w Hc; apply Hc|]. intros birth Hbirth. eapply carries_bind.
  { apply carries_update; [|done]. intros p [Hx Hg Hn Ha Hnd Hm Hw Hr Hrt Hrem Hre]. split; cbn; try done.
    - by apply map_ok_emplace.
    - intros kv Hkv. unfold map_emplace in Hkv. destruct (map_find ptr (p_writers p)); [by apply Hw|].
      apply elem_of_map_set in Hkv as [-> |Hkv]; [|by apply Hw]. split; simpl; [|constructor].
      split; [|by split]. simpl. apply make_guid_ok; [apply Hx|apply Hx|simpl; ulia]. }
  intros u _. eapply carries_bind; [by apply (carries_ret _ (fun _ => True))|]. intros u' _.
  eapply carries_bind; [apply carries_recompute|]. intros. by apply carries_ret.
Qed.

Lemma carries_destroy_writer ptr : carries (destroy_writer ptr) (fun _ => True).
Proof.
  unfold destroy_writer. eapply carries_bind.
  { apply carries_update; [|done]. intros p [Hx Hg Hn Ha Hnd Hm Hw Hr Hrt Hrem Hre]. split; cbn; try done.
    - by apply map_ok_erase.
    - intros kv [_ Hkv]%list_elem_of_filter. by apply Hw. }
  intros u _. eapply carries_bind; [by apply (carries_ret _ (fun _ => True))|]. intros. apply carries_recompute.
Qed.

Lemma carries_destroy_reader ptr : carries (destroy_reader ptr) (fun _ => True).
Proof.
  unfold destroy_reader. eapply carries_bind.
  { apply carries_modify. intros p Hp. split.
    - apply self_true_readers; [done|]. intros kv [_ Hkv]%list_elem_of_filter. by apply (st_reader p).
    - split; [done|]. intros kv [_ Hkv]%list_elem_of_filter. by apply evolves_refl. }
  intros u _. eapply carries_bind; [by apply (carries_ret _ (fun _ => True))|]. intros. apply carries_recompute.
Qed.

Lemma carries_at_reader ptr f :
  (forall r, reader_names (f r) = reader_names r /\ (reader_ok r -> reader_ok (f r)) /\
     channel_steps vouched (channel_of r) (channel_of (f r))) ->
  carries (at_reader ptr f) (fun _ => True).
Proof.
  intros Hf w a w' (Hs & Ht & Hc). unfold at_reader, mbind, act_bind, get_self.
  destruct (map_find ptr (p_readers (w_self w))) as [r|] eqn:Er; [|done]. intros [= <- <-].
  destruct (Hf r) as (Eg & Hok & Hch). pose proof (st_readers _ Hs _ (map_find_In _ _ _ Er)) as Hr.
  destruct (reader_update _ ptr r (f r) Hs Er Eg (Hok Hr) Hch) as [Hs' He]. by split_and!.
Qed.

Lemma carries_replay_local ptr : carries (replay_local_history ptr) (fun _ => True).
Proof.
  unfold replay_local_history. eapply carries_bind; [apply carries_self|]. intros p Hp.
  destruct (map_find ptr (p_readers p)) as [r|]; [|apply carries_ub]. case_if; [by apply carries_ret|].
  eapply carries_bind; [apply carries_now_ms|]. intros now _. eapply carries_bind.
  { apply (carries_mapM (fun _ => True)). intros t (l & Hl & Hin)%list_elem_of_In%in_concat.
    apply list_elem_of_In, list_elem_of_fmap in Hl as (kv & -> & Hkv).
    apply list_elem_of_In in Hin. revert Hin. cbv zeta. case_if; [by intros ?%not_elem_of_nil|].
    intros (e & -> & [_ He]%list_elem_of_filter)%list_elem_of_fmap. simpl.
    destruct (history_sendable p kv e Hp Hkv He) as (_ & ? & _ & _ & _ & ?). by apply carries_enqueue_at. }
  intros outs _. case_if; [apply carries_fire_callback|by apply carries_ret].
Qed.

Lemma new_reader_channel g topic type q ign birth :
  channel_steps vouched open_channel (channel_of (new_reader g topic type q ign birth)).
Proof.
  apply rtc_once, ch_drop; [done|]. intros g' s. unfold channel_of, open_channel, rx_of, seen. simpl.
  rewrite Z.bits_0. split; [by intros [?|?]|by left].
Qed.

Lemma carries_create_reader ptr topic type q ign :
  fresh ptr -> names_typed topic type q -> carries (create_reader ptr topic type q ign) (fun _ => True).
Proof.
  intros Hfresh Hnm. unfold create_reader. case_if; [by apply carries_ret|].
  eapply (carries_bind (fits 64)); [by apply carries_tick; intros w Hc; apply Hc|]. intros birth Hbirth. eapply carries_bind.
  { apply carries_modify. intros p Hp. set (r := ReaderImpl.new_reader _ _ _ _ _ _).
    assert (Hin : forall kv, kv ∈ map_emplace ptr r (p_readers p) -> kv = (ptr, r) \/ kv ∈ p_readers p).
    { intros kv. unfold map_emplace. destruct (map_find ptr (p_readers p)); [by right|apply elem_of_map_set]. }
    split.
    - destruct Hp as [Hx Hg Hn Ha Hnd Hm Hw Hr Hrt Hrem Hre]. split; cbn; try done.
      + intros kv [-> |Hkv]%Hin; [intros g; apply rx_init_ok|by apply Hr].
      + intros kv [-> |Hkv]%Hin; [|by apply Hrt]. split; [|by split]. simpl.
        apply make_guid_ok; [apply Hx|apply Hx|simpl; ulia].
    - split; [done|]. intros kv [-> |Hkv]%Hin; [|left; by exists kv; split_and!]. right. split; [done|]. apply new_reader_channel. }
  intros u _. eapply carries_bind; [by apply (carries_ret _ (fun _ => True))|]. intros u' _.
  eapply carries_bind; [apply carries_recompute|]. intros u'' _.
  eapply carries_bind; [apply carries_replay_local|]. intros. by apply carries_ret.
Qed.

(** The writer after a sample was accepted. *)
Lemma claim_writer_true wr pb data now wr' seq :
  writer_true wr -> fits 64 (w_seq wr) -> w_seq wr + 1 < 2 ^ 64 -> fits 64 pb -> bytes_ok data -> 64 + len data < 2 ^ 32 ->
  claim_seq wr pb data now = (wr', Some seq) -> vouched (w_guid wr) (w_seq wr + 1) data ->
  writer_true wr' /\ sendable (w_guid wr) seq (pb / 1000) data.
Proof.
  intros [Ht Hh] Hs Hlt Hp Hb Hl Hcl Hv. pose proof (proj1 Ht) as Hg. pose proof (claim_seq_number wr pb data now Hs Hlt) as Hn.
  rewrite Hcl in Hn. destruct Hn as [-> _].
  assert (Hok : sendable (w_guid wr) (w_seq wr + 1) (pb / 1000) data) by (split_and!; auto using pub_ms_fits; ulia).
  split; [|done]. rewrite claim_seq_cases in Hcl by done. revert Hcl.
  case_if; [intros [= <-]; by split|]. case_if; [done|]. intros [= <-]. split; [done|]. simpl.
  set (e := mkCached _ _ _ _). destruct (cached_history_suffix wr e now) as [k Ek].
  assert (Hall : Forall (fun e => cached_ok e /\ vouched (w_guid wr) (cs_seq e) (cs_data e)) (w_history wr ++ [e])).
  { apply Forall_app. split; [done|]. constructor; [|constructor].
    destruct Hok as (_ & ? & ? & _). split; [|done]. by split_and!. }
  rewrite Ek in Hall. by apply Forall_app in Hall as [_ ?].
Qed.

Lemma carries_send_to_targets targets (send : PeerId -> act T bool) any :
  (forall peer, carries (send peer) (fun _ => True)) -> carries (send_to_targets targets send any) (fun _ => True).
Proof.
  intros Hs. revert any. induction targets as [|peer targets IH]; intros any; cbn [send_to_targets];
    [by apply carries_ret|]. eapply carries_bind; [apply Hs|]. intros sent _. apply IH.
Qed.

(** The rest of [write_sample] once a number is claimed. *)
Lemma carries_publish p ptr wr wr' seq pb data :
  writer_true wr' -> sendable (w_guid wr) seq pb data ->
  carries (_ ← modify (fun p => set_writers p (map_set ptr wr' (p_writers p)));
           _ ← for_each (local_readers p wr) (fun r =>
                 out ← enqueue_at r (w_guid wr) seq data (w_qos wr) pb;
                 if eo_queued out then fire_callback r else mret tt);
           any ← send_to_targets (send_targets_locked p wr) (fun peer =>
                   send_sample_to peer (w_guid wr) seq pb data (reliable_flag (w_qos wr))) false;
           mret (any || bool_decide (send_targets_locked p wr = []))) (fun _ => True).
Proof.
  intros Hwr Hs. eapply carries_bind.
  { apply carries_update; [|done]. intros p' [Hx Hg Hn Ha Hnd Hm Hw Hr Hrt Hrem Hre]. split; cbn; try done.
    - by apply map_ok_set.
    - intros kv [-> |Hkv]%elem_of_map_set; [done|by apply Hw]. }
  intros u _. eapply carries_bind.
  { apply carries_for_each. intros r _. destruct Hs as (_ & ? & _ & _ & _ & ?).
    eapply carries_bind; [by apply carries_enqueue_at|]. intros out _.
    case_if; [apply carries_fire_callback|by apply carries_ret]. }
  intros u' _. eapply carries_bind; [|intros any _; by apply carries_ret].
  apply carries_send_to_targets. intros peer. by apply carries_send_sample.
Qed.

Lemma write_true ptr wr data w ok w' :
  world_true w -> map_find ptr (p_writers (w_self w)) = Some wr ->
  fits 64 (w_seq wr) -> w_seq wr + 1 < 2 ^ 64 -> bytes_ok data -> 64 + len data < 2 ^ 32 ->
  (is_Some (claim_at w wr data).2 -> vouched (w_guid wr) (w_seq wr + 1) data) ->
  write_sample ptr data w = Done (ok, w') -> world_true w' /\ evolves (w_self w) (w_self w').
Proof.
  intros Hw Hwr Hs Hlt Hb Hl Hv. unfold claim_at in Hv. unfold write_sample, system_now_us, system_now_ms.
  set (pb := w_sys w (w_tick w)) in *. set (now := w_sys w (S (w_tick w)) / 1000) in *.
  assert (Hpb : fits 64 pb) by apply Hw. assert (Hw2 : world_true (ticked (ticked w))) by exact Hw.
  unfold mbind at 1, act_bind at 1, tick at 1. unfold mbind at 1, act_bind at 1, tick at 1.
  cbn [w_sys w_tick]. fold pb. fold now. fold (ticked w). fold (ticked (ticked w)).
  unfold mbind at 1, act_bind at 1, get_self. cbn [w_self ticked]. rewrite Hwr. set (p := w_self w).
  pose proof (st_writers _ (proj1 Hw) _ (map_find_In _ _ _ Hwr)) as Hwt. simpl in Hwt.
  destruct (claim_seq wr pb data now) as [wr' [seq|]] eqn:Hcl.
  2:{ intros [= <- <-]. split; [done|apply evolves_refl]. }
  destruct (claim_writer_true _ _ _ _ _ _ Hwt Hs Hlt Hpb Hb Hl Hcl) as [Hwt' Hsend]; [apply Hv; by eexists|].
  intros E. destruct (carries_publish p ptr wr wr' seq (pb / 1000) data Hwt' Hsend _ _ _ Hw2 E) as (? & ? & _).
  by split.
Qed.
End logic.
End truth.

(** ** Knowing more *)

Section mono.
Context (ours : Guid -> Prop) (pub pub' : Guid -> Z -> list Z -> Prop) (ann ann' : Guid -> Z -> Prop).
Context (Hpub : forall g s d, pub g s d -> pub' g s d) (Hann : forall g k, ann g k -> ann' g k).

Lemma vouched_mono g s d : vouched ours pub g s d -> vouched ours pub' g s d.
Proof. intros Hv Ho. by apply Hpub, Hv. Qed.

Lemma frame_true_mono f : frame_true ours pub ann f -> frame_true ours pub' ann' f.
Proof.
  intros [Hb Hd Hf Ha]. split; [done|..].
  - intros b Eb. by apply vouched_mono, Hd.
  - intros b Eb Ho. destruct (Hf b Eb Ho) as (d & ? & ?). exists d. auto.
  - intros s n Hs. by apply Hann, Ha.
Qed.

Lemma self_true_mono p : self_true ours pub ann p -> self_true ours pub' ann' p.
Proof.
  intros [Hx Hg Hn Ha Hnd Hm Hw Hr Hrt Hrem Hre]. split; try done; auto.
  - intros kv Hkv. destruct (Hw kv Hkv) as [? Hh]. split; [done|]. eapply Forall_impl; [exact Hh|].
    intros e [? ?]. split; [done|by apply vouched_mono].
  - intros kv Hkv. destruct (Hre kv Hkv) as [? Hq]. split; [done|]. intros k q Hf.
    destruct (Hq k q Hf) as [? Hq']. split; [done|]. intros Ho. destruct (Hq' Ho) as (d & bs & ? & ?).
    exists d, bs. auto.
Qed.

Lemma world_true_mono {T} `{LoggedTransport T} (w : World T) :
  world_true ours pub ann w -> world_true ours pub' ann' w.
Proof.
  intros (Hs & Ht & Hc). split_and!; [by apply self_true_mono| |done].
  intros t pf Hin Hpf. by eapply frame_true_mono, Ht.
Qed.
End mono.
