(* ===== verification/Network.v ===== *)
(** * A network of participants

    Participants that run the operations of [Session] and exchange what they hand to
    their transports.  The network may lose, duplicate, reorder and misdirect frames,
    and other parties may send anything that does not pose as a frame of these
    participants.  The whole is a set of delivery channels fed by what was published. *)

From stdpp Require Import relations.
From S2P Require Import Prelude Memory StdMap Guid Qos Frame Fragment Reassembler ReaderImpl WriterImpl Reliability Discovery Wire Participant ParticipantFacts Matching Session DataPath Publish Channel Integrity.

(** ** One operation *)

Section op.
Context {T : Type} `{LoggedTransport T}.
Implicit Types w : World T.

(** The bytes a call of [write] hands over; a null pointer with a length is refused. *)
Definition written (data : option (list Z)) (length : Z) : option (list Z) :=
  match data with
  | Some bytes => Some (take (Z.to_nat length) bytes)
  | None => if 0 <? length then None else Some []
  end.

(** The sample an operation publishes: the one its writer accepts. *)
Definition published_by (op : Op) w : list Sample :=
  match op with
  | Write ptr data length =>
      match map_find ptr (p_writers (w_self w)), written data length with
      | Some wr, Some bs => from_option (fun seq => [(w_guid wr, seq, bs)]) [] (claim_at w wr bs).2
      | _, _ => []
      end
  | _ => []
  end.

(** The entity an operation creates. *)
Definition creates_reader (op : Op) (ptr : Z) : Prop :=
  match op with CreateReader ptr' _ _ _ _ => ptr = ptr' | _ => False end.

Lemma writer_write_eq ptr data length w :
  (match data with Some bytes => 0 <= length <= len bytes | None => True end) ->
  writer_write ptr data length w =
  match written data length with Some bs => write_sample ptr bs w | None => Done (false, w) end.
Proof.
  intros Hl. unfold writer_write, written. destruct data as [bytes|]; [|by case_if].
  unfold mbind, act_bind, encoded, load. rewrite decide_True by lia. cbn. by rewrite drop_0.
Qed.

Lemma written_ok data length bs :
  (match data with
   | Some bytes => bytes_ok bytes /\ 0 <= length <= len bytes /\ 64 + length < 2 ^ 32
   | None => True
   end) -> written data length = Some bs -> bytes_ok bs /\ 64 + len bs < 2 ^ 32.
Proof.
  intros Hpre. unfold written. destruct data as [bytes|].
  - destruct Hpre as (Hb & Hl & Hlt). intros [= <-]. split; [by apply Forall_take|]. rewrite length_take. lia.
  - case_if; [done|]. intros [= <-]. split; [constructor|done].
Qed.

Section truth.
Context (ours : Guid -> Prop) (pub : Guid -> Z -> list Z -> Prop) (ann : Guid -> Z -> Prop).
Context (pub_fun : forall g s d d', pub g s d -> pub g s d' -> d = d').

(** The strings and profiles a caller hands over are of their C++ types. *)
Definition op_typed (op : Op) : Prop :=
  match op with
  | CreateWriter _ topic type q | CreateReader _ topic type q _ => names_typed topic type q
  | AddNode ns name => node_typed (mkNode ns name)
  | _ => True
  end.

(** What must be true for an operation to leave a truthful world. *)
Definition op_truth (op : Op) w : Prop :=
  op_typed op /\ (forall x, x ∈ published_by op w -> pub x.1.1 x.1.2 x.2) /\
  match op with
  | Receive _ frame => frame_true ours pub ann frame
  | AnnounceTick => p_announce_seq (w_self w) + 1 < 2 ^ 64 /\ ann (p_guid (w_self w)) (p_announce_seq (w_self w) + 1)
  | _ => True
  end.

(** The participant as the operation finds it: an announce turn counts first. *)
Definition counted (op : Op) (p : ParticipantImpl) : ParticipantImpl :=
  match op with AnnounceTick => set_announce_seq p (p_announce_seq p + 1) | _ => p end.

Lemma op_true op w w' :
  session_ok w -> world_true ours pub ann w -> op_pre op (w_self w) -> op_truth op w ->
  run_op op w = Done (tt, w') ->
  world_true ours pub ann w' /\ evolves ours pub (creates_reader op) (counted op (w_self w)) (w_self w').
Proof.
  intros Hs Hw Hpre (Hty & Hpub & Hop) E.
  assert (Hc : forall A (m : act T A) a, carries ours pub ann (creates_reader op) m (fun _ => True) ->
    m w = Done (a, w') -> world_true ours pub ann w' /\ evolves ours pub (creates_reader op) (w_self w) (w_self w')).
  { intros A m a Hm Em. destruct (Hm _ _ _ Hw Em) as (? & ? & _). by split. }
  destruct op; simpl in Hpre, Hty, Hop, E |- *.
  - by eapply Hc; [apply carries_handle_peer_up|].
  - by eapply Hc; [apply carries_handle_peer_down|].
  - by eapply Hc; [apply carries_handle_bytes|].
  - destruct Hop as [Hlt Hann]. unfold announce_tick in E.
    unfold mbind at 1, act_bind at 1, modify at 1 in E. rewrite wrap_id in E.
    2:{ destruct (st_seq _ _ _ _ (proj1 Hw)). ulia. }
    set (w1 := with_self _ w) in E.
    assert (Hw1 : world_true ours pub ann w1).
    { destruct Hw as (Hself & Ht & Hclk). split_and!; [|done..]. destruct (st_seq _ _ _ _ Hself).
      apply self_true_announce; [done|ulia|done]. }
    destruct (carries_announce_turn ours pub ann (creates_reader AnnounceTick) _ _ _ Hw1 E) as (? & ? & _). by split.
  - eapply Hc; [|exact E]. eapply carries_bind; [by apply carries_create_writer|]. intros. by apply carries_ret.
  - eapply Hc; [|exact E]. eapply carries_bind; [by apply carries_create_reader|]. intros. by apply carries_ret.
  - by eapply Hc; [apply carries_destroy_writer|].
  - by eapply Hc; [apply carries_destroy_reader|].
  - destruct Hpre as (wr & Hwr & Hlt & Hdata). unfold mbind, act_bind in E.
    rewrite writer_write_eq in E by (destruct data; [apply Hdata|done]).
    destruct (written data length) as [bs|] eqn:Ebs; [|injection E as <-; split; [done|apply evolves_refl]].
    destruct (written_ok _ _ _ Hdata Ebs) as [Hb Hl].
    destruct (write_sample ptr bs w) as [[ok w1]| |] eqn:Ew; [|done..]. injection E as <-.
    destruct Hs as [[Hp _] _]. pose proof (ho_seq _ (wo_history _ (po_writers _ Hp _ _ Hwr))) as Hseq.
    eapply (write_true ours pub ann _ ptr wr bs); try done.
    intros [seq Eseq] _. simpl in Hpub. rewrite Hwr, Ebs, Eseq in Hpub. cbn in Hpub.
    specialize (Hpub _ (list_elem_of_here _ _)). simpl in Hpub.
    pose proof (claim_seq_number wr (w_sys w (w_tick w)) bs (w_sys w (S (w_tick w)) / 1000) Hseq Hlt) as Hn.
    fold (claim_at w wr bs) in Hn. destruct (claim_at w wr bs) as [wr' o]. simpl in Eseq. rewrite Eseq in Hn.
    by destruct Hn as [<- _].
  - by eapply Hc; [apply carries_assert_liveliness|].
  - eapply Hc; [|exact E]. unfold take_at. eapply carries_bind; [apply carries_now_ms|]. intros now _.
    apply carries_at_reader. intros r. destruct (take_shortens now r) as [q Eq]. split_and!; [by rewrite Eq..|].
    apply take_steps.
  - eapply Hc; [|exact E]. unfold available_at. eapply carries_bind; [apply carries_now_ms|]. intros now _.
    apply carries_at_reader. intros r. split_and!; [done..|]. apply available_steps.
  - eapply Hc; [|exact E]. apply carries_at_reader. intros r. split_and!; [done..|]. by apply rtc_once, ch_drop.
  - eapply Hc; [|exact E]. apply carries_update.
    + intros p []. unfold add_node. case_if; split; try done. simpl. apply Forall_app. by split; [|apply Forall_singleton].
    + intros p. unfold add_node. by case_if.
  - eapply Hc; [|exact E]. apply carries_update; [|done]. intros p []. split; try done. simpl.
    apply Forall_forall. intros nd [_ Hnd]%list_elem_of_filter. by eapply Forall_forall.
  - eapply Hc; [|exact E]. apply carries_update; [|done]. intros p []. by split.
Qed.
End truth.
End op.

(** ** Numbering

    What an operation does to the writers: their numbers grow by what they publish,
    and a new writer has the next serial. *)

Section numbering.
Context {T : Type} `{LoggedTransport T}.
Implicit Types w : World T.

(** The numbers [g] has in a list of samples, in order. *)
Definition numbers (g : Guid) (l : list Sample) : list Z :=
  (fun x : Sample => x.1.2) <$> filter (fun x : Sample => x.1.1 = g) l.

Lemma numbers_app g l k : numbers g (l ++ k) = numbers g l ++ numbers g k.
Proof. unfold numbers. by rewrite filter_app, fmap_app. Qed.

(** [wr'] continues a writer of [p] with the numbers it has in [out], or is new. *)
Definition writer_from (p p' : ParticipantImpl) (out : list Sample) (wr' : WriterImpl) : Prop :=
  (exists kv, kv ∈ p_writers p /\ w_guid wr' = w_guid kv.2 /\ w_seq kv.2 <= w_seq wr' /\
     numbers (w_guid kv.2) out = seqZ (w_seq kv.2 + 1) (w_seq wr' - w_seq kv.2)) \/
  (w_guid wr' = make_guid (p_prefix p) WRITER (p_entity_serial p') /\ w_seq wr' = 0 /\
   p_entity_serial p' = p_entity_serial p + 1 /\ out = []).

Record numbered (p p' : ParticipantImpl) (out : list Sample) : Prop := {
  nb_prefix : p_prefix p' = p_prefix p;
  nb_serial : p_entity_serial p <= p_entity_serial p';
  nb_out : Forall (fun x : Sample => exists kv, kv ∈ p_writers p /\ x.1.1 = w_guid kv.2 /\ x.1.2 = w_seq kv.2 + 1) out;
  nb_short : (length out <= 1)%nat;
  nb_writers kv : kv ∈ p_writers p' -> writer_from p p' out kv.2;
}.

(** Only the match counts of the writers differ. *)
Definition same_writers (p p' : ParticipantImpl) : Prop :=
  identity p' = identity p /\ view writer_view (p_writers p') = view writer_view (p_writers p).

Lemma same_writers_in p p' kv :
  same_writers p p' -> kv ∈ p_writers p' ->
  exists kv0, kv0 ∈ p_writers p /\ kv0.1 = kv.1 /\ w_guid kv.2 = w_guid kv0.2 /\ w_seq kv.2 = w_seq kv0.2.
Proof.
  intros [_ Ev] Hkv.
  assert (Hin : (kv.1, writer_view kv.2) ∈ view writer_view (p_writers p)).
  { rewrite <- Ev. by apply (list_elem_of_fmap_2 (fun kv => (kv.1, writer_view kv.2))). }
  apply list_elem_of_fmap in Hin as (kv0 & E & Hkv0). exists kv0. injection E as E1 E2. split_and!; [done..| |].
  - change (w_guid (writer_view kv.2) = w_guid (writer_view kv0.2)). unfold writer_view, set_writer_matched. simpl. congruence.
  - congruence.
Qed.

Lemma numbered_refl p : numbered p p [].
Proof.
  split; [done|lia|constructor|simpl; lia|]. intros kv Hkv. left. exists kv. split_and!; [done..|lia|].
  by rewrite Z.sub_diag, seqZ_nil by lia.
Qed.

Lemma numbered_same p p1 p2 out : numbered p p1 out -> same_writers p1 p2 -> numbered p p2 out.
Proof.
  intros [H1 H2 H3 H4 H5] Hs. pose proof Hs as [[= E1 _ E2] _]. split; [congruence|lia|done|done|].
  intros kv Hkv. destruct (same_writers_in _ _ _ Hs Hkv) as (kv0 & Hkv0 & _ & Eg & Eq).
  destruct (H5 _ Hkv0) as [(kv1 & ? & ? & ? & ?)|(? & ? & ? & ?)].
  - left. exists kv1. rewrite Eg, Eq. by split_and!.
  - right. rewrite Eg, Eq, E2. by split_and!.
Qed.

Lemma steps_same_writers strict w w' : steps_if strict w w' -> same_writers (w_self w) (w_self w').
Proof. intros (_ & _ & E & _ & _ & Ei). by split. Qed.

Lemma same_writers_recompute p : same_writers p (recompute_matches p).
Proof. split; [done|apply recompute_views]. Qed.

Lemma numbered_new_writer p ptr topic type q birth :
  0 <= p_entity_serial p -> p_entity_serial p + 1 < 2 ^ 24 ->
  numbered p (with_new_writer p ptr topic type q birth) [].
Proof.
  intros Hs Hlt. unfold with_new_writer. rewrite wrap_id by ulia.
  split; simpl; [done|lia|constructor|lia|]. intros kv Hkv. unfold map_emplace in Hkv.
  assert (Hold : kv ∈ p_writers p -> writer_from p (with_new_writer p ptr topic type q birth) [] kv.2).
  { intros Hin. left. exists kv. split_and!; [done..|lia|]. by rewrite Z.sub_diag, seqZ_nil by lia. }
  unfold with_new_writer in Hold. rewrite wrap_id in Hold by ulia.
  destruct (map_find ptr (p_writers p)); [by apply Hold|].
  apply elem_of_map_set in Hkv as [-> |Hkv]; [|by apply Hold]. by right.
Qed.

(** The accepted sample is the next of its writer. *)
Lemma numbered_write p ptr wr wr' seq bs :
  map_find ptr (p_writers p) = Some wr -> NoDup ((fun kv => w_guid kv.2) <$> p_writers p) ->
  w_guid wr' = w_guid wr -> w_seq wr' = w_seq wr + 1 -> seq = w_seq wr + 1 -> map_ok (p_writers p) ->
  numbered p (set_writers p (map_set ptr wr' (p_writers p))) [(w_guid wr, seq, bs)].
Proof.
  intros Hf Hnd Eg Es -> Hmap. pose proof (map_find_In _ _ _ Hf) as Hin. split; simpl; [done|lia| |lia|].
  - constructor; [|constructor]. by exists (ptr, wr).
  - assert (Hn : forall g, numbers g [(w_guid wr, w_seq wr + 1, bs)] = if decide (w_guid wr = g) then [w_seq wr + 1] else []).
    { intros g. unfold numbers. rewrite filter_cons. by destruct (decide _). }
    intros kv Hkv. left. destruct (decide (kv.1 = ptr)) as [Ek|Ek].
    + exists (ptr, wr). assert (kv.2 = wr') as ->.
      { pose proof (entry_find _ _ (map_ok_set ptr wr' _ Hmap) Hkv) as Hk. rewrite Ek, map_find_set_eq in Hk. congruence. }
      rewrite Hn, decide_True by done. split_and!; [done..|simpl; lia|]. simpl.
      replace (w_seq wr' - w_seq wr) with 1 by lia. rewrite seqZ_cons by lia. by rewrite seqZ_nil by lia.
    + apply elem_of_map_set in Hkv as [-> |Hkv]; [done|]. exists kv. rewrite Hn, decide_False.
      { split_and!; [done..|lia|]. by rewrite Z.sub_diag, seqZ_nil by lia. }
      intros Eg'. apply Ek. by rewrite <- (fmap_NoDup_inj (fun kv => w_guid kv.2) _ (ptr, wr) kv Hnd Hin Hkv Eg').
Qed.

Lemma discard_inv {A} (m : act T A) w w' : (_ ← m; mret tt) w = Done (tt, w') -> exists a, m w = Done (a, w').
Proof.
  unfold mbind, act_bind. destruct (m w) as [[a w1]| |]; [|done..]. intros [= <-]. by exists a.
Qed.

Lemma op_numbered op w w' :
  session_ok w -> op_pre op (w_self w) -> run_op op w = Done (tt, w') ->
  numbered (w_self w) (w_self w') (published_by op w).
Proof.
  intros Hs Hpre E. pose proof Hs as [Hw Hg]. pose proof (go_serial _ Hg) as Hser.
  assert (Hsteps : forall strict, published_by op w = [] ->
    runs (fun _ w' => steps_if strict w w') (run_op op) w -> numbered (w_self w) (w_self w') (published_by op w)).
  { intros strict -> Hr. eapply numbered_same; [apply numbered_refl|].
    exact (steps_same_writers _ _ _ (runs_result _ _ _ _ _ Hr E)). }
  destruct (quiet_op op) eqn:Hq.
  { apply (Hsteps true); [by destruct op|by apply quiet_op_runs]. }
  destruct op; try discriminate Hq; simpl in Hpre.
  - by apply (Hsteps false), runs_handle_peer_down.
  - by apply (Hsteps false), runs_handle_bytes.
  - apply discard_inv in E as [a E].
    destruct (runs_result _ _ _ _ _ (runs_create_writer (strict := true) ptr topic type q w Hw) E) as [_ Hc].
    destruct (qos_valid q); [|destruct Hc as [_ ->]; apply numbered_refl]. destruct Hc as (_ & birth & ->).
    eapply numbered_same; [|apply same_writers_recompute]. apply numbered_new_writer; [lia|apply Hpre].
  - apply discard_inv in E as [a E].
    destruct (runs_result _ _ _ _ _ (runs_create_reader (strict := true) ptr topic type q ignore_local w Hw (proj1 (proj2 Hpre))) E) as [_ Hc].
    destruct (qos_valid q); [|destruct Hc as [_ ->]; apply numbered_refl].
    destruct Hc as (_ & birth & w2 & _ & E2 & Hst). eapply numbered_same; [|by eapply steps_same_writers].
    rewrite E2. eapply numbered_same; [|apply same_writers_recompute]. simpl. destruct Hpre as (_ & _ & Hlt).
    unfold with_new_reader. rewrite wrap_id by ulia.
    split; simpl; [done|lia|constructor|lia|]. intros kv Hkv. left. exists kv. split_and!; [done..|lia|].
    by rewrite Z.sub_diag, seqZ_nil by lia.
  - destruct (runs_result _ _ _ _ _ (runs_destroy_writer ptr w Hw) E) as [_ ->].
    eapply numbered_same; [|apply same_writers_recompute]. split; simpl; [done|lia|constructor|lia|].
    intros kv [_ Hkv]%list_elem_of_filter. left. exists kv. split_and!; [done..|lia|].
    by rewrite Z.sub_diag, seqZ_nil by lia.
  - destruct (runs_result _ _ _ _ _ (runs_destroy_reader ptr w Hw) E) as [_ ->].
    eapply numbered_same; [|apply same_writers_recompute]. eapply numbered_same; [apply numbered_refl|]. done.
  - destruct Hpre as (wr & Hwr & Hlt & Hdata). apply discard_inv in E as [ok E].
    rewrite writer_write_eq in E by (destruct data; [apply Hdata|done]). simpl. rewrite Hwr.
    destruct (written data length) as [bs|] eqn:Ebs; [|injection E as _ <-; apply numbered_refl].
    destruct (written_ok _ _ _ Hdata Ebs) as [Hb Hl].
    pose proof (runs_result _ _ _ _ _ (runs_write_sample (strict := true) ptr wr bs w Hw Hwr Hlt Hb Hl) E) as Hc.
    pose proof (ho_seq _ (wo_history _ (po_writers _ (proj1 Hw) _ _ Hwr))) as Hseq.
    pose proof (claim_seq_number wr (w_sys w (w_tick w)) bs (w_sys w (S (w_tick w)) / 1000) Hseq Hlt) as Hn.
    pose proof (claim_seq_frame wr (w_sys w (w_tick w)) bs (w_sys w (S (w_tick w)) / 1000)) as [_ Eg].
    fold (claim_at w wr bs) in Hn, Eg. destruct (claim_at w wr bs) as [wr' [seq|]]; simpl in Hc, Eg |- *.
    2:{ destruct Hc as (_ & _ & ->). apply numbered_refl. }
    destruct Hc as (-> & w3 & _ & E3 & Hst). destruct Hn as [_ Hn].
    eapply numbered_same; [|by eapply steps_same_writers]. rewrite E3.
    apply numbered_write; try done; [|apply (po_writers_map _ (proj1 Hw))].
    pose proof (go_nodup _ Hg) as Hnd. by apply NoDup_app in Hnd as (? & _).
  - simpl in E. unfold at_reader, mbind, act_bind, get_self in E. destruct Hpre as [r Hr]. rewrite Hr in E.
    injection E as <-. eapply numbered_same; [apply numbered_refl|]. done.
Qed.
End numbering.

(** ** The network *)

(** The participant a GUID belongs to. *)
Definition guid_prefix (g : Guid) : list Z := take 12 (guid_bytes g).

Lemma guid_prefix_make prefix kind serial :
  length prefix = 12%nat -> guid_prefix (make_guid prefix kind serial) = prefix.
Proof. intros Hl. unfold guid_prefix, make_guid. simpl guid_bytes. rewrite <- Hl. apply take_app_length. Qed.

Section network.
Context {T : Type} `{LoggedTransport T}.
Implicit Types w : World T.

(** The participants, and what their writers have published so far. *)
Record Net := mkNet { net_nodes : list (World T); net_published : list Sample }.
Implicit Types n : Net.

Definition net_prefixes n : list (list Z) := (fun w => p_prefix (w_self w)) <$> net_nodes n.

Definition ours n (g : Guid) : Prop := guid_prefix g ∈ net_prefixes n.
Definition published_in (l : list Sample) (g : Guid) (s : Z) (d : list Z) : Prop := (g, s, d) ∈ l.
Abbreviation published n := (published_in (net_published n)).

(** No participant named [g] has announced less than [k]. *)
Definition announced n (g : Guid) (k : Z) : Prop :=
  forall w, w ∈ net_nodes n -> p_guid (w_self w) = g -> k <= p_announce_seq (w_self w).

(** What the readers are offered: of these participants' samples only published ones. *)
Abbreviation offered n := (vouched (ours n) (published n)).

Definition in_flight n (f : list Z) : Prop :=
  exists w t pf, w ∈ net_nodes n /\ t ∈ w_transports w /\ pf ∈ sent_log t /\ f = pf.2.

(** Frames of other parties, which do not pose as one of these participants. *)
Record foreign n (f : list Z) : Prop := {
  fo_data b : decode_data f = Done b -> ~ ours n (data_writer b);
  fo_frag b : decode_data_frag f = Done b -> ~ ours n (frag_writer b);
  fo_announce s k w : decode_announce f = Done (s, k) -> w ∈ net_nodes n -> p_guid (w_self w) <> participant_guid s;
}.

Definition op_allowed n (op : Op) w : Prop :=
  match op with
  | Receive _ f => in_flight n f \/ foreign n f
  | AnnounceTick => p_announce_seq (w_self w) + 1 < 2 ^ 64
  | _ => op_typed op
  end.

(** One participant runs one operation. *)
Inductive net_step n : Net -> Prop :=
| net_op i w op w' :
    net_nodes n !! i = Some w -> op_pre op (w_self w) -> op_allowed n op w ->
    run_op op w = Done (tt, w') ->
    net_step n (mkNet (<[i := w']> (net_nodes n)) (net_published n ++ published_by op w)).

(** Participants start with distinct prefixes and nothing sent. *)
Definition node_start w : Prop :=
  exists prefix transports hook sys steady,
    w = new_world prefix transports hook sys steady /\ length prefix = 12%nat /\ bytes_ok prefix /\
    (forall k, fits 64 (sys k)) /\ (forall t, t ∈ transports -> sent_log t = []).

Inductive net_reachable : Net -> Prop :=
| net_start ws :
    Forall node_start ws -> NoDup ((fun w => p_prefix (w_self w)) <$> ws) -> net_reachable (mkNet ws [])
| net_next n n' : net_reachable n -> net_step n n' -> net_reachable n'.

(** ** The invariant *)

Record net_ok n : Prop := {
  no_session w : w ∈ net_nodes n -> session_ok w;
  no_true w : w ∈ net_nodes n -> world_true (ours n) (published n) (announced n) w;
  no_guid w : w ∈ net_nodes n -> p_guid (w_self w) = make_guid (p_prefix (w_self w)) PARTICIPANT 0;
  no_prefixes : NoDup (net_prefixes n);
  no_numbers w kv : w ∈ net_nodes n -> kv ∈ p_writers (w_self w) ->
    numbers (w_guid kv.2) (net_published n) = seqZ 1 (w_seq kv.2);
  no_serials w x : w ∈ net_nodes n -> x ∈ net_published n -> guid_prefix x.1.1 = p_prefix (w_self w) ->
    exists kind k, kind_ok kind /\ 0 <= k <= p_entity_serial (w_self w) /\ x.1.1 = make_guid (p_prefix (w_self w)) kind k;
  no_unique : NoDup (net_published n).*1;
  no_channels w kv : w ∈ net_nodes n -> kv ∈ p_readers (w_self w) -> channel_ok (offered n) (channel_of kv.2);
}.

Lemma published_fun n g s d d' : net_ok n -> published n g s d -> published n g s d' -> d = d'.
Proof.
  intros Hn H1 H2. by injection (fmap_NoDup_inj fst _ (g, s, d) (g, s, d') (no_unique _ Hn) H1 H2 eq_refl).
Qed.

(** The claims of the published samples' GUIDs. *)
Lemma writer_prefix w kv :
  session_ok w -> kv ∈ p_writers (w_self w) ->
  exists kind k, kind_ok kind /\ 0 <= k <= p_entity_serial (w_self w) /\
    w_guid kv.2 = make_guid (p_prefix (w_self w)) kind k /\ guid_prefix (w_guid kv.2) = p_prefix (w_self w).
Proof.
  intros [[Hp _] Hg] Hkv. destruct (go_source _ Hg (w_guid kv.2)) as (kind & k & Hk & Hr & E).
  { apply elem_of_app. left. by apply (list_elem_of_fmap_2 (fun kv => w_guid kv.2)). }
  exists kind, k. split_and!; [done|lia|lia|done|]. rewrite E. apply guid_prefix_make, Hp.
Qed.

Lemma elem_of_numbers g l s : s ∈ numbers g l <-> (g, s) ∈ l.*1.
Proof.
  unfold numbers. rewrite !list_elem_of_fmap. split.
  - intros (x & -> & [<- Hx]%list_elem_of_filter). exists x. split; [by destruct x as [[]]|done].
  - intros ([[g' s'] d] & [= <- <-] & Hx). exists (g, s, d). split; [done|]. by apply list_elem_of_filter.
Qed.

Lemma foreign_true n f :
  bytes_ok f -> foreign n f -> frame_true (ours n) (published n) (announced n) f.
Proof.
  intros Hwire [Hd Hf Ha]. split; [done|..].
  - intros b Hb Ho. by destruct (Hd b Hb).
  - intros b Hb Ho. by destruct (Hf b Hb).
  - intros s k Hs w Hw E. by destruct (Ha s k w Hs Hw).
Qed.

Lemma in_flight_true n f : net_ok n -> in_flight n f -> frame_true (ours n) (published n) (announced n) f.
Proof.
  intros Hn (w & t & pf & Hw & Ht & Hpf & ->). destruct (no_true _ Hn w Hw) as (_ & Htr & _). by eapply Htr.
Qed.

(** *** One step of one participant

    What a step from [w] to [w'] that publishes [out] has to do for the network to stay as
    it should be: keep the tables, count its announcements up, publish as the next of its
    writers, and stay truthful. *)

(** What was announced, once the participant is [w']. *)
Definition announced_by n w' (g : Guid) (k : Z) : Prop :=
  announced n g k \/ g = p_guid (w_self w') /\ k <= p_announce_seq (w_self w').

Definition next_of_writer w (x : Sample) : Prop :=
  exists kv, kv ∈ p_writers (w_self w) /\ x.1.1 = w_guid kv.2 /\ x.1.2 = w_seq kv.2 + 1.

(** A writer goes on with the numbers in [out], or is new and nothing bears its id. *)
Definition writer_goes_on n w (out : list Sample) (wr' : WriterImpl) : Prop :=
  (exists kv, kv ∈ p_writers (w_self w) /\ w_guid wr' = w_guid kv.2 /\ w_seq kv.2 <= w_seq wr' /\
     numbers (w_guid kv.2) out = seqZ (w_seq kv.2 + 1) (w_seq wr' - w_seq kv.2)) \/
  (w_seq wr' = 0 /\ numbers (w_guid wr') (net_published n ++ out) = []).

Record net_move n w w' (out : list Sample) : Prop := {
  nm_session : session_ok w';
  nm_prefix : p_prefix (w_self w') = p_prefix (w_self w);
  nm_guid : p_guid (w_self w') = p_guid (w_self w);
  nm_serial : p_entity_serial (w_self w) <= p_entity_serial (w_self w');
  nm_announced : p_announce_seq (w_self w) <= p_announce_seq (w_self w');
  nm_out : Forall (next_of_writer w) out;
  nm_short : (length out <= 1)%nat;
  nm_writers kv : kv ∈ p_writers (w_self w') -> writer_goes_on n w out kv.2;
  nm_true : world_true (ours n) (published_in (net_published n ++ out)) (announced_by n w') w';
  nm_readers kv' : kv' ∈ p_readers (w_self w') ->
    reader_from (ours n) (published_in (net_published n ++ out)) (w_self w) kv' \/
    map_find kv'.1 (p_readers (w_self w)) = None /\
    channel_steps (vouched (ours n) (published_in (net_published n ++ out))) open_channel (channel_of kv'.2);
}.

Lemma published_more n out g s d : published n g s d -> published_in (net_published n ++ out) g s d.
Proof. intros Hp. apply elem_of_app. by left. Qed.

Lemma out_prefix n w out x :
  net_ok n -> w ∈ net_nodes n -> Forall (next_of_writer w) out -> x ∈ out ->
  exists kv, kv ∈ p_writers (w_self w) /\ x.1.1 = w_guid kv.2 /\ x.1.2 = w_seq kv.2 + 1 /\
    guid_prefix x.1.1 = p_prefix (w_self w).
Proof.
  intros Hn Hw Hout Hx. rewrite Forall_forall in Hout.
  destruct (Hout x Hx) as (kv & Hkv & Eg & Es). exists kv. split_and!; [done..|]. rewrite Eg.
  by destruct (writer_prefix w kv (no_session _ Hn w Hw) Hkv) as (_ & _ & _ & _ & _ & ?).
Qed.

(** The next numbers are new. *)
Lemma out_unique n w out :
  net_ok n -> w ∈ net_nodes n -> Forall (next_of_writer w) out -> (length out <= 1)%nat ->
  NoDup (net_published n ++ out).*1.
Proof.
  intros Hn Hw Hout Hs. rewrite fmap_app. apply NoDup_app. split_and!; [apply Hn| |].
  - intros [g s] Hin (x & Ex & Hx)%list_elem_of_fmap. destruct (out_prefix n w out x Hn Hw Hout Hx) as (kv & Hkv & Eg & Es & _).
    destruct x as [[g' s'] d]. simpl in *. injection Ex as -> ->. subst g' s'.
    apply elem_of_numbers in Hin. rewrite (no_numbers _ Hn w kv Hw Hkv) in Hin. apply elem_of_seqZ in Hin. lia.
  - destruct out as [|x [|]]; simpl in *; [constructor|apply NoDup_singleton|lia].
Qed.

Lemma published_in_fun (l : list Sample) g s d d' :
  NoDup l.*1 -> published_in l g s d -> published_in l g s d' -> d = d'.
Proof. intros Hnd H1 H2. by injection (fmap_NoDup_inj fst _ (g, s, d) (g, s, d') Hnd H1 H2 eq_refl). Qed.

Section step.
Context n (Hn : net_ok n) (i : nat) w w' (out : list Sample).
Context (Hi : net_nodes n !! i = Some w) (Hmv : net_move n w w' out).

Let n' : Net := mkNet (<[i := w']> (net_nodes n)) (net_published n ++ out).
Let Hw : w ∈ net_nodes n := list_elem_of_lookup_2 _ _ _ Hi.

Lemma step_prefixes : net_prefixes n' = net_prefixes n.
Proof.
  unfold net_prefixes. simpl. rewrite list_fmap_insert, (nm_prefix _ _ _ _ Hmv).
  apply list_insert_id. by rewrite list_lookup_fmap, Hi.
Qed.

Lemma step_node w0 :
  w0 ∈ net_nodes n' -> w0 = w' \/ w0 ∈ net_nodes n /\ p_prefix (w_self w0) <> p_prefix (w_self w).
Proof.
  intros Hin. apply list_elem_of_lookup in Hin as [j Hj]. simpl in Hj.
  apply list_lookup_insert_Some in Hj as [(_ & <- & _)|(Hij & Hj)]; [by left|]. right.
  split; [by eapply list_elem_of_lookup_2|]. intros Ep. apply Hij.
  eapply (NoDup_lookup (net_prefixes n)); [apply Hn|..]; unfold net_prefixes; rewrite list_lookup_fmap, ?Hi, ?Hj; simpl; [done|].
  by rewrite Ep.
Qed.

Lemma step_out x : x ∈ out -> exists kv, kv ∈ p_writers (w_self w) /\ x.1.1 = w_guid kv.2 /\
  x.1.2 = w_seq kv.2 + 1 /\ guid_prefix x.1.1 = p_prefix (w_self w).
Proof. apply (out_prefix n); [done|done|apply Hmv]. Qed.

Lemma step_serials w0 x :
  w0 ∈ net_nodes n' -> x ∈ net_published n' -> guid_prefix x.1.1 = p_prefix (w_self w0) ->
  exists kind k, kind_ok kind /\ 0 <= k <= p_entity_serial (w_self w0) /\ x.1.1 = make_guid (p_prefix (w_self w0)) kind k.
Proof.
  intros Hw0 Hx Ep. pose proof (nm_prefix _ _ _ _ Hmv) as Epre.
  pose proof (nm_serial _ _ _ _ Hmv) as Hser. simpl in Hx. apply elem_of_app in Hx as [Hx|Hx].
  - destruct (step_node w0 Hw0) as [-> |[Hin _]]; [|by apply (no_serials _ Hn)]. rewrite Epre in Ep |- *.
    destruct (no_serials _ Hn w x Hw Hx Ep) as (kind & k & ? & ? & ?). exists kind, k. split_and!; [done|lia|lia|done].
  - destruct (step_out x Hx) as (kv & Hkv & Eg & _ & Ep'). destruct (step_node w0 Hw0) as [-> |[_ Hne]]; [|congruence].
    destruct (writer_prefix w kv (no_session _ Hn w Hw) Hkv) as (kind & k & ? & ? & E1 & _).
    exists kind, k. rewrite Epre, Eg. split_and!; [done|lia|lia|done].
Qed.

Lemma step_numbers w0 kv :
  w0 ∈ net_nodes n' -> kv ∈ p_writers (w_self w0) -> numbers (w_guid kv.2) (net_published n') = seqZ 1 (w_seq kv.2).
Proof.
  intros Hw0 Hkv. destruct (step_node w0 Hw0) as [-> |[Hin Hne]].
  - destruct (nm_writers _ _ _ _ Hmv kv Hkv) as [(kv0 & Hkv0 & Eg & Hle & Enum)|(-> & Enum)]; [|simpl; by rewrite Enum].
    simpl. rewrite numbers_app, Eg, (no_numbers _ Hn w kv0 Hw Hkv0), Enum.
    pose proof (ho_seq _ (wo_history _ (po_writers _ (proj1 (proj1 (no_session _ Hn w Hw))) _ _
      (entry_find _ _ (po_writers_map _ (proj1 (proj1 (no_session _ Hn w Hw)))) Hkv0)))) as [Hs _].
    rewrite (Z.add_comm (w_seq kv0.2) 1), <- seqZ_app by lia. f_equal. lia.
  - simpl. rewrite numbers_app, (no_numbers _ Hn w0 kv Hin Hkv). destruct (numbers (w_guid kv.2) out) as [|s l] eqn:Enum;
      [apply app_nil_r|]. exfalso. assert (Hin' : s ∈ numbers (w_guid kv.2) out) by (rewrite Enum; left).
    apply elem_of_numbers, list_elem_of_fmap in Hin' as (x & Ex & Hx). destruct (step_out x Hx) as (_ & _ & _ & _ & Ep).
    rewrite <- (f_equal fst Ex) in Ep. simpl in Ep. apply Hne. rewrite <- Ep.
    by destruct (writer_prefix w0 kv (no_session _ Hn w0 Hin) Hkv) as (_ & _ & _ & _ & _ & ->).
Qed.

Lemma step_guid w0 : w0 ∈ net_nodes n' -> p_guid (w_self w0) = make_guid (p_prefix (w_self w0)) PARTICIPANT 0.
Proof.
  intros [-> |[Hin _]]%step_node; [|by apply (no_guid _ Hn)].
  rewrite (nm_prefix _ _ _ _ Hmv), (nm_guid _ _ _ _ Hmv). apply (no_guid _ Hn w Hw).
Qed.

Lemma step_announced g k : announced_by n w' g k -> announced n' g k.
Proof.
  pose proof (nm_announced _ _ _ _ Hmv) as Hm. pose proof (nm_guid _ _ _ _ Hmv) as Eg.
  intros Hk w0 Hw0 E0. destruct (step_node w0 Hw0) as [-> |[Hin Hne]].
  - destruct Hk as [Hk|[_ Hk]]; [|done]. rewrite Eg in E0. specialize (Hk w Hw E0). lia.
  - destruct Hk as [Hk|[-> Hk]]; [by apply Hk|]. exfalso. apply Hne.
    rewrite Eg, (no_guid _ Hn w Hw), (no_guid _ Hn w0 Hin) in E0.
    pose proof (no_session _ Hn w Hw) as [[Hp _] _]. pose proof (no_session _ Hn w0 Hin) as [[Hp0 _] _].
    by destruct (make_guid_inj _ _ _ _ _ _ (proj1 (po_prefix _ Hp0)) (proj1 (po_prefix _ Hp)) E0).
Qed.

Lemma step_ours g : ours n' g <-> ours n g.
Proof. unfold ours. by rewrite step_prefixes. Qed.

Lemma step_offered g s d : vouched (ours n) (published n') g s d <-> offered n' g s d.
Proof. unfold vouched. by rewrite step_ours. Qed.

Lemma ours_world_true w0 ann :
  world_true (ours n) (published n') ann w0 -> world_true (ours n') (published n') ann w0.
Proof.
  unfold ours. by rewrite step_prefixes.
Qed.

Lemma step_all_true w0 : w0 ∈ net_nodes n' -> world_true (ours n') (published n') (announced n') w0.
Proof.
  intros Hw0. apply ours_world_true.
  apply (world_true_mono _ (published n') _ (announced_by n w')); [done|apply step_announced|].
  destruct (step_node w0 Hw0) as [-> |[Hin _]]; [apply Hmv|].
  apply (world_true_mono _ (published n) _ (announced n)); [|by left|by apply (no_true _ Hn)].
  intros g s d. apply published_more.
Qed.

(** Every reader took channel steps. *)
Lemma step_readers w0 w0' j kv' :
  net_nodes n !! j = Some w0 -> net_nodes n' !! j = Some w0' -> kv' ∈ p_readers (w_self w0') ->
  reader_from (ours n') (published n') (w_self w0) kv' \/
  map_find kv'.1 (p_readers (w_self w0)) = None /\ channel_steps (offered n') open_channel (channel_of kv'.2).
Proof.
  intros Hj Hj' Hkv. assert (Hsub : forall c c', channel_steps (vouched (ours n) (published n')) c c' -> channel_steps (offered n') c c').
  { intros c c'. apply channel_steps_mono. intros g s d. apply step_offered. }
  simpl in Hj'. apply list_lookup_insert_Some in Hj' as [(<- & <- & _)|(_ & Hj')].
  - rewrite Hi in Hj. injection Hj as <-.
    destruct (nm_readers _ _ _ _ Hmv kv' Hkv) as [(kv & Hin & E1 & E2 & Hs)|[Hf Hs]].
    + left. exists kv. split_and!; [done|done|done|by apply Hsub].
    + right. split; [done|by apply Hsub].
  - rewrite Hj in Hj'. injection Hj' as <-. left. by exists kv'.
Qed.

Lemma step_channels w0 kv : w0 ∈ net_nodes n' -> kv ∈ p_readers (w_self w0) -> channel_ok (offered n') (channel_of kv.2).
Proof.
  intros [j Hj']%list_elem_of_lookup Hkv.
  assert (Hj : exists w1, net_nodes n !! j = Some w1).
  { apply lookup_lt_is_Some. apply lookup_lt_Some in Hj'. simpl in Hj'. by rewrite length_insert in Hj'. }
  destruct Hj as [w1 Hj]. destruct (step_readers w1 w0 j kv Hj Hj' Hkv) as [(kv0 & Hin & _ & _ & Hs)|[_ Hs]].
  - eapply channel_steps_ok; [|exact Hs].
    destruct (no_channels _ Hn w1 kv0 (list_elem_of_lookup_2 _ _ _ Hj) Hin) as [Ho Hc Hd]. split; [|done..].
    intros x Hx. apply step_offered. eapply vouched_mono; [|by apply Ho].
    intros g s d. apply published_more.
  - eapply channel_steps_ok; [apply open_channel_ok|exact Hs].
Qed.

Lemma step_ok : net_ok n'.
Proof.
  split.
  - intros w0 [-> |[Hin _]]%step_node; [apply Hmv|by apply (no_session _ Hn)].
  - apply step_all_true.
  - apply step_guid.
  - rewrite step_prefixes. apply Hn.
  - apply step_numbers.
  - apply step_serials.
  - apply (out_unique n w); [done|done|apply Hmv..].
  - apply step_channels.
Qed.
End step.

(** *** One operation is such a step *)

(** An id made from a serial that was not handed out has not been published under. *)
Lemma new_unpublished n w kind k :
  net_ok n -> w ∈ net_nodes n -> p_entity_serial (w_self w) < k < 2 ^ 24 ->
  numbers (make_guid (p_prefix (w_self w)) kind k) (net_published n) = [].
Proof.
  intros Hn Hw Hk. set (g := make_guid _ _ _). destruct (numbers g (net_published n)) as [|s l] eqn:Enum; [done|].
  exfalso. assert (Hin : s ∈ numbers g (net_published n)) by (rewrite Enum; left).
  apply elem_of_numbers, list_elem_of_fmap in Hin as (x & Ex & Hx). pose proof (no_session _ Hn w Hw) as [[Hp _] _].
  pose proof (f_equal fst Ex) as Eg. simpl in Eg. destruct (no_serials _ Hn w x Hw Hx) as (kd & j & _ & Hj & E1).
  { rewrite <- Eg. apply guid_prefix_make, Hp. }
  rewrite <- Eg in E1.
  destruct (make_guid_inj _ _ _ _ _ _ (proj1 (po_prefix _ Hp)) (proj1 (po_prefix _ Hp)) E1) as (_ & _ & Em).
  rewrite !Z.mod_small in Em by lia. lia.
Qed.

Section op_step.
Context n (Hn : net_ok n) w (op : Op) w'.
Context (Hw : w ∈ net_nodes n) (Hpre : op_pre op (w_self w)) (Hall : op_allowed n op w).
Context (E : run_op op w = Done (tt, w')).

Lemma op_step_numbered : numbered (w_self w) (w_self w') (published_by op w).
Proof. apply op_numbered; [by apply (no_session _ Hn)|done..]. Qed.

Lemma op_step_session : session_ok w'.
Proof. exact (runs_result _ _ _ _ _ (op_safe op w (no_session _ Hn w Hw) Hpre) E). Qed.

Let pub : Guid -> Z -> list Z -> Prop := published_in (net_published n ++ published_by op w).
Let ann (g : Guid) (k : Z) : Prop :=
  announced n g k \/ g = p_guid (w_self w) /\ k <= p_announce_seq (counted op (w_self w)).

Lemma op_step_truth :
  world_true (ours n) pub ann w' /\ evolves (ours n) pub (creates_reader op) (counted op (w_self w)) (w_self w').
Proof.
  apply (op_true (ours n) pub ann); try done.
  - intros g s d d'. apply published_in_fun. apply (out_unique n w); [done|done|apply op_step_numbered..].
  - by apply (no_session _ Hn).
  - apply (world_true_mono _ (published n) _ (announced n)); [|by left|by apply (no_true _ Hn)].
    intros g s d. apply published_more.
  - split; [by destruct op|split].
    + intros [[g s] d] Hx. apply elem_of_app. by right.
    + destruct op; try done; simpl in Hall.
      * apply (frame_true_mono _ (published n) _ (announced n)); [intros g s d; apply published_more|by left|].
        destruct Hall; [by apply in_flight_true|by apply foreign_true].
      * split; [done|]. right. split; [done|simpl; lia].
Qed.

Lemma op_move : net_move n w w' (published_by op w).
Proof.
  destruct op_step_truth as [Ht [[= Eg Es] Hr]]. pose proof op_step_numbered as [Npre Nser Nout Nshort Nw].
  assert (Ec : p_guid (counted op (w_self w)) = p_guid (w_self w) /\ p_readers (counted op (w_self w)) = p_readers (w_self w) /\
    p_announce_seq (w_self w) <= p_announce_seq (counted op (w_self w))) by (destruct op; simpl; split_and!; done || lia).
  destruct Ec as (Ec1 & Ec2 & Ec3). split; try done.
  - apply op_step_session.
  - congruence.
  - lia.
  - intros kv Hkv. destruct (Nw kv Hkv) as [?|(Ew & E0 & Eser & Eout)]; [by left|right]. split; [done|].
    rewrite Eout, app_nil_r, Ew. apply new_unpublished; [done|done|].
    pose proof op_step_session as [_ Hg]. destruct (go_serial _ Hg). lia.
  - apply (world_true_mono _ pub _ ann); [done| |done]. intros g k [?|[-> Hk]]; [by left|right]. split; [congruence|lia].
  - intros kv' Hkv. destruct (Hr kv' Hkv) as [(kv & Hin & ?)|[Hf ?]].
    + left. exists kv. by rewrite Ec2 in Hin.
    + right. split; [|done]. destruct op; try done. simpl in Hf, Hpre. subst. apply Hpre.
Qed.
End op_step.

Lemma start_ok ws :
  Forall node_start ws -> NoDup ((fun w => p_prefix (w_self w)) <$> ws) -> net_ok (mkNet ws []).
Proof.
  intros Hall Hnd. rewrite Forall_forall in Hall. split; simpl; [..|constructor|].
  - intros w (prefix & ts & hook & sys & steady & -> & Hl & Hb & Hc & Hs)%Hall. by apply new_world_ok.
  - intros w (prefix & ts & hook & sys & steady & -> & Hl & Hb & Hc & Hs)%Hall.
    split_and!; [|intros t pf Ht; rewrite (Hs t Ht); by intros ?%not_elem_of_nil|done].
    assert (Hg : guid_ok (make_guid prefix PARTICIPANT 0)) by (apply make_guid_ok; [done|done|simpl; ulia]).
    split; simpl; try done; try (by intros kv ?%not_elem_of_nil); [intros w0 Hw0 _|apply map_ok_nil].
    destruct (Hall w0 Hw0) as (? & ? & ? & ? & ? & -> & _). simpl. lia.
  - by intros w (prefix & ts & hook & sys & steady & -> & _)%Hall.
  - done.
  - by intros w kv (prefix & ts & hook & sys & steady & -> & _)%Hall ?%not_elem_of_nil.
  - by intros w x _ ?%not_elem_of_nil.
  - by intros w kv (prefix & ts & hook & sys & steady & -> & _)%Hall ?%not_elem_of_nil.
Qed.

Lemma net_reachable_ok n : net_reachable n -> net_ok n.
Proof.
  induction 1 as [ws Hall Hnd|n n' _ IH [i w op w' Hi Hpre Hal E]]; [by apply start_ok|].
  eapply step_ok; [done..|]. apply op_move; [done|by eapply list_elem_of_lookup_2|done..].
Qed.
End network.
Abbreviation published n := (published_in (net_published n)).
