(* ===== verification/Truthful.v ===== *)
(** * Calls that overlap stay truthful

    [Integrity] shows that an operation taken by itself keeps a participant truthful: what
    it queues, keeps and sends was published under its number with its bytes.  Here the
    same is shown act by act for the programs of [Locked], with whatever the other threads
    and the other participants publish in between. *)

From stdpp Require Import relations.
From S2P Require Import Prelude Memory StdMap Guid Qos Frame Fragment Reassembler ReaderImpl WriterImpl Reliability Discovery Wire Participant ParticipantFacts Matching Session Locked Interleave ThreadSafe DataPath Publish Channel Integrity Network.

(** ** What is known *)

(** What was published and announced so far. *)
Record Knowledge := mkKnow {
  kn_samples : list Sample;
  kn_announced : Guid -> Z -> Prop;
}.

Record knows (K K' : Knowledge) : Prop := {
  knows_samples : kn_samples K ⊆ kn_samples K';
  knows_announced g k : kn_announced K g k -> kn_announced K' g k;
}.

#[global] Instance knows_preorder : PreOrder knows.
Proof.
  split; [by split|]. intros K1 K2 K3 [S12 A12] [S23 A23]. split; [by etrans|]. auto.
Qed.

Definition pub_in (K : Knowledge) : Guid -> Z -> list Z -> Prop := published_in (kn_samples K).

Section truthful.
Context {T : Type} `{LoggedTransport T}.
Implicit Types w : World T.

(** The sample an act publishes: the number of the writer grew. *)
Definition published_step (op : Op) w w' : list Sample :=
  match op with
  | Write ptr data length =>
      match map_find ptr (p_writers (w_self w)), map_find ptr (p_writers (w_self w')) with
      | Some wr, Some wr' =>
          if w_seq wr' =? w_seq wr + 1 then [(w_guid wr, w_seq wr', default [] (written data length))] else []
      | _, _ => []
      end
  | _ => []
  end.

Definition learned (op : Op) w w' (K : Knowledge) : Knowledge :=
  mkKnow (kn_samples K ++ published_step op w w')
    (fun g k => kn_announced K g k \/ g = p_guid (w_self w') /\ k <= p_announce_seq (w_self w')).

Lemma knows_learned op w w' K : knows K (learned op w w' K).
Proof. split; [|by left]. intros x Hx. apply elem_of_app. by left. Qed.

Context (ours : Guid -> Prop).

Definition true_in (K : Knowledge) w : Prop := world_true ours (pub_in K) (kn_announced K) w.
Definition frame_in (K : Knowledge) (f : list Z) : Prop := frame_true ours (pub_in K) (kn_announced K) f.
Definition sendable_in (K : Knowledge) (g : Guid) (seq pb : Z) (data : list Z) : Prop :=
  sendable ours (pub_in K) g seq pb data.

Lemma true_in_mono K K' w : knows K K' -> true_in K w -> true_in K' w.
Proof. intros [Hs Ha]. apply world_true_mono; [|done]. intros g s d. apply Hs. Qed.

Lemma frame_in_mono K K' f : knows K K' -> frame_in K f -> frame_in K' f.
Proof. intros [Hs Ha]. apply frame_true_mono; [|done]. intros g s d. apply Hs. Qed.

Lemma vouched_in_mono K K' g s d : knows K K' -> vouched ours (pub_in K) g s d -> vouched ours (pub_in K') g s d.
Proof. intros [Hs _]. apply vouched_mono. intros g' s' d'. apply Hs. Qed.

Lemma sendable_in_mono K K' g s pb d : knows K K' -> sendable_in K g s pb d -> sendable_in K' g s pb d.
Proof.
  intros HK (? & ? & ? & ? & ? & ?). split_and!; try done. by eapply vouched_in_mono.
Qed.

(** The readers of a world, before and after an act. *)
Definition readers_step (K : Knowledge) w w' : Prop :=
  forall kv', kv' ∈ p_readers (w_self w') ->
    reader_from ours (pub_in K) (w_self w) kv' \/
    map_find kv'.1 (p_readers (w_self w)) = None /\
    channel_steps (vouched ours (pub_in K)) open_channel (channel_of kv'.2).

(** Only the announce turn counts announcements. *)
Definition counted_by (op : Op) w w' : Prop :=
  p_announce_seq (w_self w') = p_announce_seq (w_self w) \/
  op = AnnounceTick /\ p_announce_seq (w_self w') = p_announce_seq (w_self w) + 1.

Record act_true (op : Op) (K : Knowledge) w w' : Prop := {
  at_world : true_in K w';
  at_guid : p_guid (w_self w') = p_guid (w_self w);
  at_announced : counted_by op w w';
  at_readers : readers_step K w w';
}.

(** The writer a call publishes on has the id [g]. *)
Definition writer_named (op : Op) (g : Guid) w : Prop :=
  forall ptr, publishes op ptr = true -> exists wr, map_find ptr (p_writers (w_self w)) = Some wr /\ w_guid wr = g.

(** A world a call can find itself in, when [K] is known. *)
Record situation (op : Op) (g : Guid) (K : Knowledge) w : Prop := {
  si_session : session_ok w;
  si_range : in_range (w_self w);
  si_room : op = AnnounceTick -> p_announce_seq (w_self w) + 1 < 2 ^ 64;
  si_true : true_in K w;
  si_named : writer_named op g w;
}.

(** [truthful op g K p Q]: whatever becomes known meanwhile, every act of [p] keeps the
    participant truthful, and [Q] holds of what is known and the result at the end. *)
Fixpoint truthful {A} (op : Op) (g : Guid) (K : Knowledge) (p : prog T A) (Q : Knowledge -> A -> Prop) : Prop :=
  match p with
  | Ret a => Q K a
  | Lock k | Unlock k => truthful op g K k Q
  | Step m k => forall K1 w b w',
      knows K K1 -> situation op g K1 w -> m w = Done (b, w') ->
      NoDup (kn_samples (learned op w w' K1)).*1 ->
      act_true op (learned op w w' K1) w w' /\ truthful op g (learned op w w' K1) (k b) Q
  end.

Lemma truthful_mono {A} op g K (p : prog T A) (Q Q' : Knowledge -> A -> Prop) :
  truthful op g K p Q -> (forall K' a, knows K K' -> Q K' a -> Q' K' a) -> truthful op g K p Q'.
Proof.
  revert K. induction p as [a|B m k IH|p IH|p IH]; intros K; cbn [truthful].
  - intros Ha HQ. by apply HQ.
  - intros Hp HQ K1 w b w' HK Hs E Hnd. destruct (Hp K1 w b w' HK Hs E Hnd) as [Ha Hk]. split; [done|].
    eapply IH; [exact Hk|]. intros K' a HK'. apply HQ. etrans; [exact HK|]. etrans; [apply knows_learned|exact HK'].
  - apply IH.
  - apply IH.
Qed.

Lemma truthful_grow {A} op g K K' (p : prog T A) (Q : Knowledge -> A -> Prop) :
  (forall K1 K2 a, knows K1 K2 -> Q K1 a -> Q K2 a) -> knows K K' ->
  truthful op g K p Q -> truthful op g K' p Q.
Proof.
  intros HQ. revert K K'. induction p as [a|B m k IH|p IH|p IH]; intros K K' HK; cbn [truthful].
  - by apply HQ.
  - intros Hp K1 w b w' HK1. apply Hp. by etrans.
  - by apply IH.
  - by apply IH.
Qed.

(** *** Rules *)

Section rules.
Context {op : Op} {g : Guid}.
Abbreviation tells := (truthful op g).
Abbreviation anything := (fun _ _ => True).

Lemma tells_bind {A B} K (p : prog T A) (k : A -> prog T B) (R : Knowledge -> A -> Prop) Q :
  tells K p R -> (forall K' a, knows K K' -> R K' a -> tells K' (k a) Q) -> tells K (p ≫= k) Q.
Proof.
  intros Hp Hk. assert (Hp' : tells K p (fun K' a => tells K' (k a) Q)).
  { eapply truthful_mono; [exact Hp|]. intros K' a HK Ha. by apply Hk. }
  clear Hp Hk R. revert K Hp'. induction p as [a|B' m k' IH|p IH|p IH]; intros K; cbn; [done| |apply IH..].
  intros Hp K1 w b w' HK Hs E Hnd. destruct (Hp K1 w b w' HK Hs E Hnd) as [Ha Hk]. split; [done|by apply IH].
Qed.

Lemma tells_ret {A} K (a : A) (Q : Knowledge -> A -> Prop) : Q K a -> tells K (mret a) Q.
Proof. done. Qed.

Lemma tells_locked {A} K (body : prog T A) (Q : Knowledge -> A -> Prop) : tells K body Q -> tells K (locked body) Q.
Proof. intros Hb. apply (tells_bind K body (fun a => Unlock (Ret a)) Q); [exact Hb|]. intros K' a _ Ha. exact Ha. Qed.

(** An act that is truthful where it happens. *)
Lemma tells_act {A} K (m : act T A) (R : Knowledge -> A -> Prop) :
  (forall K' w b w', knows K K' -> situation op g K' w -> NoDup (kn_samples K').*1 ->
     m w = Done (b, w') -> true_in K' w' /\
     evolves ours (pub_in K') (fun ptr => map_find ptr (p_readers (w_self w)) = None) (w_self w) (w_self w') /\ R K' b) ->
  tells K (lift m) R.
Proof.
  intros Hm K1 w b w' HK [Hs Hr Hroom Ht Hn] E. set (K2 := learned op w w' K1). intros Hnd.
  assert (HK2 : knows K1 K2) by apply knows_learned.
  destruct (Hm K2 w b w') as (Hw & [[= Eg Es] Hev] & HR); [by etrans| |done|done|].
  { split; try done. by eapply true_in_mono. }
  split; [|exact HR]. split; [done|done|by left|done].
Qed.

Lemma tells_carries {A} K (m : act T A) (R : Knowledge -> A -> Prop) :
  (forall K' fresh, knows K K' -> NoDup (kn_samples K').*1 ->
     carries ours (pub_in K') (kn_announced K') fresh m (R K')) ->
  tells K (lift m) R.
Proof. intros Hm. apply tells_act. intros K' w b w' HK Hs Hnd E. by apply (Hm K' _ HK Hnd w b w'); [apply Hs|]. Qed.

(** An act whose result says something that does not depend on what is known. *)
Lemma tells_plain {A} K (m : act T A) (R : A -> Prop) :
  (forall K' fresh, carries ours (pub_in K') (kn_announced K') fresh m R) -> tells K (lift m) (fun _ => R).
Proof. intros Hm. apply tells_carries. auto. Qed.

Lemma tells_section {A} K (m : act T A) (R : Knowledge -> A -> Prop) :
  tells K (lift m) R -> tells K (locked (lift m)) R.
Proof. apply tells_locked. Qed.

Lemma tells_each {A} K (l : list A) (f : A -> prog T unit) :
  (forall K' a, knows K K' -> a ∈ l -> tells K' (f a) anything) -> tells K (each l f) anything.
Proof.
  revert K. induction l as [|a l IH]; intros K Hf; [done|]. eapply tells_bind; [by apply Hf; [|left]|].
  intros K' u HK _. apply IH. intros K2 a' HK2 Ha. apply Hf; [by etrans|by right].
Qed.

Lemma tells_mapM {A B} K (l : list A) (f : A -> prog T B) (R : B -> Prop) :
  (forall K' a, knows K K' -> a ∈ l -> tells K' (f a) (fun _ => R)) -> tells K (mapM f l) (fun _ => Forall R).
Proof.
  revert K. induction l as [|a l IH]; intros K Hf; [by apply Forall_nil|]. cbn [mapM].
  eapply tells_bind; [by apply Hf; [|left]|]. intros K' b HK Hb. cbv beta.
  eapply tells_bind; [apply IH; intros K2 a' HK2 Ha; apply Hf; [by etrans|by right]|].
  intros K2 bs _ Hbs. cbv beta. apply tells_ret. by constructor.
Qed.

Lemma tells_encoded {A} K (r : res A) : tells K (lift (encoded r)) (fun _ a => r = Done a).
Proof. apply tells_plain. intros. apply carries_encoded. Qed.
Lemma tells_decoded {A} K (r : res A) :
  tells K (lift (decoded r)) (fun _ o => match o with Some a => r = Done a | None => True end).
Proof. apply tells_plain. intros. apply carries_decoded. Qed.
Lemma tells_fire K e : tells K (lift (fire e)) anything.
Proof. apply tells_carries. intros. apply carries_fire. Qed.
Lemma tells_self {A} K (f : ParticipantImpl -> A) (R : Knowledge -> A -> Prop) :
  (forall K' p, knows K K' -> self_true ours (pub_in K') (kn_announced K') p -> R K' (f p)) ->
  tells K (lift (p ← get_self; mret (f p))) R.
Proof.
  intros HR. apply tells_carries. intros K' fresh HK _. eapply carries_bind; [apply carries_self|].
  intros p Hp. apply carries_ret. by apply HR.
Qed.
Lemma tells_modify K (f : ParticipantImpl -> ParticipantImpl) :
  (forall K' p, self_true ours (pub_in K') (kn_announced K') p -> self_true ours (pub_in K') (kn_announced K') (f p)) ->
  (forall p, announces (f p) = announces p /\ p_readers (f p) = p_readers p) ->
  tells K (lift (modify f)) anything.
Proof. intros Hf Hr. apply tells_carries. intros K' fresh _ _. apply carries_update; [intros p; apply Hf|done]. Qed.
End rules.

(** *** Callbacks and sending *)

Section programs.
Context {op : Op} {g : Guid}.
Abbreviation tells := (truthful op g).
Abbreviation anything := (fun _ _ => True).

Lemma tells_fire_graph K : tells K fire_graph_callback_prog anything.
Proof.
  eapply (tells_bind _ _ _ anything); [apply tells_section, tells_self; auto|]. intros K' [] _ _; [apply tells_fire|done].
Qed.

Lemma tells_recompute K : tells K recompute_matches_prog anything.
Proof. apply tells_section, tells_carries. intros. apply carries_recompute. Qed.

Lemma tells_graph_changed K : tells K graph_changed_prog anything.
Proof. eapply tells_bind; [apply tells_recompute|]. intros. apply tells_fire_graph. Qed.

(** Dereferencing reads the table. *)
Lemma carries_writer_at K fresh ptr :
  carries ours (pub_in K) (kn_announced K) fresh (writer_at ptr) (fun wr => guid_ok (w_guid wr)).
Proof.
  eapply carries_bind; [apply carries_self|]. intros p Hp.
  destruct (map_find ptr (p_writers p)) as [wr|] eqn:E; (eapply carries_weaken; [apply carries_encoded|]); intros a; [|done].
  intros [= <-]. apply (st_writers _ _ _ _ Hp _ (map_find_In _ _ _ E)).
Qed.

Lemma carries_reader_at K fresh ptr :
  carries ours (pub_in K) (kn_announced K) fresh (reader_at ptr) (fun r => guid_ok (r_guid r)).
Proof.
  eapply carries_bind; [apply carries_self|]. intros p Hp.
  destruct (map_find ptr (p_readers p)) as [r|] eqn:E; (eapply carries_weaken; [apply carries_encoded|]); intros a; [|done].
  intros [= <-]. apply (st_reader_types _ _ _ _ Hp _ (map_find_In _ _ _ E)).
Qed.

Lemma tells_fire_callback K ptr : tells K (fire_callback_prog ptr) anything.
Proof.
  eapply tells_bind; [apply (tells_plain _ _ (fun r => guid_ok (r_guid r))); intros; apply carries_reader_at|].
  intros K' r _ _. case_if; [apply tells_fire|done].
Qed.

Lemma tells_send_frame K peer f : frame_in K f -> tells K (lift (send_frame peer f)) anything.
Proof.
  intros Hf. apply tells_carries. intros K' fresh HK _. apply carries_send_frame. by eapply frame_in_mono.
Qed.

Lemma tells_send K peer f : frame_in K f -> tells K (send_prog peer f) anything.
Proof. intros Hf. eapply tells_bind; [by apply tells_send_frame|]. done. Qed.

(** Encoding a truthful frame and sending it. *)
Lemma tells_encode_send K (r : res (list Z)) peer :
  (forall f, r = Done f -> frame_in K f) -> tells K (frame ← lift (encoded r); send_prog peer frame) anything.
Proof.
  intros Hr. eapply tells_bind; [apply tells_encoded|]. intros K' f HK E. cbv beta in E.
  apply tells_send. eapply frame_in_mono; [exact HK|by apply Hr].
Qed.

Lemma tells_send_frames K peer fs ok : Forall (frame_in K) fs -> tells K (send_frames_prog peer fs ok) anything.
Proof.
  revert K ok. induction fs as [|f fs IH]; intros K ok Hfs; [done|]. apply Forall_cons in Hfs as [Hf Hfs].
  eapply tells_bind; [by apply tells_send_frame|]. intros K' sent HK _. apply IH.
  eapply Forall_impl; [exact Hfs|]. intros f'. by apply frame_in_mono.
Qed.

Lemma tells_send_sample K peer w_id seq pb data q :
  sendable_in K w_id seq pb data -> tells K (send_sample_to_prog peer w_id seq pb data (reliable_flag q)) anything.
Proof.
  intros Hs. eapply (tells_bind _ _ _ anything); [apply tells_carries; intros; apply carries_max_payload|].
  intros K1 max_p HK1 _. case_if; [done|]. eapply tells_bind; [apply tells_encoded|]. intros K2 fs HK2 Hfs. cbv beta in Hfs.
  assert (Hs2 : sendable_in K2 w_id seq pb data) by (eapply sendable_in_mono; [|exact Hs]; by etrans).
  destruct Hs2 as (Hg & Hq & Hp & Hb & Hl & Hv). rewrite wrap_id in Hfs by ulia.
  eapply (tells_bind _ _ _ anything); [|done]. apply tells_send_frames.
  by eapply (fragment_true _ _ _ w_id seq pb data); [..|exact Hfs]; auto using reliable_flag_fits.
Qed.

Lemma tells_send_sample_unit K peer w_id seq pb data q :
  sendable_in K w_id seq pb data ->
  tells K (_ ← send_sample_to_prog peer w_id seq pb data (reliable_flag q); mret tt) anything.
Proof. intros Hs. eapply tells_bind; [by apply tells_send_sample|]. done. Qed.

(** What is announced is so when it is copied. *)
Lemma tells_announcement K :
  tells K (locked (lift announcement))
    (fun K' s => forall f, encode_announce s.1.1 s.1.2 = Done f -> frame_in K' f).
Proof.
  apply tells_section, (tells_self _ (fun p => (snapshot_locked p, p_announce_seq p, p_peers p))).
  intros K' p _ Hp f. by apply announce_true.
Qed.

Lemma tells_send_announce K peer : tells K (send_announce_prog peer) anything.
Proof. eapply tells_bind; [apply tells_announcement|]. intros K' s _ Hs. by apply tells_encode_send. Qed.

Lemma tells_broadcast K peers f :
  frame_in K f -> tells K (each peers (fun peer => send_prog peer f)) anything.
Proof. intros Hf. apply tells_each. intros K' peer HK _. apply tells_send. by eapply frame_in_mono. Qed.

Lemma tells_broadcast_announce K : tells K broadcast_announce_prog anything.
Proof.
  eapply tells_bind; [apply tells_announcement|]. intros K' s _ Hs.
  eapply tells_bind; [apply tells_encoded|]. intros K2 f HK E. cbv beta in E.
  apply tells_broadcast. eapply frame_in_mono; [exact HK|by apply Hs].
Qed.

Lemma heartbeat_in K w_id a b f : guid_ok w_id -> encode_heartbeat w_id a b = Done f -> frame_in K f.
Proof. apply heartbeat_true. Qed.

Lemma tells_send_heartbeats K : tells K send_heartbeats_prog anything.
Proof.
  eapply (tells_bind _ _ _ (fun _ s => forall hb, hb ∈ s.2 -> guid_ok hb.1.1)).
  { apply tells_section, (tells_self _ (fun p => (p_peers p, heartbeats p))). intros K' p _ Hp hb Hhb. simpl in Hhb.
    apply list_elem_of_omap in Hhb as (kv & Hkv & Ehb). revert Ehb. case_if; [done|].
    destruct (w_history kv.2); [done|]. intros [= <-]. apply (st_writers _ _ _ _ Hp _ Hkv). }
  intros K' s _ Hs. apply tells_each. intros K2 peer _ _. apply tells_each. intros K3 hb _ Hhb.
  apply tells_encode_send. intros f. by apply heartbeat_in, Hs.
Qed.

Lemma tells_assert_liveliness K ptr : tells K (assert_liveliness_prog ptr) anything.
Proof.
  eapply (tells_bind _ _ _ anything).
  { apply tells_section, tells_carries. intros K' fresh _ _. eapply carries_bind; [apply carries_self|]. intros p _.
    eapply carries_bind; [apply carries_writer_at|]. intros. by apply carries_ret. }
  intros K1 s _ _. eapply tells_bind; [apply tells_plain; intros; apply carries_writer_at|].
  intros K2 wr _ Hg. eapply tells_bind; [apply tells_encoded|]. intros K3 f _ E. cbv beta in E.
  apply tells_broadcast. exact (heartbeat_in _ _ _ _ _ Hg E).
Qed.

(** *** Writing *)

(** A dereferenced writer is the one the call publishes on. *)
Lemma named_writer_at w ptr wr w' :
  writer_named op g w -> publishes op ptr = true -> writer_at ptr w = Done (wr, w') -> w_guid wr = g /\ w' = w.
Proof.
  intros Hn Hp. destruct (Hn ptr Hp) as (wr0 & Hf & Eg). rewrite (writer_at_run _ _ _ Hf). by intros [= <- <-].
Qed.

Lemma tells_writer_at K ptr : publishes op ptr = true -> tells K (lift (writer_at ptr)) (fun _ wr => w_guid wr = g).
Proof.
  intros Hp. apply tells_act. intros K' w wr w' _ [_ _ _ Ht Hn] _ E.
  destruct (named_writer_at _ _ _ _ Hn Hp E) as [Eg ->]. split_and!; [done|apply evolves_refl|done].
Qed.

Lemma tells_send_to_targets K targets (send : PeerId -> prog T bool) any :
  (forall K' peer, knows K K' -> tells K' (send peer) anything) -> tells K (send_to_targets_prog targets send any) anything.
Proof.
  revert K any. induction targets as [|peer targets IH]; intros K any Hs; [done|].
  eapply tells_bind; [by apply Hs|]. intros K' sent HK _. apply IH. intros K2 peer' HK2. apply Hs. by etrans.
Qed.

(** The sample claimed under the lock is delivered and sent under the writer's id. *)
Lemma tells_publish K ptr seq pb data readers targets :
  publishes op ptr = true -> sendable_in K g seq pb data -> tells K (publish_prog ptr seq pb data readers targets) anything.
Proof.
  intros Hp Hs. eapply (tells_bind _ _ _ anything).
  { apply tells_each. intros K1 r HK1 _. eapply (tells_bind _ _ _ anything).
    - apply tells_act. intros K2 w out w' HK2 [_ _ _ Ht Hn] Hnd E.
      unfold mbind, act_bind in E. destruct (writer_at ptr w) as [[wr w1]| |] eqn:E1; [|done..].
      destruct (named_writer_at _ _ _ _ Hn Hp E1) as [Eg ->]. rewrite Eg in E.
      destruct (sendable_in_mono K K2 _ _ _ _ ltac:(by etrans) Hs) as (_ & Hseq & _ & _ & _ & Hv).
      by eapply (carries_enqueue_at ours (pub_in K2) (kn_announced K2)).
    - intros K2 out _ _. case_if; [apply tells_fire_callback|done]. }
  intros K1 [] HK1 _. eapply tells_bind; [by apply tells_writer_at|]. intros K2 wr HK2 _.
  eapply (tells_bind _ _ _ anything); [|done]. apply tells_send_to_targets. intros K3 peer HK3.
  eapply tells_bind; [by apply tells_writer_at|]. intros K4 wr' HK4 Eg. cbv beta in Eg. rewrite Eg.
  apply tells_send_sample. eapply sendable_in_mono; [|exact Hs]. etrans; [exact HK1|]. etrans; [exact HK2|]. by etrans.
Qed.

(** The lock region of [write_sample]: a claimed number is published. *)
Lemma claim_true K w ptr length bytes data pb c w' :
  op = Write ptr bytes length -> written bytes length = Some data ->
  situation op g K w -> fits 64 pb -> bytes_ok data -> 64 + len data < 2 ^ 32 ->
  claim_section ptr data pb w = Done (c, w') ->
  act_true op (learned op w w' K) w w' /\
  match c with Some (seq, _, _) => sendable_in (learned op w w' K) g seq (pb / 1000) data | None => True end.
Proof.
  intros Eop Ewr [[Hw Hg] Hin _ Ht Hn] Hpb Hb Hl.
  destruct (Hn ptr) as (wr & Hf & Eg); [rewrite Eop; simpl; lia|].
  pose proof (po_writers _ (proj1 Hw) _ _ Hf) as Hwr. pose proof (ho_seq _ (wo_history _ Hwr)) as Hseq.
  pose proof (proj2 Hin ptr wr Hf) as Hlt. unfold claim_section, system_now_ms.
  unfold mbind at 1, act_bind at 1, tick at 1. set (now := w_sys w (w_tick w) / 1000).
  unfold mbind at 1, act_bind at 1, get_self. fold (ticked w).
  rewrite (run_first _ _ _ _ _ (writer_at_run ptr wr (ticked w) Hf)).
  pose proof (claim_seq_number wr pb data now Hseq Hlt) as Hnum.
  destruct (claim_seq wr pb data now) as [wr' [seq|]] eqn:Ecl.
  2:{ intros [= <- <-]. split; [|done]. split; [|done|by left|].
      - eapply true_in_mono; [apply knows_learned|exact Ht].
      - intros kv Hkv. left. exists kv. by split_and!. }
  destruct Hnum as [-> Hs']. set (w1 := with_self (set_writers (w_self w) (map_set ptr wr' (p_writers (w_self w)))) (ticked w)).
  intros E. change (Done (Some (w_seq wr + 1, local_readers (w_self w) wr, send_targets_locked (w_self w) wr), w1) = Done (c, w')) in E.
  injection E as <- <-. set (K' := learned op w w1 K).
  assert (HK : knows K K') by apply knows_learned. pose proof (true_in_mono _ _ _ HK Ht) as (Hst & Htr & Hc).
  assert (Hv : vouched ours (pub_in K') g (w_seq wr + 1) data).
  { intros _. apply elem_of_app. right. subst op. simpl. rewrite Hf, map_find_set_eq, Hs', Z.eqb_refl, Ewr, Eg.
    apply list_elem_of_singleton. done. }
  pose proof (st_writers _ _ _ _ Hst _ (map_find_In _ _ _ Hf)) as Hwt. simpl in Hwt. rewrite <- Eg in Hv |- *.
  destruct (claim_writer_true ours (pub_in K') _ _ _ _ _ _ Hwt Hseq Hlt Hpb Hb Hl Ecl Hv) as [Hwt' Hsend].
  split; [|exact Hsend]. split; [|done|by left|].
  - split_and!; [|exact Htr|exact Hc]. destruct Hst as [Hx Hgd Hns Ha Hnd Hm Hws Hr Hrt Hrem Hre]. split; cbn; try done.
    + by apply map_ok_set.
    + intros kv [-> |Hkv]%elem_of_map_set; [done|by apply Hws].
  - intros kv Hkv. left. exists kv. by split_and!.
Qed.

Lemma tells_write_sample K ptr length bytes data :
  op = Write ptr bytes length -> written bytes length = Some data -> bytes_ok data -> 64 + len data < 2 ^ 32 ->
  tells K (write_sample_prog ptr data) anything.
Proof.
  intros Eop Ewr Hb Hl. eapply (tells_bind _ _ _ (fun _ pb => fits 64 pb)).
  { apply (tells_plain _ _ (fits 64)). intros. apply carries_tick. intros w Hc. apply Hc. }
  intros K1 pb _ Hpb. cbv beta in Hpb. eapply (tells_bind _ _ _ (fun K' c =>
    match c with Some (seq, _, _) => sendable_in K' g seq (pb / 1000) data | None => True end)).
  { apply tells_locked. intros K2 w c w' _ Hs E _. by eapply claim_true. }
  intros K2 [[[seq readers] targets]|] _ Hc; [|done]. apply tells_publish; [|exact Hc]. rewrite Eop. simpl. lia.
Qed.

Lemma tells_write K ptr data length :
  op = Write ptr data length ->
  match data with
  | Some bytes => bytes_ok bytes /\ 0 <= length <= len bytes /\ 64 + length < 2 ^ 32
  | None => True
  end -> tells K (writer_write_prog ptr data length) anything.
Proof.
  intros Eop Hd. unfold writer_write_prog. destruct data as [bytes|].
  - eapply tells_bind; [apply tells_encoded|]. intros K' bs _ E. cbv beta in E. destruct (written_ok (Some bytes) length bs Hd).
    { unfold load in E. case_decide; [|done]. injection E as <-. by rewrite drop_0. }
    eapply tells_write_sample; [exact Eop| |done|done]. unfold load in E. case_decide; [|done]. injection E as <-.
    simpl. by rewrite drop_0.
  - case_if; [done|]. eapply tells_write_sample; [exact Eop| |constructor|done]. unfold written. by case_if.
Qed.

(** *** Discovery *)

Lemma tells_peer_up K peer : tells K (handle_peer_up_prog peer) anything.
Proof.
  eapply tells_bind; [|intros; apply tells_send_announce].
  apply tells_section, (tells_modify _ (fun p => set_peers p (set_insert peer (p_peers p)))); [|done]. intros K' p []. by split.
Qed.

Lemma tells_peer_down K peer : tells K (handle_peer_down_prog peer) anything.
Proof.
  eapply (tells_bind _ _ _ anything); [|intros K' [] _ _; [apply tells_graph_changed|done]].
  apply tells_section, tells_carries. intros K' fresh _ _. eapply carries_bind; [apply carries_self|]. intros p _.
  eapply carries_bind; [|intros; by apply carries_ret].
  apply carries_update; [|done]. intros p' [Hx Hg Hn Ha Hnd Hm Hw Hr Hrt Hrem Hre]. split; cbn; try done.
  - intros kv [_ Hkv]%list_elem_of_filter. by apply Hrem.
  - intros kv [_ Hkv]%list_elem_of_filter. by apply Hre.
Qed.

Lemma tells_replay K peer eps : tells K (replay_history_to_peer_prog peer eps) anything.
Proof.
  unfold replay_history_to_peer_prog. case_if; [done|].
  eapply (tells_bind _ _ _ (fun K' todo => forall t, t ∈ todo -> exists q,
    t.2 = reliable_flag q /\ sendable_in K' t.1.2 (cs_seq t.1.1) (cs_pub_time_ms t.1.1) (cs_data t.1.1))).
  { apply tells_section, tells_carries. intros K' fresh _ _. eapply carries_bind; [apply carries_now_ms|]. intros now _.
    eapply carries_bind; [apply carries_self|]. intros p Hp. apply carries_ret. intros t Ht.
    destruct (replay_todo_in _ _ _ _ Ht) as (kv & Hkv & He & -> & ->). exists (w_qos kv.2). split; [done|].
    by apply (history_sendable _ _ (kn_announced K') p). }
  intros K1 todo _ Htodo. apply tells_each. intros K2 t HK Ht. destruct (Htodo t Ht) as (q & -> & Hs).
  apply tells_send_sample_unit. by eapply sendable_in_mono.
Qed.

Lemma carries_announce_section K fresh peer snap seq :
  kn_announced K (participant_guid snap) seq ->
  carries ours (pub_in K) (kn_announced K) fresh (announce_section peer snap seq) (fun _ => True).
Proof.
  intros Hann. unfold announce_section. eapply carries_bind; [apply carries_self|]. intros p Hp.
  assert (Hset : forall rp, kn_announced K (participant_guid snap) (rp_announce_seq rp) ->
    carries ours (pub_in K) (kn_announced K) fresh
      (modify (fun p => set_remote p (map_set (participant_guid snap) rp (p_remote p)))) (fun _ => True)).
  { intros rp Hrp. apply carries_update; [|done]. intros p' Hp'. by apply self_true_set_remote. }
  cbv zeta. eapply (carries_bind _ _ _ _ (fun _ => True)).
  { destruct (map_find (participant_guid snap) (p_remote p)) as [rp|] eqn:Erp; [|by apply carries_ret].
    eapply carries_bind; [apply carries_steady_ms|]. intros now _.
    eapply carries_bind; [apply Hset; simpl; apply (st_remote _ _ _ _ Hp _ (map_find_In _ _ _ Erp))|].
    intros u _. by apply carries_ret. }
  intros [] _; [by apply carries_ret|]. eapply carries_bind; [apply carries_steady_ms|]. intros now _.
  eapply carries_bind; [by apply Hset|]. intros u _. by apply carries_ret.
Qed.

Lemma tells_announce K peer frame : frame_in K frame -> tells K (handle_announce_prog peer frame) anything.
Proof.
  intros Hf. eapply tells_bind; [apply tells_decoded|]. intros K1 [[snap seq]|] HK Hd; [|done].
  eapply (tells_bind _ _ _ anything).
  { apply tells_section, tells_carries. intros K2 fresh HK2 _. apply carries_announce_section.
    eapply knows_announced; [exact HK2|]. eapply knows_announced; [exact HK|]. by apply (ft_announce _ _ _ _ Hf). }
  intros K2 [[changed eps]|] _ _; [|done]. eapply tells_bind; [apply tells_replay|].
  intros K3 [] _ _. destruct changed; [apply tells_graph_changed|done].
Qed.

(** *** Data *)

Lemma tells_seen_writer K w_id :
  tells K (lift (seen_writer w_id)) (fun _ s => forall kv, kv ∈ s.2 -> guid_ok (r_guid kv.2)).
Proof.
  apply tells_carries. intros K' fresh _ _. eapply carries_bind; [apply carries_steady_ms|]. intros now _.
  eapply carries_bind; [apply carries_last_seen|]. intros u _.
  eapply carries_bind; [apply carries_self|]. intros p Hp. apply carries_ret. intros kv Hkv.
  apply (st_reader_types _ _ _ _ Hp _ Hkv).
Qed.

Lemma tells_enqueue K ptr w_id seq data wq pb :
  fits 64 seq -> vouched ours (pub_in K) w_id seq data -> tells K (lift (enqueue_at ptr w_id seq data wq pb)) anything.
Proof.
  intros Hs Hv. apply tells_carries. intros K' fresh HK _. apply carries_enqueue_at; [done|]. by eapply vouched_in_mono.
Qed.

Lemma acknack_in K r w_id b m f : guid_ok r -> guid_ok w_id -> encode_acknack r w_id b m = Done f -> frame_in K f.
Proof. apply acknack_true. Qed.

Lemma tells_deliver K peer w_id seq pb data :
  guid_ok w_id -> fits 64 seq -> vouched ours (pub_in K) w_id seq data ->
  tells K (deliver_sample_prog peer w_id seq pb data) anything.
Proof.
  intros Hg Hseq Hv. eapply (tells_bind _ _ _ (fun _ outs => Forall (fun o => guid_ok o.1.2) outs)).
  { apply tells_locked. eapply tells_bind; [apply tells_seen_writer|]. intros K1 [[ep|] rs] HK1 Hrs; [|by apply Forall_nil].
    apply tells_mapM. intros K2 kv HK2 [_ Hkv]%list_elem_of_filter.
    eapply tells_bind; [apply tells_enqueue; [done|]|]; [|intros K3 out _ _; apply (Hrs kv Hkv)].
    eapply vouched_in_mono; [|exact Hv]. by etrans. }
  intros K1 outs HK1 Houts. rewrite Forall_forall in Houts. eapply (tells_bind _ _ _ anything).
  { apply tells_each. intros K2 o _ Ho. case_if; [|done]. apply tells_encode_send. intros f Hf.
    exact (acknack_in _ _ _ _ _ _ (Houts _ Ho) Hg Hf). }
  intros K2 [] _ _. apply tells_each. intros K3 o _ _. case_if; [apply tells_fire_callback|done].
Qed.

Lemma carries_acknack_section K fresh (b : AckNackBody) :
  carries ours (pub_in K) (kn_announced K) fresh (acknack_section b) (fun s =>
    match s with
    | Some (flags, resend, _) => exists q, flags = reliable_flag q /\
        forall e, e ∈ resend -> sendable_in K (ack_writer b) (cs_seq e) (cs_pub_time_ms e) (cs_data e)
    | None => True
    end).
Proof.
  intros w s w' Hw. unfold acknack_section, mbind at 1, act_bind at 1, get_self. pose proof (proj1 Hw) as Hp.
  assert (Hsame : forall (o : option (Z * list CachedSample * Z)), (mret o : act T _) w = Done (s, w') -> o = s /\ w' = w) by (by intros o [= <- <-]).
  destruct (find_writer_locked (w_self w) (ack_writer b)) as [ptr|] eqn:Ew.
  2:{ intros [<- ->]%Hsame. split_and!; [done|apply evolves_refl|done]. }
  destruct (find_remote_endpoint_locked (w_self w) (ack_reader b)) as [ep|].
  2:{ intros [<- ->]%Hsame. split_and!; [done|apply evolves_refl|done]. }
  unfold find_writer_locked in Ew. destruct (find _ (p_writers (w_self w))) as [kv|] eqn:Ef; [|done]. injection Ew as <-.
  apply find_some in Ef as [Hin Hg%bool_decide_eq_true]. apply list_elem_of_In in Hin.
  rewrite (run_first _ _ _ _ _ (writer_at_run kv.1 kv.2 w (entry_find _ _ (st_writers_map _ _ _ _ Hp) Hin))).
  set (clamp := bool_decide _).
  destruct (acknack_scan_within kv.2 clamp (ep_birth_us ep) (ack_base_seq b) (ack_bitmap b)) as [Hre _].
  destruct (acknack_scan kv.2 clamp _ _ _) as [resend u]. simpl in Hre. rewrite Forall_forall in Hre.
  intros [<- ->]%Hsame. split_and!; [done|apply evolves_refl|]. exists (w_qos kv.2). split; [done|]. intros e He.
  rewrite <- Hg. by apply (history_sendable _ _ (kn_announced K) (w_self w)); [..|apply Hre].
Qed.

Lemma tells_acknack K peer frame : bytes_ok frame -> tells K (handle_acknack_prog peer frame) anything.
Proof.
  intros Hb. eapply tells_bind; [apply tells_decoded|]. intros K1 [b|] _ Hd; [|done].
  pose proof (decode_acknack_safe frame Hb) as Hsafe. rewrite Hd in Hsafe. destruct Hsafe as (Hrg & Hwg & _).
  eapply tells_bind; [apply tells_section, tells_carries; intros K2 fresh _ _; apply carries_acknack_section|].
  intros K2 [[[flags resend] unavail]|] _ Hs; [|done]. destruct Hs as (q & -> & Hs).
  eapply (tells_bind _ _ _ anything).
  { apply tells_each. intros K3 e HK3 He. apply tells_send_sample_unit. by eapply sendable_in_mono, Hs. }
  intros K3 [] _ _. case_if; [|done]. apply tells_encode_send. intros f. by apply gap_true.
Qed.

Lemma tells_gap K peer frame : bytes_ok frame -> tells K (handle_gap_prog peer frame) anything.
Proof.
  intros Hb. eapply tells_bind; [apply tells_decoded|]. intros K1 [b|] _ Hd; [|done]. case_if; [done|].
  pose proof (decode_gap_safe frame Hb) as Hsafe. rewrite Hd in Hsafe.
  apply tells_section, tells_carries. intros. apply carries_gap_at, Hsafe.
Qed.

Lemma tells_heartbeat K peer frame : bytes_ok frame -> tells K (handle_heartbeat_prog peer frame) anything.
Proof.
  intros Hb. eapply tells_bind; [apply tells_decoded|]. intros K1 [b|] _ Hd; [|done].
  pose proof (decode_heartbeat_safe frame Hb) as Hsafe. rewrite Hd in Hsafe. destruct Hsafe as (Hwg & _).
  eapply (tells_bind _ _ _ (fun _ nacks => Forall (fun o => forall nk, o = Some nk -> guid_ok nk.1.1) nacks)).
  { apply tells_locked. eapply tells_bind; [apply tells_seen_writer|]. intros K2 [[ep|] rs] _ _; [|by apply Forall_nil].
    apply tells_mapM. intros K3 kv _ _. apply tells_plain. intros K4 fresh.
    eapply carries_bind; [apply carries_reader_at|]. intros r Hr. apply carries_ret. intros nk.
    unfold nack_due. case_if; [done|]. case_if; [done|]. destruct (nack_state r _). case_if; [|done]. by intros [= <-]. }
  intros K2 nacks _ Hn. rewrite Forall_forall in Hn. apply tells_each. intros K3 nk _ (o & Ho & Eo)%list_elem_of_omap.
  apply tells_encode_send. intros f. by apply acknack_in; [apply (Hn o Ho nk)|].
Qed.

Lemma tells_bytes K peer frame : frame_in K frame -> tells K (handle_bytes_prog peer frame) anything.
Proof.
  intros Hf. pose proof (ft_bytes _ _ _ _ Hf) as Hb. eapply tells_bind; [apply tells_decoded|].
  intros K1 [h|] HK _; [|done]. apply (frame_in_mono _ _ _ HK) in Hf. destruct (hdr_type h).
  - eapply tells_bind; [apply tells_decoded|]. intros K2 [b|] HK2 Hd; [|done].
    pose proof (decode_data_safe frame Hb) as Hs. rewrite Hd in Hs.
    apply tells_deliver; [apply Hs|apply Hs|eapply vouched_in_mono; [exact HK2|by apply (ft_data _ _ _ _ Hf)]].
  - eapply tells_bind; [apply tells_decoded|]. intros K2 [b|] HK2 Hd; [|done].
    pose proof (decode_data_frag_safe frame Hb) as Hs. rewrite Hd in Hs.
    eapply (tells_bind _ _ _ (fun K' o => match o with Some d => vouched ours (pub_in K') (frag_writer b) (frag_seq b) d | None => True end)).
    + apply tells_section, tells_carries. intros K3 fresh HK3 Hnd. apply carries_reassemble; [|done|].
      * intros g' s d d'. by apply published_in_fun.
      * assert (HK13 : knows K1 K3) by (by etrans). exact (ft_frag _ _ _ _ (frame_in_mono _ _ _ HK13 Hf) _ Hd).
    + intros K3 [d|] _ Hv; [|done]. apply tells_deliver; [apply Hs|apply Hs|done].
  - by apply tells_acknack.
  - by apply tells_heartbeat.
  - by apply tells_announce.
  - by apply tells_gap.
  - done.
Qed.

(** *** Entities *)

Lemma tells_next_guid K kind : kind_ok kind -> tells K (lift (next_guid kind)) (fun _ x => guid_ok x).
Proof.
  intros Hk. apply tells_carries. intros K' fresh _ _. eapply carries_bind; [apply carries_self|]. intros p Hp.
  cbv zeta. eapply carries_bind; [|intros u _; apply carries_ret; apply make_guid_ok; [apply Hp|apply Hp|destruct Hk; ulia]].
  apply (carries_update _ _ _ _ (fun p' => set_entities p' (u32 (p_entity_serial p + 1)) (p_writers p') (p_readers p'))); [|done].
  intros p' []. by split.
Qed.

Lemma tells_birth K : tells K (lift system_now_us) (fun _ t => fits 64 t).
Proof. apply (tells_plain _ _ (fits 64)). intros. apply carries_tick. intros w Hc. apply Hc. Qed.

Lemma tells_create_writer K ptr topic type q :
  names_typed topic type q -> tells K (create_writer_prog ptr topic type q) anything.
Proof.
  intros Hnm. unfold create_writer_prog. case_if; [done|].
  eapply tells_bind; [apply tells_next_guid; split; simpl; done || ulia|]. intros K1 x _ Hx. cbv beta in Hx.
  eapply tells_bind; [apply tells_birth|]. intros K2 birth _ Hbirth. cbv beta in Hbirth.
  eapply (tells_bind _ _ _ anything).
  { apply tells_section, (tells_modify _ (fun p => set_writers p (map_emplace ptr (new_writer x topic type q birth) (p_writers p)))); [|done].
    intros K3 p [Hpx Hg Hn Ha Hnd Hm Hw Hr Hrt Hrem Hre]. split; cbn; try done.
    - by apply map_ok_emplace.
    - intros kv Hkv. unfold map_emplace in Hkv. destruct (map_find ptr (p_writers p)); [by apply Hw|].
      apply elem_of_map_set in Hkv as [-> |Hkv]; [|by apply Hw]. split; simpl; [|constructor]. by split_and!. }
  intros K3 u _ _. eapply tells_bind; [apply tells_recompute|]. done.
Qed.

Lemma tells_replay_local K ptr : tells K (replay_local_history_prog ptr) anything.
Proof.
  eapply tells_bind; [apply tells_plain; intros; apply carries_reader_at|]. intros K1 r _ _. case_if; [done|].
  eapply (tells_bind _ _ _ anything); [|intros K2 [] _ _; [apply tells_fire_callback|done]]. apply tells_locked.
  eapply (tells_bind _ _ _ (fun K' todo => forall t, t ∈ todo ->
    fits 64 (cs_seq t.2) /\ vouched ours (pub_in K') (w_guid t.1) (cs_seq t.2) (cs_data t.2))).
  { apply tells_carries. intros K2 fresh _ _. eapply carries_bind; [apply carries_now_ms|]. intros now _.
    eapply carries_bind; [apply carries_self|]. intros p Hp. apply carries_ret. intros t (l & Hl & Hin)%list_elem_of_In%in_concat.
    apply list_elem_of_In, list_elem_of_fmap in Hl as (kv & -> & Hkv). apply list_elem_of_In in Hin.
    revert Hin. cbv zeta. case_if; [by intros ?%not_elem_of_nil|].
    intros (e & -> & [_ He]%list_elem_of_filter)%list_elem_of_fmap. simpl.
    by destruct (history_sendable _ _ _ p kv e Hp Hkv He) as (_ & ? & _ & _ & _ & ?). }
  intros K2 todo _ Htodo. eapply tells_bind; [|intros K3 outs _ _; done].
  apply (tells_mapM _ _ _ (fun _ => True)). intros K3 t HK Ht. destruct (Htodo t Ht) as [Hs Hv].
  apply tells_enqueue; [done|]. by eapply vouched_in_mono.
Qed.

Lemma tells_create_reader K ptr topic type q ign :
  names_typed topic type q -> tells K (create_reader_prog ptr topic type q ign) anything.
Proof.
  intros Hnm. unfold create_reader_prog. case_if; [done|].
  eapply tells_bind; [apply tells_next_guid; split; simpl; done || ulia|]. intros K1 x _ Hx. cbv beta in Hx.
  eapply tells_bind; [apply tells_birth|]. intros K2 birth _ Hbirth. cbv beta in Hbirth.
  eapply (tells_bind _ _ _ anything).
  { apply tells_locked, tells_act. intros K3 w b w' _ [_ _ _ (Hp & Ht & Hc) _] _ [= <- <-].
    set (r := ReaderImpl.new_reader _ _ _ _ _ _).
    assert (Hin : forall kv, kv ∈ map_emplace ptr r (p_readers (w_self w)) ->
      map_find ptr (p_readers (w_self w)) = None /\ kv = (ptr, r) \/ kv ∈ p_readers (w_self w)).
    { intros kv. unfold map_emplace. destruct (map_find ptr (p_readers (w_self w))); [by right|].
      intros [?|?]%elem_of_map_set; [by left|by right]. }
    split; [split_and!; [|done|done]|split; [|done]].
    - destruct Hp as [Hpx Hg Hn Ha Hnd Hm Hw Hr Hrt Hrem Hre]. split; cbn; try done.
      + intros kv [[_ ->]|Hkv]%Hin; [intros g'; apply rx_init_ok|by apply Hr].
      + intros kv [[_ ->]|Hkv]%Hin; [|by apply Hrt]. by split_and!.
    - split; [done|]. intros kv [[Hf ->]|Hkv]%Hin; [|left; by exists kv; split_and!]. right. split; [done|]. apply new_reader_channel. }
  intros K3 u _ _. eapply tells_bind; [apply tells_recompute|]. intros K4 u' _ _.
  eapply tells_bind; [apply tells_replay_local|]. done.
Qed.

Lemma tells_destroy_writer K ptr : tells K (destroy_writer_prog ptr) anything.
Proof.
  eapply tells_bind; [|intros; apply tells_recompute].
  apply tells_section, (tells_modify _ (fun p => set_writers p (map_erase ptr (p_writers p)))); [|done].
  intros K' p [Hx Hg Hn Ha Hnd Hm Hw Hr Hrt Hrem Hre]. split; cbn; try done.
  - by apply map_ok_erase.
  - intros kv [_ Hkv]%list_elem_of_filter. by apply Hw.
Qed.

Lemma tells_destroy_reader K ptr : tells K (destroy_reader_prog ptr) anything.
Proof.
  eapply tells_bind; [|intros; apply tells_recompute].
  apply tells_section, tells_carries. intros K' fresh _ _. apply carries_modify. intros p Hp. split.
  - apply self_true_readers; [done|]. intros kv [_ Hkv]%list_elem_of_filter. by apply (st_reader ours (pub_in K') (kn_announced K') p).
  - split; [done|]. intros kv [_ Hkv]%list_elem_of_filter. by apply evolves_refl.
Qed.

(** The announce turn counts first: the new number is announced by the step itself. *)
Lemma tells_count_announcement K :
  op = AnnounceTick -> tells K (lift (_ ← modify (fun p => set_announce_seq p (u64 (p_announce_seq p + 1))); sweep_reassemblers_locked)) anything.
Proof.
  intros Eop K1 w b w' _ [Hs _ Hroom Ht _] E Hnd. specialize (Hroom Eop).
  set (w1 := with_self (set_announce_seq (w_self w) (u64 (p_announce_seq (w_self w) + 1))) w).
  change (sweep_reassemblers_locked w1 = Done (b, w')) in E. set (K2 := learned op w w' K1).
  assert (HK : knows K1 K2) by apply knows_learned.
  pose proof (true_in_mono _ _ _ HK Ht) as (Hp & Htr & Hc). destruct (st_seq _ _ _ _ Hp) as [Hseq0 _].
  assert (Eseq : u64 (p_announce_seq (w_self w) + 1) = p_announce_seq (w_self w) + 1) by (apply wrap_id; ulia).
  assert (Hsw : announces (w_self w') = announces (w_self w1)).
  { destruct (carries_sweep ours (pub_in K1) (fun _ _ => True) (fun _ => True) w1 b w') as (_ & [Ea _] & _); [|exact E|exact Ea].
    destruct Ht as (Hp1 & Ht1 & Hc1). split_and!; [|intros t pf Ht' Hpf; by eapply frame_true_mono, Ht1|done].
    apply self_true_announce; [|rewrite Eseq; ulia|done]. by eapply self_true_mono; [..|exact Hp1]. }
  injection Hsw as Eg Es. simpl in Eg, Es.
  assert (Hw1 : true_in K2 w1).
  { split_and!; [|done|done]. apply self_true_announce; [done|rewrite Eseq; ulia|]. right. by rewrite Eg, Es. }
  destruct (carries_sweep ours (pub_in K2) (kn_announced K2) (fun ptr => map_find ptr (p_readers (w_self w)) = None) w1 b w' Hw1 E)
    as (Hw' & [_ Hev] & _).
  split; [|done]. split; [done|done|right; split; [done|lia]|exact Hev].
Qed.

Lemma tells_announce_tick K : op = AnnounceTick -> tells K announce_tick_prog anything.
Proof.
  intros Eop. eapply tells_bind; [by apply tells_section, tells_count_announcement|]. intros K1 u _ _.
  eapply tells_bind; [apply tells_broadcast_announce|]. intros K2 u' _ _. apply tells_send_heartbeats.
Qed.

(** What a call is given: bytes of their C++ types, true frames, a live writer. *)
Definition op_lawful K (op' : Op) : Prop :=
  match op' with
  | Receive _ frame => frame_in K frame
  | Write _ (Some bytes) length => bytes_ok bytes /\ 0 <= length <= len bytes /\ 64 + length < 2 ^ 32
  | _ => op_typed op'
  end.

End programs.

Lemma tells_op op g K : op_lawful K op -> truthful op g K (op_prog op) (fun _ _ => True).
Proof.
  intros Hop. destruct op as [peer|peer|peer frame| |ptr topic type q|ptr topic type q ign|ptr|ptr|ptr data length|ptr|ptr|ptr|ptr has|ns name|ns name|has];
    cbn [op_prog op_lawful op_typed] in *.
  - apply tells_peer_up.
  - apply tells_peer_down.
  - by apply tells_bytes.
  - by apply tells_announce_tick.
  - eapply tells_bind; [by apply tells_create_writer|]. done.
  - eapply tells_bind; [by apply tells_create_reader|]. done.
  - apply tells_destroy_writer.
  - apply tells_destroy_reader.
  - eapply tells_bind; [by eapply tells_write; [reflexivity|destruct data]|]. done.
  - apply tells_assert_liveliness.
  - apply tells_carries. intros. unfold take_at. eapply carries_bind; [apply carries_now_ms|]. intros now _.
    apply carries_at_reader. intros r. destruct (take_shortens now r) as [q Eq]. split_and!; [by rewrite Eq..|].
    apply take_steps.
  - apply tells_carries. intros. unfold available_at. eapply carries_bind; [apply carries_now_ms|]. intros now _.
    apply carries_at_reader. intros r. split_and!; [done..|]. apply available_steps.
  - apply tells_carries. intros. apply carries_at_reader. intros r. split_and!; [done..|]. by apply rtc_once, ch_drop.
  - apply tells_section, tells_modify; intros; [|unfold add_node; by case_if].
    unfold add_node. case_if; [done|]. destruct H1. split; try done. simpl. apply Forall_app. by split; [|apply Forall_singleton].
  - apply tells_section, tells_modify; [|done]. intros K' p []. split; try done. simpl.
    apply Forall_forall. intros nd [_ Hnd]%list_elem_of_filter. by eapply Forall_forall.
  - apply tells_section, tells_modify; [|done]. intros K' p []. by split.
Qed.
End truthful.
