(* ===== verification/Bus.v ===== *)
(** * The bus a network of participants implements

    The abstract specification of a whole network, the simulation between the two, an
    executable network for the examples, and the theorems about networks. *)

From stdpp Require Import relations.
From S2P Require Import Prelude Memory StdMap Guid Qos Frame Fragment Reassembler ReaderImpl WriterImpl Reliability Discovery Wire Participant ParticipantFacts Matching Session Graph DataPath Publish Channel Integrity Network.

(** ** The specification: a bus of channels

    What was published, by whom, and one channel per reader. *)

Record Bus := mkBus {
  bus_members : list (list Z);
  bus_samples : list Sample;
  bus_channel : nat -> Z -> option Channel;
}.

(** What a channel of the bus may deliver. *)
Definition bus_offers (b : Bus) (g : Guid) (s : Z) (d : list Z) : Prop :=
  guid_prefix g ∈ bus_members b -> (g, s, d) ∈ bus_samples b.

(** At most one sample is published, as the next of its writer; every channel takes
    steps, opens or closes. *)
Record bus_step (b b' : Bus) : Prop := {
  bs_members : bus_members b' = bus_members b;
  bs_samples : bus_samples b' = bus_samples b \/
    exists g d, guid_prefix g ∈ bus_members b /\
      bus_samples b' = bus_samples b ++ [(g, len (numbers g (bus_samples b)) + 1, d)];
  bs_channels i ptr :
    match bus_channel b i ptr, bus_channel b' i ptr with
    | Some c, Some c' => channel_steps (bus_offers b') c c'
    | None, Some c' => channel_steps (bus_offers b') open_channel c'
    | _, None => True
    end;
}.

Section refinement.
Context {T : Type} `{LoggedTransport T}.

Definition bus_of (n : Net (T := T)) : Bus :=
  mkBus (net_prefixes n) (net_published n)
    (fun i ptr => w ← net_nodes n !! i; r ← map_find ptr (p_readers (w_self w)); Some (channel_of r)).

Lemma move_bus_samples (n : Net) w w' out :
  net_ok n -> w ∈ net_nodes n -> net_move n w w' out ->
  out = [] \/ exists g d, ours n g /\ out = [(g, len (numbers g (net_published n)) + 1, d)].
Proof.
  intros Hn Hw Hmv. destruct out as [|x l] eqn:Eo; [by left|right].
  destruct (out_prefix n w out x Hn Hw) as (kv & Hkv & Eg & Es & Epre); [rewrite Eo; apply Hmv|rewrite Eo; left|].
  pose proof (nm_short _ _ _ _ Hmv) as Hs. simpl in Hs. destruct l; [|simpl in Hs; lia].
  exists x.1.1, x.2. split.
  { unfold ours. rewrite Epre. by apply (list_elem_of_fmap_2 (fun w => p_prefix (w_self w))). }
  destruct x as [[g s] d]. simpl in *. subst g s. rewrite (no_numbers _ Hn w kv Hw Hkv), length_seqZ.
  pose proof (no_session _ Hn w Hw) as [[Hp _] _].
  pose proof (ho_seq _ (wo_history _ (po_writers _ Hp _ _ (entry_find _ _ (po_writers_map _ Hp) Hkv)))) as [Hs0 _].
  by rewrite Z2Nat.id by lia.
Qed.

(** A step of one participant is a step of the bus. *)
Lemma move_refines_bus (n : Net) i w w' out :
  net_ok n -> net_nodes n !! i = Some w -> net_move n w w' out ->
  bus_step (bus_of n) (bus_of (mkNet (<[i := w']> (net_nodes n)) (net_published n ++ out))).
Proof.
  intros Hn Hi Hmv. pose proof (step_prefixes n i w w' out Hi Hmv) as Epre. set (n' := mkNet _ _) in *. split.
  - exact Epre.
  - simpl. destruct (move_bus_samples n w w' out Hn (list_elem_of_lookup_2 _ _ _ Hi) Hmv) as [-> |(g & d & Ho & ->)];
      [left; apply app_nil_r|right]. by exists g, d.
  - intros j ptr. cbn [bus_of bus_channel].
    destruct (net_nodes n' !! j) as [w1|] eqn:Ej'; [cbn [mbind option_bind]|by destruct (_ ≫= _)].
    destruct (map_find ptr (p_readers (w_self w1))) as [r'|] eqn:Er'; [cbn [mbind option_bind]|by destruct (_ ≫= _)].
    assert (Hj : exists w0, net_nodes n !! j = Some w0).
    { apply lookup_lt_is_Some. apply lookup_lt_Some in Ej'. simpl in Ej'. by rewrite length_insert in Ej'. }
    destruct Hj as [w0 Ej]. rewrite Ej. cbn [mbind option_bind].
    destruct (step_readers n i w w' out Hi Hmv w0 w1 j (ptr, r') Ej Ej' (map_find_In _ _ _ Er'))
      as [(kv & Hin & Ek & _ & Hs)|[Hnone Hs]].
    + pose proof (no_session _ Hn w0 (list_elem_of_lookup_2 _ _ _ Ej)) as [[Hp _] _].
      pose proof (entry_find _ _ (po_readers_map _ Hp) Hin) as Hf. simpl in Ek. rewrite Ek in Hf. by rewrite Hf.
    + simpl in Hnone. by rewrite Hnone.
Qed.
End refinement.

(** ** Running a network

    Frames are delivered by picking them from what a participant has sent. *)

Section exec.
Context {T : Type} `{LoggedTransport T}.

Inductive NetAct :=
| Run (i : nat) (op : Op)
| Deliver (i : nat) (peer : PeerId) (j k : nat).

Definition sent_by (w : World T) : list (PeerId * list Z) := concat (sent_log <$> w_transports w).

Definition bytes_okb (l : list Z) : bool := forallb (fun b => (0 <=? b) && (b <? 256)) l.

(** [op_pre], decided. *)
Definition op_preb (op : Op) (p : ParticipantImpl) : bool :=
  match op with
  | Receive _ frame => bytes_okb frame
  | CreateWriter ptr _ _ _ | CreateReader ptr _ _ _ _ =>
      bool_decide (map_find ptr (p_writers p) = None) && bool_decide (map_find ptr (p_readers p) = None) &&
      (p_entity_serial p + 1 <? 2 ^ 24)
  | Write ptr data length =>
      match map_find ptr (p_writers p) with
      | None => false
      | Some wr => (w_seq wr + 1 <? 2 ^ 64) &&
          match data with
          | Some bytes => bytes_okb bytes && (0 <=? length) && (length <=? len bytes) && (64 + length <? 2 ^ 32)
          | None => true
          end
      end
  | AssertLiveliness ptr => bool_decide (is_Some (map_find ptr (p_writers p)))
  | Take ptr | Available ptr | SetDataCallback ptr _ => bool_decide (is_Some (map_find ptr (p_readers p)))
  | _ => true
  end.

(** A profile is of its type when the codec gives it back. *)
Definition names_typedb (topic type : list Z) (q : QosProfile) : bool :=
  bytes_okb topic && bytes_okb type && bytes_okb (qos_bytes q) &&
  match decode_qos (qos_bytes q) with Done q' => bool_decide (q' = q) | _ => false end.

(** [op_allowed] of what is not received, decided. *)
Definition op_allowedb (op : Op) (p : ParticipantImpl) : bool :=
  match op with
  | AnnounceTick => p_announce_seq p + 1 <? 2 ^ 64
  | CreateWriter _ topic type q | CreateReader _ topic type q _ => names_typedb topic type q
  | AddNode ns name => bytes_okb ns && bytes_okb name
  | _ => true
  end.

(** The operation of an action, and the participant that runs it. *)
Definition act_op (n : Net (T := T)) (a : NetAct) : option (nat * Op) :=
  match a with
  | Run i (Receive _ _) => None
  | Run i op => Some (i, op)
  | Deliver i peer j k => w ← net_nodes n !! j; pf ← sent_by w !! k; Some (i, Receive peer pf.2)
  end.

Definition net_exec (n : Net (T := T)) (a : NetAct) : option Net :=
  io ← act_op n a;
  w ← net_nodes n !! io.1;
  if op_preb io.2 (w_self w) && op_allowedb io.2 (w_self w)
  then match run_op io.2 w with
       | Done (_, w') => Some (mkNet (<[io.1 := w']> (net_nodes n)) (net_published n ++ published_by io.2 w))
       | _ => None
       end
  else None.

Definition net_run (n : Net (T := T)) (acts : list NetAct) : option Net := foldl (fun o a => n ← o; net_exec n a) (Some n) acts.

Lemma op_preb_sound op p : op_preb op p = true -> op_pre op p.
Proof.
  destruct op; simpl; try done.
  - apply bytes_ok_check.
  - rewrite !andb_true_iff, !bool_decide_eq_true, Z.ltb_lt. unfold fresh_entity. tauto.
  - rewrite !andb_true_iff, !bool_decide_eq_true, Z.ltb_lt. unfold fresh_entity. tauto.
  - destruct (map_find ptr (p_writers p)) as [wr|]; [|done]. rewrite andb_true_iff, Z.ltb_lt. intros [Hs Hd].
    exists wr. split_and!; [done..|]. destruct data as [bytes|]; [|done]. zbool.
    destruct Hd as [[[Hb Hl0] Hl1] Hl2]. split_and!; [by apply bytes_ok_check|lia..].
  - by rewrite bool_decide_eq_true.
  - by rewrite bool_decide_eq_true.
  - by rewrite bool_decide_eq_true.
  - by rewrite bool_decide_eq_true.
Qed.

Lemma names_typedb_sound topic type q : names_typedb topic type q = true -> names_typed topic type q.
Proof.
  unfold names_typedb. rewrite !andb_true_iff. intros [[[Ht Hty] Hq] Hd]. split; [by apply bytes_ok_check|].
  split; [by apply bytes_ok_check|].
  destruct (decode_qos_total (qos_bytes q)) as (q' & E & Hq'); [by apply bytes_ok_check|done|].
  rewrite E in Hd. apply bool_decide_eq_true in Hd as ->. exact Hq'.
Qed.

Lemma sent_in_flight (n : Net (T := T)) w pf : w ∈ net_nodes n -> pf ∈ sent_by w -> in_flight n pf.2.
Proof.
  intros Hw (l & Hl & Hpf)%list_elem_of_In%in_concat. apply list_elem_of_In in Hpf.
  apply list_elem_of_In, list_elem_of_fmap in Hl as (t & -> & Ht). by exists w, t, pf.
Qed.

Lemma net_exec_step n a n' : net_exec n a = Some n' -> net_step n n'.
Proof.
  unfold net_exec. destruct (act_op n a) as [[i op]|] eqn:Ea; [|done]. simpl.
  destruct (net_nodes n !! i) as [w|] eqn:Ei; [|done]. simpl.
  destruct (op_preb op (w_self w) && op_allowedb op (w_self w)) eqn:Ep; [|done].
  apply andb_true_iff in Ep as [Hpre Htick].
  destruct (run_op op w) as [[[] w']| |] eqn:E; [|done..]. intros [= <-].
  apply net_op; [done|by apply op_preb_sound| |done].
  destruct op; try done; simpl in *; [|by apply Z.ltb_lt|by apply names_typedb_sound..|
    by apply andb_true_iff in Htick as [? ?]; split; apply bytes_ok_check].
  left. destruct a as [i' op'|i' peer' j k]; [by destruct op'|]. simpl in Ea.
  destruct (net_nodes n !! j) as [wj|] eqn:Ej; [|done]. simpl in Ea.
  destruct (sent_by wj !! k) as [pf|] eqn:Ek; [|done]. simpl in Ea. injection Ea as _ _ <-.
  apply (sent_in_flight _ wj); [exact (list_elem_of_lookup_2 _ _ _ Ej)|exact (list_elem_of_lookup_2 _ _ _ Ek)].
Qed.

Lemma net_run_reachable n acts n' : net_reachable n -> net_run n acts = Some n' -> net_reachable n'.
Proof.
  intros Hn. unfold net_run. revert n Hn. induction acts as [|a acts IH]; intros n Hn; simpl; [by intros [= <-]|].
  destruct (net_exec n a) as [n1|] eqn:E.
  - apply IH. eapply net_next; [done|by eapply net_exec_step].
  - intros Hr. exfalso. clear -Hr. induction acts as [|a' acts IH]; simpl in Hr; done || by apply IH.
Qed.
End exec.

(** A publisher and a subscriber: they discover each other, a sample of 100 bytes is
    written, split for a channel of 80 bytes, and one of its fragments is duplicated. *)
Definition test_node (b : Z) : World Recorder :=
  new_world (replicate 12 b) [mkRecorder 80 []] None (fun _ => 1000000) (fun _ => 5000000).
Definition test_net0 : Net := mkNet [test_node 1; test_node 2] [].
Definition test_payload : list Z := u8 <$> seqZ 1 100.
Definition test_acts : list NetAct :=
  [Run 0 (CreateWriter 100 [116] [105] preset_default); Run 1 (CreateReader 200 [116] [105] preset_default false);
   Run 0 (PeerUp 5); Run 1 (PeerUp 6); Deliver 0 5 1 0; Deliver 1 6 0 0;
   Run 0 (Write 100 (Some test_payload) 100);
   Deliver 1 6 0 5; Deliver 1 6 0 2; Deliver 1 6 0 5; Deliver 1 6 0 4; Deliver 1 6 0 1; Deliver 1 6 0 3].
Definition test_net (k : nat) : Net := default test_net0 (net_run test_net0 (take k test_acts)).

Lemma test_net0_reachable : net_reachable test_net0.
Proof.
  apply net_start; [|apply NoDup_ListNoDup; by repeat constructor; simpl; intuition discriminate]. repeat constructor; do 5 eexists; (split; [reflexivity|]);
    (split; [done|]); (split; [apply bytes_ok_check; reflexivity|]);
    (split; [intros k; ulia|intros t ->%list_elem_of_singleton; done]).
Qed.

Lemma test_net_reachable k : net_reachable (test_net k).
Proof.
  unfold test_net. destruct (net_run test_net0 (take k test_acts)) as [n|] eqn:E; simpl; [|apply test_net0_reachable].
  by eapply net_run_reachable; [apply test_net0_reachable|].
Qed.

Module BusSpec.
Section spec.
Context {T : Type} `{LoggedTransport T}.

(** A network of participants implements a bus of delivery channels.  Whatever a
    participant does, the bus publishes at most one sample, as the next of its writer, and
    every reader of every participant takes channel steps: it delivers only samples their
    writers published, with the bytes they published, a number at most once; it may give
    numbers up and drop waiting samples.  The network may lose, duplicate, reorder and
    misdirect frames, and other parties may send any frame that does not carry a GUID of
    these participants. *)
Theorem network_refines_bus (n n' : Net (T := T)) :
  net_reachable n -> net_step n n' -> bus_step (bus_of n) (bus_of n').
Proof.
  intros Hn%net_reachable_ok [i w op w' Hi Hpre Hal E]. apply (move_refines_bus n i w); [done|done|].
  apply op_move; [done|by eapply list_elem_of_lookup_2|done..].
Qed.

(** End to end, nothing is invented, altered or repeated: in every reachable state of a
    network, a sample waiting at any reader under the GUID of one of the participants was
    published by that writer under that number with exactly these bytes, no other bytes
    were published under that number, and no number waits twice. *)
Theorem network_integrity (n : Net (T := T)) (w : World T) (ptr : Z) (r : ReaderImpl) :
  net_reachable n -> w ∈ net_nodes n -> map_find ptr (p_readers (w_self w)) = Some r ->
  NoDup (queue_ids r) /\
  forall q, q ∈ r_queue r -> ours n (mi_writer_guid (qs_info q)) ->
    sample_of q ∈ net_published n /\
    forall d, (sample_id (qs_info q), d) ∈ net_published n -> d = qs_data q.
Proof.
  intros Hn%net_reachable_ok Hw Hr. destruct (no_channels _ Hn w (ptr, r) Hw (map_find_In _ _ _ Hr)) as [Ho _ Hnd].
  simpl in Ho, Hnd. split.
  - unfold queue_ids. rewrite <- list_fmap_compose in Hnd. exact Hnd.
  - intros q Hq Hours. specialize (Ho (sample_of q) (list_elem_of_fmap_2 sample_of _ _ Hq) Hours). split; [exact Ho|].
    intros d Hd. by eapply (published_fun n); [done|exact Hd|].
Qed.

(** Numbers identify samples across the network: what a live writer has published, in
    order, is numbered 1, 2, 3, ... up to its current number, whatever other writers,
    participants and restarts of its own participant's entities did. *)
Theorem published_in_order (n : Net (T := T)) (w : World T) (ptr : Z) (wr : WriterImpl) :
  net_reachable n -> w ∈ net_nodes n -> map_find ptr (p_writers (w_self w)) = Some wr ->
  numbers (w_guid wr) (net_published n) = seqZ 1 (w_seq wr).
Proof.
  intros Hn%net_reachable_ok Hw Hr. exact (no_numbers _ Hn w (ptr, wr) Hw (map_find_In _ _ _ Hr)).
Qed.

(** Well-typed networks do not go wrong: in every reachable state of a network, every
    frame in flight is a string of bytes, every participant's next announcement is of its
    C++ types, and every frame in flight can be delivered to every participant as coming
    from any peer; the delivery ends normally and leaves well-formed tables and a network
    of which all this holds again. *)
Theorem network_typed (n : Net (T := T)) :
  net_reachable n ->
  (forall f, in_flight n f -> bytes_ok f) /\
  (forall w, w ∈ net_nodes n -> snapshot_typed (snapshot_locked (w_self w))) /\
  forall f i w peer, in_flight n f -> net_nodes n !! i = Some w ->
    exists w', run_op (Receive peer f) w = Done (tt, w') /\ part_ok (w_self w') /\
      net_reachable (mkNet (<[i := w']> (net_nodes n)) (net_published n)).
Proof.
  intros Hr. pose proof (net_reachable_ok _ Hr) as Hn.
  assert (Hb : forall f, in_flight n f -> bytes_ok f) by (intros f Hf; apply (in_flight_true n f Hn Hf)).
  split_and!; [done|intros w Hw; by eapply snapshot_true_typed, (no_true _ Hn)|].
  intros f i w peer Hf Hi. pose proof (list_elem_of_lookup_2 _ _ _ Hi) as Hw.
  pose proof (op_safe (Receive peer f) w (no_session _ Hn w Hw) (Hb f Hf)) as Hs. unfold runs in Hs.
  destruct (run_op (Receive peer f) w) as [[[] w']| |] eqn:E; [|done..]. exists w'. split; [done|]. split; [apply Hs|].
  rewrite <- (app_nil_r (net_published n)). eapply net_next; [exact Hr|].
  apply (net_op n i w (Receive peer f) w'); [done|by apply Hb|by left|done].
Qed.
End spec.

Lemma network_refines_bus_witness : bus_step (bus_of (test_net 12)) (bus_of (test_net 13)).
Proof.
  apply network_refines_bus; [apply test_net_reachable|]. apply (net_exec_step _ (Deliver 1 6 0 3)).
  vm_compute. reflexivity.
Defined.

Lemma network_integrity_witness :
  exists w r, net_nodes (test_net 13) !! 1%nat = Some w /\ map_find 200 (p_readers (w_self w)) = Some r /\
    (qs_data <$> r_queue r) = [test_payload] /\ NoDup (queue_ids r).
Proof.
  destruct (net_nodes (test_net 13) !! 1%nat) as [w|] eqn:E; [|by vm_compute in E].
  destruct (map_find 200 (p_readers (w_self w))) as [r|] eqn:Er.
  - exists w, r. split; [done|]. split; [done|]. split.
    + vm_compute in E. injection E as <-. vm_compute in Er. injection Er as <-. vm_compute. reflexivity.
    + apply (network_integrity (test_net 13) w 200 r); [apply test_net_reachable|by eapply list_elem_of_lookup_2|done].
  - exfalso. vm_compute in E. injection E as <-. by vm_compute in Er.
Defined.

Lemma published_in_order_witness :
  exists w wr, net_nodes (test_net 7) !! 0%nat = Some w /\ map_find 100 (p_writers (w_self w)) = Some wr /\
    w_seq wr = 1 /\ numbers (w_guid wr) (net_published (test_net 7)) = seqZ 1 1.
Proof.
  destruct (net_nodes (test_net 7) !! 0%nat) as [w|] eqn:E; [|by vm_compute in E].
  destruct (map_find 100 (p_writers (w_self w))) as [wr|] eqn:Er.
  - exists w, wr. split; [done|]. split; [done|].
    assert (Es : w_seq wr = 1) by (vm_compute in E; injection E as <-; vm_compute in Er; by injection Er as <-).
    split; [done|]. rewrite <- Es at 2.
    apply (published_in_order (test_net 7) w 100 wr); [apply test_net_reachable|by eapply list_elem_of_lookup_2|done].
  - exfalso. vm_compute in E. injection E as <-. by vm_compute in Er.
Defined.

Lemma network_typed_witness :
  exists w w', net_nodes (test_net 7) !! 1%nat = Some w /\
    run_op (Receive 6 (default [] (snd <$> (w0 ← net_nodes (test_net 7) !! 0%nat; sent_by w0 !! 5%nat)))) w = Done (tt, w') /\
    part_ok (w_self w').
Proof.
  destruct (net_nodes (test_net 7) !! 1%nat) as [w|] eqn:E; [|by vm_compute in E].
  destruct (net_nodes (test_net 7) !! 0%nat) as [w0|] eqn:E0; [|by vm_compute in E0].
  destruct (sent_by w0 !! 5%nat) as [pf|] eqn:Ef.
  - destruct (network_typed (test_net 7) (test_net_reachable 7)) as (_ & _ & H).
    destruct (H pf.2 1%nat w 6) as (w' & Er & Hok & _);
      [by apply (sent_in_flight _ w0); [exact (list_elem_of_lookup_2 _ _ _ E0)|exact (list_elem_of_lookup_2 _ _ _ Ef)]|done|].
    exists w, w'. split; [done|]. split; [|done]. simpl. rewrite Ef. exact Er.
  - exfalso. vm_compute in E0. injection E0 as <-. by vm_compute in Ef.
Defined.
End BusSpec.
