(* ===== verification/PoolNet.v ===== *)
(** * A network of participants whose calls overlap

    Every participant is a pool of calls in flight; the network carries what they hand to
    their transports as in [Network].  One step starts a call, lets one thread of one
    participant do its next act, or changes a backend.  Such a network, too, implements the
    bus of [Bus].  Where a lock is free a call can run by itself ([calm_call]): that is how
    [Convergence] and [Repair] find their schedules. *)

From stdpp Require Import relations.
From S2P Require Import Prelude Memory StdMap Guid Qos Frame Fragment Reassembler ReaderImpl WriterImpl Reliability Discovery Wire Participant ParticipantFacts Matching Session Locked Interleave ThreadSafe Graph DataPath Publish Channel Integrity Network Truthful Bus.

Section pool_net.
Context {T : Type} `{LoggedTransport T}.
Implicit Types (w : World T) (P : Pool T) (n : Net (T := T)).

Record PoolNet := mkPoolNet { pn_pools : list (Pool T); pn_published : list Sample }.
Implicit Types N : PoolNet.

(** The participants as they are between two acts. *)
Definition net_of N : Net := mkNet (pool_world <$> pn_pools N) (pn_published N).

(** What may be called: a frame comes from the network or from a stranger. *)
Definition call_allowed n (op : Op) : Prop :=
  match op with
  | Receive _ f => in_flight n f \/ foreign n f
  | _ => op_typed op
  end.

(** A backend at work in its own threads: the transports change, but neither the tables of
    the participant nor what it has handed over. *)
Record backend_moved w w' : Prop := {
  bm_self : w_self w' = w_self w;
  bm_sys : w_sys w' = w_sys w;
  bm_logs : sent_log <$> w_transports w' = sent_log <$> w_transports w;
}.

Inductive pool_step N : PoolNet -> Prop :=
| ps_call i P op :
    pn_pools N !! i = Some P -> may_spawn op P -> call_allowed (net_of N) op ->
    pool_step N (mkPoolNet (<[i := spawn op P]> (pn_pools N)) (pn_published N))
| ps_move i P j op p P' :
    pn_pools N !! i = Some P -> in_range (w_self (pool_world P)) ->
    (op = AnnounceTick -> p_announce_seq (w_self (pool_world P)) + 1 < 2 ^ 64) ->
    pool_threads P !! j = Some (op, p) -> advance j P = Some (Done P') ->
    pool_step N (mkPoolNet (<[i := P']> (pn_pools N))
      (pn_published N ++ published_step op (pool_world P) (pool_world P')))
| ps_backend i P w' :
    pn_pools N !! i = Some P -> backend_moved (pool_world P) w' ->
    pool_step N (mkPoolNet (<[i := mkPool w' (pool_owner P) (pool_threads P)]> (pn_pools N)) (pn_published N)).

Inductive pool_net_reachable : PoolNet -> Prop :=
| pool_net_start ws :
    Forall node_start ws -> NoDup ((fun w => p_prefix (w_self w)) <$> ws) ->
    pool_net_reachable (mkPoolNet ((fun w => mkPool w None []) <$> ws) [])
| pool_net_next N N' : pool_net_reachable N -> pool_step N N' -> pool_net_reachable N'.

(** ** What one act publishes *)

Lemma published_step_same op w : published_step op w w = [].
Proof.
  destruct op; simpl; try done. destruct (map_find _ _); [|done]. case_if; [lia|done].
Qed.

(** The sample of an act is the next of a writer. *)
Lemma published_step_next op w w' :
  Forall (next_of_writer w) (published_step op w w') /\ (length (published_step op w w') <= 1)%nat.
Proof.
  destruct op; simpl; try (split; [constructor|simpl; lia]).
  destruct (map_find ptr (p_writers (w_self w))) as [wr|] eqn:E; [|split; [constructor|simpl; lia]].
  destruct (map_find ptr (p_writers (w_self w'))); [|split; [constructor|simpl; lia]].
  case_if; [|split; [constructor|simpl; lia]]. split; [|simpl; lia]. constructor; [|constructor].
  exists (ptr, wr). split_and!; [by apply map_find_In|done|simpl; lia].
Qed.

(** An id that is no entity's gets no number. *)
Lemma numbers_stranger g w out :
  Forall (next_of_writer w) out -> g ∉ entity_guids (w_self w) -> numbers g out = [].
Proof.
  intros Hall Hg. unfold numbers. destruct (filter _ _) as [|x l] eqn:E; [done|]. exfalso.
  assert (Hx : x ∈ filter (fun x : Sample => x.1.1 = g) out) by (rewrite E; left).
  apply list_elem_of_filter in Hx as [<- Hx]. rewrite Forall_forall in Hall. destruct (Hall x Hx) as (kv & Hkv & Eg & _).
  apply Hg. rewrite Eg. apply elem_of_app. left. by apply (list_elem_of_fmap_2 (fun kv => w_guid kv.2)).
Qed.

(** The numbers of one writer in what an act publishes. *)
Lemma numbers_step gh op w w' ptr wr wr' :
  session_ok w -> map_find ptr (p_writers (w_self w)) = Some wr -> map_find ptr (p_writers (w_self w')) = Some wr' ->
  (forall ptr' x, map_find ptr' (p_writers (w_self w')) = Some x -> writer_after op gh (w_self w) ptr' x) ->
  w_seq wr <= w_seq wr' /\
  numbers (w_guid wr) (published_step op w w') = seqZ (w_seq wr + 1) (w_seq wr' - w_seq wr).
Proof.
  intros [[Hp _] Hg] Hf Hf' Hafter.
  assert (Hcase : w_seq wr' = w_seq wr \/ publishes op ptr = true /\ w_seq wr' = w_seq wr + 1).
  { destruct (Hafter _ _ Hf') as [(wr0 & Hf0 & _ & Hs)|(Hf0 & _)]; [|congruence]. by replace wr0 with wr in Hs by congruence. }
  assert (Hnone : forall x, x ∈ published_step op w w' -> x.1.1 = w_guid wr ->
    publishes op ptr = true /\ w_seq wr' = w_seq wr + 1 /\ published_step op w w' = [x] /\ x.1.2 = w_seq wr + 1).
  { destruct op; simpl; try (by intros x ?%not_elem_of_nil). destruct (map_find ptr0 (p_writers (w_self w))) as [wr1|] eqn:E1; [|by intros x ?%not_elem_of_nil].
    destruct (map_find ptr0 (p_writers (w_self w'))) as [wr2|] eqn:E2; [|by intros x ?%not_elem_of_nil].
    case_if; [|by intros x ?%not_elem_of_nil]. intros x ->%list_elem_of_singleton. simpl. intros Eg. zbool.
    pose proof (go_nodup _ Hg) as Hnd. apply NoDup_app in Hnd as (Hnd & _).
    pose proof (fmap_NoDup_inj (fun kv => w_guid kv.2) _ _ _ Hnd (map_find_In _ _ _ E1) (map_find_In _ _ _ Hf) Eg) as Epair.
    injection Epair as -> ->. replace wr' with wr2 by congruence. split_and!; [lia|done|done|done]. }
  destruct Hcase as [Es|[Hpub Es]].
  - split; [lia|]. rewrite Es, Z.sub_diag, seqZ_nil by lia. unfold numbers.
    destruct (filter _ _) as [|x l] eqn:E; [done|]. exfalso.
    assert (Hx : x ∈ filter (fun x : Sample => x.1.1 = w_guid wr) (published_step op w w')) by (rewrite E; left).
    apply list_elem_of_filter in Hx as [Ex Hx]. destruct (Hnone x Hx Ex) as (_ & ? & _). lia.
  - split; [lia|]. replace (w_seq wr' - w_seq wr) with 1 by lia. rewrite seqZ_cons by lia. rewrite seqZ_nil by lia.
    assert (Eout : published_step op w w' = [(w_guid wr, w_seq wr', match op with Write _ d l => default [] (written d l) | _ => [] end)]).
    { destruct op; try done. simpl in Hpub. zbool. subst ptr0. simpl. rewrite Hf, Hf', Es, Z.eqb_refl. done. }
    rewrite Eout. unfold numbers. rewrite filter_cons, decide_True by done. simpl. by rewrite Es.
Qed.

(** ** The invariant *)

Definition knowledge n : Knowledge := mkKnow (net_published n) (announced n).

(** A call in flight is truthful, and knows the writer it publishes on. *)
Definition thread_ok n P (t : Op * prog T unit) : Prop :=
  exists g, truthful (ours n) t.1 g (knowledge n) t.2 (fun _ _ => True) /\
    (finished t.2 = false -> writer_named t.1 g (pool_world P)).

(** Nothing was published under an id that a call holds and has not used yet. *)
Definition unheld n P (gs : list Ghost) : Prop :=
  forall k t gh g, pool_threads P !! k = Some t -> gs !! k = Some gh -> finished t.2 = false ->
    gh_guid gh = Some g -> numbers g (net_published n) = [].

Record pool_ok n P (gs : list Ghost) : Prop := {
  pk_inv : pool_inv false P gs;
  pk_unheld : unheld n P gs;
  pk_threads k t : pool_threads P !! k = Some t -> thread_ok n P t;
}.

Record pool_net_ok N : Prop := {
  pn_net : net_ok (net_of N);
  pn_ok i P : pn_pools N !! i = Some P -> exists gs, pool_ok (net_of N) P gs;
}.

Lemma net_of_lookup N i P : pn_pools N !! i = Some P -> net_nodes (net_of N) !! i = Some (pool_world P).
Proof. intros Hi. simpl. by rewrite list_lookup_fmap, Hi. Qed.

Lemma net_of_node N i P : pn_pools N !! i = Some P -> pool_world P ∈ net_nodes (net_of N).
Proof. intros Hi. by eapply list_elem_of_lookup_2, net_of_lookup. Qed.

Lemma in_flight_owns P gs k t gh :
  pool_inv false P gs -> pool_threads P !! k = Some t -> gs !! k = Some gh -> finished t.2 = false ->
  owns t.1 gh (w_self (pool_world P)).
Proof. destruct t as [op p]. intros Hinv Ht Hg Hf. destruct (pi_wp _ _ _ Hinv _ _ _ _ Ht Hg) as [_ Ho]. by apply Ho. Qed.

(** *** A call starts *)

Lemma spawn_net_of N i P op :
  pn_pools N !! i = Some P -> net_of (mkPoolNet (<[i := spawn op P]> (pn_pools N)) (pn_published N)) = net_of N.
Proof.
  intros Hi. unfold net_of. simpl. f_equal. rewrite list_fmap_insert. apply list_insert_id.
  by rewrite list_lookup_fmap, Hi.
Qed.

(** What is allowed is lawful. *)
Lemma allowed_lawful n op w :
  net_ok n -> op_pre op (w_self w) -> call_allowed n op -> op_lawful (ours n) (knowledge n) op.
Proof.
  intros Hn Hpre Hal. destruct op; try done; simpl in *.
  - destruct Hal; [by apply in_flight_true|by apply foreign_true].
  - destruct Hpre as (wr & _ & _ & Hd). by destruct data.
Qed.

Lemma spawn_named op w : op_pre op (w_self w) -> exists g, writer_named op g w.
Proof.
  intros Hpre. destruct op; try (exists zero_guid; by intros ptr').
  destruct Hpre as (wr & Hf & _). exists (w_guid wr). intros ptr' E. simpl in E. zbool. subst. by exists wr.
Qed.

Lemma spawn_thread_ok n P op :
  net_ok n -> op_pre op (w_self (pool_world P)) -> call_allowed n op -> thread_ok n P (op, op_prog op).
Proof.
  intros Hn Hpre Hal. destruct (spawn_named op (pool_world P) Hpre) as [g Hg]. exists g. split; [|done].
  by eapply tells_op, allowed_lawful.
Qed.

Lemma spawn_pool_ok n P gs op :
  net_ok n -> pool_ok n P gs -> may_spawn op P -> call_allowed n op -> pool_ok n (spawn op P) (gs ++ [start_ghost]).
Proof.
  intros Hn [Hinv Hun Hth] Hsp Hal. pose proof (pi_length _ _ _ Hinv) as Hlen. split.
  - apply spawn_inv; [|done|done]. intros op' w'. apply op_wp.
  - intros k t gh g Ht Hg Hf Egh. simpl in Ht. rewrite lookup_app_Some in Ht. rewrite lookup_app_Some in Hg.
    destruct Hg as [Hg|[Hle Hg]]; [|apply list_lookup_singleton_Some in Hg as [_ <-]; done].
    destruct Ht as [Ht|[Hle Ht]]; [by eapply Hun|]. apply lookup_lt_Some in Hg. lia.
  - intros k t Ht. simpl in Ht. rewrite lookup_app_Some in Ht. destruct Ht as [Ht|[_ Ht]]; [by eapply Hth|].
    apply list_lookup_singleton_Some in Ht as [_ <-]. apply spawn_thread_ok; [done|apply Hsp|done].
Qed.

Section after.
Context N (Hok : pool_net_ok N) (i : nat) P P' (out : list Sample).
Context (Hi : pn_pools N !! i = Some P) (Hmv : net_move (net_of N) (pool_world P) (pool_world P') out).

Let n : Net := net_of N.
Let w := pool_world P.
Let w' := pool_world P'.
Let N' : PoolNet := mkPoolNet (<[i := P']> (pn_pools N)) (pn_published N ++ out).
Let Hn : net_ok n := pn_net _ Hok.

Lemma after_net_of : net_of N' = mkNet (<[i := w']> (net_nodes n)) (net_published n ++ out).
Proof. unfold net_of. simpl. by rewrite list_fmap_insert. Qed.

Lemma after_net_ok : net_ok (net_of N').
Proof. rewrite after_net_of. apply (step_ok n Hn i w w'); [by apply net_of_lookup|done]. Qed.

Lemma after_ours : ours (net_of N') = ours n.
Proof.
  rewrite after_net_of. unfold ours. by rewrite (step_prefixes n i w w' out (net_of_lookup N i P Hi) Hmv).
Qed.

(** What was known, and what the step taught, is known. *)
Lemma after_learned : knows (mkKnow (net_published n ++ out) (announced_by n w')) (knowledge (net_of N')).
Proof.
  rewrite after_net_of. split; [done|]. intros g k Hk.
  exact (step_announced n Hn i w w' out (net_of_lookup N i P Hi) Hmv g k Hk).
Qed.

Lemma after_knows : knows (knowledge n) (knowledge (net_of N')).
Proof.
  transitivity (mkKnow (net_published n ++ out) (announced_by n w')); [|apply after_learned]. split; [|by left].
  intros x Hx. apply elem_of_app. by left.
Qed.

Lemma after_thread_ok P0 P1 t :
  thread_ok n P0 t -> (forall g, finished t.2 = false -> writer_named t.1 g (pool_world P0) -> writer_named t.1 g (pool_world P1)) ->
  thread_ok (net_of N') P1 t.
Proof.
  intros (g & Htr & Hnm) Hlater. exists g. split; [|auto]. rewrite after_ours.
  eapply truthful_grow; [done|apply after_knows|exact Htr].
Qed.

(** Nothing is published under an id that is not yet an entity's. *)
Lemma after_numbers g : g ∉ entity_guids (w_self w) -> numbers g (net_published n) = [] ->
  numbers g (net_published n ++ out) = [].
Proof. intros Hg E. rewrite numbers_app, E. apply (numbers_stranger g w); [apply Hmv|done]. Qed.

(** The participants that did not move learned. *)
Lemma other_pool_ok i0 P0 gs0 :
  i0 <> i -> pn_pools N !! i0 = Some P0 -> pool_ok n P0 gs0 -> pool_ok (net_of N') P0 gs0.
Proof.
  intros Hne Hi0 [Hinv0 Hun0 Hth0]. split; [done| |].
  - rewrite after_net_of. intros k t ghk g Ht Hg Hf E. cbn [net_published]. apply after_numbers.
    + pose proof (no_session _ Hn w (net_of_node N i P Hi)) as [[Hp _] Hgs].
      destruct (in_flight_owns _ _ _ _ _ Hinv0 Ht Hg Hf) as [Hog _]. destruct (Hog g E) as [_ (kd & m & _ & _ & Eg)].
      intros Hin%(guids_issued _ _ Hgs). destruct Hin as (kd' & m' & _ & _ & Eg').
      pose proof (pi_session _ _ _ Hinv0) as [[Hp0 _] _].
      apply Hne. eapply (NoDup_lookup (net_prefixes n)); [apply Hn|..]; unfold net_prefixes, n;
        rewrite list_lookup_fmap, ?(net_of_lookup N i0 P0 Hi0), ?(net_of_lookup N i P Hi); [done|]. simpl. f_equal. fold w.
      rewrite <- (guid_prefix_make _ kd' m' (proj1 (po_prefix _ Hp))), <- Eg', Eg, guid_prefix_make; [done|apply Hp0].
    + by eapply Hun0.
  - intros k t Ht. eapply after_thread_ok; [by apply (Hth0 _ _ Ht)|]. by intros g _.
Qed.

(** The whole network, once the participant that moved is seen to. *)
Lemma after_ok gs' : pool_ok (net_of N') P' gs' -> pool_net_ok N'.
Proof.
  intros Hp. split; [apply after_net_ok|]. intros i0 P0. simpl.
  intros [(-> & <- & _)|[Hne Hi0]]%list_lookup_insert_Some; [by exists gs'|].
  destruct (pn_ok _ Hok i0 P0 Hi0) as [gs0 Hp0]. exists gs0. by apply (other_pool_ok i0).
Qed.
End after.

(** *** A backend moves *)

Section backend.
Context N (Hok : pool_net_ok N) (i : nat) P (gs : list Ghost) w'.
Context (Hi : pn_pools N !! i = Some P) (Hpok : pool_ok (net_of N) P gs) (Hbm : backend_moved (pool_world P) w').

Let P' : Pool T := mkPool w' (pool_owner P) (pool_threads P).

Lemma backend_session : session_ok w'.
Proof. eapply session_same_self; [apply (pk_inv _ _ _ Hpok)|apply Hbm|apply Hbm]. Qed.

Lemma backend_net_move : net_move (net_of N) (pool_world P) w' [].
Proof.
  destruct Hbm as [Es Ec El]. pose proof (pn_net _ Hok) as Hn. pose proof (net_of_node N i P Hi) as Hw.
  assert (Hpub : published_in (net_published (net_of N) ++ []) = published (net_of N)) by (by rewrite app_nil_r).
  split; try (by rewrite Es); [apply backend_session|constructor|simpl; lia| | |].
  - intros kv. rewrite Es. intros Hkv. left. exists kv. split_and!; [done..|lia|]. by rewrite Z.sub_diag, seqZ_nil by lia.
  - rewrite Hpub. eapply world_true_mono; [done|by left|]. destruct (no_true _ Hn _ Hw) as (Hs & Ht & Hc).
    split_and!; [by rewrite Es| |unfold clocks_ok; by rewrite Ec]. intros t pf Hin Hpf.
    apply (list_elem_of_fmap_2 sent_log) in Hin. rewrite El in Hin. apply list_elem_of_fmap in Hin as (t0 & Et & Hin).
    rewrite Et in Hpf. by apply (Ht t0).
  - intros kv. rewrite Es. intros Hkv. left. exists kv. by split_and!.
Qed.

Lemma backend_pool_inv : pool_inv false P' gs.
Proof.
  destruct (pk_inv _ _ _ Hpok) as [Hs Hl Ho Hwp Hc Hg Hcount]. destruct Hbm as [Es _ _].
  split; try done; [apply backend_session|]. intros k op p gh Ht Hgh. cbn [pool_world pool_threads P'] in *.
  destruct (Hwp _ _ _ _ Ht Hgh) as [Hw Hown]. rewrite Es. split; [|done].
  destruct (finished p) eqn:Hf; [by destruct p|]. eapply wp_rely; [apply returns_stable|exact Hw|].
  specialize (Hown eq_refl). split; rewrite ?Es; try done. apply backend_session.
Qed.

Lemma backend_ok : pool_net_ok (mkPoolNet (<[i := P']> (pn_pools N)) (pn_published N)).
Proof.
  rewrite <- (app_nil_r (pn_published N)).
  apply (after_ok N Hok i P P' [] Hi backend_net_move gs). split; [apply backend_pool_inv| |].
  - rewrite (after_net_of N i P' []). simpl. rewrite app_nil_r. apply (pk_unheld _ _ _ Hpok).
  - intros k t Ht. apply (after_thread_ok N Hok i P P' [] Hi backend_net_move P); [by apply (pk_threads _ _ _ Hpok k)|].
    intros g _ Hnm ptr Hp. simpl. rewrite (bm_self _ _ Hbm). by apply Hnm.
Qed.
End backend.

(** *** A thread moves *)

(** An act of another thread leaves the writer where it was. *)
Lemma named_kept op_i held gh gh' op g w w' :
  guar op_i held gh gh' w w' -> (forall ptr, publishes op ptr = true -> kills_writer op_i ptr = false) ->
  writer_named op g w -> writer_named op g w'.
Proof.
  intros Hg Hk Hn ptr Hp. destruct (Hn ptr Hp) as (wr & Hf & Eg).
  destruct (gr_writers _ _ _ _ _ _ Hg ptr (Hk _ Hp)) as [wr' Hf']; [by exists wr|]. exists wr'. split; [done|].
  destruct (gr_numbers _ _ _ _ _ _ Hg _ _ Hf') as [(wr0 & Hf0 & E & _)|(Hf0 & _)]; congruence.
Qed.

Lemma publishes_own_writer op ptr : publishes op ptr = true -> forall ptr', kills_writer op ptr' = false.
Proof. by destruct op. Qed.

(** Calls that create nothing and publish nothing. *)
Definition counts_nothing (op : Op) : bool :=
  match op with CreateWriter _ _ _ _ | CreateReader _ _ _ _ _ | Write _ _ _ => false | _ => true end.

Lemma counts_nothing_step op w w' : counts_nothing op = true -> published_step op w w' = [].
Proof. by destruct op. Qed.

Section move.
Context N (Hok : pool_net_ok N) (i : nat) P (gs : list Ghost) (j : nat) P' (op : Op) (p p' : prog T unit) (gh gh' : Ghost).
Context (Hi : pn_pools N !! i = Some P) (Hpok : pool_ok (net_of N) P gs).
Context (Hrange : in_range (w_self (pool_world P))) (Hroom : op = AnnounceTick -> p_announce_seq (w_self (pool_world P)) + 1 < 2 ^ 64).
Context (Hmoved : moved gs j P P' op p p' gh gh') (Hinv' : pool_inv false P' (<[j := gh']> gs)).

Let n : Net := net_of N.
Let w := pool_world P.
Let w' := pool_world P'.
Let out := published_step op w w'.
Let N' : PoolNet := mkPoolNet (<[i := P']> (pn_pools N)) (pn_published N ++ out).
Let Hn : net_ok n := pn_net _ Hok.
Let Hw : w ∈ net_nodes n := net_of_node N i P Hi.
Let Hguar : guar op (holds P j) gh gh' w w' := mv_guar _ _ _ _ _ _ _ _ _ Hmoved.
Let Hunfinished : finished p = false := moved_unfinished _ _ _ _ _ _ _ _ _ Hmoved.

Lemma move_unique : NoDup (net_published n ++ out).*1.
Proof. apply (out_unique n w); [done|done|apply published_step_next..]. Qed.

Lemma move_situation g : writer_named op g w -> situation (ours n) op g (knowledge n) w.
Proof. intros Hg. split; [by apply (no_session _ Hn)|done|done|by apply (no_true _ Hn)|done]. Qed.

(** The act is truthful, and so is what remains of the call. *)
Lemma move_true :
  let K := learned op w w' (knowledge n) in
  act_true (ours n) op K w w' /\
  exists g, truthful (ours n) op g K p' (fun _ _ => True) /\ writer_named op g w.
Proof.
  destruct (pk_threads _ _ _ Hpok _ _ (mv_thread _ _ _ _ _ _ _ _ _ Hmoved)) as (g & Htr & Hnm). simpl in Htr.
  specialize (Hnm Hunfinished). simpl in Hnm. pose proof (mv_act _ _ _ _ _ _ _ _ _ Hmoved) as Hact.
  assert (Hstay : w' = w -> act_true (ours n) op (learned op w w' (knowledge n)) w w').
  { intros E. split; [|by rewrite E|left; by rewrite E|].
    - rewrite E. eapply true_in_mono; [apply knows_learned|by apply (no_true _ Hn)].
    - intros kv Hkv. left. exists kv. rewrite E in Hkv. by split_and!. }
  assert (Hgrow : truthful (ours n) op g (knowledge n) p' (fun _ _ => True) ->
    truthful (ours n) op g (learned op w w' (knowledge n)) p' (fun _ _ => True)).
  { apply truthful_grow; [done|apply knows_learned]. }
  destruct p as [a|B m k|k|k]; [done|..]; simpl in Hact.
  - destruct Hact as (b & E & Ep). fold w w' in E.
    destruct (Htr (knowledge n) w b w' ltac:(done) (move_situation g Hnm) E move_unique) as [Ha Hk]. split; [done|].
    exists g. by rewrite Ep.
  - destruct Hact as [-> Ew]. split; [by apply Hstay|]. exists g. split; [by apply Hgrow|done].
  - destruct Hact as [-> Ew]. split; [by apply Hstay|]. exists g. split; [by apply Hgrow|done].
Qed.

Lemma move_owned g : gh_guid gh = Some g ->
  (g ∉ entity_guids (w_self w)) /\ numbers g (net_published n) = [].
Proof.
  intros E. pose proof (mv_thread _ _ _ _ _ _ _ _ _ Hmoved) as Ht. pose proof (mv_ghost _ _ _ _ _ _ _ _ _ Hmoved) as Hg.
  split; [|by eapply (pk_unheld _ _ _ Hpok); [exact Ht|exact Hg|..]].
  by apply (in_flight_owns _ _ _ _ _ (pk_inv _ _ _ Hpok) Ht Hg Hunfinished).
Qed.

Lemma move_net_move : net_move n w w' out.
Proof.
  destruct move_true as [[Hwt Egd Has Hrd] _]. pose proof Hguar as Hg. split; try done.
  - apply Hg.
  - apply Hg.
  - apply Hg.
  - destruct Has as [E|[_ E]]; lia.
  - apply published_step_next.
  - apply published_step_next.
  - intros kv Hkv. pose proof (no_session _ Hn w Hw) as Hs. pose proof (gr_session _ _ _ _ _ _ Hg) as [[Hp' _] _].
    pose proof (entry_find _ _ (po_writers_map _ Hp') Hkv) as Hf'.
    destruct (gr_numbers _ _ _ _ _ _ Hg _ _ Hf') as [(wr & Hf & Eg & _)|(Hf & Eg & E0)].
    + left. exists (kv.1, wr). simpl.
      destruct (numbers_step gh op w w' kv.1 wr kv.2 Hs Hf Hf' (fun ptr x => gr_numbers _ _ _ _ _ _ Hg ptr x)) as [Hle Enum].
      split_and!; [by apply map_find_In|done|done|done].
    + right. split; [done|]. destruct (move_owned _ Eg) as [Hne E1]. rewrite numbers_app, E1.
      by apply (numbers_stranger _ w); [apply published_step_next|].
Qed.

(** The threads of the participant that moved. *)
Lemma move_threads k t : pool_threads P' !! k = Some t -> thread_ok (net_of N') P' t.
Proof.
  rewrite (mv_threads _ _ _ _ _ _ _ _ _ Hmoved). intros [(<- & <- & _)|[Hjk Ht]]%list_lookup_insert_Some.
  - destruct move_true as [_ (g & Htr & Hnm)]. exists g. split.
    + rewrite (after_ours N i P P' out Hi move_net_move : ours (net_of N') = ours n).
      eapply truthful_grow; [done|exact (after_learned N Hok i P P' out Hi move_net_move)|exact Htr].
    + intros _. eapply named_kept; [exact Hguar| |exact Hnm]. intros ptr Hp. by eapply publishes_own_writer.
  - apply (after_thread_ok N Hok i P P' out Hi move_net_move P); [by apply (pk_threads _ _ _ Hpok _ _ Ht)|]. intros g Hf.
    apply (named_kept op (holds P j) gh gh'); [exact Hguar|]. intros ptr Hp.
    pose proof (pi_compatible _ _ _ (pk_inv _ _ _ Hpok) j k _ _ Hjk (mv_thread _ _ _ _ _ _ _ _ _ Hmoved) Ht Hunfinished Hf ptr)
      as (_ & Hk & _). simpl in Hk. destruct (kills_writer op ptr); [|done].
    apply publishes_uses in Hp. by rewrite Hk in Hp.
Qed.

Lemma move_unheld : unheld (net_of N') P' (<[j := gh']> gs).
Proof.
  rewrite (after_net_of N i P' out : net_of N' = mkNet (<[i := w']> (net_nodes n)) (net_published n ++ out)). intros k t ghk g Ht Hg Hf E. rewrite (mv_threads _ _ _ _ _ _ _ _ _ Hmoved) in Ht.
  cbn [net_published]. rewrite list_lookup_insert_Some in Ht. rewrite list_lookup_insert_Some in Hg.
  destruct Ht as [(<- & <- & _)|[Hjk Ht]].
  - destruct Hg as [(_ & <- & _)|[? _]]; [|done].
    destruct (gr_new_guid _ _ _ _ _ _ Hguar g E) as [E'|(kind & Hk & -> & _)].
    + destruct (move_owned g E'). by apply (after_numbers N P P' out move_net_move).
    + pose proof (no_session _ Hn w Hw) as [[Hp _] Hgs]. pose proof (go_serial _ Hgs) as Hser.
      pose proof (proj1 Hrange) as Hlt. fold w in Hlt. apply (after_numbers N P P' out move_net_move).
      * intros Hin%(guids_issued _ _ Hgs). revert Hin. by apply next_not_issued; [apply Hp|done|lia|].
      * apply new_unpublished; [done|done|lia].
  - destruct Hg as [(Hkj & _ & _)|[_ Hg]]; [done|]. apply (after_numbers N P P' out move_net_move).
    + by apply (in_flight_owns _ _ _ _ _ (pk_inv _ _ _ Hpok) Ht Hg Hf).
    + by eapply (pk_unheld _ _ _ Hpok).
Qed.

Lemma move_pool_ok : pool_ok (net_of N') P' (<[j := gh']> gs).
Proof. split; [done|apply move_unheld|apply move_threads]. Qed.

Lemma move_ok : pool_net_ok N'.
Proof. exact (after_ok N Hok i P P' out Hi move_net_move _ move_pool_ok). Qed.

(** What the act tells, when the rest of the call is taken for another kind of call. *)
Lemma move_as op2 g :
  counts_nothing op = true -> counts_nothing op2 = true -> op2 <> AnnounceTick ->
  truthful (ours n) op2 g (knowledge n) p (fun _ _ => True) ->
  truthful (ours (net_of N')) op2 g (knowledge (net_of N')) p' (fun _ _ => True) /\
  p_announce_seq (w_self w') = p_announce_seq (w_self w).
Proof.
  intros Hc Hc2 Hne Htr. pose proof (mv_act _ _ _ _ _ _ _ _ _ Hmoved) as Hact. fold w w' in Hact.
  rewrite (after_ours N i P P' out Hi move_net_move : ours (net_of N') = ours n).
  assert (Hlater : forall K, K = knowledge n \/ K = learned op2 w w' (knowledge n) -> knows K (knowledge (net_of N'))).
  { intros K [-> | ->]; [by apply (after_knows N Hok i P P' out Hi move_net_move)|].
    etrans; [|apply (after_learned N Hok i P P' out Hi move_net_move)]. split; [|by intros].
    unfold learned. cbn [kn_samples]. rewrite (counts_nothing_step op2) by done. rewrite app_nil_r. intros x Hx. apply elem_of_app. by left. }
  assert (Hgrow : forall K (q : prog T unit), K = knowledge n \/ K = learned op2 w w' (knowledge n) ->
    truthful (ours n) op2 g K q (fun _ _ => True) -> truthful (ours n) op2 g (knowledge (net_of N')) q (fun _ _ => True)).
  { intros K q HK. by apply truthful_grow; [|apply Hlater]. }
  destruct p as [a|B m k|k|k]; [done|..]; simpl in Hact.
  - destruct Hact as (b & E & ->). destruct (Htr (knowledge n) w b w' ltac:(done)) as [Ha Hk]; [|exact E| |].
    + split; [by apply (no_session _ Hn)|done|done|by apply (no_true _ Hn)|]. intros ptr Hp. by destruct op2.
    + unfold learned. cbn [kn_samples]. rewrite (counts_nothing_step op2) by done. rewrite app_nil_r. apply (no_unique _ Hn).
    + split; [by apply (Hgrow _ _ (or_intror eq_refl))|]. by destruct (at_announced _ _ _ _ _ Ha) as [?|[? _]].
  - destruct Hact as [-> Ew]. split; [by apply (Hgrow (knowledge n) _ (or_introl eq_refl))|by rewrite Ew].
  - destruct Hact as [-> Ew]. split; [by apply (Hgrow (knowledge n) _ (or_introl eq_refl))|by rewrite Ew].
Qed.

Lemma move_counts : counted_by op w w'.
Proof. destruct move_true as [[_ _ Has _] _]. exact Has. Qed.

Lemma move_in_range : counts_nothing op = true -> in_range (w_self w').
Proof.
  intros Hc. pose proof Hguar as Hg. split.
  - destruct (gr_serial_kept _ _ _ _ _ _ Hg) as [-> |[ptr Hm]]; [apply Hrange|by destruct op].
  - intros ptr wr Hf. destruct (gr_numbers _ _ _ _ _ _ Hg _ _ Hf) as [(wr0 & Hf0 & _ & [-> |[Hp _]])|(_ & _ & ->)]; [|by destruct op|done].
    by apply (proj2 Hrange ptr).
Qed.
End move.

Lemma pool_step_ok N N' : pool_net_ok N -> pool_step N N' -> pool_net_ok N'.
Proof.
  intros Hok [i P op Hi Hsp Hal|i P j op p P' Hi Hin Hroom Ht E|i P w' Hi Hbm].
  - pose proof (spawn_net_of N i P op Hi) as En. destruct (pn_ok _ Hok i P Hi) as [gs Hp]. split; rewrite En; [apply Hok|].
    intros i0 P0. simpl. intros [(-> & <- & _)|[_ Hi0]]%list_lookup_insert_Some; [|by apply (pn_ok _ Hok i0)].
    exists (gs ++ [start_ghost]). by apply spawn_pool_ok; [apply Hok|..].
  - destruct (pn_ok _ Hok i P Hi) as [gs Hp].
    destruct (advance_moved _ _ _ _ _ (pk_inv _ _ _ Hp) Hin E) as (P1 & op1 & p1 & p' & gh & gh' & [= <-] & Hm & Hinv').
    pose proof (mv_thread _ _ _ _ _ _ _ _ _ Hm) as Ht'. rewrite Ht in Ht'. injection Ht' as <- <-.
    specialize (Hinv' ltac:(done)). by eapply (move_ok N Hok i P gs j).
  - destruct (pn_ok _ Hok i P Hi) as [gs Hp]. by eapply backend_ok.
Qed.

(** *** A call that nobody disturbs *)

Section solo.
Context (k j : nat).

Definition put N P : PoolNet := mkPoolNet (<[k := P]> (pn_pools N)) (pn_published N).

(** Thread [j] of participant [k] is at [p] in a call that counts nothing. *)
Record solo_at N P (op : Op) (p : prog T unit) : Prop := {
  sa_net : pool_net_ok N;
  sa_pool : pn_pools N !! k = Some P;
  sa_thread : pool_threads P !! j = Some (op, p);
  sa_call : counts_nothing op = true;
  sa_range : in_range (w_self (pool_world P));
}.

Definition as_call (op2 : Op) N (p : prog T unit) : Prop :=
  exists g, truthful (ours (net_of N)) op2 g (knowledge (net_of N)) p (fun _ _ => True).
Abbreviation seq_of P := (p_announce_seq (w_self (pool_world P))).

Lemma solo_step N P P1 op p :
  solo_at N P op p -> (op = AnnounceTick -> seq_of P + 1 < 2 ^ 64) -> solo j P P1 ->
  exists p1, pool_step N (put N P1) /\ solo_at (put N P1) P1 op p1 /\ next_act (pool_world P) p p1 (pool_world P1) /\
    counted_by op (pool_world P) (pool_world P1) /\
    forall op2, counts_nothing op2 = true -> op2 <> AnnounceTick -> as_call op2 N p ->
      as_call op2 (put N P1) p1 /\ seq_of P1 = seq_of P.
Proof.
  intros [Hok Hi Ht Hc Hin] Hroom E. destruct (pn_ok _ Hok k P Hi) as [gs Hp].
  assert (Hpub : forall w w', pn_published N ++ published_step op w w' = pn_published N).
  { intros w w'. by rewrite counts_nothing_step, app_nil_r. }
  assert (Hs : pool_step N (put N P1)).
  { unfold put. rewrite <- (Hpub (pool_world P) (pool_world P1)). by eapply ps_move. }
  destruct (advance_moved _ _ _ _ _ (pk_inv _ _ _ Hp) Hin E) as (P2 & op1 & p0 & p1 & gh & gh' & [= <-] & Hm & Hinv').
  pose proof (mv_thread _ _ _ _ _ _ _ _ _ Hm) as Ht'. rewrite Ht in Ht'. injection Ht' as <- <-. specialize (Hinv' ltac:(done)).
  exists p1. split; [exact Hs|]. split; [|split; [|split]].
  - split; [by eapply pool_step_ok|..].
    + apply list_lookup_insert_eq. by eapply lookup_lt_Some.
    + rewrite (mv_threads _ _ _ _ _ _ _ _ _ Hm). apply list_lookup_insert_eq. by eapply lookup_lt_Some.
    + done.
    + by eapply (move_in_range N k P gs j P1).
  - apply (mv_act _ _ _ _ _ _ _ _ _ Hm).
  - by eapply (move_counts N Hok k P gs j P1).
  - intros op2 Hc2 Hne [g Hg].
    destruct (move_as N Hok k P gs j P1 op p p1 gh gh' Hi Hp Hin Hroom Hm op2 g Hc Hc2 Hne Hg) as [Htr Hseq].
    split; [|done]. exists g. rewrite Hpub in Htr. exact Htr.
Qed.

Lemma put_put N P1 P2 : put (put N P1) P2 = put N P2.
Proof. unfold put. cbn [pn_pools pn_published]. by rewrite list_insert_insert_eq. Qed.

Lemma solo_steps op2 P P' :
  rtc (solo j) P P' -> counts_nothing op2 = true -> op2 <> AnnounceTick ->
  forall N op p, solo_at N P op p -> (op = AnnounceTick -> seq_of P + 1 < 2 ^ 64) -> as_call op2 N p ->
  rtc pool_step N (put N P') /\ in_range (w_self (pool_world P')).
Proof.
  intros Hrun Hc2 Hne. induction Hrun as [P|P P1 P' H1 _ IH]; intros N op p Hat Hroom Has.
  - split; [|apply Hat]. unfold put. rewrite list_insert_id by apply Hat. by destruct N.
  - destruct (solo_step N P P1 op p Hat Hroom H1) as (p1 & Hs & Hat1 & _ & _ & Hother).
    destruct (Hother op2 Hc2 Hne Has) as [Has1 Hseq]. rewrite <- (put_put N P1 P').
    destruct (IH (put N P1) op p1) as [Hr Hin]; [done|by rewrite Hseq|done|]. split; [by eapply rtc_l|done].
Qed.

(** The announce turn counts in its first lock region. *)
Lemma solo_tick N P P' :
  rtc (solo j) P P' -> solo_at N P AnnounceTick announce_tick_prog -> seq_of P + 2 < 2 ^ 64 ->
  pool_threads P' !! j = Some (AnnounceTick, Ret tt) ->
  rtc pool_step N (put N P') /\ in_range (w_self (pool_world P')).
Proof.
  set (rest := _ ← broadcast_announce_prog; send_heartbeats_prog : prog T unit).
  set (count := _ ← modify (fun p => set_announce_seq p (u64 (p_announce_seq p + 1))); sweep_reassemblers_locked : act T unit).
  assert (Eprog : announce_tick_prog = Lock (Step count (fun _ => Unlock rest))) by reflexivity.
  intros Hrun Hat Hroom Hend. rewrite Eprog in Hat.
  assert (Hnext : forall N1 P1 p, solo_at N1 P1 AnnounceTick p -> finished p = false -> rtc (solo j) P1 P' ->
    exists P2, solo j P1 P2 /\ rtc (solo j) P2 P').
  { intros N1 P1 p Hat1 Hp [<-|(P2 & H2 & Hr)]%rtc_inv; [|by exists P2].
    pose proof (sa_thread _ _ _ _ Hat1) as Ht. rewrite Hend in Ht. by injection Ht as <-. }
  destruct (Hnext _ _ _ Hat eq_refl Hrun) as (P1 & H1 & Hrun1).
  destruct (solo_step N P P1 _ _ Hat ltac:(intros; lia) H1) as (p1 & Hs1 & Hat1 & [-> Ew1] & _ & _).
  destruct (Hnext _ _ _ Hat1 eq_refl Hrun1) as (P2 & H2 & Hrun2).
  destruct (solo_step _ P1 P2 _ _ Hat1 ltac:(rewrite Ew1; intros; lia) H2) as (p2 & Hs2 & Hat2 & (b & _ & ->) & Hc2 & _).
  assert (Hseq2 : seq_of P2 + 1 < 2 ^ 64) by (destruct Hc2 as [-> |[_ ->]]; rewrite Ew1; lia).
  destruct (Hnext _ _ _ Hat2 eq_refl Hrun2) as (P3 & H3 & Hrun3).
  destruct (solo_step _ P2 P3 _ _ Hat2 ltac:(done) H3) as (p3 & Hs3 & Hat3 & [-> Ew3] & _ & _).
  rewrite !put_put in *. destruct (solo_steps (PeerDown 0) P3 P' Hrun3 eq_refl ltac:(done) _ _ _ Hat3) as [Hr Hin].
  - rewrite Ew3. done.
  - exists zero_guid. eapply tells_bind; [apply tells_broadcast_announce|]. intros K u _ _. apply tells_send_heartbeats.
  - rewrite put_put in Hr. split; [|done]. eapply rtc_l; [exact Hs1|]. eapply rtc_l; [exact Hs2|]. by eapply rtc_l; [exact Hs3|].
Qed.
End solo.

Lemma pool_net_start_ok ws :
  Forall node_start ws -> NoDup ((fun w => p_prefix (w_self w)) <$> ws) ->
  pool_net_ok (mkPoolNet ((fun w => mkPool w None []) <$> ws) []).
Proof.
  intros Hall Hnd. assert (En : net_of (mkPoolNet ((fun w => mkPool w None []) <$> ws) []) = mkNet ws []).
  { unfold net_of. simpl. f_equal. rewrite <- list_fmap_compose. apply list_fmap_id. }
  split; rewrite En; [by apply start_ok|]. intros i P. simpl. intros Hi.
  apply list_lookup_fmap_Some in Hi as (w & -> & Hi). exists []. split; [|by intros k t gh g|by intros k t].
  rewrite Forall_forall in Hall. destruct (Hall w (list_elem_of_lookup_2 _ _ _ Hi)) as (prefix & ts & hook & sys & steady & -> & Hl & Hb & Hc & _).
  split; cbn [pool_world pool_threads pool_owner]; try done. by apply new_world_ok.
Qed.

Lemma pool_net_reachable_ok N : pool_net_reachable N -> pool_net_ok N.
Proof. induction 1; [by apply pool_net_start_ok|by eapply pool_step_ok]. Qed.

(** *** Calls that run by themselves

    A participant whose lock is free and which destroys no reader meanwhile can run a call
    without any other thread in between. *)

Record calm P : Prop := {
  cm_free : pool_owner P = None;
  cm_readers t ptr : t ∈ pool_threads P -> finished t.2 = false -> kills_reader t.1 ptr = false;
  cm_range : in_range (w_self (pool_world P));
}.

(** What is left of a participant when such a call has returned. *)
Definition after_call (op : Op) w' P : Pool T := mkPool w' None (pool_threads P ++ [(op, Ret tt)]).

Lemma net_of_put N k P w' P' :
  pn_pools N !! k = Some P -> pool_world P' = w' ->
  net_of (put k N P') = mkNet (<[k := w']> (net_nodes (net_of N))) (net_published (net_of N)).
Proof. intros Hk <-. unfold net_of, put. simpl. by rewrite list_fmap_insert. Qed.

Lemma put_same k N P P' : pn_pools N !! k = Some P -> pn_pools (put k N P') !! k = Some P'.
Proof. intros Hk. apply list_lookup_insert_eq. by eapply lookup_lt_Some. Qed.
Lemma put_other k k' N P' : k <> k' -> pn_pools (put k N P') !! k' = pn_pools N !! k'.
Proof. intros Hne. by apply list_lookup_insert_ne. Qed.

Lemma calm_after op w' P : calm P -> in_range (w_self w') -> calm (after_call op w' P).
Proof.
  intros [_ Hk _] Hin. split; [done| |done]. intros t ptr. simpl. rewrite elem_of_app, list_elem_of_singleton.
  intros [Ht| ->]; [by apply Hk|done].
Qed.

Lemma calm_spawn op P :
  calm P -> op_pre op (w_self (pool_world P)) ->
  match op with AnnounceTick | Receive _ _ => True | _ => False end -> may_spawn op P.
Proof.
  intros [_ Hk _] Hpre Hop. split; [done|]. intros t Ht Hf ptr. destruct op; try done; split_and!; try done.
  intros E. by rewrite (Hk t ptr Ht Hf) in E.
Qed.

(** An operation that runs by itself is a schedule of the network of overlapping calls. *)
Lemma calm_call N k P op w' :
  pool_net_ok N -> pn_pools N !! k = Some P -> calm P -> may_spawn op P -> call_allowed (net_of N) op ->
  counts_nothing op = true -> (op = AnnounceTick -> p_announce_seq (w_self (pool_world P)) + 2 < 2 ^ 64) ->
  run_op op (pool_world P) = Done (tt, w') ->
  rtc pool_step N (put k N (after_call op w' P)) /\ pool_net_ok (put k N (after_call op w' P)) /\
  calm (after_call op w' P).
Proof.
  intros Hok Hk Hcalm Hsp Hal Hc Hroom Hrun. set (P0 := spawn op P). set (j := length (pool_threads P)).
  assert (Hs : pool_step N (put k N P0)) by (by apply ps_call).
  assert (Hp : part_ok (w_self (pool_world P))).
  { destruct (pn_ok _ Hok k P Hk) as [gs Hp]. by destruct (pi_session _ _ _ (pk_inv _ _ _ Hp)) as [[? _] _]. }
  pose proof (undisturbed_solo op (pool_world P) w' (pool_threads P) Hp Hrun) as Hsolo.
  rewrite <- (cm_free _ Hcalm) in Hsolo at 1.
  replace (mkPool (pool_world P) (pool_owner P) (pool_threads P)) with P in Hsolo by (by destruct P).
  assert (Hend : pool_threads (after_call op w' P) !! j = Some (op, Ret tt)).
  { simpl. by rewrite lookup_app_r, Nat.sub_diag by done. }
  assert (Hat : solo_at k j (put k N P0) P0 op (op_prog op)).
  { split; [by eapply pool_step_ok|by eapply put_same| |done|apply Hcalm]. simpl. by rewrite lookup_app_r, Nat.sub_diag by done. }
  assert (Hr : rtc pool_step (put k N P0) (put k N (after_call op w' P)) /\ in_range (w_self w')).
  { rewrite <- (put_put k N P0 (after_call op w' P)).
    assert (Hop : op = AnnounceTick \/ op <> AnnounceTick) by (destruct op; (by left) || (by right)). destruct Hop as [->|Hne].
    - by apply (solo_tick k j _ P0 _ Hsolo Hat); [apply Hroom|].
    - apply (solo_steps k j op P0 _ Hsolo Hc Hne _ _ _ Hat); [done|].
      destruct (pn_ok _ (sa_net _ _ _ _ _ _ Hat) k P0 (sa_pool _ _ _ _ _ _ Hat)) as [gs Hgs].
      destruct (pk_threads _ _ _ Hgs j _ (sa_thread _ _ _ _ _ _ Hat)) as (g & Hg & _). by exists g. }
  destruct Hr as [Hr Hin]. assert (Hall : rtc pool_step N (put k N (after_call op w' P))) by (by eapply rtc_l).
  split; [done|]. split; [|by apply calm_after]. clear -Hok Hall. induction Hall as [|Na Nb Nc Hab _ IH]; [done|].
  apply IH. by eapply pool_step_ok.
Qed.

(** *** The bus *)

Lemma bus_step_refl b : bus_step b b.
Proof. split; [done|by left|]. intros i ptr. by destruct (bus_channel b i ptr). Qed.

End pool_net.

(** ** Running such a network *)

Section exec.
Context {T : Type} `{LoggedTransport T}.
Implicit Types (P : Pool T) (N : PoolNet (T := T)).

(** A call, the arrival of frame [k] of participant [j], or up to [k] acts of a thread. *)
Inductive PoolAct :=
| Call (i : nat) (op : Op)
| Arrive (i : nat) (peer : PeerId) (j k : nat)
| Go (i t k : nat).

(** Calls that create and destroy nothing may overlap. *)
Definition harmless (op : Op) : bool :=
  match op with CreateWriter _ _ _ _ | CreateReader _ _ _ _ _ | DestroyWriter _ | DestroyReader _ => false | _ => true end.

Lemma harmless_compatible op op' : harmless op = true -> harmless op' = true -> compatible op op'.
Proof. intros H1 H2 ptr. by destruct op, op'. Qed.

Definition may_spawn_b (op : Op) P : bool :=
  op_preb op (w_self (pool_world P)) &&
  forallb (fun t => finished t.2 || (harmless op && harmless t.1)) (pool_threads P).

Lemma may_spawn_check op P : may_spawn_b op P = true -> may_spawn op P.
Proof.
  unfold may_spawn_b. intros [Hpre Hall]%andb_prop. split; [by apply op_preb_sound|].
  rewrite forallb_forall in Hall. intros t Ht Hf. apply list_elem_of_In, Hall in Ht. rewrite Hf in Ht.
  apply andb_prop in Ht as [? ?]. by apply harmless_compatible.
Qed.

Definition pool_call N (i : nat) (op : Op) : option PoolNet :=
  P ← pn_pools N !! i;
  if may_spawn_b op P then Some (mkPoolNet (<[i := spawn op P]> (pn_pools N)) (pn_published N)) else None.

Definition pool_move N (i t : nat) : option PoolNet :=
  P ← pn_pools N !! i;
  x ← pool_threads P !! t;
  if in_range_b (w_self (pool_world P)) && (p_announce_seq (w_self (pool_world P)) + 1 <? 2 ^ 64) then
    match advance t P with
    | Some (Done P') => Some (mkPoolNet (<[i := P']> (pn_pools N))
        (pn_published N ++ published_step x.1 (pool_world P) (pool_world P')))
    | _ => None
    end
  else None.

(** As far as the thread gets. *)
Fixpoint pool_go N (i t k : nat) : PoolNet :=
  match k with
  | O => N
  | S k => match pool_move N i t with Some N' => pool_go N' i t k | None => N end
  end.

Definition pool_exec N (a : PoolAct) : option PoolNet :=
  match a with
  | Call i op =>
      P ← pn_pools N !! i;
      if match op with Receive _ _ => false | _ => op_allowedb op (w_self (pool_world P)) end then pool_call N i op else None
  | Arrive i peer j k => P ← pn_pools N !! j; pf ← sent_by (pool_world P) !! k; pool_call N i (Receive peer pf.2)
  | Go i t k => Some (pool_go N i t k)
  end.

Definition pool_run N (acts : list PoolAct) : option PoolNet := foldl (fun o a => N' ← o; pool_exec N' a) (Some N) acts.

Lemma pool_call_step N i op N' : call_allowed (net_of N) op -> pool_call N i op = Some N' -> pool_step N N'.
Proof.
  intros Hal. unfold pool_call. destruct (pn_pools N !! i) as [P|] eqn:Ei; [|done]. simpl.
  destruct (may_spawn_b op P) eqn:Esp; [|done]. intros [= <-]. apply ps_call; [done|by apply may_spawn_check|done].
Qed.

Lemma pool_move_step N i t N' : pool_move N i t = Some N' -> pool_step N N'.
Proof.
  unfold pool_move. destruct (pn_pools N !! i) as [P|] eqn:Ei; [|done]. simpl.
  destruct (pool_threads P !! t) as [[op p]|] eqn:Et; [|done]. simpl. destruct (_ && _) eqn:Er; [|done].
  apply andb_prop in Er as [Er Ea]. destruct (advance t P) as [[P'| |]|] eqn:E; [|done..]. intros [= <-].
  eapply ps_move; [done|by apply in_range_check|by zbool|done|done].
Qed.

Lemma pool_go_reachable N i t k : pool_net_reachable N -> pool_net_reachable (pool_go N i t k).
Proof.
  revert N. induction k as [|k IH]; intros N HN; simpl; [done|]. destruct (pool_move N i t) as [N'|] eqn:E; [|done].
  apply IH. eapply pool_net_next; [exact HN|by eapply pool_move_step].
Qed.

Lemma pool_exec_reachable N a N' : pool_net_reachable N -> pool_exec N a = Some N' -> pool_net_reachable N'.
Proof.
  intros HN. destruct a as [i op|i peer j k|i t k]; simpl.
  - destruct (pn_pools N !! i) as [P|] eqn:Ei; [|done]. simpl. destruct (match op with Receive _ _ => _ | _ => _ end) eqn:Ea; [|done].
    intros E. eapply pool_net_next; [exact HN|]. eapply pool_call_step; [|exact E].
    destruct op; try done; simpl in *; [by apply names_typedb_sound..|].
    apply andb_true_iff in Ea as [? ?]; split; by apply bytes_ok_check.
  - destruct (pn_pools N !! j) as [P|] eqn:Ej; [|done]. simpl. destruct (sent_by (pool_world P) !! k) as [pf|] eqn:Ek; [|done].
    simpl. intros E. eapply pool_net_next; [exact HN|]. eapply pool_call_step; [|exact E]. left.
    apply (sent_in_flight _ (pool_world P)); [by eapply net_of_node|by eapply list_elem_of_lookup_2].
  - intros [= <-]. by apply pool_go_reachable.
Qed.

Lemma pool_run_reachable N acts N' : pool_net_reachable N -> pool_run N acts = Some N' -> pool_net_reachable N'.
Proof.
  intros HN. unfold pool_run. revert N HN. induction acts as [|a acts IH]; intros N HN; simpl; [by intros [= <-]|].
  destruct (pool_exec N a) as [N1|] eqn:E.
  - apply IH. by eapply pool_exec_reachable.
  - intros Hr. exfalso. clear -Hr. induction acts as [|a' acts IH]; simpl in Hr; done || by apply IH.
Qed.
End exec.

Definition calm_b {T} (P : Pool T) : bool :=
  match pool_owner P with None => true | Some _ => false end &&
  forallb (fun t => finished t.2 || match t.1 with DestroyReader _ => false | _ => true end) (pool_threads P) &&
  in_range_b (w_self (pool_world P)).

Lemma calm_check {T} (P : Pool T) : calm_b P = true -> calm P.
Proof.
  unfold calm_b. intros [[Hf Hall]%andb_prop Hin]%andb_prop. split; [by destruct (pool_owner P)| |by apply in_range_check].
  intros t ptr Ht Hft. rewrite forallb_forall in Hall. apply list_elem_of_In, Hall in Ht. rewrite Hft in Ht. by destruct t as [[] ?].
Qed.

(** Two participants discover each other; two threads of the first publish on one writer.
    The first one claims its number and is overtaken by the second one, whose frame is
    received first. *)
Definition pool_net0 : PoolNet := mkPoolNet ((fun w => mkPool w None []) <$> [test_node 1; test_node 2]) [].
Definition overlap_acts : list PoolAct :=
  [Call 0 (CreateWriter 100 [116] [105] preset_default); Go 0 0 30;
   Call 1 (CreateReader 200 [116] [105] preset_default false); Go 1 0 30;
   Call 0 (PeerUp 5); Call 1 (PeerUp 6); Go 0 1 30; Go 1 1 30;
   Arrive 0 5 1 0; Arrive 1 6 0 0; Go 1 2 30; Go 0 2 30;
   Call 0 (Write 100 (Some [65]) 1); Call 0 (Write 100 (Some [66]) 1); Go 0 3 5; Go 0 4 3;
   Go 0 4 30; Arrive 1 6 0 1; Go 1 3 30; Go 0 3 30; Arrive 1 6 0 2; Go 1 4 30].
Definition overlap_net (k : nat) : PoolNet := default pool_net0 (pool_run pool_net0 (take k overlap_acts)).

Lemma pool_net0_reachable : pool_net_reachable pool_net0.
Proof.
  apply pool_net_start; [|apply NoDup_ListNoDup; by repeat constructor; simpl; intuition discriminate].
  repeat constructor; do 5 eexists; (split; [reflexivity|]);
    (split; [done|]); (split; [apply bytes_ok_check; reflexivity|]);
    (split; [intros k; ulia|intros t ->%list_elem_of_singleton; done]).
Qed.

Lemma overlap_net_reachable k : pool_net_reachable (overlap_net k).
Proof.
  unfold overlap_net. destruct (pool_run pool_net0 (take k overlap_acts)) as [N|] eqn:E; simpl; [|apply pool_net0_reachable].
  by eapply pool_run_reachable; [apply pool_net0_reachable|].
Qed.

(** The reader of the second participant. *)
Definition overlap_reader (k : nat) : option ReaderImpl :=
  P ← pn_pools (overlap_net k) !! 1%nat; map_find 200 (p_readers (w_self (pool_world P))).

Lemma overlap_reader_at k r :
  overlap_reader k = Some r ->
  exists P, P ∈ pn_pools (overlap_net k) /\ map_find 200 (p_readers (w_self (pool_world P))) = Some r.
Proof.
  unfold overlap_reader. generalize (overlap_net k). intros N E. destruct (pn_pools N !! 1%nat) as [P|] eqn:EP; [|done].
  exists P. split; [by eapply list_elem_of_lookup_2|exact E].
Qed.

Module PoolNetSpec.
Section spec.
Context {T : Type} `{LoggedTransport T}.
Implicit Types N : PoolNet (T := T).

(** A network of participants whose calls overlap implements a bus of delivery channels.
    Any number of calls, transport events and announce turns are in flight at every
    participant, their threads interleave between any two lock operations, queue accesses
    and sends, and the network loses, duplicates, reorders and misdirects what they send.
    Every single act publishes at most one sample, as the next of its writer, and is a
    sequence of channel steps at every reader: it delivers only samples their writers
    published, with the bytes they published, a number at most once. *)
Theorem overlapping_network_refines_bus N N' :
  pool_net_reachable N -> pool_step N N' -> bus_step (bus_of (net_of N)) (bus_of (net_of N')).
Proof.
  intros Hok%pool_net_reachable_ok [i P op Hi _ _|i P j op p P' Hi Hin Hroom Ht E|i P w' Hi Hbm].
  - rewrite (spawn_net_of N i P op Hi). apply bus_step_refl.
  - destruct (pn_ok _ Hok i P Hi) as [gs Hp].
    destruct (advance_moved _ _ _ _ _ (pk_inv _ _ _ Hp) Hin E) as (P1 & op1 & p1 & p' & gh & gh' & [= <-] & Hm & _).
    pose proof (mv_thread _ _ _ _ _ _ _ _ _ Hm) as Ht'. rewrite Ht in Ht'. injection Ht' as <- <-.
    rewrite (after_net_of N i P'). apply (move_refines_bus _ _ (pool_world P)); [apply Hok|by apply net_of_lookup|].
    by eapply (move_net_move N Hok i P gs j).
  - destruct (pn_ok _ Hok i P Hi) as [gs Hp]. rewrite <- (app_nil_r (pn_published N)).
    rewrite (after_net_of N i (mkPool w' (pool_owner P) (pool_threads P))).
    apply (move_refines_bus _ _ (pool_world P)); [apply Hok|by apply net_of_lookup|by eapply backend_net_move].
Qed.

(** C3. End to end, under every interleaving: a sample waiting at any reader under the GUID
    of one of the participants was published by that writer under that number with exactly
    these bytes, no other bytes were published under that number, no number waits twice,
    and what a live writer has published, in order, is numbered 1, 2, 3, ... up to its
    current number. *)
Theorem overlapping_integrity N P :
  pool_net_reachable N -> P ∈ pn_pools N ->
  (forall ptr r, map_find ptr (p_readers (w_self (pool_world P))) = Some r ->
     NoDup (queue_ids r) /\
     forall q, q ∈ r_queue r -> ours (net_of N) (mi_writer_guid (qs_info q)) ->
       sample_of q ∈ pn_published N /\ forall d, (sample_id (qs_info q), d) ∈ pn_published N -> d = qs_data q) /\
  (forall ptr wr, map_find ptr (p_writers (w_self (pool_world P))) = Some wr ->
     numbers (w_guid wr) (pn_published N) = seqZ 1 (w_seq wr)).
Proof.
  intros [Hn _]%pool_net_reachable_ok [i Hi]%list_elem_of_lookup. pose proof (net_of_node N i P Hi) as Hw. split.
  - intros ptr r Hr. destruct (no_channels _ Hn _ (ptr, r) Hw (map_find_In _ _ _ Hr)) as [Ho _ Hnd]. simpl in Ho, Hnd. split.
    + unfold queue_ids. by rewrite <- list_fmap_compose in Hnd.
    + intros q Hq Hours. specialize (Ho (sample_of q) (list_elem_of_fmap_2 sample_of _ _ Hq) Hours). split; [exact Ho|].
      intros d Hd. by eapply (published_fun (net_of N)); [done|exact Hd|].
  - intros ptr wr Hf. exact (no_numbers _ Hn _ (ptr, wr) Hw (map_find_In _ _ _ Hf)).
Qed.

(** C9. Overlapping networks do not go wrong: in every reachable network every frame in
    flight is a string of bytes and every participant's next announcement is of its C++
    types; whatever thread of whatever participant moves next, it ends normally and leaves
    well-formed tables; a frame in flight can be handed to any participant in which no call
    that destroys a reader is in flight, as coming from any peer, and the network stays
    reachable; and when the locks of that participant are free as well, the call that
    handles the frame can be scheduled to its end, which is normal.  (While a reader is being
    destroyed a delivery may use it after its end: [destroy_races_delivery].) *)
Theorem overlapping_network_safe N i P :
  pool_net_reachable N -> pn_pools N !! i = Some P ->
  (forall f, in_flight (net_of N) f -> bytes_ok f) /\
  snapshot_typed (snapshot_locked (w_self (pool_world P))) /\
  (in_range (w_self (pool_world P)) -> forall j r, advance j P = Some r ->
     exists P', r = Done P' /\ part_ok (w_self (pool_world P'))) /\
  (forall f peer, in_flight (net_of N) f ->
     (forall t ptr, t ∈ pool_threads P -> finished t.2 = false -> kills_reader t.1 ptr = false) ->
     pool_net_reachable (mkPoolNet (<[i := spawn (Receive peer f) P]> (pn_pools N)) (pn_published N))) /\
  (forall f peer, in_flight (net_of N) f -> calm P ->
     exists w', run_op (Receive peer f) (pool_world P) = Done (tt, w') /\ part_ok (w_self w') /\
       rtc pool_step N (put i N (after_call (Receive peer f) w' P))).
Proof.
  intros HN Hi. pose proof (pool_net_reachable_ok _ HN) as Hok. pose proof Hok as [Hn _].
  assert (Hb : forall f, in_flight (net_of N) f -> bytes_ok f) by (intros f Hf; apply (in_flight_true _ f Hn Hf)).
  split_and!; [done|by eapply snapshot_true_typed, (no_true _ Hn), net_of_node| | |].
  - intros Hin j r E. destruct (pn_ok _ Hok i P Hi) as [gs Hp].
    destruct (advance_moved _ _ _ _ _ (pk_inv _ _ _ Hp) Hin E) as (P' & op & p & p' & gh & gh' & -> & _ & Hinv').
    exists P'. split; [done|]. by destruct (pi_session _ _ _ (Hinv' ltac:(done))) as [[? _] _].
  - intros f peer Hf Hk. eapply pool_net_next; [exact HN|]. apply ps_call; [done| |by left].
    split; [by apply Hb|]. intros t Ht Hft ptr. split_and!; try done. intros Hkr. by rewrite (Hk t ptr Ht Hft) in Hkr.
  - intros f peer Hf Hc. pose proof (no_session _ Hn _ (net_of_node N i P Hi)) as Hs.
    pose proof (op_safe (Receive peer f) (pool_world P) Hs (Hb f Hf)) as Hrun. unfold runs in Hrun.
    destruct (run_op (Receive peer f) (pool_world P)) as [[[] w']| |] eqn:E; [|done..]. exists w'. split; [done|].
    split; [apply Hrun|]. apply (calm_call N i P (Receive peer f) w'); try done; [|by left].
    by apply calm_spawn; [|apply Hb|].
Qed.
End spec.

Lemma overlapping_network_refines_bus_witness :
  exists N', pool_step (overlap_net 16) N' /\ bus_step (bus_of (net_of (overlap_net 16))) (bus_of (net_of N')) /\
    (snd <$> pn_published N') = [[65]; [66]].
Proof.
  destruct (pool_move (overlap_net 16) 0 4) as [N'|] eqn:E.
  - exists N'. pose proof (pool_move_step _ _ _ _ E) as Hs. split; [exact Hs|]. split.
    + exact (overlapping_network_refines_bus _ _ (overlap_net_reachable 16) Hs).
    + assert (Ed : (fun N => snd <$> pn_published N) <$> pool_move (overlap_net 16) 0 4 = Some [[65]; [66]]) by (vm_compute; reflexivity).
      rewrite E in Ed. by injection Ed.
  - assert (Ed : from_option (fun _ => true) false (pool_move (overlap_net 16) 0 4) = true) by (vm_compute; reflexivity). by rewrite E in Ed.
Defined.

Lemma overlapping_integrity_witness :
  exists r, overlap_reader 22 = Some r /\ (sample_of <$> r_queue r) <> [] /\ NoDup (queue_ids r).
Proof.
  destruct (overlap_reader 22) as [r|] eqn:E.
  - exists r. split; [done|]. split.
    + assert (Ed : (fun r => length (r_queue r)) <$> overlap_reader 22 = Some 2%nat) by (vm_compute; reflexivity).
      rewrite E in Ed. intros En. apply (f_equal length) in En. rewrite length_fmap in En. simpl in *. congruence.
    + destruct (overlap_reader_at 22 r E) as (P & HP & Hf).
      destruct (overlapping_integrity (overlap_net 22) P (overlap_net_reachable 22) HP) as [Hr _].
      exact (proj1 (Hr 200 r Hf)).
  - assert (Ed : from_option (fun _ => true) false (overlap_reader 22) = true) by (vm_compute; reflexivity). by rewrite E in Ed.
Defined.

(** One participant is in the middle of a write, and the other handles a frame of its. *)
Lemma overlapping_network_safe_witness :
  exists P P1 f w', pn_pools (overlap_net 16) !! 0%nat = Some P /\ at_rest_b P = false /\
    (forall j r, advance j P = Some r -> exists P', r = Done P' /\ part_ok (w_self (pool_world P'))) /\
    pn_pools (overlap_net 16) !! 1%nat = Some P1 /\ in_flight (net_of (overlap_net 16)) f /\
    run_op (Receive 6 f) (pool_world P1) = Done (tt, w') /\
    rtc pool_step (overlap_net 16) (put 1 (overlap_net 16) (after_call (Receive 6 f) w' P1)).
Proof.
  assert (Ed : (fun P => (in_range_b (w_self (pool_world P)), at_rest_b P)) <$> pn_pools (overlap_net 16) !! 0%nat = Some (true, false))
    by (vm_compute; reflexivity).
  assert (E1 : calm_b <$> pn_pools (overlap_net 16) !! 1%nat = Some true) by (vm_compute; reflexivity).
  assert (Ef : (fun P => (fun t => match rec_sent t with [] => false | _ => true end) <$> w_transports (pool_world P)) <$>
    pn_pools (overlap_net 16) !! 0%nat = Some [true]) by (vm_compute; reflexivity).
  pose proof (overlap_net_reachable 16) as HN. revert Ed E1 Ef HN. generalize (overlap_net 16). intros N Ed E1 Ef HN.
  destruct (pn_pools N !! 0%nat) as [P|] eqn:E; [|done]. destruct (pn_pools N !! 1%nat) as [P1|] eqn:EP1; [|done].
  injection Ed as Er Ea. injection E1 as Ec. injection Ef as Ef.
  destruct (w_transports (pool_world P)) as [|t ts] eqn:Et; [done|]. destruct (rec_sent t) as [|pf l] eqn:El; [by injection Ef as Ef; rewrite El in Ef|].
  assert (Hin : in_flight (net_of N) pf.2).
  { exists (pool_world P), t, pf. split_and!; [by eapply net_of_node|by rewrite Et; left| |done]. change (pf ∈ rec_sent t). rewrite El. left. }
  destruct (overlapping_network_safe N 0 P HN E) as (_ & _ & Hs & _).
  destruct (overlapping_network_safe N 1 P1 HN EP1) as (_ & _ & _ & _ & Hc).
  destruct (Hc pf.2 6 Hin ltac:(by apply calm_check)) as (w' & Hrun & _ & Hsteps).
  exists P, P1, pf.2, w'. split_and!; try done. apply Hs. by apply in_range_check.
Defined.
End PoolNetSpec.
