(* ===== verification/Convergence.v ===== *)
(** * Discovery converges

    What a turn of the announce thread hands to the transports, and what one received
    announcement leaves behind, in any reachable network. *)

From stdpp Require Import relations.
From S2P Require Import Prelude Memory StdMap Guid Qos Frame Fragment Reassembler ReaderImpl WriterImpl Reliability Discovery Wire Participant ParticipantFacts Matching Session Locked Interleave ThreadSafe Graph DataPath Publish Channel Integrity Network Bus PoolNet.

(** ** What a turn hands over *)

Section turn.
Context {T : Type} `{LoggedTransport T}.
Implicit Types w : World T.

(** The announcement, then the heartbeats, to every known peer. *)
Definition tick_frames (p : ParticipantImpl) (f : list Z) : list (PeerId * list Z) :=
  ((fun peer => (peer, f)) <$> p_peers p) ++
  concat ((fun peer => (fun hb => (peer, heartbeat_bytes hb.1.1 hb.1.2 hb.2)) <$> heartbeats p) <$> p_peers p).

Definition ready w (peers : list PeerId) : Prop := w_hook w = None /\ Forall (reachable_peer w) peers.

Lemma ready_handed w w' l peers : handed w w' l -> ready w peers -> ready w' peers.
Proof.
  intros Hh [Hk Hp]. split; [by rewrite (hd_hook _ _ _ Hh)|]. eapply Forall_impl; [exact Hp|].
  intros peer. by eapply handed_reachable.
Qed.

Lemma runs_for_each_hands {A} (l : list A) (f : A -> act T unit) (g : A -> list (PeerId * list Z)) peers w :
  ready w peers ->
  (forall a w1, a ∈ l -> ready w1 peers -> w_self w1 = w_self w -> (forall q, limit w1 q = limit w q) ->
     runs (fun _ w2 => hands w1 (g a) w2) (f a) w1) ->
  runs (fun _ w2 => hands w (concat (g <$> l)) w2) (for_each l f) w.
Proof.
  intros Hr. revert w Hr. induction l as [|a l IH]; intros w Hr Hf; cbn [for_each fmap list_fmap concat].
  { apply runs_ret. split; [by apply handed_kept|done]. }
  eapply runs_bind; [by apply Hf; [left|..]|]. intros u w1 [Hh Es]. cbv beta.
  eapply runs_mono; [apply IH; [by eapply ready_handed|]|].
  - intros a' w2 Ha Hr2 E2 El. apply Hf; [by right|done|congruence|]. intros q. by rewrite El, (hd_limit _ _ _ Hh).
  - intros u' w2 Hh2. by eapply hands_trans.
Qed.

Lemma runs_send_unit_hands peer f peers w :
  ready w peers -> peer ∈ peers -> runs (fun _ w' => hands w [(peer, f)] w') (_ ← send_frame peer f; mret tt) w.
Proof.
  intros [Hk Hp] Hin. rewrite Forall_forall in Hp. eapply runs_bind.
  { apply runs_send_frame_log; [done|]. by apply lookup_lt_is_Some_2, Hp. }
  intros ok w' [Hh (Es & _)]. by split.
Qed.

Lemma runs_tick_list {A B} (l : list A) (f : A -> Z -> B) w :
  runs (fun _ w' => kept w w' /\ w_self w' = w_self w) (mapM (fun a => now ← steady_now; mret (f a now)) l) w.
Proof.
  revert w. induction l as [|a l IH]; intros w; cbn [mapM]; [done|].
  eapply (runs_bind (fun _ w1 => kept w w1 /\ w_self w1 = w_self w)); [done|]. intros b w1 [K1 E1]. cbv beta.
  eapply runs_bind; [apply IH|]. intros bs w2 [K2 E2]. split; [by eapply kept_trans|congruence].
Qed.

Lemma runs_sweep_kept w :
  runs (fun _ w' => kept w w' /\ exists m, w_self w' = set_reassemblers (w_self w) m) sweep_reassemblers_locked w.
Proof.
  unfold sweep_reassemblers_locked. apply runs_self_bind.
  eapply runs_bind; [apply (runs_tick_list _ (fun kv now => (kv.1, fst (sweep_expired kv.2 now))))|].
  intros m w1 [K E]. apply runs_modify. split; [done|]. exists m. simpl. by rewrite E.
Qed.

(** The participant after the turn: the number has grown, reassemblers were swept. *)
Definition ticked_self (p p' : ParticipantImpl) : Prop :=
  exists m, p' = set_reassemblers (set_announce_seq p (p_announce_seq p + 1)) m.

Lemma runs_announce_tick_log w f :
  world_ok w -> ready w (p_peers (w_self w)) -> fits 64 (p_announce_seq (w_self w)) ->
  p_announce_seq (w_self w) + 1 < 2 ^ 64 ->
  encode_announce (snapshot_locked (w_self w)) (p_announce_seq (w_self w) + 1) = Done f ->
  runs (fun _ w' => handed w w' (tick_frames (w_self w) f) /\ ticked_self (w_self w) (w_self w')) announce_tick w.
Proof.
  intros Hw Hr Hfit Hlt Hf. unfold announce_tick. apply runs_modify_bind. rewrite wrap_id by ulia.
  set (w1 := with_self _ w). eapply runs_bind; [apply runs_sweep_kept|].
  intros [] w2 [[Kt Kh] [m Es]]. cbv beta.
  assert (Hh2 : handed w w2 []) by (by apply handed_kept).
  assert (Hr2 : ready w2 (p_peers (w_self w))) by (by eapply ready_handed).
  assert (Hp2 : p_peers (w_self w2) = p_peers (w_self w)) by (by rewrite Es).
  assert (Hb2 : heartbeats (w_self w2) = heartbeats (w_self w)) by (by rewrite Es).
  eapply (runs_bind (fun _ w3 => hands w2 ((fun peer => (peer, f)) <$> p_peers (w_self w)) w3)).
  { unfold broadcast_announce. apply runs_self_bind. rewrite Hp2.
    eapply runs_bind; [eapply (runs_encoded (fun f' w' => f' = f /\ w' = w2)); [by rewrite Es|done]|].
    intros f' w3 [-> ->]. cbv beta.
    replace ((fun peer => (peer, f)) <$> p_peers (w_self w)) with (concat ((fun peer => [(peer, f)]) <$> p_peers (w_self w))).
    - apply (runs_for_each_hands _ _ _ (p_peers (w_self w))); [done|]. intros peer w4 Hin Hr4 _ _.
      by eapply runs_send_unit_hands.
    - generalize (p_peers (w_self w)). intros l. induction l; simpl; [done|]. by f_equal. }
  intros [] w3 [Hh3 E3]. cbv beta. assert (Hr3 : ready w3 (p_peers (w_self w))) by (by eapply ready_handed).
  unfold send_heartbeats. apply runs_self_bind. rewrite E3, Hp2, Hb2.
  eapply runs_mono.
  { apply (runs_for_each_hands _ _ (fun peer => (fun hb => (peer, heartbeat_bytes hb.1.1 hb.1.2 hb.2)) <$> heartbeats (w_self w))
      (p_peers (w_self w))); [done|]. intros peer w4 Hin Hr4 _ _.
    replace ((fun hb => (peer, heartbeat_bytes hb.1.1 hb.1.2 hb.2)) <$> heartbeats (w_self w))
      with (concat ((fun hb => [(peer, heartbeat_bytes hb.1.1 hb.1.2 hb.2)]) <$> heartbeats (w_self w)))
      by (generalize (heartbeats (w_self w)); intros l; induction l; simpl; [done|]; by f_equal).
    apply (runs_for_each_hands _ _ _ (p_peers (w_self w))); [done|]. intros hb w5 Hhb Hr5 _ _.
    eapply runs_bind; [eapply (runs_encoded (fun f' w' => f' = heartbeat_bytes hb.1.1 hb.1.2 hb.2 /\ w' = w5));
      [by apply encode_heartbeat_bytes, (heartbeats_ok (w_self w)); [apply Hw|]|done]|].
    intros f' w6 [-> ->]. by eapply runs_send_unit_hands. }
  intros [] w4 [Hh4 E4]. split.
  - unfold tick_frames. pose proof (handed_trans _ _ _ _ _ (handed_trans _ _ _ _ _ Hh2 Hh3) Hh4) as Hh. exact Hh.
  - exists m. rewrite E4, E3, Es. done.
Qed.

(** *** What the transport takes *)

(** The transport of [peer] takes the frame [f] once it was handed the frames [l]. *)
Definition takes w (l : list (PeerId * list Z)) (peer : PeerId) (f : list Z) : Prop :=
  exists t, w_transports w !! peer_index peer = Some t /\
    snd (transport_send (sends t (through (peer_index peer) l)) (peer_backend_id peer) f) = true.

(** While the frames [l] are handed over, none within the limit is refused to [peer]. *)
Definition accepting w (l : list (PeerId * list Z)) (peer : PeerId) : Prop :=
  forall l1 f l2, l = l1 ++ (peer, f) :: l2 -> len f <= limit w peer -> takes w l1 peer f.

(** Those of the frames [l] that transport [k] does not refuse. *)
Definition taken_by w (l : list (PeerId * list Z)) (k : nat) : list (PeerId * list Z) :=
  from_option (fun t => taken t (through k l)) [] (w_transports w !! k).

Lemma accepting_taken w l peer f :
  accepting w l peer -> (peer, f) ∈ l -> len f <= limit w peer ->
  (peer_backend_id peer, f) ∈ taken_by w l (peer_index peer).
Proof.
  intros Ha (l1 & l2 & El)%list_elem_of_split Hle. destruct (Ha l1 f l2 El Hle) as (t & Ht & Hsend).
  unfold taken_by. rewrite Ht, El, through_app. simpl. unfold through at 2. rewrite filter_cons_True by done.
  by apply taken_in.
Qed.

Lemma log_in_flight n w k (pf : PeerId * list Z) : w ∈ net_nodes n -> pf ∈ log w k -> in_flight n pf.2.
Proof.
  intros Hw. unfold log. destruct (w_transports w !! k) as [t|] eqn:E; cbn; [|by intros ?%not_elem_of_nil].
  intros Hpf. exists w, t, pf. split_and!; [done|by eapply list_elem_of_lookup_2|done..].
Qed.

End turn.

(** What the publisher of the example network announces. *)
Lemma test_publisher_ok :
  snapshot_ok (mkSnapshot (make_guid (replicate 12 1) PARTICIPANT 0) []
    [mkEndpoint (make_guid (replicate 12 1) WRITER 1) WRITER [116] [105] preset_default 1000000]).
Proof.
  assert (Hg : forall k n, fits 8 (kind_to_u8 k) -> guid_ok (make_guid (replicate 12 1) k n)).
  { intros k m Hk. apply make_guid_ok; [done|by apply bytes_ok_check|done]. }
  split; simpl; [apply Hg; simpl; ulia|constructor|ulia| |ulia]. constructor; [|constructor].
  split; simpl; [apply Hg; simpl; ulia|split; simpl; [ulia|done]|split; [simpl; ulia|by apply bytes_ok_check]..| |ulia].
  split; simpl; done || ulia.
Qed.

Section exchange.
Context {T : Type} `{LoggedTransport T}.
Implicit Types w : World T.

(** One announce turn and one receipt. *)
Lemma announce_exchange (n : Net (T := T)) (i j : nat) w wb (peer_b peer_a : PeerId) :
  let f := announce_bytes (snapshot_locked (w_self w)) (p_announce_seq (w_self w) + 1) in
  net_ok n -> net_nodes n !! i = Some w -> net_nodes n !! j = Some wb ->
  ready w (p_peers (w_self w)) -> peer_b ∈ p_peers (w_self w) ->
  p_announce_seq (w_self w) + 1 < 2 ^ 64 -> snapshot_ok (snapshot_locked (w_self w)) ->
  len (announce_body (snapshot_locked (w_self w)) (p_announce_seq (w_self w) + 1)) < 2 ^ 32 ->
  exists w' wb' now,
    run_op AnnounceTick w = Done (tt, w') /\ handed w w' (tick_frames (w_self w) f) /\
    (peer_backend_id peer_b, f) ∈ log w' (peer_index peer_b) /\
    run_op (Receive peer_a f) wb = Done (tt, wb') /\
    entry_replaced wb wb' (p_guid (w_self w))
      (mkRemote peer_a (p_announce_seq (w_self w) + 1) (snapshot_locked (w_self w)) now).
Proof.
  intros f Hn Hi Hj Hr Hpeer Hlt Hs Hl. set (k := p_announce_seq (w_self w) + 1) in *.
  pose proof (no_session _ Hn w (list_elem_of_lookup_2 _ _ _ Hi)) as [Hw _].
  pose proof (no_session _ Hn wb (list_elem_of_lookup_2 _ _ _ Hj)) as [Hwb _].
  pose proof (st_seq _ _ _ _ (proj1 (no_true _ Hn w (list_elem_of_lookup_2 _ _ _ Hi)))) as Hseq.
  pose proof (encode_announce_bytes _ k Hs Hl) as Ef.
  pose proof (runs_announce_tick_log w f Hw Hr Hseq Hlt Ef) as Ht. unfold runs in Ht.
  destruct (announce_tick w) as [[[] w']| |] eqn:Etick; [|done..]. destruct Ht as [Hh _].
  assert (Hfits : fits 64 k) by (unfold k; ulia).
  pose proof (decode_announce_bytes _ k [] Hs Hfits Hl) as Hdec. rewrite app_nil_r in Hdec. fold f in Hdec.
  pose proof (runs_announce_exact peer_a f _ k wb Hwb (announce_bytes_ok _ k Hs Hl) Hdec) as Hrecv.
  unfold runs in Hrecv. destruct (handle_announce peer_a f wb) as [[[] wb']| |] eqn:Erecv; [|done..].
  cbv zeta in Hrecv. change (participant_guid (snapshot_locked (w_self w))) with (p_guid (w_self w)) in Hrecv.
  assert (He : exists now, entry_replaced wb wb' (p_guid (w_self w)) (mkRemote peer_a k (snapshot_locked (w_self w)) now)).
  { destruct (map_find (p_guid (w_self w)) (p_remote (w_self wb))) as [rp|] eqn:Erp; [|eexists; apply (sd_entry _ _ _ _ _ _ _ Hrecv)].
    pose proof (st_remote _ _ _ _ (proj1 (no_true _ Hn wb (list_elem_of_lookup_2 _ _ _ Hj))) _ (map_find_In _ _ _ Erp)) as Hann.
    simpl in Hann. specialize (Hann w (list_elem_of_lookup_2 _ _ _ Hi) eq_refl).
    replace (k <=? rp_announce_seq rp) with false in Hrecv; [eexists; apply (sd_entry _ _ _ _ _ _ _ Hrecv)|].
    symmetry. apply Z.leb_gt. unfold k. lia. }
  destruct He as [now He]. exists w', wb', now. split; [done|]. split; [done|]. split; [|split; [|done]].
  - rewrite (hd_log _ _ _ Hh). apply elem_of_app. right. unfold through.
    apply (list_elem_of_fmap_2 (fun pf => (peer_backend_id pf.1, pf.2)) _ (peer_b, f)), list_elem_of_filter.
    split; [done|]. unfold tick_frames. apply elem_of_app. left. by apply (list_elem_of_fmap_2 (fun peer => (peer, f))).
  - simpl. destruct (decode_announce_header _ _ Hdec) as (h & Eh & Ety). unfold handle_bytes.
    unfold mbind, act_bind, decoded at 1. by rewrite Eh, Ety.
Qed.

End exchange.

Module ConvergenceSpec.
Section spec.
Context {T : Type} `{LoggedTransport T}.
Implicit Types w : World T.


(** C6. Discovery converges: from any reachable network of overlapping calls, whatever was
    lost, reordered or duplicated before, an announce turn of a participant hands its peer a
    frame, which the transport takes if it fits the limit and the transport is accepting, and
    which, whenever it is the next of its announcements another participant receives,
    replaces that participant's entry for the announcer by exactly the announcer's current
    nodes and endpoints, and touches no other entry.  The threads can always be scheduled so,
    whatever calls are in flight: it is enough that neither lock is held and that none of
    these calls destroys a reader.  The announced lists and names must fit the 16-bit counts
    of the frame ([snapshot_ok]). *)
Theorem discovery_converges (N : PoolNet (T := T)) (i j : nat) (Pi Pj : Pool T) (peer_b peer_a : PeerId) :
  let w := pool_world Pi in let wb := pool_world Pj in
  let f := announce_bytes (snapshot_locked (w_self w)) (p_announce_seq (w_self w) + 1) in
  let turn := tick_frames (w_self w) f in
  pool_net_reachable N -> i <> j -> pn_pools N !! i = Some Pi -> pn_pools N !! j = Some Pj ->
  calm Pi -> calm Pj -> p_announce_seq (w_self w) + 2 < 2 ^ 64 ->
  ready w (p_peers (w_self w)) -> peer_b ∈ p_peers (w_self w) -> snapshot_ok (snapshot_locked (w_self w)) ->
  len (announce_body (snapshot_locked (w_self w)) (p_announce_seq (w_self w) + 1)) < 2 ^ 32 ->
  len f <= limit w peer_b -> accepting w turn peer_b ->
  exists w' wb' now,
    run_op AnnounceTick w = Done (tt, w') /\ handed w w' turn /\
    (peer_backend_id peer_b, f) ∈ taken_by w turn (peer_index peer_b) /\
    run_op (Receive peer_a f) wb = Done (tt, wb') /\
    entry_replaced wb wb' (p_guid (w_self w))
      (mkRemote peer_a (p_announce_seq (w_self w) + 1) (snapshot_locked (w_self w)) now) /\
    rtc pool_step N
      (put j (put i N (after_call AnnounceTick w' Pi)) (after_call (Receive peer_a f) wb' Pj)).
Proof.
  intros w wb f turn HN%pool_net_reachable_ok Hij Hi Hj Hci Hcj Hseq Hr Hpeer Hs Hl Hfits Hacc.
  destruct (announce_exchange (net_of N) i j w wb peer_b peer_a) as (w' & wb' & now & E1 & Hh & Hlog & E2 & He);
    [by apply HN|by apply net_of_lookup|by apply net_of_lookup|done|done|lia|done|done|].
  exists w', wb', now. do 2 (split; [done|]). split.
  { apply accepting_taken; [done| |done]. apply elem_of_app. left. by apply (list_elem_of_fmap_2 (fun peer => (peer, f))). }
  do 2 (split; [done|]).
  destruct (calm_call N i Pi AnnounceTick w') as (H1 & HN1 & _); try done.
  set (N1 := put i N (after_call AnnounceTick w' Pi)) in *.
  destruct (calm_call N1 j Pj (Receive peer_a f) wb') as (H2 & _ & _); try done; [by unfold N1; rewrite put_other|apply calm_spawn; [done|by apply announce_bytes_ok|done]| |by etrans].
  left. apply (log_in_flight _ w' (peer_index peer_b) (peer_backend_id peer_b, f)); [|done].
  eapply (net_of_node N1 i (after_call AnnounceTick w' Pi)). by eapply put_same.
Qed.
End spec.


End ConvergenceSpec.
