(* ===== verification/Repair.v ===== *)
(** * The repair exchange between participants

    What a heartbeat makes a participant answer, what an ACKNACK makes one answer, and
    that one announce turn followed by the exchange it triggers repairs a reader,
    whatever was lost before and in whatever order the answer arrives. *)

From stdpp Require Import relations.
From S2P Require Import Prelude Memory StdMap Guid Qos Frame Fragment Reassembler ReaderImpl WriterImpl Reliability Discovery Wire Participant ParticipantFacts Matching Session Locked Interleave ThreadSafe Graph DataPath Publish Channel Integrity Network Bus PoolNet Convergence.

(** ** Control frames *)

Lemma decode_gap_header f b : decode_gap f = Done b -> exists h, decode_header f = Done h /\ hdr_type h = GAP.
Proof.
  unfold decode_gap. intros E. apply bind_Done_inv in E as (h & Eh & E). exists h. split; [done|].
  revert E. destruct (decide (hdr_type h = GAP)) as [Ht|Ht]; [done|]. by rewrite bool_decide_false.
Qed.

Lemma decode_heartbeat_header f b :
  decode_heartbeat f = Done b -> exists h, decode_header f = Done h /\ hdr_type h = HEARTBEAT.
Proof.
  unfold decode_heartbeat. intros E. apply bind_Done_inv in E as (h & Eh & E). exists h. split; [done|].
  revert E. destruct (decide (hdr_type h = HEARTBEAT)) as [Ht|Ht]; [done|]. by rewrite bool_decide_false.
Qed.

Lemma decode_acknack_header f b :
  decode_acknack f = Done b -> exists h, decode_header f = Done h /\ hdr_type h = ACKNACK.
Proof.
  unfold decode_acknack. intros E. apply bind_Done_inv in E as (h & Eh & E). exists h. split; [done|].
  revert E. destruct (decide (hdr_type h = ACKNACK)) as [Ht|Ht]; [done|]. by rewrite bool_decide_false.
Qed.

(** ** The answers *)

Section answers.
Context {T : Type} `{LoggedTransport T}.
Implicit Types w : World T.

(** The ACKNACKs a heartbeat makes the participant send back. *)
Definition nack_frames (p : ParticipantImpl) (peer : PeerId) (ep : EndpointRecord) (hb : HeartbeatBody)
    : list (PeerId * list Z) :=
  (fun nk => (peer, acknack_bytes nk.1.1 (hb_writer hb) nk.1.2 nk.2)) <$> nacks_due p (hb_writer hb) ep (hb_last_seq hb).

Lemma concat_singletons {A B} (f : A -> B) (l : list A) : concat ((fun a => [f a]) <$> l) = f <$> l.
Proof. induction l; simpl; [done|]. by f_equal. Qed.

Lemma runs_heartbeat_answer peer f hb ep w :
  world_ok w -> ready w [peer] -> decode_heartbeat f = Done hb -> guid_ok (hb_writer hb) ->
  find_remote_endpoint_locked (w_self w) (hb_writer hb) = Some ep ->
  runs (fun _ w' => handed w w' (nack_frames (w_self w) peer ep hb) /\
      exists now, w_self w' = set_last_seen (w_self w) (map_set (hb_writer hb) now (p_writer_last_seen (w_self w))))
    (handle_heartbeat peer f) w.
Proof.
  intros Hw Hr Hdec Hg Hep. unfold handle_heartbeat. apply (runs_decoded_done _ _ _ _ _ Hdec).
  apply runs_tick_bind. set (now := _ / _). apply runs_modify_bind, runs_self_bind. set (w2 := with_self _ _).
  change (find_remote_endpoint_locked (w_self w2) (hb_writer hb)) with (find_remote_endpoint_locked (w_self w) (hb_writer hb)).
  rewrite Hep. change (nacks_due (w_self w2)) with (nacks_due (w_self w)).
  eapply runs_mono.
  { apply (runs_for_each_hands _ _ (fun nk => [(peer, acknack_bytes nk.1.1 (hb_writer hb) nk.1.2 nk.2)]) [peer]); [done|].
    intros nk w3 Hnk Hr3 _ _.
    eapply runs_bind; [eapply (runs_encoded (fun f' w' => f' = acknack_bytes nk.1.1 (hb_writer hb) nk.1.2 nk.2 /\ w' = w3));
      [apply encode_acknack_bytes; [by eapply (nacks_due_ok (w_self w)); [apply Hw|]|done]|done]|].
    intros f' w4 [-> ->]. eapply runs_send_unit_hands; [done|left]. }
  intros [] w3 [Hh E]. rewrite concat_singletons in Hh. split; [by apply (kept_handed w w2)|]. exists now. by rewrite E.
Qed.

(** The retransmissions and the GAP that answer an ACKNACK. *)
Definition answer_frames w (peer : PeerId) (wr : WriterImpl) (ep : EndpointRecord) (ack : AckNackBody)
    : list (PeerId * list Z) :=
  let clamp := bool_decide (durability (ep_qos ep) = VOLATILE) in
  let (resend, unavail_end) := acknack_scan wr clamp (ep_birth_us ep) (ack_base_seq ack) (ack_bitmap ack) in
  concat ((fun e => sample_for w (ack_writer ack) (cs_seq e) (cs_pub_time_ms e) (cs_data e)
                      (reliable_flag (w_qos wr)) peer) <$> resend) ++
  if 0 <? unavail_end then [(peer, gap_bytes (ack_writer ack) (ack_reader ack) (ack_base_seq ack) unavail_end)] else [].

Lemma runs_acknack_answer peer f ack ptr wr ep w :
  world_ok w -> ready w [peer] -> decode_acknack f = Done ack -> guid_ok (ack_reader ack) -> guid_ok (ack_writer ack) ->
  find_writer_locked (w_self w) (ack_writer ack) = Some ptr -> map_find ptr (p_writers (w_self w)) = Some wr ->
  find_remote_endpoint_locked (w_self w) (ack_reader ack) = Some ep ->
  runs (fun _ w' => hands w (answer_frames w peer wr ep ack) w') (handle_acknack peer f) w.
Proof.
  intros Hw Hr Hdec Hgr Hgw Hptr Hwr Hep. unfold handle_acknack. apply (runs_decoded_done _ _ _ _ _ Hdec).
  apply runs_self_bind. rewrite Hptr, Hep, Hwr. unfold answer_frames. set (clamp := bool_decide _).
  destruct (acknack_scan_within wr clamp (ep_birth_us ep) (ack_base_seq ack) (ack_bitmap ack)) as [Hre _].
  destruct (acknack_scan wr clamp _ _ _) as [resend u]. simpl in Hre. rewrite Forall_forall in Hre.
  eapply runs_bind.
  { apply (runs_for_each_hands _ _ (fun e => sample_for w (ack_writer ack) (cs_seq e) (cs_pub_time_ms e) (cs_data e)
      (reliable_flag (w_qos wr)) peer) [peer]); [done|]. intros e w1 He [Hk1 Hr1] E1 El.
    pose proof (wo_cached _ (po_writers _ (proj1 Hw) _ _ Hwr)) as Hc. rewrite Forall_forall in Hc.
    destruct (Hc _ (Hre _ He)) as (? & ? & _ & ?). eapply runs_bind; [apply runs_send_sample_log; auto using reliable_flag_fits|].
    intros ok w2 Hs. apply runs_ret. unfold sample_for in *. by rewrite El in Hs. }
  intros [] w1 Hs1. cbv beta. case_if; [|apply runs_ret; by rewrite app_nil_r].
  eapply runs_bind; [eapply (runs_encoded (fun f' w' => f' = gap_bytes (ack_writer ack) (ack_reader ack) (ack_base_seq ack) u /\ w' = w1));
    [by apply encode_gap_bytes|done]|].
  intros f' w2 [-> ->]. eapply runs_mono.
  { apply (runs_send_unit_hands peer _ [peer]); [|left]. eapply ready_handed; [apply Hs1|done]. }
  intros [] w2 Hs2. by eapply hands_trans.
Qed.
End answers.

(** ** What the handlers of data frames leave alone *)

Section preserves.
Context {T : Type} `{Transport T} {X : Type} (F : ParticipantImpl -> X).
Implicit Types w : World T.

Definition preserves {A} (m : act T A) : Prop := forall w a w', m w = Done (a, w') -> F (w_self w') = F (w_self w).

Lemma preserves_ret {A} (a : A) : preserves (mret a).
Proof. by intros w b w' [= _ <-]. Qed.

Lemma preserves_bind {A B} (m : act T A) (k : A -> act T B) :
  preserves m -> (forall a, preserves (k a)) -> preserves (m ≫= k).
Proof.
  intros Hm Hk w b w'. unfold mbind, act_bind. destruct (m w) as [[a w1]| |] eqn:E; [|done..].
  intros E'. by rewrite (Hk _ _ _ _ E'), (Hm _ _ _ E).
Qed.

Lemma preserves_ub {A} : preserves (fun _ : World T => UB : res (A * World T)).
Proof. by intros w a w'. Qed.

Lemma preserves_self : preserves get_self.
Proof. by intros w a w' [= _ <-]. Qed.

Lemma preserves_modify f : (forall p, F (f p) = F p) -> preserves (modify f).
Proof. intros Hf w [] w' E. injection E as <-. apply Hf. Qed.

Lemma preserves_tick {A} (f : World T -> A) : preserves (tick f).
Proof. by intros w a w' [= _ <-]. Qed.

Lemma preserves_fire e : preserves (fire e).
Proof. intros w [] w' E. by injection E as <-. Qed.

Lemma preserves_encoded {A} (r : res A) : preserves (encoded r).
Proof. intros w a w' E. unfold encoded in E. by apply bind_Done_inv in E as (x & _ & [= _ <-]). Qed.

Lemma preserves_decoded {A} (r : res A) : preserves (decoded r).
Proof. intros w a w'. unfold decoded. destruct r; [| |done]; by intros [= _ <-]. Qed.

Lemma preserves_send_frame peer f : preserves (send_frame peer f).
Proof.
  intros w a w'. unfold send_frame. case_if; [by intros [= _ <-]|].
  generalize (Z.to_nat (peer_transport_index peer)). intros i. destruct (w_transports w !! i) as [t|]; [|by intros [= _ <-]].
  destruct (transport_send t _ _) as [t' ok]. by intros [= _ <-].
Qed.

Lemma preserves_max_payload peer : preserves (max_payload peer).
Proof.
  intros w a w'. unfold max_payload. generalize (Z.to_nat (peer_transport_index peer)). intros i.
  destruct (w_transports w !! i); by intros [= _ <-].
Qed.

Lemma preserves_for_each {A} (l : list A) (f : A -> act T unit) : (forall a, preserves (f a)) -> preserves (for_each l f).
Proof.
  intros Hf. induction l as [|a l IH]; cbn [for_each]; [apply preserves_ret|]. by apply preserves_bind.
Qed.

Lemma preserves_mapM {A B} (l : list A) (f : A -> act T B) : (forall a, preserves (f a)) -> preserves (mapM f l).
Proof.
  intros Hf. induction l as [|a l IH]; cbn [mapM]; [apply preserves_ret|].
  apply preserves_bind; [done|]. intros b. apply preserves_bind; [done|]. intros bs. apply preserves_ret.
Qed.

Lemma preserves_send_frames peer fs ok : preserves (send_frames peer fs ok).
Proof.
  revert ok. induction fs as [|f fs IH]; intros ok; cbn [send_frames]; [apply preserves_ret|].
  apply preserves_bind; [apply preserves_send_frame|]. intros sent. apply IH.
Qed.
End preserves.

#[export] Hint Resolve preserves_ret preserves_ub preserves_self preserves_tick preserves_fire preserves_encoded
  preserves_decoded preserves_send_frame preserves_max_payload preserves_send_frames : mdds.

(** Walk through a computation, leaving its [modify]s. *)
Ltac preserve :=
  try (cbv zeta);
  repeat match goal with
  | |- preserves _ (_ ≫= _) => apply preserves_bind; [|intros ?]
  | |- preserves _ (for_each _ _) => apply preserves_for_each; intros ?
  | |- preserves _ (mapM _ _) => apply preserves_mapM; intros ?
  | |- preserves _ (modify _) => apply preserves_modify; intros ?
  | |- preserves _ (match ?x with _ => _ end) => destruct x
  | |- _ => first [solve [auto with mdds] | progress (cbv zeta)]
  end.

Section frames.
Context {T : Type} `{Transport T}.

Lemma deliver_keeps_reassemblers peer g s pb data :
  preserves p_reassemblers (deliver_sample (T := T) peer g s pb data).
Proof.
  unfold deliver_sample, steady_now_ms, enqueue_at, system_now_ms, fire_callback. preserve; done.
Qed.

Lemma gap_keeps_reassemblers peer f : preserves p_reassemblers (handle_gap (T := T) peer f).
Proof. unfold handle_gap. preserve. by destruct (find_reader_locked _ _). Qed.

Lemma heartbeat_keeps_reassemblers peer f : preserves p_reassemblers (handle_heartbeat (T := T) peer f).
Proof. unfold handle_heartbeat, steady_now_ms. preserve; done. Qed.

Lemma acknack_keeps_reassemblers peer f : preserves p_reassemblers (handle_acknack (T := T) peer f).
Proof. unfold handle_acknack, send_sample_to. preserve; done. Qed.

(** A frame that is no fragment leaves the reassemblers alone. *)
Lemma frame_keeps_reassemblers peer f :
  no_announce f -> (forall b, decode_data_frag f <> Done b) ->
  preserves p_reassemblers (handle_bytes (T := T) peer f).
Proof.
  intros Hna Hnf. unfold handle_bytes. intros w a w'. unfold mbind, act_bind, decoded at 1.
  destruct (decode_header f) as [h| |] eqn:Eh; [|by intros [= _ <-]|done].
  specialize (Hna h Eh). destruct (hdr_type h) eqn:Ht; try done.
  - unfold mbind, act_bind, decoded at 1. destruct (decode_data f); [|by intros [= _ <-]|done].
    apply deliver_keeps_reassemblers.
  - unfold mbind, act_bind, decoded at 1. destruct (decode_data_frag f) as [b| |]; [|by intros [= _ <-]|done].
    by destruct (Hnf b).
  - apply acknack_keeps_reassemblers.
  - apply heartbeat_keeps_reassemblers.
  - apply gap_keeps_reassemblers.
  - by intros [= _ <-].
Qed.
End frames.

(** ** Listening to the answer *)

Section hearing.
Context {T : Type} `{LoggedTransport T}.
Implicit Types w : World T.
Context (ours : Guid -> Prop) (pub : Guid -> Z -> list Z -> Prop) (ann : Guid -> Z -> Prop).
Context (pub_fun : forall g s d d', pub g s d -> pub g s d' -> d = d').
(** The writer, its endpoint, and the reader at [rptr] as it was. *)
Context (g : Guid) (ep : EndpointRecord) (rptr : Z) (r0 : ReaderImpl).
Context (Hg : guid_ok g) (Hmatch : endpoints_match (r_topic r0) (r_type r0) (r_qos r0) ep = true).

Abbreviation true_world := (world_true ours pub ann).
Abbreviation grows := (evolves ours pub (fun _ => False)).

(** The reader is there, matched with the writer, and has seen the numbers [S]. *)
Record hearing (S : Z -> Prop) w : Prop := {
  he_ok : world_ok w;
  he_true : true_world w;
  he_ep : find_remote_endpoint_locked (w_self w) g = Some ep;
  he_ptr : find_reader_locked (w_self w) (r_guid r0) = Some rptr;
  he_reader : exists r, map_find rptr (p_readers (w_self w)) = Some r /\ reader_view r = reader_view r0 /\
    forall s, S s -> seen (rx_of r g) s;
}.

Lemma hearing_mono (S S' : Z -> Prop) w : (forall s, S' s -> S s) -> hearing S w -> hearing S' w.
Proof. intros Hsub [? ? ? ? (r & ? & ? & ?)]. split; [done..|]. exists r. eauto. Qed.

Lemma find_reader_view (p p' : ParticipantImpl) h :
  view reader_view (p_readers p') = view reader_view (p_readers p) ->
  find_reader_locked p' h = find_reader_locked p h.
Proof.
  unfold find_reader_locked, view. generalize (p_readers p) (p_readers p').
  intros l l'. revert l. induction l' as [|[k' r'] l' IH]; intros [|[k r] l]; try done.
  intros [= -> Eg _ _ _ _ _ _ El]. simpl. rewrite Eg. case_bool_decide; [done|]. by apply IH.
Qed.

Lemma grows_seen w w' r r' :
  world_ok w -> grows (w_self w) (w_self w') ->
  map_find rptr (p_readers (w_self w)) = Some r -> map_find rptr (p_readers (w_self w')) = Some r' ->
  forall s, seen (rx_of r g) s -> seen (rx_of r' g) s.
Proof.
  intros Hw [_ Hr] Hf Hf' s Hs. destruct (Hr (rptr, r') (map_find_In _ _ _ Hf')) as [(kv & Hin & Ek & _ & Hst)|[[] _]].
  simpl in Ek, Hst. pose proof (entry_find _ _ (po_readers_map _ (proj1 Hw)) Hin) as Hk. rewrite Ek, Hf in Hk.
  injection Hk as ->. exact (channel_steps_closed _ _ _ Hst g s Hs).
Qed.

Lemma hearing_steps (S : Z -> Prop) w w' :
  hearing S w -> steps_if true w w' -> true_world w' -> grows (w_self w) (w_self w') -> hearing S w'.
Proof.
  intros [Hw Ht Hep Hptr (r & Hr & Hv & Hs)] Hst Ht' Hgr.
  destruct (steps_find_reader (strict := true) w w' rptr r Hst Hr) as (r' & Hr' & Hv').
  pose proof Hst as (_ & _ & _ & Ev & Hq & _). split.
  - by eapply (steps_ok (strict := true)).
  - done.
  - unfold find_remote_endpoint_locked, remote_endpoints in *. by rewrite (q_remote _ _ (Hq eq_refl)).
  - by rewrite (find_reader_view _ _ _ Ev).
  - exists r'. split_and!; [done|congruence|]. intros s Hs'. eapply grows_seen; eauto.
Qed.

(** A result reached by [runs] is reached truthfully. *)
Lemma runs_carries {A} (P : A -> World T -> Prop) (m : act T A) w :
  runs P m w -> carries ours pub ann (fun _ => False) m (fun _ => True) -> true_world w ->
  runs (fun a w' => P a w' /\ true_world w' /\ grows (w_self w) (w_self w')) m w.
Proof.
  unfold runs. intros Hr Hc Hw. destruct (m w) as [[a w']| |] eqn:E; [|done..].
  destruct (Hc _ _ _ Hw E) as (? & ? & _). by split_and!.
Qed.

(** Any frame of the network but an announcement keeps what was seen. *)
Definition in_traffic (f : list Z) : Prop := bytes_ok f /\ frame_true ours pub ann f /\ no_announce f.

Lemma runs_in_traffic S peer f w :
  in_traffic f -> hearing S w ->
  runs (fun _ w' => steps_if true w w' /\ true_world w' /\ grows (w_self w) (w_self w')) (handle_bytes peer f) w.
Proof.
  intros (Hb & Ht & Hna) Hh. apply runs_carries; [|by apply carries_handle_bytes|apply (he_true _ _ Hh)].
  apply runs_handle_frame; [apply (he_ok _ _ Hh)|done|done].
Qed.

Lemma runs_hearing S peer f w :
  in_traffic f -> hearing S w -> runs (fun _ w' => hearing S w') (handle_bytes peer f) w.
Proof.
  intros Hf Hh. eapply runs_mono; [by apply (runs_in_traffic S)|]. intros [] w' (? & ? & ?). by eapply hearing_steps.
Qed.

Lemma runs_hearing_all S peer fs w :
  Forall in_traffic fs -> hearing S w -> runs (fun _ w' => hearing S w') (for_each fs (handle_bytes peer)) w.
Proof.
  intros Hfs. revert w. induction Hfs as [|f fs Hf Hfs IH]; intros w Hh; cbn [for_each]; [done|].
  eapply runs_bind; [by apply (runs_hearing S)|]. intros [] w1 Hh1. by apply IH.
Qed.

(** If one frame makes the reader see [S'], receiving it among others does. *)
Lemma runs_heard (S S' : Z -> Prop) peer f fs w :
  Forall in_traffic fs -> f ∈ fs -> hearing S w ->
  (forall w1, hearing S w1 -> runs (fun _ w2 => hearing S' w2) (handle_bytes peer f) w1) ->
  runs (fun _ w' => hearing S' w') (for_each fs (handle_bytes peer)) w.
Proof.
  intros Hfs (l & k & ->)%list_elem_of_split Hh Hf. apply Forall_app in Hfs as [Hl Hk].
  apply Forall_cons in Hk as [_ Hk]. apply runs_for_each_app.
  eapply runs_bind; [by apply (runs_hearing_all S)|]. intros [] w1 Hh1. cbn [for_each].
  eapply runs_bind; [by apply Hf|]. intros [] w2 Hh2. by apply runs_hearing_all.
Qed.

(** The sample of number [s] handed to the readers. *)
Lemma runs_deliver_heard S peer s pb data w :
  hearing S w -> fits 64 s -> vouched ours pub g s data ->
  runs (fun _ w' => hearing (fun s' => S s' \/ s' = s) w') (deliver_sample peer g s pb data) w.
Proof.
  intros Hh Hs Hv. pose proof Hh as [Hw Ht Hep Hptr (r & Hr & Hview & Hseen)]. eapply runs_mono.
  { apply runs_and.
    - apply runs_carries; [by apply (runs_deliver_sample (strict := true))|by apply carries_deliver_sample|done].
    - by apply (runs_deliver_exact peer g s pb data ep). }
  intros [] w' [(Hst & Ht' & Hgr) [_ Hdel]]. pose proof (hearing_steps _ _ _ Hh Hst Ht' Hgr) as [? ? ? ? (r' & Hr' & Hv' & Hs')].
  split; try done. exists r'. split_and!; [done..|]. intros s' [?| ->]; [by apply Hs'|].
  destruct (Hdel rptr r Hr) as (r1 & Hr1 & He). rewrite Hr' in Hr1. injection Hr1 as <-.
  assert (Em : endpoints_match (r_topic r) (r_type r) (r_qos r) ep = true).
  { rewrite <- Hmatch. unfold reader_view in Hview. congruence. }
  rewrite Em in He. destruct He as (n1 & n2 & ->).
  destruct (po_readers _ (proj1 Hw) rptr r Hr) as [_ Hrok].
  destruct (enqueue_ok r n1 n2 g s data (ep_qos ep) pb Hrok Hs) as (_ & Hseq & _). exact Hseq.
Qed.
Lemma runs_preserves {A X} (F : ParticipantImpl -> X) (P : A -> World T -> Prop) (m : act T A) w :
  runs P m w -> preserves F m -> runs (fun a w' => P a w' /\ F (w_self w') = F (w_self w)) m w.
Proof. unfold runs. intros Hr Hp. destruct (m w) as [[a w']| |] eqn:E; [|done..]. split; [done|by eapply Hp]. Qed.

(** *** A sample in fragments, among other frames *)

Section sample.
Context (peer : PeerId) (s : Z) (p : list Z).
Context (Hours : ours g) (Hpub : pub g s p) (Hp : p <> []) (Hs : fits 64 s).

(** The fragment of this sample a frame carries. *)
Definition own (f : list Z) : option DataFragBody :=
  match decode_data_frag f with Done b => if decide (frag_key b = (g, s)) then Some b else None | _ => None end.

Abbreviation expects w := (key_inv (reassembler_of peer w) (g, s) p).
Abbreviation also S := (fun s' => S s' \/ s' = s).

Lemma expects_same w w' got :
  p_reassemblers (w_self w') = p_reassemblers (w_self w) -> expects w got -> expects w' got.
Proof. unfold reassembler_of. by intros ->. Qed.

(** The outcome of a frame: the sample is delivered, or its fragments so far are known. *)
Definition one_frame (S : Z -> Prop) (got : list DataFragBody) (f : list Z) w' : Prop :=
  hearing (also S) w' \/
  hearing S w' /\ match own f with
                  | Some b => ~ full p (got ++ [b]) /\ expects w' (got ++ [b])
                  | None => expects w' got
                  end.

Lemma runs_one_fragment_frame S f b got w :
  in_traffic f -> decode_data_frag f = Done b -> hearing S w -> expects w got ->
  runs (fun _ w' => one_frame S got f w') (handle_bytes peer f) w.
Proof.
  intros (Hb & Hft & Hna) Hdec Hh Hex. pose proof (he_ok _ _ Hh) as Hw.
  pose proof (safe_Done _ _ _ (decode_data_frag_safe f Hb) Hdec) as Hok.
  pose proof (ft_frag _ _ _ _ Hft b Hdec) as Hv.
  pose proof (reassembler_of_ok peer w Hw) as Hrok.
  apply (handle_frag_frame _ _ _ _ _ Hdec). eapply runs_bind.
  { apply runs_carries; [by apply (runs_reassemble (strict := true))| |apply (he_true _ _ Hh)].
    eapply carries_weaken; [by apply carries_reassemble|done]. }
  intros o w1 [(Hst & r' & n1 & n2 & E & Eself) [Ht1 Hgr1]]. cbv beta. fold (reassembler_of peer w) in E.
  pose proof (hearing_steps _ _ _ Hh Hst Ht1 Hgr1) as Hh1.
  assert (Er' : reassembler_of peer w1 = r').
  { unfold reassembler_of. rewrite Eself. simpl. by rewrite map_find_set_eq. }
  assert (Hvo : match o with Some d => vouched ours pub (frag_writer b) (frag_seq b) d | None => True end).
  { pose proof (st_reassemblers _ _ _ _ (proj1 (he_true _ _ Hh))) as Hre.
    assert (Htrue : reassembler_true ours pub (reassembler_of peer w)).
    { unfold reassembler_of. destruct (map_find peer _) as [r|] eqn:Ef; simpl; [|by split; [apply map_ok_nil|]].
      exact (Hre (peer, r) (map_find_In _ _ _ Ef)). }
    by eapply (add_fragment_true ours pub pub_fun). }
  unfold one_frame, own. rewrite Hdec. destruct (decide (frag_key b = (g, s))) as [Hk|Hk].
  - injection Hk as Ew Es. unfold vouched_frag in Hv. rewrite Ew, Es in *. destruct (Hv Hours) as (d & Hd & Hm).
    rewrite (pub_fun _ _ _ _ Hd Hpub) in Hm.
    destruct (add_fragment_step (reassembler_of peer w) n1 n2 (g, s) p got b Hrok Hok ltac:(by unfold frag_key; rewrite Ew, Es) Hm Hp Hex)
      as (r1 & [(Hf & E1 & _)|(Hnf & E1 & Hinv1)]); rewrite E in E1; injection E1 as -> ->.
    + eapply runs_mono; [by apply (runs_deliver_heard S)|]. intros [] w2 Hh2. by left.
    + apply runs_ret. right. rewrite Er'. by split_and!.
  - destruct (add_fragment_frame (reassembler_of peer w) n1 n2 b Hrok Hok) as (r1 & o1 & E1 & _ & Hne).
    rewrite E in E1. injection E1 as <- <-. assert (Hex1 : expects w1 got).
    { unfold key_inv. rewrite Er', Hne by congruence. exact Hex. }
    destruct o as [d|]; [|apply runs_ret; right; by split].
    eapply runs_mono.
    { apply (runs_preserves p_reassemblers); [|apply deliver_keeps_reassemblers].
      apply runs_carries; [apply (runs_deliver_sample (strict := true)); [apply Hh1|apply Hok..]
        |apply carries_deliver_sample; [apply Hok|apply Hok|done]|apply (he_true _ _ Hh1)]. }
    intros [] w2 [(Hst2 & Ht2 & Hgr2) E2]. right. split; [by eapply hearing_steps|by eapply expects_same].
Qed.

Lemma runs_one_frame S f got w :
  in_traffic f -> hearing S w -> expects w got ->
  runs (fun _ w' => one_frame S got f w') (handle_bytes peer f) w.
Proof.
  intros Hf Hh Hex. destruct (decode_data_frag f) as [b| |] eqn:Hdec; [by eapply runs_one_fragment_frame|..].
  all: eapply runs_mono; [apply (runs_preserves p_reassemblers); [by apply (runs_hearing S)|]|].
  1,3: apply frame_keeps_reassemblers; [apply Hf|by rewrite Hdec].
  all: intros [] w' [Hh' E]; right; unfold own; rewrite Hdec; split; [done|by eapply expects_same].
Qed.

(** Once every fragment has been received, among other frames and in any order, the
    sample has been seen. *)
Lemma runs_heard_fragments S bs fs got w :
  Forall in_traffic fs -> hearing S w -> expects w got -> full p bs ->
  (forall b, b ∈ bs -> b ∈ got \/ exists f, f ∈ fs /\ own f = Some b) ->
  (~ full p got \/ exists f b, f ∈ fs /\ own f = Some b) ->
  runs (fun _ w' => hearing (also S) w') (for_each fs (handle_bytes peer)) w.
Proof.
  intros Hfs. revert got w. induction Hfs as [|f fs Hf Hfs IH]; intros got w Hh Hex Hfull Hall Hdue; cbn [for_each].
  { exfalso. destruct Hdue as [Hnf|(f & b & Hin & _)]; [|by apply not_elem_of_nil in Hin].
    apply Hnf. intros x Hx. specialize (Hfull x Hx). unfold hit in *. rewrite Exists_exists in *.
    destruct Hfull as (b & Hb & Hr). exists b. split; [|done].
    destruct (Hall b Hb) as [?|(f & Hin & _)]; [done|]. by apply not_elem_of_nil in Hin. }
  eapply runs_bind; [by apply (runs_one_frame S f got)|]. intros [] w1 [Hh1|[Hh1 Hcase]].
  { eapply runs_mono; [apply (runs_hearing_all (also S) peer fs w1 Hfs Hh1)|done]. }
  destruct (own f) as [b|] eqn:Eo.
  - destruct Hcase as [Hnf Hex1]. apply (IH (got ++ [b])); [done|done|done| |by left].
    intros b' [?|(f' & Hin & Ef')]%Hall; [left; apply elem_of_app; by left|].
    apply elem_of_cons in Hin as [-> |Hin]; [left; rewrite Eo in Ef'; injection Ef' as ->; apply elem_of_app; right; by left|].
    right. by exists f'.
  - apply (IH got); [done|done|done|..].
    + intros b' [?|(f' & Hin & Ef')]%Hall; [by left|]. right. apply elem_of_cons in Hin as [-> |Hin]; [congruence|]. by exists f'.
    + destruct Hdue as [?|(f' & b' & Hin & Ef')]; [by left|]. right.
      apply elem_of_cons in Hin as [-> |Hin]; [congruence|]. by exists f', b'.
Qed.
End sample.

(** *** The whole answer *)

Lemma partial_known peer s p w :
  true_world w -> ours g -> pub g s p -> exists got, key_inv (reassembler_of peer w) (g, s) p got.
Proof.
  intros Ht Ho Hpub. unfold key_inv, reassembler_of. destruct (map_find peer (p_reassemblers (w_self w))) as [r|] eqn:Er.
  - simpl. destruct (map_find (g, s) (partials r)) as [q|] eqn:Eq; [|by exists []].
    destruct (st_reassemblers _ _ _ _ (proj1 Ht) _ (map_find_In _ _ _ Er)) as [_ Hr].
    destruct (Hr _ _ Eq) as [_ Hq]. destruct (Hq Ho) as (d & bs & Hd & Hi).
    rewrite (pub_fun _ _ _ _ Hpub Hd). by exists bs.
  - by exists [].
Qed.

(** A sample of which every frame is received, among others, has been seen. *)
Lemma runs_heard_sample S peer s pb p flags max_p frames fs w :
  ours g -> pub g s p -> fits 64 s -> fits 64 pb -> fits 16 flags -> bytes_ok p -> 64 + len p < 2 ^ 32 -> 57 <= max_p ->
  fragment g s pb (Some p) (len p) max_p flags = Done frames ->
  Forall in_traffic fs -> (forall f, f ∈ frames -> f ∈ fs) -> hearing S w ->
  runs (fun _ w' => hearing (fun s' => S s' \/ s' = s) w') (for_each fs (handle_bytes peer)) w.
Proof.
  intros Ho Hpub Hs Hpb Hf Hp Hl Hmax Hfr Hfs Hsub Hh.
  destruct (Z.le_gt_cases (48 + len p) max_p) as [Hone|Hmany].
  - rewrite (fragment_single g s pb flags max_p p) in Hfr by done. injection Hfr as <-.
    eapply (runs_heard S); [done|apply Hsub; left|done|]. intros w1 Hh1.
    pose proof (decode_data_bytes g s pb p flags None [] Hg Hs Hpb Hl Hf I) as Hdec.
    rewrite app_nil_r in Hdec. apply (handle_data_frame _ _ _ _ _ Hdec).
    apply runs_deliver_heard; [done|done|by intros _].
  - destruct (fragment_many g s pb flags max_p p Hg Hs Hpb Hf Hl) as (fs0 & bs & E & HF & HT & HA & _); [lia..|].
    rewrite Hfr in E. injection E as <-.
    assert (Hne : p <> []) by (intros ->; simpl in Hmany; lia).
    assert (Hown : forall b, b ∈ bs -> exists f, f ∈ fs /\ own s f = Some b).
    { intros b Hb. destruct (Forall2_in_r _ _ _ _ HF Hb) as (f & Hin & Hdec). exists f. split; [by apply Hsub|].
      specialize (Hdec []). rewrite app_nil_r in Hdec. unfold own. rewrite Hdec. rewrite Forall_forall in HA.
      destruct (HA b Hb) as (Ew & Es & _). unfold frag_key. by rewrite Ew, Es, decide_True. }
    destruct (partial_known peer s p w (he_true _ _ Hh) Ho Hpub) as [got Hgot].
    eapply (runs_heard_fragments peer s p Ho Hpub Hne Hs S bs); try done.
    + intros x Hx. by eapply (tiles_full 0 p).
    + intros b Hb. right. by apply Hown.
    + right. destruct bs as [|b bs]; [by simpl in HT|]. destruct (Hown b) as (f & ? & ?); [left|]. by exists f, b.
Qed.

(** A GAP addressed to the reader. *)
Lemma runs_heard_gap S peer start stop f fs w :
  decode_gap f = Done (mkGap g (r_guid r0) start stop) -> start <= stop -> fits 64 stop ->
  Forall in_traffic fs -> f ∈ fs -> hearing S w ->
  runs (fun _ w' => hearing (fun s' => S s' \/ s' <= stop) w') (for_each fs (handle_bytes peer)) w.
Proof.
  intros Hdec Hle Hstop Hfs Hin Hh. eapply (runs_heard S); [done|exact Hin|done|]. intros w1 Hh1.
  rewrite Forall_forall in Hfs. eapply runs_mono.
  { apply (runs_and (fun _ w' => hearing S w') (fun _ w' => exists r', map_find rptr (p_readers (w_self w')) = Some r' /\
      forall s, s <= stop \/ (exists r, map_find rptr (p_readers (w_self w1)) = Some r /\ seen (rx_of r g) s) ->
        seen (rx_of r' g) s)).
    - apply (runs_hearing S); [by apply Hfs|done].
    - destruct (decode_gap_header _ _ Hdec) as (h & Eh & Ety). unfold handle_bytes.
      apply (runs_decoded_done _ _ _ _ _ Eh). rewrite Ety. unfold handle_gap.
      apply (runs_decoded_done _ _ _ _ _ Hdec). cbn [gap_end gap_start gap_reader gap_writer].
      rewrite (proj2 (Z.ltb_ge _ _)) by done. apply runs_modify. simpl. rewrite (he_ptr _ _ Hh1).
      destruct (he_reader _ _ Hh1) as (r & Hr & _). simpl. rewrite map_find_adjust, decide_True, Hr by done.
      eexists. split; [reflexivity|].
      destruct (po_readers _ (proj1 (he_ok _ _ Hh1)) rptr r Hr) as [_ Hrok].
      destruct (gap_ok r g start stop Hrok Hstop) as (_ & H1 & H2).
      intros s [?|(r1 & [= <-] & Hs1)]; [by apply H1|by apply H2]. }
  intros [] w2 [Hh2 (r' & Hr' & Hs)]. pose proof Hh2 as [? ? ? ? (r2 & Hr2 & Hv & Hs2)].
  rewrite Hr' in Hr2. injection Hr2 as <-. split; try done. exists r'. split_and!; [done..|].
  intros s [?|?]; [by apply Hs2|]. apply Hs. by left.
Qed.
End hearing.

(** ** The exchange in a network *)

Section exchange.
Context {T : Type} `{LoggedTransport T}.
Implicit Types (n : Net (T := T)) (w : World T).

Lemma handle_heartbeat_frame peer f b w :
  decode_heartbeat f = Done b -> handle_bytes peer f w = handle_heartbeat peer f w.
Proof.
  intros E. destruct (decode_heartbeat_header _ _ E) as (h & Eh & Ety).
  unfold handle_bytes, mbind at 1, act_bind at 1, decoded at 1. by rewrite Eh, Ety.
Qed.

Lemma handle_acknack_frame peer f b w :
  decode_acknack f = Done b -> handle_bytes peer f w = handle_acknack peer f w.
Proof.
  intros E. destruct (decode_acknack_header _ _ E) as (h & Eh & Ety).
  unfold handle_bytes, mbind at 1, act_bind at 1, decoded at 1. by rewrite Eh, Ety.
Qed.

Lemma handed_elem w w' l (peer : PeerId) f :
  handed w w' l -> (peer, f) ∈ l -> (peer_backend_id peer, f) ∈ log w' (peer_index peer).
Proof.
  intros Hh Hin. rewrite (hd_log _ _ _ Hh). apply elem_of_app. right. unfold through.
  apply (list_elem_of_fmap_2 (fun pf => (peer_backend_id pf.1, pf.2)) _ (peer, f)), list_elem_of_filter. by split.
Qed.

Lemma same_peer (peer : PeerId) (l : list (PeerId * list Z)) :
  Forall (fun pf => pf.1 = peer) l -> l = (fun f => (peer, f)) <$> l.*2.
Proof. induction 1 as [|[q f] l Hq Hl IH]; [done|]. simpl in *. by subst q; f_equal. Qed.

Lemma answer_peer w peer wr ep ack : Forall (fun pf => pf.1 = peer) (answer_frames w peer wr ep ack).
Proof.
  unfold answer_frames. destruct (acknack_scan _ _ _ _ _) as [resend u]. apply Forall_app. split.
  - apply Forall_forall. intros pf (l & Hl & Hpf)%list_elem_of_In%in_concat.
    apply list_elem_of_In, list_elem_of_fmap in Hl as (e & -> & _). apply list_elem_of_In in Hpf.
    by apply list_elem_of_fmap in Hpf as (f & -> & _).
  - case_if; [by apply Forall_singleton|constructor].
Qed.

(** *** The writer's turn *)

(** An announce turn hands every peer the heartbeat of a reliable writer with a history. *)
Lemma tick_heartbeat w ptr wr peer :
  world_ok w -> ready w (p_peers (w_self w)) -> peer ∈ p_peers (w_self w) ->
  fits 64 (p_announce_seq (w_self w)) -> p_announce_seq (w_self w) + 1 < 2 ^ 64 ->
  map_find ptr (p_writers (w_self w)) = Some wr -> reliability (w_qos wr) = RELIABLE -> w_history wr <> [] ->
  exists first w1, run_op AnnounceTick w = Done (tt, w1) /\ fits 64 first /\
    (exists l, handed w w1 l) /\
    (peer_backend_id peer, heartbeat_bytes (w_guid wr) first (w_seq wr)) ∈ log w1 (peer_index peer) /\
    ticked_self (w_self w) (w_self w1).
Proof.
  intros Hw Hr Hpeer Hfit Hlt Hwr Hrel Hne.
  destruct (encode_announce_total (snapshot_locked (w_self w)) (p_announce_seq (w_self w) + 1)) as [f Ef].
  pose proof (runs_announce_tick_log w f Hw Hr Hfit Hlt Ef) as Ht. unfold runs in Ht. simpl.
  destruct (announce_tick w) as [[[] w1]| |]; [|done..]. destruct Ht as [Hh Hself].
  destruct (w_history wr) as [|e h] eqn:Eh; [done|].
  pose proof (wo_cached _ (po_writers _ (proj1 Hw) _ _ Hwr)) as Hc. rewrite Eh in Hc. apply Forall_inv in Hc.
  exists (cs_seq e), w1. split_and!; [done|apply Hc|by eexists| |done].
  apply (handed_elem w w1 _ _ _ Hh). unfold tick_frames. apply elem_of_app. right.
  apply list_elem_of_In, in_concat. eexists. split; [apply list_elem_of_In, list_elem_of_fmap; exists peer; by split|].
  apply list_elem_of_In, list_elem_of_fmap. exists (w_guid wr, cs_seq e, w_seq wr). split; [done|].
  unfold heartbeats. apply list_elem_of_omap. exists (ptr, wr). split; [by apply map_find_In|].
  simpl. by rewrite Hrel, bool_decide_true, Eh.
Qed.

(** *** The reader's request *)

(** The ACKNACK of a reader that is behind. *)
Definition request (r : ReaderImpl) (g : Guid) : AckNackBody :=
  mkAckNack (r_guid r) g (last_seq (rx_of r g) + 1) (window (rx_of r g)).
Definition request_bytes (r : ReaderImpl) (g : Guid) : list Z :=
  acknack_bytes (r_guid r) g (last_seq (rx_of r g) + 1) (window (rx_of r g)).

Lemma heartbeat_request wb rptr r g ep first last peer :
  world_ok wb -> ready wb [peer] -> guid_ok g -> fits 64 first -> fits 64 last ->
  map_find rptr (p_readers (w_self wb)) = Some r -> reliability (r_qos r) = RELIABLE ->
  find_remote_endpoint_locked (w_self wb) g = Some ep -> endpoints_match (r_topic r) (r_type r) (r_qos r) ep = true ->
  last_seq (rx_of r g) < last ->
  exists wb1, run_op (Receive peer (heartbeat_bytes g first last)) wb = Done (tt, wb1) /\
    (peer_backend_id peer, request_bytes r g) ∈ log wb1 (peer_index peer) /\
    exists now, w_self wb1 = set_last_seen (w_self wb) (map_set g now (p_writer_last_seen (w_self wb))).
Proof.
  intros Hw Hr Hg Hf Hl Hrd Hrel Hep Hm Hlt.
  pose proof (decode_heartbeat_bytes g first last [] Hg Hf Hl) as Hdec. rewrite app_nil_r in Hdec.
  pose proof (runs_heartbeat_answer peer _ _ ep wb Hw Hr Hdec Hg Hep) as Ha. unfold runs in Ha.
  simpl run_op. rewrite (handle_heartbeat_frame _ _ _ _ Hdec).
  destruct (handle_heartbeat peer _ wb) as [[[] wb1]| |]; [|done..]. destruct Ha as [Hh Hself].
  exists wb1. split_and!; [done| |done]. apply (handed_elem _ _ _ _ _ Hh). unfold nack_frames. apply list_elem_of_fmap.
  exists (r_guid r, last_seq (rx_of r g) + 1, window (rx_of r g)). split; [done|].
  unfold nacks_due. apply list_elem_of_omap. exists (rptr, r). split; [by apply map_find_In|]. simpl.
  rewrite bool_decide_true, Hm by done. simpl.
  destruct (po_readers _ (proj1 Hw) rptr r Hrd) as [_ Hrok].
  rewrite nack_state_eq by (done || ulia). by rewrite (proj2 (Z.leb_le _ _)) by lia.
Qed.

(** *** The writer's answer *)

Lemma request_ok r g :
  local_reader_ok r -> guid_ok g -> last_seq (rx_of r g) + 65 <= 2 ^ 64 ->
  decode_acknack (request_bytes r g) = Done (request r g) /\ bytes_ok (request_bytes r g).
Proof.
  intros [Hgr Hrok] Hg Hl. destruct (Hrok g) as [Hls Hwin _].
  pose proof (decode_acknack_bytes (r_guid r) g (last_seq (rx_of r g) + 1) (window (rx_of r g)) [] Hgr Hg) as Hdec.
  rewrite app_nil_r in Hdec. split; [apply Hdec; [ulia|done]|].
  eapply (encode_acknack_bytes_ok (r_guid r) g); [done|done|by apply encode_acknack_bytes].
Qed.

Lemma request_answer w ptr wr r rep peer :
  world_ok w -> guids_ok (w_self w) -> ready w [peer] -> local_reader_ok r ->
  last_seq (rx_of r (w_guid wr)) + 65 <= 2 ^ 64 ->
  map_find ptr (p_writers (w_self w)) = Some wr ->
  find_remote_endpoint_locked (w_self w) (r_guid r) = Some rep ->
  let answer := (answer_frames w peer wr rep (request r (w_guid wr))).*2 in
  exists w2, run_op (Receive peer (request_bytes r (w_guid wr))) w = Done (tt, w2) /\ w_self w2 = w_self w /\
    log w2 (peer_index peer) = log w (peer_index peer) ++ ((fun f => (peer_backend_id peer, f)) <$> answer).
Proof.
  intros Hw Hgo Hr Hrok Hl Hwr Hrep answer. pose proof (wo_guid _ (po_writers _ (proj1 Hw) _ _ Hwr)) as Hg.
  destruct (request_ok r (w_guid wr) Hrok Hg Hl) as [Hdec _].
  assert (Hptr : find_writer_locked (w_self w) (w_guid wr) = Some ptr).
  { apply find_by_guid; [|done]. pose proof (go_nodup _ Hgo) as Hnd. by apply NoDup_app in Hnd as (? & _). }
  pose proof (runs_acknack_answer peer _ _ ptr wr rep w Hw Hr Hdec (proj1 Hrok) Hg Hptr Hwr Hrep) as Ha.
  unfold runs in Ha. simpl run_op. rewrite (handle_acknack_frame _ _ _ _ Hdec).
  destruct (handle_acknack peer _ w) as [[[] w2]| |]; [|done..]. destruct Ha as [Hh Es].
  exists w2. split_and!; [done|done|]. rewrite (hd_log _ _ _ Hh). f_equal.
  rewrite (same_peer peer _ (answer_peer w peer wr rep (request r (w_guid wr)))). by rewrite through_peer.
Qed.

(** *** The reader hears the answer *)

Lemma fragment_no_announce g s pb p max_p flags fs :
  guid_ok g -> fits 64 s -> fits 64 pb -> fits 16 flags -> 64 + len p < 2 ^ 32 ->
  fragment g s pb (Some p) (len p) max_p flags = Done fs -> Forall no_announce fs.
Proof.
  intros Hg Hs Hpb Hf Hl Hfs.
  assert (Hhd : forall f h, decode_header f = Done h -> hdr_type h <> ANNOUNCE -> no_announce f).
  { intros f h Eh Ht h' Eh'. congruence. }
  destruct (Z.le_gt_cases (48 + len p) max_p) as [Hone|Hmany].
  - rewrite (fragment_single g s pb flags max_p p) in Hfs by done. injection Hfs as <-. apply Forall_singleton.
    pose proof (decode_data_bytes g s pb p flags None [] Hg Hs Hpb Hl Hf I) as Hdec. rewrite app_nil_r in Hdec.
    destruct (decode_data_header _ _ Hdec) as (h & Eh & Et). eapply Hhd; [exact Eh|]. by rewrite Et.
  - destruct (Z.le_gt_cases max_p 56) as [Hn|Hn].
    { rewrite (fragment_too_narrow g s pb flags max_p p) in Hfs by done. by injection Hfs as <-. }
    destruct (fragment_many g s pb flags max_p p Hg Hs Hpb Hf Hl Hn Hmany) as (fs0 & bs & E & HF & _).
    rewrite Hfs in E. injection E as <-. apply Forall_forall. intros f Hin.
    apply list_elem_of_lookup in Hin as [k Hk]. destruct (Forall2_lookup_l _ _ _ _ _ HF Hk) as (b & _ & Hdec).
    specialize (Hdec []). rewrite app_nil_r in Hdec. destruct (decode_data_frag_header _ _ Hdec) as (h & Eh & Et).
    eapply Hhd; [exact Eh|]. by rewrite Et.
Qed.

Section answer.
Context (w : World T) (peer : PeerId) (wr : WriterImpl) (r : ReaderImpl) (rep : EndpointRecord).
Context (Hwr : writer_ok wr) (Hr : local_reader_ok r) (Hl : last_seq (rx_of r (w_guid wr)) + 65 <= 2 ^ 64).
Context (Hlim : 57 <= limit w peer).

Let g := w_guid wr.
Let st := rx_of r g.
Let clamp := bool_decide (durability (ep_qos rep) = VOLATILE).
Let scan := acknack_scan wr clamp (ep_birth_us rep) (last_seq st + 1) (window st).

Definition answer : list (list Z) := (answer_frames w peer wr rep (request r (w_guid wr))).*2.

Lemma last_seq_nonneg : 0 <= last_seq st.
Proof. destruct (proj2 Hr g) as [[? _] _ _]. done. Qed.

Lemma sample_frames_of e :
  e ∈ w_history wr -> exists fs,
    fragment g (cs_seq e) (cs_pub_time_ms e) (Some (cs_data e)) (len (cs_data e)) (limit w peer)
      (reliable_flag (w_qos wr)) = Done fs /\
    (sample_for w g (cs_seq e) (cs_pub_time_ms e) (cs_data e) (reliable_flag (w_qos wr)) peer).*2 = fs.
Proof.
  intros He. pose proof (wo_cached _ Hwr) as Hc. rewrite Forall_forall in Hc. destruct (Hc e He) as (? & ? & _ & ?).
  destruct (fragment_total g (cs_seq e) (cs_pub_time_ms e) (reliable_flag (w_qos wr)) (limit w peer) (cs_data e)
    (wo_guid _ Hwr) ltac:(done) ltac:(done) (reliable_flag_fits _) ltac:(done)) as [fs E].
  exists fs. split; [done|]. unfold sample_for, sample_frames. rewrite (proj2 (Z.eqb_neq _ _)), E by lia.
  rewrite <- list_fmap_compose. apply list_fmap_id.
Qed.

(** The frames of the answer: those of the samples sent again, and the GAP. *)
Lemma elem_of_answer f :
  f ∈ answer <->
  (exists e, e ∈ fst scan /\
     f ∈ (sample_for w g (cs_seq e) (cs_pub_time_ms e) (cs_data e) (reliable_flag (w_qos wr)) peer).*2) \/
  0 < snd scan /\ f = gap_bytes g (r_guid r) (last_seq st + 1) (snd scan).
Proof.
  unfold answer, answer_frames. cbn [ack_base_seq ack_bitmap ack_writer ack_reader request].
  fold g clamp. fold st. fold scan. destruct scan as [resend u]. cbn [fst snd]. rewrite fmap_app, elem_of_app.
  apply ZifyClasses.or_morph.
  - rewrite list_elem_of_fmap. split.
    + intros (pf & -> & (l & Hl' & Hpf)%list_elem_of_In%in_concat). apply list_elem_of_In in Hpf.
      apply list_elem_of_In, list_elem_of_fmap in Hl' as (e & -> & He). exists e. split; [done|].
      by apply list_elem_of_fmap_2.
    + intros (e & He & (pf & -> & Hpf)%list_elem_of_fmap). exists pf. split; [done|].
      apply list_elem_of_In, in_concat. eexists. split; [|by apply list_elem_of_In].
      apply list_elem_of_In, list_elem_of_fmap. by exists e.
  - case_if; zbool.
    + cbn. rewrite list_elem_of_singleton. intuition.
    + cbn. split; [by intros ?%not_elem_of_nil|lia].
Qed.

Lemma scan_resend e : e ∈ fst scan -> e ∈ w_history wr.
Proof.
  destruct (acknack_scan_within wr clamp (ep_birth_us rep) (last_seq st + 1) (window st)) as [Hre _].
  rewrite Forall_forall in Hre. apply Hre.
Qed.

Lemma scan_range : snd scan = 0 \/ last_seq st + 1 <= snd scan < last_seq st + 1 + 64.
Proof.
  pose proof last_seq_nonneg as Hpos. assert (Hl' : last_seq st + 65 <= 2 ^ 64) by exact Hl.
  destruct (unavail_end_source wr clamp (ep_birth_us rep) (last_seq st + 1) (window st) ltac:(lia) ltac:(lia))
    as [E|[? _]]; [by left|by right].
Qed.

Lemma scan_gap : fits 64 (snd scan).
Proof.
  pose proof last_seq_nonneg as Hpos. assert (Hl' : last_seq st + 65 <= 2 ^ 64) by exact Hl.
  destruct scan_range; ulia.
Qed.

Lemma gap_decodes : decode_gap (gap_bytes g (r_guid r) (last_seq st + 1) (snd scan)) =
  Done (mkGap g (r_guid r) (last_seq st + 1) (snd scan)).
Proof.
  pose proof last_seq_nonneg as Hpos. rewrite <- (app_nil_r (gap_bytes _ _ _ _)).
  assert (Hl' : last_seq st + 65 <= 2 ^ 64) by exact Hl.
  apply decode_gap_bytes; [apply (wo_guid _ Hwr)|apply Hr|ulia|apply scan_gap].
Qed.

Lemma answer_wire f : f ∈ answer -> bytes_ok f /\ no_announce f.
Proof.
  rewrite elem_of_answer. intros [(e & He & Hf)|[_ ->]].
  - apply scan_resend in He. destruct (sample_frames_of e He) as (fs & E & Efs). rewrite Efs in Hf.
    pose proof (wo_cached _ Hwr) as Hc. rewrite Forall_forall in Hc. destruct (Hc e He) as (Hs & Hpb & Hb & Hlen).
    pose proof (fragment_bytes_ok _ _ _ _ _ _ _ _ (wo_guid _ Hwr) Hb E) as Hwire.
    pose proof (fragment_no_announce g _ _ _ _ _ _ (wo_guid _ Hwr) Hs Hpb (reliable_flag_fits _) Hlen E) as Hna.
    rewrite Forall_forall in Hwire, Hna. auto.
  - split.
    + eapply encode_gap_bytes_ok; [apply (wo_guid _ Hwr)|apply Hr|]. apply encode_gap_bytes; [apply (wo_guid _ Hwr)|apply Hr].
    + destruct (decode_gap_header _ _ gap_decodes) as (h & Eh & Et). intros h' Eh'. congruence.
Qed.
(** What the reader must have seen in the end. *)
Definition repaired (s : Z) : Prop := s <= last_seq st + 64 /\ (s <= w_seq wr \/ seen st s).

Section heard.
Context n (Hn : net_ok n) (wa wb : World T) (ptr rptr : Z) (ep : EndpointRecord).
Context (Hwa : wa ∈ net_nodes n) (Hwb : wb ∈ net_nodes n).
Context (Hptr : map_find ptr (p_writers (w_self wa)) = Some wr) (Hne : w_history wr <> []).
Context (Hrptr : map_find rptr (p_readers (w_self wb)) = Some r).
Context (Hep : find_remote_endpoint_locked (w_self wb) g = Some ep).
Context (Hm : endpoints_match (r_topic r) (r_type r) (r_qos r) ep = true).

Abbreviation traffic := (in_traffic (ours n) (published n) (announced n)).
Abbreviation hears := (hearing (ours n) (published n) (announced n) g ep rptr r).

Let pub_one g' s d d' : published n g' s d -> published n g' s d' -> d = d' := published_fun n g' s d d' Hn.

Lemma writer_ours : ours n g.
Proof.
  destruct (writer_prefix wa (ptr, wr) (no_session _ Hn wa Hwa) (map_find_In _ _ _ Hptr)) as (_ & _ & _ & _ & _ & E).
  simpl in E. fold g in E. unfold ours. rewrite E. by apply (list_elem_of_fmap_2 (fun w => p_prefix (w_self w))).
Qed.

Lemma hears_start : hears (seen st) wb.
Proof.
  pose proof (no_session _ Hn wb Hwb) as [Hwbok Hgo]. split; [done|by apply (no_true _ Hn)|done| |].
  - apply find_by_guid; [|done]. pose proof (go_nodup _ Hgo) as Hnd. by apply NoDup_app in Hnd as (_ & _ & ?).
  - by exists r.
Qed.

Lemma hears_resent from fs s e :
  Forall traffic fs -> (forall f, f ∈ answer -> f ∈ fs) -> e ∈ fst scan -> cs_seq e = s ->
  runs (fun _ w' => hears (fun s' => seen st s' \/ s' = s) w') (for_each fs (handle_bytes from)) wb.
Proof.
  intros Hfs Hsub He <-. pose proof (scan_resend e He) as Hin.
  destruct (sample_frames_of e Hin) as (frames & E & Ef).
  pose proof (wo_cached _ Hwr) as Hc. rewrite Forall_forall in Hc. destruct (Hc e Hin) as (Hs & Hpb & Hb & Hlen).
  pose proof (st_writers _ _ _ _ (proj1 (no_true _ Hn wa Hwa)) _ (map_find_In _ _ _ Hptr)) as [_ Hhist].
  rewrite Forall_forall in Hhist. destruct (Hhist e Hin) as [_ Hv].
  eapply (runs_heard_sample (ours n) (published n) (announced n) pub_one
    g ep rptr r (wo_guid _ Hwr) Hm (seen st) from (cs_seq e) (cs_pub_time_ms e) (cs_data e)
    (reliable_flag (w_qos wr)) (limit w peer) frames); try done;
    [apply writer_ours|apply Hv, writer_ours|apply reliable_flag_fits| |apply hears_start].
  intros f Hf. apply Hsub, elem_of_answer. left. exists e. split; [done|]. by rewrite Ef.
Qed.

Lemma hears_gap from fs :
  Forall traffic fs -> (forall f, f ∈ answer -> f ∈ fs) -> 0 < snd scan ->
  runs (fun _ w' => hears (fun s' => seen st s' \/ s' <= snd scan) w') (for_each fs (handle_bytes from)) wb.
Proof.
  intros Hfs Hsub Hu.
  assert (Hle : last_seq st + 1 <= snd scan).
  { destruct scan_range; lia. }
  eapply (runs_heard_gap (ours n) (published n) (announced n) pub_one g ep rptr r (seen st) from (last_seq st + 1) (snd scan));
    [apply gap_decodes|done|apply scan_gap|done| |apply hears_start].
  apply Hsub, elem_of_answer. by right.
Qed.

(** Every number asked for is heard, one way or the other. *)
Lemma hears_number from fs s :
  Forall traffic fs -> (forall f, f ∈ answer -> f ∈ fs) -> repaired s ->
  runs (fun _ w' => hears (fun s' => s' = s) w') (for_each fs (handle_bytes from)) wb.
Proof.
  intros Hfs Hsub [Hs Hcase]. pose proof last_seq_nonneg as Hpos. assert (Hl' : last_seq st + 65 <= 2 ^ 64) by exact Hl.
  destruct (decide (seen st s)) as [Hseen|Hns].
  { eapply runs_mono; [apply (runs_hearing_all (ours n) (published n) (announced n) pub_one g ep rptr r (seen st) from fs wb Hfs hears_start)|].
    intros [] w'. apply hearing_mono. by intros s' ->. }
  destruct Hcase as [Hle|?]; [|done]. assert (Hlow : last_seq st < s).
  { destruct (Z.le_gt_cases s (last_seq st)); [|done]. exfalso. apply Hns. by left. }
  assert (Hreq : requested (last_seq st + 1) (window st) s = true).
  { unfold requested. destruct (Z.testbit _ _) eqn:Hbit; [|done]. exfalso. apply Hns. right.
    by replace (s - last_seq st - 1) with (s - (last_seq st + 1)) by lia. }
  destruct (acknack_answers wr clamp (ep_birth_us rep) (last_seq st + 1) (window st) ltac:(lia) ltac:(lia) s
    (wo_history _ Hwr) Hne ltac:(lia) Hle Hreq) as [(e & He & Ee)|Hu].
  - eapply runs_mono; [by apply (hears_resent from fs s e)|]. intros [] w'. apply hearing_mono. intros s' ->. by right.
  - fold scan in Hu. eapply runs_mono; [apply (hears_gap from fs); [done|done|lia]|].
    intros [] w'. apply hearing_mono. intros s' ->. by right.
Qed.

Lemma answer_heard from fs :
  Forall traffic fs -> (forall f, f ∈ answer -> f ∈ fs) ->
  runs (fun _ w' => exists r', map_find rptr (p_readers (w_self w')) = Some r' /\
      forall s, repaired s -> seen (rx_of r' g) s)
    (for_each fs (handle_bytes from)) wb.
Proof.
  intros Hfs Hsub. pose proof (fun s => hears_number from fs s Hfs Hsub) as Hall.
  pose proof (runs_hearing_all (ours n) (published n) (announced n) pub_one g ep rptr r (seen st) from fs wb Hfs hears_start) as H0'.
  unfold runs in *. destruct (for_each fs (handle_bytes from) wb) as [[[] w']| |]; [|done..].
  destruct (he_reader _ _ _ _ _ _ _ _ _ H0') as (r' & Hr' & _). exists r'. split; [done|]. intros s Hs.
  destruct (he_reader _ _ _ _ _ _ _ _ _ (Hall s Hs)) as (r1 & Hr1 & _ & Hseen).
  rewrite Hr' in Hr1. injection Hr1 as <-. by apply Hseen.
Qed.
End heard.
End answer.

(** *** One call each *)

Section rounds.
Context (N : PoolNet (T := T)) (i j : nat) (Pi Pj : Pool T) (ptr rptr : Z) (wr : WriterImpl) (r : ReaderImpl) (ep rep : EndpointRecord).
Context (peer_b peer_a : PeerId).
Abbreviation w := (pool_world Pi).
Abbreviation wb := (pool_world Pj).
Context (HN : pool_net_ok N) (Hij : i <> j) (Hi : pn_pools N !! i = Some Pi) (Hj : pn_pools N !! j = Some Pj).
Context (Hci : calm Pi) (Hcj : calm Pj).
Context (Hra : ready w (p_peers (w_self w))) (Hpb : peer_b ∈ p_peers (w_self w)) (Hrb : ready wb [peer_a]).
Context (Hseq : p_announce_seq (w_self w) + 2 < 2 ^ 64).
Context (Hwr : map_find ptr (p_writers (w_self w)) = Some wr) (Hrel : reliability (w_qos wr) = RELIABLE).
Context (Hne : w_history wr <> []).
Context (Hrd : map_find rptr (p_readers (w_self wb)) = Some r) (Hrrel : reliability (r_qos r) = RELIABLE).
Context (Hep : find_remote_endpoint_locked (w_self wb) (w_guid wr) = Some ep).
Context (Hm : endpoints_match (r_topic r) (r_type r) (r_qos r) ep = true).
Context (Hrep : find_remote_endpoint_locked (w_self w) (r_guid r) = Some rep).
Context (Hbehind : last_seq (rx_of r (w_guid wr)) < w_seq wr) (Hl : last_seq (rx_of r (w_guid wr)) + 65 <= 2 ^ 64).

Let node_ok k P : pn_pools N !! k = Some P -> session_ok (pool_world P) :=
  fun Hk => no_session _ (pn_net _ HN) _ (net_of_node _ _ _ Hk).

Lemma start_wr : writer_ok wr.
Proof. exact (po_writers _ (proj1 (proj1 (node_ok _ _ Hi))) _ _ Hwr). Qed.
Lemma start_r : local_reader_ok r.
Proof. exact (po_readers _ (proj1 (proj1 (node_ok _ _ Hj))) _ _ Hrd). Qed.

(** The two participants after the announce turn and the heartbeat's receipt. *)
Definition ticked_pool w1 : Pool T := after_call AnnounceTick w1 Pi.
Definition asked_pool hb wb1 : Pool T := after_call (Receive peer_a hb) wb1 Pj.
Definition asked_net hb w1 wb1 : PoolNet := put j (put i N (ticked_pool w1)) (asked_pool hb wb1).

(** The announce turn and the heartbeat's receipt. *)
Lemma rounds_request : exists hb w1 wb1,
  run_op AnnounceTick w = Done (tt, w1) /\ (peer_backend_id peer_b, hb) ∈ log w1 (peer_index peer_b) /\
  run_op (Receive peer_a hb) wb = Done (tt, wb1) /\
  (peer_backend_id peer_a, request_bytes r (w_guid wr)) ∈ log wb1 (peer_index peer_a) /\
  (rtc pool_step N (asked_net hb w1 wb1) /\ pool_net_ok (asked_net hb w1 wb1) /\ calm (ticked_pool w1)) /\
  (exists l, handed w w1 l) /\ ticked_self (w_self w) (w_self w1) /\
  exists now, w_self wb1 = set_last_seen (w_self wb) (map_set (w_guid wr) now (p_writer_last_seen (w_self wb))).
Proof.
  pose proof (st_seq _ _ _ _ (proj1 (no_true _ (pn_net _ HN) w (net_of_node _ _ _ Hi)))) as Hfa.
  destruct (tick_heartbeat w ptr wr peer_b (proj1 (node_ok _ _ Hi)) Hra Hpb Hfa ltac:(lia) Hwr Hrel Hne)
    as (first & w1 & E1 & Hff & Hh1 & Hlog1 & Es1).
  set (hb := heartbeat_bytes (w_guid wr) first (w_seq wr)) in *.
  pose proof (ho_seq _ (wo_history _ start_wr)) as Hfs. pose proof (wo_guid _ start_wr) as Hg.
  destruct (heartbeat_request wb rptr r (w_guid wr) ep first (w_seq wr) peer_a (proj1 (node_ok _ _ Hj)) Hrb Hg Hff Hfs
    Hrd Hrrel Hep Hm Hbehind) as (wb1 & E2 & Hlog2 & Es2).
  destruct (calm_call N i Pi AnnounceTick w1) as (H1 & HN1 & Hc1); try done. fold (ticked_pool w1) in *.
  destruct (calm_call (put i N (ticked_pool w1)) j Pj (Receive peer_a hb) wb1) as (H2 & HN2 & _); try done.
  - by rewrite put_other.
  - apply calm_spawn; try done. eapply (encode_heartbeat_bytes_ok (w_guid wr)); [done|by apply encode_heartbeat_bytes].
  - left. apply (log_in_flight _ w1 (peer_index peer_b) (peer_backend_id peer_b, hb)); [|done].
    eapply (net_of_node _ i (ticked_pool w1)). by eapply put_same.
  - exists hb, w1, wb1. split_and!; try done. exact (transitivity H1 H2).
Qed.

(** The ACKNACK's receipt. *)
Lemma rounds_answer : exists hb w1 wb1 w2,
  run_op AnnounceTick w = Done (tt, w1) /\ (peer_backend_id peer_b, hb) ∈ log w1 (peer_index peer_b) /\
  run_op (Receive peer_a hb) wb = Done (tt, wb1) /\
  (peer_backend_id peer_a, request_bytes r (w_guid wr)) ∈ log wb1 (peer_index peer_a) /\
  run_op (Receive peer_b (request_bytes r (w_guid wr))) w1 = Done (tt, w2) /\
  log w2 (peer_index peer_b) = log w1 (peer_index peer_b) ++
    ((fun f => (peer_backend_id peer_b, f)) <$> answer w1 peer_b wr r rep) /\
  (let N3 := put i (asked_net hb w1 wb1) (after_call (Receive peer_b (request_bytes r (w_guid wr))) w2 (ticked_pool w1)) in
   rtc pool_step N N3 /\ pool_net_ok N3) /\
  limit w1 peer_b = limit w peer_b /\ map_find ptr (p_writers (w_self w2)) = Some wr /\
  exists now, w_self wb1 = set_last_seen (w_self wb) (map_set (w_guid wr) now (p_writer_last_seen (w_self wb))).
Proof.
  destruct rounds_request as (hb & w1 & wb1 & E1 & Hlog1 & E2 & Hlog2 & (Hrun & HN2 & Hc1) & [l Hh1] & [m Es1] & Es2).
  set (N2 := asked_net hb w1 wb1) in *.
  assert (Hi2 : pn_pools N2 !! i = Some (ticked_pool w1)).
  { unfold N2, asked_net. rewrite put_other by done. by eapply put_same. }
  pose proof (no_session _ (pn_net _ HN2) w1 (net_of_node _ _ _ Hi2)) as [Hw1 Hgo1].
  assert (Hr1 : ready w1 [peer_b]).
  { eapply ready_handed; [exact Hh1|]. destruct Hra as [Hk Hp]. rewrite Forall_forall in Hp.
    split; [done|]. apply Forall_singleton. by apply Hp. }
  assert (Hwr1 : map_find ptr (p_writers (w_self w1)) = Some wr) by (by rewrite Es1).
  destruct (request_answer w1 ptr wr r rep peer_b Hw1 Hgo1 Hr1 start_r Hl Hwr1) as (w2 & E3 & Es3 & Hlog3).
  { by rewrite Es1. }
  destruct (calm_call N2 i (ticked_pool w1) (Receive peer_b (request_bytes r (w_guid wr))) w2) as (H3 & HN3 & _); try done.
  - apply calm_spawn; try done. apply (request_ok r (w_guid wr) start_r (wo_guid _ start_wr) Hl).
  - left. apply (log_in_flight _ wb1 (peer_index peer_a) (peer_backend_id peer_a, request_bytes r (w_guid wr))); [|done].
    eapply (net_of_node _ j (asked_pool hb wb1)). eapply put_same. by rewrite put_other.
  - exists hb, w1, wb1, w2. split_and!; try done; [by split; [exact (transitivity Hrun H3)|]|apply (hd_limit _ _ _ Hh1)|by rewrite Es3].
Qed.
End rounds.
End exchange.

(** The example network after the write: the publisher at 0, a subscriber that has
    received nothing of the sample at 1. *)
Definition test_pub : World Recorder := default (test_node 1) (net_nodes (test_net 7) !! 0%nat).
Definition test_sub : World Recorder := default (test_node 2) (net_nodes (test_net 7) !! 1%nat).
Definition test_pub_writer : WriterImpl :=
  default (new_writer zero_guid [] [] preset_default 0) (map_find 100 (p_writers (w_self test_pub))).
Definition test_sub_reader : ReaderImpl :=
  default (ReaderImpl.new_reader zero_guid [] [] preset_default false 0) (map_find 200 (p_readers (w_self test_sub))).
Definition no_endpoint : EndpointRecord := mkEndpoint zero_guid WRITER [] [] preset_default 0.
Definition test_sub_knows : EndpointRecord :=
  default no_endpoint (find_remote_endpoint_locked (w_self test_sub) (w_guid test_pub_writer)).
Definition test_pub_knows : EndpointRecord :=
  default no_endpoint (find_remote_endpoint_locked (w_self test_pub) (r_guid test_sub_reader)).

Lemma test_pub_at : net_nodes (test_net 7) !! 0%nat = Some test_pub.
Proof. vm_compute. reflexivity. Qed.
Lemma test_sub_at : net_nodes (test_net 7) !! 1%nat = Some test_sub.
Proof. vm_compute. reflexivity. Qed.

Lemma test_pub_ok : world_ok test_pub.
Proof. apply (no_session _ (net_reachable_ok _ (test_net_reachable 7))). exact (list_elem_of_lookup_2 _ _ _ test_pub_at). Qed.
Lemma test_sub_ok : world_ok test_sub.
Proof. apply (no_session _ (net_reachable_ok _ (test_net_reachable 7))). exact (list_elem_of_lookup_2 _ _ _ test_sub_at). Qed.

Lemma test_ready : ready test_pub [5] /\ ready test_sub [6].
Proof. split; (split; [vm_compute; reflexivity|]); apply Forall_singleton; vm_compute; lia. Qed.

(** The overlapping network: the first participant has claimed a number in one thread
    and written a sample in another, of which the second participant has received nothing. *)
Definition no_pool : Pool Recorder := mkPool (test_node 1) None [].
Definition busy_pub : Pool Recorder := default no_pool (pn_pools (overlap_net 17) !! 0%nat).
Definition idle_sub : Pool Recorder := default no_pool (pn_pools (overlap_net 17) !! 1%nat).
Definition busy_writer : WriterImpl :=
  default (new_writer zero_guid [] [] preset_default 0) (map_find 100 (p_writers (w_self (pool_world busy_pub)))).
Definition idle_reader : ReaderImpl :=
  default (ReaderImpl.new_reader zero_guid [] [] preset_default false 0) (map_find 200 (p_readers (w_self (pool_world idle_sub)))).
Definition idle_knows : EndpointRecord :=
  default no_endpoint (find_remote_endpoint_locked (w_self (pool_world idle_sub)) (w_guid busy_writer)).
Definition busy_knows : EndpointRecord :=
  default no_endpoint (find_remote_endpoint_locked (w_self (pool_world busy_pub)) (r_guid idle_reader)).

Lemma found {A} (o : option A) d : from_option (fun _ => true) false o = true -> o = Some (default d o).
Proof. by destruct o. Qed.

Lemma busy_pub_at : pn_pools (overlap_net 17) !! 0%nat = Some busy_pub.
Proof. apply found. vm_compute. reflexivity. Qed.
Lemma idle_sub_at : pn_pools (overlap_net 17) !! 1%nat = Some idle_sub.
Proof. apply found. vm_compute. reflexivity. Qed.

Lemma busy_ready :
  ready (pool_world busy_pub) (p_peers (w_self (pool_world busy_pub))) /\ ready (pool_world idle_sub) [6].
Proof.
  assert (E : p_peers (w_self (pool_world busy_pub)) = [5]) by (vm_compute; reflexivity). rewrite E.
  split; (split; [vm_compute; reflexivity|]); apply Forall_singleton; vm_compute; lia.
Qed.

Module RepairSpec.
Section spec.
Context {T : Type} `{LoggedTransport T}.
Implicit Types w : World T.


(** C17. An ACKNACK is answered exactly: the participant hands its sender the frames of
    every requested sample the reader is entitled to, in order, then at most one GAP, and
    nothing else; its tables do not change. *)
Theorem acknack_answered (peer : PeerId) (f : list Z) (ack : AckNackBody) (ptr : Z) (wr : WriterImpl)
    (ep : EndpointRecord) w :
  world_ok w -> ready w [peer] -> bytes_ok f -> decode_acknack f = Done ack ->
  find_writer_locked (w_self w) (ack_writer ack) = Some ptr -> map_find ptr (p_writers (w_self w)) = Some wr ->
  find_remote_endpoint_locked (w_self w) (ack_reader ack) = Some ep ->
  exists w', handle_bytes peer f w = Done (tt, w') /\ hands w (answer_frames w peer wr ep ack) w'.
Proof.
  intros Hw Hr Hb Hdec Hptr Hwr Hep. rewrite (handle_acknack_frame _ _ _ _ Hdec).
  pose proof (safe_Done _ _ _ (decode_acknack_safe f Hb) Hdec) as (Hgr & Hgw & _).
  pose proof (runs_acknack_answer peer f ack ptr wr ep w Hw Hr Hdec Hgr Hgw Hptr Hwr Hep) as Ha. unfold runs in Ha.
  destruct (handle_acknack peer f w) as [[[] w']| |]; [|done..]. by exists w'.
Qed.

(** C5. One exchange repairs, from any reachable state of the network, whatever calls
    overlapped and whatever was lost before.  An announce turn of the writer's participant hands the reader's participant a
    heartbeat; receiving it makes that participant hand back an ACKNACK of the reader that
    is behind; receiving that makes the writer's participant hand over an answer.  However
    the frames of the answer then arrive - in any order, repeated, among other frames but
    announcements, with fragments of the same samples pending from earlier - afterwards
    every number among the 64 the reader asked about that was published is received or
    given up, and nothing seen before is forgotten. *)
Theorem repair_exchange (N : PoolNet (T := T)) (i j : nat) (Pi Pj : Pool T) (ptr rptr : Z) (wr : WriterImpl)
    (r : ReaderImpl) (ep rep : EndpointRecord) (peer_b peer_a : PeerId) :
  let w := pool_world Pi in let wb := pool_world Pj in
  pool_net_reachable N -> i <> j -> pn_pools N !! i = Some Pi -> pn_pools N !! j = Some Pj -> calm Pi -> calm Pj ->
  ready w (p_peers (w_self w)) -> peer_b ∈ p_peers (w_self w) -> 57 <= limit w peer_b -> ready wb [peer_a] ->
  p_announce_seq (w_self w) + 2 < 2 ^ 64 ->
  map_find ptr (p_writers (w_self w)) = Some wr -> reliability (w_qos wr) = RELIABLE -> w_history wr <> [] ->
  map_find rptr (p_readers (w_self wb)) = Some r -> reliability (r_qos r) = RELIABLE ->
  find_remote_endpoint_locked (w_self wb) (w_guid wr) = Some ep ->
  endpoints_match (r_topic r) (r_type r) (r_qos r) ep = true ->
  find_remote_endpoint_locked (w_self w) (r_guid r) = Some rep ->
  last_seq (rx_of r (w_guid wr)) < w_seq wr -> last_seq (rx_of r (w_guid wr)) + 65 <= 2 ^ 64 ->
  exists hb nack answer w1 wb1 w2,
    run_op AnnounceTick w = Done (tt, w1) /\ (peer_backend_id peer_b, hb) ∈ log w1 (peer_index peer_b) /\
    run_op (Receive peer_a hb) wb = Done (tt, wb1) /\ (peer_backend_id peer_a, nack) ∈ log wb1 (peer_index peer_a) /\
    run_op (Receive peer_b nack) w1 = Done (tt, w2) /\
    log w2 (peer_index peer_b) = log w1 (peer_index peer_b) ++ ((fun f => (peer_backend_id peer_b, f)) <$> answer) /\
    let Pi1 := after_call AnnounceTick w1 Pi in
    let N3 := put i (put j (put i N Pi1) (after_call (Receive peer_a hb) wb1 Pj)) (after_call (Receive peer_b nack) w2 Pi1) in
    rtc pool_step N N3 /\
    forall fs, (forall f, f ∈ answer -> f ∈ fs) ->
      (forall f, f ∈ fs -> f ∈ answer \/ in_flight (net_of N3) f /\ no_announce f) ->
      exists wb2 r', for_each fs (handle_bytes peer_a) wb1 = Done (tt, wb2) /\
        map_find rptr (p_readers (w_self wb2)) = Some r' /\
        forall s, s <= last_seq (rx_of r (w_guid wr)) + 64 ->
          s <= w_seq wr \/ seen (rx_of r (w_guid wr)) s -> seen (rx_of r' (w_guid wr)) s.
Proof.
  intros w wb HN%pool_net_reachable_ok Hij Hi Hj Hci Hcj Hra Hpb Hlim Hrb Hseq Hwr Hrel Hne Hrd Hrrel Hep Hm Hrep Hbehind Hl.
  destruct (rounds_answer N i j Pi Pj ptr rptr wr r ep rep peer_b peer_a HN Hij Hi Hj Hci Hcj Hra Hpb Hrb Hseq Hwr Hrel Hne Hrd
    Hrrel Hep Hm Hrep Hbehind Hl) as (hb & w1 & wb1 & w2 & E1 & Hlog1 & E2 & Hlog2 & E3 & Hlog3 & [Hrun HN3] & El & Hwr2 & now & Es2).
  exists hb, (request_bytes r (w_guid wr)), (answer w1 peer_b wr r rep), w1, wb1, w2.
  do 6 (split; [done|]). intros Pi1 N3. split; [done|]. intros fs Hsub Hall.
  pose proof (start_wr N i Pi ptr wr HN Hi Hwr) as Hwok. pose proof (start_r N j Pj rptr r HN Hj Hrd) as Hrok.
  pose proof (pn_net _ HN3 : net_ok (net_of N3)) as Hok3. unfold w in Hlim. rewrite <- El in Hlim.
  assert (Hw2 : w2 ∈ net_nodes (net_of N3)).
  { eapply (net_of_node N3 i (after_call _ w2 Pi1)). eapply put_same. rewrite put_other by done. by eapply put_same. }
  assert (Hb1 : wb1 ∈ net_nodes (net_of N3)).
  { eapply (net_of_node N3 j (after_call _ wb1 Pj)). unfold N3. rewrite put_other by done. eapply put_same. by rewrite put_other. }
  assert (Hans : forall f, f ∈ answer w1 peer_b wr r rep -> in_flight (net_of N3) f).
  { intros f Hf. apply (log_in_flight _ w2 (peer_index peer_b) (peer_backend_id peer_b, f)); [done|].
    rewrite Hlog3. apply elem_of_app. right. by apply (list_elem_of_fmap_2 (fun f => (peer_backend_id peer_b, f))). }
  assert (Hfs : Forall (in_traffic (ours (net_of N3)) (published (net_of N3)) (announced (net_of N3))) fs).
  { apply Forall_forall. intros f [Hf|(Hf & ?)]%Hall; [|split_and!; [by apply (in_flight_true (net_of N3))|by apply in_flight_true|done]].
    destruct (answer_wire w1 peer_b wr r rep Hwok Hrok Hl Hlim f Hf). split_and!; [done| |done].
    by apply in_flight_true, Hans. }
  pose proof (answer_heard w1 peer_b wr r rep Hwok Hrok Hl Hlim (net_of N3) Hok3 w2 wb1 ptr rptr ep Hw2 Hb1 Hwr2 Hne) as Hh.
  specialize (Hh ltac:(by rewrite Es2) ltac:(by rewrite Es2) Hm peer_a fs Hfs Hsub). unfold runs in Hh.
  destruct (for_each fs (handle_bytes peer_a) wb1) as [[[] wb2]| |]; [|done..].
  destruct Hh as (r' & Hr' & Hs). exists wb2, r'. split_and!; [done..|]. intros s H1 H2. by apply Hs.
Qed.
End spec.


Lemma acknack_answered_witness :
  exists w', handle_bytes 5 (request_bytes test_sub_reader (w_guid test_pub_writer)) test_pub = Done (tt, w') /\
    hands test_pub (answer_frames test_pub 5 test_pub_writer test_pub_knows
      (request test_sub_reader (w_guid test_pub_writer))) w'.
Proof.
  apply (acknack_answered 5 _ (request test_sub_reader (w_guid test_pub_writer)) 100);
    [exact test_pub_ok|apply test_ready|apply bytes_ok_check|..]; vm_compute; reflexivity.
Defined.

(** One thread of the publisher is in the middle of a write when two samples turn out to
    be lost; after the exchange, the frames of the answer received in reverse order, the
    subscriber has seen both numbers. *)
Lemma repair_exchange_witness :
  at_rest_b busy_pub = false /\
  exists hb nack answer w1 wb1 w2 wb2 r',
    run_op AnnounceTick (pool_world busy_pub) = Done (tt, w1) /\ (peer_backend_id 5, hb) ∈ log w1 (peer_index 5) /\
    run_op (Receive 6 hb) (pool_world idle_sub) = Done (tt, wb1) /\ (peer_backend_id 6, nack) ∈ log wb1 (peer_index 6) /\
    run_op (Receive 5 nack) w1 = Done (tt, w2) /\
    log w2 (peer_index 5) = log w1 (peer_index 5) ++ ((fun f => (peer_backend_id 5, f)) <$> answer) /\
    for_each (reverse answer) (handle_bytes 6) wb1 = Done (tt, wb2) /\
    map_find 200 (p_readers (w_self wb2)) = Some r' /\
    seen (rx_of r' (w_guid busy_writer)) 1 /\ seen (rx_of r' (w_guid busy_writer)) 2.
Proof.
  split; [vm_compute; reflexivity|].
  destruct (repair_exchange (overlap_net 17) 0 1 busy_pub idle_sub 100 200 busy_writer idle_reader
    idle_knows busy_knows 5 6) as (hb & nack & answer & w1 & wb1 & w2 & E1 & H1 & E2 & H2 & E3 & H3 & _ & Hfs).
  - apply overlap_net_reachable.
  - discriminate.
  - apply busy_pub_at.
  - apply idle_sub_at.
  - apply calm_check. vm_compute. reflexivity.
  - apply calm_check. vm_compute. reflexivity.
  - apply busy_ready.
  - vm_compute. left.
  - vm_compute. discriminate.
  - apply busy_ready.
  - vm_compute. reflexivity.
  - vm_compute. reflexivity.
  - vm_compute. reflexivity.
  - vm_compute. discriminate.
  - vm_compute. reflexivity.
  - vm_compute. reflexivity.
  - vm_compute. reflexivity.
  - vm_compute. reflexivity.
  - vm_compute. reflexivity.
  - vm_compute. reflexivity.
  - vm_compute. discriminate.
  - destruct (Hfs (reverse answer)) as (wb2 & r' & E4 & Hr' & Hs).
    + intros f. by rewrite elem_of_reverse.
    + intros f. rewrite elem_of_reverse. by left.
    + exists hb, nack, answer, w1, wb1, w2, wb2, r'. do 8 (split; [assumption|]).
      split; (apply Hs; [|left]; vm_compute; discriminate).
Defined.
End RepairSpec.
