(* ===== verification/Listener.v ===== *)
(** * Transport events (class [TransportListener] of include/mdds/transport.hpp)

    The calls a backend makes to its listener, and their balance: how often a peer was
    reported up more than down. *)

From S2P Require Import Prelude.

Inductive ListenerEvent :=
| on_peer_up (peer : Z)
| on_peer_down (peer : Z)
| on_bytes (peer : Z) (data : list Z).

#[global] Instance listener_event_eq_dec : EqDecision ListenerEvent.
Proof. solve_decision. Defined.

Definition count {A} `{EqDecision A} (a : A) (l : list A) : Z := len (filter (fun x => x = a) l).

Definition balance (peer : Z) (evs : list ListenerEvent) : Z :=
  count (on_peer_up peer) evs - count (on_peer_down peer) evs.

Section count.
Context {A : Type} `{EqDecision A}.

Lemma count_app (a : A) l k : count a (l ++ k) = count a l + count a k.
Proof. unfold count. rewrite filter_app, length_app. lia. Qed.

Lemma count_cons (a b : A) l : count a (b :: l) = (if decide (b = a) then 1 else 0) + count a l.
Proof. unfold count. rewrite filter_cons. destruct (decide (b = a)); simpl; lia. Qed.

Lemma count_nil (a : A) : count a [] = 0.
Proof. done. Qed.

Lemma count_NoDup (a : A) l : NoDup l -> count a l = if decide (a ∈ l) then 1 else 0.
Proof.
  induction 1 as [|b l Hb Hl IH]; [done|]. rewrite count_cons, IH.
  destruct (decide (b = a)) as [->|Hne].
  - by rewrite decide_False, decide_True by (done || left).
  - destruct (decide (a ∈ l)); [by rewrite decide_True by (by right)|].
    rewrite decide_False; [done|]. by intros [?|?]%elem_of_cons.
Qed.
End count.

Lemma balance_app peer l k : balance peer (l ++ k) = balance peer l + balance peer k.
Proof. unfold balance. rewrite !count_app. lia. Qed.

Lemma balance_up peer q : balance peer [on_peer_up q] = if decide (q = peer) then 1 else 0.
Proof.
  unfold balance. rewrite !count_cons, !count_nil. destruct (decide (q = peer)) as [->|Hne].
  - by rewrite decide_True, decide_False.
  - by rewrite !decide_False by congruence.
Qed.

Lemma balance_down peer q : balance peer [on_peer_down q] = if decide (q = peer) then -1 else 0.
Proof.
  unfold balance. rewrite !count_cons, !count_nil. destruct (decide (q = peer)) as [->|Hne].
  - by rewrite decide_False, decide_True.
  - by rewrite !decide_False by congruence.
Qed.

Lemma balance_bytes peer q d : balance peer [on_bytes q d] = 0.
Proof. done. Qed.
