(* ===== verification/SendLane.v ===== *)
(** * Send lanes (src/send_lane.hpp)

    A lane is a bounded queue of frames with one worker thread; the lanes of a
    transport share a byte budget.  Every critical section of [push], [stop] and [run]
    is a step; the test and the update of the shared counter in [push] are two steps,
    because other lanes run between them. *)

From S2P Require Import Prelude.

(** ** State *)

Record SendBudget := mkBudget { limit : Z; used : Z }.

(** [sl_pending] is the frame of a [push] that passed its checks and holds the lane's
    mutex; [sl_inflight] the frame the worker took out and is handing to the sink;
    [sl_done] holds once the worker has returned.  The last three fields record what
    happened: frames accepted, given to the sink, and discarded by a stop. *)
Record SendLane := mkLane {
  sl_byte_limit : Z;
  sl_queue : list (list Z);
  sl_bytes : Z;
  sl_stopping : bool;
  sl_drain : bool;
  sl_dropped : Z;
  sl_failed : Z;
  sl_pending : option (list Z);
  sl_inflight : option (list Z);
  sl_done : bool;
  sl_accepted : list (list Z);
  sl_delivered : list (list Z);
  sl_discarded : list (list Z);
}.

Definition new_lane (byte_limit : Z) : SendLane :=
  mkLane byte_limit [] 0 false false 0 0 None None false [] [] [].

Section lane_updates.
Context (l : SendLane).
Definition set_lane_queue (q : list (list Z)) (bytes : Z) (acc disc : list (list Z)) : SendLane :=
  mkLane (sl_byte_limit l) q bytes (sl_stopping l) (sl_drain l) (sl_dropped l) (sl_failed l) (sl_pending l)
    (sl_inflight l) (sl_done l) acc (sl_delivered l) disc.
Definition set_pending (f : option (list Z)) : SendLane :=
  mkLane (sl_byte_limit l) (sl_queue l) (sl_bytes l) (sl_stopping l) (sl_drain l) (sl_dropped l) (sl_failed l) f
    (sl_inflight l) (sl_done l) (sl_accepted l) (sl_delivered l) (sl_discarded l).
Definition count_dropped : SendLane :=
  mkLane (sl_byte_limit l) (sl_queue l) (sl_bytes l) (sl_stopping l) (sl_drain l) (u64 (sl_dropped l + 1))
    (sl_failed l) (sl_pending l) (sl_inflight l) (sl_done l) (sl_accepted l) (sl_delivered l) (sl_discarded l).
Definition set_stopping (drain : bool) : SendLane :=
  mkLane (sl_byte_limit l) (sl_queue l) (sl_bytes l) true drain (sl_dropped l) (sl_failed l) (sl_pending l)
    (sl_inflight l) (sl_done l) (sl_accepted l) (sl_delivered l) (sl_discarded l).
Definition set_inflight (f : option (list Z)) : SendLane :=
  mkLane (sl_byte_limit l) (sl_queue l) (sl_bytes l) (sl_stopping l) (sl_drain l) (sl_dropped l) (sl_failed l)
    (sl_pending l) f (sl_done l) (sl_accepted l) (sl_delivered l) (sl_discarded l).
Definition set_done : SendLane :=
  mkLane (sl_byte_limit l) (sl_queue l) (sl_bytes l) (sl_stopping l) (sl_drain l) (sl_dropped l) (sl_failed l)
    (sl_pending l) (sl_inflight l) true (sl_accepted l) (sl_delivered l) (sl_discarded l).
Definition give_to_sink (f : list Z) (ok : bool) : SendLane :=
  mkLane (sl_byte_limit l) (sl_queue l) (sl_bytes l) (sl_stopping l) (sl_drain l) (sl_dropped l)
    (if ok then sl_failed l else u64 (sl_failed l + 1)) (sl_pending l) None (sl_done l) (sl_accepted l)
    (sl_delivered l ++ [f]) (sl_discarded l).
End lane_updates.

(** ** Operations *)

(** The condition of [push], with its sums in [size_t]. *)
Definition push_refused (l : SendLane) (b : SendBudget) (len : Z) : bool :=
  sl_stopping l || (sl_byte_limit l <? u64 (sl_bytes l + len)) || (limit b <? u64 (used b + len)).

(** [push] up to its update of the queue: refused, or about to be queued. *)
Definition push_check (l : SendLane) (b : SendBudget) (f : list Z) : SendLane * bool :=
  if push_refused l b (len f) then (count_dropped l, false) else (set_pending l (Some f), true).

(** The rest of [push]: the frame is queued and both counters grow. *)
Definition push_commit (l : SendLane) (b : SendBudget) (f : list Z) : SendLane * SendBudget :=
  (set_pending (set_lane_queue l (sl_queue l ++ [f]) (u64 (sl_bytes l + len f)) (sl_accepted l ++ [f]) (sl_discarded l)) None,
   mkBudget (limit b) (u64 (used b + len f))).

(** [push] when nothing comes between its two halves. *)
Definition push (l : SendLane) (b : SendBudget) (f : list Z) : SendLane * SendBudget * bool :=
  match push_check l b f with
  | (l', false) => (l', b, false)
  | (l', true) => let (l'', b') := push_commit l' b f in (l'', b', true)
  end.

Definition stop (l : SendLane) (drain : bool) : SendLane := set_stopping l drain.

Definition release (bytes : Z) (b : SendBudget) (n : Z) : Z * SendBudget :=
  (u64 (bytes - n), mkBudget (limit b) (u64 (used b - n))).

(** [while (!queue_.empty()) { release(front.size()); pop_front(); }] *)
Fixpoint release_all (q : list (list Z)) (bytes : Z) (b : SendBudget) : Z * SendBudget :=
  match q with
  | [] => (bytes, b)
  | f :: q => let (bytes', b') := release bytes b (len f) in release_all q bytes' b'
  end.

(** One critical section of [run]: [None] while the worker waits. *)
Definition worker_take (l : SendLane) (b : SendBudget) : option (SendLane * SendBudget) :=
  match sl_queue l with
  | [] => if sl_stopping l then Some (set_done l, b) else None
  | f :: q =>
      if sl_stopping l && negb (sl_drain l) then
        let (bytes', b') := release_all (sl_queue l) (sl_bytes l) b in
        Some (set_done (set_lane_queue l [] bytes' (sl_accepted l) (sl_discarded l ++ sl_queue l)), b')
      else
        let (bytes', b') := release (sl_bytes l) b (len f) in
        Some (set_inflight (set_lane_queue l q bytes' (sl_accepted l) (sl_discarded l)) (Some f), b')
  end.

(** [run()] from a state where the worker is between frames; [sink] is its result on
    each frame.  [None] means it is still waiting or out of fuel. *)
Fixpoint run (fuel : nat) (sink : list Z -> bool) (l : SendLane) (b : SendBudget) : option (SendLane * SendBudget) :=
  match fuel with
  | O => None
  | S fuel =>
      match worker_take l b with
      | None => None
      | Some (l', b') =>
          if sl_done l' then Some (l', b')
          else match sl_inflight l' with
               | Some f => run fuel sink (give_to_sink l' f (sink f)) b'
               | None => None
               end
      end
  end.

(** ** Interleavings

    The lanes of a transport and their shared budget.  The mutex of a lane is held
    from the check of a [push] to its commit: nothing else touches that lane then.  A
    frame is an object in memory, so its size is below 2^63. *)

Record System := mkSystem { sys_lanes : list SendLane; sys_budget : SendBudget }.

Inductive lane_step : System -> System -> Prop :=
| step_push_check s i l f :
    sys_lanes s !! i = Some l -> sl_pending l = None -> len f < 2 ^ 63 ->
    lane_step s (mkSystem (<[i := fst (push_check l (sys_budget s) f)]> (sys_lanes s)) (sys_budget s))
| step_push_commit s i l f l' b' :
    sys_lanes s !! i = Some l -> sl_pending l = Some f ->
    push_commit l (sys_budget s) f = (l', b') ->
    lane_step s (mkSystem (<[i := l']> (sys_lanes s)) b')
| step_stop s i l drain :
    sys_lanes s !! i = Some l -> sl_pending l = None ->
    lane_step s (mkSystem (<[i := stop l drain]> (sys_lanes s)) (sys_budget s))
| step_worker_take s i l l' b' :
    sys_lanes s !! i = Some l -> sl_pending l = None -> sl_inflight l = None -> sl_done l = false ->
    worker_take l (sys_budget s) = Some (l', b') ->
    lane_step s (mkSystem (<[i := l']> (sys_lanes s)) b')
| step_worker_send s i l f ok :
    sys_lanes s !! i = Some l -> sl_inflight l = Some f ->
    lane_step s (mkSystem (<[i := give_to_sink l f ok]> (sys_lanes s)) (sys_budget s)).

(** [n] lanes of [byte_limit] bytes each, just created. *)
Definition new_system (n : nat) (byte_limit global_limit : Z) : System :=
  mkSystem (replicate n (new_lane byte_limit)) (mkBudget global_limit 0).

Inductive lanes_reachable (n : nat) (byte_limit global_limit : Z) : System -> Prop :=
| lanes_init : lanes_reachable n byte_limit global_limit (new_system n byte_limit global_limit)
| lanes_next s s' :
    lanes_reachable n byte_limit global_limit s -> lane_step s s' -> lanes_reachable n byte_limit global_limit s'.

(** ** Sums *)

Definition total (q : list (list Z)) : Z := zsum ((fun f => len f) <$> q).

Lemma total_app q k : total (q ++ k) = total q + total k.
Proof.
  induction q as [|f q IH]; [done|]. cbn [app]. change (total (f :: q ++ k)) with (len f + total (q ++ k)).
  change (total (f :: q)) with (len f + total q). rewrite IH. lia.
Qed.

Lemma total_nonneg q : 0 <= total q.
Proof.
  induction q as [|f q IH]; [done|]. change (total (f :: q)) with (len f + total q). lia.
Qed.

(** The sum of [g] over the lanes after one of them changes. *)
Lemma zsum_insert {A} (g : A -> Z) (ls : list A) i l l' :
  ls !! i = Some l -> zsum (g <$> <[i := l']> ls) = zsum (g <$> ls) - g l + g l'.
Proof.
  revert i. induction ls as [|a ls IH]; intros [|i]; try done.
  - intros [= ->]. simpl. lia.
  - intros Hi. change (zsum (g <$> a :: <[i := l']> ls) = zsum (g <$> a :: ls) - g l + g l').
    rewrite !fmap_cons. cbn [zsum]. rewrite (IH i Hi). lia.
Qed.

Lemma zsum_bound {A} (g : A -> Z) (B : Z) (ls : list A) :
  Forall (fun a => 0 <= g a <= B) ls -> 0 <= zsum (g <$> ls) <= len ls * B.
Proof.
  induction 1 as [|a ls Ha Hls IH]; [simpl; lia|]. rewrite fmap_cons. cbn [zsum length].
  rewrite Nat2Z.inj_succ, Z.mul_succ_l. lia.
Qed.

Lemma zsum_elem {A} (g : A -> Z) (B : Z) (ls : list A) i l :
  Forall (fun a => 0 <= g a <= B) ls -> ls !! i = Some l -> g l <= zsum (g <$> ls) <= g l + (len ls - 1) * B.
Proof.
  intros Hall. revert i. induction Hall as [|a ls Ha Hls IH]; intros [|i]; try done;
    rewrite fmap_cons; cbn [zsum length]; rewrite Nat2Z.inj_succ, Z.sub_succ_l, Z.mul_succ_l.
  - intros [= ->]. pose proof (zsum_bound g B ls Hls). lia.
  - intros Hi. specialize (IH _ Hi). lia.
Qed.

Lemma release_all_eq q bytes b :
  total q <= bytes < 2 ^ 64 -> total q <= used b < 2 ^ 64 ->
  release_all q bytes b = (bytes - total q, mkBudget (limit b) (used b - total q)).
Proof.
  revert bytes b. induction q as [|f q IH]; intros bytes b Hb Hu; cbn [release_all].
  { destruct b as [lim u]. unfold total. simpl. by rewrite !Z.sub_0_r. }
  change (total (f :: q)) with (len f + total q) in *. pose proof (total_nonneg q).
  unfold release. rewrite !wrap_id by ulia. rewrite IH by (cbn [used]; lia). cbn [used limit]. f_equal; [lia|]. f_equal. lia.
Qed.

(** ** The invariant *)

Definition opt_list {A} (o : option A) : list A := match o with Some a => [a] | None => [] end.
Definition pending_len (l : SendLane) : Z := total (opt_list (sl_pending l)).

Record lane_ok (B : Z) (l : SendLane) : Prop := {
  lo_limit : sl_byte_limit l = B;
  lo_bytes : sl_bytes l = total (sl_queue l);
  lo_bound : total (sl_queue l) + pending_len l <= B;
  lo_pending : sl_pending l <> None -> sl_stopping l = false;
  lo_done : sl_done l = true -> sl_stopping l = true /\ sl_queue l = [] /\ sl_inflight l = None;
  lo_live : sl_done l = false -> sl_discarded l = [];
  lo_order : sl_accepted l = sl_delivered l ++ opt_list (sl_inflight l) ++ sl_queue l ++ sl_discarded l;
}.

Lemma lane_ok_new B : 0 <= B -> lane_ok B (new_lane B).
Proof. intros HB. by split. Qed.

Definition system_ok (n : nat) (B G : Z) (s : System) : Prop :=
  length (sys_lanes s) = n /\ Forall (lane_ok B) (sys_lanes s) /\ limit (sys_budget s) = G /\
  used (sys_budget s) = zsum (sl_bytes <$> sys_lanes s) /\
  used (sys_budget s) + zsum (pending_len <$> sys_lanes s) <= G + (Z.of_nat n - 1) * B.

Lemma pending_none l : sl_pending l = None -> pending_len l = 0.
Proof. unfold pending_len. by intros ->. Qed.

Lemma pending_bounds B l : lane_ok B l -> 0 <= pending_len l <= B /\ 0 <= sl_bytes l <= B.
Proof.
  intros [? Hb Hbd _ _ _ _]. rewrite Hb. pose proof (total_nonneg (sl_queue l)).
  pose proof (total_nonneg (opt_list (sl_pending l))). unfold pending_len in *. lia.
Qed.

Section steps.
Context (n : nat) (B G : Z) (Hn : (1 <= n)%nat) (HB : 0 <= B) (HG : 0 <= G) (Hfit : G + Z.of_nat n * B < 2 ^ 63).
Implicit Types s : System.

Lemma B_small : B < 2 ^ 63.
Proof. nia. Qed.

(** Replacing one lane by a well-formed one, with the budget following its bytes. *)
Lemma system_ok_insert s i l l' u :
  system_ok n B G s -> sys_lanes s !! i = Some l -> lane_ok B l' ->
  u = used (sys_budget s) - sl_bytes l + sl_bytes l' ->
  sl_bytes l' + pending_len l' <= sl_bytes l + pending_len l \/
  used (sys_budget s) - sl_bytes l + sl_bytes l' + pending_len l' <= G ->
  system_ok n B G (mkSystem (<[i := l']> (sys_lanes s)) (mkBudget (limit (sys_budget s)) u)).
Proof.
  intros (Hlen & Hall & HL & Hu & Htot) Hi Hok -> Hcase.
  pose proof (Forall_lookup_1 _ _ _ _ Hall Hi) as Hl.
  split_and!; simpl; [by rewrite length_insert|by apply Forall_insert|done| |].
  - rewrite (zsum_insert sl_bytes _ _ l) by done. lia.
  - rewrite (zsum_insert pending_len _ _ l) by done. destruct Hcase as [Hle|Hle]; [lia|].
    assert (Hall' : Forall (fun a => 0 <= pending_len a <= B) (sys_lanes s)).
    { eapply Forall_impl; [exact Hall|]. intros a Ha. by apply pending_bounds. }
    pose proof (zsum_elem pending_len B _ i l Hall' Hi) as Hz. rewrite Hlen in Hz. lia.
Qed.

Lemma used_bounds s i l :
  system_ok n B G s -> sys_lanes s !! i = Some l ->
  sl_bytes l <= used (sys_budget s) /\ used (sys_budget s) < 2 ^ 63.
Proof.
  intros (Hlen & Hall & HL & Hu & Htot) Hi. rewrite Hu.
  assert (Hall' : Forall (fun a => 0 <= sl_bytes a <= B) (sys_lanes s)).
  { eapply Forall_impl; [exact Hall|]. intros a Ha. by apply (pending_bounds B a). }
  pose proof (zsum_elem sl_bytes B _ i l Hall' Hi). pose proof (zsum_bound sl_bytes B _ Hall'). nia.
Qed.

(** The same when no byte is queued or released. *)
Lemma system_ok_keep s i l l' :
  system_ok n B G s -> sys_lanes s !! i = Some l -> lane_ok B l' -> sl_bytes l' = sl_bytes l ->
  pending_len l' <= pending_len l \/ used (sys_budget s) + pending_len l' <= G ->
  system_ok n B G (mkSystem (<[i := l']> (sys_lanes s)) (sys_budget s)).
Proof.
  intros Hs Hi Hok Hb Hcase. pose proof (system_ok_insert s i l l' (used (sys_budget s)) Hs Hi Hok) as Hins.
  destruct (sys_budget s) as [lim u]. simpl in *. apply Hins; [lia|]. destruct Hcase; [left|right]; lia.
Qed.

Lemma check_ok s i l f :
  system_ok n B G s -> sys_lanes s !! i = Some l -> sl_pending l = None -> len f < 2 ^ 63 ->
  system_ok n B G (mkSystem (<[i := fst (push_check l (sys_budget s) f)]> (sys_lanes s)) (sys_budget s)).
Proof.
  intros Hs Hi Hp Hf. pose proof Hs as (_ & Hall & HL & _). pose proof (Forall_lookup_1 _ _ _ _ Hall Hi) as Hl.
  destruct (used_bounds s i l Hs Hi) as [Hle Hlt]. destruct (pending_bounds B l Hl) as [_ Hb].
  destruct Hl as [Hlim Hby Hbd Hpd Hdn Hlv Hor].
  assert (Ep : pending_len l = 0) by (by apply pending_none).
  unfold push_check. destruct (push_refused l (sys_budget s) (len f)) eqn:Er; cbn [fst].
  { apply (system_ok_keep s i l); [done|done|by split|done|left; done]. }
  unfold push_refused in Er. apply orb_false_iff in Er as [[Est E1]%orb_false_iff E2].
  rewrite wrap_id in E1, E2 by ulia. apply Z.ltb_ge in E1, E2.
  assert (Ef : pending_len (set_pending l (Some f)) = len f) by (unfold pending_len, total; simpl; lia).
  apply (system_ok_keep s i l); [done|done| |done|right; rewrite Ef; lia].
  split; simpl; try done. rewrite Ef. lia.
Qed.

Lemma commit_ok s i l f :
  system_ok n B G s -> sys_lanes s !! i = Some l -> sl_pending l = Some f ->
  system_ok n B G (mkSystem (<[i := fst (push_commit l (sys_budget s) f)]> (sys_lanes s))
                     (snd (push_commit l (sys_budget s) f))).
Proof.
  intros Hs Hi Hp. pose proof Hs as (_ & Hall & HL & _). pose proof (Forall_lookup_1 _ _ _ _ Hall Hi) as Hl.
  destruct (used_bounds s i l Hs Hi) as [Hle Hlt]. destruct (pending_bounds B l Hl) as [Hpb Hb].
  destruct Hl as [Hlim Hby Hbd Hpd Hdn Hlv Hor].
  assert (Ep : pending_len l = len f) by (unfold pending_len, total; rewrite Hp; simpl; lia). rewrite Ep in Hbd, Hpb.
  assert (Est : sl_stopping l = false) by (apply Hpd; by rewrite Hp).
  assert (Edn : sl_done l = false) by (destruct (sl_done l); [destruct (Hdn eq_refl); congruence|done]).
  pose proof B_small as HB63. assert (Et : total (sl_queue l ++ [f]) = total (sl_queue l) + len f).
  { rewrite total_app. f_equal. unfold total. simpl. lia. }
  apply (system_ok_insert s i l); [done|done| |cbn; rewrite !wrap_id by ulia; lia|].
  - split; simpl; rewrite ?Et, ?Est, ?Edn; try done.
    + rewrite wrap_id by ulia. lia.
    + rewrite pending_none by done. lia.
    + intros ?. by apply Hlv.
    + rewrite Hor, (Hlv Edn), !app_nil_r. by rewrite <- !app_assoc.
  - left. rewrite Ep, pending_none by done. cbn. rewrite wrap_id by ulia. lia.
Qed.

Lemma stop_ok s i l drain :
  system_ok n B G s -> sys_lanes s !! i = Some l -> sl_pending l = None ->
  system_ok n B G (mkSystem (<[i := stop l drain]> (sys_lanes s)) (sys_budget s)).
Proof.
  intros Hs Hi Hp. pose proof Hs as (_ & Hall & _). pose proof (Forall_lookup_1 _ _ _ _ Hall Hi) as Hl.
  destruct Hl as [Hlim Hby Hbd Hpd Hdn Hlv Hor].
  apply (system_ok_keep s i l); [done|done| |done|left; done].
  split; simpl; try done. intros Hd. by destruct (Hdn Hd).
Qed.

Lemma take_ok s i l l' b' :
  system_ok n B G s -> sys_lanes s !! i = Some l -> sl_pending l = None -> sl_inflight l = None ->
  sl_done l = false -> worker_take l (sys_budget s) = Some (l', b') ->
  system_ok n B G (mkSystem (<[i := l']> (sys_lanes s)) b').
Proof.
  intros Hs Hi Hp Hfl Edn. pose proof Hs as (_ & Hall & HL & _). pose proof (Forall_lookup_1 _ _ _ _ Hall Hi) as Hl.
  destruct (used_bounds s i l Hs Hi) as [Hle Hlt]. destruct (pending_bounds B l Hl) as [_ Hb].
  destruct Hl as [Hlim Hby Hbd Hpd Hdn Hlv Hor]. unfold worker_take. rewrite (Hlv Edn) in Hor |- *.
  assert (Ep : pending_len l = 0) by (by apply pending_none).
  destruct (sl_queue l) as [|f q] eqn:Eq.
  { destruct (sl_stopping l) eqn:Est; [|done]. intros [= <- <-].
    apply (system_ok_keep s i l); [done|done| |done|left; done].
    split; simpl; rewrite ?Eq, ?Hfl; try done. rewrite Hfl in Hor. by rewrite (Hlv Edn). }
  change (total (f :: q)) with (len f + total q) in *. pose proof (total_nonneg q).
  destruct (sl_stopping l && negb (sl_drain l)) eqn:Est.
  - apply andb_true_iff in Est as [Est _].
    rewrite release_all_eq by (change (total (f :: q)) with (len f + total q); ulia).
    intros [= <- <-]. change (total (f :: q)) with (len f + total q).
    apply (system_ok_insert s i l); [done|done| |simpl; lia|left; rewrite Ep, pending_none by done; cbn; lia].
    split; simpl; change (total []) with 0; try done.
    + lia.
    + rewrite pending_none by done. lia.
    + rewrite Hfl in Hor |- *. by rewrite app_nil_r in Hor.
  - unfold release. rewrite !wrap_id by ulia. intros [= <- <-].
    apply (system_ok_insert s i l); [done|done| |simpl; lia|left; rewrite Ep, pending_none by done; cbn; lia].
    split; simpl; rewrite ?Edn; try done.
    + lia.
    + rewrite pending_none by done. lia.
    + rewrite Hfl in Hor. exact Hor.
Qed.

Lemma send_ok s i l f ok :
  system_ok n B G s -> sys_lanes s !! i = Some l -> sl_inflight l = Some f ->
  system_ok n B G (mkSystem (<[i := give_to_sink l f ok]> (sys_lanes s)) (sys_budget s)).
Proof.
  intros Hs Hi Hfl. pose proof Hs as (_ & Hall & _). pose proof (Forall_lookup_1 _ _ _ _ Hall Hi) as Hl.
  destruct Hl as [Hlim Hby Hbd Hpd Hdn Hlv Hor].
  apply (system_ok_keep s i l); [done|done| |done|left; done].
  split; simpl; try done.
  - intros Hd. destruct (Hdn Hd) as (? & ? & ?). congruence.
  - rewrite Hor, Hfl. by rewrite <- !app_assoc.
Qed.

Lemma lane_step_ok s s' : lane_step s s' -> system_ok n B G s -> system_ok n B G s'.
Proof.
  destruct 1 as [s i l f Hi Hp Hf|s i l f l' b' Hi Hp E|s i l drain Hi Hp|s i l l' b' Hi Hp Hfl Hd E|s i l f ok Hi Hfl];
    intros Hs.
  - by apply check_ok.
  - pose proof (commit_ok s i l f Hs Hi Hp) as Hc. by rewrite E in Hc.
  - by apply stop_ok.
  - by eapply take_ok.
  - by apply send_ok.
Qed.

Lemma zsum_replicate (g : SendLane -> Z) l m : g l = 0 -> zsum (g <$> replicate m l) = 0.
Proof. intros E. rewrite fmap_replicate, E. induction m as [|m IH]; [done|]. exact IH. Qed.

Lemma new_system_ok : system_ok n B G (new_system n B G).
Proof.
  split_and!; cbn [new_system sys_lanes sys_budget limit used]; [apply length_replicate| |done| |].
  - by apply Forall_replicate, lane_ok_new.
  - symmetry. by apply zsum_replicate.
  - rewrite zsum_replicate by done. nia.
Qed.

Lemma lanes_reachable_ok s : lanes_reachable n B G s -> system_ok n B G s.
Proof. induction 1 as [|s s' _ IH Hstep]; [apply new_system_ok|by eapply lane_step_ok]. Qed.
End steps.

(** ** Stopping *)

(** What is left of a lane once its worker has returned. *)
Definition stopped_from (l l' : SendLane) (b b' : SendBudget) : Prop :=
  sl_done l' = true /\ sl_queue l' = [] /\ sl_bytes l' = 0 /\
  used b' = used b - total (sl_queue l) /\
  (if sl_drain l then sl_delivered l' = sl_delivered l ++ sl_queue l /\ sl_discarded l' = sl_discarded l
   else sl_delivered l' = sl_delivered l /\ sl_discarded l' = sl_discarded l ++ sl_queue l).

Lemma run_stops sink q l b :
  sl_queue l = q -> sl_stopping l = true -> sl_done l = false -> sl_bytes l = total q ->
  total q <= used b < 2 ^ 64 -> total q < 2 ^ 64 ->
  exists l' b', run (S (length q)) sink l b = Some (l', b') /\ stopped_from l l' b b'.
Proof.
  revert l b. induction q as [|f q IH]; intros l b Hq Hst Hd Hb Hu Ht.
  - cbn [run length]. unfold worker_take. rewrite Hq, Hst. cbn [set_done sl_done].
    eexists _, _. split; [done|]. unfold stopped_from. rewrite Hq. cbn.
    split_and!; [done|done|done|lia|]. destruct (sl_drain l); by rewrite app_nil_r.
  - change (total (f :: q)) with (len f + total q) in *. pose proof (total_nonneg q).
    cbn [run length]. unfold worker_take. rewrite Hq, Hst. cbn [andb]. destruct (sl_drain l) eqn:Edr; cbn [negb].
    + unfold release. rewrite !wrap_id by ulia. cbn [set_inflight set_lane_queue sl_done sl_inflight]. rewrite Hd.
      edestruct IH as (l' & b' & E & Hs); [..|exists l', b'; split; [exact E|]]; cbn; try done; try lia.
      destruct Hs as (H1 & H2 & H3 & H4 & H5).
      cbn [sl_queue sl_drain sl_delivered sl_discarded give_to_sink set_inflight set_lane_queue used] in H4, H5.
      rewrite Edr in H5.
      unfold stopped_from. rewrite Edr, Hq. change (total (f :: q)) with (len f + total q).
      split_and!; [done|done|done|lia|..]; [|apply H5]. rewrite (proj1 H5). by rewrite <- app_assoc.
    + rewrite release_all_eq by (change (total (f :: q)) with (len f + total q); ulia).
      cbn [set_done set_lane_queue sl_done]. eexists _, _. split; [done|]. unfold stopped_from.
      rewrite Edr, Hq. change (total (f :: q)) with (len f + total q). cbn. split_and!; try done; lia.
Qed.

Module SendLaneSpec.

(** C29. Memory stays bounded under every interleaving of pushes, workers and stops:
    a lane holds at most its byte limit, its counter is the size of its queue, the
    shared counter is the sum over the lanes, and it exceeds the shared limit by at
    most one lane limit for each other lane (so never with a single lane). *)
Theorem lanes_bounded (n : nat) (B G : Z) (s : System) :
  (1 <= n)%nat -> 0 <= B -> 0 <= G -> G + Z.of_nat n * B < 2 ^ 63 -> lanes_reachable n B G s ->
  Forall (fun l => sl_bytes l = total (sl_queue l) /\ total (sl_queue l) <= B) (sys_lanes s) /\
  used (sys_budget s) = zsum (sl_bytes <$> sys_lanes s) /\
  0 <= used (sys_budget s) <= G + (Z.of_nat n - 1) * B.
Proof.
  intros Hn HB HG Hfit Hs. pose proof (lanes_reachable_ok n B G Hn HB HG Hfit s Hs) as (Hlen & Hall & HL & Hu & Ht).
  assert (Hp : Forall (fun a => 0 <= pending_len a <= B) (sys_lanes s)).
  { eapply Forall_impl; [exact Hall|]. intros a Ha. by apply pending_bounds. }
  assert (Hb : Forall (fun a => 0 <= sl_bytes a <= B) (sys_lanes s)).
  { eapply Forall_impl; [exact Hall|]. intros a Ha. by apply (pending_bounds B a). }
  pose proof (zsum_bound _ _ _ Hp). pose proof (zsum_bound _ _ _ Hb). split_and!; [|done|lia|lia].
  eapply Forall_impl; [exact Hall|]. intros l Hl. split; [apply Hl|].
  destruct (pending_bounds B l Hl) as [_ ?]. rewrite <- (lo_bytes _ _ Hl). lia.
Qed.

(** C28. A lane neither loses, duplicates, invents nor reorders frames: under every
    interleaving, what it accepted is, in order, what the sink was given, the frame
    being given, what is still queued, and what a stop discarded; nothing is
    discarded before the worker has ended. *)
Theorem lane_fifo (n : nat) (B G : Z) (s : System) :
  (1 <= n)%nat -> 0 <= B -> 0 <= G -> G + Z.of_nat n * B < 2 ^ 63 -> lanes_reachable n B G s ->
  Forall (fun l =>
    sl_accepted l = sl_delivered l ++ opt_list (sl_inflight l) ++ sl_queue l ++ sl_discarded l /\
    (sl_discarded l <> [] -> sl_stopping l = true /\ sl_done l = true)) (sys_lanes s).
Proof.
  intros Hn HB HG Hfit Hs. pose proof (lanes_reachable_ok n B G Hn HB HG Hfit s Hs) as (_ & Hall & _).
  eapply Forall_impl; [exact Hall|]. intros l [_ _ _ _ Hdn Hlv Hor]. split; [done|]. intros Hne.
  destruct (sl_done l) eqn:Ed; [by destruct Hdn|]. by destruct Hne, Hlv.
Qed.

(** C30. A stop ends: once it is latched the worker returns after at most one turn per
    queued frame and one more, with an empty queue and its bytes returned to both
    budgets; draining hands every queued frame to the sink in order, not draining
    discards them. *)
Theorem stop_finishes (n : nat) (B G : Z) (s : System) (i : nat) (l : SendLane) (drain : bool)
    (sink : list Z -> bool) :
  (1 <= n)%nat -> 0 <= B -> 0 <= G -> G + Z.of_nat n * B < 2 ^ 63 -> lanes_reachable n B G s ->
  sys_lanes s !! i = Some l -> sl_inflight l = None -> sl_done l = false ->
  exists l' b', run (S (length (sl_queue l))) sink (stop l drain) (sys_budget s) = Some (l', b') /\
    sl_done l' = true /\ sl_queue l' = [] /\ sl_bytes l' = 0 /\
    used b' = used (sys_budget s) - sl_bytes l /\
    (if drain then sl_delivered l' = sl_accepted l /\ sl_discarded l' = []
     else sl_delivered l' = sl_delivered l /\ sl_discarded l' = sl_queue l).
Proof.
  intros Hn HB HG Hfit Hs Hi Hfl Hd. pose proof (lanes_reachable_ok n B G Hn HB HG Hfit s Hs) as Hok.
  destruct (used_bounds n B G Hn HG Hfit s i l Hok Hi) as [Hle Hlt]. pose proof Hok as (_ & Hall & _).
  pose proof (Forall_lookup_1 _ _ _ _ Hall Hi) as [_ Hb _ _ _ Hlv Hor]. rewrite Hb in Hle.
  pose proof (total_nonneg (sl_queue l)).
  destruct (run_stops sink (sl_queue l) (stop l drain) (sys_budget s)) as (l' & b' & E & Hstop); try done; try lia.
  exists l', b'. destruct Hstop as (H1 & H2 & H3 & H4 & H5). rewrite (Hlv Hd), Hfl in Hor.
  cbn [stop set_stopping sl_queue sl_drain sl_delivered sl_discarded opt_list app] in H4, H5, Hor.
  rewrite app_nil_r in Hor. rewrite (Hlv Hd), <- Hor in H5. split_and!; [done..|by rewrite H4, Hb|by destruct drain].
Qed.

(** Three bytes queued on one of two lanes. *)
Definition test_system : System :=
  mkSystem (<[0%nat := fst (push_commit (set_pending (new_lane 10) (Some [1; 2; 3])) (mkBudget 16 0) [1; 2; 3])]>
    (replicate 2 (new_lane 10))) (mkBudget 16 3).

Lemma test_system_reachable : lanes_reachable 2 10 16 test_system.
Proof.
  set (s1 := mkSystem [set_pending (new_lane 10) (Some [1; 2; 3]); new_lane 10] (mkBudget 16 0)).
  apply (lanes_next _ _ _ s1).
  - eapply lanes_next; [apply lanes_init|].
    apply (step_push_check (new_system 2 10 16) 0 (new_lane 10) [1; 2; 3]); [reflexivity|reflexivity|cbn; lia].
  - exact (step_push_commit s1 0 _ [1; 2; 3] _ _ eq_refl eq_refl eq_refl).
Qed.

Lemma lanes_bounded_witness :
  Forall (fun l => sl_bytes l = total (sl_queue l) /\ total (sl_queue l) <= 10) (sys_lanes test_system) /\
  used (sys_budget test_system) = zsum (sl_bytes <$> sys_lanes test_system) /\
  0 <= used (sys_budget test_system) <= 16 + (Z.of_nat 2 - 1) * 10.
Proof. apply lanes_bounded; [lia|lia|lia|lia|apply test_system_reachable]. Defined.

Lemma lane_fifo_witness :
  Forall (fun l =>
    sl_accepted l = sl_delivered l ++ opt_list (sl_inflight l) ++ sl_queue l ++ sl_discarded l /\
    (sl_discarded l <> [] -> sl_stopping l = true /\ sl_done l = true)) (sys_lanes test_system).
Proof. apply (lane_fifo 2 10 16); [lia|lia|lia|lia|apply test_system_reachable]. Defined.

Lemma stop_finishes_witness :
  exists l' b', run 2 (fun _ => true)
      (stop (fst (push_commit (set_pending (new_lane 10) (Some [1; 2; 3])) (mkBudget 16 0) [1; 2; 3])) true)
      (sys_budget test_system) = Some (l', b') /\
    sl_done l' = true /\ sl_queue l' = [] /\ sl_bytes l' = 0 /\
    used b' = used (sys_budget test_system) - 3 /\
    sl_delivered l' = [[1; 2; 3]] /\ sl_discarded l' = [].
Proof.
  apply (stop_finishes 2 10 16 test_system 0
    (fst (push_commit (set_pending (new_lane 10) (Some [1; 2; 3])) (mkBudget 16 0) [1; 2; 3])) true (fun _ => true));
    [lia|lia|lia|lia|apply test_system_reachable|reflexivity|reflexivity|reflexivity].
Defined.

(** Two lanes can pass their checks against the same value of the shared counter: with
    a shared limit of 10 bytes, 16 end up queued. *)
Theorem budget_overshoot :
  exists s, lanes_reachable 2 10 10 s /\ limit (sys_budget s) = 10 /\ used (sys_budget s) = 16.
Proof.
  set (f := [1; 2; 3; 4; 5; 6; 7; 8]). set (checked := set_pending (new_lane 10) (Some f)).
  set (full := fst (push_commit checked (mkBudget 10 0) f)).
  set (s1 := mkSystem [checked; new_lane 10] (mkBudget 10 0)).
  set (s2 := mkSystem [checked; checked] (mkBudget 10 0)).
  set (s3 := mkSystem [full; checked] (mkBudget 10 8)).
  exists (mkSystem [full; full] (mkBudget 10 16)). split; [|split; reflexivity].
  apply (lanes_next _ _ _ s3); [apply (lanes_next _ _ _ s2); [apply (lanes_next _ _ _ s1)|]|].
  - eapply lanes_next; [apply lanes_init|].
    exact (step_push_check (new_system 2 10 10) 0 (new_lane 10) f eq_refl eq_refl eq_refl).
  - exact (step_push_check s1 1 (new_lane 10) f eq_refl eq_refl eq_refl).
  - exact (step_push_commit s2 0 checked f _ _ eq_refl eq_refl eq_refl).
  - exact (step_push_commit s3 1 checked f _ _ eq_refl eq_refl eq_refl).
Qed.
End SendLaneSpec.
