(* ===== verification/TransportUdp.v ===== *)
(** * The UDP transport (src/transport_udp.cpp)

    Its table of peers, fed by presence datagrams and aged by a sweep, and the events
    its two threads send to the listener.  Sockets are parameters: whether a port can
    be bound, which datagrams arrive and what [sendto] returns are arguments. *)

From S2P Require Import Prelude Memory StdMap Guid Participant ReaderImpl Graph Listener.

(** ** Constants and keys *)

Definition kPresenceSize : Z := 12.
Definition kPeerTimeoutFactor : Z := 4.
Definition kLoopbackIp : Z := 0x7F000001.

Definition make_peer_key (ip port : Z) : PeerId := Z.lor (u64 (Z.shiftl ip 16)) port.

Record TransportConfig := mkConfig {
  domain_id : Z;
  udp_base_port : Z;
  udp_port_count : Z;
  udp_announce_ms : Z;
  udp_max_payload : Z;
  udp_cross_device : bool;
}.

(** What an application asks of a participant; the hook is a test's. *)
Record ParticipantConfig := mkParticipantConfig {
  cfg_domain_id : Z;
  cfg_use_udp_loopback : bool;
  cfg_use_dsoftbus : bool;
  cfg_udp_cross_device : bool;
  cfg_announce_period_ms : Z;
  cfg_udp_base_port : Z;
  cfg_udp_port_count : Z;
  cfg_udp_announce_ms : Z;
  cfg_test_send_hook : option (list Z -> bool);
}.

Definition default_config : ParticipantConfig := mkParticipantConfig 0 true true true 2000 47811 32 500 None.

(** The part handed to every transport by [init]; the frame limit keeps its default. *)
Definition transport_config (cfg : ParticipantConfig) : TransportConfig :=
  mkConfig (cfg_domain_id cfg) (cfg_udp_base_port cfg) (cfg_udp_port_count cfg) (cfg_udp_announce_ms cfg) 60000
    (cfg_udp_cross_device cfg).

(** ** State *)

Record Udp := mkUdp {
  u_config : TransportConfig;
  u_port : Z;
  u_running : bool;
  u_peers : std_map PeerId Z;      (* last presence, in nanoseconds *)
  u_self_addrs : list Z;
  u_broadcast_addrs : list Z;
}.

Definition set_udp_peers (m : std_map PeerId Z) (u : Udp) : Udp :=
  mkUdp (u_config u) (u_port u) (u_running u) m (u_self_addrs u) (u_broadcast_addrs u).

(** ** Starting *)

(** An entry of [getifaddrs]: its IPv4 address if it has one, its flags, its broadcast
    address if there is one. *)
Record Ifaddr := mkIfaddr {
  ifa_addr : option Z;
  ifa_up : bool;
  ifa_broadcast : bool;
  ifa_loopback : bool;
  ifa_broadaddr : option Z;
}.

(** [enumerate_interfaces]: the set of own addresses, the set of broadcast addresses. *)
Definition add_interface (acc : list Z * list Z) (i : Ifaddr) : list Z * list Z :=
  match ifa_addr i with
  | Some ip =>
      if negb (ifa_up i) then acc
      else
        let selfs := set_insert ip (fst acc) in
        if ifa_broadcast i && negb (ifa_loopback i) then
          match ifa_broadaddr i with
          | Some b => if b =? 0 then (selfs, snd acc) else (selfs, set_insert b (snd acc))
          | None => (selfs, snd acc)
          end
        else (selfs, snd acc)
  | None => acc
  end.
Definition enumerate_interfaces (ifas : option (list Ifaddr)) : list Z * list Z :=
  match ifas with
  | None => ([], [])
  | Some l => foldl add_interface ([], []) l
  end.

(** The candidate ports, in order: [udp_base_port + i] in 16 bits. *)
Definition port_range (c : TransportConfig) : list Z :=
  (fun i => u16 (udp_base_port c + i)) <$> seqZ 0 (udp_port_count c).

Definition start (running : bool) (c : TransportConfig) (socket_ok : bool) (bindable : Z -> bool)
    (ifas : option (list Ifaddr)) : option Udp :=
  if running || negb socket_ok then None
  else match find bindable (port_range c) with
       | None => None
       | Some port =>
           let (selfs, bcasts) := if udp_cross_device c then enumerate_interfaces ifas else ([], []) in
           Some (mkUdp c port true [] (set_insert kLoopbackIp selfs) bcasts)
       end.

(** ** Sending *)

Definition presence_packet (c : TransportConfig) : list Z :=
  [0x00; 0x50; 0x49; 0x4E; 0x47] ++ put_u32 (domain_id c) ++ zeros 3.

(** A datagram on the wire: address, port, contents. *)
Definition Datagram : Type := Z * Z * list Z.

Definition send_presence (u : Udp) (ip port : Z) : Datagram := (ip, port, presence_packet (u_config u)).

(** The presence datagrams of one turn of [announce_loop]. *)
Definition announce_datagrams (u : Udp) : list Datagram :=
  (send_presence u kLoopbackIp <$> filter (fun port => port <> u_port u) (port_range (u_config u))) ++
  (if udp_cross_device (u_config u)
   then concat ((fun bcast => send_presence u bcast <$> port_range (u_config u)) <$> u_broadcast_addrs u)
   else []).

Definition max_payload_udp (u : Udp) (peer : PeerId) : Z := udp_max_payload (u_config u).

Definition peer_ip (peer : PeerId) : Z := u32 (Z.shiftr peer 16).
Definition peer_port (peer : PeerId) : Z := u16 (Z.land peer 0xFFFF).

(** [send]: the datagram handed to [sendto], if any; its result is [rc == len]. *)
Definition send (u : Udp) (peer : PeerId) (data : list Z) : option Datagram :=
  if negb (u_running u) || (max_payload_udp u peer <? len data) then None
  else match map_find peer (u_peers u) with
       | None => None
       | Some _ => Some (peer_ip peer, peer_port peer, data)
       end.

(** ** Receiving *)

Definition is_presence (data : list Z) : bool :=
  (len data =? kPresenceSize) && bool_decide (take 5 data = [0x00; 0x50; 0x49; 0x4E; 0x47]).

(** One datagram of [recv_loop]: the new state and the call to the listener, if any.
    The buffer holds [udp_max_payload + 64] bytes; a longer datagram is cut. *)
Definition recv_datagram (u : Udp) (now : Z) (from_ip from_port : Z) (datagram : list Z)
    : Udp * option ListenerEvent :=
  let data := take (Z.to_nat (udp_max_payload (u_config u) + 64)) datagram in
  if len data <=? 0 then (u, None)
  else
    let same_host := bool_decide (from_ip ∈ u_self_addrs u) in
    if (from_port =? u_port u) && same_host then (u, None)
    else
      let peer := make_peer_key (if same_host then kLoopbackIp else from_ip) from_port in
      if is_presence data then
        if negb (bool_decide (take 4 (drop 5 data) = put_u32 (domain_id (u_config u)))) then (u, None)
        else
          (set_udp_peers (map_set peer now (u_peers u)) u,
           match map_find peer (u_peers u) with None => Some (on_peer_up peer) | Some _ => None end)
      else
        match map_find peer (u_peers u) with
        | None => (u, None)
        | Some _ => (u, Some (on_bytes peer data))
        end.

(** ** Sweeping *)

Definition peer_timeout_ns (c : TransportConfig) : Z :=
  u32 (udp_announce_ms c * kPeerTimeoutFactor) * 1000000.
Definition peer_dead (u : Udp) (now last : Z) : bool := peer_timeout_ns (u_config u) <? now - last.

(** [sweep_peers] under its lock: the peers left, and those to report. *)
Definition sweep_peers (u : Udp) (now : Z) : Udp * list PeerId :=
  (set_udp_peers (map_keep (fun _ last => negb (peer_dead u now last)) (u_peers u)) u,
   (filter (fun kv => peer_dead u now kv.2 = true) (u_peers u)).*1).

(** [stop]: the datagram that wakes the receiver, then, once both threads have ended,
    an empty table. *)
Definition stop (u : Udp) : Udp * option Datagram :=
  if negb (u_running u) then (u, None)
  else (mkUdp (u_config u) (u_port u) false [] (u_self_addrs u) (u_broadcast_addrs u),
        Some (send_presence u kLoopbackIp (u_port u))).

(** ** The two threads

    The receiver updates the table, releases the lock and then calls the listener; the
    sweep collects the dead peers under the lock and reports them one by one after
    releasing it.  [t_call] and [t_dead] hold the calls that are still to be made. *)

Record UdpThreads := mkThreads {
  t_udp : Udp;
  t_call : option ListenerEvent;
  t_dead : list PeerId;
  t_events : list ListenerEvent;
}.

Inductive udp_step : UdpThreads -> UdpThreads -> Prop :=
| step_recv u dead evs now ip port data u' call :
    u_running u = true -> recv_datagram u now ip port data = (u', call) ->
    udp_step (mkThreads u None dead evs) (mkThreads u' call dead evs)
| step_recv_call u e dead evs :
    udp_step (mkThreads u (Some e) dead evs) (mkThreads u None dead (evs ++ [e]))
| step_sweep u call evs now u' dead :
    u_running u = true -> sweep_peers u now = (u', dead) ->
    udp_step (mkThreads u call [] evs) (mkThreads u' call dead evs)
| step_sweep_call u call p dead evs :
    udp_step (mkThreads u call (p :: dead) evs) (mkThreads u call dead (evs ++ [on_peer_down p])).

Inductive udp_reachable (u0 : Udp) : UdpThreads -> Prop :=
| udp_init : udp_reachable u0 (mkThreads u0 None [] [])
| udp_next s s' : udp_reachable u0 s -> udp_step s s' -> udp_reachable u0 s'.

(** ** Balance *)

Definition known (p : PeerId) (u : Udp) : Z := match map_find p (u_peers u) with Some _ => 1 | None => 0 end.
Definition upcoming (p : PeerId) (call : option ListenerEvent) : Z :=
  match call with Some e => balance p [e] | None => 0 end.

Record threads_ok (s : UdpThreads) : Prop := {
  to_map : map_ok (u_peers (t_udp s));
  to_balance p :
    balance p (t_events s) + upcoming p (t_call s) - count p (t_dead s) = known p (t_udp s);
}.

(** Receiving a datagram: the peer becomes known and is announced, once. *)
Lemma recv_balance u now ip port data u' call p :
  recv_datagram u now ip port data = (u', call) -> map_ok (u_peers u) ->
  map_ok (u_peers u') /\ known p u + upcoming p call = known p u'.
Proof.
  unfold recv_datagram. intros E Hok. revert E.
  destruct (len _ <=? 0); [by intros [= <- <-]; split; [|simpl; lia]|].
  destruct (_ && _); [by intros [= <- <-]; split; [|simpl; lia]|].
  set (peer := make_peer_key _ _). destruct (is_presence _).
  - destruct (negb _); [by intros [= <- <-]; split; [|simpl; lia]|]. intros [= <- <-].
    split; [by apply map_ok_set|]. unfold known, upcoming. simpl. rewrite map_find_set.
    destruct (decide (p = peer)) as [->|Hne].
    + destruct (map_find peer (u_peers u)); [done|]. rewrite balance_up. by rewrite decide_True.
    + destruct (map_find peer (u_peers u)); [lia|]. rewrite balance_up, decide_False by congruence. lia.
  - destruct (map_find peer (u_peers u)); intros [= <- <-]; (split; [done|]); simpl; [|lia].
    rewrite balance_bytes. lia.
Qed.

(** Sweeping: exactly the peers removed are going to be reported. *)
Lemma sweep_balance u now u' dead p :
  sweep_peers u now = (u', dead) -> map_ok (u_peers u) ->
  map_ok (u_peers u') /\ known p u - count p dead = known p u'.
Proof.
  intros [= <- <-] Hok. split; [by apply map_ok_keep|]. unfold known. simpl.
  rewrite map_find_keep by done. rewrite count_NoDup.
  2:{ eapply sublist_NoDup; [apply (map_keys_NoDup _ Hok)|]. apply sublist_fmap, sublist_filter. }
  assert (Hin : p ∈ (filter (fun kv => peer_dead u now kv.2 = true) (u_peers u)).*1 <->
    exists last, map_find p (u_peers u) = Some last /\ peer_dead u now last = true).
  { rewrite list_elem_of_fmap. split.
    - intros ([k last] & -> & [Hd Hin]%list_elem_of_filter). exists last. split; [by apply map_In_find|done].
    - intros (last & Hf & Hd). exists (p, last). split; [done|]. apply list_elem_of_filter.
      split; [done|by apply map_find_In]. }
  destruct (decide (p ∈ _)) as [Hp|Hp].
  - apply Hin in Hp as (last & -> & ->). done.
  - destruct (map_find p (u_peers u)) as [last|] eqn:E; [|done].
    destruct (peer_dead u now last) eqn:Ed; [|done]. destruct Hp. apply Hin. by exists last.
Qed.

Lemma udp_step_ok s s' : udp_step s s' -> threads_ok s -> threads_ok s'.
Proof.
  destruct 1 as [u dead evs now ip port data u' call Hr E|u e dead evs|u call evs now u' dead Hr E|u call q dead evs];
    intros [Hok Hb]; simpl in *.
  - split; simpl; [by eapply (recv_balance _ _ _ _ _ _ _ 0 E)|]. intros p.
    destruct (recv_balance _ _ _ _ _ _ _ p E Hok) as [_ Hp]. specialize (Hb p). simpl in Hb. lia.
  - split; simpl; [done|]. intros p. specialize (Hb p). rewrite balance_app. lia.
  - split; simpl; [by eapply (sweep_balance _ _ _ _ 0 E)|]. intros p.
    destruct (sweep_balance _ _ _ _ p E Hok) as [_ Hp]. specialize (Hb p). rewrite count_nil in Hb. lia.
  - split; simpl; [done|]. intros p. specialize (Hb p). rewrite count_cons in Hb.
    rewrite balance_app, balance_down. destruct (decide (q = p)); lia.
Qed.

Lemma udp_reachable_ok u0 s : u_peers u0 = [] -> udp_reachable u0 s -> threads_ok s.
Proof.
  intros H0. induction 1 as [|s s' _ IH Hstep]; [|by eapply udp_step_ok].
  split; simpl; rewrite ?H0; [apply map_ok_nil|]. intros p. unfold known. by rewrite H0.
Qed.

(** ** Keys *)

Lemma make_peer_key_eq ip port : fits 32 ip -> fits 16 port -> make_peer_key ip port = ip * 2 ^ 16 + port.
Proof.
  intros Hip Hport. unfold make_peer_key. rewrite wrap_id by (rewrite Z.shiftl_mul_pow2 by lia; ulia).
  by apply shiftl_lor_add.
Qed.

Module UdpSpec.

(** C31. The listener's view of the UDP peers adds up under every interleaving of the
    receiver and the sweep: the times a peer was reported up, minus the times it was
    reported down, counting the calls still to be made, is one when the peer is in the
    table and zero when it is not. *)
Theorem peer_events_balanced (c : TransportConfig) (socket_ok : bool) (bindable : Z -> bool)
    (ifas : option (list Ifaddr)) (u0 : Udp) (s : UdpThreads) (p : PeerId) :
  start false c socket_ok bindable ifas = Some u0 -> udp_reachable u0 s ->
  balance p (t_events s) + upcoming p (t_call s) - count p (t_dead s) =
    match map_find p (u_peers (t_udp s)) with Some _ => 1 | None => 0 end.
Proof.
  intros Hstart Hs. apply (udp_reachable_ok u0); [|done].
  unfold start in Hstart. destruct socket_ok; [|done]. cbn [negb orb] in Hstart.
  destruct (find _ _); [|done]. destruct (if udp_cross_device c then _ else _). by injection Hstart as <-.
Qed.

(** Peer identities: the key of an IPv4 address and port survives the participant's
    tagging with a transport index, and the address and port that [send] uses are read
    back from it; so processes on distinct addresses, ports or transports never share
    an identity. *)
Theorem udp_peer_identity (index ip port : Z) :
  0 <= index < 2 ^ 8 -> fits 32 ip -> fits 16 port ->
  let peer := make_peer_id index (make_peer_key ip port) in
  fits 64 peer /\ peer_transport_index peer = index /\
  peer_ip (peer_backend_id peer) = ip /\ peer_port (peer_backend_id peer) = port.
Proof.
  intros Hi Hip Hport peer. unfold peer. rewrite make_peer_key_eq by done.
  assert (Hk : 0 <= ip * 2 ^ 16 + port < 2 ^ 56) by ulia.
  rewrite make_peer_id_split by done. split_and!.
  - ulia.
  - unfold peer_transport_index. rewrite Z.shiftr_div_pow2, Z.div_add_l, Z.div_small by lia. lia.
  - unfold peer_ip, peer_backend_id. rewrite Z.land_ones, Z.add_comm, Z_mod_plus_full, Z.mod_small by lia.
    rewrite Z.shiftr_div_pow2, Z.div_add_l, Z.div_small by ulia. rewrite Z.add_0_r. by apply wrap_id.
  - unfold peer_port, peer_backend_id. rewrite Z.land_ones, Z.add_comm, Z_mod_plus_full, Z.mod_small by lia.
    change 0xFFFF with (Z.ones 16). rewrite Z.land_ones by lia.
    rewrite Z.add_comm, Z_mod_plus_full, Z.mod_small by ulia. by apply wrap_id.
Qed.

Definition test_config : TransportConfig := mkConfig 0 47811 32 500 60000 false.
Definition test_udp : Udp := mkUdp test_config 47811 true [] [kLoopbackIp] [].
Definition test_ping : list Z := presence_packet test_config.
Definition test_peer : PeerId := make_peer_key 0x0A000002 47811.
Definition test_udp_at (now : Z) : Udp := set_udp_peers [(test_peer, now)] test_udp.

Lemma test_udp_up : udp_reachable test_udp (mkThreads (test_udp_at 5) None [] [on_peer_up test_peer]).
Proof.
  eapply udp_next; [eapply udp_next; [apply udp_init|]|apply (step_recv_call _ (on_peer_up test_peer) [] [])].
  apply (step_recv test_udp [] [] 5 0x0A000002 47811 test_ping); [reflexivity|vm_compute; reflexivity].
Qed.

Lemma peer_events_balanced_witness :
  balance test_peer [on_peer_up test_peer] + upcoming test_peer None - count test_peer [] =
    match map_find test_peer (u_peers (test_udp_at 5)) with Some _ => 1 | None => 0 end.
Proof.
  apply (peer_events_balanced test_config true (fun _ => true) None test_udp
    (mkThreads (test_udp_at 5) None [] [on_peer_up test_peer]) test_peer);
    [vm_compute; reflexivity|apply test_udp_up].
Defined.

Lemma udp_peer_identity_witness :
  let peer := make_peer_id 1 (make_peer_key 0xC0A80102 47811) in
  fits 64 peer /\ peer_transport_index peer = 1 /\
  peer_ip (peer_backend_id peer) = 0xC0A80102 /\ peer_port (peer_backend_id peer) = 47811.
Proof. apply udp_peer_identity; ulia. Defined.

(** The order is not guaranteed: a peer whose presence arrives between the collection
    of the dead peers and their report is reported up and then down, while it stays in
    the table: the listener has dropped a live peer and will not hear of it again. *)
Theorem late_peer_down :
  exists s, udp_reachable test_udp s /\ t_call s = None /\ t_dead s = [] /\
    map_find test_peer (u_peers (t_udp s)) <> None /\ last (t_events s) = Some (on_peer_down test_peer).
Proof.
  set (now := 10000000000).
  exists (mkThreads (test_udp_at now) None [] [on_peer_up test_peer; on_peer_up test_peer; on_peer_down test_peer]).
  split; [|split_and!; try reflexivity; vm_compute; discriminate].
  eapply udp_next; [|apply (step_sweep_call _ None test_peer [] [on_peer_up test_peer; on_peer_up test_peer])].
  eapply udp_next; [|apply (step_recv_call _ (on_peer_up test_peer) [test_peer] [on_peer_up test_peer])].
  eapply udp_next; [|apply (step_recv (set_udp_peers [] test_udp) [test_peer] [on_peer_up test_peer] now 0x0A000002
    47811 test_ping); [reflexivity|vm_compute; reflexivity]].
  eapply udp_next; [apply test_udp_up|].
  apply (step_sweep (test_udp_at 5) None [on_peer_up test_peer] now); [reflexivity|vm_compute; reflexivity].
Qed.
End UdpSpec.
