(* ===== verification/TransportDsoftbus.v ===== *)
(** * The DSoftBus transport (src/transport_dsoftbus.cpp)

    The table of peers, keyed by network id, and the handlers of the socket callbacks.
    The SoftBus service is a parameter: which nodes are online, which descriptors
    [Socket] returns and whether [Listen], [BindAsync], [SendBytes] and the probe of a
    channel's limit succeed are arguments; [Shutdown] calls are results. *)

From S2P Require Import Prelude StdMap Listener SendLane.

Definition kInvalidPeer : Z := 0.
Definition kDefaultMaxPayload : Z := 3800.
Definition kLaneByteBudget : Z := 8 * 1024 * 1024.
Definition kGlobalByteBudget : Z := 32 * 1024 * 1024.

(** ** State *)

Record PeerState := mkPeer {
  ps_peer_id : Z;
  ps_socket_fd : Z;
  ps_pending_fd : Z;
  ps_up_notified : bool;
  ps_lane : option SendLane;
  ps_max_payload : Z;
}.

Record DsoftbusTransport := mkBus {
  b_running : bool;
  b_listen_fd : Z;
  b_peers : std_map (list Z) PeerState;
  b_next_peer_id : Z;
  b_budget : SendBudget;
  b_instance : bool;               (* s_instance is this transport *)
}.

Definition new_bus : DsoftbusTransport := mkBus false (-1) [] 1 (mkBudget kGlobalByteBudget 0) false.

Definition set_bus_peers (m : std_map (list Z) PeerState) (b : DsoftbusTransport) : DsoftbusTransport :=
  mkBus (b_running b) (b_listen_fd b) m (b_next_peer_id b) (b_budget b) (b_instance b).
Definition set_pending_fd (fd : Z) (st : PeerState) : PeerState :=
  mkPeer (ps_peer_id st) (ps_socket_fd st) fd (ps_up_notified st) (ps_lane st) (ps_max_payload st).

(** ** Starting and stopping *)

Definition bus_start (b : DsoftbusTransport) (fd : Z) (listen_ok : bool) : DsoftbusTransport * bool :=
  if b_running b || b_instance b then (b, false)
  else if fd <? 0 then (mkBus (b_running b) fd (b_peers b) (b_next_peer_id b) (b_budget b) (b_instance b), false)
  else if negb listen_ok then
    (mkBus (b_running b) (-1) (b_peers b) (b_next_peer_id b) (b_budget b) (b_instance b), false)
  else (mkBus true fd (b_peers b) (b_next_peer_id b) (b_budget b) true, true).

(** What a lane gives back to the shared budget when it is stopped without draining. *)
Definition discard_lane (budget : SendBudget) (lane : option SendLane) : SendBudget :=
  match lane with
  | Some l => snd (release_all (sl_queue l) (sl_bytes l) budget)
  | None => budget
  end.

Definition bus_stop (b : DsoftbusTransport) : DsoftbusTransport * list Z :=
  if negb (b_running b) then (b, [])
  else
    let fds := filter (fun fd => 0 <= fd) ((fun kv => ps_socket_fd kv.2) <$> b_peers b) in
    let budget := foldl (fun bud kv => discard_lane bud (ps_lane kv.2)) (b_budget b) (b_peers b) in
    (mkBus false (-1) [] (b_next_peer_id b) budget false,
     fds ++ (if 0 <=? b_listen_fd b then [b_listen_fd b] else [])).

(** ** Connecting *)

(** The loop of [connect_online_peers] over the nodes: new entries, and whom to bind. *)
Definition note_node (acc : DsoftbusTransport * list (list Z)) (nid : list Z) : DsoftbusTransport * list (list Z) :=
  let b := fst acc in
  match map_find nid (b_peers b) with
  | None =>
      (mkBus (b_running b) (b_listen_fd b)
         (map_set nid (mkPeer (b_next_peer_id b) (-1) (-1) false None 0) (b_peers b))
         (u64 (b_next_peer_id b + 1)) (b_budget b) (b_instance b), snd acc ++ [nid])
  | Some st =>
      if (ps_socket_fd st <? 0) && (ps_pending_fd st <? 0) then (b, snd acc ++ [nid]) else acc
  end.

(** [bind_peer], given the descriptor of [Socket] and whether [BindAsync] succeeded. *)
Definition bind_peer (b : DsoftbusTransport) (nid : list Z) (fd : Z) (bind_ok : bool)
    : DsoftbusTransport * list Z :=
  if fd <? 0 then (b, [])
  else match map_find nid (b_peers b) with
       | None => (b, [fd])
       | Some st =>
           if bind_ok then (set_bus_peers (map_set nid (set_pending_fd fd st) (b_peers b)) b, [])
           else (set_bus_peers (map_set nid (set_pending_fd (-1) st) (b_peers b)) b, [fd])
       end.

Definition connect_online_peers (b : DsoftbusTransport) (nodes : list (list Z))
    (sockets : list Z -> Z * bool) : DsoftbusTransport * list Z :=
  let (b1, to_bind) := foldl note_node (b, []) nodes in
  foldl (fun acc nid =>
    let (b', shut) := bind_peer (fst acc) nid (fst (sockets nid)) (snd (sockets nid)) in (b', snd acc ++ shut))
    (b1, []) to_bind.

(** ** Callbacks *)

(** [probe_max_payload]: 0 when [GetSessionOption] fails or reports 0. *)
Definition probe_max_payload (option : option Z) : Z := default 0 option.

Definition on_bind (b : DsoftbusTransport) (fd : Z) (nid : list Z) (option : option Z)
    : DsoftbusTransport * list Z * list ListenerEvent :=
  if bool_decide (nid = []) then (b, [], [])
  else
    let fresh := mkPeer (b_next_peer_id b) (-1) (-1) false None 0 in
    let next := match map_find nid (b_peers b) with
                | None => u64 (b_next_peer_id b + 1) | Some _ => b_next_peer_id b end in
    let st := default fresh (map_find nid (b_peers b)) in
    let pending := if ps_pending_fd st =? fd then -1 else ps_pending_fd st in
    let keep st' := mkBus (b_running b) (b_listen_fd b) (map_set nid st' (b_peers b)) next (b_budget b) (b_instance b) in
    if ps_socket_fd st <? 0 then
      (keep (mkPeer (ps_peer_id st) fd pending true (Some (new_lane kLaneByteBudget)) (probe_max_payload option)),
       [], [on_peer_up (ps_peer_id st)])
    else if negb (ps_socket_fd st =? fd) then
      (keep (set_pending_fd pending st), [fd], [])
    else (keep (set_pending_fd pending st), [], []).

(** The body of the loop of [on_shutdown]. *)
Definition shutdown_entry (fd : Z) (st : PeerState) : PeerState :=
  if ps_socket_fd st =? fd then mkPeer (ps_peer_id st) (-1) (ps_pending_fd st) false None 0
  else if ps_pending_fd st =? fd then set_pending_fd (-1) st
  else st.
Definition is_down (fd : Z) (st : PeerState) : bool := (ps_socket_fd st =? fd) && ps_up_notified st.

(** The variables [peer_id] and [dead_lane] after the loop. *)
Definition downed_peer (fd : Z) (m : std_map (list Z) PeerState) : Z :=
  foldl (fun id kv => if is_down fd kv.2 then ps_peer_id kv.2 else id) kInvalidPeer m.
Definition dead_lane (fd : Z) (m : std_map (list Z) PeerState) : option SendLane :=
  foldl (fun lane kv => if ps_socket_fd kv.2 =? fd then ps_lane kv.2 else lane) None m.

Definition on_shutdown (b : DsoftbusTransport) (fd : Z) : DsoftbusTransport * list ListenerEvent :=
  if fd =? b_listen_fd b then
    (mkBus false (b_listen_fd b) (b_peers b) (b_next_peer_id b) (b_budget b) (b_instance b), [])
  else
    let peer_id := downed_peer fd (b_peers b) in
    (mkBus (b_running b) (b_listen_fd b) ((fun kv => (kv.1, shutdown_entry fd kv.2)) <$> b_peers b)
       (b_next_peer_id b) (discard_lane (b_budget b) (dead_lane fd (b_peers b))) (b_instance b),
     if negb (peer_id =? kInvalidPeer) then [on_peer_down peer_id] else []).

Definition on_bytes_received (b : DsoftbusTransport) (fd : Z) (data : list Z) : list ListenerEvent :=
  match find (fun kv => ps_socket_fd kv.2 =? fd) (b_peers b) with
  | Some kv => if negb (ps_peer_id kv.2 =? kInvalidPeer) then [on_bytes (ps_peer_id kv.2) data] else []
  | None => []
  end.

Definition on_error (b : DsoftbusTransport) (fd : Z) : DsoftbusTransport * list Z :=
  match find (fun kv => ps_pending_fd kv.2 =? fd) (b_peers b) with
  | Some kv => (set_bus_peers (map_set kv.1 (set_pending_fd (-1) kv.2) (b_peers b)) b, [fd])
  | None => (b, [])
  end.

(** ** Sending *)

Definition has_lane (st : PeerState) : bool := match ps_lane st with Some _ => true | None => false end.

Definition bus_send (b : DsoftbusTransport) (peer : Z) (data : list Z) : DsoftbusTransport * bool :=
  match find (fun kv => (ps_peer_id kv.2 =? peer) && has_lane kv.2) (b_peers b) with
  | None => (b, false)
  | Some (nid, st) =>
      match ps_lane st with
      | None => (b, false)
      | Some lane =>
          match push lane (b_budget b) data with
          | (lane', budget', ok) =>
              (mkBus (b_running b) (b_listen_fd b)
                 (map_set nid (mkPeer (ps_peer_id st) (ps_socket_fd st) (ps_pending_fd st) (ps_up_notified st)
                    (Some lane') (ps_max_payload st)) (b_peers b))
                 (b_next_peer_id b) budget' (b_instance b), ok)
          end
      end
  end.

Definition bus_max_payload (b : DsoftbusTransport) (peer : Z) : Z :=
  match find (fun kv => ps_peer_id kv.2 =? peer) (b_peers b) with
  | Some kv => if 0 <? ps_max_payload kv.2 then ps_max_payload kv.2 else kDefaultMaxPayload
  | None => kDefaultMaxPayload
  end.

(** The lane's sink: the bytes go out only on the channel that is still the peer's. *)
Definition deliver (b : DsoftbusTransport) (peer fd : Z) (send_bytes_ok : bool) : bool :=
  b_running b && existsb (fun kv => (ps_peer_id kv.2 =? peer) && (ps_socket_fd kv.2 =? fd)) (b_peers b) &&
  send_bytes_ok.

(** ** Threads

    Callbacks, polls and sends in any order.  A callback changes the table under the
    mutex and calls the listener after releasing it: the calls due are kept in
    [bt_calls] and are made one by one in any order. *)

Record BusThreads := mkBusThreads {
  bt_bus : DsoftbusTransport;
  bt_calls : list ListenerEvent;
  bt_events : list ListenerEvent;
}.

(** The service uses a descriptor for one channel at a time. *)
Definition fd_free (b : DsoftbusTransport) (nid : list Z) (fd : Z) : Prop :=
  0 <= fd /\ forall k st, map_find k (b_peers b) = Some st -> k <> nid -> ps_socket_fd st <> fd.

Inductive bus_step : BusThreads -> BusThreads -> Prop :=
| bus_online b calls evs nodes sockets :
    b_running b = true -> b_next_peer_id b + len nodes < 2 ^ 64 ->
    bus_step (mkBusThreads b calls evs)
      (mkBusThreads (fst (connect_online_peers b nodes sockets)) calls evs)
| bus_bind b calls evs fd nid option b' shut up :
    b_instance b = true -> fd_free b nid fd -> b_next_peer_id b + 1 < 2 ^ 64 ->
    on_bind b fd nid option = (b', shut, up) ->
    bus_step (mkBusThreads b calls evs) (mkBusThreads b' (calls ++ up) evs)
| bus_shutdown b calls evs fd b' down :
    b_instance b = true -> on_shutdown b fd = (b', down) ->
    bus_step (mkBusThreads b calls evs) (mkBusThreads b' (calls ++ down) evs)
| bus_bytes b calls evs fd data :
    b_instance b = true ->
    bus_step (mkBusThreads b calls evs) (mkBusThreads b (calls ++ on_bytes_received b fd data) evs)
| bus_error b calls evs fd :
    b_instance b = true ->
    bus_step (mkBusThreads b calls evs) (mkBusThreads (fst (on_error b fd)) calls evs)
| bus_sends b calls evs peer data :
    bus_step (mkBusThreads b calls evs) (mkBusThreads (fst (bus_send b peer data)) calls evs)
| bus_call b l1 e l2 evs :
    bus_step (mkBusThreads b (l1 ++ e :: l2) evs) (mkBusThreads b (l1 ++ l2) (evs ++ [e])).

(** Everything that can happen to a transport that was started. *)
Inductive bus_reachable : BusThreads -> Prop :=
| bus_init fd b : bus_start new_bus fd true = (b, true) -> bus_reachable (mkBusThreads b [] [])
| bus_next s s' : bus_reachable s -> bus_step s s' -> bus_reachable s'.

(** ** Sums over a table *)

Definition msum {K V} (g : V -> Z) (m : std_map K V) : Z := zsum ((fun kv => g kv.2) <$> m).

Section msum.
Context {K V : Type} `{EqDecision K, KeyLt K, !KeyOrder K} (g : V -> Z).
Implicit Types m : std_map K V.

Lemma msum_cons kv m : msum g (kv :: m) = g kv.2 + msum g m.
Proof. done. Qed.

Lemma msum_set k v m :
  map_ok m -> msum g (map_set k v m) = msum g m - from_option g 0 (map_find k m) + g v.
Proof.
  induction 1 as [|[k0 v0] m Hs IH Hall]; [simpl; unfold msum; simpl; lia|].
  cbn [map_set map_find]. destruct (decide (k = k0)) as [->|Hne]; [rewrite !msum_cons; simpl; lia|].
  destruct (key_lt k k0) eqn:Hlt; rewrite !msum_cons; cbn [snd]; [|rewrite IH; lia].
  destruct (map_find k m) as [v'|] eqn:E; [|simpl; lia]. exfalso.
  apply map_find_In in E. rewrite Forall_forall in Hall. specialize (Hall _ E). unfold entry_lt in Hall. simpl in Hall.
  pose proof (key_lt_trans _ _ _ Hlt Hall) as Hc. by rewrite key_lt_irrefl in Hc.
Qed.

Lemma msum_zero m : (forall k v, (k, v) ∈ m -> g v = 0) -> msum g m = 0.
Proof.
  induction m as [|[k v] m IH]; intros Hz; [done|]. rewrite msum_cons. cbn [snd].
  rewrite (Hz k v) by left. rewrite IH; [done|]. intros k' v' ?. eapply Hz. by right.
Qed.

Lemma msum_app m1 m2 : msum g (m1 ++ m2) = msum g m1 + msum g m2.
Proof. induction m1 as [|kv m1 IH]; [done|]. cbn [app]. rewrite !msum_cons, IH. lia. Qed.

Lemma msum_single k v m :
  map_ok m -> map_find k m = Some v ->
  (forall k' v', map_find k' m = Some v' -> k' <> k -> g v' = 0) -> msum g m = g v.
Proof.
  intros Hok Hf Hz. pose proof (map_keys_NoDup _ Hok) as Hnd.
  assert (Hz' : forall k' v', (k', v') ∈ m -> k' <> k -> g v' = 0).
  { intros k' v' Hin. apply (Hz k'). by apply map_In_find. }
  apply map_find_In, list_elem_of_split in Hf as (l1 & l2 & ->).
  unfold map_keys in Hnd. rewrite fmap_app, fmap_cons in Hnd. apply NoDup_app in Hnd as (_ & Hd & Hnd).
  apply NoDup_cons in Hnd as [Hn2 _]. rewrite msum_app, msum_cons. cbn [snd].
  rewrite (msum_zero l1), (msum_zero l2); [lia|..].
  - intros k' v' Hin. apply (Hz' k'); [apply elem_of_app; right; by right|]. intros ->. apply Hn2.
    by apply (list_elem_of_fmap_2 fst l2 (k, v')).
  - intros k' v' Hin. apply (Hz' k'); [apply elem_of_app; by left|]. intros ->.
    apply (Hd k); [by apply (list_elem_of_fmap_2 fst l1 (k, v'))|left].
Qed.
End msum.

(** ** The invariant *)

Definition up_for (p : Z) (st : PeerState) : Z := if ps_up_notified st && (ps_peer_id st =? p) then 1 else 0.

(** A connected entry has a channel and a lane, and was reported; any other has none. *)
Definition entry_ok (next : Z) (st : PeerState) : Prop :=
  1 <= ps_peer_id st < next /\ ps_up_notified st = (0 <=? ps_socket_fd st) /\ has_lane st = ps_up_notified st.

Record bus_ok (s : BusThreads) : Prop := {
  bo_map : map_ok (b_peers (bt_bus s));
  bo_next : 1 <= b_next_peer_id (bt_bus s);
  bo_entry k st : map_find k (b_peers (bt_bus s)) = Some st -> entry_ok (b_next_peer_id (bt_bus s)) st;
  bo_ids k k' st st' : map_find k (b_peers (bt_bus s)) = Some st -> map_find k' (b_peers (bt_bus s)) = Some st' ->
    ps_peer_id st = ps_peer_id st' -> k = k';
  bo_fds k k' st st' : map_find k (b_peers (bt_bus s)) = Some st -> map_find k' (b_peers (bt_bus s)) = Some st' ->
    ps_socket_fd st = ps_socket_fd st' -> 0 <= ps_socket_fd st -> k = k';
  bo_balance p : balance p (bt_events s) + balance p (bt_calls s) = msum (up_for p) (b_peers (bt_bus s));
}.

(** A table that differs from [b]'s in one entry, with the same id, channel and report
    state: the pending descriptor, the lane or the limit. *)
Definition same_channel (st st' : PeerState) : Prop :=
  ps_peer_id st' = ps_peer_id st /\ ps_socket_fd st' = ps_socket_fd st /\
  ps_up_notified st' = ps_up_notified st /\ has_lane st' = has_lane st.

Lemma bus_ok_same b calls evs nid st st' next budget running lfd inst :
  bus_ok (mkBusThreads b calls evs) -> map_find nid (b_peers b) = Some st -> same_channel st st' ->
  b_next_peer_id b <= next ->
  bus_ok (mkBusThreads (mkBus running lfd (map_set nid st' (b_peers b)) next budget inst) calls evs).
Proof.
  intros [Hm Hn He Hi Hf Hb] Hst (E1 & E2 & E3 & E4) Hle. simpl in *.
  assert (Hback : forall k x, map_find k (map_set nid st' (b_peers b)) = Some x ->
    exists y, map_find k (b_peers b) = Some y /\ same_channel y x).
  { intros k x. rewrite map_find_set. destruct (decide (k = nid)) as [->|]; [intros [= <-]; by exists st|].
    intros Hx. exists x. by split. }
  split; simpl.
  - by apply map_ok_set.
  - lia.
  - intros k x (y & Hy & Ey1 & Ey2 & Ey3 & Ey4)%Hback. destruct (He _ _ Hy) as (? & ? & ?). unfold entry_ok.
    rewrite Ey1, Ey2, Ey3, Ey4. split; [lia|done].
  - intros k k' x x' (y & Hy & Ey & _)%Hback (y' & Hy' & Ey' & _)%Hback. rewrite Ey, Ey'. by apply Hi.
  - intros k k' x x' (y & Hy & _ & Ey & _)%Hback (y' & Hy' & _ & Ey' & _)%Hback. rewrite Ey, Ey'. by apply Hf.
  - intros p. rewrite msum_set, Hb by done. rewrite Hst. simpl.
    assert (E : up_for p st' = up_for p st) by (unfold up_for; by rewrite E1, E3). lia.
Qed.

(** A new entry, not connected. *)
Lemma bus_ok_fresh b calls evs nid budget running lfd inst :
  bus_ok (mkBusThreads b calls evs) -> map_find nid (b_peers b) = None -> b_next_peer_id b + 1 < 2 ^ 64 ->
  bus_ok (mkBusThreads (mkBus running lfd (map_set nid (mkPeer (b_next_peer_id b) (-1) (-1) false None 0) (b_peers b))
    (u64 (b_next_peer_id b + 1)) budget inst) calls evs).
Proof.
  intros [Hm Hn He Hi Hf Hb] Hst Hlt. simpl in *. rewrite wrap_id by ulia. split; simpl.
  - by apply map_ok_set.
  - lia.
  - intros k x. rewrite map_find_set. destruct (decide (k = nid)) as [->|].
    + intros [= <-]. split; [simpl; lia|done].
    + intros Hx. destruct (He _ _ Hx) as (? & ? & ?). split; [lia|done].
  - intros k k' x x'. rewrite !map_find_set. destruct (decide (k = nid)) as [->|], (decide (k' = nid)) as [->|]; try done.
    + intros [= <-] Hx. simpl. destruct (He _ _ Hx) as (? & _). lia.
    + intros Hx [= <-]. simpl. destruct (He _ _ Hx) as (? & _). lia.
    + apply Hi.
  - intros k k' x x'. rewrite !map_find_set. destruct (decide (k = nid)) as [->|], (decide (k' = nid)) as [->|]; try done.
    + intros [= <-] Hx. simpl. lia.
    + intros Hx [= <-]. simpl. lia.
    + apply Hf.
  - intros p. rewrite msum_set, Hb, Hst by done. simpl. unfold up_for at 3. simpl. lia.
Qed.

(** An entry that gets its channel. *)
Lemma bus_ok_connect b calls evs nid st fd pending limit :
  bus_ok (mkBusThreads b calls evs) -> map_find nid (b_peers b) = Some st -> ps_socket_fd st < 0 -> fd_free b nid fd ->
  bus_ok (mkBusThreads (set_bus_peers (map_set nid (mkPeer (ps_peer_id st) fd pending true
    (Some (new_lane kLaneByteBudget)) limit) (b_peers b)) b) (calls ++ [on_peer_up (ps_peer_id st)]) evs).
Proof.
  intros [Hm Hn He Hi Hf Hb] Hst Hneg [Hfd Hfree]. simpl in *. split; simpl.
  - by apply map_ok_set.
  - done.
  - intros k x. rewrite map_find_set. destruct (decide (k = nid)) as [->|]; [|apply He].
    intros [= <-]. destruct (He _ _ Hst) as (? & _). split_and!; simpl; [lia|lia| |done].
    symmetry. by apply Z.leb_le.
  - intros k k' x x'. rewrite !map_find_set. destruct (decide (k = nid)) as [->|], (decide (k' = nid)) as [->|]; try done.
    + intros [= <-] Hx. simpl. by apply (Hi nid k' st x').
    + intros Hx [= <-]. simpl. by apply (Hi k nid x st).
    + apply Hi.
  - intros k k' x x'. rewrite !map_find_set. destruct (decide (k = nid)) as [->|], (decide (k' = nid)) as [->|]; try done.
    + intros [= <-] Hx. simpl. intros E _. by destruct (Hfree k' x').
    + intros Hx [= <-]. simpl. intros E _. by destruct (Hfree k x).
    + apply Hf.
  - intros p. rewrite balance_app, balance_up, Z.add_assoc, Hb, msum_set, Hst by done. simpl.
    destruct (He _ _ Hst) as (_ & Hup & _). rewrite (proj2 (Z.leb_gt _ _)) in Hup by done.
    unfold up_for at 3 4. rewrite Hup. simpl. destruct (decide (ps_peer_id st = p)) as [->|Hne].
    + rewrite Z.eqb_refl. lia.
    + rewrite (proj2 (Z.eqb_neq _ _)) by done. lia.
Qed.

Lemma same_channel_pending fd st : same_channel st (set_pending_fd fd st).
Proof. done. Qed.

Lemma on_bind_ok b calls evs fd nid option b' shut up :
  bus_ok (mkBusThreads b calls evs) -> fd_free b nid fd -> b_next_peer_id b + 1 < 2 ^ 64 ->
  on_bind b fd nid option = (b', shut, up) -> bus_ok (mkBusThreads b' (calls ++ up) evs).
Proof.
  intros Hok Hfree Hlt. unfold on_bind. case_bool_decide as Hnid.
  { intros [= <- <- <-]. by rewrite app_nil_r. }
  destruct (map_find nid (b_peers b)) as [st|] eqn:Est; cbv zeta; cbn [from_option id].
  - destruct (Z.ltb_spec (ps_socket_fd st) 0).
    { intros [= <- <- <-]. by apply (bus_ok_connect b calls evs nid st). }
    destruct (negb (ps_socket_fd st =? fd)); intros [= <- <- <-]; rewrite app_nil_r;
      (eapply (bus_ok_same b calls evs nid st); [done|done|apply same_channel_pending|done]).
  - cbn [ps_socket_fd]. change (-1 <? 0) with true. cbv iota. intros [= <- <- <-].
    pose proof (bus_ok_fresh b calls evs nid (b_budget b) (b_running b) (b_listen_fd b) (b_instance b) Hok Est Hlt) as Hf.
    set (b1 := mkBus _ _ _ _ _ _) in Hf.
    assert (Hst1 : map_find nid (b_peers b1) = Some (mkPeer (b_next_peer_id b) (-1) (-1) false None 0)).
    { unfold b1. simpl. apply map_find_set_eq. }
    pose proof (bus_ok_connect b1 calls evs nid _ fd (if -1 =? fd then -1 else -1) (probe_max_payload option) Hf Hst1
      ltac:(simpl; lia)) as Hc.
    unfold set_bus_peers, b1 in Hc. simpl in Hc. rewrite map_set_set in Hc. apply Hc.
    destruct Hfree as [Hfd Hfree]. split; [done|]. simpl. intros k st. rewrite map_find_set.
    destruct (decide (k = nid)); [done|]. apply Hfree.
Qed.

(** *** Shutdown *)

Lemma downed_none fd l acc :
  Forall (fun kv => is_down fd kv.2 = false) l ->
  foldl (fun id (kv : list Z * PeerState) => if is_down fd kv.2 then ps_peer_id kv.2 else id) acc l = acc.
Proof. induction 1 as [|kv l E Hl IH] in acc |- *; [done|]. cbn [foldl]. by rewrite E. Qed.

Lemma shutdown_up_for fd p st :
  up_for p (shutdown_entry fd st) = if is_down fd st then 0 else up_for p st.
Proof.
  unfold shutdown_entry, is_down, up_for. destruct (ps_socket_fd st =? fd); simpl.
  - by destruct (ps_up_notified st).
  - by destruct (ps_pending_fd st =? fd).
Qed.

Lemma sum_not_down fd p (l : std_map (list Z) PeerState) :
  Forall (fun kv => is_down fd kv.2 = false) l ->
  msum (up_for p) ((fun kv => (kv.1, shutdown_entry fd kv.2)) <$> l) = msum (up_for p) l.
Proof.
  induction 1 as [|kv l E Hl IH]; [done|]. rewrite fmap_cons, !msum_cons, IH. cbn [snd].
  by rewrite shutdown_up_for, E.
Qed.

(** At most one entry is on the channel, and it is the one reported. *)
Lemma shutdown_sum fd p next (m : std_map (list Z) PeerState) :
  map_ok m -> (forall k st, map_find k m = Some st -> entry_ok next st) ->
  (forall k k' st st', map_find k m = Some st -> map_find k' m = Some st' ->
     ps_socket_fd st = ps_socket_fd st' -> 0 <= ps_socket_fd st -> k = k') ->
  msum (up_for p) ((fun kv => (kv.1, shutdown_entry fd kv.2)) <$> m) =
  msum (up_for p) m + (if downed_peer fd m =? kInvalidPeer then 0 else balance p [on_peer_down (downed_peer fd m)]).
Proof.
  intros Hm He Hf. unfold downed_peer.
  destruct (existsb (fun kv => is_down fd kv.2) m) eqn:Ex.
  - apply existsb_exists in Ex as ([k st] & Hin%list_elem_of_In & Hd). simpl in Hd.
    pose proof (map_In_find _ _ _ Hm Hin) as Hst. destruct (He _ _ Hst) as (Hid & Hup & _).
    unfold is_down in Hd. apply andb_true_iff in Hd as [Hfd%Z.eqb_eq Hu].
    assert (Hother : forall kv, kv ∈ m -> kv.1 <> k -> is_down fd kv.2 = false).
    { intros [k' st'] Hin' Hne. simpl in *. apply not_true_iff_false. unfold is_down.
      intros [Hfd'%Z.eqb_eq Hu']%andb_true_iff. pose proof (map_In_find _ _ _ Hm Hin') as Hst'.
      destruct (He _ _ Hst') as (_ & Hup' & _). rewrite Hu' in Hup'. symmetry in Hup'. apply Z.leb_le in Hup'.
      apply Hne, (Hf k' k st' st); [done|done|congruence|done]. }
    pose proof (map_keys_NoDup _ Hm) as Hnd. unfold map_keys in Hnd.
    apply list_elem_of_split in Hin as (l1 & l2 & ->). rewrite fmap_app, fmap_cons in Hnd.
    apply NoDup_app in Hnd as (_ & Hd1 & Hnd). apply NoDup_cons in Hnd as [Hn2 _].
    assert (H1 : Forall (fun kv => is_down fd kv.2 = false) l1).
    { apply Forall_forall. intros kv Hkv. apply Hother; [apply elem_of_app; by left|]. intros E.
      apply (Hd1 kv.1); [by apply list_elem_of_fmap_2|]. rewrite E. left. }
    assert (H2 : Forall (fun kv => is_down fd kv.2 = false) l2).
    { apply Forall_forall. intros kv Hkv. apply Hother; [apply elem_of_app; right; by right|]. intros E.
      apply Hn2. simpl. rewrite <- E. by apply list_elem_of_fmap_2. }
    rewrite fmap_app, fmap_cons, !msum_app, !msum_cons, !sum_not_down by done. cbn [snd].
    rewrite foldl_app. cbn [foldl snd]. rewrite (downed_none _ _ _ H1).
    assert (Ed : is_down fd st = true) by (unfold is_down; by rewrite Hfd, Z.eqb_refl, Hu).
    rewrite Ed, (downed_none _ _ _ H2), shutdown_up_for, Ed.
    rewrite (proj2 (Z.eqb_neq _ _)) by (unfold kInvalidPeer; lia). rewrite balance_down.
    unfold up_for at 4. rewrite Hu. cbn [andb]. destruct (decide (ps_peer_id st = p)) as [->|Hne].
    + rewrite Z.eqb_refl. lia.
    + rewrite (proj2 (Z.eqb_neq _ _)) by done. lia.
  - assert (Hall : Forall (fun kv => is_down fd kv.2 = false) m).
    { apply Forall_forall. intros kv Hkv. apply not_true_iff_false. intros Hd.
      apply not_true_iff_false in Ex. apply Ex, existsb_exists. exists kv. split; [by apply list_elem_of_In|done]. }
    rewrite sum_not_down, (downed_none _ _ _ Hall) by done. simpl. lia.
Qed.

Lemma find_shutdown fd k (m : std_map (list Z) PeerState) :
  map_find k ((fun kv => (kv.1, shutdown_entry fd kv.2)) <$> m) = shutdown_entry fd <$> map_find k m.
Proof. induction m as [|[k' v] m IH]; simpl; [done|]. by destruct (decide (k = k')). Qed.

Lemma map_ok_shutdown fd (m : std_map (list Z) PeerState) :
  map_ok m -> map_ok ((fun kv => (kv.1, shutdown_entry fd kv.2)) <$> m).
Proof.
  induction 1 as [|e m Hs IH Hall]; simpl; [constructor|]. constructor; [done|].
  rewrite Forall_fmap. eapply Forall_impl; [exact Hall|]. done.
Qed.

Lemma shutdown_entry_ok next fd st : entry_ok next st -> entry_ok next (shutdown_entry fd st).
Proof.
  intros (Hid & Hup & Hl). unfold shutdown_entry. destruct (ps_socket_fd st =? fd); [by split|].
  by destruct (ps_pending_fd st =? fd).
Qed.

Lemma shutdown_entry_id fd st : ps_peer_id (shutdown_entry fd st) = ps_peer_id st.
Proof. unfold shutdown_entry. destruct (_ =? _); [done|]. by destruct (_ =? _). Qed.

Lemma shutdown_entry_fd fd st :
  0 <= ps_socket_fd (shutdown_entry fd st) -> ps_socket_fd (shutdown_entry fd st) = ps_socket_fd st.
Proof. unfold shutdown_entry. destruct (_ =? _); simpl; [lia|]. by destruct (_ =? _). Qed.

Lemma on_shutdown_ok b calls evs fd b' down :
  bus_ok (mkBusThreads b calls evs) -> on_shutdown b fd = (b', down) -> bus_ok (mkBusThreads b' (calls ++ down) evs).
Proof.
  intros [Hm Hn He Hi Hf Hb]. simpl in *. unfold on_shutdown. destruct (fd =? b_listen_fd b).
  { intros [= <- <-]. rewrite app_nil_r. by split. }
  intros [= <- <-]. split; simpl.
  - by apply map_ok_shutdown.
  - done.
  - intros k x. rewrite find_shutdown. destruct (map_find k (b_peers b)) as [st|] eqn:E; [|done].
    intros [= <-]. by apply shutdown_entry_ok, (He k).
  - intros k k' x x'. rewrite !find_shutdown.
    destruct (map_find k (b_peers b)) as [st|] eqn:E, (map_find k' (b_peers b)) as [st'|] eqn:E'; try done.
    intros [= <-] [= <-]. rewrite !shutdown_entry_id. by apply Hi.
  - intros k k' x x'. rewrite !find_shutdown.
    destruct (map_find k (b_peers b)) as [st|] eqn:E, (map_find k' (b_peers b)) as [st'|] eqn:E'; try done.
    intros [= <-] [= <-] Efd Hpos. pose proof (shutdown_entry_fd fd st Hpos) as E1.
    rewrite Efd in Hpos. pose proof (shutdown_entry_fd fd st' Hpos) as E2.
    apply (Hf k k' st st'); [done|done|congruence|congruence].
  - intros p. rewrite (shutdown_sum fd p (b_next_peer_id b)) by done. rewrite balance_app, Z.add_assoc, Hb.
    by destruct (downed_peer fd (b_peers b) =? kInvalidPeer).
Qed.

(** Polling adds entries and descriptors only. *)
Lemma note_node_ok acc calls evs nid :
  bus_ok (mkBusThreads (fst acc) calls evs) -> b_next_peer_id (fst acc) + 1 < 2 ^ 64 ->
  bus_ok (mkBusThreads (fst (note_node acc nid)) calls evs) /\
  b_next_peer_id (fst (note_node acc nid)) <= b_next_peer_id (fst acc) + 1.
Proof.
  intros Hok Hlt. unfold note_node. destruct (map_find nid (b_peers (fst acc))) as [st|] eqn:E.
  - destruct (_ && _); (split; [done|simpl; lia]).
  - cbn [fst]. split; [by apply bus_ok_fresh|]. cbn [b_next_peer_id]. pose proof (bo_next _ Hok) as Hn. simpl in Hn.
    rewrite wrap_id by ulia. lia.
Qed.

Lemma bind_peer_ok b calls evs nid fd ok :
  bus_ok (mkBusThreads b calls evs) -> bus_ok (mkBusThreads (fst (bind_peer b nid fd ok)) calls evs).
Proof.
  intros Hok. unfold bind_peer. destruct (fd <? 0); [done|].
  destruct (map_find nid (b_peers b)) as [st|] eqn:E; [|done].
  destruct ok; cbn [fst]; (eapply (bus_ok_same b calls evs nid st); [done|done|apply same_channel_pending|done]).
Qed.

Lemma connect_ok b calls evs nodes sockets :
  bus_ok (mkBusThreads b calls evs) -> b_next_peer_id b + len nodes < 2 ^ 64 ->
  bus_ok (mkBusThreads (fst (connect_online_peers b nodes sockets)) calls evs).
Proof.
  intros Hok Hlt. unfold connect_online_peers.
  assert (H1 : forall ns acc, bus_ok (mkBusThreads (fst acc) calls evs) ->
    b_next_peer_id (fst acc) + len ns < 2 ^ 64 -> bus_ok (mkBusThreads (fst (foldl note_node acc ns)) calls evs)).
  { intros ns. induction ns as [|nid ns IH]; intros acc Ha Hl; [done|]. cbn [foldl length] in *.
    destruct (note_node_ok acc calls evs nid Ha) as [Ha' Hn]; [lia|]. apply IH; [done|lia]. }
  specialize (H1 nodes (b, []) Hok Hlt). destruct (foldl note_node (b, []) nodes) as [b1 to_bind]. simpl in H1.
  assert (H2 : forall l acc, bus_ok (mkBusThreads (fst acc) calls evs) ->
    bus_ok (mkBusThreads (fst (foldl (fun acc nid =>
      let (b', shut) := bind_peer (fst acc) nid (fst (sockets nid)) (snd (sockets nid)) in (b', snd acc ++ shut))
      acc l)) calls evs)).
  { intros l. induction l as [|nid l IH]; intros acc Ha; [done|]. cbn [foldl]. apply IH.
    pose proof (bind_peer_ok (fst acc) calls evs nid (fst (sockets nid)) (snd (sockets nid)) Ha) as Hb.
    by destruct (bind_peer _ _ _ _). }
  by apply (H2 to_bind (b1, [])).
Qed.

Lemma on_error_ok b calls evs fd :
  bus_ok (mkBusThreads b calls evs) -> bus_ok (mkBusThreads (fst (on_error b fd)) calls evs).
Proof.
  intros Hok. unfold on_error. destruct (find _ (b_peers b)) as [[nid st]|] eqn:E; [|done].
  apply find_some in E as [Hin%list_elem_of_In _]. apply (map_In_find _ _ _ (bo_map _ Hok)) in Hin. cbn [fst snd].
  eapply (bus_ok_same b calls evs nid st); [done|done|apply same_channel_pending|done].
Qed.

Lemma bus_send_ok b calls evs peer data :
  bus_ok (mkBusThreads b calls evs) -> bus_ok (mkBusThreads (fst (bus_send b peer data)) calls evs).
Proof.
  intros Hok. unfold bus_send. destruct (find _ (b_peers b)) as [[nid st]|] eqn:E; [|done].
  apply find_some in E as [Hin%list_elem_of_In _]. apply (map_In_find _ _ _ (bo_map _ Hok)) in Hin.
  destruct (ps_lane st) as [lane|] eqn:El; [|done]. destruct (push lane (b_budget b) data) as [[lane' budget'] ok].
  cbn [fst]. eapply (bus_ok_same b calls evs nid st); [done|done| |done].
  split_and!; try done. unfold has_lane. by rewrite El.
Qed.

Lemma on_bytes_received_balance b fd data p : balance p (on_bytes_received b fd data) = 0.
Proof. unfold on_bytes_received. destruct (find _ _); [|done]. by destruct (negb _). Qed.

(** Only the sums of the calls and events matter. *)
Lemma bus_ok_events b calls evs calls' evs' :
  bus_ok (mkBusThreads b calls evs) ->
  (forall p, balance p evs' + balance p calls' = balance p evs + balance p calls) ->
  bus_ok (mkBusThreads b calls' evs').
Proof. intros [Hm Hn He Hi Hf Hb] E. split; try done. intros p. simpl. by rewrite E. Qed.

Lemma bus_step_ok s s' : bus_step s s' -> bus_ok s -> bus_ok s'.
Proof.
  destruct 1; intros Hok.
  - by apply connect_ok.
  - by eapply on_bind_ok.
  - by eapply on_shutdown_ok.
  - eapply bus_ok_events; [done|]. intros p. rewrite balance_app, on_bytes_received_balance. lia.
  - by apply on_error_ok.
  - by apply bus_send_ok.
  - eapply bus_ok_events; [done|]. intros p. rewrite !balance_app.
    change (e :: l2) with ([e] ++ l2). rewrite balance_app. lia.
Qed.

Lemma bus_reachable_ok s : bus_reachable s -> bus_ok s.
Proof.
  induction 1 as [fd b E|s s' _ IH Hstep]; [|by eapply bus_step_ok].
  unfold bus_start in E. simpl in E. destruct (fd <? 0); [done|]. injection E as <-.
  split; simpl; try done. apply map_ok_nil.
Qed.

Module DsoftbusSpec.

(** C32. The DSoftBus peer table and its listener agree in every state the callbacks,
    polls and sends can reach, in any order: a peer's identity is its own, it has a
    lane and a channel exactly when it is up, and the times it was reported up minus
    the times it was reported down, counting the calls still to be made, is one when
    it is up and zero otherwise. *)
Theorem bus_peers_consistent (s : BusThreads) (nid : list Z) (st : PeerState) :
  bus_reachable s -> map_find nid (b_peers (bt_bus s)) = Some st ->
  ps_peer_id st <> kInvalidPeer /\
  (forall nid' st', map_find nid' (b_peers (bt_bus s)) = Some st' -> ps_peer_id st' = ps_peer_id st -> nid' = nid) /\
  ps_up_notified st = (0 <=? ps_socket_fd st) /\ has_lane st = ps_up_notified st /\
  balance (ps_peer_id st) (bt_events s) + balance (ps_peer_id st) (bt_calls s) =
    (if ps_up_notified st then 1 else 0).
Proof.
  intros [Hm Hn He Hi Hf Hb]%bus_reachable_ok Hst. destruct (He _ _ Hst) as (Hid & Hup & Hl).
  split_and!; [unfold kInvalidPeer; lia| |done|done|].
  - intros nid' st' Hst' E. by apply (Hi nid' nid st' st).
  - rewrite Hb, (msum_single (up_for (ps_peer_id st)) nid st); [|done|done|].
    + unfold up_for. by rewrite Z.eqb_refl, andb_true_r.
    + intros k' st' Hst' Hne. unfold up_for. rewrite (proj2 (Z.eqb_neq _ _)); [by rewrite andb_false_r|].
      intros E. apply Hne. by apply (Hi k' nid st' st).
Qed.

Definition test_bus : DsoftbusTransport := mkBus true 3 [] 1 (mkBudget kGlobalByteBudget 0) true.
Definition test_bound : DsoftbusTransport := fst (fst (on_bind test_bus 7 [65] (Some 4096))).

Lemma test_bound_reachable : bus_reachable (mkBusThreads test_bound [on_peer_up 1] []).
Proof.
  eapply bus_next; [apply (bus_init 3 test_bus); reflexivity|].
  apply (bus_bind test_bus [] [] 7 [65] (Some 4096) test_bound [] [on_peer_up 1]);
    [reflexivity|split; [lia|discriminate]|reflexivity|reflexivity].
Qed.

Lemma bus_peers_consistent_witness :
  let st := mkPeer 1 7 (-1) true (Some (new_lane kLaneByteBudget)) 4096 in
  ps_peer_id st <> kInvalidPeer /\
  (forall nid' st', map_find nid' (b_peers test_bound) = Some st' -> ps_peer_id st' = ps_peer_id st -> nid' = [65]) /\
  ps_up_notified st = (0 <=? ps_socket_fd st) /\ has_lane st = ps_up_notified st /\
  balance (ps_peer_id st) [] + balance (ps_peer_id st) [on_peer_up 1] = (if ps_up_notified st then 1 else 0).
Proof.
  apply (bus_peers_consistent (mkBusThreads test_bound [on_peer_up 1] []) [65]
    (mkPeer 1 7 (-1) true (Some (new_lane kLaneByteBudget)) 4096)); [apply test_bound_reachable|reflexivity].
Defined.

(** When the service shuts the listening socket down, [stop] no longer does anything:
    the channels stay, the instance stays registered, and no transport can be started
    again in the process. *)
Theorem listen_shutdown_wedges (b : DsoftbusTransport) (fd : Z) (listen_ok : bool) :
  b_instance b = true ->
  let b' := fst (on_shutdown b (b_listen_fd b)) in
  bus_stop b' = (b', []) /\ b_peers b' = b_peers b /\ bus_start b' fd listen_ok = (b', false).
Proof.
  intros Hi. unfold on_shutdown. rewrite Z.eqb_refl. cbn [fst]. unfold bus_stop, bus_start. simpl.
  by rewrite Hi.
Qed.
End DsoftbusSpec.
