(* ===== verification/DsoftbusThreads.v ===== *)
(** * The threads of the DSoftBus transport (src/transport_dsoftbus.cpp)

    [TransportDsoftbus] takes every call of the transport as one step.  Here they are cut
    at the critical sections of [mutex_] and of the lanes' mutexes: a lane is an object
    that outlives its entry in the table until its worker is joined, a [send] holds the
    lane it looked up, a worker checks its channel and then calls [SendBytes] without the
    lock, and [on_shutdown] and [stop] wait for workers. *)

From S2P Require Import Prelude StdMap Listener SendLane TransportDsoftbus.

(** ** State *)

(** A [PeerState] whose lane is a reference. *)
Record Entry := mkEntry {
  en_peer_id : Z;
  en_socket_fd : Z;
  en_pending_fd : Z;
  en_up : bool;
  en_lane : option nat;
  en_limit : Z;
}.
Definition fresh_entry (id : Z) : Entry := mkEntry id (-1) (-1) false None 0.

(** What the sink of a lane captures, and the node whose channel it is. *)
Record Sink := mkSink { sk_peer : Z; sk_fd : Z; sk_node : list Z }.

(** Where the worker of a lane is: in [run] between frames, in [deliver] before its check,
    or past it. *)
Inductive Worker := Taking | Checking (f : list Z) | Sending (f : list Z).

(** A lane and its worker.  [lo_wire] records the calls of [SendBytes]: the frame, and the
    node the descriptor led to then. *)
Record LaneObj := mkLaneObj {
  lo_sink : Sink;
  lo_lane : SendLane;
  lo_worker : Worker;
  lo_wire : list (list Z * option (list Z));
}.
Definition new_obj (s : Sink) : LaneObj := mkLaneObj s (new_lane kLaneByteBudget) Taking [].

(** [k_led] is the service's: the node each descriptor was last given a channel to.
    [k_sends] and [k_calls] record the calls of [send] and those of the listener. *)
Record Backend := mkBackend {
  k_running : bool;
  k_listen_fd : Z;
  k_instance : bool;
  k_peers : std_map (list Z) Entry;
  k_next : Z;
  k_objs : list LaneObj;
  k_budget : SendBudget;
  k_led : std_map Z (list Z);
  k_sends : list (Z * list Z);
  k_calls : list ListenerEvent;
}.

Section backend_updates.
Context (k : Backend).
Definition set_running (r : bool) : Backend :=
  mkBackend r (k_listen_fd k) (k_instance k) (k_peers k) (k_next k) (k_objs k) (k_budget k) (k_led k) (k_sends k) (k_calls k).
Definition set_table (m : std_map (list Z) Entry) (next : Z) : Backend :=
  mkBackend (k_running k) (k_listen_fd k) (k_instance k) m next (k_objs k) (k_budget k) (k_led k) (k_sends k) (k_calls k).
Definition set_lanes (os : list LaneObj) (b : SendBudget) : Backend :=
  mkBackend (k_running k) (k_listen_fd k) (k_instance k) (k_peers k) (k_next k) os b (k_led k) (k_sends k) (k_calls k).
Definition set_led (m : std_map Z (list Z)) : Backend :=
  mkBackend (k_running k) (k_listen_fd k) (k_instance k) (k_peers k) (k_next k) (k_objs k) (k_budget k) m (k_sends k) (k_calls k).
Definition log_send (peer : Z) (f : list Z) : Backend :=
  mkBackend (k_running k) (k_listen_fd k) (k_instance k) (k_peers k) (k_next k) (k_objs k) (k_budget k) (k_led k)
    (k_sends k ++ [(peer, f)]) (k_calls k).
Definition log_call (e : ListenerEvent) : Backend :=
  mkBackend (k_running k) (k_listen_fd k) (k_instance k) (k_peers k) (k_next k) (k_objs k) (k_budget k) (k_led k)
    (k_sends k) (k_calls k ++ [e]).
End backend_updates.

Definition set_entry (nid : list Z) (e : Entry) (k : Backend) : Backend := set_table k (map_set nid e (k_peers k)) (k_next k).
Definition set_pending_of (fd : Z) (e : Entry) : Entry :=
  mkEntry (en_peer_id e) (en_socket_fd e) fd (en_up e) (en_lane e) (en_limit e).
Definition with_lane (l : SendLane) (o : LaneObj) : LaneObj := mkLaneObj (lo_sink o) l (lo_worker o) (lo_wire o).
Definition set_obj (i : nat) (o : LaneObj) (b : SendBudget) (k : Backend) : Backend := set_lanes k (<[i := o]> (k_objs k)) b.

(** A call in progress: what it does next.  [Idle] has returned.  The first thread of a
    process is the poll thread. *)
Inductive Thread :=
| Idle
| SendCall (peer : Z) (f : list Z) | Push (peer : Z) (i : nat) (f : list Z) | Commit (i : nat)
| OnBind (fd : Z) (nid : list Z) (option : option Z) | ReportUp (peer : Z)
| OnShutdown (fd : Z) | StopLane (fd : Z) (i : nat) (peer : Z) | JoinLane (fd : Z) (i : nat) (peer : Z) | ReportDown (peer : Z)
| OnBytes (fd : Z) (data : list Z) | ReportBytes (peer : Z) (data : list Z)
| OnError (fd : Z)
| Poll | PollNodes | PollBind (to_bind : list (list Z)) | BindingAsync (nid : list Z) (fd : Z) (to_bind : list (list Z)) | PollWait
| Stop | StopJoin | StopClear | StopLanes (lanes : list nat) | JoinLanes (i : nat) (lanes : list nat).

(** What the service answers during an act: a success, the nodes online, a descriptor. *)
Record Answer := mkAnswer { a_ok : bool; a_nodes : list (list Z); a_fd : Z }.

(** ** Critical sections *)

(** [send] looks the lane up. *)
Definition look_up_lane (k : Backend) (peer : Z) : option nat :=
  from_option (fun kv => en_lane kv.2) None
    (find (fun kv => (en_peer_id kv.2 =? peer) && bool_decide (en_lane kv.2 <> None)) (k_peers k)).

Definition on_bind_section (fd : Z) (nid : list Z) (option : option Z) (k : Backend) : Backend * Thread :=
  if bool_decide (nid = []) then (k, Idle)
  else
    let next := match map_find nid (k_peers k) with None => u64 (k_next k + 1) | Some _ => k_next k end in
    let e := default (fresh_entry (k_next k)) (map_find nid (k_peers k)) in
    let pending := if en_pending_fd e =? fd then -1 else en_pending_fd e in
    let keep e' := set_table k (map_set nid e' (k_peers k)) next in
    if en_socket_fd e <? 0 then
      (set_lanes (keep (mkEntry (en_peer_id e) fd pending true (Some (length (k_objs k))) (probe_max_payload option)))
         (k_objs k ++ [new_obj (mkSink (en_peer_id e) fd nid)]) (k_budget k),
       ReportUp (en_peer_id e))
    else (keep (set_pending_of pending e), Idle).

Definition shut_entry (fd : Z) (e : Entry) : Entry :=
  if en_socket_fd e =? fd then mkEntry (en_peer_id e) (-1) (en_pending_fd e) false None 0
  else if en_pending_fd e =? fd then set_pending_of (-1) e
  else e.
Definition down_peer (fd : Z) (m : std_map (list Z) Entry) : Z :=
  foldl (fun id kv => if (en_socket_fd kv.2 =? fd) && en_up kv.2 then en_peer_id kv.2 else id) kInvalidPeer m.
Definition down_lane (fd : Z) (m : std_map (list Z) Entry) : option nat :=
  foldl (fun lane kv => if en_socket_fd kv.2 =? fd then en_lane kv.2 else lane) None m.

Definition report_down (peer : Z) : Thread := if peer =? kInvalidPeer then Idle else ReportDown peer.

Definition on_shutdown_section (fd : Z) (k : Backend) : Backend * Thread :=
  if fd =? k_listen_fd k then (set_running k false, Idle)
  else
    (set_table k ((fun kv => (kv.1, shut_entry fd kv.2)) <$> k_peers k) (k_next k),
     match down_lane fd (k_peers k) with
     | Some i => StopLane fd i (down_peer fd (k_peers k))
     | None => report_down (down_peer fd (k_peers k))
     end).

Definition on_bytes_section (fd : Z) (data : list Z) (k : Backend) : Thread :=
  match find (fun kv => en_socket_fd kv.2 =? fd) (k_peers k) with
  | Some kv => if en_peer_id kv.2 =? kInvalidPeer then Idle else ReportBytes (en_peer_id kv.2) data
  | None => Idle
  end.

Definition on_error_section (fd : Z) (k : Backend) : Backend :=
  match find (fun kv => en_pending_fd kv.2 =? fd) (k_peers k) with
  | Some kv => set_entry kv.1 (set_pending_of (-1) kv.2) k
  | None => k
  end.

Definition note_section (acc : Backend * list (list Z)) (nid : list Z) : Backend * list (list Z) :=
  let k := fst acc in
  match map_find nid (k_peers k) with
  | None => (set_table k (map_set nid (fresh_entry (k_next k)) (k_peers k)) (u64 (k_next k + 1)), snd acc ++ [nid])
  | Some e => if (en_socket_fd e <? 0) && (en_pending_fd e <? 0) then (k, snd acc ++ [nid]) else acc
  end.

(** The table is cleared and the instance withdrawn; the lanes are still to be stopped. *)
Definition lanes_of (m : std_map (list Z) Entry) : list nat := omap (fun kv => en_lane kv.2) m.
Definition stop_section (k : Backend) : Backend * Thread :=
  (mkBackend (k_running k) (-1) false [] (k_next k) (k_objs k) (k_budget k) (k_led k) (k_sends k) (k_calls k),
   StopLanes (lanes_of (k_peers k))).

(** The check of [deliver]. *)
Definition channel_live (k : Backend) (s : Sink) : bool :=
  k_running k && existsb (fun kv => (en_peer_id kv.2 =? sk_peer s) && (en_socket_fd kv.2 =? sk_fd s)) (k_peers k).

(** ** Acts *)

Definition lane_free (l : SendLane) : bool := match sl_pending l with None => true | Some _ => false end.

(** [SendLane::stop] up to its join: [None] while a push holds the lane's mutex. *)
Definition latch (i : nat) (k : Backend) : option Backend :=
  o ← k_objs k !! i;
  if lane_free (lo_lane o) then Some (set_obj i (with_lane (SendLane.stop (lo_lane o) false) o) (k_budget k) k) else None.
Definition joined (i : nat) (k : Backend) : option unit :=
  o ← k_objs k !! i; if sl_done (lo_lane o) then Some tt else None.

(** The next act of a call, in a process whose poll thread has returned or not. *)
Definition thread_act (a : Answer) (poll_done : bool) (t : Thread) (k : Backend) : option (Backend * Thread) :=
  match t with
  | Idle => None
  | SendCall peer f =>
      Some (log_send k peer f, match look_up_lane k peer with Some i => Push peer i f | None => Idle end)
  | Push peer i f =>
      o ← k_objs k !! i;
      if lane_free (lo_lane o) then
        let (l', ok) := push_check (lo_lane o) (k_budget k) f in
        Some (set_obj i (with_lane l' o) (k_budget k) k, if ok then Commit i else Idle)
      else None
  | Commit i =>
      o ← k_objs k !! i; f ← sl_pending (lo_lane o);
      let (l', b') := push_commit (lo_lane o) (k_budget k) f in Some (set_obj i (with_lane l' o) b' k, Idle)
  | OnBind fd nid option => Some (on_bind_section fd nid option k)
  | ReportUp peer => Some (log_call k (on_peer_up peer), Idle)
  | OnShutdown fd => Some (on_shutdown_section fd k)
  | StopLane fd i peer => k' ← latch i k; Some (k', JoinLane fd i peer)
  | JoinLane fd i peer => _ ← joined i k; Some (k, report_down peer)
  | ReportDown peer => Some (log_call k (on_peer_down peer), Idle)
  | OnBytes fd data => Some (k, on_bytes_section fd data k)
  | ReportBytes peer data => Some (log_call k (on_bytes peer data), Idle)
  | OnError fd => Some (on_error_section fd k, Idle)
  | Poll => Some (k, if k_running k then PollNodes else Idle)
  | PollNodes => let (k', to_bind) := foldl note_section (k, []) (a_nodes a) in Some (k', PollBind to_bind)
  | PollBind [] => Some (k, PollWait)
  | PollBind (nid :: to_bind) =>
      if a_fd a <? 0 then Some (k, PollBind to_bind)
      else match map_find nid (k_peers k) with
           | None => Some (k, PollBind to_bind)
           | Some e => Some (set_entry nid (set_pending_of (a_fd a) e) k, BindingAsync nid (a_fd a) to_bind)
           end
  | BindingAsync nid fd to_bind =>
      if a_ok a then Some (k, PollBind to_bind)
      else match map_find nid (k_peers k) with
           | Some e =>
               Some (if en_pending_fd e =? fd then set_entry nid (set_pending_of (-1) e) k else k, PollBind to_bind)
           | None => Some (k, PollBind to_bind)
           end
  | PollWait => if k_running k then None else Some (k, Poll)
  | Stop => Some (if k_running k then (set_running k false, StopJoin) else (k, Idle))
  | StopJoin => if poll_done then Some (k, StopClear) else None
  | StopClear => Some (stop_section k)
  | StopLanes [] => Some (k, Idle)
  | StopLanes (i :: lanes) => k' ← latch i k; Some (k', JoinLanes i lanes)
  | JoinLanes i lanes => _ ← joined i k; Some (k, StopLanes lanes)
  end.

(** The next act of the worker of lane [i]; [a_ok] is what [SendBytes] answers. *)
Definition worker_act (a : Answer) (i : nat) (k : Backend) : option Backend :=
  o ← k_objs k !! i;
  let l := lo_lane o in
  match lo_worker o with
  | Taking =>
      if sl_done l || negb (lane_free l) then None
      else '(l', b') ← worker_take l (k_budget k);
           Some (set_obj i (mkLaneObj (lo_sink o) l' (from_option Checking Taking (sl_inflight l')) (lo_wire o)) b' k)
  | Checking f =>
      Some (set_obj i (if channel_live k (lo_sink o) then mkLaneObj (lo_sink o) l (Sending f) (lo_wire o)
                       else mkLaneObj (lo_sink o) (give_to_sink l f false) Taking (lo_wire o)) (k_budget k) k)
  | Sending f =>
      Some (set_obj i (mkLaneObj (lo_sink o) (give_to_sink l f (a_ok a)) Taking
                         (lo_wire o ++ [(f, map_find (sk_fd (lo_sink o)) (k_led k))])) (k_budget k) k)
  end.

(** ** A process with the transport in it *)

Record Process := mkProcess { pr_backend : Backend; pr_threads : list Thread }.

Definition poll_done (ts : list Thread) : bool := match ts with Idle :: _ => true | _ => false end.

(** A turn of a thread, and one of a worker. *)
Definition turn (a : Answer) (j : nat) (P : Process) : option Process :=
  t ← pr_threads P !! j;
  '(k', t') ← thread_act a (poll_done (pr_threads P)) t (pr_backend P);
  Some (mkProcess k' (<[j := t']> (pr_threads P))).
Definition work (a : Answer) (i : nat) (P : Process) : option Process :=
  k' ← worker_act a i (pr_backend P); Some (mkProcess k' (pr_threads P)).

(** The counters stay in range: a turn may note the nodes of the answer and open a lane. *)
Definition has_room (a : Answer) (k : Backend) : Prop :=
  k_next k + len (a_nodes a) + 1 < 2 ^ 64 /\ kGlobalByteBudget + (len (k_objs k) + 1) * kLaneByteBudget < 2 ^ 63.

(** A call that still has to do with the channel of a descriptor. *)
Definition concerns (fd : Z) (t : Thread) : bool :=
  match t with OnBind fd' _ _ | StopLane fd' _ _ | JoinLane fd' _ _ => fd' =? fd | _ => false end.

(** The service gives a descriptor to a channel of a node when no other node has it in the
    table and no callback that concerns it is running. *)
Definition fd_unused (fd : Z) (nid : list Z) (P : Process) : Prop :=
  0 <= fd /\
  (forall nid' e, map_find nid' (k_peers (pr_backend P)) = Some e -> en_socket_fd e = fd -> nid' = nid) /\
  forall t, t ∈ pr_threads P -> concerns fd t = false.

(** What the application and the service may call, and what the call makes of the service. *)
Inductive starts (P : Process) : Thread -> Backend -> Prop :=
| starts_send peer f : len f < 2 ^ 63 -> starts P (SendCall peer f) (pr_backend P)
| starts_bind fd nid option :
    k_instance (pr_backend P) = true -> fd_unused fd nid P ->
    starts P (OnBind fd nid option) (set_led (pr_backend P) (map_set fd nid (k_led (pr_backend P))))
| starts_shutdown fd : k_instance (pr_backend P) = true -> starts P (OnShutdown fd) (pr_backend P)
| starts_bytes fd data : k_instance (pr_backend P) = true -> starts P (OnBytes fd data) (pr_backend P)
| starts_error fd : k_instance (pr_backend P) = true -> starts P (OnError fd) (pr_backend P)
| starts_stop : starts P Stop (pr_backend P).

(** One turn of a call or of a worker. *)
Inductive moves (P P' : Process) : Prop :=
| moves_thread a j : has_room a (pr_backend P) -> turn a j P = Some P' -> moves P P'
| moves_worker a i : has_room a (pr_backend P) -> work a i P = Some P' -> moves P P'.

Inductive process_step (P : Process) : Process -> Prop :=
| process_moves P' : moves P P' -> process_step P P'
| process_starts t k : starts P t k -> process_step P (mkProcess k (pr_threads P ++ [t]))
| process_timer : pr_threads P !! 0%nat = Some PollWait -> process_step P (mkProcess (pr_backend P) (<[0%nat := Poll]> (pr_threads P))).

(** What [start] leaves behind, given its listening socket. *)
Definition started (fd : Z) : Process :=
  mkProcess (mkBackend true fd true [] 1 [] (mkBudget kGlobalByteBudget 0) [] [] []) [Poll].

Inductive process_reachable : Process -> Prop :=
| process_init fd : 0 <= fd -> process_reachable (started fd)
| process_next P P' : process_reachable P -> process_step P P' -> process_reachable P'.

(** ** The invariant *)

(** The table: identities, channels and lanes.  A descriptor in it leads to its node, and
    the lane of an entry sends there. *)
Record table_ok (m : std_map (list Z) Entry) (next : Z) (led : std_map Z (list Z)) (sinks : list Sink) : Prop := {
  to_map : map_ok m;
  to_next : 1 <= next;
  to_entry nid e : map_find nid m = Some e -> 1 <= en_peer_id e < next;
  to_up nid e : map_find nid m = Some e -> en_up e = (0 <=? en_socket_fd e) /\ (en_up e = true <-> en_lane e <> None);
  to_ids nid nid' e e' : map_find nid m = Some e -> map_find nid' m = Some e' -> en_peer_id e = en_peer_id e' -> nid = nid';
  to_led nid e : map_find nid m = Some e -> 0 <= en_socket_fd e -> map_find (en_socket_fd e) led = Some nid;
  to_lane nid e i : map_find nid m = Some e -> en_lane e = Some i ->
    sinks !! i = Some (mkSink (en_peer_id e) (en_socket_fd e) nid);
  to_sinks i s : sinks !! i = Some s -> 1 <= sk_peer s < next;
  to_nodes i nid e s : sinks !! i = Some s -> map_find nid m = Some e -> sk_peer s = en_peer_id e -> sk_node s = nid;
  to_same i i' s s' : sinks !! i = Some s -> sinks !! i' = Some s' -> sk_peer s = sk_peer s' -> sk_node s = sk_node s';
}.

(** A lane object: what its worker holds, and what it sent is what it took out, in order. *)
Record obj_ok (o : LaneObj) : Prop := {
  oo_worker : match lo_worker o with
              | Taking => sl_inflight (lo_lane o) = None
              | Checking f | Sending f => sl_inflight (lo_lane o) = Some f
              end;
  oo_wire : (fst <$> lo_wire o) `sublist_of` sl_delivered (lo_lane o);
  oo_nodes f nid : (f, nid) ∈ lo_wire o -> nid = Some (sk_node (lo_sink o));
}.

Definition lanes_system (k : Backend) : System := mkSystem (lo_lane <$> k_objs k) (k_budget k).
Definition lanes_ok (k : Backend) : Prop :=
  system_ok (length (k_objs k)) kLaneByteBudget kGlobalByteBudget (lanes_system k) /\ Forall obj_ok (k_objs k).

Definition in_table (k : Backend) (i : nat) : Prop := exists nid e, map_find nid (k_peers k) = Some e /\ en_lane e = Some i.
Definition stopping (k : Backend) (i : nat) : Prop := exists o, k_objs k !! i = Some o /\ sl_stopping (lo_lane o) = true.

(** A lane that was taken out of the table. *)
Definition given_up (k : Backend) (i : nat) : Prop := (i < length (k_objs k))%nat /\ ~ in_table k i.

Definition thread_ok (k : Backend) (t : Thread) : Prop :=
  match t with
  | SendCall _ f => len f < 2 ^ 63
  | Push peer i f => len f < 2 ^ 63 /\ exists s, (lo_sink <$> k_objs k) !! i = Some s /\ sk_peer s = peer
  | OnBind fd nid _ => 0 <= fd /\ map_find fd (k_led k) = Some nid
  | Commit i => (i < length (k_objs k))%nat
  | StopLane _ i _ => given_up k i
  | JoinLane _ i _ => stopping k i
  | StopJoin | StopClear => k_running k = false
  | StopLanes lanes => k_instance k = false /\ Forall (given_up k) lanes
  | JoinLanes i lanes => k_instance k = false /\ Forall (given_up k) lanes /\ stopping k i
  | _ => True
  end.

(** The call that stops a lane that is no longer in the table. *)
Definition ends_lane (i : nat) (fd : Z) (t : Thread) : Prop :=
  match t with
  | StopLane fd' i' _ | JoinLane fd' i' _ => i' = i /\ fd' = fd
  | StopLanes lanes => i ∈ lanes
  | JoinLanes i' lanes => i' = i \/ i ∈ lanes
  | _ => False
  end.

(** How often a call is about to queue [f] for [peer], and how often a lane did. *)
Definition commits (i : nat) (t : Thread) : Z := match t with Commit i' => if decide (i' = i) then 1 else 0 | _ => 0 end.
Definition pushing (peer : Z) (f : list Z) (t : Thread) : Z :=
  match t with Push peer' _ f' => if decide ((peer', f') = (peer, f)) then 1 else 0 | _ => 0 end.
Definition took (peer : Z) (f : list Z) (o : LaneObj) : Z :=
  if decide (sk_peer (lo_sink o) = peer) then count f (sl_accepted (lo_lane o) ++ opt_list (sl_pending (lo_lane o))) else 0.

(** One when a push holds the mutex of lane [i]. *)
Definition held (k : Backend) (i : nat) : Z :=
  from_option (fun o => len (opt_list (sl_pending (lo_lane o)))) 0 (k_objs k !! i).

Definition polls (t : Thread) : bool :=
  match t with Poll | PollNodes | PollBind _ | BindingAsync _ _ _ | PollWait => true | _ => false end.

(** The poll thread polls until it returns; no other thread does. *)
Definition idle (t : Thread) : bool := match t with Idle => true | _ => false end.
Definition stays_poll (t t' : Thread) : bool := idle t' || negb (idle t) && Bool.eqb (polls t') (polls t).

Record process_ok (P : Process) : Prop := {
  po_table : let k := pr_backend P in table_ok (k_peers k) (k_next k) (k_led k) (lo_sink <$> k_objs k);
  po_lanes : lanes_ok (pr_backend P);
  po_threads : Forall (thread_ok (pr_backend P)) (pr_threads P);
  po_commits i : zsum (commits i <$> pr_threads P) = held (pr_backend P) i;
  po_sent peer f :
    zsum (took peer f <$> k_objs (pr_backend P)) + zsum (pushing peer f <$> pr_threads P) <= count (peer, f) (k_sends (pr_backend P));
  po_alive i o : k_objs (pr_backend P) !! i = Some o -> sl_done (lo_lane o) = false ->
    map_find (sk_fd (lo_sink o)) (k_led (pr_backend P)) = Some (sk_node (lo_sink o)) /\
    (in_table (pr_backend P) i \/ exists t, t ∈ pr_threads P /\ ends_lane i (sk_fd (lo_sink o)) t);
  po_live i o : in_table (pr_backend P) i -> k_objs (pr_backend P) !! i = Some o -> sl_stopping (lo_lane o) = false;
  po_poll j t : pr_threads P !! j = Some t -> polls t = true -> j = 0%nat;
  po_some : pr_threads P <> [];
  po_first t : pr_threads P !! 0%nat = Some t -> polls t = true \/ t = Idle;
}.

(** ** One turn *)

(** What a turn never undoes. *)
Record grows (k k' : Backend) : Prop := {
  gw_running : k_running k = false -> k_running k' = false;
  gw_instance : k_instance k = false -> k_instance k' = false;
  gw_led : k_led k' = k_led k;
  gw_sinks : (lo_sink <$> k_objs k) `prefix_of` (lo_sink <$> k_objs k');
  gw_stopping i : stopping k i -> stopping k' i;
  gw_table i : in_table k' i -> (i < length (k_objs k))%nat -> in_table k i;
}.

Lemma grows_length k k' : grows k k' -> (length (k_objs k) <= length (k_objs k'))%nat.
Proof. intros [_ _ _ Hp _ _]. apply prefix_length in Hp. by rewrite !length_fmap in Hp. Qed.

Lemma given_up_grows k k' i : grows k k' -> given_up k i -> given_up k' i.
Proof.
  intros Hg [Hlt Hno]. pose proof (grows_length k k' Hg). split; [lia|]. intros Hin. apply Hno. by apply (gw_table _ _ Hg).
Qed.

Lemma thread_ok_grows k k' t : grows k k' -> thread_ok k t -> thread_ok k' t.
Proof.
  intros Hg. pose proof (grows_length k k' Hg) as Hlen. pose proof (fun i => given_up_grows k k' i Hg) as Hgu.
  destruct Hg as [Hr Hi Hl Hs Hst Ht].
  destruct t; simpl; try done; try tauto; try lia.
  - intros (? & s & Hlk & <-). split; [done|]. exists s. split; [|done]. by eapply prefix_lookup_Some.
  - by rewrite Hl.
  - apply Hgu.
  - apply Hst.
  - intros [? Hall]. split; [tauto|]. by eapply Forall_impl.
  - intros (? & Hall & ?). split_and!; [tauto| |by apply Hst]. by eapply Forall_impl.
Qed.

(** A lane of [k'] that has not ended is one of [k] that had not, or is in the table. *)
Definition lane_kept (k k' : Backend) (ends ends' : nat -> Z -> Prop) (i : nat) (o' : LaneObj) : Prop :=
  (exists o, k_objs k !! i = Some o /\ lo_sink o' = lo_sink o /\ sl_done (lo_lane o) = false /\
     (in_table k i -> in_table k' i \/ ends' i (sk_fd (lo_sink o))) /\
     (ends i (sk_fd (lo_sink o)) -> ends' i (sk_fd (lo_sink o)))) \/
  (map_find (sk_fd (lo_sink o')) (k_led k') = Some (sk_node (lo_sink o')) /\ in_table k' i).

Lemma stays_poll_back t t' : stays_poll t t' = true -> polls t' = true -> polls t = true.
Proof. unfold stays_poll. intros [E|[_ E%Bool.eqb_prop]%andb_true_iff]%orb_true_iff; [by destruct t'|by rewrite E]. Qed.

Lemma stays_poll_on t t' : stays_poll t t' = true -> polls t = true \/ t = Idle -> polls t' = true \/ t' = Idle.
Proof.
  unfold stays_poll. intros [E|[Hn E%Bool.eqb_prop]%andb_true_iff]%orb_true_iff; [right; by destruct t'|].
  intros [Ht| ->]; [|done]. left. by rewrite E.
Qed.

Lemma stays_poll_refl t : stays_poll t t = true.
Proof. by destruct t. Qed.

Lemma process_ok_turn k k' ts j t t' :
  process_ok (mkProcess k ts) -> ts !! j = Some t -> grows k k' ->
  table_ok (k_peers k') (k_next k') (k_led k') (lo_sink <$> k_objs k') -> lanes_ok k' -> thread_ok k' t' ->
  stays_poll t t' = true ->
  (forall i, held k' i - held k i = commits i t' - commits i t) ->
  (forall p f, zsum (took p f <$> k_objs k') - zsum (took p f <$> k_objs k) + pushing p f t' - pushing p f t <=
    count (p, f) (k_sends k') - count (p, f) (k_sends k)) ->
  (forall i o', k_objs k' !! i = Some o' -> sl_done (lo_lane o') = false ->
    lane_kept k k' (fun i fd => ends_lane i fd t) (fun i fd => ends_lane i fd t') i o') ->
  (forall i o', in_table k' i -> k_objs k' !! i = Some o' -> sl_stopping (lo_lane o') = false) ->
  process_ok (mkProcess k' (<[j := t']> ts)).
Proof.
  intros Hok Hj Hg Ht Hl Hth Hp Hc Hs Ha Hlv. pose proof Hok as [_ _ Hts Hcs Hst Hal _ Hpl _ Hfi]. simpl in *. split; simpl; try done.
  - apply Forall_insert; [|done]. eapply Forall_impl; [exact Hts|]. intros u. by apply thread_ok_grows.
  - intros i. rewrite (zsum_insert _ _ _ t), Hcs by done. specialize (Hc i). lia.
  - intros p f. rewrite (zsum_insert _ _ _ t) by done. specialize (Hs p f). specialize (Hst p f). lia.
  - intros i o' Ho' Hd. destruct (Ha i o' Ho' Hd) as [(o & Ho & -> & Hd' & Hin & He)|[? ?]]; [|by split; [|left]].
    destruct (Hal i o Ho Hd') as [Hled Hcase]. split; [by rewrite (gw_led _ _ Hg)|].
    assert (Hnew : t' ∈ <[j:=t']> ts).
    { eapply list_elem_of_lookup_2. apply list_lookup_insert_eq. by eapply lookup_lt_Some. }
    destruct Hcase as [Hin'|(u & Hu & Hend)].
    + destruct (Hin Hin') as [?|?]; [by left|]. right. by exists t'.
    + right. apply list_elem_of_lookup in Hu as [j' Hu]. destruct (decide (j' = j)) as [->|Hne].
      * exists t'. split; [done|]. apply He. congruence.
      * exists u. split; [|done]. apply (list_elem_of_lookup_2 _ j'). by rewrite list_lookup_insert_ne.
  - intros j' u Hu Hpu. destruct (decide (j' = j)) as [->|Hne].
    + rewrite list_lookup_insert_eq in Hu by (by eapply lookup_lt_Some). injection Hu as <-. apply (Hpl j t); [done|]. by apply (stays_poll_back t t').
    + rewrite list_lookup_insert_ne in Hu by done. by apply (Hpl j' u).
  - intros E. apply (f_equal length) in E. rewrite length_insert in E. apply lookup_lt_Some in Hj. simpl in E. lia.
  - intros u Hu. destruct (decide (j = 0%nat)) as [->|Hne].
    + rewrite list_lookup_insert_eq in Hu by (by eapply lookup_lt_Some). injection Hu as <-. by apply (stays_poll_on t); [|apply Hfi].
    + rewrite list_lookup_insert_ne in Hu by done. by apply Hfi.
Qed.

(** *** Turns that leave the lanes alone *)

Record same_lanes (k k' : Backend) : Prop := {
  sn_objs : k_objs k' = k_objs k;
  sn_budget : k_budget k' = k_budget k;
  sn_led : k_led k' = k_led k;
  sn_running : k_running k = false -> k_running k' = false;
  sn_instance : k_instance k = false -> k_instance k' = false;
  sn_table i : in_table k' i -> in_table k i;
}.

Lemma same_lanes_grows k k' : same_lanes k k' -> grows k k'.
Proof. intros [Ho _ Hl Hr Hi Ht]. split; try done; [by rewrite Ho|unfold stopping; by rewrite Ho|]. intros i ? _. by apply Ht. Qed.

Lemma turn_table k k' ts j t t' :
  process_ok (mkProcess k ts) -> ts !! j = Some t -> same_lanes k k' ->
  table_ok (k_peers k') (k_next k') (k_led k') (lo_sink <$> k_objs k') -> thread_ok k' t' ->
  stays_poll t t' = true -> (forall i, commits i t' = commits i t) ->
  (forall p f, pushing p f t' - pushing p f t <= count (p, f) (k_sends k') - count (p, f) (k_sends k)) ->
  (forall i o, k_objs k !! i = Some o -> sl_done (lo_lane o) = false ->
    (in_table k i -> in_table k' i \/ ends_lane i (sk_fd (lo_sink o)) t') /\
    (ends_lane i (sk_fd (lo_sink o)) t -> ends_lane i (sk_fd (lo_sink o)) t')) ->
  process_ok (mkProcess k' (<[j := t']> ts)).
Proof.
  intros Hok Hj Hn Ht Hth Hp Hc Hs Ha. pose proof (same_lanes_grows _ _ Hn) as Hg. destruct Hn as [Ho Hb _ _ _ Hback].
  apply (process_ok_turn k k' ts j t t'); try done.
  - pose proof (po_lanes _ Hok) as Hl. unfold lanes_ok, lanes_system in *. by rewrite Ho, Hb.
  - intros i. unfold held. rewrite Ho, Hc. lia.
  - intros p f. rewrite Ho. specialize (Hs p f). lia.
  - intros i o'. rewrite Ho. intros Hi Hd. left. exists o'. split_and!; [done..| |]; by apply (Ha i o').
  - intros i o' Hin. rewrite Ho. apply (po_live _ Hok). by apply Hback.
Qed.

(** The table stays as well. *)
Lemma turn_inert k k' ts j t t' :
  process_ok (mkProcess k ts) -> ts !! j = Some t -> same_lanes k k' -> k_peers k' = k_peers k -> k_next k' = k_next k ->
  thread_ok k' t' -> stays_poll t t' = true -> (forall i, commits i t' = commits i t) ->
  (forall p f, pushing p f t' - pushing p f t <= count (p, f) (k_sends k') - count (p, f) (k_sends k)) ->
  (forall i o, k_objs k !! i = Some o -> sl_done (lo_lane o) = false ->
    ends_lane i (sk_fd (lo_sink o)) t -> ends_lane i (sk_fd (lo_sink o)) t') ->
  process_ok (mkProcess k' (<[j := t']> ts)).
Proof.
  intros Hok Hj Hn Hp Hx Hth Hpl Hc Hs Ha. apply (turn_table k k' ts j t t'); try done.
  - pose proof (po_table _ Hok) as Ht. destruct Hn as [Ho _ Hl _ _ _]. by rewrite Hp, Hx, Ho, Hl.
  - intros i o Hi Hd. unfold in_table. rewrite Hp. split; [by left|]. by apply (Ha i o).
Qed.

(** What is left of the conditions for a concrete turn. *)
Ltac solve_turn := try done; try (intros; simpl; lia).

Lemma same_lanes_refl k : same_lanes k k.
Proof. by split. Qed.
Lemma same_lanes_trans k k1 k2 : same_lanes k k1 -> same_lanes k1 k2 -> same_lanes k k2.
Proof. intros [? ? ? ? ? ?] [? ? ? ? ? ?]. split; congruence || (intros; eauto). Qed.

(** *** Entries that keep their channel *)

(** The entry keeps its identity, its channel and its lane: [set_pending_of]. *)
Lemma table_ok_pending m next led sinks nid e fd :
  table_ok m next led sinks -> map_find nid m = Some e -> table_ok (map_set nid (set_pending_of fd e) m) next led sinks.
Proof.
  intros [Hm Hn He Hu Hi Hl Hla Hsk Hnd Hsm] Hf.
  assert (Hback : forall q x, map_find q (map_set nid (set_pending_of fd e) m) = Some x ->
    exists y, map_find q m = Some y /\ en_peer_id x = en_peer_id y /\ en_socket_fd x = en_socket_fd y /\
      en_up x = en_up y /\ en_lane x = en_lane y).
  { intros q x. rewrite map_find_set. destruct (decide (q = nid)) as [->|]; [intros [= <-]; by exists e|]. intros Hx. by exists x. }
  split; try done.
  - by apply map_ok_set.
  - intros q x (y & Hy & -> & _)%Hback. by apply (He q).
  - intros q x (y & Hy & _ & -> & -> & ->)%Hback. by apply (Hu q).
  - intros q q' x x' (y & Hy & -> & _)%Hback (y' & Hy' & -> & _)%Hback. by apply Hi.
  - intros q x (y & Hy & _ & -> & _)%Hback. by apply (Hl q).
  - intros q x i (y & Hy & -> & -> & _ & ->)%Hback. by apply Hla.
  - intros i q x s Hs (y & Hy & -> & _)%Hback. by apply (Hnd i q y s).
Qed.

(** A new entry, not connected. *)
Lemma table_ok_fresh m next led sinks nid :
  table_ok m next led sinks -> map_find nid m = None -> next + 1 < 2 ^ 64 ->
  table_ok (map_set nid (fresh_entry next) m) (u64 (next + 1)) led sinks.
Proof.
  intros [Hm Hn He Hu Hi Hl Hla Hsk Hnd Hsm] Hf Hlt. rewrite wrap_id by ulia.
  assert (Hback : forall q x, map_find q (map_set nid (fresh_entry next) m) = Some x ->
    (q = nid /\ x = fresh_entry next) \/ (q <> nid /\ map_find q m = Some x)).
  { intros q x. rewrite map_find_set. destruct (decide (q = nid)) as [->|]; [intros [= <-]; by left|by right]. }
  split; try done.
  - by apply map_ok_set.
  - lia.
  - intros q x [[-> ->]|[_ Hx]]%Hback; [simpl; lia|]. destruct (He q x Hx); lia.
  - intros q x [[-> ->]|[_ Hx]]%Hback; [by split|by apply (Hu q)].
  - intros q q' x x' [[-> ->]|[? Hx]]%Hback [[-> ->]|[? Hx']]%Hback; simpl; intros E; [done|..].
    + destruct (He _ _ Hx'). lia.
    + destruct (He _ _ Hx). lia.
    + by apply (Hi q q' x x').
  - intros q x [[-> ->]|[_ Hx]]%Hback; [simpl; lia|by apply Hl].
  - intros q x i [[-> ->]|[_ Hx]]%Hback; [done|by apply Hla].
  - intros i s Hs. specialize (Hsk i s Hs). lia.
  - intros i q x s Hs [[-> ->]|[_ Hx]]%Hback; simpl; [|by apply (Hnd i q x s)]. specialize (Hsk i s Hs). lia.
Qed.

Lemma in_table_pending k nid e fd i :
  map_find nid (k_peers k) = Some e -> in_table k i -> in_table (set_entry nid (set_pending_of fd e) k) i.
Proof.
  intros Hf (q & x & Hx & Hl). unfold in_table, set_entry. simpl. destruct (decide (q = nid)) as [->|Hne].
  - exists nid, (set_pending_of fd e). rewrite map_find_set_eq. split; [done|]. simpl. congruence.
  - exists q, x. by rewrite map_find_set_ne.
Qed.

Lemma in_table_pending_back k nid e fd i :
  map_find nid (k_peers k) = Some e -> in_table (set_entry nid (set_pending_of fd e) k) i -> in_table k i.
Proof.
  intros Hf (q & x & Hx & Hl). unfold set_entry in Hx. simpl in Hx. rewrite map_find_set in Hx. destruct (decide (q = nid)) as [->|Hne].
  - injection Hx as <-. by exists nid, e.
  - by exists q, x.
Qed.

(** A turn that only sets the descriptor an entry is waiting for. *)
Lemma turn_pending k ts j t t' nid e fd :
  process_ok (mkProcess k ts) -> ts !! j = Some t -> map_find nid (k_peers k) = Some e ->
  thread_ok k t' -> stays_poll t t' = true -> (forall i, commits i t' = commits i t) ->
  (forall p f, pushing p f t' = pushing p f t) -> (forall i fd', ends_lane i fd' t -> ends_lane i fd' t') ->
  process_ok (mkProcess (set_entry nid (set_pending_of fd e) k) (<[j := t']> ts)).
Proof.
  intros Hok Hj Hf Hth Hp Hc Hpu He. pose proof (po_table _ Hok) as Ht. simpl in Ht.
  assert (Hsame : same_lanes k (set_entry nid (set_pending_of fd e) k)).
  { split; try done. intros i. by apply in_table_pending_back. }
  apply (turn_table k _ ts j t t'); try done.
  - by apply table_ok_pending.
  - apply (thread_ok_grows k); [by apply same_lanes_grows|done].
  - intros p f. rewrite Hpu. simpl. lia.
  - intros i o Hi Hd. split; [|apply He]. intros Hin. left. by apply in_table_pending.
Qed.

(** *** The poll notes the nodes online *)

(** What noting nodes does. *)
Record notes (k k' : Backend) : Prop := {
  nt_lanes : same_lanes k k';
  nt_sends : k_sends k' = k_sends k;
  nt_table : table_ok (k_peers k') (k_next k') (k_led k') (lo_sink <$> k_objs k');
  nt_kept i : in_table k i -> in_table k' i;
}.

Lemma notes_fold nodes k l :
  table_ok (k_peers k) (k_next k) (k_led k) (lo_sink <$> k_objs k) -> k_next k + len nodes < 2 ^ 64 ->
  notes k (fst (foldl note_section (k, l) nodes)).
Proof.
  revert k l. induction nodes as [|nid nodes IH]; intros k l Ht Hlt; [by split|]. cbn [foldl length] in *.
  unfold note_section at 2. cbn [fst snd]. destruct (map_find nid (k_peers k)) as [e|] eqn:E.
  { destruct (_ && _); apply IH; (done || lia). }
  pose proof (to_next _ _ _ _ Ht) as Hn. pose proof (table_ok_fresh _ _ _ _ nid Ht E ltac:(lia)) as Hf.
  set (k1 := set_table k (map_set nid (fresh_entry (k_next k)) (k_peers k)) (u64 (k_next k + 1))).
  destruct (IH k1 (l ++ [nid]) Hf) as [H1 H2 H3 H4]; [simpl; rewrite wrap_id by ulia; lia|].
  split; [eapply (same_lanes_trans k k1); [|exact H1]|by rewrite H2|exact H3|].
  { split; try done. intros i (q & x & Hx & Hl). simpl in Hx. rewrite map_find_set in Hx.
    destruct (decide (q = nid)); [injection Hx as <-; done|by exists q, x]. }
  intros i (q & x & Hx & Hl). apply H4. exists q, x. split; [|done]. simpl. rewrite map_find_set_ne; [done|]. intros ->. congruence.
Qed.

(** *** A channel comes up *)

(** An entry without a channel gets one, and its lane. *)
Lemma table_ok_connect m next led sinks nid e fd pending limit :
  table_ok m next led sinks -> map_find nid m = Some e -> en_socket_fd e < 0 -> 0 <= fd -> map_find fd led = Some nid ->
  table_ok (map_set nid (mkEntry (en_peer_id e) fd pending true (Some (length sinks)) limit) m) next led
    (sinks ++ [mkSink (en_peer_id e) fd nid]).
Proof.
  intros [Hm Hn He Hu Hi Hl Hla Hsk Hnd Hsm] Hf Hneg Hfd Hled. set (e' := mkEntry _ _ _ _ _ _).
  assert (Hback : forall q x, map_find q (map_set nid e' m) = Some x -> (q = nid /\ x = e') \/ (q <> nid /\ map_find q m = Some x)).
  { intros q x. rewrite map_find_set. destruct (decide (q = nid)) as [->|]; [intros [= <-]; by left|by right]. }
  assert (Hid : forall q x, map_find q (map_set nid e' m) = Some x -> exists y, map_find q m = Some y /\ en_peer_id x = en_peer_id y).
  { intros q x [[-> ->]|[_ Hx]]%Hback; [by exists e|by exists x]. }
  assert (Hsink : forall i s, (sinks ++ [mkSink (en_peer_id e) fd nid]) !! i = Some s ->
    sinks !! i = Some s \/ s = mkSink (en_peer_id e) fd nid).
  { intros i s [?|[_ Hs]]%lookup_app_Some; [by left|right]. by apply list_lookup_singleton_Some in Hs as [_ <-]. }
  split; try done.
  - by apply map_ok_set.
  - intros q x (y & Hy & ->)%Hid. by apply (He q).
  - intros q x [[-> ->]|[_ Hx]]%Hback; [|by apply (Hu q)]. simpl. split; [symmetry; by apply Z.leb_le|done].
  - intros q q' x x' (y & Hy & ->)%Hid (y' & Hy' & ->)%Hid. by apply Hi.
  - intros q x [[-> ->]|[_ Hx]]%Hback; [done|by apply Hl].
  - intros q x i [[-> ->]|[_ Hx]]%Hback.
    + intros [= <-]. rewrite lookup_app_r, Nat.sub_diag by done. done.
    + intros E. apply lookup_app_l_Some. by apply Hla.
  - intros i s [Hs| ->]%Hsink; [by apply (Hsk i)|]. by apply (He nid e).
  - intros i q x s [Hs| ->]%Hsink (y & Hy & ->)%Hid; [by apply (Hnd i q y s)|]. simpl. by apply Hi.
  - intros i i' s s' [Hs| ->]%Hsink [Hs'| ->]%Hsink; simpl; [by apply (Hsm i i')| | |done].
    + intros E. by apply (Hnd i nid e s).
    + intros E. symmetry. by apply (Hnd i' nid e s').
Qed.

(** The lanes of the process and one more. *)
Lemma new_obj_ok s : obj_ok (new_obj s).
Proof. split; [done|apply sublist_nil_l|]. intros f nid Hin. by apply not_elem_of_nil in Hin. Qed.

Lemma lanes_ok_new k k' s :
  lanes_ok k -> k_objs k' = k_objs k ++ [new_obj s] -> k_budget k' = k_budget k -> lanes_ok k'.
Proof.
  intros [(Hlen & Hall & Hlim & Hu & Ht) Hobj] Eo Eb. unfold lanes_ok, lanes_system in *. rewrite Eo, Eb. simpl in *.
  split; [|apply Forall_app; split; [done|by apply Forall_singleton, new_obj_ok]].
  unfold system_ok. simpl. rewrite fmap_app, !fmap_app, !zsum_app, !length_app, length_fmap. simpl.
  split_and!; [done| |done|lia|change (pending_len (new_lane kLaneByteBudget)) with 0; unfold kLaneByteBudget, kGlobalByteBudget in *; lia].
  apply Forall_app. split; [done|]. by apply Forall_singleton, lane_ok_new.
Qed.

Lemma held_new k i s os : k_objs os = k_objs k ++ [new_obj s] -> held os i = held k i.
Proof.
  intros E. unfold held. rewrite E. destruct (lt_eq_lt_dec i (length (k_objs k))) as [[Hlt| ->]|Hgt].
  - by rewrite lookup_app_l.
  - rewrite lookup_app_r, Nat.sub_diag by lia. by rewrite (lookup_ge_None_2 (k_objs k)) by lia.
  - rewrite !lookup_ge_None_2; [done|lia|rewrite length_app; simpl; lia].
Qed.

Lemma took_new p f s : took p f (new_obj s) = 0.
Proof. unfold took. by destruct (decide _). Qed.

(** A lane without a channel has no entry. *)
Lemma no_lane m next led sinks nid e :
  table_ok m next led sinks -> map_find nid m = Some e -> en_socket_fd e < 0 -> en_lane e = None.
Proof.
  intros Ht Hf Hneg. destruct (to_up _ _ _ _ Ht _ _ Hf) as [Eu Hl]. rewrite (proj2 (Z.leb_gt _ _)) in Eu by done.
  destruct (en_lane e); [|done]. rewrite Eu in Hl. assert (false = true) by by apply Hl. done.
Qed.

Lemma turn_connect k ts j fd nid option e pending limit next :
  process_ok (mkProcess k ts) -> ts !! j = Some (OnBind fd nid option) -> k_next k <= next ->
  table_ok (map_set nid e (k_peers k)) next (k_led k) (lo_sink <$> k_objs k) -> en_socket_fd e < 0 ->
  map_find nid (k_peers k) = None \/ map_find nid (k_peers k) = Some e -> 0 <= fd -> map_find fd (k_led k) = Some nid ->
  process_ok (mkProcess
    (set_lanes (set_table k (map_set nid (mkEntry (en_peer_id e) fd pending true (Some (length (k_objs k))) limit) (k_peers k)) next)
       (k_objs k ++ [new_obj (mkSink (en_peer_id e) fd nid)]) (k_budget k))
    (<[j := ReportUp (en_peer_id e)]> ts)).
Proof.
  intros Hok Hj Hnx Ht Hneg Hnid Hfd Hled. set (o := new_obj _). set (k' := set_lanes _ _ _).
  assert (Eo : k_objs k' = k_objs k ++ [o]) by done.
  assert (Hcon : table_ok (k_peers k') next (k_led k') (lo_sink <$> k_objs k')).
  { rewrite Eo, fmap_app. simpl.
    pose proof (table_ok_connect _ _ _ _ nid e fd pending limit Ht (map_find_set_eq _ _ _) Hneg Hfd Hled) as Hx.
    by rewrite map_set_set, length_fmap in Hx. }
  assert (Hold : forall i, in_table k' i -> in_table k i \/ i = length (k_objs k)).
  { intros i (q & x & Hx & Hl). unfold k' in Hx. simpl in Hx. rewrite map_find_set in Hx. destruct (decide (q = nid)).
    - injection Hx as <-. right. by injection Hl as <-.
    - left. by exists q, x. }
  apply (process_ok_turn k k' ts j (OnBind fd nid option)); try done.
  - split; try done; [rewrite Eo, fmap_app; by apply prefix_app_r| |].
    + intros i (x & Hx & Hs). exists x. split; [|done]. rewrite Eo. by apply lookup_app_l_Some.
    + intros i Hin Hlt'. destruct (Hold i Hin) as [?| ->]; [done|lia].
  - by apply (lanes_ok_new k k' (mkSink (en_peer_id e) fd nid)); [apply Hok|..].
  - intros i. rewrite (held_new k i _ k' Eo). simpl. lia.
  - intros p f. pose proof (took_new p f (mkSink (en_peer_id e) fd nid) : took p f o = 0) as Eto.
    rewrite Eo, fmap_app, zsum_app. simpl. rewrite Eto. lia.
  - intros i x Hx Hd. rewrite Eo in Hx. apply lookup_app_Some in Hx as [Hx|[Hge Hx]].
    + left. exists x. split_and!; [done|done|done| |done].
      intros (q & y & Hy & Hl). left. exists q, y. split; [|done]. unfold k'. simpl. rewrite map_find_set_ne; [done|].
      intros ->. destruct Hnid as [?|Hf]; [congruence|]. pose proof (no_lane _ _ _ _ _ _ (po_table _ Hok) Hf Hneg). simpl in *. congruence.
    + right. apply list_lookup_singleton_Some in Hx as [Hi <-]. split; [done|]. exists nid, (mkEntry (en_peer_id e) fd pending true (Some (length (k_objs k))) limit).
      unfold k'. simpl. rewrite map_find_set_eq. split; [done|]. simpl. f_equal. lia.
  - intros i x Hin Hx. rewrite Eo in Hx. apply lookup_app_Some in Hx as [Hx|[Hge Hx]].
    + destruct (Hold i Hin) as [Hin'| ->]; [by apply (po_live _ Hok i)|]. apply lookup_lt_Some in Hx. lia.
    + by apply list_lookup_singleton_Some in Hx as [_ <-].
Qed.

Lemma turn_bind k ts j fd nid option :
  process_ok (mkProcess k ts) -> ts !! j = Some (OnBind fd nid option) -> k_next k + 1 < 2 ^ 64 ->
  process_ok (mkProcess (fst (on_bind_section fd nid option k)) (<[j := snd (on_bind_section fd nid option k)]> ts)).
Proof.
  intros Hok Hj Hlt. pose proof (Forall_lookup_1 _ _ _ _ (po_threads _ Hok) Hj) as [Hfd Hled].
  pose proof (po_table _ Hok) as Ht. simpl in Ht, Hfd, Hled. unfold on_bind_section. case_bool_decide as Hnid.
  { apply (turn_inert k k ts j (OnBind fd nid option)); solve_turn. }
  destruct (map_find nid (k_peers k)) as [e|] eqn:E; cbv zeta; cbn [from_option id].
  - destruct (Z.ltb_spec (en_socket_fd e) 0) as [Hneg|Hpos]; cbn [fst snd].
    + apply (turn_connect k ts j fd nid option); try done; [|by right].
      replace (map_set nid e (k_peers k)) with (k_peers k); [done|]. symmetry. by apply map_set_same; [apply Ht|].
    + by apply (turn_pending k ts j (OnBind fd nid option)).
  - cbn [en_socket_fd fresh_entry]. change (-1 <? 0) with true. cbv iota. cbn [fst snd].
    pose proof (to_next _ _ _ _ Ht). apply (turn_connect k ts j fd nid option (fresh_entry (k_next k))); try done; [| |by left].
    + rewrite wrap_id by ulia. lia.
    + by apply table_ok_fresh.
Qed.

(** *** A channel goes down *)

Lemma find_shut fd q (m : std_map (list Z) Entry) :
  map_find q ((fun kv => (kv.1, shut_entry fd kv.2)) <$> m) = shut_entry fd <$> map_find q m.
Proof. induction m as [|[q' v] m IH]; simpl; [done|]. by destruct (decide (q = q')). Qed.

Lemma shut_entry_cases fd e :
  (en_socket_fd e = fd /\ shut_entry fd e = mkEntry (en_peer_id e) (-1) (en_pending_fd e) false None 0) \/
  (en_socket_fd e <> fd /\ exists p, shut_entry fd e = set_pending_of p e).
Proof.
  unfold shut_entry. destruct (Z.eqb_spec (en_socket_fd e) fd); [by left|right]. split; [done|].
  destruct (_ =? _); [by exists (-1)|]. exists (en_pending_fd e). by destruct e.
Qed.

Lemma table_ok_shut fd m next led sinks :
  table_ok m next led sinks -> table_ok ((fun kv => (kv.1, shut_entry fd kv.2)) <$> m) next led sinks.
Proof.
  intros [Hm Hn He Hu Hi Hl Hla Hsk Hnd Hsm].
  assert (Hback : forall q x, map_find q ((fun kv => (kv.1, shut_entry fd kv.2)) <$> m) = Some x ->
    exists y, map_find q m = Some y /\ en_peer_id x = en_peer_id y /\
      ((en_socket_fd x = -1 /\ en_up x = false /\ en_lane x = None) \/
       (en_socket_fd x = en_socket_fd y /\ en_up x = en_up y /\ en_lane x = en_lane y))).
  { intros q x. rewrite find_shut. destruct (map_find q m) as [y|]; [|done]. intros [= <-]. exists y. split; [done|].
    destruct (shut_entry_cases fd y) as [[_ ->]|[_ [p ->]]]; (split; [done|]); [by left|by right]. }
  split; try done.
  - clear -Hm. induction Hm as [|kv m Hs IH Hall]; simpl; [constructor|]. constructor; [done|].
    apply Forall_fmap. eapply Forall_impl; [exact Hall|]. done.
  - intros q x (y & Hy & -> & _)%Hback. by apply (He q).
  - intros q x (y & Hy & _ & [(-> & -> & ->)|(-> & -> & ->)])%Hback; [by split|by apply (Hu q)].
  - intros q q' x x' (y & Hy & -> & _)%Hback (y' & Hy' & -> & _)%Hback. by apply Hi.
  - intros q x (y & Hy & _ & [(-> & _)|(-> & _)])%Hback; [lia|by apply Hl].
  - intros q x i (y & Hy & -> & [(_ & _ & ->)|(-> & _ & ->)])%Hback; [done|by apply Hla].
  - intros i q x s Hs (y & Hy & -> & _)%Hback. by apply (Hnd i q y s).
Qed.

(** One entry at most is on the channel: the variables of the loop are its own. *)
Lemma down_none {A} (g : Entry -> A) (c : Entry -> bool) (m : std_map (list Z) Entry) acc :
  Forall (fun kv => c kv.2 = false) m -> foldl (fun x (kv : list Z * Entry) => if c kv.2 then g kv.2 else x) acc m = acc.
Proof. induction 1 as [|kv m E Hm IH] in acc |- *; [done|]. cbn [foldl]. by rewrite E. Qed.

Lemma down_found {A} (g : Entry -> A) (c : Entry -> bool) (m : std_map (list Z) Entry) acc nid e :
  map_ok m -> map_find nid m = Some e -> c e = true -> (forall q x, map_find q m = Some x -> c x = true -> q = nid) ->
  foldl (fun x (kv : list Z * Entry) => if c kv.2 then g kv.2 else x) acc m = g e.
Proof.
  intros Hm Hf Hc Hu. pose proof (map_keys_NoDup _ Hm) as Hnd. pose proof (map_find_In _ _ _ Hf) as Hin.
  assert (Hno : forall kv, kv ∈ m -> kv.1 <> nid -> c kv.2 = false).
  { intros [q x] Hq Hne. apply not_true_iff_false. intros Hcx. apply Hne. apply (Hu q x); [|done]. by apply map_In_find. }
  apply list_elem_of_split in Hin as (l1 & l2 & ->). unfold map_keys in Hnd. rewrite fmap_app, fmap_cons in Hnd.
  apply NoDup_app in Hnd as (_ & Hd & Hnd). apply NoDup_cons in Hnd as [Hn2 _].
  rewrite foldl_app. cbn [foldl snd]. rewrite Hc. apply (down_none g c). apply Forall_forall. intros kv Hkv.
  apply Hno; [apply elem_of_app; right; by right|]. intros E. apply Hn2. simpl. rewrite <- E. by apply list_elem_of_fmap_2.
Qed.

(** Two entries do not share a channel. *)
Lemma one_channel m next led sinks nid nid' e e' :
  table_ok m next led sinks -> map_find nid m = Some e -> map_find nid' m = Some e' ->
  0 <= en_socket_fd e -> en_socket_fd e' = en_socket_fd e -> nid' = nid.
Proof.
  intros Ht Hf Hf' Hpos E. pose proof (to_led _ _ _ _ Ht _ _ Hf Hpos) as H1.
  rewrite <- E in Hpos. pose proof (to_led _ _ _ _ Ht _ _ Hf' Hpos) as H2. rewrite E in H2. congruence.
Qed.

Lemma lane_channel m next led sinks nid e i :
  table_ok m next led sinks -> map_find nid m = Some e -> en_lane e = Some i -> en_up e = true /\ 0 <= en_socket_fd e.
Proof.
  intros Ht Hf Hl. destruct (to_up _ _ _ _ Ht _ _ Hf) as [Eu Hx].
  assert (Hup : en_up e = true) by (apply Hx; by rewrite Hl). split; [done|]. rewrite Hup in Eu. symmetry in Eu. by apply Z.leb_le.
Qed.

Lemma down_lane_found fd m next led sinks nid e i :
  table_ok m next led sinks -> map_find nid m = Some e -> en_lane e = Some i -> en_socket_fd e = fd -> down_lane fd m = Some i.
Proof.
  intros Ht Hf Hl Efd. destruct (lane_channel _ _ _ _ _ _ _ Ht Hf Hl) as [_ Hpos].
  unfold down_lane. rewrite <- Hl. apply (down_found en_lane (fun e => en_socket_fd e =? fd) m None nid e); [apply Ht|done|by apply Z.eqb_eq|].
  intros q x Hx Hc%Z.eqb_eq. apply (one_channel _ _ _ _ _ _ _ _ Ht Hf Hx Hpos). congruence.
Qed.

Lemma down_lane_from fd m i :
  map_ok m -> down_lane fd m = Some i -> exists nid e, map_find nid m = Some e /\ en_lane e = Some i /\ en_socket_fd e = fd.
Proof.
  intros Hm. unfold down_lane. assert (Hall : forall q e, (q, e) ∈ m -> map_find q m = Some e) by (intros; by apply map_In_find).
  clear Hm. assert (Hacc : forall l acc, (forall kv, kv ∈ l -> kv ∈ m) ->
    foldl (fun lane kv => if en_socket_fd kv.2 =? fd then en_lane kv.2 else lane) acc l = Some i ->
    acc = Some i \/ exists nid e, map_find nid m = Some e /\ en_lane e = Some i /\ en_socket_fd e = fd).
  { induction l as [|[q e] l IH]; intros acc Hsub; [by left|]. cbn [foldl snd]. intros Hf.
    destruct (IH _ (fun kv H => Hsub kv (list_elem_of_further _ _ _ H)) Hf) as [Ha|?]; [|by right].
    destruct (Z.eqb_spec (en_socket_fd e) fd) as [Efd|]; [|by left].
    right. exists q, e. split; [|done]. apply Hall, Hsub. left. }
  intros Hf. by destruct (Hacc m None (fun _ H => H) Hf).
Qed.

Lemma turn_shutdown k ts j fd :
  process_ok (mkProcess k ts) -> ts !! j = Some (OnShutdown fd) ->
  process_ok (mkProcess (fst (on_shutdown_section fd k)) (<[j := snd (on_shutdown_section fd k)]> ts)).
Proof.
  intros Hok Hj. pose proof (po_table _ Hok) as Ht. simpl in Ht. unfold on_shutdown_section. destruct (fd =? k_listen_fd k).
  { apply (turn_inert k (set_running k false) ts j (OnShutdown fd)); solve_turn. }
  cbn [fst snd]. set (t' := match _ with Some _ => _ | None => _ end).
  assert (Hplain : (forall i, commits i t' = 0) /\ (forall p f, pushing p f t' = 0) /\ polls t' = false).
  { unfold t', report_down. destruct (down_lane _ _); [done|]. by destruct (_ =? _). }
  destruct Hplain as (Hc & Hp & Hpo).
  apply (turn_table k (set_table k _ _) ts j (OnShutdown fd)); solve_turn.
  - split; try done. intros i (q & x & Hx & Hl). simpl in Hx. rewrite find_shut in Hx.
    destruct (map_find q (k_peers k)) as [y|] eqn:Hy; [|done]. injection Hx as <-. exists q, y. split; [done|].
    by destruct (shut_entry_cases fd y) as [[_ E]|[_ [p E]]]; rewrite E in Hl.
  - by apply table_ok_shut.
  - unfold t', report_down. destruct (down_lane fd (k_peers k)) as [i|] eqn:Ed; [|by destruct (_ =? _)].
    destruct (down_lane_from fd _ i (to_map _ _ _ _ Ht) Ed) as (nid & e & He & Hl & Efd).
    pose proof (to_lane _ _ _ _ Ht _ _ _ He Hl) as Hs. split; [by apply lookup_lt_Some in Hs; rewrite length_fmap in Hs|].
    intros (q & x & Hx & Hlx). simpl in Hx. rewrite find_shut in Hx. destruct (map_find q (k_peers k)) as [y|] eqn:Hy; [|done].
    injection Hx as <-. destruct (shut_entry_cases fd y) as [[_ E]|[Hne [p E]]]; rewrite E in Hlx; [done|]. simpl in Hlx.
    pose proof (to_lane _ _ _ _ Ht _ _ _ Hy Hlx) as Hs'. rewrite Hs in Hs'. injection Hs' as _ Ef _. congruence.
  - unfold stays_poll. rewrite Hpo. apply orb_true_r.
  - intros p f. rewrite Hp. simpl. lia.
  - intros i o Ho Hd. split; [|done]. intros (nid & e & He & Hl). destruct (Z.eq_dec (en_socket_fd e) fd) as [Efd|Hne].
    + right. unfold t'. rewrite (down_lane_found fd _ _ _ _ nid e i Ht He Hl Efd). split; [done|].
      pose proof (to_lane _ _ _ _ Ht _ _ _ He Hl) as Hs. rewrite list_lookup_fmap, Ho in Hs. injection Hs as Hs. by rewrite Hs.
    + left. exists nid, (shut_entry fd e). simpl. rewrite find_shut, He. split; [done|].
      destruct (shut_entry_cases fd e) as [[? _]|[_ [p ->]]]; [done|exact Hl].
Qed.

Lemma table_ok_nil next led sinks m : table_ok m next led sinks -> table_ok [] next led sinks.
Proof. intros [Hm Hn He Hu Hi Hl Hla Hsk Hnd Hsm]. split; try done. apply map_ok_nil. Qed.

Lemma elem_of_lanes_of k i :
  map_ok (k_peers k) -> i ∈ lanes_of (k_peers k) <-> in_table k i.
Proof.
  intros Hm. unfold lanes_of. rewrite list_elem_of_omap. split.
  - intros ([nid e] & Hin & Hl). exists nid, e. split; [by apply map_In_find|done].
  - intros (nid & e & He & Hl). exists (nid, e). split; [by apply map_find_In|done].
Qed.

Lemma turn_clear k ts j :
  process_ok (mkProcess k ts) -> ts !! j = Some StopClear ->
  process_ok (mkProcess (fst (stop_section k)) (<[j := snd (stop_section k)]> ts)).
Proof.
  intros Hok Hj. pose proof (po_table _ Hok) as Ht. simpl in Ht. unfold stop_section. cbn [fst snd].
  apply (turn_table k _ ts j StopClear); solve_turn.
  - split; try done. by intros i (q & x & Hx & _).
  - by eapply table_ok_nil.
  - split; [done|]. apply Forall_forall. intros i (nid & e & He & Hl)%elem_of_lanes_of; [|apply Ht].
    pose proof (to_lane _ _ _ _ Ht _ _ _ He Hl) as Hs. apply lookup_lt_Some in Hs. rewrite length_fmap in Hs.
    split; [done|]. by intros (q & x & Hx & _).
  - intros i o Ho Hd. split; [|done]. intros Hin. right. simpl. apply elem_of_lanes_of; [apply Ht|done].
Qed.

Lemma turn_nodes k ts j nodes :
  process_ok (mkProcess k ts) -> ts !! j = Some PollNodes -> k_next k + len nodes < 2 ^ 64 ->
  let r := foldl note_section (k, []) nodes in
  process_ok (mkProcess (fst r) (<[j := PollBind (snd r)]> ts)).
Proof.
  intros Hok Hj Hlt r. destruct (notes_fold nodes k [] (po_table _ Hok) Hlt) as [Hs Hsd Ht Hin]. fold r in Hs, Hsd, Ht, Hin.
  apply (turn_table k (fst r) ts j PollNodes); solve_turn.
  - intros p f. rewrite Hsd. simpl. lia.
  - intros i o Ho Hd. split; [|done]. intros ?. left. by apply Hin.
Qed.

(** *** Turns at a lane *)

(** A lane changes in a step of [SendLane], or not at all. *)
Definition lane_turn (k : Backend) (i : nat) (o o' : LaneObj) (b' : SendBudget) : Prop :=
  lane_step (lanes_system k) (mkSystem (<[i := lo_lane o']> (lo_lane <$> k_objs k)) b') \/
  (lo_lane o' = lo_lane o /\ b' = k_budget k).

Lemma lanes_ok_step k i o o' b' :
  lanes_ok k -> kGlobalByteBudget + (len (k_objs k) + 1) * kLaneByteBudget < 2 ^ 63 -> k_objs k !! i = Some o -> obj_ok o' ->
  lane_turn k i o o' b' -> lanes_ok (set_obj i o' b' k).
Proof.
  intros [Hs Ho] Hfit Hi Hok Hstep. pose proof (lookup_lt_Some _ _ _ Hi) as Hlt.
  split; unfold lanes_system; simpl; [|by apply Forall_insert]. rewrite length_insert, list_fmap_insert.
  destruct Hstep as [Hstep|[-> ->]]; [|by rewrite list_insert_id; [|rewrite list_lookup_fmap, Hi]].
  eapply (lane_step_ok (length (k_objs k)) kLaneByteBudget kGlobalByteBudget); [lia|by unfold kLaneByteBudget|by unfold kGlobalByteBudget| |exact Hstep|exact Hs].
  unfold kLaneByteBudget, kGlobalByteBudget in *. lia.
Qed.

Lemma set_obj_sinks i o o' b' k :
  k_objs k !! i = Some o -> lo_sink o' = lo_sink o -> lo_sink <$> k_objs (set_obj i o' b' k) = lo_sink <$> k_objs k.
Proof. intros Hi E. simpl. rewrite list_fmap_insert, E. apply list_insert_id. by rewrite list_lookup_fmap, Hi. Qed.

Lemma held_set_obj i i' o o' b' k :
  k_objs k !! i = Some o ->
  held (set_obj i o' b' k) i' =
  if decide (i' = i) then len (opt_list (sl_pending (lo_lane o'))) else held k i'.
Proof.
  intros Hi. unfold held. simpl. destruct (decide (i' = i)) as [->|Hne].
  - by rewrite list_lookup_insert_eq by (by eapply lookup_lt_Some).
  - by rewrite list_lookup_insert_ne.
Qed.

Lemma grows_set_obj i o o' b' k :
  k_objs k !! i = Some o -> lo_sink o' = lo_sink o ->
  (sl_stopping (lo_lane o) = true -> sl_stopping (lo_lane o') = true) -> grows k (set_obj i o' b' k).
Proof.
  intros Hi Es Hst. split; try done; [by rewrite (set_obj_sinks i o)|].
  intros i' (x & Hx & Hs). destruct (decide (i' = i)) as [->|Hne].
  - exists o'. simpl. rewrite list_lookup_insert_eq by (by eapply lookup_lt_Some). split; [done|]. apply Hst. congruence.
  - exists x. simpl. by rewrite list_lookup_insert_ne.
Qed.

Lemma turn_lane k ts j t t' i o o' b' :
  process_ok (mkProcess k ts) -> ts !! j = Some t -> k_objs k !! i = Some o ->
  kGlobalByteBudget + (len (k_objs k) + 1) * kLaneByteBudget < 2 ^ 63 ->
  lo_sink o' = lo_sink o -> obj_ok o' ->
  lane_turn k i o o' b' ->
  (sl_stopping (lo_lane o) = true -> sl_stopping (lo_lane o') = true) ->
  (in_table k i -> sl_stopping (lo_lane o') = sl_stopping (lo_lane o)) ->
  (sl_done (lo_lane o') = false -> sl_done (lo_lane o) = false) ->
  thread_ok (set_obj i o' b' k) t' -> stays_poll t t' = true ->
  len (opt_list (sl_pending (lo_lane o'))) - len (opt_list (sl_pending (lo_lane o))) = commits i t' - commits i t ->
  (forall i', i' <> i -> commits i' t' = commits i' t) ->
  (forall p f, took p f o' - took p f o + pushing p f t' - pushing p f t <= 0) ->
  (forall i' fd, ends_lane i' fd t -> ends_lane i' fd t' \/ i' = i /\ sl_done (lo_lane o') = true) ->
  process_ok (mkProcess (set_obj i o' b' k) (<[j := t']> ts)).
Proof.
  intros Hok Hj Hi Hfit Es Ho' Hstep Hst Hsame Hdn Hth Hp Hc Hc' Hs He.
  apply (process_ok_turn k (set_obj i o' b' k) ts j t t'); try done.
  - by apply (grows_set_obj i o).
  - rewrite (set_obj_sinks i o) by done. apply (po_table _ Hok).
  - by apply (lanes_ok_step k i o); [apply Hok|..].
  - intros i'. rewrite (held_set_obj i i' o) by done. unfold held. destruct (decide (i' = i)) as [->|Hne]; [by rewrite Hi|].
    rewrite (Hc' i' Hne). lia.
  - intros p f. simpl. rewrite (zsum_insert _ _ _ o) by done. specialize (Hs p f). lia.
  - intros i' x Hx Hd. left. simpl in Hx. destruct (decide (i' = i)) as [->|Hne].
    + rewrite list_lookup_insert_eq in Hx by (by eapply lookup_lt_Some). injection Hx as <-. exists o. split_and!; [done|done|by apply Hdn|by left|].
      intros Hend. destruct (He _ _ Hend) as [?|[_ ?]]; [done|congruence].
    + rewrite list_lookup_insert_ne in Hx by done. exists x. split_and!; [done|done|done|by left|].
      intros Hend. by destruct (He _ _ Hend) as [?|[? _]].
  - intros i' x Hin Hx. simpl in Hx. destruct (decide (i' = i)) as [->|Hne].
    + rewrite list_lookup_insert_eq in Hx by (by eapply lookup_lt_Some). injection Hx as <-. rewrite Hsame by done. by apply (po_live _ Hok i).
    + rewrite list_lookup_insert_ne in Hx by done. by apply (po_live _ Hok i').
Qed.

Lemma lane_free_spec l : lane_free l = true <-> sl_pending l = None.
Proof. unfold lane_free. by destruct (sl_pending l). Qed.

(** A change of a lane that is not seen by its worker. *)
Lemma obj_ok_lane o l' :
  obj_ok o -> sl_inflight l' = sl_inflight (lo_lane o) -> sl_delivered l' = sl_delivered (lo_lane o) -> obj_ok (with_lane l' o).
Proof. intros [Hw Hs Hn] Ei Ed. split; simpl; [by rewrite Ei|by rewrite Ed|done]. Qed.

Lemma obj_ok_at k ts i o : process_ok (mkProcess k ts) -> k_objs k !! i = Some o -> obj_ok o.
Proof. intros Hok Hi. destruct (po_lanes _ Hok) as [_ Hall]. by eapply Forall_lookup_1 in Hall. Qed.

Lemma turn_push a pd k ts j peer i f k' t' :
  process_ok (mkProcess k ts) -> ts !! j = Some (Push peer i f) -> has_room a k ->
  thread_act a pd (Push peer i f) k = Some (k', t') -> process_ok (mkProcess k' (<[j := t']> ts)).
Proof.
  intros Hok Hj [_ Hfit]. simpl. destruct (k_objs k !! i) as [o|] eqn:Hi; [|done]. simpl.
  destruct (lane_free (lo_lane o)) eqn:Hfree; [|done]. apply lane_free_spec in Hfree.
  pose proof (Forall_lookup_1 _ _ _ _ (po_threads _ Hok) Hj) as (Hlen & s & Hs & Hpeer). simpl in Hlen, Hs.
  rewrite list_lookup_fmap, Hi in Hs. injection Hs as <-. pose proof (obj_ok_at _ _ _ _ Hok Hi) as Ho.
  assert (Hstep : lane_step (lanes_system k)
    (mkSystem (<[i := fst (push_check (lo_lane o) (k_budget k) f)]> (lo_lane <$> k_objs k)) (k_budget k))).
  { apply (step_push_check (lanes_system k) i (lo_lane o) f); [|done|done]. simpl. by rewrite list_lookup_fmap, Hi. }
  unfold push_check in *. destruct (push_refused _ _ _); intros [= <- <-]; cbn [fst] in Hstep.
  - apply (turn_lane k ts j (Push peer i f) Idle i o); solve_turn; [by apply obj_ok_lane|by left|].
    intros p f'. simpl. unfold took. simpl. destruct (decide ((peer, f) = (p, f'))); lia.
  - apply (turn_lane k ts j (Push peer i f) (Commit i) i o); solve_turn.
    + by apply obj_ok_lane.
    + by left.
    + simpl. rewrite length_insert. by eapply lookup_lt_Some.
    + simpl. rewrite Hfree, decide_True by done. done.
    + intros i' Hne. simpl. by rewrite decide_False.
    + intros p f'. simpl. unfold took. simpl. rewrite Hfree, Hpeer. simpl. rewrite app_nil_r, count_app, count_cons, count_nil.
      destruct (decide (peer = p)) as [->|Hne]; [|rewrite decide_False by congruence; lia].
      destruct (decide (f = f')) as [->|Hne]; [by rewrite decide_True; [lia|]|rewrite decide_False by congruence; lia].
Qed.

Lemma turn_commit a pd k ts j i k' t' :
  process_ok (mkProcess k ts) -> ts !! j = Some (Commit i) -> has_room a k ->
  thread_act a pd (Commit i) k = Some (k', t') -> process_ok (mkProcess k' (<[j := t']> ts)).
Proof.
  intros Hok Hj [_ Hfit]. simpl. destruct (k_objs k !! i) as [o|] eqn:Hi; [|done]. simpl.
  destruct (sl_pending (lo_lane o)) as [f|] eqn:Hf; [|done]. simpl. intros [= <- <-].
  apply (turn_lane k ts j (Commit i) Idle i o); solve_turn.
  - apply obj_ok_lane; [by eapply obj_ok_at|done..].
  - left. eapply (step_push_commit (lanes_system k) i (lo_lane o) f); [|done|done]. simpl. by rewrite list_lookup_fmap, Hi.
  - simpl. rewrite Hf, decide_True by done. done.
  - intros i' Hne. simpl. by rewrite decide_False.
  - intros p f'. simpl. unfold took. simpl. rewrite Hf. simpl. rewrite app_nil_r. lia.
Qed.

(** The latch of a stop, by any of the two calls that stop lanes. *)
Lemma turn_latch a k ts j i t t' k' :
  process_ok (mkProcess k ts) -> given_up k i -> ts !! j = Some t -> has_room a k -> latch i k = Some k' ->
  (forall i', commits i' t' = 0) -> (forall i', commits i' t = 0) -> (forall p f, pushing p f t' = pushing p f t) ->
  stays_poll t t' = true -> thread_ok k' t' -> (forall i' fd, ends_lane i' fd t -> ends_lane i' fd t') ->
  process_ok (mkProcess k' (<[j := t']> ts)).
Proof.
  intros Hok [_ Hno] Hj [_ Hfit]. unfold latch. destruct (k_objs k !! i) as [o|] eqn:Hi; [|done]. simpl.
  destruct (lane_free (lo_lane o)) eqn:Hfree; [|done]. apply lane_free_spec in Hfree. intros [= <-] Hc' Hc Hp Hpo Hth He.
  apply (turn_lane k ts j t t' i o); solve_turn.
  - apply obj_ok_lane; [by eapply obj_ok_at|done..].
  - left. apply (step_stop (lanes_system k) i (lo_lane o) false); [|done]. simpl. by rewrite list_lookup_fmap, Hi.
  - rewrite Hc, Hc'. simpl. lia.
  - intros i' _. by rewrite Hc, Hc'.
  - intros p f. rewrite Hp. unfold took. simpl. lia.
  - intros i' fd ?. left. by apply He.
Qed.

Lemma latch_stopping i k k' : latch i k = Some k' ->
  stopping k' i /\ length (k_objs k') = length (k_objs k) /\ k_instance k' = k_instance k /\ k_peers k' = k_peers k.
Proof.
  unfold latch. destruct (k_objs k !! i) as [o|] eqn:Hi; [|done]. simpl. destruct (lane_free _); [|done]. intros [= <-].
  simpl. split_and!; [|apply length_insert|done|done]. exists (with_lane (SendLane.stop (lo_lane o) false) o). simpl.
  split; [|done]. apply list_lookup_insert_eq. by eapply lookup_lt_Some.
Qed.

Lemma joined_done i k u : joined i k = Some u -> forall o, k_objs k !! i = Some o -> sl_done (lo_lane o) = true.
Proof. unfold joined. intros E o Ho. rewrite Ho in E. simpl in E. by destruct (sl_done _). Qed.

Lemma look_up_lane_some m next led sinks k peer i :
  table_ok m next led sinks -> k_peers k = m -> look_up_lane k peer = Some i ->
  exists s, sinks !! i = Some s /\ sk_peer s = peer.
Proof.
  intros Ht <-. unfold look_up_lane. destruct (find _ _) as [[nid e]|] eqn:E; [|done]. simpl. intros Hl.
  apply find_some in E as [Hin%list_elem_of_In [Hp%Z.eqb_eq _]%andb_true_iff]. simpl in Hp.
  apply (map_In_find _ _ _ (to_map _ _ _ _ Ht)) in Hin. rewrite (to_lane _ _ _ _ Ht _ _ _ Hin Hl). eexists. split; [done|]. exact Hp.
Qed.

Lemma turn_send k ts j peer f :
  process_ok (mkProcess k ts) -> ts !! j = Some (SendCall peer f) ->
  process_ok (mkProcess (log_send k peer f)
    (<[j := match look_up_lane k peer with Some i => Push peer i f | None => Idle end]> ts)).
Proof.
  intros Hok Hj. pose proof (Forall_lookup_1 _ _ _ _ (po_threads _ Hok) Hj) as Hlen. simpl in Hlen.
  apply (turn_inert k (log_send k peer f) ts j (SendCall peer f)); solve_turn.
  - destruct (look_up_lane k peer) as [i|] eqn:E; [|done]. split; [done|].
    by apply (look_up_lane_some _ _ _ _ _ _ _ (po_table _ Hok) eq_refl).
  - by destruct (look_up_lane k peer).
  - intros i. by destruct (look_up_lane k peer).
  - intros p f'. simpl. rewrite count_app, count_cons, count_nil.
    destruct (look_up_lane k peer); simpl; destruct (decide ((peer, f) = (p, f'))); lia.
Qed.

Lemma turn_error k ts j fd :
  process_ok (mkProcess k ts) -> ts !! j = Some (OnError fd) -> process_ok (mkProcess (on_error_section fd k) (<[j := Idle]> ts)).
Proof.
  intros Hok Hj. unfold on_error_section. destruct (find _ _) as [[nid e]|] eqn:E.
  - apply find_some in E as [Hin%list_elem_of_In _]. apply (map_In_find _ _ _ (to_map _ _ _ _ (po_table _ Hok))) in Hin.
    by apply (turn_pending k ts j (OnError fd)).
  - apply (turn_inert k k ts j (OnError fd)); solve_turn.
Qed.

(** Joins: the lane has ended. *)
Lemma turn_joined k ts j i t t' u :
  process_ok (mkProcess k ts) -> ts !! j = Some t -> joined i k = Some u -> thread_ok k t' ->
  stays_poll t t' = true -> (forall i', commits i' t' = commits i' t) -> (forall p f, pushing p f t' = pushing p f t) ->
  (forall i' fd, ends_lane i' fd t -> i' = i \/ ends_lane i' fd t') ->
  process_ok (mkProcess k (<[j := t']> ts)).
Proof.
  intros Hok Hj Hjn Hth Hpo Hc Hp He. apply (turn_inert k k ts j t t'); solve_turn.
  - intros p f. rewrite Hp. lia.
  - intros i' o Ho Hd Hend. destruct (He _ _ Hend) as [->|?]; [|done].
    rewrite (joined_done _ _ _ Hjn o Ho) in Hd. done.
Qed.

Lemma report_down_plain peer k :
  thread_ok k (report_down peer) /\ polls (report_down peer) = false /\ (forall i, commits i (report_down peer) = 0) /\
  forall p f, pushing p f (report_down peer) = 0.
Proof. unfold report_down. by destruct (_ =? _). Qed.

Lemma turn_ok a j P P' :
  process_ok P -> has_room a (pr_backend P) -> turn a j P = Some P' -> process_ok P'.
Proof.
  destruct P as [k ts]. intros Hok Hroom. unfold turn. cbn [pr_backend pr_threads].
  destruct (ts !! j) as [t|] eqn:Hj; [|done]. simpl.
  destruct (thread_act a (poll_done ts) t k) as [[k' t']|] eqn:E; [|done]. simpl. intros [= <-].
  pose proof (Forall_lookup_1 _ _ _ _ (po_threads _ Hok) Hj) as Hth. simpl in Hroom, Hth. pose proof Hroom as [Hnext _].
  destruct t.
  - done.
  - injection E as <- <-. by apply turn_send.
  - by eapply turn_push.
  - by eapply turn_commit.
  - injection E as E. pose proof (turn_bind k ts j fd nid option Hok Hj ltac:(lia)) as Hx. by rewrite E in Hx.
  - injection E as <- <-. apply (turn_inert k _ ts j (ReportUp peer)); solve_turn.
  - injection E as E. pose proof (turn_shutdown k ts j fd Hok Hj) as Hx. by rewrite E in Hx.
  - simpl in E. destruct (latch i k) as [k1|] eqn:El; [|done]. injection E as <- <-. pose proof (latch_stopping i k k1 El) as (Hst & _).
    by apply (turn_latch a k ts j i (StopLane fd i peer) (JoinLane fd i peer)).
  - simpl in E. destruct (joined i k) as [u|] eqn:El; [|done]. injection E as <- <-. destruct (report_down_plain peer k) as (? & ? & Hc & Hp).
    apply (turn_joined k ts j i (JoinLane fd i peer) _ u); try done.
    + unfold report_down. by destruct (_ =? _).
    + intros i' fd' [<- _]. by left.
  - injection E as <- <-. apply (turn_inert k _ ts j (ReportDown peer)); solve_turn.
  - injection E as <- <-. unfold on_bytes_section. destruct (find _ _) as [kv|];
      [destruct (_ =? _)|]; apply (turn_inert k _ ts j (OnBytes fd data)); solve_turn.
  - injection E as <- <-. apply (turn_inert k _ ts j (ReportBytes peer data)); solve_turn.
  - injection E as <- <-. by apply turn_error.
  - injection E as <- <-. destruct (k_running k); apply (turn_inert k k ts j Poll); solve_turn.
  - simpl in E. pose proof (turn_nodes k ts j (a_nodes a) Hok Hj ltac:(lia)) as Hn. destruct (foldl _ _ _) as [k1 l]. by injection E as <- <-.
  - simpl in E. destruct to_bind as [|nid to_bind]; [injection E as <- <-; apply (turn_inert k k ts j (PollBind [])); solve_turn|].
    destruct (a_fd a <? 0); [injection E as <- <-; apply (turn_inert k k ts j (PollBind (nid :: to_bind))); solve_turn|].
    destruct (map_find nid (k_peers k)) as [e|] eqn:He; injection E as <- <-.
    + by apply (turn_pending k ts j (PollBind (nid :: to_bind))).
    + apply (turn_inert k k ts j (PollBind (nid :: to_bind))); solve_turn.
  - simpl in E. set (t := BindingAsync nid fd to_bind) in *.
    destruct (a_ok a); [injection E as <- <-; apply (turn_inert k k ts j t); solve_turn|].
    destruct (map_find nid (k_peers k)) as [e|] eqn:He; injection E as <- <-; [destruct (_ =? _)|].
    + by apply (turn_pending k ts j t).
    + apply (turn_inert k k ts j t); solve_turn.
    + apply (turn_inert k k ts j t); solve_turn.
  - simpl in E. destruct (k_running k); [done|]. injection E as <- <-. apply (turn_inert k k ts j PollWait); solve_turn.
  - simpl in E. simpl in Hth. destruct (k_running k); injection E as <- <-; [|apply (turn_inert k k ts j Stop); solve_turn].
    apply (turn_inert k (set_running k false) ts j Stop); solve_turn.
  - simpl in E. destruct (poll_done ts); [|done]. injection E as <- <-. apply (turn_inert k k ts j StopJoin); solve_turn.
  - injection E as <- <-. by apply turn_clear.
  - simpl in E. destruct Hth as [Hin Hall]. destruct lanes as [|i lanes].
    { injection E as <- <-. apply (turn_inert k k ts j (StopLanes [])); solve_turn. intros i o _ _ Hi. by apply not_elem_of_nil in Hi. }
    destruct (latch i k) as [k1|] eqn:El; [|done]. injection E as <- <-. pose proof (latch_stopping i k k1 El) as (Hst & Hlen & Hi1 & Hp1).
    apply Forall_cons in Hall as [Hgu Hall].
    apply (turn_latch a k ts j i (StopLanes (i :: lanes)) (JoinLanes i lanes)); try done.
    + simpl. unfold given_up, in_table. by rewrite Hi1, Hlen, Hp1.
    + intros i' fd [->|?]%elem_of_cons; [by left|by right].
  - simpl in E. destruct (joined i k) as [u|] eqn:El; [|done]. injection E as <- <-. destruct Hth as (Hin & Hall & _).
    apply (turn_joined k ts j i (JoinLanes i lanes) _ u); try done. intros i' fd [->|?]; [by left|by right].
Qed.

(** *** Workers *)

Lemma take_facts l b l' b' : worker_take l b = Some (l', b') ->
  sl_delivered l' = sl_delivered l /\ sl_accepted l' = sl_accepted l /\ sl_pending l' = sl_pending l /\
  sl_stopping l' = sl_stopping l.
Proof.
  unfold worker_take. destruct (sl_queue l) as [|f q].
  - destruct (sl_stopping l) eqn:E; [|done]. by intros [= <- <-].
  - destruct (_ && _); [destruct (release_all _ _ _)|destruct (release _ _ _)]; by intros [= <- <-].
Qed.

(** A turn of a worker: no call moves. *)
Lemma work_lane k ts i o o' b' :
  process_ok (mkProcess k ts) -> k_objs k !! i = Some o ->
  kGlobalByteBudget + (len (k_objs k) + 1) * kLaneByteBudget < 2 ^ 63 ->
  lo_sink o' = lo_sink o -> obj_ok o' -> lane_turn k i o o' b' ->
  sl_stopping (lo_lane o') = sl_stopping (lo_lane o) -> sl_accepted (lo_lane o') = sl_accepted (lo_lane o) ->
  sl_pending (lo_lane o') = sl_pending (lo_lane o) -> sl_done (lo_lane o) = false ->
  process_ok (mkProcess (set_obj i o' b' k) ts).
Proof.
  intros Hok Hi Hfit Es Ho' Hstep Est Eac Epe Hd. destruct ts as [|t ts]; [by destruct (po_some _ Hok)|].
  pose proof (Forall_lookup_1 _ _ 0%nat t (po_threads _ Hok) eq_refl) as Hth. simpl in Hth.
  apply (turn_lane k (t :: ts) 0 t t i o o' b'); try done.
  - by rewrite Est.
  - apply (thread_ok_grows k); [|done]. apply (grows_set_obj i o); [done|done|by rewrite Est].
  - apply stays_poll_refl.
  - rewrite Epe. lia.
  - intros p f. unfold took. rewrite Es, Eac, Epe. lia.
  - intros i' fd ?. by left.
Qed.

Lemma work_ok a i P P' :
  process_ok P -> has_room a (pr_backend P) -> work a i P = Some P' -> process_ok P'.
Proof.
  destruct P as [k ts]. intros Hok [_ Hfit]. unfold work, worker_act. cbn [pr_backend pr_threads] in *.
  destruct (k_objs k !! i) as [o|] eqn:Hi; [|done]. simpl. pose proof (obj_ok_at _ _ _ _ Hok Hi) as [Hw Hs Hn].
  destruct (po_lanes _ Hok) as [(_ & Hall & _) _]. simpl in Hall.
  assert (Hl : (lo_lane <$> k_objs k) !! i = Some (lo_lane o)) by (by rewrite list_lookup_fmap, Hi).
  pose proof (Forall_lookup_1 _ _ _ _ Hall Hl) as Hlane.
  assert (Hlive : forall f, sl_inflight (lo_lane o) = Some f -> sl_done (lo_lane o) = false).
  { intros f Hf. destruct (sl_done (lo_lane o)) eqn:Ed; [|done]. destruct (lo_done _ _ Hlane Ed) as (_ & _ & ?). congruence. }
  destruct (lo_worker o) as [|f|f].
  - destruct (sl_done (lo_lane o)) eqn:Ed; [done|]. destruct (lane_free (lo_lane o)) eqn:Ef; [|done]. apply lane_free_spec in Ef.
    simpl. destruct (worker_take _ _) as [[l' b']|] eqn:Et; [|done]. simpl. intros [= <-].
    destruct (take_facts _ _ _ _ Et) as (E1 & E2 & E3 & E4).
    apply (work_lane k ts i o); try done; [|by left; eapply step_worker_take].
    split; simpl; [by destruct (sl_inflight l')|by rewrite E1|done].
  - simpl. intros [= <-]. destruct (channel_live _ _); apply (work_lane k ts i o); try done; try (by eapply Hlive).
    + by right.
    + split; simpl; [done| |done]. by apply sublist_inserts_r.
    + left. by eapply step_worker_send.
  - simpl. intros [= <-]. destruct (po_alive _ Hok i o Hi (Hlive _ Hw)) as [Hled _]. simpl in Hled.
    apply (work_lane k ts i o); try done; [| |by eapply Hlive].
    + split; simpl; [done| |].
      * rewrite fmap_app. simpl. by apply sublist_app.
      * intros f' nid [?|E]%elem_of_app; [by eapply Hn|]. apply list_elem_of_singleton in E. injection E as -> ->. exact Hled.
    + left. by eapply step_worker_send.
Qed.

(** *** New calls *)

(** A call that has done nothing yet. *)
Definition fresh_call (t : Thread) : Prop :=
  (forall i, commits i t = 0) /\ (forall p f, pushing p f t = 0) /\ polls t = false.

Lemma process_ok_call k ts t : process_ok (mkProcess k ts) -> fresh_call t -> thread_ok k t -> process_ok (mkProcess k (ts ++ [t])).
Proof.
  intros [Ht Hl Hth Hc Hs Ha Hlv Hp Hn Hfi] (Ec & Ep & Epo) Hok. split; simpl in *; try done.
  - apply Forall_app. split; [done|]. by apply Forall_singleton.
  - intros i. rewrite fmap_app, zsum_app, Hc. simpl. rewrite Ec. lia.
  - intros p f. rewrite fmap_app, zsum_app. simpl. rewrite Ep. specialize (Hs p f). lia.
  - intros i o Ho Hd. destruct (Ha i o Ho Hd) as [Hled [?|(u & Hu & He)]]; (split; [done|]); [by left|].
    right. exists u. split; [|done]. apply elem_of_app. by left.
  - intros j u [Hu|[_ Hu]]%lookup_app_Some; [by apply Hp|]. apply list_lookup_singleton_Some in Hu as [_ <-]. by rewrite Epo.
  - by destruct ts.
  - intros u. by destruct ts; [destruct Hn|apply Hfi].
Qed.

(** The service gives a descriptor to a node. *)
Lemma process_ok_led P fd nid :
  process_ok P -> k_instance (pr_backend P) = true -> fd_unused fd nid P ->
  process_ok (mkProcess (set_led (pr_backend P) (map_set fd nid (k_led (pr_backend P)))) (pr_threads P)).
Proof.
  destruct P as [k ts]. intros Hok Hin (Hfd & Hen & Hth). simpl in *. pose proof Hok as [Ht Hl Hts Hc Hs Ha Hlv Hp Hn Hfi]. simpl in *.
  assert (Hled : forall q nid', map_find q (k_led k) = Some nid' -> (q = fd -> nid' = nid) ->
    map_find q (map_set fd nid (k_led k)) = Some nid').
  { intros q nid' Hq Hx. rewrite map_find_set. destruct (decide (q = fd)) as [E|]; [by rewrite (Hx E)|done]. }
  split; simpl; try done.
  - destruct Ht as [H1 H2 H3 H4 H5 H6 H7 H8 H9 H10]. split; try done. intros q e He Hpos. apply Hled; [by apply H6|]. by apply Hen.
  - apply Forall_forall. intros t Hin'. rewrite Forall_forall in Hts. specialize (Hts t Hin'). specialize (Hth t Hin').
    destruct t; simpl in *; try done. destruct Hts as [? Hq]. split; [done|]. apply Hled; [done|]. intros E. by apply Z.eqb_neq in Hth.
  - intros i o Ho Hd. destruct (Ha i o Ho Hd) as [Hq Hcase]. split; [|done]. apply Hled; [done|]. intros E.
    destruct Hcase as [(q & e & He & Hl')|(t & Hin' & Hend)].
    + pose proof (to_lane _ _ _ _ Ht _ _ _ He Hl') as Hsk. rewrite list_lookup_fmap, Ho in Hsk. injection Hsk as Hsk.
      rewrite Hsk in *. simpl in *. by apply (Hen q e).
    + rewrite Forall_forall in Hts. specialize (Hts t Hin'). specialize (Hth t Hin').
      destruct t; simpl in *; try done.
      * destruct Hend as [_ ->]. by apply Z.eqb_neq in Hth.
      * destruct Hend as [_ ->]. by apply Z.eqb_neq in Hth.
      * destruct Hts. congruence.
      * destruct Hts as [? _]. congruence.
Qed.

Lemma starts_ok P t k : process_ok P -> starts P t k -> process_ok (mkProcess k (pr_threads P ++ [t])).
Proof.
  intros Hok. destruct 1 as [peer f Hf|fd nid option Hi Hu|fd Hi|fd data Hi|fd Hi|].
  2:{ apply process_ok_call; [by apply process_ok_led|done|]. destruct Hu as [? _]. split; [done|]. simpl. apply map_find_set_eq. }
  all: destruct P; by apply process_ok_call.
Qed.

Lemma timer_ok P :
  process_ok P -> pr_threads P !! 0%nat = Some PollWait -> process_ok (mkProcess (pr_backend P) (<[0%nat := Poll]> (pr_threads P))).
Proof. destruct P as [k ts]. intros Hok Hj. simpl in *. apply (turn_inert k k ts 0 PollWait); solve_turn. Qed.

Lemma started_ok fd : process_ok (started fd).
Proof.
  split; cbn [started pr_backend pr_threads].
  - split; simpl; try done. apply map_ok_nil.
  - split; [|by apply Forall_nil_2]. by split_and!.
  - by apply Forall_singleton.
  - done.
  - done.
  - done.
  - done.
  - by intros [|j] t E.
  - done.
  - intros t [= <-]. by left.
Qed.

Lemma moves_ok P P' : process_ok P -> moves P P' -> process_ok P'.
Proof. intros Hok [a j Hr E|a i Hr E]; [by eapply turn_ok|by eapply work_ok]. Qed.

Lemma process_step_ok P P' : process_ok P -> process_step P P' -> process_ok P'.
Proof. intros Hok [P1 Hm|t k Hs|Ht]; [by eapply moves_ok|by apply starts_ok|by apply timer_ok]. Qed.

Lemma process_reachable_ok P : process_reachable P -> process_ok P.
Proof. induction 1 as [fd Hfd|P P' _ IH Hs]; [apply started_ok|by eapply process_step_ok]. Qed.
