(* ===== verification/DsoftbusLanes.v ===== *)
(** * What the threads of the DSoftBus transport achieve

    Over [DsoftbusThreads]: frames reach the node they were sent for, in order and at most
    once per call of [send]; every call of the transport returns, [on_shutdown] and [stop]
    with the joins inside them; a call that no other disturbs does what [TransportDsoftbus]
    says; and two schedules that go wrong. *)

From S2P Require Import Prelude StdMap Listener SendLane TransportDsoftbus DsoftbusThreads.

(** ** Every call returns *)

Definition laned (m : std_map (list Z) Entry) : Z := msum (fun e => match en_lane e with Some _ => 1 | None => 0 end) m.

(** The turns left to a call, to a lane's worker, and to all of a process: every turn
    takes at least one away.  A round of the poll notes fewer than [2 ^ 64] nodes. *)
Definition thread_cost (running : bool) (t : Thread) : Z :=
  match t with
  | Idle => 0
  | SendCall _ _ => 6 | Push _ _ _ => 5 | Commit _ => 4
  | OnBind _ _ _ => 5 | ReportUp _ => 1
  | OnShutdown _ => 4 | StopLane _ _ _ => 3 | JoinLane _ _ _ => 2 | ReportDown _ => 1
  | OnBytes _ _ => 2 | ReportBytes _ _ => 1
  | OnError _ => 1
  | Poll => if running then 2 ^ 65 + 5 else 1
  | PollNodes => 2 ^ 65 + 4
  | PollBind l => 2 * len l + 3
  | BindingAsync _ _ l => 2 * len l + 4
  | PollWait => 2
  | Stop => 4 | StopJoin => 3 | StopClear => 2
  | StopLanes l => 2 * len l + 1
  | JoinLanes _ l => 2 * len l + 2
  end.

Definition worker_cost (wk : Worker) : Z := match wk with Taking => 0 | Checking _ => 2 | Sending _ => 1 end.
Definition obj_cost (o : LaneObj) : Z :=
  3 * len (sl_queue (lo_lane o)) + worker_cost (lo_worker o) + (if sl_done (lo_lane o) then 0 else 1).

Definition cost (P : Process) : Z :=
  let k := pr_backend P in
  zsum (thread_cost (k_running k) <$> pr_threads P) + zsum (obj_cost <$> k_objs k) + 2 * laned (k_peers k).

Lemma thread_cost_nonneg r t : 0 <= thread_cost r t.
Proof. destruct t, r; simpl; lia. Qed.
Lemma obj_cost_nonneg o : 0 <= obj_cost o.
Proof. unfold obj_cost, worker_cost. destruct (lo_worker o), (sl_done _); lia. Qed.
Lemma zsum_map_nonneg {A} (g : A -> Z) l : (forall a, 0 <= g a) -> 0 <= zsum (g <$> l).
Proof. intros Hg. apply zsum_nonneg, Forall_fmap, Forall_true. exact Hg. Qed.
Lemma cost_nonneg P : 0 <= cost P.
Proof.
  unfold cost, laned, msum. pose proof (zsum_map_nonneg _ (pr_threads P) (thread_cost_nonneg (k_running (pr_backend P)))).
  pose proof (zsum_map_nonneg _ (k_objs (pr_backend P)) obj_cost_nonneg).
  pose proof (zsum_map_nonneg (fun kv : list Z * Entry => match en_lane kv.2 with Some _ => 1 | None => 0 end)
    (k_peers (pr_backend P)) ltac:(intros kv; simpl; destruct (en_lane kv.2); lia)). simpl in *. lia.
Qed.

(** Stopping shortens what a poll has left. *)
Lemma costs_running r r' ts :
  (r = false -> r' = false) -> zsum (thread_cost r' <$> ts) <= zsum (thread_cost r <$> ts).
Proof.
  intros Hr. induction ts as [|t ts IH]; [done|]. rewrite !fmap_cons. cbn [zsum].
  assert (thread_cost r' t <= thread_cost r t); [|lia].
  destruct r, r'; try lia. destruct t; simpl; lia.
Qed.

(** The same for the other threads than one. *)
Lemma costs_running_but r r' j ts t :
  (r = false -> r' = false) -> ts !! j = Some t ->
  zsum (thread_cost r' <$> ts) - thread_cost r' t <= zsum (thread_cost r <$> ts) - thread_cost r t.
Proof.
  intros Hr Hj. pose proof (costs_running r r' (<[j := Idle]> ts) Hr) as Hc. rewrite !(zsum_insert _ _ _ t) in Hc by done. simpl in Hc. lia.
Qed.

Lemma laned_set nid e m : map_ok m ->
  laned (map_set nid e m) = laned m - from_option (fun e => match en_lane e with Some _ => 1 | None => 0 end) 0 (map_find nid m)
    + match en_lane e with Some _ => 1 | None => 0 end.
Proof. apply msum_set. Qed.

Lemma laned_pending nid e fd m : map_ok m -> map_find nid m = Some e -> laned (map_set nid (set_pending_of fd e) m) = laned m.
Proof. intros Hm Hf. rewrite laned_set, Hf by done. simpl. lia. Qed.

Lemma laned_shut fd m : laned ((fun kv => (kv.1, shut_entry fd kv.2)) <$> m) <= laned m.
Proof.
  unfold laned. induction m as [|kv m IH]; [done|]. rewrite fmap_cons, !msum_cons. cbn [snd].
  unfold shut_entry at 1. destruct (_ =? _); simpl; [|destruct (_ =? _); simpl; lia]. destruct (en_lane kv.2); lia.
Qed.

Lemma laned_lanes m : laned m = len (lanes_of m).
Proof.
  unfold laned, lanes_of. induction m as [|kv m IH]; [done|]. rewrite msum_cons, IH.
  change (omap _ (kv :: m)) with (from_option (fun i => i :: lanes_of m) (lanes_of m) (en_lane kv.2)). unfold lanes_of.
  destruct (en_lane kv.2); cbn [from_option length]; lia.
Qed.

(** Noting nodes gives nobody a lane. *)
Lemma notes_cost nodes k l :
  table_ok (k_peers k) (k_next k) (k_led k) (lo_sink <$> k_objs k) -> k_next k + len nodes < 2 ^ 64 ->
  let r := foldl note_section (k, l) nodes in
  laned (k_peers (fst r)) = laned (k_peers k) /\ len (snd r) <= len l + len nodes.
Proof.
  revert k l. induction nodes as [|nid nodes IH]; intros k l Ht Hlt; [simpl; lia|]. cbn [foldl length] in *.
  unfold note_section at 2 4. cbn [fst snd]. destruct (map_find nid (k_peers k)) as [e|] eqn:E.
  { destruct (_ && _); [destruct (IH k (l ++ [nid]) Ht ltac:(lia)) as [-> Hl]|destruct (IH k l Ht ltac:(lia)) as [-> Hl]];
      (split; [done|]); rewrite ?length_app in Hl; simpl in Hl; lia. }
  pose proof (to_next _ _ _ _ Ht) as Hn. pose proof (table_ok_fresh _ _ _ _ nid Ht E ltac:(lia)) as Hf.
  set (k1 := set_table k (map_set nid (fresh_entry (k_next k)) (k_peers k)) (u64 (k_next k + 1))).
  destruct (IH k1 (l ++ [nid]) Hf) as [-> Hl]; [simpl; rewrite wrap_id by ulia; lia|]. split.
  - simpl. rewrite laned_set, E by apply Ht. simpl. lia.
  - rewrite length_app in Hl. simpl in Hl. lia.
Qed.

(** Turns at a lane cost what they queue. *)
Lemma objs_cost i o o' os : os !! i = Some o -> zsum (obj_cost <$> <[i := o']> os) = zsum (obj_cost <$> os) - obj_cost o + obj_cost o'.
Proof. apply zsum_insert. Qed.

Lemma latch_cost i k k' : latch i k = Some k' ->
  k_running k' = k_running k /\ k_peers k' = k_peers k /\ zsum (obj_cost <$> k_objs k') = zsum (obj_cost <$> k_objs k).
Proof.
  unfold latch. destruct (k_objs k !! i) as [o|] eqn:Hi; [|done]. simpl. destruct (lane_free _); [|done]. intros [= <-].
  simpl. split_and!; [done|done|]. rewrite (objs_cost i o) by done. unfold obj_cost. simpl. lia.
Qed.

Lemma joined_some i k u : joined i k = Some u -> u = tt.
Proof. by destruct u. Qed.

Lemma new_obj_cost k s : zsum (obj_cost <$> (k_objs k ++ [new_obj s])) = zsum (obj_cost <$> k_objs k) + 1.
Proof. rewrite fmap_app, zsum_app. done. Qed.

Lemma bind_cost fd nid option k :
  map_ok (k_peers k) -> (forall e, map_find nid (k_peers k) = Some e -> en_socket_fd e < 0 -> en_lane e = None) ->
  let r := on_bind_section fd nid option k in
  k_running (fst r) = k_running k /\
  thread_cost (k_running k) (snd r) + zsum (obj_cost <$> k_objs (fst r)) + 2 * laned (k_peers (fst r)) <
    5 + zsum (obj_cost <$> k_objs k) + 2 * laned (k_peers k).
Proof.
  intros Hm Hno. cbv zeta. unfold on_bind_section. case_bool_decide; [cbn [fst snd thread_cost]; split; [done|lia]|]. cbv zeta.
  destruct (map_find nid (k_peers k)) as [e|] eqn:E; cbn [from_option id].
  - destruct (Z.ltb_spec (en_socket_fd e) 0) as [Hneg|Hpos]; cbn [fst snd].
    + split; [done|]. cbn [k_objs k_peers set_lanes set_table]. rewrite new_obj_cost, laned_set, E by done. simpl.
      rewrite (Hno e eq_refl Hneg). lia.
    + split; [done|]. cbn [k_objs k_peers set_table]. rewrite laned_pending by done. simpl. lia.
  - cbn [en_socket_fd fresh_entry]. change (-1 <? 0) with true. cbv iota. cbn [fst snd]. split; [done|].
    cbn [k_objs k_peers set_lanes set_table]. rewrite new_obj_cost, laned_set, E by done. simpl. lia.
Qed.

Lemma notes_running nodes acc : k_running (fst (foldl note_section acc nodes)) = k_running (fst acc).
Proof.
  revert acc. induction nodes as [|nid nodes IH]; intros acc; [done|]. cbn [foldl]. rewrite IH. unfold note_section.
  destruct (map_find _ _); [|done]. by destruct (_ && _).
Qed.

Lemma act_running a pd t k k' t' : thread_act a pd t k = Some (k', t') -> k_running k = false -> k_running k' = false.
Proof.
  intros E Hr. destruct t; simpl in E; try (by injection E as <- <-); try done.
  - destruct (k_objs k !! i) as [o|]; [|done]. simpl in E. destruct (lane_free _); [|done]. destruct (push_check _ _ _). by injection E as <- _.
  - destruct (k_objs k !! i) as [o|]; [|done]. simpl in E. destruct (sl_pending _); [|done]. by injection E as <- _.
  - injection E as E. apply (f_equal fst) in E. simpl in E. rewrite <- E. unfold on_bind_section.
    case_bool_decide; [done|]. cbv zeta. by destruct (_ <? 0).
  - injection E as E. apply (f_equal fst) in E. simpl in E. rewrite <- E. unfold on_shutdown_section. by destruct (_ =? _).
  - destruct (latch i k) as [k1|] eqn:El; [|done]. injection E as <- _. by destruct (latch_cost _ _ _ El) as (-> & _).
  - destruct (joined i k); [|done]. by injection E as <- _.
  - injection E as <- _. unfold on_error_section. by destruct (find _ _).
  - pose proof (notes_running (a_nodes a) (k, [])) as Hn. destruct (foldl _ _ _) as [k1 l]. injection E as <- _. simpl in Hn. congruence.
  - destruct to_bind; [by injection E as <- _|]. destruct (_ <? 0); [by injection E as <- _|]. destruct (map_find _ _); by injection E as <- _.
  - destruct (a_ok a); [by injection E as <- _|]. destruct (map_find _ _); [destruct (_ =? _)|]; by injection E as <- _.
  - rewrite Hr in E. by injection E as <- _.
  - rewrite Hr in E. by injection E as <- _.
  - destruct pd; [|done]. by injection E as <- _.
  - destruct lanes as [|i lanes]; [by injection E as <- _|]. destruct (latch i k) as [k1|] eqn:El; [|done]. injection E as <- _.
    by destruct (latch_cost _ _ _ El) as (-> & _).
  - destruct (joined i k); [|done]. by injection E as <- _.
Qed.

(** Every turn of a call takes at least one away. *)
Lemma act_decreases a pd t k k' t' :
  table_ok (k_peers k) (k_next k) (k_led k) (lo_sink <$> k_objs k) -> k_next k + len (a_nodes a) + 1 < 2 ^ 64 ->
  thread_act a pd t k = Some (k', t') ->
  thread_cost (k_running k') t' + zsum (obj_cost <$> k_objs k') + 2 * laned (k_peers k') <
    thread_cost (k_running k) t + zsum (obj_cost <$> k_objs k) + 2 * laned (k_peers k).
Proof.
  intros Ht Hnext E. pose proof (to_map _ _ _ _ Ht) as Hm. destruct t; simpl in E; try done.
  - injection E as <- <-. simpl. destruct (look_up_lane k peer); simpl; lia.
  - destruct (k_objs k !! i) as [o|] eqn:Hi; [|done]. simpl in E. destruct (lane_free _); [|done].
    destruct (push_check _ _ _) as [l' ok] eqn:Ep. injection E as <- <-. simpl. rewrite (objs_cost i o) by done.
    assert (Eo : obj_cost (with_lane l' o) = obj_cost o).
    { unfold push_check in Ep. by destruct (push_refused _ _ _); injection Ep as <- _. }
    rewrite Eo. destruct ok; simpl; lia.
  - destruct (k_objs k !! i) as [o|] eqn:Hi; [|done]. simpl in E. destruct (sl_pending _); [|done].
    injection E as <- <-. simpl. rewrite (objs_cost i o) by done. unfold obj_cost. simpl. rewrite length_app. simpl. lia.
  - injection E as E. destruct (bind_cost fd nid option k Hm) as [Hr Hc].
    { intros e He Hneg. by eapply no_lane. }
    rewrite E in Hr, Hc. simpl in Hr, Hc. rewrite Hr. simpl. lia.
  - injection E as <- <-. simpl. lia.
  - injection E as E. apply (f_equal id) in E. unfold on_shutdown_section in E. destruct (_ =? _).
    { injection E as <- <-. simpl. lia. }
    injection E as <- <-. cbn [k_running k_objs k_peers set_table]. pose proof (laned_shut fd (k_peers k)).
    destruct (down_lane _ _); simpl; [lia|]. unfold report_down. destruct (_ =? _); simpl; lia.
  - destruct (latch i k) as [k1|] eqn:El; [|done]. injection E as <- <-. destruct (latch_cost _ _ _ El) as (-> & -> & ->). simpl. lia.
  - destruct (joined i k); [|done]. injection E as <- <-. unfold report_down. destruct (_ =? _); simpl; lia.
  - injection E as <- <-. simpl. lia.
  - injection E as <- <-. unfold on_bytes_section. destruct (find _ _); [destruct (_ =? _)|]; simpl; lia.
  - injection E as <- <-. simpl. lia.
  - injection E as <- <-. unfold on_error_section. destruct (find _ _) as [[nid e]|] eqn:Ef; [|simpl; lia].
    apply find_some in Ef as [Hin%list_elem_of_In _]. apply (map_In_find _ _ _ Hm) in Hin. simpl. rewrite laned_pending by done. lia.
  - injection E as <- <-. destruct (k_running k); simpl; lia.
  - destruct (notes_cost (a_nodes a) k [] Ht ltac:(lia)) as [Hl Hlen]. destruct (notes_fold (a_nodes a) k [] Ht ltac:(lia)) as [[Ho _ _ _ _ _] _ _ _].
    destruct (foldl _ _ _) as [k1 l]. injection E as <- <-. simpl in *. rewrite Ho, Hl. pose proof (to_next _ _ _ _ Ht). lia.
  - destruct to_bind as [|nid to_bind]; [injection E as <- <-; simpl; lia|].
    destruct (_ <? 0); [injection E as <- <-; simpl; lia|].
    destruct (map_find nid (k_peers k)) as [e|] eqn:He; injection E as <- <-; simpl; rewrite ?laned_pending by done; lia.
  - destruct (a_ok a); [injection E as <- <-; simpl; lia|].
    destruct (map_find nid (k_peers k)) as [e|] eqn:He; [destruct (_ =? _)|]; injection E as <- <-; simpl; rewrite ?laned_pending by done; lia.
  - destruct (k_running k) eqn:Er; [done|]. injection E as <- <-. simpl. rewrite Er. lia.
  - destruct (k_running k); injection E as <- <-; simpl; lia.
  - destruct pd; [|done]. injection E as <- <-. simpl. lia.
  - injection E as <- <-. simpl. rewrite (laned_lanes (k_peers k)). change (laned []) with 0. lia.
  - destruct lanes as [|i lanes]; [injection E as <- <-; simpl; lia|].
    destruct (latch i k) as [k1|] eqn:El; [|done]. injection E as <- <-. destruct (latch_cost _ _ _ El) as (-> & -> & ->). simpl. lia.
  - destruct (joined i k); [|done]. injection E as <- <-. simpl. lia.
Qed.

Lemma turn_decreases a j P P' : process_ok P -> has_room a (pr_backend P) -> turn a j P = Some P' -> cost P' < cost P.
Proof.
  destruct P as [k ts]. intros Hok [Hnext _]. unfold turn. cbn [pr_backend pr_threads] in *.
  destruct (ts !! j) as [t|] eqn:Hj; [|done]. simpl.
  destruct (thread_act a (poll_done ts) t k) as [[k' t']|] eqn:E; [|done]. simpl. intros [= <-].
  pose proof (act_decreases _ _ _ _ _ _ (po_table _ Hok) Hnext E) as Hlt. pose proof (act_running _ _ _ _ _ _ E) as Hr.
  unfold cost. cbn [pr_backend pr_threads]. rewrite (zsum_insert _ _ _ t) by done. simpl in Hlt.
  pose proof (costs_running_but _ _ j ts t Hr Hj). lia.
Qed.

Lemma take_cost l b l' b' : worker_take l b = Some (l', b') -> sl_inflight l = None -> sl_done l = false ->
  3 * len (sl_queue l') + worker_cost (from_option Checking Taking (sl_inflight l')) + (if sl_done l' then 0 else 1) <
  3 * len (sl_queue l) + 1.
Proof.
  unfold worker_take. intros E Hf Hd. destruct (sl_queue l) as [|f q] eqn:Eq.
  - destruct (sl_stopping l); [|done]. injection E as <- _. simpl. rewrite Eq, Hf. simpl. lia.
  - destruct (_ && _); [destruct (release_all _ _ _)|destruct (release _ _ _)]; injection E as <- _; simpl.
    + rewrite Hf. simpl. lia.
    + rewrite Hd. simpl. lia.
Qed.

Lemma work_decreases a i P P' : process_ok P -> work a i P = Some P' -> cost P' < cost P.
Proof.
  destruct P as [k ts]. intros Hok. unfold work, worker_act. cbn [pr_backend pr_threads].
  destruct (k_objs k !! i) as [o|] eqn:Hi; [|done]. simpl. pose proof (oo_worker _ (obj_ok_at _ _ _ _ Hok Hi)) as Hw.
  assert (Hlt : forall o' b', obj_cost o' < obj_cost o -> cost (mkProcess (set_obj i o' b' k) ts) < cost (mkProcess k ts)).
  { intros o' b' Hc. unfold cost. simpl. rewrite (objs_cost i o) by done. lia. }
  destruct (lo_worker o) as [|f|f] eqn:Ew.
  - destruct (sl_done (lo_lane o)) eqn:Ed; [done|]. destruct (lane_free (lo_lane o)); [|done]. simpl.
    destruct (worker_take _ _) as [[l' b']|] eqn:Et; [|done]. simpl. intros [= <-]. apply Hlt.
    pose proof (take_cost _ _ _ _ Et Hw Ed). unfold obj_cost at 2. rewrite Ew, Ed. unfold obj_cost. simpl in *. lia.
  - simpl. intros [= <-]. apply Hlt. unfold obj_cost. rewrite Ew. destruct (channel_live _ _); simpl; lia.
  - simpl. intros [= <-]. apply Hlt. unfold obj_cost. rewrite Ew. simpl. lia.
Qed.

Lemma moves_decreases P P' : process_ok P -> moves P P' -> cost P' < cost P.
Proof. intros Hok [a j Hr E|a i Hr E]; [by eapply turn_decreases|by eapply work_decreases]. Qed.

Lemma bus_moves_acc P : process_ok P -> Acc (fun P' P => moves P P') P.
Proof.
  intros Hok. remember (Z.to_nat (cost P)) as n eqn:En. revert P Hok En.
  induction (lt_wf n) as [n _ IH]. intros P Hok ->. constructor. intros P' Hm.
  pose proof (moves_decreases P P' Hok Hm). pose proof (cost_nonneg P').
  apply (IH (Z.to_nat (cost P'))); [lia|by eapply moves_ok|done].
Qed.

(** *** Somebody can always move *)

(** A thread with nothing to do: it has returned, or it is the poll thread between two
    polls of a transport that runs.  A lane at rest has nothing queued, and has ended if
    it was told to. *)
Definition waits (running : bool) (t : Thread) : bool := match t with Idle => true | PollWait => running | _ => false end.
Definition lane_rests (o : LaneObj) : bool :=
  match lo_worker o with Taking => true | _ => false end && match sl_queue (lo_lane o) with [] => true | _ => false end &&
  lane_free (lo_lane o) && (negb (sl_stopping (lo_lane o)) || sl_done (lo_lane o)).
Definition quiet (P : Process) : Prop :=
  Forall (fun t => waits (k_running (pr_backend P)) t = true) (pr_threads P) /\
  Forall (fun o => lane_rests o = true) (k_objs (pr_backend P)).

Definition plain_answer : Answer := mkAnswer true [] (-1).

Lemma zsum_positive {A} (g : A -> Z) l : (forall a, 0 <= g a) -> 0 < zsum (g <$> l) -> exists j a, l !! j = Some a /\ 0 < g a.
Proof.
  intros Hg. induction l as [|a l IH]; [done|]. rewrite fmap_cons. cbn [zsum]. intros Hp.
  destruct (decide (0 < g a)); [by exists 0%nat, a|]. destruct IH as (j & b & Hj & Hb); [specialize (Hg a); lia|].
  by exists (S j), b.
Qed.

Lemma zsum_at_least {A} (g : A -> Z) l j a : (forall a, 0 <= g a) -> l !! j = Some a -> g a <= zsum (g <$> l).
Proof.
  intros Hg. revert j. induction l as [|b l IH]; intros [|j]; try done; rewrite fmap_cons; cbn [zsum].
  - intros [= ->]. pose proof (zsum_map_nonneg g l Hg). lia.
  - intros Hj. specialize (IH j Hj). specialize (Hg b). lia.
Qed.

Lemma commits_nonneg i t : 0 <= commits i t.
Proof. destruct t; simpl; try lia. destruct (decide _); lia. Qed.

Lemma take_some l b : sl_queue l <> [] \/ sl_stopping l = true -> is_Some (worker_take l b).
Proof.
  unfold worker_take. destruct (sl_queue l) as [|f q]; intros [?|Es]; try done; [by rewrite Es|..];
    (destruct (_ && _); [by destruct (release_all _ _ _)|by destruct (release _ _ _)]).
Qed.

Section progress.
Context (k : Backend) (ts : list Thread) (Hok : process_ok (mkProcess k ts)).
Abbreviation can_turn j := (exists P', turn plain_answer j (mkProcess k ts) = Some P').
Abbreviation can_move := ((exists j, can_turn j) \/ exists i P', work plain_answer i (mkProcess k ts) = Some P').

Lemma can_turn_act j t : ts !! j = Some t -> thread_act plain_answer (poll_done ts) t k <> None -> can_move.
Proof.
  intros Hj E. left. exists j. unfold turn. cbn [pr_backend pr_threads]. rewrite Hj. simpl.
  destruct (thread_act _ _ _ _) as [[k' t']|]; [by eexists|done].
Qed.

(** The push that holds a lane's mutex can go on. *)
Lemma held_moves i o : k_objs k !! i = Some o -> lane_free (lo_lane o) = false -> can_move.
Proof.
  intros Hi Hf. pose proof (po_commits _ Hok i) as Hc. simpl in Hc. unfold held in Hc. rewrite Hi in Hc. simpl in Hc.
  unfold lane_free in Hf. destruct (sl_pending (lo_lane o)) as [f|] eqn:Ef; [|done]. simpl in Hc.
  destruct (zsum_positive (commits i) ts (commits_nonneg i) ltac:(lia)) as (j & t & Hj & Ht).
  destruct t; simpl in Ht; try lia. destruct (decide (i0 = i)) as [->|]; [|lia].
  eapply (can_turn_act j); [exact Hj|]. simpl. rewrite Hi. simpl. by rewrite Ef.
Qed.

(** A worker that does not wait can go on. *)
Lemma worker_moves i o : k_objs k !! i = Some o -> lane_rests o = false -> can_move.
Proof.
  intros Hi Hr. destruct (lane_free (lo_lane o)) eqn:Hf; [|by eapply held_moves]. right. exists i.
  unfold work, worker_act, lane_rests in *. cbn [pr_backend]. rewrite Hi. simpl. destruct (lo_worker o) as [|f|f]; [|by eexists..].
  destruct (po_lanes _ Hok) as [(_ & Hall & _) _]. simpl in Hall.
  assert (Hl : (lo_lane <$> k_objs k) !! i = Some (lo_lane o)) by (by rewrite list_lookup_fmap, Hi).
  pose proof (Forall_lookup_1 _ _ _ _ Hall Hl) as Hlane. rewrite Hf in *. simpl in *.
  destruct (sl_done (lo_lane o)) eqn:Ed.
  { destruct (lo_done _ _ Hlane Ed) as (Es & Eq & _). by rewrite Eq, Es in Hr. }
  simpl. destruct (take_some (lo_lane o) (k_budget k)) as [[l' b'] E]; [|rewrite E; by eexists].
  destruct (sl_queue (lo_lane o)); [right|by left]. by destruct (sl_stopping (lo_lane o)).
Qed.

Lemma latch_moves j t i : ts !! j = Some t -> (i < length (k_objs k))%nat ->
  (forall k', latch i k = Some k' -> thread_act plain_answer (poll_done ts) t k <> None) -> can_move.
Proof.
  intros Hj [o Hi]%lookup_lt_is_Some Ht. unfold latch in Ht. rewrite Hi in Ht. simpl in Ht.
  destruct (lane_free (lo_lane o)) eqn:Hf; [|by eapply held_moves]. apply (can_turn_act j t Hj), (Ht _ eq_refl).
Qed.

Lemma join_moves j t i : ts !! j = Some t -> stopping k i ->
  (joined i k = Some tt -> thread_act plain_answer (poll_done ts) t k <> None) -> can_move.
Proof.
  intros Hj (o & Hi & Hs) Ht. unfold joined in Ht. rewrite Hi in Ht. simpl in Ht. destruct (sl_done (lo_lane o)) eqn:Ed.
  - apply (can_turn_act j t Hj), (Ht eq_refl).
  - apply (worker_moves i o Hi). unfold lane_rests. rewrite Hs, Ed. apply andb_false_r.
Qed.

(** Any thread that has something to do can go on, or another one can. *)
Lemma thread_moves j t : ts !! j = Some t -> waits (k_running k) t = false -> can_move.
Proof.
  intros Hj Hw. pose proof (Forall_lookup_1 _ _ _ _ (po_threads _ Hok) Hj) as Hth. simpl in Hth.
  destruct t; try done; try (eapply (can_turn_act j); [exact Hj|]; simpl; done).
  - destruct Hth as (_ & s & Hs & _). rewrite list_lookup_fmap in Hs. destruct (k_objs k !! i) as [o|] eqn:Hi; [|done].
    destruct (lane_free (lo_lane o)) eqn:Hf; [|by eapply held_moves].
    eapply (can_turn_act j); [exact Hj|]. simpl. rewrite Hi. simpl. rewrite Hf. by destruct (push_check _ _ _).
  - apply lookup_lt_is_Some in Hth as [o Hi]. pose proof (po_commits _ Hok i) as Hc. simpl in Hc. unfold held in Hc. rewrite Hi in Hc.
    pose proof (zsum_at_least (commits i) ts j _ (commits_nonneg i) Hj) as Hge. simpl in Hge. rewrite decide_True in Hge by done.
    simpl in Hc. destruct (sl_pending (lo_lane o)) as [f|] eqn:Ef; [|simpl in Hc; lia].
    eapply (can_turn_act j); [exact Hj|]. simpl. rewrite Hi. simpl. by rewrite Ef.
  - apply (latch_moves j _ i Hj (proj1 Hth)). intros k' E. simpl. by rewrite E.
  - apply (join_moves j _ i Hj Hth). intros E. simpl. by rewrite E.
  - destruct to_bind; eapply (can_turn_act j); try exact Hj; done.
  - simpl in Hw. eapply (can_turn_act j); [exact Hj|]. simpl. by rewrite Hw.
  - destruct (poll_done ts) eqn:Ep; [eapply (can_turn_act j); [exact Hj|]; simpl; by rewrite Ep|].
    destruct ts as [|t0 ts'] eqn:Ets; [done|]. rewrite <- Ets in *.
    assert (H0 : ts !! 0%nat = Some t0) by (by rewrite Ets).
    destruct (po_first _ Hok t0 H0) as [Hp| ->]; [|by rewrite Ets in Ep].
    destruct t0; try done; try (eapply (can_turn_act 0); [exact H0|]; simpl; done).
    + destruct to_bind; eapply (can_turn_act 0); try exact H0; done.
    + eapply (can_turn_act 0); [exact H0|]. simpl. by rewrite Hth.
  - destruct Hth as [_ Hall]. destruct lanes as [|i lanes]; [eapply (can_turn_act j); [exact Hj|]; done|].
    apply Forall_cons in Hall as [[Hlt _] _]. apply (latch_moves j _ i Hj Hlt). intros k' E. simpl. by rewrite E.
  - destruct Hth as (_ & _ & Hst). apply (join_moves j _ i Hj Hst). intros E. simpl. by rewrite E.
Qed.

Lemma quiet_or_moves : has_room plain_answer k -> quiet (mkProcess k ts) \/ exists P', moves (mkProcess k ts) P'.
Proof.
  intros Hroom. assert (Hm : can_move -> exists P', moves (mkProcess k ts) P').
  { intros [(j & P' & E)|(i & P' & E)]; exists P'; [by eapply moves_thread|by eapply moves_worker]. }
  destruct (decide (Forall (fun t => waits (k_running k) t = true) ts)) as [Hts|Hts].
  - destruct (decide (Forall (fun o => lane_rests o = true) (k_objs k))) as [Hos|Hos]; [by left|right; apply Hm].
    apply not_Forall_Exists in Hos; [|apply _]. apply Exists_exists in Hos as (o & Hin & Hno).
    apply list_elem_of_lookup in Hin as [i Hi]. apply (worker_moves i o Hi). by apply not_true_is_false.
  - right. apply Hm. apply not_Forall_Exists in Hts; [|apply _]. apply Exists_exists in Hts as (t & Hin & Hno).
    apply list_elem_of_lookup in Hin as [j Hj]. apply (thread_moves j t Hj). by apply not_true_is_false.
Qed.
End progress.

(** Once nobody has anything to do, every byte is back in the budget, and every frame a
    lane accepted was handed on or discarded. *)
Lemma quiet_budget P : process_ok P -> quiet P ->
  used (k_budget (pr_backend P)) = 0 /\
  Forall (fun o => sl_accepted (lo_lane o) = sl_delivered (lo_lane o) ++ sl_discarded (lo_lane o)) (k_objs (pr_backend P)).
Proof.
  intros Hok [_ Hos]. destruct (po_lanes _ Hok) as [(_ & Hall & _ & Hu & _) Hobj]. simpl in *. rewrite Hu. clear Hu Hok.
  assert (Hrest : forall o, lane_rests o = true -> lo_worker o = Taking /\ sl_queue (lo_lane o) = []).
  { intros o. unfold lane_rests. destruct (lo_worker o), (sl_queue (lo_lane o)); done. }
  induction (k_objs (pr_backend P)) as [|o os IH]; [done|]. rewrite !fmap_cons. rewrite fmap_cons in Hall. cbn [zsum].
  apply Forall_cons in Hos as [Ho Hos]. apply Forall_cons in Hall as [Hl Hall]. apply Forall_cons in Hobj as [Hb Hobj].
  destruct (Hrest o Ho) as [Ew Eq]. destruct (IH Hos Hall Hobj) as [IHu IHa]. split.
  - rewrite (lo_bytes _ _ Hl), Eq, IHu. done.
  - constructor; [|done]. pose proof (oo_worker _ Hb) as Hw. rewrite Ew in Hw. by rewrite (lo_order _ _ Hl), Hw, Eq.
Qed.

(** ** The calls of [TransportDsoftbus] *)

(** A schedule, run. *)
Inductive Act := Turn (a : Answer) (j : nat) | Work (a : Answer) (i : nat).
Definition exec1 (act : Act) (P : Process) : option Process :=
  match act with Turn a j => turn a j P | Work a i => work a i P end.
Fixpoint exec (acts : list Act) (P : Process) : option Process :=
  match acts with [] => Some P | act :: acts => P' ← exec1 act P; exec acts P' end.

(** The transport as [TransportDsoftbus] keeps it: every entry with its lane in it. *)
Definition lane_at (os : list LaneObj) (i : nat) : option SendLane := lo_lane <$> os !! i.
Definition erase_entry (os : list LaneObj) (e : Entry) : PeerState :=
  mkPeer (en_peer_id e) (en_socket_fd e) (en_pending_fd e) (en_up e) (en_lane e ≫= lane_at os) (en_limit e).
Definition erase_peers (os : list LaneObj) (m : std_map (list Z) Entry) : std_map (list Z) PeerState :=
  (fun kv => (kv.1, erase_entry os kv.2)) <$> m.
Definition erase (k : Backend) : DsoftbusTransport :=
  mkBus (k_running k) (k_listen_fd k) (erase_peers (k_objs k) (k_peers k)) (k_next k) (k_budget k) (k_instance k).

(** What a call does there: the transport and the events after it. *)
Definition atomic_call (t : Thread) (b : DsoftbusTransport) : option (DsoftbusTransport * list ListenerEvent) :=
  match t with
  | SendCall peer f => Some (fst (bus_send b peer f), [])
  | OnBind fd nid option => let '(b', _, evs) := on_bind b fd nid option in Some (b', evs)
  | OnShutdown fd => Some (on_shutdown b fd)
  | OnBytes fd data => Some (b, on_bytes_received b fd data)
  | OnError fd => Some (fst (on_error b fd), [])
  | _ => None
  end.

(** Thread [j] runs to its end by itself, with the workers it waits for. *)
Definition runs_alone (ts : list Thread) (j : nat) (k : Backend) (t : Thread) (k' : Backend) : Prop :=
  exists acts, exec acts (mkProcess k (<[j := t]> ts)) = Some (mkProcess k' (<[j := Idle]> ts)).

Section alone.
Context (ts : list Thread) (j : nat) (Hj : (j < length ts)%nat).

Lemma bus_alone_idle k : runs_alone ts j k Idle k.
Proof. by exists []. Qed.

Lemma bus_alone_turn k t k1 t1 k' :
  (forall pd, thread_act plain_answer pd t k = Some (k1, t1)) -> runs_alone ts j k1 t1 k' -> runs_alone ts j k t k'.
Proof.
  intros E [acts H]. exists (Turn plain_answer j :: acts). simpl. unfold turn. cbn [pr_backend pr_threads].
  rewrite list_lookup_insert_eq by done. simpl. rewrite E. simpl. by rewrite list_insert_insert_eq.
Qed.

Lemma bus_alone_work k t i k1 k' :
  worker_act plain_answer i k = Some k1 -> runs_alone ts j k1 t k' -> runs_alone ts j k t k'.
Proof. intros E [acts H]. exists (Work plain_answer i :: acts). simpl. unfold work. cbn [pr_backend pr_threads]. by rewrite E. Qed.
End alone.

(** *** Erasing and the operations of maps *)

Section value_map.
Context {V W : Type} (g : V -> W).
Abbreviation vmap m := ((fun kv : list Z * V => (kv.1, g kv.2)) <$> m).

Lemma find_vmap nid (m : std_map (list Z) V) : map_find nid (vmap m) = g <$> map_find nid m.
Proof. induction m as [|[q v] m IH]; simpl; [done|]. by destruct (decide (nid = q)). Qed.

Lemma set_vmap nid v (m : std_map (list Z) V) : vmap (map_set nid v m) = map_set nid (g v) (vmap m).
Proof. induction m as [|[q w] m IH]; simpl; [done|]. destruct (decide (nid = q)); [done|]. destruct (key_lt nid q); [done|]. simpl. by f_equal. Qed.

Lemma list_find_vmap (p : list Z * W -> bool) (m : std_map (list Z) V) :
  find p (vmap m) = (fun kv => (kv.1, g kv.2)) <$> find (fun kv => p (kv.1, g kv.2)) m.
Proof. induction m as [|[q v] m IH]; simpl; [done|]. by destruct (p _). Qed.

Lemma foldl_vmap {A} (f : A -> list Z * W -> A) (m : std_map (list Z) V) acc :
  foldl f acc (vmap m) = foldl (fun x kv => f x (kv.1, g kv.2)) acc m.
Proof. induction m as [|[q v] m IH] in acc |- *; simpl; [done|]. apply IH. Qed.
End value_map.

(** An entry that is there is replaced in place. *)
Lemma set_in_place {V} nid (v w : V) (m : std_map (list Z) V) :
  map_ok m -> map_find nid m = Some v -> map_set nid w m = (fun kv => if decide (kv.1 = nid) then (kv.1, w) else kv) <$> m.
Proof.
  intros Hm. induction Hm as [|[q x] m Hs IH Hall]; [done|]. simpl. intros Hf. rewrite Forall_forall in Hall.
  destruct (decide (nid = q)) as [->|Hne].
  - rewrite decide_True by done. f_equal. rewrite <- (list_fmap_id m) at 1. apply list_fmap_ext. intros i [q' x'] Hi. simpl.
    apply list_elem_of_lookup_2 in Hi. specialize (Hall _ Hi). unfold entry_lt in Hall. simpl in Hall. rewrite decide_False; [done|].
    intros ->. by rewrite key_lt_irrefl in Hall.
  - rewrite decide_False by done. destruct (key_lt nid q) eqn:E; [|by rewrite IH].
    apply map_find_In, Hall in Hf. unfold entry_lt in Hf. simpl in Hf. pose proof (key_lt_trans _ _ _ E Hf) as Hc. by rewrite key_lt_irrefl in Hc.
Qed.

Lemma erase_peers_ext os os' m :
  (forall kv i, kv ∈ m -> en_lane kv.2 = Some i -> lane_at os' i = lane_at os i) -> erase_peers os' m = erase_peers os m.
Proof.
  intros Hext. apply list_fmap_ext. intros n kv Hkv. apply list_elem_of_lookup_2 in Hkv. f_equal. unfold erase_entry. f_equal.
  destruct (en_lane kv.2) as [i|] eqn:E; [|done]. simpl. by apply (Hext kv i).
Qed.

(** A lane changes: the entry it belongs to changes with it. *)
Lemma erase_set_lane os m next led nid e i o o' :
  table_ok m next led (lo_sink <$> os) -> map_find nid m = Some e -> en_lane e = Some i -> os !! i = Some o ->
  erase_peers (<[i := o']> os) m =
  map_set nid (mkPeer (en_peer_id e) (en_socket_fd e) (en_pending_fd e) (en_up e) (Some (lo_lane o')) (en_limit e)) (erase_peers os m).
Proof.
  intros Ht Hf Hl Hi. pose proof (to_map _ _ _ _ Ht) as Hm.
  rewrite (set_in_place nid (erase_entry os e)).
  - unfold erase_peers. rewrite <- list_fmap_compose. apply list_fmap_ext. intros n [q x] Hkv. simpl.
    apply list_elem_of_lookup_2, map_In_find in Hkv; [|done]. destruct (decide (q = nid)) as [->|Hne].
    + assert (x = e) as -> by congruence. unfold erase_entry. rewrite Hl. simpl. unfold lane_at.
      by rewrite list_lookup_insert_eq by (by eapply lookup_lt_Some).
    + unfold erase_entry. f_equal. f_equal. destruct (en_lane x) as [i'|] eqn:Hlx; [|done]. simpl. unfold lane_at.
      rewrite list_lookup_insert_ne; [done|]. intros ->.
      pose proof (to_lane _ _ _ _ Ht _ _ _ Hf Hl) as H1. pose proof (to_lane _ _ _ _ Ht _ _ _ Hkv Hlx) as H2. congruence.
  - clear -Hm. induction Hm as [|kv m Hs IH Hall]; simpl; [constructor|]. constructor; [done|].
    apply Forall_fmap. eapply Forall_impl; [exact Hall|]. done.
  - unfold erase_peers. by rewrite find_vmap, Hf.
Qed.

(** The lanes of the table are there. *)
Lemma lane_there m next led os nid e i :
  table_ok m next led (lo_sink <$> os) -> map_find nid m = Some e -> en_lane e = Some i ->
  exists o, os !! i = Some o /\ lo_sink o = mkSink (en_peer_id e) (en_socket_fd e) nid.
Proof.
  intros Ht Hf Hl. pose proof (to_lane _ _ _ _ Ht _ _ _ Hf Hl) as Hs. rewrite list_lookup_fmap in Hs.
  destruct (os !! i) as [o|]; [|done]. injection Hs as Hs. by exists o.
Qed.

(** *** The five calls *)

(** The lanes of the table are between frames: no worker or push holds one. *)
Definition lanes_at_rest (k : Backend) : Prop :=
  forall i o, in_table k i -> k_objs k !! i = Some o -> lo_worker o = Taking /\ lane_free (lo_lane o) = true.

Section five_calls.
Context (k : Backend) (ts : list Thread) (j : nat) (Hok : process_ok (mkProcess k ts)) (Hj : (j < length ts)%nat).
Context (Hrest : lanes_at_rest k).
Abbreviation runs t k' := (runs_alone ts j k t k').

Lemma table_here : table_ok (k_peers k) (k_next k) (k_led k) (lo_sink <$> k_objs k).
Proof. exact (po_table _ Hok). Qed.

Lemma in_peers kv : kv ∈ k_peers k -> map_find kv.1 (k_peers k) = Some kv.2.
Proof. destruct kv as [q x]. apply (map_In_find _ _ _ (to_map _ _ _ _ table_here)). Qed.

(** A search of the table finds the same entry in the erased one. *)
Lemma find_erased (p : PeerState -> bool) (c : Entry -> bool) :
  (forall nid e, map_find nid (k_peers k) = Some e -> p (erase_entry (k_objs k) e) = c e) ->
  find (fun kv => p kv.2) (b_peers (erase k)) =
  (fun kv => (kv.1, erase_entry (k_objs k) kv.2)) <$> find (fun kv => c kv.2) (k_peers k).
Proof.
  intros Hpc. simpl. unfold erase_peers. rewrite list_find_vmap. f_equal. pose proof in_peers as Hin.
  assert (Hall : forall kv, kv ∈ k_peers k -> p (erase_entry (k_objs k) kv.2) = c kv.2).
  { intros kv Hkv. by apply (Hpc kv.1), Hin. }
  clear Hin Hpc. induction (k_peers k) as [|kv m IH]; [done|]. cbn [find snd].
  rewrite (Hall kv) by left. destruct (c kv.2); [done|]. apply IH. intros kv' Hkv'. apply Hall. by right.
Qed.

Lemma find_in_table (c : Entry -> bool) nid e :
  find (fun kv => c kv.2) (k_peers k) = Some (nid, e) -> map_find nid (k_peers k) = Some e /\ c e = true.
Proof. intros [Hin%list_elem_of_In Hc]%find_some. by apply in_peers in Hin. Qed.

Lemma lane_erased nid e : map_find nid (k_peers k) = Some e ->
  ps_lane (erase_entry (k_objs k) e) = None <-> en_lane e = None.
Proof.
  intros Hf. unfold erase_entry. simpl. destruct (en_lane e) as [i|] eqn:El; [|done]. simpl.
  destruct (lane_there _ _ _ _ _ _ _ table_here Hf El) as (o & Ho & _). unfold lane_at. by rewrite Ho.
Qed.

Lemma bus_alone_send peer f : exists k',
  runs (SendCall peer f) k' /\ erase k' = fst (bus_send (erase k) peer f) /\ k_calls k' = k_calls k.
Proof.
  unfold bus_send.
  rewrite (find_erased (fun st => (ps_peer_id st =? peer) && has_lane st)
    (fun e => (en_peer_id e =? peer) && bool_decide (en_lane e <> None))).
  2:{ intros nid e Hf. f_equal. unfold has_lane. pose proof (lane_erased nid e Hf) as Hl.
      destruct (ps_lane _), (en_lane e); try done; [by discriminate (proj2 Hl eq_refl)|by discriminate (proj1 Hl eq_refl)]. }
  destruct (find _ (k_peers k)) as [[nid e]|] eqn:Ef.
  - destruct (find_in_table (fun e => (en_peer_id e =? peer) && bool_decide (en_lane e <> None)) _ _ Ef)
      as [Hf [_ Hl%bool_decide_eq_true]%andb_true_iff].
    destruct (en_lane e) as [i|] eqn:El; [|done]. destruct (lane_there _ _ _ _ _ _ _ table_here Hf El) as (o & Ho & _).
    destruct (Hrest i o (ex_intro _ nid (ex_intro _ e (conj Hf El))) Ho) as [_ Hfree].
    assert (Elu : look_up_lane k peer = Some i) by (unfold look_up_lane; by rewrite Ef).
    assert (Her : forall o' b, lo_sink o' = lo_sink o -> erase (set_obj i o' b (log_send k peer f)) =
      mkBus (k_running k) (k_listen_fd k) (map_set nid (mkPeer (en_peer_id e) (en_socket_fd e) (en_pending_fd e) (en_up e)
        (Some (lo_lane o')) (en_limit e)) (erase_peers (k_objs k) (k_peers k))) (k_next k) b (k_instance k)).
    { intros o' b Es. unfold erase. simpl. by rewrite (erase_set_lane _ _ _ _ nid e i o o' table_here). }
    cbn [fmap option_fmap option_map fst snd erase_entry ps_lane]. rewrite El. cbn [mbind option_bind].
    unfold lane_at. rewrite Ho. cbn [fmap option_fmap option_map]. unfold push. cbn [erase b_budget].
    destruct (push_check (lo_lane o) (k_budget k) f) as [l' ok] eqn:Ep. destruct ok; [|].
    + destruct (push_commit l' (k_budget k) f) as [l'' b''] eqn:Ec.
      assert (Hp : sl_pending l' = Some f) by (unfold push_check in Ep; destruct (push_refused _ _ _); by injection Ep as <-).
      exists (set_obj i (with_lane l'' o) b'' (log_send k peer f)). split_and!; [|by rewrite Her|done].
      eapply (bus_alone_turn ts j Hj); [intros pd; simpl; by rewrite Elu|].
      eapply (bus_alone_turn ts j Hj); [intros pd; simpl; rewrite Ho; simpl; rewrite Hfree, Ep; done|].
      eapply (bus_alone_turn ts j Hj); [|apply bus_alone_idle]. intros pd. simpl.
      rewrite list_lookup_insert_eq by (by eapply lookup_lt_Some). simpl. rewrite Hp. simpl.
      unfold push_commit in Ec. injection Ec as <- <-. unfold set_obj. simpl. by rewrite list_insert_insert_eq.
    + exists (set_obj i (with_lane l' o) (k_budget k) (log_send k peer f)). split_and!; [|by rewrite Her|done].
      eapply (bus_alone_turn ts j Hj); [intros pd; simpl; by rewrite Elu|].
      eapply (bus_alone_turn ts j Hj); [|apply bus_alone_idle]. intros pd. simpl. rewrite Ho. simpl. by rewrite Hfree, Ep.
  - exists (log_send k peer f). split_and!; [|done|done].
    eapply (bus_alone_turn ts j Hj); [|apply bus_alone_idle]. intros pd. simpl. unfold look_up_lane. by rewrite Ef.
Qed.

Lemma bus_alone_bytes fd data : exists k',
  runs (OnBytes fd data) k' /\ erase k' = erase k /\ k_calls k' = k_calls k ++ on_bytes_received (erase k) fd data.
Proof.
  unfold on_bytes_received. rewrite (find_erased (fun st => ps_socket_fd st =? fd) (fun e => en_socket_fd e =? fd)) by done.
  assert (Hstop : forall t, on_bytes_section fd data k = t -> t = Idle -> runs (OnBytes fd data) k).
  { intros t E ->. eapply (bus_alone_turn ts j Hj); [|apply bus_alone_idle]. intros pd. simpl. by rewrite E. }
  unfold on_bytes_section in Hstop. destruct (find _ (k_peers k)) as [[nid e]|] eqn:Ef; cbn [fmap option_fmap option_map snd ps_peer_id erase_entry].
  - destruct (Z.eqb_spec (en_peer_id e) kInvalidPeer) as [E|Hne]; cbn [negb].
    + exists k. split_and!; [|done|by rewrite app_nil_r]. eapply (Hstop _ eq_refl). simpl. by rewrite (proj2 (Z.eqb_eq _ _) E).
    + exists (log_call k (on_bytes (en_peer_id e) data)). split_and!; [|done|done].
      apply (bus_alone_turn ts j Hj _ _ k (ReportBytes (en_peer_id e) data)).
      * intros pd. simpl. unfold on_bytes_section. rewrite Ef. simpl. by rewrite (proj2 (Z.eqb_neq _ _) Hne).
      * eapply (bus_alone_turn ts j Hj); [|apply bus_alone_idle]. done.
  - exists k. split_and!; [by eapply Hstop|done|by rewrite app_nil_r].
Qed.

Lemma erase_set_entry nid e : erase (set_entry nid e k) = set_bus_peers (map_set nid (erase_entry (k_objs k) e) (b_peers (erase k))) (erase k).
Proof. unfold erase, set_bus_peers. simpl. f_equal. apply (set_vmap (erase_entry (k_objs k))). Qed.

Lemma bus_alone_error fd : exists k',
  runs (OnError fd) k' /\ erase k' = fst (on_error (erase k) fd) /\ k_calls k' = k_calls k.
Proof.
  exists (on_error_section fd k). split_and!.
  - eapply (bus_alone_turn ts j Hj); [done|apply bus_alone_idle].
  - unfold on_error, on_error_section. rewrite (find_erased (fun st => ps_pending_fd st =? fd) (fun e => en_pending_fd e =? fd)) by done.
    destruct (find _ (k_peers k)) as [[nid e]|]; [|done]. simpl. by rewrite erase_set_entry.
  - unfold on_error_section. by destruct (find _ (k_peers k)).
Qed.

(** Entries keep their lanes when another one is made. *)
Lemma erase_append s m :
  (forall kv i, kv ∈ m -> en_lane kv.2 = Some i -> (i < length (k_objs k))%nat) ->
  erase_peers (k_objs k ++ [new_obj s]) m = erase_peers (k_objs k) m.
Proof. intros Hall. apply erase_peers_ext. intros kv i Hkv Hl. unfold lane_at. rewrite lookup_app_l; [done|]. by eapply Hall. Qed.

Lemma lane_valid kv i : kv ∈ k_peers k -> en_lane kv.2 = Some i -> (i < length (k_objs k))%nat.
Proof.
  intros Hkv%in_peers Hl. destruct (lane_there _ _ _ _ _ _ _ table_here Hkv Hl) as (o & Ho & _). by eapply lookup_lt_Some.
Qed.

Lemma bus_alone_bind fd nid option : exists k' b' shut evs,
  runs (OnBind fd nid option) k' /\ on_bind (erase k) fd nid option = (b', shut, evs) /\
  erase k' = b' /\ k_calls k' = k_calls k ++ evs.
Proof.
  unfold on_bind. destruct (decide (nid = [])) as [En|Hne].
  { rewrite bool_decide_true by done. exists k. do 3 eexists. split_and!; [|done|done|by rewrite app_nil_r].
    eapply (bus_alone_turn ts j Hj); [|apply bus_alone_idle]. intros pd. simpl. unfold on_bind_section. by rewrite bool_decide_true. }
  rewrite bool_decide_false by done.
  assert (Eb : map_find nid (b_peers (erase k)) = erase_entry (k_objs k) <$> map_find nid (k_peers k)).
  { simpl. unfold erase_peers. apply (find_vmap (erase_entry (k_objs k))). }
  rewrite Eb. set (e := default (fresh_entry (k_next k)) (map_find nid (k_peers k))).
  set (next := match map_find nid (k_peers k) with None => u64 (k_next k + 1) | Some _ => k_next k end).
  assert (Es : default (mkPeer (b_next_peer_id (erase k)) (-1) (-1) false None 0) (erase_entry (k_objs k) <$> map_find nid (k_peers k)) =
    erase_entry (k_objs k) e) by (unfold e; by destruct (map_find nid (k_peers k))).
  assert (En : match erase_entry (k_objs k) <$> map_find nid (k_peers k) with
    | None => u64 (b_next_peer_id (erase k) + 1) | Some _ => b_next_peer_id (erase k) end = next) by (unfold next; by destruct (map_find nid (k_peers k))).
  rewrite En, Es. cbv zeta. cbn [ps_pending_fd ps_socket_fd erase_entry ps_peer_id].
  set (pending := if en_pending_fd e =? fd then -1 else en_pending_fd e).
  assert (Esec : on_bind_section fd nid option k =
    if en_socket_fd e <? 0 then
      (set_lanes (set_table k (map_set nid (mkEntry (en_peer_id e) fd pending true (Some (length (k_objs k))) (probe_max_payload option)) (k_peers k)) next)
         (k_objs k ++ [new_obj (mkSink (en_peer_id e) fd nid)]) (k_budget k), ReportUp (en_peer_id e))
    else (set_table k (map_set nid (set_pending_of pending e) (k_peers k)) next, Idle)).
  { unfold on_bind_section. by rewrite bool_decide_false. }
  destruct (en_socket_fd e <? 0) eqn:Eneg.
  - set (k1 := set_lanes _ _ _) in Esec. exists (log_call k1 (on_peer_up (en_peer_id e))). do 3 eexists. split_and!; [|done| |done].
    + eapply (bus_alone_turn ts j Hj); [intros pd; simpl; by rewrite Esec|]. eapply (bus_alone_turn ts j Hj); [done|apply bus_alone_idle].
    + unfold erase, k1. simpl. f_equal. unfold erase_peers at 1. rewrite (set_vmap (erase_entry _)). fold (erase_peers (k_objs k ++ [new_obj (mkSink (en_peer_id e) fd nid)]) (k_peers k)).
      rewrite erase_append by apply lane_valid. f_equal. unfold erase_entry. simpl. unfold lane_at.
      by rewrite lookup_app_r, Nat.sub_diag by lia.
  - assert (Ek : erase (set_table k (map_set nid (set_pending_of pending e) (k_peers k)) next) =
      mkBus (k_running k) (k_listen_fd k) (map_set nid (set_pending_fd pending (erase_entry (k_objs k) e)) (erase_peers (k_objs k) (k_peers k)))
        next (k_budget k) (k_instance k)).
    { unfold erase. simpl. f_equal. apply (set_vmap (erase_entry (k_objs k))). }
    exists (set_table k (map_set nid (set_pending_of pending e) (k_peers k)) next).
    destruct (negb (en_socket_fd e =? fd)); do 3 eexists;
      (split_and!; [eapply (bus_alone_turn ts j Hj); [intros pd; simpl; by rewrite Esec|apply bus_alone_idle]|done|exact Ek|by rewrite app_nil_r]).
Qed.

Lemma stop_take l b : exists l', worker_take (SendLane.stop l false) b = Some (l', discard_lane b (Some l)) /\ sl_done l' = true.
Proof.
  unfold worker_take, discard_lane. simpl. destruct (sl_queue l) as [|f q] eqn:Eq; [by eexists|].
  destruct (release_all _ _ _) as [bytes b']. by eexists.
Qed.

Lemma dead_lane_erased fd : dead_lane fd (erase_peers (k_objs k) (k_peers k)) = down_lane fd (k_peers k) ≫= lane_at (k_objs k).
Proof.
  unfold dead_lane, down_lane. unfold erase_peers. rewrite (foldl_vmap (erase_entry (k_objs k))). simpl.
  change None with ((None : option nat) ≫= lane_at (k_objs k)) at 1. generalize (None : option nat).
  induction (k_peers k) as [|[q e] m IH]; intros acc; [done|]. cbn [foldl fst snd].
  by destruct (en_socket_fd e =? fd); rewrite <- IH.
Qed.

Lemma downed_erased fd : downed_peer fd (erase_peers (k_objs k) (k_peers k)) = down_peer fd (k_peers k).
Proof. unfold downed_peer, down_peer. unfold erase_peers. by rewrite (foldl_vmap (erase_entry (k_objs k))). Qed.

Lemma erase_shut os fd m :
  erase_peers os ((fun kv => (kv.1, shut_entry fd kv.2)) <$> m) = (fun kv => (kv.1, shutdown_entry fd kv.2)) <$> erase_peers os m.
Proof.
  unfold erase_peers. rewrite <- !list_fmap_compose. apply list_fmap_ext. intros n [q e] _. simpl. f_equal.
  unfold shut_entry, shutdown_entry. simpl. destruct (_ =? _); [done|]. by destruct (_ =? _).
Qed.

Lemma bus_alone_report kd peer : exists k',
  runs_alone ts j kd (report_down peer) k' /\ erase k' = erase kd /\
  k_calls k' = k_calls kd ++ (if negb (peer =? kInvalidPeer) then [on_peer_down peer] else []).
Proof.
  unfold report_down. destruct (peer =? kInvalidPeer); simpl.
  - exists kd. split_and!; [apply bus_alone_idle|done|by rewrite app_nil_r].
  - exists (log_call kd (on_peer_down peer)). split_and!; [|done|done]. eapply (bus_alone_turn ts j Hj); [done|apply bus_alone_idle].
Qed.

Lemma bus_alone_shutdown fd : exists k',
  runs (OnShutdown fd) k' /\ erase k' = fst (on_shutdown (erase k) fd) /\ k_calls k' = k_calls k ++ snd (on_shutdown (erase k) fd).
Proof.
  unfold on_shutdown. cbn [erase b_listen_fd b_peers b_running b_next_peer_id b_budget b_instance]. destruct (fd =? k_listen_fd k) eqn:Efd; cbn [fst snd].
  { exists (set_running k false). split_and!; [|done|by rewrite app_nil_r].
    eapply (bus_alone_turn ts j Hj); [|apply bus_alone_idle]. intros pd. simpl. unfold on_shutdown_section. by rewrite Efd. }
  rewrite downed_erased, dead_lane_erased. set (peer := down_peer fd (k_peers k)).
  set (m := (fun kv => (kv.1, shut_entry fd kv.2)) <$> k_peers k).
  destruct (down_lane fd (k_peers k)) as [i|] eqn:Ed.
  - destruct (down_lane_from fd _ i (to_map _ _ _ _ table_here) Ed) as (nid & e & Hf & Hl & Esock).
    destruct (lane_there _ _ _ _ _ _ _ table_here Hf Hl) as (o & Ho & _).
    destruct (Hrest i o (ex_intro _ nid (ex_intro _ e (conj Hf Hl))) Ho) as [Hw Hfree].
    destruct (po_lanes _ Hok) as [(_ & Hall & _) _]. simpl in Hall.
    assert (Hlk : (lo_lane <$> k_objs k) !! i = Some (lo_lane o)) by (by rewrite list_lookup_fmap, Ho).
    pose proof (Forall_lookup_1 _ _ _ _ Hall Hlk) as Hlane.
    assert (Hd : sl_done (lo_lane o) = false).
    { destruct (sl_done (lo_lane o)) eqn:E; [|done]. destruct (lo_done _ _ Hlane E) as (Hs & _).
      assert (Hno : sl_stopping (lo_lane o) = false) by (apply (po_live _ Hok i); [by exists nid, e|done]). congruence. }
    destruct (stop_take (lo_lane o) (k_budget k)) as (l' & Etake & Hd').
    set (o3 := mkLaneObj (lo_sink o) l' (from_option Checking Taking (sl_inflight l')) (lo_wire o)).
    set (k1 := set_table k m (k_next k)).
    set (k3 := set_obj i o3 (discard_lane (k_budget k) (Some (lo_lane o))) (set_obj i (with_lane (SendLane.stop (lo_lane o) false) o) (k_budget k) k1)).
    assert (E3 : k_objs k3 !! i = Some o3).
    { unfold k3. simpl. rewrite list_lookup_insert_eq; [done|]. rewrite length_insert. by eapply lookup_lt_Some. }
    destruct (bus_alone_report k3 peer) as (k' & Hrun & Her & Hcalls). exists k'. split_and!.
    + eapply (bus_alone_turn ts j Hj); [intros pd; simpl; unfold on_shutdown_section; by rewrite Efd, Ed|].
      eapply (bus_alone_turn ts j Hj); [intros pd; simpl; unfold latch; simpl; by rewrite Ho; simpl; rewrite Hfree|].
      eapply (bus_alone_work ts j _ _ i k3).
      { unfold worker_act. simpl. rewrite list_lookup_insert_eq by (by eapply lookup_lt_Some). simpl. rewrite Hw, Hd.
        change (lane_free (SendLane.stop (lo_lane o) false)) with (lane_free (lo_lane o)). rewrite Hfree. simpl. by rewrite Etake. }
      eapply (bus_alone_turn ts j Hj); [|exact Hrun]. intros pd. simpl. unfold joined. rewrite E3. simpl. by rewrite Hd'.
    + rewrite Her. unfold erase, k3. simpl. f_equal.
      * rewrite list_insert_insert_eq, <- erase_shut. apply erase_peers_ext. intros kv i' Hkv Hl'. unfold lane_at.
        destruct (decide (i' = i)) as [->|Hne]; [|by rewrite list_lookup_insert_ne]. exfalso.
        apply list_elem_of_fmap in Hkv as ([q x] & -> & Hq). apply in_peers in Hq. simpl in Hl', Hq.
        destruct (shut_entry_cases fd x) as [[_ E]|[Hne [p E]]]; rewrite E in Hl'; [done|]. simpl in Hl'.
        pose proof (to_lane _ _ _ _ table_here _ _ _ Hf Hl) as H1. pose proof (to_lane _ _ _ _ table_here _ _ _ Hq Hl') as H2. congruence.
      * unfold lane_at. by rewrite Ho.
    + exact Hcalls.
  - set (k1 := set_table k m (k_next k)). destruct (bus_alone_report k1 peer) as (k' & Hrun & Her & Hcalls). exists k'. split_and!.
    + eapply (bus_alone_turn ts j Hj); [|exact Hrun]. intros pd. simpl. unfold on_shutdown_section. by rewrite Efd, Ed.
    + rewrite Her. unfold erase, k1. simpl. f_equal. apply erase_shut.
    + exact Hcalls.
Qed.
End five_calls.

(** ** Scripts for the examples *)

Inductive Event := Start (t : Thread) | Do (act : Act) | Timer.

Definition fd_unused_b (fd : Z) (nid : list Z) (P : Process) : bool :=
  (0 <=? fd) && forallb (fun kv => negb (en_socket_fd kv.2 =? fd) || bool_decide (kv.1 = nid)) (k_peers (pr_backend P)) &&
  forallb (fun t => negb (concerns fd t)) (pr_threads P).

(** A call starts; a careless service reuses descriptors that are still concerned. *)
Definition start_call (careful : bool) (t : Thread) (P : Process) : option Process :=
  let k := pr_backend P in
  let add k' := Some (mkProcess k' (pr_threads P ++ [t])) in
  match t with
  | SendCall _ f => if len f <? 2 ^ 63 then add k else None
  | OnBind fd nid _ =>
      if k_instance k && (negb careful || fd_unused_b fd nid P) then add (set_led k (map_set fd nid (k_led k))) else None
  | OnShutdown _ | OnBytes _ _ | OnError _ => if k_instance k then add k else None
  | Stop => add k
  | _ => None
  end.

Definition has_room_b (a : Answer) (k : Backend) : bool :=
  (k_next k + len (a_nodes a) + 1 <? 2 ^ 64) && (kGlobalByteBudget + (len (k_objs k) + 1) * kLaneByteBudget <? 2 ^ 63).
Definition answer_of (act : Act) : Answer := match act with Turn a _ | Work a _ => a end.

Definition play1 (careful : bool) (e : Event) (P : Process) : option Process :=
  match e with
  | Start t => start_call careful t P
  | Do act => if has_room_b (answer_of act) (pr_backend P) then exec1 act P else None
  | Timer => match pr_threads P with PollWait :: ts => Some (mkProcess (pr_backend P) (Poll :: ts)) | _ => None end
  end.
Fixpoint play (careful : bool) (es : list Event) (P : Process) : option Process :=
  match es with [] => Some P | e :: es => P' ← play1 careful e P; play careful es P' end.

Lemma fd_unused_check fd nid P :
  map_ok (k_peers (pr_backend P)) -> fd_unused_b fd nid P = true -> fd_unused fd nid P.
Proof.
  unfold fd_unused_b. intros Hm [[H1%Z.leb_le H2]%andb_true_iff H3]%andb_true_iff. rewrite forallb_forall in H2, H3. split_and!; [done| |].
  - intros q e Hf Es. apply map_find_In, list_elem_of_In, H2 in Hf. simpl in Hf. rewrite Es, Z.eqb_refl in Hf. by apply bool_decide_eq_true in Hf.
  - intros t Ht. apply negb_true_iff, H3. by apply list_elem_of_In.
Qed.

Lemma start_call_starts t P P' :
  map_ok (k_peers (pr_backend P)) -> start_call true t P = Some P' -> process_step P P'.
Proof.
  intros Hm. unfold start_call. destruct t; try done.
  - destruct (Z.ltb_spec (len f) (2 ^ 63)); [|done]. intros [= <-]. by apply process_starts, starts_send.
  - destruct (k_instance _) eqn:Ei; [|done]. simpl. destruct (fd_unused_b _ _ _) eqn:E; [|done]. intros [= <-].
    apply process_starts, starts_bind; [done|]. by apply fd_unused_check.
  - destruct (k_instance _) eqn:Ei; [|done]. intros [= <-]. by apply process_starts, starts_shutdown.
  - destruct (k_instance _) eqn:Ei; [|done]. intros [= <-]. by apply process_starts, starts_bytes.
  - destruct (k_instance _) eqn:Ei; [|done]. intros [= <-]. by apply process_starts, starts_error.
  - intros [= <-]. by apply process_starts, starts_stop.
Qed.

Lemma has_room_check a k : has_room_b a k = true -> has_room a k.
Proof. unfold has_room_b. intros [H1%Z.ltb_lt H2%Z.ltb_lt]%andb_true_iff. by split. Qed.

Lemma play_reachable es P P' : process_reachable P -> play true es P = Some P' -> process_reachable P'.
Proof.
  revert P. induction es as [|e es IH]; intros P HP; simpl; [by intros [= <-]|].
  destruct (play1 true e P) as [P1|] eqn:E; [|done]. simpl. apply IH. apply (process_next P); [done|].
  pose proof (to_map _ _ _ _ (po_table _ (process_reachable_ok P HP))) as Hm. destruct e as [t|act|]; simpl in E.
  - by apply (start_call_starts t).
  - destruct (has_room_b _ _) eqn:Er; [|done]. apply has_room_check in Er. apply process_moves.
    destruct act as [a j|a i]; [by eapply moves_thread|by eapply moves_worker].
  - destruct (pr_threads P) as [|[] ts] eqn:Ets; try done. injection E as <-. pose proof (process_timer P) as Ht. rewrite Ets in Ht. by apply Ht.
Qed.

(** A channel to node A comes up, two frames are sent to it, and one reaches [SendBytes]. *)
Definition go (j : nat) : Event := Do (Turn plain_answer j).
Definition labour (i : nat) : Event := Do (Work plain_answer i).
Definition node_a : list Z := [65].
Definition node_b : list Z := [66].
Definition lane_script : list Event :=
  [Start (OnBind 7 node_a (Some 4096)); go 1; go 1;
   Start (SendCall 1 [41]); Start (SendCall 1 [42]); go 2; go 3; go 2; go 2; go 3; go 3;
   labour 0; labour 0; labour 0].
Definition lane_process : Process := default (started 3) (play true lane_script (started 3)).

Lemma found_play careful es P : from_option (fun _ => true) false (play careful es P) = true ->
  play careful es P = Some (default P (play careful es P)).
Proof. by destruct (play careful es P). Qed.

Lemma lane_process_reachable : process_reachable lane_process.
Proof. apply (play_reachable lane_script (started 3)); [by apply process_init|]. apply found_play. vm_compute. reflexivity. Qed.

Lemma count_sublist {A} `{EqDecision A} (a : A) l l' : l `sublist_of` l' -> count a l <= count a l'.
Proof. induction 1; rewrite ?count_cons; [done|lia|destruct (decide _); lia]. Qed.

Lemma zsum_mono {A} (g h : A -> Z) l : (forall a, a ∈ l -> g a <= h a) -> zsum (g <$> l) <= zsum (h <$> l).
Proof.
  induction l as [|a l IH]; intros Hle; [done|]. rewrite !fmap_cons. cbn [zsum].
  pose proof (Hle a ltac:(left)). pose proof (IH (fun b Hb => Hle b (list_elem_of_further _ _ _ Hb))). lia.
Qed.

(** How often [SendBytes] got a frame from the lanes of a peer. *)
Definition sent_to (peer : Z) (f : list Z) (o : LaneObj) : Z :=
  if decide (sk_peer (lo_sink o) = peer) then count f (fst <$> lo_wire o) else 0.

Lemma wire_accepted k ts o : process_ok (mkProcess k ts) -> o ∈ k_objs k -> (fst <$> lo_wire o) `sublist_of` sl_accepted (lo_lane o).
Proof.
  intros Hok Hin. apply list_elem_of_lookup in Hin as [i Hi]. destruct (po_lanes _ Hok) as [(_ & Hall & _) _]. simpl in Hall.
  assert (Hl : (lo_lane <$> k_objs k) !! i = Some (lo_lane o)) by (by rewrite list_lookup_fmap, Hi).
  pose proof (Forall_lookup_1 _ _ _ _ Hall Hl) as Hlane. rewrite (lo_order _ _ Hlane).
  apply sublist_inserts_r. apply (oo_wire _ (obj_ok_at _ _ _ _ Hok Hi)).
Qed.

(** The transport starts as [TransportDsoftbus] says. *)
Lemma started_is_start fd : 0 <= fd -> bus_start new_bus fd true = (erase (pr_backend (started fd)), true).
Proof. intros Hfd. unfold bus_start. simpl. by rewrite (proj2 (Z.ltb_ge _ _)). Qed.

(** From every schedule of the threads a process comes to where nobody has anything to do,
    unless a counter runs out. *)
Inductive comes_to_rest (P : Process) : Prop :=
| rests :
    (has_room plain_answer (pr_backend P) -> (quiet P /\ used (k_budget (pr_backend P)) = 0) \/ exists P', moves P P') ->
    (forall P', moves P P' -> comes_to_rest P') -> comes_to_rest P.

Module DsoftbusLanesSpec.

(** C24. The DSoftBus transport hands frames on soundly, however its callbacks, polls, senders,
    lane workers and a stop interleave, provided the service reuses no descriptor that is
    in the table or in a running callback.  What a lane gives to [SendBytes] it accepted, in
    that order; it goes out on a descriptor that leads to the node the lane was made for;
    all lanes of a peer lead to one node, the one the table has it for; and a frame is given
    to [SendBytes] for a peer no more often than [send] was called with it for that peer. *)
Theorem lanes_deliver (P : Process) :
  process_reachable P ->
  let k := pr_backend P in
  (forall o, o ∈ k_objs k -> (fst <$> lo_wire o) `sublist_of` sl_accepted (lo_lane o) /\
     forall f node, (f, node) ∈ lo_wire o -> node = Some (sk_node (lo_sink o))) /\
  (forall o o', o ∈ k_objs k -> o' ∈ k_objs k -> sk_peer (lo_sink o) = sk_peer (lo_sink o') ->
     sk_node (lo_sink o) = sk_node (lo_sink o')) /\
  (forall nid e o, map_find nid (k_peers k) = Some e -> o ∈ k_objs k -> sk_peer (lo_sink o) = en_peer_id e ->
     sk_node (lo_sink o) = nid) /\
  (forall peer f, zsum (sent_to peer f <$> k_objs k) <= count (peer, f) (k_sends k)).
Proof.
  destruct P as [k ts]. intros Hok%process_reachable_ok. pose proof (po_table _ Hok) as Ht. simpl in *.
  assert (Hs : forall o, o ∈ k_objs k -> exists i, (lo_sink <$> k_objs k) !! i = Some (lo_sink o)).
  { intros o [i Hi]%list_elem_of_lookup. exists i. by rewrite list_lookup_fmap, Hi. }
  split_and!.
  - intros o Ho. split; [by eapply wire_accepted|]. apply list_elem_of_lookup in Ho as [i Hi]. apply (oo_nodes _ (obj_ok_at _ _ _ _ Hok Hi)).
  - intros o o' [i Hi]%Hs [i' Hi']%Hs. by apply (to_same _ _ _ _ Ht i i').
  - intros nid e o Hf [i Hi]%Hs. by apply (to_nodes _ _ _ _ Ht i nid e).
  - intros peer f. pose proof (po_sent _ Hok peer f) as Hle. simpl in Hle.
    assert (Hp : 0 <= zsum (pushing peer f <$> ts)).
    { apply zsum_map_nonneg. intros t. destruct t; simpl; try lia. destruct (decide _); lia. }
    assert (Hm : zsum (sent_to peer f <$> k_objs k) <= zsum (took peer f <$> k_objs k)); [|lia].
    apply zsum_mono. intros o Ho. unfold sent_to, took. destruct (decide _); [|done].
    apply count_sublist, sublist_inserts_r. by eapply wire_accepted.
Qed.

(** C25. Every call of the DSoftBus transport returns: no deadlock, [on_shutdown] waiting for
    the worker of a lane and [stop] for the poll thread and for every lane included, and no
    endless run.  From any reachable state every schedule comes to one where all calls have
    returned, the poll thread at most sleeps in a transport that runs, every worker has
    ended or waits for frames, and all bytes are back in the shared budget. *)
Theorem bus_calls_return (P : Process) : process_reachable P -> comes_to_rest P.
Proof.
  intros Hok%process_reachable_ok. induction (bus_moves_acc P Hok) as [P _ IH]. constructor.
  - intros Hroom. destruct P as [k ts]. destruct (quiet_or_moves k ts Hok Hroom) as [Hq|?]; [|by right].
    left. split; [done|]. by apply (quiet_budget _ Hok Hq).
  - intros P' Hm. apply IH; [done|]. by eapply moves_ok.
Qed.

(** C27. A call that no other thread disturbs, the workers of the lanes in the table being
    between frames, does what the step of [TransportDsoftbus] does: it returns, the table
    with its lanes, the budget and the flags are as that step leaves them, and the listener
    heard the same events. *)
Theorem undisturbed_bus_call (P : Process) (j : nat) (t : Thread) (b' : DsoftbusTransport) (evs : list ListenerEvent) :
  process_reachable P -> pr_threads P !! j = Some t -> lanes_at_rest (pr_backend P) ->
  atomic_call t (erase (pr_backend P)) = Some (b', evs) ->
  exists acts P', exec acts P = Some P' /\ pr_threads P' = <[j := Idle]> (pr_threads P) /\
    erase (pr_backend P') = b' /\ k_calls (pr_backend P') = k_calls (pr_backend P) ++ evs.
Proof.
  destruct P as [k ts]. intros Hok%process_reachable_ok Hj Hrest Hc. cbn [pr_backend pr_threads] in *.
  pose proof (lookup_lt_Some _ _ _ Hj) as Hlt.
  assert (Hend : forall k', runs_alone ts j k t k' -> erase k' = b' -> k_calls k' = k_calls k ++ evs ->
    exists acts P', exec acts (mkProcess k ts) = Some P' /\ pr_threads P' = <[j := Idle]> ts /\
      erase (pr_backend P') = b' /\ k_calls (pr_backend P') = k_calls k ++ evs).
  { intros k' [acts E] He Hcl. rewrite list_insert_id in E by done. by exists acts, (mkProcess k' (<[j := Idle]> ts)). }
  destruct t; try done; simpl in Hc.
  - injection Hc as <- <-. destruct (bus_alone_send k ts j Hok Hlt Hrest peer f) as (k' & Hr & He & Hl). apply (Hend k'); [done|done|by rewrite app_nil_r].
  - destruct (bus_alone_bind k ts j Hok Hlt fd nid option) as (k' & b1 & shut & evs1 & Hr & Eb & He & Hl).
    rewrite Eb in Hc. injection Hc as <- <-. by apply (Hend k').
  - destruct (bus_alone_shutdown k ts j Hok Hlt Hrest fd) as (k' & Hr & He & Hl). rewrite (surjective_pairing (on_shutdown _ _)) in Hc.
    injection Hc as <- <-. by apply (Hend k').
  - injection Hc as <- <-. destruct (bus_alone_bytes k ts j Hok Hlt fd data) as (k' & Hr & He & Hl). by apply (Hend k').
  - injection Hc as <- <-. destruct (bus_alone_error k ts j Hok Hlt fd) as (k' & Hr & He & Hl). apply (Hend k'); [done|done|by rewrite app_nil_r].
Qed.

Lemma lanes_deliver_witness :
  exists o, k_objs (pr_backend lane_process) = [o] /\ lo_wire o = [([41], Some node_a)] /\
    sl_accepted (lo_lane o) = [[41]; [42]] /\ (fst <$> lo_wire o) `sublist_of` sl_accepted (lo_lane o) /\
    zsum (sent_to 1 [41] <$> k_objs (pr_backend lane_process)) <= count (1, [41]) (k_sends (pr_backend lane_process)).
Proof.
  destruct (lanes_deliver lane_process lane_process_reachable) as (Hl & _ & _ & Hc).
  assert (E : (fun o => (lo_wire o, sl_accepted (lo_lane o))) <$> k_objs (pr_backend lane_process) = [([([41], Some node_a)], [[41]; [42]])])
    by (vm_compute; reflexivity).
  specialize (Hc 1 [41]). revert E Hl Hc. generalize (k_sends (pr_backend lane_process)). generalize (k_objs (pr_backend lane_process)).
  intros os sends E Hl Hc. destruct os as [|o [|]]; try done. injection E as Ew Ea. exists o.
  split_and!; [done|done|done|by apply Hl; left|done].
Defined.

(** The node goes away while both frames are under way and a stop begins. *)
Definition stop_process : Process :=
  default lane_process (play true [Start (OnShutdown 7); go 4; go 4; Start Stop; go 5] lane_process).
Lemma stop_process_reachable : process_reachable stop_process.
Proof.
  apply (play_reachable [Start (OnShutdown 7); go 4; go 4; Start Stop; go 5] lane_process); [apply lane_process_reachable|].
  apply found_play. vm_compute. reflexivity.
Qed.

Lemma bus_calls_return_witness :
  comes_to_rest stop_process /\ pr_threads stop_process = [Poll; Idle; Idle; Idle; JoinLane 7 0 1; StopJoin].
Proof. split; [apply bus_calls_return, stop_process_reachable|vm_compute; reflexivity]. Defined.

(** The node goes away while nothing is under way. *)
Definition calm_process : Process :=
  default lane_process (play true [labour 0; labour 0; labour 0; Start (OnShutdown 7)] lane_process).
Lemma calm_process_reachable : process_reachable calm_process.
Proof.
  apply (play_reachable [labour 0; labour 0; labour 0; Start (OnShutdown 7)] lane_process); [apply lane_process_reachable|].
  apply found_play. vm_compute. reflexivity.
Qed.

Lemma undisturbed_bus_call_witness :
  exists acts P', exec acts calm_process = Some P' /\ pr_threads P' = <[4%nat := Idle]> (pr_threads calm_process) /\
    erase (pr_backend P') = fst (on_shutdown (erase (pr_backend calm_process)) 7) /\
    k_calls (pr_backend P') = k_calls (pr_backend calm_process) ++ [on_peer_down 1].
Proof.
  assert (Eo : (fun o => (lo_worker o, lane_free (lo_lane o))) <$> k_objs (pr_backend calm_process) = [(Taking, true)]) by (vm_compute; reflexivity).
  apply (undisturbed_bus_call calm_process 4 (OnShutdown 7)).
  - apply calm_process_reachable.
  - vm_compute. reflexivity.
  - intros i o _. revert Eo. generalize (k_objs (pr_backend calm_process)). intros os E Ho. destruct os as [|o1 [|]]; try done.
    injection E as E1 E2. destruct i; [|done]. by injection Ho as <-.
  - vm_compute. reflexivity.
Defined.

(** The check of [deliver] is too early to stop this: a service that gives the descriptor to
    another node while [on_shutdown] still waits for the worker makes the worker, past its
    check, send the frame to that node. *)
Theorem reused_descriptor_misdelivers :
  exists P o, play false
    [Start (OnBind 7 node_a (Some 4096)); go 1; go 1; Start (SendCall 1 [41]); go 2; go 2; go 2; labour 0; labour 0;
     Start (OnShutdown 7); go 3; go 3; Start (OnBind 7 node_b (Some 4096)); go 4; labour 0] (started 3) = Some P /\
    k_objs (pr_backend P) !! 0%nat = Some o /\ sk_node (lo_sink o) = node_a /\ lo_wire o = [([41], Some node_b)].
Proof. do 2 eexists. split; [vm_compute; reflexivity|]. split; [reflexivity|]. by split. Qed.

(** [on_bind] does not look at [running_]: one that was dispatched before [stop] withdrew the
    instance opens a lane and reports its peer up after [stop] has returned. *)
Theorem bind_after_stop :
  exists P, play true
    [Start (OnBind 7 node_a (Some 4096)); Start Stop; go 2; go 0; go 2; go 2; go 2; go 1; go 1] (started 3) = Some P /\
    pr_threads P = [Idle; Idle; Idle] /\ k_running (pr_backend P) = false /\ k_instance (pr_backend P) = false /\
    in_table (pr_backend P) 0 /\ k_calls (pr_backend P) = [on_peer_up 1].
Proof.
  eexists. split; [vm_compute; reflexivity|]. split_and!; try done.
  eexists node_a, _. split; [vm_compute; reflexivity|done].
Qed.
End DsoftbusLanesSpec.
