(* ===== verification/Stack.v ===== *)
(** * Participants over their backends

    The transports of a participant as the program builds them: the UDP backend of
    [TransportUdp] and the DSoftBus backend of [TransportDsoftbus] behind the class that
    [Participant] is written against.  A network of such participants, with the threads of
    the backends and the datagrams between them, implements the network of [PoolNet]. *)

From stdpp Require Import relations.
From S2P Require Import Prelude Memory StdMap Guid Qos Frame ReaderImpl Discovery Wire Participant ParticipantFacts Session Locked Interleave ThreadSafe Graph Publish Integrity Network Truthful Bus PoolNet Convergence Listener SendLane TransportUdp TransportDsoftbus.

(** ** The two kinds of transport

    With what it was handed so far.  [ul_sendto] is what [sendto] answers, call by call;
    [ul_wire] the data datagrams that left, for whom and with which bytes. *)

Record UdpLink := mkUdpLink {
  ul_udp : Udp;
  ul_sendto : nat -> bool;
  ul_handed : list (PeerId * list Z);
  ul_wire : list Datagram;
}.

Record BusLink := mkBusLink {
  bl_bus : DsoftbusTransport;
  bl_handed : list (PeerId * list Z);
}.

Inductive Link := OnUdp (l : UdpLink) | OnBus (l : BusLink).

Definition link_handed (l : Link) : list (PeerId * list Z) :=
  match l with OnUdp l => ul_handed l | OnBus l => bl_handed l end.

(** [ul_handed] and [bl_handed] record every frame, the refused ones too: whatever is shown
    of what may arrive holds for more than what can.  What a transport took is [taken]. *)
Definition link_send (l : Link) (peer : PeerId) (f : list Z) : Link * bool :=
  match l with
  | OnUdp l =>
      let handed := ul_handed l ++ [(peer, f)] in
      match TransportUdp.send (ul_udp l) peer f with
      | None => (OnUdp (mkUdpLink (ul_udp l) (ul_sendto l) handed (ul_wire l)), false)
      | Some d =>
          let sent := ul_sendto l (length (ul_handed l)) in
          (OnUdp (mkUdpLink (ul_udp l) (ul_sendto l) handed (if sent then ul_wire l ++ [d] else ul_wire l)), sent)
      end
  | OnBus l =>
      let (b, ok) := bus_send (bl_bus l) peer f in (OnBus (mkBusLink b (bl_handed l ++ [(peer, f)])), ok)
  end.

Definition link_max_payload (l : Link) (peer : PeerId) : Z :=
  match l with OnUdp l => max_payload_udp (ul_udp l) peer | OnBus l => bus_max_payload (bl_bus l) peer end.

Definition link_stop (l : Link) : Link :=
  match l with
  | OnUdp l => OnUdp (mkUdpLink (fst (TransportUdp.stop (ul_udp l))) (ul_sendto l) (ul_handed l) (ul_wire l))
  | OnBus l => OnBus (mkBusLink (fst (bus_stop (bl_bus l))) (bl_handed l))
  end.

(** ** What every transport keeps to

    A UDP backend has the frame limit participants give it, and what it sent is what it was
    handed, within that limit.  The table of a DSoftBus backend is consistent, or the
    backend is stopped. *)

Definition max_frame : Z := udp_max_payload (transport_config default_config).

Definition bus_stopped (b : DsoftbusTransport) : Prop := b_running b = false /\ b_instance b = false /\ b_peers b = [].
Definition bus_link_ok (b : DsoftbusTransport) : Prop := (exists evs, bus_ok (mkBusThreads b [] evs)) \/ bus_stopped b.

Definition link_ok (l : Link) : Prop :=
  match l with
  | OnUdp l =>
      udp_max_payload (u_config (ul_udp l)) = max_frame /\
      forall d, d ∈ ul_wire l -> len d.2 <= max_frame /\ exists p, (p, d.2) ∈ ul_handed l
  | OnBus l => bus_link_ok (bl_bus l)
  end.

Lemma send_datagram u peer f d :
  TransportUdp.send u peer f = Some d -> d = (peer_ip peer, peer_port peer, f) /\ len f <= udp_max_payload (u_config u).
Proof.
  unfold TransportUdp.send, max_payload_udp. destruct (_ || _) eqn:E; [done|]. apply orb_false_iff in E as [_ E].
  destruct (map_find _ _); [|done]. intros [= <-]. split; [done|by apply Z.ltb_ge].
Qed.

Lemma bus_send_empty b peer f : b_peers b = [] -> bus_send b peer f = (b, false).
Proof. intros E. unfold bus_send. by rewrite E. Qed.

Lemma link_send_ok l peer f : link_ok l -> link_ok (fst (link_send l peer f)).
Proof.
  destruct l as [l|l]; simpl.
  - intros [Hmax Hw]. assert (Hw' : forall d, d ∈ ul_wire l -> len d.2 <= max_frame /\ exists p, (p, d.2) ∈ ul_handed l ++ [(peer, f)]).
    { intros d Hd. destruct (Hw d Hd) as [? [p Hp]]. split; [done|]. exists p. apply elem_of_app. by left. }
    destruct (TransportUdp.send _ _ _) as [d|] eqn:E; simpl; [|done]. split; [done|].
    destruct (ul_sendto l _); [|done]. intros d'. rewrite elem_of_app, list_elem_of_singleton. intros [Hd| ->]; [by apply Hw'|].
    apply send_datagram in E as [-> Hle]. simpl. split; [by rewrite <- Hmax|]. exists peer. apply elem_of_app. right. by left.
  - destruct (bus_send _ _ _) as [b ok] eqn:E. simpl. intros [[evs Hb]|Hb].
    + left. exists evs. pose proof (bus_send_ok _ _ _ peer f Hb) as Hb'. by rewrite E in Hb'.
    + right. rewrite bus_send_empty in E by apply Hb. by injection E as <- _.
Qed.

Lemma link_stop_ok l : link_ok l -> link_ok (link_stop l).
Proof.
  destruct l as [l|l]; simpl.
  - intros [Hmax Hw]. split; [|done]. unfold TransportUdp.stop. by destruct (negb _).
  - unfold bus_stop. destruct (negb _); [done|]. intros _. by right.
Qed.

Lemma link_send_handed l peer f : link_handed (fst (link_send l peer f)) = link_handed l ++ [(peer, f)].
Proof.
  destruct l as [l|l]; simpl; [by destruct (TransportUdp.send _ _ _)|by destruct (bus_send _ _ _)].
Qed.

(** Replacing an entry by one of the same peer and limit. *)
Lemma find_map_set_peer q nid st st' (m : std_map (list Z) PeerState) :
  map_ok m -> map_find nid m = Some st -> ps_peer_id st' = ps_peer_id st -> ps_max_payload st' = ps_max_payload st ->
  (fun kv => ps_max_payload kv.2) <$> find (fun kv => ps_peer_id kv.2 =? q) (map_set nid st' m) =
  (fun kv => ps_max_payload kv.2) <$> find (fun kv => ps_peer_id kv.2 =? q) m.
Proof.
  intros Hok Hf Eid Em. induction Hok as [|[k0 v0] m Hs IH Hall]; [done|]. cbn [map_set map_find] in *.
  destruct (decide (nid = k0)) as [->|Hne].
  - injection Hf as ->. cbn [find snd]. rewrite Eid. destruct (_ =? _); [by simpl; rewrite Em|done].
  - destruct (key_lt nid k0) eqn:Hlt.
    + apply map_find_In in Hf. rewrite Forall_forall in Hall. specialize (Hall _ Hf). unfold entry_lt in Hall. simpl in Hall.
      pose proof (key_lt_trans _ _ _ Hlt Hall) as Hc. by rewrite key_lt_irrefl in Hc.
    + cbn [find snd]. destruct (_ =? _); [done|by apply IH].
Qed.

Lemma link_send_max l peer f q : link_ok l -> link_max_payload (fst (link_send l peer f)) q = link_max_payload l q.
Proof.
  destruct l as [l|l]; simpl; [by destruct (TransportUdp.send _ _ _)|]. unfold bus_send.
  destruct (find _ (b_peers (bl_bus l))) as [[nid st]|] eqn:E; [|done].
  destruct (ps_lane st) as [lane|] eqn:El; [|done]. destruct (push _ _ _) as [[lane' budget'] ok]. simpl.
  intros [[evs Hb]|(_ & _ & Hb)]; [|by rewrite Hb in E]. apply find_some in E as [Hin%list_elem_of_In _].
  apply (map_In_find _ _ _ (bo_map _ Hb)) in Hin. unfold bus_max_payload. cbn [b_peers].
  pose proof (find_map_set_peer q nid st (mkPeer (ps_peer_id st) (ps_socket_fd st) (ps_pending_fd st) (ps_up_notified st)
    (Some lane') (ps_max_payload st)) (b_peers (bl_bus l)) (bo_map _ Hb) Hin eq_refl eq_refl) as Hfind.
  destruct (find _ (map_set _ _ _)) as [kv|], (find _ (b_peers (bl_bus l))) as [kv'|]; simpl in Hfind; try done.
  by injection Hfind as ->.
Qed.

(** ** The transport of a participant *)

Record Endpoint := mkEndpoint { ep_link : Link; ep_ok : link_ok ep_link }.

#[global] Instance endpoint_transport : Transport Endpoint := {|
  transport_send e peer f :=
    (mkEndpoint (fst (link_send (ep_link e) peer f)) (link_send_ok _ peer f (ep_ok e)), snd (link_send (ep_link e) peer f));
  transport_max_payload e peer := link_max_payload (ep_link e) peer;
  transport_stop e := mkEndpoint (link_stop (ep_link e)) (link_stop_ok _ (ep_ok e));
|}.

#[global, refine] Instance endpoint_logged : LoggedTransport Endpoint := {| sent_log e := link_handed (ep_link e) |}.
Proof.
  - intros e peer f. apply link_send_handed.
  - intros e peer f q. apply link_send_max, e.
Defined.

(** ** Starting

    What the host answers while [init] starts the backends: the sockets of each, whether
    the build has DSoftBus, and whether another participant of the process has it. *)

Record Host := mkHost {
  h_udp_socket : bool;
  h_bindable : Z -> bool;
  h_ifas : option (list Ifaddr);
  h_sendto : nat -> bool;
  h_with_dsoftbus : bool;
  h_instance : bool;
  h_bus_fd : Z;
  h_listen_ok : bool;
}.

Definition host_bus (h : Host) : DsoftbusTransport := mkBus false (-1) [] 1 (mkBudget kGlobalByteBudget 0) (h_instance h).

Definition udp_start (cfg : ParticipantConfig) (h : Host) : option Udp :=
  TransportUdp.start false (transport_config cfg) (h_udp_socket h) (h_bindable h) (h_ifas h).
Definition dsoftbus_start (h : Host) : DsoftbusTransport * bool := bus_start (host_bus h) (h_bus_fd h) (h_listen_ok h).

Lemma udp_start_ok cfg h u : udp_start cfg h = Some u -> link_ok (OnUdp (mkUdpLink u (h_sendto h) [] [])).
Proof.
  unfold udp_start, TransportUdp.start. destruct (_ || _); [done|]. destruct (find _ _) as [port|]; [|done].
  destruct (if udp_cross_device _ then _ else _) as [selfs bcasts]. intros [= <-]. split; [done|]. intros d Hd. by apply not_elem_of_nil in Hd.
Qed.

Lemma dsoftbus_start_ok h b : dsoftbus_start h = (b, true) -> link_ok (OnBus (mkBusLink b [])).
Proof.
  intros E. left. exists []. apply bus_reachable_ok. unfold dsoftbus_start, host_bus in E. unfold bus_start in E. simpl in E.
  destruct (h_instance h); [done|]. apply (bus_init (h_bus_fd h)). unfold bus_start. simpl.
  destruct (_ <? _); [done|]. destruct (h_listen_ok h); [done|by destruct (negb false)].
Qed.

(** The transports that [init] keeps: those that start. *)
Definition udp_endpoint (cfg : ParticipantConfig) (h : Host) : option Endpoint :=
  match udp_start cfg h as o return udp_start cfg h = o -> option Endpoint with
  | Some u => fun E => Some (mkEndpoint (OnUdp (mkUdpLink u (h_sendto h) [] [])) (udp_start_ok cfg h u E))
  | None => fun _ => None
  end eq_refl.

Definition dsoftbus_endpoint (h : Host) : option Endpoint :=
  match dsoftbus_start h as o return dsoftbus_start h = o -> option Endpoint with
  | (b, true) => fun E => Some (mkEndpoint (OnBus (mkBusLink b [])) (dsoftbus_start_ok h b E))
  | (_, false) => fun _ => None
  end eq_refl.

(** [Participant::create] on a host, given the random prefix and the clocks. *)
Definition create_node (cfg : ParticipantConfig) (h : Host) (prefix : list Z) (sys steady : nat -> Z)
    : res (option (World Endpoint)) :=
  create prefix (cfg_test_send_hook cfg) sys steady
    (if cfg_use_udp_loopback cfg then (fun e => (e, true)) <$> udp_endpoint cfg h else None)
    (if h_with_dsoftbus h && cfg_use_dsoftbus cfg then (fun e => (e, true)) <$> dsoftbus_endpoint h else None).

(** ** Backends at work *)

(** The worker of the lane of an entry: it takes a frame, or hands one to the sink. *)
Inductive worker_step (b : DsoftbusTransport) (st : PeerState) (lane : SendLane) : SendLane -> SendBudget -> Prop :=
| worker_takes lane' budget' :
    sl_pending lane = None -> sl_inflight lane = None -> sl_done lane = false ->
    worker_take lane (b_budget b) = Some (lane', budget') -> worker_step b st lane lane' budget'
| worker_sends f send_ok :
    sl_inflight lane = Some f ->
    worker_step b st lane (give_to_sink lane f (deliver b (ps_peer_id st) (ps_socket_fd st) send_ok)) (b_budget b).

(** The callbacks, the poll and the lane workers of DSoftBus, with the calls they make;
    what arrives is among [hears]. *)
Inductive bus_works (hears : list Z -> Prop) (b : DsoftbusTransport) : DsoftbusTransport -> list ListenerEvent -> Prop :=
| works_online nodes sockets :
    b_running b = true -> b_next_peer_id b + len nodes < 2 ^ 64 ->
    bus_works hears b (fst (connect_online_peers b nodes sockets)) []
| works_bind fd nid option b' shut up :
    b_instance b = true -> fd_free b nid fd -> b_next_peer_id b + 1 < 2 ^ 64 ->
    on_bind b fd nid option = (b', shut, up) -> bus_works hears b b' up
| works_shutdown fd b' down :
    b_instance b = true -> on_shutdown b fd = (b', down) -> bus_works hears b b' down
| works_bytes fd data :
    b_instance b = true -> hears data -> bus_works hears b b (on_bytes_received b fd data)
| works_error fd :
    b_instance b = true -> bus_works hears b (fst (on_error b fd)) []
| works_lane nid st lane lane' budget' :
    map_find nid (b_peers b) = Some st -> ps_lane st = Some lane -> worker_step b st lane lane' budget' ->
    bus_works hears b
      (mkBus (b_running b) (b_listen_fd b)
         (map_set nid (mkPeer (ps_peer_id st) (ps_socket_fd st) (ps_pending_fd st) (ps_up_notified st) (Some lane')
            (ps_max_payload st)) (b_peers b)) (b_next_peer_id b) budget' (b_instance b)) [].

(** The table stays consistent, once the calls are made. *)
Lemma bus_works_ok hears b b' calls evs :
  bus_works hears b b' calls -> bus_ok (mkBusThreads b [] evs) -> bus_ok (mkBusThreads b' [] (evs ++ calls)).
Proof.
  intros Hw Hok. apply (bus_ok_events b' calls evs); [|intros p; rewrite balance_app; change (balance p []) with 0; lia].
  destruct Hw as [nodes sockets| | | | |nid st lane lane' budget' Hst Hl _].
  - by apply connect_ok.
  - by eapply (on_bind_ok _ []).
  - by eapply (on_shutdown_ok _ []).
  - eapply bus_ok_events; [done|]. intros p. rewrite on_bytes_received_balance. done.
  - by apply on_error_ok.
  - eapply (bus_ok_same b [] evs nid st); [done|done| |done]. split_and!; try done. unfold has_lane. by rewrite Hl.
Qed.

Lemma bus_works_link_ok hears b b' calls : bus_works hears b b' calls -> bus_link_ok b -> bus_link_ok b'.
Proof.
  intros Hw [[evs Hb]|(Hr & Hi & Hp)]; [left; exists (evs ++ calls); by eapply bus_works_ok|].
  destruct Hw as [| | | | |nid st lane lane' budget' Hst]; [congruence..|]. by rewrite Hp in Hst.
Qed.

(** ** The network of stacks *)

Section stack.
Implicit Types N : PoolNet (T := Endpoint).
Implicit Types P : Pool Endpoint.

(** Bytes a DSoftBus channel may bring: a frame of a participant, or a stranger's. *)
Definition heard N (f : list Z) : Prop := bytes_ok f /\ (in_flight (net_of N) f \/ foreign (net_of N) f).

(** Datagrams on the air: those the UDP backends sent, and those of strangers, whose first
    bytes do not pose as a participant's frame however much of them is read. *)
Definition sent_datagram N (d : list Z) : Prop :=
  exists P e l dg, P ∈ pn_pools N /\ e ∈ w_transports (pool_world P) /\ ep_link e = OnUdp l /\ dg ∈ ul_wire l /\ d = dg.2.
Definition on_air N (d : list Z) : Prop :=
  sent_datagram N d \/ bytes_ok d /\ forall k, foreign (net_of N) (take k d).

Definition with_udp (l : UdpLink) (u : Udp) : Link := OnUdp (mkUdpLink u (ul_sendto l) (ul_handed l) (ul_wire l)).

(** One step of the threads of a backend, with the calls it makes to the listener. *)
Inductive backend_step N (l : Link) : Link -> list ListenerEvent -> Prop :=
| bk_recv ul now ip port d u' call :
    l = OnUdp ul -> u_running (ul_udp ul) = true -> on_air N d ->
    recv_datagram (ul_udp ul) now ip port d = (u', call) ->
    backend_step N l (with_udp ul u') (opt_list call)
| bk_sweep ul now u' dead :
    l = OnUdp ul -> u_running (ul_udp ul) = true -> sweep_peers (ul_udp ul) now = (u', dead) ->
    backend_step N l (with_udp ul u') (on_peer_down <$> dead)
| bk_bus bl b' calls :
    l = OnBus bl -> bus_works (heard N) (bl_bus bl) b' calls ->
    backend_step N l (OnBus (mkBusLink b' (bl_handed bl))) calls.

(** What [ListenerRelay] makes of a call of transport [k]. *)
Definition event_op (k : nat) (e : ListenerEvent) : Op :=
  match e with
  | on_peer_up p => PeerUp (make_peer_id (Z.of_nat k) p)
  | on_peer_down p => PeerDown (make_peer_id (Z.of_nat k) p)
  | on_bytes p d => Receive (make_peer_id (Z.of_nat k) p) d
  end.

Definition app_call (op : Op) : bool := match op with PeerUp _ | PeerDown _ | Receive _ _ => false | _ => true end.

Definition with_endpoint (w : World Endpoint) (k : nat) (e : Endpoint) : World Endpoint :=
  mkWorld (w_self w) (<[k := e]> (w_transports w)) (w_hook w) (w_sys w) (w_steady w) (w_tick w) (w_events w).

(** Several calls start. *)
Definition spawn_all (ops : list Op) P : Pool Endpoint :=
  mkPool (pool_world P) (pool_owner P) (pool_threads P ++ ((fun op => (op, op_prog op)) <$> ops)).
Definition set_world (w : World Endpoint) P : Pool Endpoint := mkPool w (pool_owner P) (pool_threads P).

(** A call starts, a thread of a participant does its next act, or a backend does its next
    step.  The calls a backend makes may be overtaken by what other threads do. *)
Inductive stack_step N : PoolNet -> Prop :=
| ss_call i P op :
    pn_pools N !! i = Some P -> app_call op = true -> may_spawn op P -> op_typed op ->
    stack_step N (mkPoolNet (<[i := spawn op P]> (pn_pools N)) (pn_published N))
| ss_move i P j op p P' :
    pn_pools N !! i = Some P -> in_range (w_self (pool_world P)) ->
    (op = AnnounceTick -> p_announce_seq (w_self (pool_world P)) + 1 < 2 ^ 64) ->
    pool_threads P !! j = Some (op, p) -> advance j P = Some (Done P') ->
    stack_step N (mkPoolNet (<[i := P']> (pn_pools N))
      (pn_published N ++ published_step op (pool_world P) (pool_world P')))
| ss_backend i P k e e' calls :
    pn_pools N !! i = Some P -> w_transports (pool_world P) !! k = Some e ->
    backend_step N (ep_link e) (ep_link e') calls ->
    (forall c t, c ∈ calls -> t ∈ pool_threads P -> finished t.2 = false -> compatible (event_op k c) t.1) ->
    stack_step N (mkPoolNet
      (<[i := set_world (with_endpoint (pool_world P) k e') (spawn_all (event_op k <$> calls) P)]> (pn_pools N))
      (pn_published N)).

(** Participants are created with distinct prefixes, on any hosts. *)
Definition stack_node_start (w : World Endpoint) : Prop :=
  exists cfg h prefix sys steady,
    create_node cfg h prefix sys steady = Done (Some w) /\ length prefix = 12%nat /\ bytes_ok prefix /\ (forall k, fits 64 (sys k)).

Inductive stack_reachable : PoolNet -> Prop :=
| stack_start ws :
    Forall stack_node_start ws -> NoDup ((fun w => p_prefix (w_self w)) <$> ws) ->
    stack_reachable (mkPoolNet ((fun w => mkPool w None []) <$> ws) [])
| stack_next N N' : stack_reachable N -> stack_step N N' -> stack_reachable N'.

(** *** What the backends report is what was sent *)

Lemma sent_datagram_spec N d : sent_datagram N d -> in_flight (net_of N) d /\ len d <= max_frame.
Proof.
  intros (P & e & l & dg & HP & He & El & Hdg & ->). pose proof (ep_ok e) as Hok. rewrite El in Hok.
  destruct Hok as [_ Hw]. destruct (Hw dg Hdg) as [Hle [p Hp]]. split; [|done].
  exists (pool_world P), e, (p, dg.2). split_and!; [by apply list_elem_of_fmap_2|done| |done].
  simpl. by rewrite El.
Qed.

(** What [recv_loop] passes on as bytes. *)
Lemma recv_bytes u now ip port d u' p f :
  recv_datagram u now ip port d = (u', Some (on_bytes p f)) ->
  u' = u /\ f = take (Z.to_nat (udp_max_payload (u_config u) + 64)) d.
Proof.
  unfold recv_datagram. destruct (_ <=? 0); [done|]. destruct (_ && _); [done|]. destruct (is_presence _).
  - destruct (negb _); [done|]. by destruct (map_find _ _).
  - destruct (map_find _ _); [|done]. by intros [= <- _ <-].
Qed.

(** A datagram of a participant is passed on whole. *)
Lemma on_air_heard N l now ip port d u' p f :
  net_ok (net_of N) -> link_ok (OnUdp l) -> on_air N d ->
  recv_datagram (ul_udp l) now ip port d = (u', Some (on_bytes p f)) ->
  heard N f /\ (sent_datagram N d -> f = d).
Proof.
  intros Hn [Hmax _] Hair [_ ->]%recv_bytes. rewrite Hmax.
  assert (Hd : sent_datagram N d -> take (Z.to_nat (max_frame + 64)) d = d).
  { intros [_ Hle]%sent_datagram_spec. apply take_ge. lia. }
  split; [|done]. destruct Hair as [Hs|[Hb Hf]].
  - rewrite Hd by done. apply sent_datagram_spec in Hs as [Hin _]. split; [|by left]. apply (in_flight_true _ _ Hn Hin).
  - split; [|by right]. by apply Forall_take.
Qed.

Lemma backend_allowed N e l' calls k c :
  net_ok (net_of N) -> backend_step N (ep_link e) l' calls -> c ∈ calls ->
  call_allowed (net_of N) (event_op k c) /\ (forall p, op_pre (event_op k c) p) /\ harmless (event_op k c) = true.
Proof.
  intros Hn Hs Hc. assert (Hb : forall p d, c = on_bytes p d -> heard N d).
  { intros p d ->. destruct Hs as [ul now ip port d0 u' call El Hr Hair E|ul now u' dead El Hr E|bl b' calls El Hw].
    - destruct call as [c|]; simpl in Hc; [apply list_elem_of_singleton in Hc as <-|by apply not_elem_of_nil in Hc].
      pose proof (ep_ok e) as Hok. rewrite El in Hok. by apply (on_air_heard N ul now ip port d0 u' p d).
    - apply list_elem_of_fmap in Hc as (q & ? & _). done.
    - destruct Hw as [| fd nid option b' shut up _ _ _ Eb|fd b' down _ Es|fd data _ Hh| |]; try by apply not_elem_of_nil in Hc.
      + exfalso. revert Eb. unfold on_bind. case_bool_decide; [intros [= _ _ <-]; by apply not_elem_of_nil in Hc|].
        cbv zeta. destruct (_ <? 0); [intros [= _ _ <-]; by apply list_elem_of_singleton in Hc|].
        destruct (negb _); intros [= _ _ <-]; by apply not_elem_of_nil in Hc.
      + exfalso. revert Es. unfold on_shutdown. destruct (_ =? _); [intros [= _ <-]; by apply not_elem_of_nil in Hc|].
        intros [= _ <-]. destruct (negb _); [by apply list_elem_of_singleton in Hc|by apply not_elem_of_nil in Hc].
      + revert Hc. unfold on_bytes_received. destruct (find _ _); [|by intros ?%not_elem_of_nil].
        destruct (negb _); [|by intros ?%not_elem_of_nil]. intros Hc%list_elem_of_singleton. by injection Hc as _ ->. }
  destruct c as [p|p|p d]; simpl; [done..|]. destruct (Hb p d eq_refl) as [? ?]. done.
Qed.

(** *** Every step is some steps of the network of pools *)

Lemma harmless_event k c : harmless (event_op k c) = true.
Proof. by destruct c. Qed.

Lemma may_spawn_later op op' P :
  harmless op = true -> harmless op' = true -> may_spawn op P -> may_spawn op (spawn op' P).
Proof.
  intros H1 H2 [Hpre Hall]. split; [done|]. intros t. simpl. rewrite elem_of_app, list_elem_of_singleton.
  intros [Ht| ->]; [by apply Hall|]. intros _. by apply harmless_compatible.
Qed.

Lemma spawn_all_steps N i P ops :
  pn_pools N !! i = Some P ->
  (forall op, op ∈ ops -> call_allowed (net_of N) op /\ may_spawn op P /\ harmless op = true) ->
  rtc pool_step N (mkPoolNet (<[i := spawn_all ops P]> (pn_pools N)) (pn_published N)) /\
  net_of (mkPoolNet (<[i := spawn_all ops P]> (pn_pools N)) (pn_published N)) = net_of N.
Proof.
  revert N P. induction ops as [|op ops IH]; intros N P Hi Hall.
  - assert (E : mkPoolNet (<[i := spawn_all [] P]> (pn_pools N)) (pn_published N) = N).
    { unfold spawn_all. simpl. rewrite app_nil_r. destruct N, P. simpl in *. by rewrite list_insert_id. }
    by rewrite E.
  - destruct (Hall op) as (Hal & Hsp & Hh); [left|].
    set (N1 := mkPoolNet (<[i := spawn op P]> (pn_pools N)) (pn_published N)).
    assert (E1 : net_of N1 = net_of N) by (by apply spawn_net_of).
    assert (Hi1 : pn_pools N1 !! i = Some (spawn op P)) by (apply list_lookup_insert_eq; by eapply lookup_lt_Some).
    destruct (IH N1 (spawn op P) Hi1) as [Hs E].
    { intros op' Hin. destruct (Hall op') as (Hal' & Hsp' & Hh'); [by right|]. rewrite E1. split_and!; [done| |done].
      by apply may_spawn_later. }
    assert (Eq : mkPoolNet (<[i := spawn_all ops (spawn op P)]> (pn_pools N1)) (pn_published N1) =
      mkPoolNet (<[i := spawn_all (op :: ops) P]> (pn_pools N)) (pn_published N)).
    { unfold N1. cbn [pn_pools pn_published]. rewrite list_insert_insert_eq. f_equal. f_equal. unfold spawn_all, spawn. simpl.
      by rewrite <- app_assoc. }
    rewrite <- Eq. split; [|by rewrite E]. eapply rtc_l; [|exact Hs]. by apply ps_call.
Qed.

Lemma backend_step_handed N l l' calls : backend_step N l l' calls -> link_handed l' = link_handed l.
Proof. by destruct 1; subst. Qed.

Lemma with_endpoint_moved w k e e' :
  w_transports w !! k = Some e -> link_handed (ep_link e') = link_handed (ep_link e) ->
  backend_moved w (with_endpoint w k e').
Proof.
  intros Hk E. split; [done..|]. simpl. rewrite list_fmap_insert. apply list_insert_id.
  rewrite list_lookup_fmap, Hk. simpl. by rewrite E.
Qed.

(** The calls of a step start first; they do not show in the network. *)
Lemma stack_step_pool N N' :
  net_ok (net_of N) -> stack_step N N' ->
  exists N1, rtc pool_step N N1 /\ net_of N1 = net_of N /\ pool_step N1 N'.
Proof.
  intros Hn [i P op Hi Ha Hsp Hty|i P j op p P' Hi Hin Hroom Ht E|i P k e e' calls Hi Hk Hs Hc].
  - exists N. split_and!; [done..|]. apply ps_call; [done..|]. by destruct op.
  - exists N. split_and!; [done..|]. by apply (ps_move N i P j op p P').
  - set (P1 := spawn_all (event_op k <$> calls) P). exists (mkPoolNet (<[i := P1]> (pn_pools N)) (pn_published N)).
    destruct (spawn_all_steps N i P (event_op k <$> calls) Hi) as [Hrun En].
    { intros op (c & -> & Hin)%list_elem_of_fmap. destruct (backend_allowed N e _ calls k c Hn Hs Hin) as (Hal & Hpre & Hh).
      split_and!; [done| |done]. split; [apply Hpre|]. intros t Ht Hf. by apply Hc. }
    split_and!; [done..|]. rewrite <- (list_insert_insert_eq (pn_pools N) i (set_world (with_endpoint (pool_world P) k e') P1) P1).
    apply (ps_backend (mkPoolNet (<[i := P1]> (pn_pools N)) (pn_published N)) i P1); simpl.
    + apply list_lookup_insert_eq. by eapply lookup_lt_Some.
    + apply (with_endpoint_moved _ k e); [done|by eapply backend_step_handed].
Qed.

Lemma pool_steps_reachable N N' : pool_net_reachable N -> rtc pool_step N N' -> pool_net_reachable N'.
Proof. intros HN Hs. induction Hs as [|N1 N2 N3 H12 _ IH]; [done|]. apply IH. by eapply pool_net_next. Qed.

Lemma udp_endpoint_empty cfg h e : udp_endpoint cfg h = Some e -> link_handed (ep_link e) = [].
Proof.
  unfold udp_endpoint. generalize (udp_start_ok cfg h). destruct (udp_start cfg h); [|done]. by intros H [= <-].
Qed.

Lemma dsoftbus_endpoint_empty h e : dsoftbus_endpoint h = Some e -> link_handed (ep_link e) = [].
Proof.
  unfold dsoftbus_endpoint. generalize (dsoftbus_start_ok h). destruct (dsoftbus_start h) as [b []]; [|done]. by intros H [= <-].
Qed.

(** [create] succeeds, with transports that were handed nothing. *)
Lemma create_node_new cfg h prefix sys steady :
  exists ts, create_node cfg h prefix sys steady = Done (Some (new_world prefix ts (cfg_test_send_hook cfg) sys steady)) /\
    forall e, e ∈ ts -> link_handed (ep_link e) = [].
Proof.
  assert (Hu : forall e, (if cfg_use_udp_loopback cfg then udp_endpoint cfg h else None) = Some e -> link_handed (ep_link e) = []).
  { intros e. destruct (cfg_use_udp_loopback cfg); [apply udp_endpoint_empty|done]. }
  assert (Hb : forall e, (if h_with_dsoftbus h && cfg_use_dsoftbus cfg then dsoftbus_endpoint h else None) = Some e ->
    link_handed (ep_link e) = []).
  { intros e. destruct (_ && _); [apply dsoftbus_endpoint_empty|done]. }
  assert (Ec : create_node cfg h prefix sys steady = create prefix (cfg_test_send_hook cfg) sys steady
    ((fun e => (e, true)) <$> (if cfg_use_udp_loopback cfg then udp_endpoint cfg h else None))
    ((fun e => (e, true)) <$> (if h_with_dsoftbus h && cfg_use_dsoftbus cfg then dsoftbus_endpoint h else None))).
  { unfold create_node. by destruct (cfg_use_udp_loopback cfg), (h_with_dsoftbus h && cfg_use_dsoftbus cfg). }
  rewrite Ec. clear Ec. revert Hu Hb.
  generalize (if cfg_use_udp_loopback cfg then udp_endpoint cfg h else None).
  generalize (if h_with_dsoftbus h && cfg_use_dsoftbus cfg then dsoftbus_endpoint h else None). intros ob ou Hu Hb.
  exists (opt_list ou ++ opt_list ob). split; [by destruct ou, ob|]. intros e.
  rewrite elem_of_app. intros [He|He].
  - destruct ou as [e'|]; [|by apply not_elem_of_nil in He]. apply list_elem_of_singleton in He as ->. by apply Hu.
  - destruct ob as [e'|]; [|by apply not_elem_of_nil in He]. apply list_elem_of_singleton in He as ->. by apply Hb.
Qed.

Lemma stack_node_starts w : stack_node_start w -> node_start w.
Proof.
  intros (cfg & h & prefix & sys & steady & E & Hl & Hb & Hc).
  destruct (create_node_new cfg h prefix sys steady) as (ts & E' & Hts). rewrite E in E'. injection E' as ->.
  by exists prefix, ts, (cfg_test_send_hook cfg), sys, steady.
Qed.

Lemma stack_reachable_pool N : stack_reachable N -> pool_net_reachable N.
Proof.
  induction 1 as [ws Hall Hnd|N N' _ IH Hs].
  - apply pool_net_start; [|done]. eapply Forall_impl; [exact Hall|]. apply stack_node_starts.
  - destruct (stack_step_pool N N') as (N1 & Hrun & _ & H1); [by apply pool_net_reachable_ok|done|].
    eapply pool_net_next; [|exact H1]. by eapply pool_steps_reachable.
Qed.
End stack.

(** ** The UDP link between two backends *)

Definition same_host (u : Udp) (ip : Z) : bool := bool_decide (ip ∈ u_self_addrs u).
(** Whom a backend takes a datagram from [ip] and [port] to be from. *)
Definition sender_key (u : Udp) (ip port : Z) : PeerId := make_peer_key (if same_host u ip then kLoopbackIp else ip) port.


Lemma decode_header_first f h : decode_header f = Done h -> is_presence f = false /\ 12 <= len f.
Proof.
  unfold decode_header, kHeaderSize. destruct (Z.ltb_spec (len f) 12) as [|Hl]; [done|].
  destruct f as [|z f]; [simpl in Hl; lia|].
  assert (E0 : load_u8 (z :: f) 0 = Done z) by (unfold load_u8, load; by rewrite decide_True by lia).
  rewrite E0. cbn [mbind res_bind].
  destruct (Z.eqb_spec z 77) as [->|Hne]; intros Hd; (split; [|done]).
  - unfold is_presence. rewrite (bool_decide_false (take 5 _ = _)) by done. apply andb_false_r.
  - exfalso. revert Hd. destruct (load_u8 _ 1) as [b1| |]; [|done..]. destruct (load_u8 _ 2) as [b2| |]; [|done..].
    by destruct (load_u8 _ 3) as [b3| |].
Qed.

(** A presence datagram poses as nobody's frame. *)
Lemma presence_undecodable c k h : decode_header (take k (presence_packet c)) <> Done h.
Proof.
  intros Hd. pose proof Hd as [Hp Hl]%decode_header_first. assert (Hk : take k (presence_packet c) = presence_packet c).
  { apply take_ge. rewrite length_take in Hl. change (length (presence_packet c)) with 12%nat in *. lia. }
  rewrite Hk in Hp. revert Hp. unfold is_presence. change (len (presence_packet c)) with 12. rewrite Z.eqb_refl.
  by rewrite bool_decide_true.
Qed.

Lemma presence_foreign {T} `{LoggedTransport T} (n : Net (T := T)) c k : foreign n (take k (presence_packet c)).
Proof.
  assert (Hno : forall h, decode_header (take k (presence_packet c)) <> Done h) by apply presence_undecodable.
  revert Hno. generalize (take k (presence_packet c)). intros f Hno. split; intros *; unfold decode_data, decode_data_frag, decode_announce;
    destruct (decode_header f); try done; by destruct (Hno a).
Qed.

Lemma presence_bytes_ok c : bytes_ok (presence_packet c).
Proof.
  unfold presence_packet. apply bytes_ok_app; [by apply bytes_ok_check|]. apply bytes_ok_app; [|apply zeros_bytes_ok].
  apply put_u32_bytes_ok.
Qed.

(** Any backend's presence can be on the air. *)
Lemma presence_on_air N c : on_air N (presence_packet c).
Proof. right. split; [apply presence_bytes_ok|]. intros k. apply presence_foreign. Qed.

(** The first presence of the same domain makes the sender known; it is not cut. *)
Lemma recv_presence u now ip port c :
  0 <= udp_max_payload (u_config u) -> (port =? u_port u) && same_host u ip = false ->
  recv_datagram u now ip port (presence_packet c) =
    if bool_decide (put_u32 (domain_id c) = put_u32 (domain_id (u_config u))) then
      (set_udp_peers (map_set (sender_key u ip port) now (u_peers u)) u,
       match map_find (sender_key u ip port) (u_peers u) with
       | None => Some (on_peer_up (sender_key u ip port)) | Some _ => None end)
    else (u, None).
Proof.
  intros Hm Hown. unfold recv_datagram. rewrite take_ge by (change (length (presence_packet c)) with 12%nat; lia).
  change (len (presence_packet c) <=? 0) with false. cbv iota zeta. fold (same_host u ip). rewrite Hown.
  fold (sender_key u ip port). assert (Hp : is_presence (presence_packet c) = true).
  { unfold is_presence. change (len (presence_packet c)) with 12. by rewrite bool_decide_true. }
  rewrite Hp. change (take 4 (drop 5 (presence_packet c))) with (put_u32 (domain_id c)). by case_bool_decide.
Qed.

(** A frame within the limit, from a sender that is known, is passed on whole. *)
Lemma recv_frame u now ip port f h :
  (port =? u_port u) && same_host u ip = false -> decode_header f = Done h -> len f <= udp_max_payload (u_config u) ->
  recv_datagram u now ip port f =
    (u, match map_find (sender_key u ip port) (u_peers u) with
        | None => None | Some _ => Some (on_bytes (sender_key u ip port) f) end).
Proof.
  intros Hown [Hp Hl]%decode_header_first Hle. unfold recv_datagram. rewrite take_ge by lia.
  rewrite (proj2 (Z.leb_gt _ _)) by lia. cbv iota zeta. fold (same_host u ip). rewrite Hown.
  fold (sender_key u ip port). rewrite Hp. by destruct (map_find _ _).
Qed.

Lemma put_u32_inj a b : fits 32 a -> fits 32 b -> put_u32 a = put_u32 b -> a = b.
Proof.
  intros Ha Hb E. assert (H : forall v, fits 32 v -> get_u32 (put_u32 v) 0 = Done v) by (intros v Hv; by apply get_u32_put).
  pose proof (H a Ha) as H1. rewrite E, (H b Hb) in H1. by injection H1.
Qed.

(** ** Frames that do not fit

    The datagrams that left each transport. *)

Definition wires (w : World Endpoint) : list (list Datagram) :=
  (fun e => match ep_link e with OnUdp l => ul_wire l | OnBus _ => [] end) <$> w_transports w.

Lemma runs_send_frame_oversize peer f w :
  max_frame < len f -> runs (fun _ w' => wires w' = wires w /\ w_self w' = w_self w) (send_frame peer f) w.
Proof.
  intros Hlen. unfold runs, send_frame. destruct (match w_hook w with Some hook => hook f | None => false end); [done|].
  destruct (w_transports w !! _) as [e|] eqn:E; [|done]. cbn. split; [|done]. unfold wires. cbn [w_transports].
  rewrite list_fmap_insert. apply list_insert_id. rewrite list_lookup_fmap, E. cbn. f_equal. pose proof (ep_ok e) as Hok.
  destruct (ep_link e) as [l|l]; simpl; [|by destruct (bus_send _ _ _)]. destruct Hok as [Hmax _].
  unfold TransportUdp.send, max_payload_udp. rewrite Hmax, (proj2 (Z.ltb_lt _ _)) by lia. by rewrite orb_true_r.
Qed.

Lemma runs_announce_oversize peer f w :
  encode_announce (snapshot_locked (w_self w)) (p_announce_seq (w_self w)) = Done f -> max_frame < len f ->
  runs (fun _ w' => wires w' = wires w) (send_announce peer) w.
Proof.
  intros E Hlen. unfold send_announce. apply runs_self_bind.
  eapply (runs_bind (fun f' w' => f' = f /\ w' = w)); [by eapply runs_encoded|]. intros f' w' [-> ->]. cbv beta.
  eapply runs_bind; [by apply runs_send_frame_oversize|]. by intros ok w' [Hw _].
Qed.

Lemma runs_each_oversize peers f w :
  max_frame < len f ->
  runs (fun _ w' => wires w' = wires w) (for_each peers (fun peer => _ ← send_frame peer f; mret tt)) w.
Proof.
  intros Hlen. revert w. induction peers as [|peer peers IH]; intros w; cbn [for_each]; [done|].
  apply (runs_bind (fun _ w1 => wires w1 = wires w)).
  { eapply runs_bind; [by apply runs_send_frame_oversize|]. by intros ok w1 [Hw1 _]. }
  intros [] w1 Hw1. cbv beta. eapply runs_mono; [apply IH|]. intros a w2 E. by rewrite E.
Qed.

(** ** Frames that fit

    A running UDP backend whose socket accepts datagrams takes every frame within its limit
    for a peer it knows, however many it was handed before. *)

Lemma sends_udp l t ul :
  ep_link t = OnUdp ul ->
  exists ul', ep_link (sends t l) = OnUdp ul' /\ ul_udp ul' = ul_udp ul /\ ul_sendto ul' = ul_sendto ul.
Proof.
  revert t ul. induction l as [|pf l IH]; intros t ul E; [by exists ul|]. change (sends t (pf :: l)) with (sends (fst (transport_send t pf.1 pf.2)) l).
  assert (Es : exists ul', ep_link (fst (transport_send t pf.1 pf.2)) = OnUdp ul' /\ ul_udp ul' = ul_udp ul /\ ul_sendto ul' = ul_sendto ul).
  { cbn. rewrite E. simpl. destruct (TransportUdp.send _ _ _); simpl; by eexists. }
  destruct Es as (ul1 & E1 & Eu & Et). destruct (IH _ _ E1) as (ul2 & E2 & Eu2 & Et2). exists ul2. split; [done|]. split; congruence.
Qed.

Lemma udp_accepting (w : World Endpoint) l peer e ul :
  w_transports w !! peer_index peer = Some e -> ep_link e = OnUdp ul -> u_running (ul_udp ul) = true ->
  is_Some (map_find (peer_backend_id peer) (u_peers (ul_udp ul))) -> (forall n, ul_sendto ul n = true) -> accepting w l peer.
Proof.
  intros Et El Hrun [last Hk] Hso l1 f l2 _ Hle. exists e. split; [done|].
  destruct (sends_udp (through (peer_index peer) l1) e ul El) as (ul' & E' & Eu & Es). cbn. rewrite E'. simpl.
  unfold Publish.limit in Hle. rewrite Et in Hle. cbn in Hle. rewrite El in Hle. simpl in Hle.
  unfold TransportUdp.send. rewrite Eu, Hrun, Hk. simpl. rewrite (proj2 (Z.ltb_ge _ _)) by exact Hle. simpl. by rewrite Es.
Qed.

(** ** Running a network of stacks *)

Lemma recv_config u now ip port d : u_config (fst (recv_datagram u now ip port d)) = u_config u.
Proof.
  unfold recv_datagram. destruct (_ <=? 0); [done|]. destruct (_ && _); [done|]. destruct (is_presence _).
  - by destruct (negb _).
  - by destruct (map_find _ _).
Qed.

Lemma with_udp_ok l u : link_ok (OnUdp l) -> u_config u = u_config (ul_udp l) -> link_ok (with_udp l u).
Proof. intros [Hm Hw] E. split; [by rewrite <- E in Hm|done]. Qed.

Definition hear_endpoint (e : Endpoint) (now ip port : Z) (d : list Z) : option (Endpoint * option ListenerEvent) :=
  match ep_link e as l return link_ok l -> _ with
  | OnUdp l => fun Hok =>
      if u_running (ul_udp l) then
        Some (mkEndpoint (with_udp l (fst (recv_datagram (ul_udp l) now ip port d)))
                (with_udp_ok l _ Hok (recv_config _ _ _ _ _)), snd (recv_datagram (ul_udp l) now ip port d))
      else None
  | OnBus _ => fun _ => None
  end (ep_ok e).

(** The UDP backend [k] of participant [i] receives a datagram. *)
Definition stack_hear (N : PoolNet (T := Endpoint)) (i k : nat) (now ip port : Z) (d : list Z) : option PoolNet :=
  P ← pn_pools N !! i;
  e ← w_transports (pool_world P) !! k;
  x ← hear_endpoint e now ip port d;
  if forallb (fun t => finished t.2 || harmless t.1) (pool_threads P) then
    Some (mkPoolNet
      (<[i := set_world (with_endpoint (pool_world P) k (fst x)) (spawn_all (event_op k <$> opt_list (snd x)) P)]> (pn_pools N))
      (pn_published N))
  else None.

Lemma stack_hear_step N i k now ip port d N' :
  on_air N d -> stack_hear N i k now ip port d = Some N' -> stack_step N N'.
Proof.
  intros Hair. unfold stack_hear. destruct (pn_pools N !! i) as [P|] eqn:Ei; [|done]. simpl.
  destruct (w_transports (pool_world P) !! k) as [e|] eqn:Ek; [|done]. simpl.
  destruct (hear_endpoint e now ip port d) as [[e' call]|] eqn:Eh; [|done]. simpl.
  destruct (forallb _ _) eqn:Ef; [|done]. intros [= <-]. apply (ss_backend N i P k e e' (opt_list call)); [done|done| |].
  - revert Eh. destruct e as [[l|l] Hok]; unfold hear_endpoint; cbn [ep_link ep_ok]; [|done].
    destruct (u_running (ul_udp l)) eqn:Er; [|done]. intros [= <- <-]. cbn [ep_link].
    apply (bk_recv N _ l now ip port d); [done|done|done|]. by destruct (recv_datagram _ _ _ _ _).
  - intros c t _ Ht Hfin. rewrite forallb_forall in Ef. apply list_elem_of_In, Ef in Ht. rewrite Hfin in Ht.
    apply harmless_compatible; [by destruct c|done].
Qed.

(** Acts: a call, up to [n] acts of a thread, the presence of [j] at [i], and the arrival at
    [i] of datagram [m] of [j].  Participants have one backend and an address each. *)
Inductive StackAct :=
| SCall (i : nat) (op : Op)
| SGo (i t n : nat)
| SPresence (i j : nat)
| SHear (i j m : nat).

Definition udp_of (N : PoolNet (T := Endpoint)) (j : nat) : option UdpLink :=
  P ← pn_pools N !! j; e ← w_transports (pool_world P) !! 0%nat;
  match ep_link e with OnUdp l => Some l | OnBus _ => None end.

Definition stack_exec (addr : nat -> Z) (N : PoolNet (T := Endpoint)) (a : StackAct) : option PoolNet :=
  match a with
  | SCall i op =>
      P ← pn_pools N !! i;
      if app_call op && op_allowedb op (w_self (pool_world P)) then pool_call N i op else None
  | SGo i t n => Some (pool_go N i t n)
  | SPresence i j =>
      l ← udp_of N j; stack_hear N i 0 1 (addr j) (u_port (ul_udp l)) (presence_packet (u_config (ul_udp l)))
  | SHear i j m => l ← udp_of N j; dg ← ul_wire l !! m; stack_hear N i 0 1 (addr j) (u_port (ul_udp l)) dg.2
  end.
Definition stack_run (addr : nat -> Z) (N : PoolNet) (acts : list StackAct) : option PoolNet :=
  foldl (fun o a => N' ← o; stack_exec addr N' a) (Some N) acts.

Lemma stack_move_step N i t N' : pool_move N i t = Some N' -> stack_step N N'.
Proof.
  unfold pool_move. destruct (pn_pools N !! i) as [P|] eqn:Ei; [|done]. simpl.
  destruct (pool_threads P !! t) as [[op p]|] eqn:Et; [|done]. simpl. destruct (_ && _) eqn:Er; [|done].
  apply andb_prop in Er as [Er Ea]. destruct (advance t P) as [[P'| |]|] eqn:E; [|done..]. intros [= <-].
  eapply ss_move; [done|by apply in_range_check|by zbool|done|done].
Qed.

Lemma stack_go_reachable N i t n : stack_reachable N -> stack_reachable (pool_go N i t n).
Proof.
  revert N. induction n as [|n IH]; intros N HN; simpl; [done|]. destruct (pool_move N i t) as [N'|] eqn:E; [|done].
  apply IH. eapply stack_next; [exact HN|by eapply stack_move_step].
Qed.

Lemma udp_of_spec N j l : udp_of N j = Some l -> forall dg, dg ∈ ul_wire l -> sent_datagram N dg.2.
Proof.
  unfold udp_of. destruct (pn_pools N !! j) as [P|] eqn:Ej; [|done]. simpl.
  destruct (w_transports (pool_world P) !! 0%nat) as [e|] eqn:Ee; [|done]. simpl.
  destruct (ep_link e) as [ul|] eqn:El; [|done]. intros [= <-] dg Hdg. exists P, e, ul, dg.
  split_and!; try done; by eapply list_elem_of_lookup_2.
Qed.

Lemma stack_exec_reachable addr N a N' : stack_reachable N -> stack_exec addr N a = Some N' -> stack_reachable N'.
Proof.
  intros HN. destruct a as [i op|i t n|i j|i j m]; simpl.
  - destruct (pn_pools N !! i) as [P|] eqn:Ei; [|done]. simpl. destruct (_ && _) eqn:Ea; [|done]. apply andb_prop in Ea as [Ha Hop].
    unfold pool_call. rewrite Ei. simpl. destruct (may_spawn_b op P) eqn:Esp; [|done]. intros [= <-].
    eapply stack_next; [exact HN|]. apply ss_call; [done|done|by apply may_spawn_check|].
    destruct op; try done; simpl in *; [by apply names_typedb_sound..|].
    apply andb_true_iff in Hop as [? ?]; split; by apply bytes_ok_check.
  - intros [= <-]. by apply stack_go_reachable.
  - destruct (udp_of N j) as [l|] eqn:El; [|done]. simpl. intros E. eapply stack_next; [exact HN|].
    eapply stack_hear_step; [apply presence_on_air|exact E].
  - destruct (udp_of N j) as [l|] eqn:El; [|done]. simpl. destruct (ul_wire l !! m) as [dg|] eqn:Em; [|done]. simpl.
    intros E. eapply stack_next; [exact HN|]. eapply stack_hear_step; [|exact E]. left.
    eapply udp_of_spec; [exact El|by eapply list_elem_of_lookup_2].
Qed.

Lemma stack_run_reachable addr N acts N' : stack_reachable N -> stack_run addr N acts = Some N' -> stack_reachable N'.
Proof.
  intros HN. unfold stack_run. revert N HN. induction acts as [|a acts IH]; intros N HN; simpl; [by intros [= <-]|].
  destruct (stack_exec addr N a) as [N1|] eqn:E.
  - apply IH. by eapply stack_exec_reachable.
  - intros Hr. exfalso. clear -Hr. induction acts as [|a' acts IH]; simpl in Hr; done || by apply IH.
Qed.

(** Two participants on one host: the second takes the next port.  Presence, the
    announcements and a sample travel as datagrams. *)
Definition test_host (j : Z) : Host := mkHost true (fun port => port =? 47811 + j) None (fun _ => true) false false (-1) false.
Definition stack_node (j : Z) : World Endpoint :=
  match create_node default_config (test_host j) (replicate 12 (j + 1)) (fun _ => 1000000) (fun _ => 0) with
  | Done (Some w) => w
  | _ => new_world (replicate 12 (j + 1)) [] None (fun _ => 1000000) (fun _ => 0)
  end.
Definition stack_net0 : PoolNet := mkPoolNet ((fun w => mkPool w None []) <$> [stack_node 0; stack_node 1]) [].
Definition stack_acts : list StackAct :=
  [SCall 0 (CreateWriter 100 [116] [105] preset_default); SGo 0 0 30;
   SCall 1 (CreateReader 200 [116] [105] preset_default false); SGo 1 0 30;
   SPresence 0 1; SPresence 1 0; SGo 0 1 30; SGo 1 1 30; SHear 0 1 0; SHear 1 0 0; SGo 0 2 30; SGo 1 2 30;
   SCall 0 (Write 100 (Some [65]) 1); SGo 0 3 30; SHear 1 0 1; SGo 1 3 30].
Definition stack_net (k : nat) : PoolNet := default stack_net0 (stack_run (fun _ => kLoopbackIp) stack_net0 (take k stack_acts)).

Lemma stack_node_created j : fits 8 (j + 1) -> stack_node_start (stack_node j).
Proof.
  intros Hj. exists default_config, (test_host j), (replicate 12 (j + 1)), (fun _ => 1000000), (fun _ => 0).
  split; [|split; [done|split; [by apply Forall_replicate|intros k; ulia]]]. unfold stack_node.
  by destruct (create_node_new default_config (test_host j) (replicate 12 (j + 1)) (fun _ => 1000000) (fun _ => 0)) as (ts & -> & _).
Qed.

Lemma stack_net0_reachable : stack_reachable stack_net0.
Proof.
  apply stack_start; [|apply NoDup_ListNoDup; by repeat constructor; simpl; intuition discriminate].
  constructor; [by apply stack_node_created|]. constructor; [by apply stack_node_created|constructor].
Qed.

Lemma stack_net_reachable k : stack_reachable (stack_net k).
Proof.
  unfold stack_net. destruct (stack_run _ stack_net0 (take k stack_acts)) as [N|] eqn:E; simpl; [|apply stack_net0_reachable].
  by eapply stack_run_reachable; [apply stack_net0_reachable|].
Qed.

Definition udp_at (port : Z) (peers : std_map PeerId Z) : Udp :=
  mkUdp (transport_config default_config) port true peers [kLoopbackIp] [].

(** What waits at the reader of the second participant. *)
Definition stack_queue (N : PoolNet (T := Endpoint)) : option (list (list Z)) :=
  P ← pn_pools N !! 1%nat; r ← map_find 200 (p_readers (w_self (pool_world P))); Some (qs_data <$> r_queue r).

(** The first participant knows the second, and is in the middle of a write. *)
Definition stack_busy : PoolNet :=
  default stack_net0 (stack_run (fun _ => kLoopbackIp) stack_net0 (take 13 stack_acts ++ [SGo 0 3 2])).

Lemma stack_busy_reachable : stack_reachable stack_busy.
Proof.
  unfold stack_busy. destruct (stack_run _ stack_net0 _) as [N|] eqn:E; simpl; [|apply stack_net0_reachable].
  by eapply stack_run_reachable; [apply stack_net0_reachable|].
Qed.

(** A running UDP backend that knows [peer]: what its socket answers. *)
Definition udp_ready (peer : PeerId) (w : World Endpoint) : option (nat -> bool) :=
  e ← w_transports w !! peer_index peer;
  match ep_link e with
  | OnUdp l => if u_running (ul_udp l) then (fun _ => ul_sendto l) <$> map_find (peer_backend_id peer) (u_peers (ul_udp l)) else None
  | OnBus _ => None
  end.

Lemma udp_ready_accepting w l peer : udp_ready peer w = Some (fun _ => true) -> accepting w l peer.
Proof.
  unfold udp_ready. destruct (w_transports w !! peer_index peer) as [e|] eqn:Et; [|done]. simpl.
  destruct (ep_link e) as [ul|] eqn:El; [|done]. destruct (u_running _) eqn:Er; [|done].
  destruct (map_find _ _) as [last|] eqn:Ek; [|done]. intros [= Es].
  apply (udp_accepting w l peer e ul); [done..|by exists last|]. intros n. by rewrite Es.
Qed.

Definition busy_peer : PeerId := make_peer_id 0 (make_peer_key kLoopbackIp 47812).
Definition busy_self : PeerId := make_peer_id 0 (make_peer_key kLoopbackIp 47811).

Module StackSpec.

(** C1. The whole program implements a bus of delivery channels: participants as [init]
    builds them, over the UDP and DSoftBus backends, any number of their calls in flight,
    the receiver, the sweep, the callbacks, the poll and the lane workers of every backend
    at work, and the datagrams and channels of the network between them.  Whatever takes
    the next step, it is some steps of the abstract network of pools, and each reader sees
    a sequence of channel steps: only samples their writers published, with the bytes they
    published, a number at most once. *)
Theorem stack_implements_bus (N N' : PoolNet (T := Endpoint)) :
  stack_reachable N -> stack_step N N' ->
  pool_net_reachable N /\ rtc pool_step N N' /\ Bus.bus_step (bus_of (net_of N)) (bus_of (net_of N')).
Proof.
  intros HN%stack_reachable_pool Hs. destruct (stack_step_pool N N') as (N1 & Hrun & En & H1); [by apply pool_net_reachable_ok|done|].
  split_and!; [done|by eapply rtc_r|]. rewrite <- En. apply PoolNetSpec.overlapping_network_refines_bus; [|done].
  by eapply pool_steps_reachable.
Qed.

Lemma stack_implements_bus_witness :
  exists N', stack_step (stack_net 14) N' /\ Bus.bus_step (bus_of (net_of (stack_net 14))) (bus_of (net_of N')) /\
    stack_queue (stack_net 16) = Some [[65]].
Proof.
  destruct (stack_exec (fun _ => kLoopbackIp) (stack_net 14) (SHear 1 0 1)) as [N'|] eqn:E.
  - assert (Hs : stack_step (stack_net 14) N').
    { revert E. generalize (stack_net 14). intros N. simpl. destruct (udp_of N 0) as [l|] eqn:El; [|done]. simpl.
      destruct (ul_wire l !! 1%nat) as [dg|] eqn:Em; [|done]. simpl. intros E. eapply stack_hear_step; [|exact E]. left.
      eapply udp_of_spec; [exact El|by eapply list_elem_of_lookup_2]. }
    exists N'. split; [exact Hs|]. split; [|vm_compute; reflexivity].
    exact (proj2 (proj2 (stack_implements_bus _ _ (stack_net_reachable 14) Hs))).
  - assert (Ed : from_option (fun _ => true) false (stack_exec (fun _ => kLoopbackIp) (stack_net 14) (SHear 1 0 1)) = true)
      by (vm_compute; reflexivity). by rewrite E in Ed.
Defined.

(** Discovery over UDP: the first participant is in the middle of a write, its backend knows
    the second, and its announcement fits a datagram and is taken. *)
Lemma discovery_converges_witness :
  exists Pi Pj, pn_pools stack_busy !! 0%nat = Some Pi /\ pn_pools stack_busy !! 1%nat = Some Pj /\
  at_rest_b Pi = false /\
  let f := announce_bytes (snapshot_locked (w_self (pool_world Pi))) (p_announce_seq (w_self (pool_world Pi)) + 1) in
  let turn := tick_frames (w_self (pool_world Pi)) f in
  exists w' wb' now,
    (peer_backend_id busy_peer, f) ∈ taken_by (pool_world Pi) turn (peer_index busy_peer) /\
    entry_replaced (pool_world Pj) wb' (p_guid (w_self (pool_world Pi)))
      (mkRemote busy_self (p_announce_seq (w_self (pool_world Pi)) + 1) (snapshot_locked (w_self (pool_world Pi))) now) /\
    rtc pool_step stack_busy
      (put 1 (put 0 stack_busy (after_call AnnounceTick w' Pi)) (after_call (Receive busy_self f) wb' Pj)).
Proof.
  assert (Ei : (fun P => (calm_b P, at_rest_b P, p_peers (w_self (pool_world P)),
      p_announce_seq (w_self (pool_world P)), length (w_transports (pool_world P)),
      match w_hook (pool_world P) with Some _ => true | None => false end, Publish.limit (pool_world P) busy_peer)) <$> pn_pools stack_busy !! 0%nat =
    Some (true, false, [busy_peer], 0, 1%nat, false, max_frame)) by (vm_compute; reflexivity).
  assert (Er : udp_ready busy_peer ∘ pool_world <$> pn_pools stack_busy !! 0%nat = Some (Some (fun _ => true))) by (vm_compute; reflexivity).
  assert (Es : (fun P => snapshot_locked (w_self (pool_world P))) <$> pn_pools stack_busy !! 0%nat =
    Some (mkSnapshot (make_guid (replicate 12 1) PARTICIPANT 0) []
      [Discovery.mkEndpoint (make_guid (replicate 12 1) WRITER 1) WRITER [116] [105] preset_default 1000000])) by (vm_compute; reflexivity).
  assert (Ej : calm_b <$> pn_pools stack_busy !! 1%nat = Some true) by (vm_compute; reflexivity).
  assert (Hr0 : peer_index busy_peer = 0%nat) by (vm_compute; reflexivity).
  pose proof (stack_reachable_pool _ stack_busy_reachable) as HN. revert Ei Er Es Ej Hr0 HN. generalize stack_busy busy_peer busy_self.
  intros N pb pa Ei Er Es Ej Hr0 HN.
  destruct (pn_pools N !! 0%nat) as [Pi|] eqn:Hi; [|done].
  destruct (pn_pools N !! 1%nat) as [Pj|] eqn:Hj; [|done].
  injection Ei as Eci Eri Epi Esi Eti Ehi Eli. injection Ej as Ecj. injection Er as Er. apply (inj Some) in Es as Esn.
  exists Pi, Pj. do 3 (split; [done|]). cbv zeta.
  destruct (ConvergenceSpec.discovery_converges N 0 1 Pi Pj pb pa HN) as (w' & wb' & now & _ & _ & Htk & _ & He & Hs);
    [done|done|done|by apply calm_check|by apply calm_check|by rewrite Esi| |by rewrite Epi; left|by rewrite Esn; apply test_publisher_ok
    | | |by apply udp_ready_accepting|].
  - split; [by destruct (w_hook (pool_world Pi))|]. rewrite Epi. apply Forall_singleton. unfold reachable_peer. rewrite Eti, Hr0. lia.
  - rewrite Esn, Esi. vm_compute. reflexivity.
  - rewrite Esn, Esi, Eli. vm_compute. congruence.
  - exists w', wb', now. by split_and!.
Defined.

(** C26. The UDP link.  A presence datagram of a backend of the same domain makes its sender
    known and is reported as one new peer the first time; from then on every frame within
    the limit that the sender gives to [send] for a peer it knows leaves as one datagram,
    unchanged, to that peer's address, and is passed on there whole, never taken for a
    presence, under the identity to which the receiver's own [send] answers.  Presence
    from another domain and frames of unknown senders change nothing and reach nobody. *)
Theorem udp_link_delivers (u v : Udp) (now now' ip_u ip_v : Z) (f : list Z) (h : FrameHeader) :
  u_running u = true -> udp_max_payload (u_config u) = max_frame -> udp_max_payload (u_config v) = max_frame ->
  fits 32 (domain_id (u_config u)) -> fits 32 (domain_id (u_config v)) ->
  fits 32 ip_u -> fits 32 ip_v -> fits 16 (u_port u) -> fits 16 (u_port v) ->
  (u_port u =? u_port v) && same_host v ip_u = false ->
  decode_header f = Done h -> len f <= max_frame ->
  let key := sender_key v ip_u (u_port u) in
  let (v1, call) := recv_datagram v now ip_u (u_port u) (presence_packet (u_config u)) in
  (domain_id (u_config u) = domain_id (u_config v) ->
     known key v1 = 1 /\ call = (if known key v =? 0 then Some (on_peer_up key) else None) /\
     recv_datagram v1 now' ip_u (u_port u) f = (v1, Some (on_bytes key f)) /\
     peer_ip key = (if same_host v ip_u then kLoopbackIp else ip_u) /\ peer_port key = u_port u) /\
  (known (make_peer_key ip_v (u_port v)) u = 1 ->
     TransportUdp.send u (make_peer_key ip_v (u_port v)) f = Some (ip_v, u_port v, f)) /\
  (domain_id (u_config u) <> domain_id (u_config v) -> v1 = v /\ call = None) /\
  (known key v = 0 -> recv_datagram v now' ip_u (u_port u) f = (v, None)).
Proof.
  intros Hrun Hmu Hmv Hdu Hdv Hiu Hiv Hpu Hpv Hown Hf Hl. cbv zeta. set (key := sender_key v ip_u (u_port u)).
  assert (Hkey : forall ip port, fits 32 ip -> fits 16 port -> peer_ip (make_peer_key ip port) = ip /\ peer_port (make_peer_key ip port) = port).
  { intros ip port Hip Hport. rewrite make_peer_key_eq by done. unfold peer_ip, peer_port. split.
    - rewrite Z.shiftr_div_pow2, Z.div_add_l, Z.div_small by ulia. rewrite Z.add_0_r. by apply wrap_id.
    - change 0xFFFF with (Z.ones 16). rewrite Z.land_ones, Z.add_comm, Z_mod_plus_full, Z.mod_small by ulia. by apply wrap_id. }
  destruct (recv_datagram v now ip_u (u_port u) (presence_packet (u_config u))) as [v1 call] eqn:E. split_and!.
  - intros Ed. rewrite recv_presence, bool_decide_true in E by (by rewrite ?Hmv, ?Ed). injection E as <- <-.
    change (sender_key (set_udp_peers _ v)) with (sender_key v). fold key. unfold known. cbn [u_peers set_udp_peers]. rewrite map_find_set_eq.
    split_and!; [done|by destruct (map_find key (u_peers v))| |apply Hkey; [by destruct (same_host v ip_u)|done]..].
    erewrite (recv_frame (set_udp_peers _ v)); [|done|exact Hf|by rewrite <- Hmv in Hl].
    change (sender_key (set_udp_peers _ v)) with (sender_key v). fold key. cbn [u_peers set_udp_peers]. by rewrite map_find_set_eq.
  - unfold known, TransportUdp.send, max_payload_udp. rewrite Hrun, Hmu, (proj2 (Z.ltb_ge _ _)) by lia. simpl.
    destruct (map_find _ _); [|done]. intros _. by destruct (Hkey ip_v (u_port v)) as [-> ->].
  - intros Hne. rewrite recv_presence, bool_decide_false in E; [by injection E as <- <-|by intros ?%put_u32_inj|by rewrite Hmv|done].
  - unfold known. erewrite recv_frame; [|done|exact Hf|by rewrite <- Hmv in Hl]. fold key. by destruct (map_find key (u_peers v)).
Qed.

Lemma udp_link_delivers_witness :
  let u := udp_at 47811 [(make_peer_key kLoopbackIp 47812, 3)] in
  let v := udp_at 47812 [] in
  let f := header_bytes GAP 0 0 in
  let key := make_peer_key kLoopbackIp 47811 in
  exists v1, recv_datagram v 5 kLoopbackIp 47811 (presence_packet (u_config u)) = (v1, Some (on_peer_up key)) /\
    TransportUdp.send u (make_peer_key kLoopbackIp 47812) f = Some (kLoopbackIp, 47812, f) /\
    recv_datagram v1 6 kLoopbackIp 47811 f = (v1, Some (on_bytes key f)).
Proof.
  cbv zeta. pose proof (udp_link_delivers (udp_at 47811 [(make_peer_key kLoopbackIp 47812, 3)]) (udp_at 47812 []) 5 6
    kLoopbackIp kLoopbackIp (header_bytes GAP 0 0) (mkHeader GAP 0 0) eq_refl eq_refl eq_refl
    ltac:(vm_compute; split; congruence) ltac:(vm_compute; split; congruence) ltac:(vm_compute; split; congruence)
    ltac:(vm_compute; split; congruence) ltac:(vm_compute; split; congruence) ltac:(vm_compute; split; congruence)
    eq_refl eq_refl ltac:(vm_compute; congruence)) as Hlink.
  cbv zeta in Hlink.
  destruct (recv_datagram (udp_at 47812 []) 5 kLoopbackIp (u_port (udp_at 47811 [(make_peer_key kLoopbackIp 47812, 3)]))
    (presence_packet (u_config (udp_at 47811 [(make_peer_key kLoopbackIp 47812, 3)])))) as [v1 call] eqn:E.
  destruct Hlink as (Hsame & Hsend & _). destruct (Hsame eq_refl) as (_ & Hcall & Hrecv & _).
  exists v1. split; [|split].
  - rewrite Hcall in E. exact E.
  - exact (Hsend eq_refl).
  - exact Hrecv.
Defined.

(** The announcement of a participant is one frame.  Once its nodes and endpoints no longer
    fit the limit of the backend, no UDP peer hears of them again: neither a new peer nor
    the periodic broadcast sends a single datagram, and nobody is told. *)
Theorem oversize_announce_lost (w : World Endpoint) (peer : PeerId) (f : list Z) :
  encode_announce (snapshot_locked (w_self w)) (p_announce_seq (w_self w)) = Done f -> max_frame < len f ->
  (exists w', handle_peer_up peer w = Done (tt, w') /\ wires w' = wires w) /\
  (exists w', broadcast_announce w = Done (tt, w') /\ wires w' = wires w).
Proof.
  intros E Hlen. assert (Hdone : forall m : act Endpoint unit, runs (fun _ w' => wires w' = wires w) m w ->
    exists w', m w = Done (tt, w') /\ wires w' = wires w).
  { intros m. unfold runs. destruct (m w) as [[[] w']| |]; [|done..]. intros Hw. by exists w'. }
  split; apply Hdone.
  - unfold handle_peer_up. apply runs_modify_bind.
    by apply (runs_announce_oversize peer f (with_self (set_peers (w_self w) (set_insert peer (p_peers (w_self w)))) w)).
  - unfold broadcast_announce. apply runs_self_bind.
    eapply (runs_bind (fun f' w' => f' = f /\ w' = w)); [by eapply runs_encoded|]. intros f' w' [-> ->]. cbv beta.
    by apply runs_each_oversize.
Qed.

(** A thousand nodes with names of sixty bytes do not fit. *)
Definition crowded_node : World Endpoint :=
  with_self (foldl (fun p k => add_node p [47] (put_u32 k ++ replicate 56 65)) (w_self (stack_node 0)) (seqZ 0 1000)) (stack_node 0).

Lemma oversize_announce_lost_witness :
  exists w', handle_peer_up (make_peer_id 0 (make_peer_key kLoopbackIp 47812)) crowded_node = Done (tt, w') /\
    wires w' = wires crowded_node.
Proof.
  assert (Hf : match encode_announce (snapshot_locked (w_self crowded_node)) (p_announce_seq (w_self crowded_node)) with
    | Done f => max_frame <? len f | _ => false end = true) by (vm_compute; reflexivity).
  destruct (encode_announce (snapshot_locked (w_self crowded_node)) (p_announce_seq (w_self crowded_node))) as [f| |] eqn:E;
    [|discriminate..]. apply Z.ltb_lt in Hf.
  exact (proj1 (oversize_announce_lost crowded_node (make_peer_id 0 (make_peer_key kLoopbackIp 47812)) f E Hf)).
Defined.
End StackSpec.
