(* ===== verification/E2e.v ===== *)
(** * The end-to-end example

    examples/mdds_e2e.cpp: a talker publishes numbered texts, a listener on another
    device takes them and checks that each arrives exactly once. *)

From S2P Require Import Prelude Memory StdMap Guid Qos ReaderImpl WriterImpl Reliability Channel TransportUdp.

(** ** Texts

    [char] arrays are lists of bytes.  What the program uses of [snprintf], [sscanf] and
    [atoi] with the directive [%d], in the C locale. *)

(** The decimal digits of [n] before [acc]; ten of them hold any [int]. *)
Fixpoint digits (fuel : nat) (n : Z) (acc : list Z) : list Z :=
  match fuel with
  | O => acc
  | S fuel => let acc := 48 + n mod 10 :: acc in if n <? 10 then acc else digits fuel (n / 10) acc
  end.
Definition show_int (i : Z) : list Z := if i <? 0 then 45 :: digits 10 (- i) [] else digits 10 i [].

(** "mdds-e2e-" *)
Definition tag : list Z := [109; 100; 100; 115; 45; 101; 50; 101; 45].

(** [std::snprintf(buf.data(), buf.size(), ...)] of a text: all that fits before a NUL. *)
Definition snprintf (buf text : list Z) : list Z :=
  match buf with
  | [] => []
  | _ => let n := (length text `min` (length buf - 1))%nat in take n text ++ 0 :: drop (S n) buf
  end.

(** The C string in a buffer. *)
Fixpoint c_str (s : list Z) : list Z :=
  match s with
  | [] => []
  | c :: s => if c =? 0 then [] else c :: c_str s
  end.

Definition is_digit (c : Z) : bool := (48 <=? c) && (c <=? 57).
Definition is_space (c : Z) : bool := (c =? 32) || (9 <=? c) && (c <=? 13).

Fixpoint skip_space (s : list Z) : list Z :=
  match s with
  | [] => []
  | c :: s' => if is_space c then skip_space s' else s
  end.
Fixpoint scan_digits (v : Z) (s : list Z) : Z :=
  match s with
  | [] => v
  | c :: s => if is_digit c then scan_digits (10 * v + (c - 48)) s else v
  end.

(** [%d]: a value that does not fit an [int] is undefined behaviour. *)
Definition scan_int (s : list Z) : res Z :=
  let s := skip_space s in
  let (sign, s) := match s with
                   | 45 :: s' => (-1, s')
                   | 43 :: s' => (1, s')
                   | _ => (1, s)
                   end in
  match s with
  | [] => Fail
  | c :: _ =>
      if is_digit c then
        let v := sign * scan_digits 0 s in
        if (- 2 ^ 31 <=? v) && (v <? 2 ^ 31) then Done v else UB
      else Fail
  end.

(** [std::sscanf(s, "mdds-e2e-%d", &idx)] *)
Definition sscanf_index (s : list Z) : res Z :=
  if bool_decide (take (length tag) s = tag) then scan_int (drop (length tag) s) else Fail.

Definition atoi (s : list Z) : res Z :=
  match scan_int s with Fail => Done 0 | r => r end.

(** ** The two sides *)

(** "/mdds_e2e" and "mdds::E2E" *)
Definition kTopic : list Z := [47; 109; 100; 100; 115; 95; 101; 50; 101].
Definition kType : list Z := [109; 100; 100; 115; 58; 58; 69; 50; 69].
Definition kDomain : Z := 7.

(** DSoftBus only, and an announcement every half second. *)
Definition e2e_config : ParticipantConfig :=
  mkParticipantConfig kDomain false true (cfg_udp_cross_device default_config) 500 (cfg_udp_base_port default_config)
    (cfg_udp_port_count default_config) (cfg_udp_announce_ms default_config) (cfg_test_send_hook default_config).

Definition e2e_qos : QosProfile := mkQos RELIABLE VOLATILE KEEP_LAST AUTOMATIC 10 0 0 0.

(** The buffer of message [i]: [payload_bytes] of 'x', then the text. *)
Definition message (payload_bytes i : Z) : list Z :=
  snprintf (replicate (Z.to_nat payload_bytes) 120) (tag ++ show_int i).

(** The talker's exit code.  [created]: the participant could be created; [matched]: the
    count when the wait for a reader ended; [write i buf]: what the [i]th write returned.
    A negative size makes the vector's constructor throw ([Fail]); counting past the
    largest [int] is undefined. *)
Definition run_talker (created : bool) (matched count payload_bytes : Z) (write : Z -> list Z -> bool) : res Z :=
  if negb created then Done 1
  else if matched <? 1 then Done 2
  else if (1 <=? count) && (payload_bytes <? 0) then Fail
  else if count =? 2 ^ 31 - 1 then UB
  else
    let sent := len (filter (fun i => write i (message payload_bytes i) = true) (seqZ 1 count)) in
    Done (if sent =? count then 0 else 3).

(** What the listener has counted. *)
Record Tally := mkTally {
  received : Z;
  seen_marks : list bool;
  duplicates : Z;
}.

(** [std::vector<bool> seen(static_cast<size_t>(expected) + 1, false)]; a size beyond
    [max_size()] throws. *)
Definition new_tally (expected : Z) : res Tally :=
  let size := u64 (u64 expected + 1) in
  if 2 ^ 63 <=? size then Fail else Done (mkTally 0 (replicate (Z.to_nat size) false) 0).

(** A sample was taken.  The count of duplicates does not reach the limit of an [int]
    within the 90 seconds of the loop and is kept unbounded. *)
Definition count_sample (expected : Z) (t : Tally) (out : list Z) : res Tally :=
  match sscanf_index (c_str out) with
  | UB => UB
  | Fail => Done t
  | Done idx =>
      if (1 <=? idx) && (idx <=? expected) then
        match seen_marks t !! Z.to_nat idx with
        | None => UB
        | Some true => Done (mkTally (received t) (seen_marks t) (duplicates t + 1))
        | Some false => Done (mkTally (received t + 1) (<[Z.to_nat idx := true]> (seen_marks t)) (duplicates t))
        end
      else Done t
  end.

(** The listener with its reader's history, and what it took. *)
Record Listening := mkListening {
  ls_trace : ReaderTrace;
  ls_tally : Tally;
  ls_taken : list (list Z * MessageInfo);
}.

(** What happens to the reader until the deadline: the loop takes, the participant's
    threads do the rest. *)
Definition listen_op (expected : Z) (s : Listening) (op : ReaderOp) : res Listening :=
  let tr := reader_step (ls_trace s) op in
  match op with
  | OpTake now =>
      match snd (reader_take (tr_reader (ls_trace s)) now) with
      | None => Done (mkListening tr (ls_tally s) (ls_taken s))
      | Some (out, info) =>
          t ← count_sample expected (ls_tally s) out;
          Done (mkListening tr t (ls_taken s ++ [(out, info)]))
      end
  | _ => Done (mkListening tr (ls_tally s) (ls_taken s))
  end.

Fixpoint listener_loop (expected : Z) (s : Listening) (ops : list ReaderOp) : res Listening :=
  if received (ls_tally s) <? expected then
    match ops with
    | [] => Done s
    | op :: ops => s ← listen_op expected s op; listener_loop expected s ops
    end
  else Done s.

Definition run_listener (created : bool) (expected : Z) (r : ReaderImpl) (ops : list ReaderOp) : res Z :=
  if negb created then Done 1
  else
    t ← new_tally expected;
    s ← listener_loop expected (mkListening (mkTrace r [] []) t []) ops;
    Done (if (received (ls_tally s) =? expected) && (duplicates (ls_tally s) =? 0) then 0 else 4).

(** [main], up to the call it makes. *)
Inductive Command :=
| Usage
| UnknownMode
| Talker (count period_ms payload_bytes : Z)
| ListenerMode (expected : Z).

Definition int_arg (argv : list (list Z)) (k : nat) (default : Z) : res Z :=
  match argv !! k with Some s => atoi s | None => Done default end.

(** "talker" and "listener" *)
Definition talker_arg : list Z := [116; 97; 108; 107; 101; 114].
Definition listener_arg : list Z := [108; 105; 115; 116; 101; 110; 101; 114].

Definition parse_args (argv : list (list Z)) : res Command :=
  match argv !! 1%nat with
  | None => Done Usage
  | Some mode =>
      if bool_decide (mode = talker_arg) then
        count ← int_arg argv 2 100;
        period ← int_arg argv 3 100;
        payload ← int_arg argv 4 64;
        Done (Talker count period payload)
      else if bool_decide (mode = listener_arg) then
        expected ← int_arg argv 2 100;
        Done (ListenerMode expected)
      else Done UnknownMode
  end.

(** ** Texts are read back *)

Definition all_digits (ds : list Z) : Prop := Forall (fun c => is_digit c = true) ds.

Lemma is_digit_spec c : is_digit c = true <-> 48 <= c <= 57.
Proof. unfold is_digit. rewrite andb_true_iff, !Z.leb_le. done. Qed.

Lemma is_digit_false c : is_digit c = false <-> ~ 48 <= c <= 57.
Proof. rewrite <- is_digit_spec. by destruct (is_digit c). Qed.

Lemma digits_app fuel n acc : digits fuel n acc = digits fuel n [] ++ acc.
Proof.
  revert n acc. induction fuel as [|fuel IH]; intros n acc; [done|]. cbn [digits]. case_if; [done|].
  rewrite (IH (n / 10) (48 + n mod 10 :: acc)), (IH (n / 10) [48 + n mod 10]). by rewrite <- app_assoc.
Qed.

(** The digits of [n], the last one split off. *)
Lemma digits_step fuel n :
  digits (S fuel) n [] = (if n <? 10 then [] else digits fuel (n / 10) []) ++ [48 + n mod 10].
Proof. cbn [digits]. case_if; [done|]. apply digits_app. Qed.

Lemma digits_ok fuel n : 0 <= n < 10 ^ Z.of_nat fuel -> all_digits (digits fuel n []).
Proof.
  revert n. induction fuel as [|fuel IH]; intros n Hn; [constructor|]. rewrite digits_step.
  assert (Hd : is_digit (48 + n mod 10) = true) by (apply is_digit_spec; pose proof (Z.mod_pos_bound n 10); lia).
  apply Forall_app. split; [|by apply Forall_singleton]. case_if; [constructor|]. apply IH. zbool.
  rewrite Nat2Z.inj_succ, Z.pow_succ_r in Hn by lia. split; [apply Z.div_pos; lia|apply Z.div_lt_upper_bound; lia].
Qed.

Lemma scan_digits_app v ds rest :
  all_digits ds -> scan_digits v (ds ++ rest) = scan_digits (scan_digits v ds) rest.
Proof. intros Hd. revert v. induction Hd as [|c ds Hc _ IH]; intros v; simpl; [done|]. by rewrite Hc, IH. Qed.

(** The first [k] digits of [n] are the number without its last digits. *)
Lemma scan_prefix fuel n k :
  0 <= n < 10 ^ Z.of_nat fuel ->
  scan_digits 0 (take k (digits fuel n [])) = n / 10 ^ Z.of_nat (length (digits fuel n []) - k).
Proof.
  revert n k. induction fuel as [|fuel IH]; intros n k Hn.
  { simpl in *. rewrite take_nil. simpl. replace n with 0 by lia. done. }
  rewrite digits_step. set (ds := if n <? 10 then _ else _). rewrite length_app. simpl length.
  assert (Hfuel : 0 <= n / 10 < 10 ^ Z.of_nat fuel).
  { rewrite Nat2Z.inj_succ, Z.pow_succ_r in Hn by lia. split; [apply Z.div_pos; lia|apply Z.div_lt_upper_bound; lia]. }
  assert (Hds : all_digits ds) by (subst ds; case_if; [constructor|by apply digits_ok]).
  assert (Hpre : forall j, scan_digits 0 (take j ds) = n / 10 / 10 ^ Z.of_nat (length ds - j)).
  { intros j. subst ds. case_if; [|by apply IH]. zbool. rewrite take_nil. simpl.
    rewrite (Z.div_small n 10) by lia. by rewrite Z.div_0_l by (apply Z.pow_nonzero; lia). }
  destruct (Nat.le_gt_cases k (length ds)) as [Hk|Hk].
  - rewrite take_app_le by done. rewrite Hpre, Z.div_div by (lia || apply Z.pow_pos_nonneg; lia).
    f_equal. replace (length ds + 1 - k)%nat with (S (length ds - k)) by lia.
    by rewrite Nat2Z.inj_succ, Z.pow_succ_r by lia.
  - rewrite take_ge by (rewrite length_app; simpl; lia). rewrite scan_digits_app by done.
    replace (length ds + 1 - k)%nat with 0%nat by lia. rewrite Z.div_1_r.
    specialize (Hpre (length ds)). rewrite firstn_all, Nat.sub_diag, Z.div_1_r in Hpre. rewrite Hpre. cbn [scan_digits].
    rewrite (proj2 (is_digit_spec _)) by (pose proof (Z.mod_pos_bound n 10); lia).
    pose proof (Z.div_mod n 10). lia.
Qed.

Lemma c_str_nul l r : Forall (fun c => c <> 0) l -> c_str (l ++ 0 :: r) = l.
Proof. induction 1 as [|c l Hc _ IH]; simpl; [done|]. rewrite (proj2 (Z.eqb_neq _ _)) by done. by rewrite IH. Qed.

Lemma scan_int_digits ds v :
  all_digits ds -> ds <> [] -> scan_digits 0 ds = v -> 0 <= v < 2 ^ 31 -> scan_int ds = Done v.
Proof.
  intros Hd Hne <- Hv. destruct ds as [|c ds]; [done|]. pose proof (Forall_inv Hd) as Hc. simpl in Hc.
  pose proof (proj1 (is_digit_spec c) Hc) as Hr. unfold scan_int. cbn [skip_space].
  assert (is_space c = false) as ->.
  { unfold is_space. rewrite (proj2 (Z.eqb_neq c 32)) by lia. simpl. rewrite (proj2 (Z.leb_gt c 13)) by lia. apply andb_false_r. }
  set (v := scan_digits 0 (c :: ds)) in *.
  assert (Hc' : c = 48 \/ c = 49 \/ c = 50 \/ c = 51 \/ c = 52 \/ c = 53 \/ c = 54 \/ c = 55 \/ c = 56 \/ c = 57) by lia.
  assert (Hgoal : (if is_digit c then let v := 1 * scan_digits 0 (c :: ds) in
    if (- 2 ^ 31 <=? v) && (v <? 2 ^ 31) then Done v else UB else Fail) = Done v).
  { rewrite Hc. cbv zeta. rewrite Z.mul_1_l. fold v.
    by rewrite (proj2 (Z.leb_le _ _)), (proj2 (Z.ltb_lt _ _)) by lia. }
  clear Hr Hd. subst v. repeat destruct Hc' as [->|Hc']; try subst c; exact Hgoal.
Qed.

Lemma show_int_nonneg i : 0 <= i -> show_int i = digits 10 i [].
Proof. intros Hi. unfold show_int. by rewrite (proj2 (Z.ltb_ge _ _)). Qed.

Lemma show_int_nonempty i : 0 <= i -> show_int i <> [].
Proof. intros Hi. rewrite show_int_nonneg, digits_step by done. by destruct (if _ : bool then _ else _). Qed.

(** A text that fits loses nothing but what is behind it. *)
Lemma c_str_message p i :
  0 <= i < 2 ^ 31 -> 1 <= p ->
  c_str (message p i) = take (Z.to_nat (p - 1)) (tag ++ show_int i).
Proof.
  intros Hi Hp. unfold message, snprintf. destruct (Z.to_nat p) as [|m] eqn:Em; [lia|]. cbn [replicate length].
  rewrite length_replicate. rewrite c_str_nul.
  - replace (Z.to_nat (p - 1)) with m by lia. replace (S m - 1)%nat with m by lia.
    destruct (Nat.le_gt_cases (length (tag ++ show_int i)) m); [|by rewrite Nat.min_r by lia].
    by rewrite Nat.min_l, !take_ge by lia.
  - apply Forall_take, Forall_app. split; [by repeat constructor|]. rewrite show_int_nonneg by lia.
    eapply Forall_impl; [apply (digits_ok 10 i); simpl; lia|]. intros c Hc%is_digit_spec. lia.
Qed.

(** The index read from a message: the leading digits its buffer had room for. *)
Lemma message_index p i :
  0 <= i < 2 ^ 31 -> 0 <= p ->
  sscanf_index (c_str (message p i)) =
  if p <=? 10 then Fail else Done (i / 10 ^ Z.max 0 (len (show_int i) - (p - 10))).
Proof.
  intros Hi Hp. destruct (decide (p = 0)) as [->|Hp0]; [done|]. rewrite c_str_message by lia.
  set (m := Z.to_nat (p - 1)). pose proof (digits_ok 10 i) as Hds. pose proof (scan_prefix 10 i (m - 9)) as Hscan.
  rewrite <- show_int_nonneg in Hds, Hscan by lia. pose proof (show_int_nonempty i ltac:(lia)) as Hne.
  revert Hds Hscan Hne. generalize (show_int i). intros ds Hds Hscan Hne.
  specialize (Hds ltac:(simpl; lia)). specialize (Hscan ltac:(simpl; lia)).
  unfold sscanf_index. change (length tag) with 9%nat. destruct (Z.leb_spec p 10).
  - destruct (decide (m = 9%nat)) as [E9|].
    + rewrite E9, take_app_length' by done. by vm_compute.
    + rewrite bool_decide_false; [done|]. intros E. apply (f_equal length) in E.
      rewrite !length_take in E. change (length tag) with 9%nat in E. lia.
  - rewrite take_take, Nat.min_l by lia. rewrite take_app_length', bool_decide_true by done.
    rewrite take_app_ge by (simpl; lia). change (length tag) with 9%nat. rewrite drop_app_length' by done.
    apply (scan_int_digits _ _ (Forall_take _ _ _ Hds)).
    + destruct ds as [|c ds]; [done|]. by destruct (m - 9)%nat eqn:E; [lia|].
    + rewrite Hscan. f_equal. f_equal. lia.
    + split; [apply Z.div_pos; [lia|apply Z.pow_pos_nonneg; lia]|].
      apply Z.div_lt_upper_bound; [apply Z.pow_pos_nonneg; lia|].
      assert (1 <= 10 ^ Z.max 0 (len ds - (p - 10))) by (apply Z.pow_le_mono_r with (a := 10) (b := 0); lia). nia.
Qed.

(** With room for ten digits the index comes back whole. *)
Lemma message_index_whole p i : 0 <= i < 2 ^ 31 -> 20 <= p -> sscanf_index (c_str (message p i)) = Done i.
Proof.
  intros Hi Hp. rewrite message_index, (proj2 (Z.leb_gt _ _)) by lia. do 2 f_equal.
  assert (Hlen : forall fuel n, (length (digits fuel n []) <= fuel)%nat).
  { induction fuel as [|fuel IH]; intros n; [done|]. rewrite digits_step, length_app. simpl.
    case_if; simpl; [lia|]. specialize (IH (n / 10)). lia. }
  rewrite show_int_nonneg by lia. specialize (Hlen 10%nat i). rewrite Z.max_l by lia. by rewrite Z.div_1_r.
Qed.

(** ** What the listener counts *)

(** The index a sample counts under. *)
Definition index_of (expected : Z) (out : list Z) : option Z :=
  match sscanf_index (c_str out) with
  | Done i => if (1 <=? i) && (i <=? expected) then Some i else None
  | _ => None
  end.
Definition indices (expected : Z) (outs : list (list Z)) : list Z := omap (index_of expected) outs.

(** The number in the text, if there is one, is an [int]. *)
Definition scannable (out : list Z) : Prop := sscanf_index (c_str out) <> UB.

Section listener.
Context (expected : Z) (Hexp : 0 <= expected < 2 ^ 31).

(** The tally after the indices [ix]; [firsts] are their first occurrences. *)
Record tally_ok (t : Tally) (ix firsts : list Z) : Prop := {
  to_size : length (seen_marks t) = Z.to_nat (expected + 1);
  to_marks i : 1 <= i <= expected -> seen_marks t !! Z.to_nat i = Some (bool_decide (i ∈ ix));
  to_range : Forall (fun i => 1 <= i <= expected) ix;
  to_first : sublist firsts ix;
  to_same i : i ∈ ix -> i ∈ firsts;
  to_nodup : NoDup firsts;
  to_received : received t = len firsts;
  to_duplicates : duplicates t = len ix - len firsts;
}.

Lemma new_tally_ok : exists t, new_tally expected = Done t /\ tally_ok t [] [].
Proof.
  unfold new_tally. rewrite (wrap_id 64 expected), wrap_id by ulia. rewrite (proj2 (Z.leb_gt _ _)) by ulia.
  eexists. split; [done|]. split; simpl; try done.
  - apply length_replicate.
  - intros i Hi. by rewrite lookup_replicate_2 by lia.
  - constructor.
Qed.

Lemma count_sample_ok t ix firsts out :
  tally_ok t ix firsts -> scannable out ->
  exists t' firsts', count_sample expected t out = Done t' /\
    tally_ok t' (ix ++ option_list (index_of expected out)) firsts'.
Proof.
  intros Ht Hs. unfold count_sample, index_of. unfold scannable in Hs.
  destruct (sscanf_index (c_str out)) as [i| |]; [|exists t, firsts; by rewrite app_nil_r|done].
  case_if; [|exists t, firsts; by rewrite app_nil_r]. zbool. destruct Ht as [Hsz Hm Hr Hf Hsame Hnd Hrec Hdup].
  rewrite Hm by lia. cbn [option_list]. destruct (bool_decide_reflect (i ∈ ix)) as [Hin|Hin].
  - eexists _, firsts. split; [done|]. split; simpl; try done.
    + intros j Hj. rewrite Hm by done. f_equal. apply bool_decide_ext. rewrite elem_of_app, list_elem_of_singleton.
      split; [by left|by intros [?| ->]].
    + apply Forall_app. by split; [|apply Forall_singleton].
    + etrans; [exact Hf|]. by apply sublist_inserts_r.
    + intros j [?| ->%list_elem_of_singleton]%elem_of_app; auto.
    + rewrite length_app. simpl. lia.
  - eexists _, (firsts ++ [i]). split; [done|]. split; simpl.
    + by rewrite length_insert.
    + intros j Hj. destruct (decide (j = i)) as [->|Hne].
      * rewrite list_lookup_insert_eq by lia. f_equal. rewrite bool_decide_true; [done|]. apply elem_of_app. right. left.
      * rewrite list_lookup_insert_ne, Hm by lia. f_equal. apply bool_decide_ext.
        rewrite elem_of_app, list_elem_of_singleton. split; [by left|by intros [?| ?]].
    + apply Forall_app. by split; [|apply Forall_singleton].
    + by apply sublist_app.
    + intros j [?| ->%list_elem_of_singleton]%elem_of_app; apply elem_of_app; [left; auto|right; left].
    + apply NoDup_app. split_and!; [done| |apply NoDup_singleton]. intros j Hj ->%list_elem_of_singleton.
      apply Hin. by eapply elem_of_sublist.
    + rewrite length_app. simpl. lia.
    + rewrite !length_app. simpl. lia.
Qed.

(** All expected indices once each is what the exit code 0 asks for. *)
Lemma tally_verdict t ix firsts :
  tally_ok t ix firsts -> received t = expected /\ duplicates t = 0 <-> ix ≡ₚ seqZ 1 expected.
Proof.
  intros [Hsz Hm Hr Hf Hsame Hnd Hrec Hdup]. rewrite Forall_forall in Hr. split.
  - intros [H1 H2]. assert (E : firsts ≡ₚ ix).
    { apply submseteq_length_Permutation; [by apply sublist_submseteq|lia]. }
    apply submseteq_length_Permutation; [|rewrite length_seqZ; lia].
    apply NoDup_submseteq; [by rewrite <- E|]. intros i Hi. apply elem_of_seqZ. specialize (Hr i Hi). lia.
  - intros Hp. assert (Hnd' : NoDup ix) by (rewrite Hp; apply NoDup_seqZ).
    assert (E : firsts ≡ₚ ix).
    { apply NoDup_Permutation; [done..|]. intros i. split; [by intros ?; eapply elem_of_sublist|apply Hsame]. }
    apply Permutation_length in E. apply Permutation_length in Hp. rewrite length_seqZ in Hp. lia.
Qed.

(** Indices that never repeat. *)
Lemma tally_nodup t ix firsts :
  tally_ok t ix firsts -> NoDup ix ->
  duplicates t = 0 /\ (received t = expected <-> forall n, 1 <= n <= expected -> n ∈ ix).
Proof.
  intros Ht Hnd'. pose proof (tally_verdict _ _ _ Ht) as Hv. destruct Ht as [Hsz Hm Hr Hf Hsame Hnd Hrec Hdup].
  rewrite Forall_forall in Hr. assert (E : firsts ≡ₚ ix).
  { apply NoDup_Permutation; [done..|]. intros i. split; [by intros ?; eapply elem_of_sublist|apply Hsame]. }
  apply Permutation_length in E. assert (Hd : duplicates t = 0) by lia. split; [done|].
  assert (Hs : forall n, n ∈ seqZ 1 expected <-> 1 <= n <= expected) by (intros n; rewrite elem_of_seqZ; lia). split.
  - intros He n Hn. rewrite (proj1 Hv (conj He Hd)). by apply Hs.
  - intros Hall. apply Hv. apply NoDup_Permutation; [done|apply NoDup_seqZ|]. intros n. rewrite Hs.
    split; [apply Hr|apply Hall].
Qed.

Lemma tally_distinct t ix firsts : tally_ok t ix firsts -> received t = len (remove_dups ix) /\ duplicates t = len ix - len (remove_dups ix).
Proof.
  intros [Hsz Hm Hr Hf Hsame Hnd Hrec Hdup].
  assert (E : firsts ≡ₚ remove_dups ix).
  { apply NoDup_Permutation; [done|apply NoDup_remove_dups|]. intros i. rewrite elem_of_remove_dups.
    split; [by intros ?; eapply elem_of_sublist|apply Hsame]. }
  apply Permutation_length in E. lia.
Qed.

(** *** The loop *)

(** What the writers may send. *)
Context (offered : Guid -> Z -> list Z -> Prop) (Hscan : forall g n d, offered g n d -> scannable d).

(** A sample taken, as the application sees it. *)
Definition taken_sample (x : list Z * MessageInfo) : Sample := (mi_writer_guid x.2, mi_seq x.2, x.1).

Record listening_ok (s : Listening) : Prop := {
  lo_trace : trace_inv (ls_trace s);
  lo_reader : reader_ok (tr_reader (ls_trace s));
  lo_channel : channel_ok offered (channel_of (tr_reader (ls_trace s)));
  lo_taken : tr_taken (ls_trace s) = (fun x => sample_id x.2) <$> ls_taken s;
  lo_offered : Forall (fun x => offered (mi_writer_guid x.2) (mi_seq x.2) x.1) (ls_taken s);
  lo_tally : exists firsts, tally_ok (ls_tally s) (indices expected (fst <$> ls_taken s)) firsts;
}.

Lemma listen_op_ok s op :
  listening_ok s -> op_ok op -> op_offers offered op ->
  exists s', listen_op expected s op = Done s' /\ listening_ok s' /\
    ls_trace s' = reader_step (ls_trace s) op.
Proof.
  intros [Htr Hrd Hch Htk Hoff Htl] Hop Hof.
  pose proof (reader_step_inv _ _ Htr Hop) as Htr'. pose proof (reader_step_ok _ _ Hrd Hop) as Hrd'.
  pose proof (channel_steps_ok _ _ _ Hch (reader_step_refines offered _ _ Hrd Hop Hof)) as Hch'.
  assert (Hquiet : tr_taken (reader_step (ls_trace s) op) = tr_taken (ls_trace s) ->
    listening_ok (mkListening (reader_step (ls_trace s) op) (ls_tally s) (ls_taken s))).
  { intros E. split; simpl; try done. by rewrite E. }
  unfold listen_op. destruct op as [now1 now2 w seq data wq pb|w start stop|now|now];
    [eexists; split_and!; [done|apply Hquiet; simpl; by destruct (enqueue _ _ _ _ _ _ _ _)|done]
    |by eexists; split_and!; [|apply Hquiet|]| |by eexists; split_and!; [|apply Hquiet|]].
  simpl in Hquiet, Htr', Hrd', Hch' |- *. unfold reader_take in *.
  destruct (sweep_expired_locked now _) as [|q qs] eqn:Eq; simpl in *; [by eexists; split_and!; [|apply Hquiet|]|].
  assert (Hq : offered (mi_writer_guid (qs_info q)) (mi_seq (qs_info q)) (qs_data q)).
  { apply (co_offered _ _ Hch (sample_of q)). simpl. apply list_elem_of_fmap_2.
    eapply elem_of_sublist; [|apply (sweep_sublist now)]. rewrite Eq. left. }
  destruct Htl as [firsts Htl].
  destruct (count_sample_ok _ _ _ (qs_data q) Htl) as (t' & firsts' & -> & Ht'); [by eapply Hscan|].
  eexists. split_and!; [done| |done]. split; simpl; try done.
  - by rewrite Htk, fmap_app.
  - apply Forall_app. by split; [|apply Forall_singleton].
  - exists firsts'. rewrite fmap_app. unfold indices in *. rewrite omap_app. simpl.
    by destruct (index_of expected (qs_data q)).
Qed.

Lemma listener_loop_ok s ops :
  listening_ok s -> Forall op_ok ops -> Forall (op_offers offered) ops ->
  exists s', listener_loop expected s ops = Done s' /\ listening_ok s'.
Proof.
  intros Hs Hops. revert s Hs. induction Hops as [|op ops Hop _ IH]; intros s Hs Hof; cbn [listener_loop];
    (case_if; [|by exists s]); [by exists s|]. apply Forall_cons in Hof as [Hof1 Hof].
  destruct (listen_op_ok s op Hs Hop Hof1) as (s' & -> & Hs' & _). cbn [mbind res_bind]. by apply IH.
Qed.

Lemma listening_start r t :
  fresh r -> tally_ok t [] [] -> listening_ok (mkListening (mkTrace r [] []) t []).
Proof.
  intros Hf Ht. pose proof (fresh_inv r Hf) as Hi. destruct Hf as [Eq Erx]. split; simpl; try done.
  - intros g. unfold rx_of. rewrite Erx. apply rx_init_ok.
  - split; unfold channel_of; rewrite Eq; simpl; [by intros x ?%not_elem_of_nil..|constructor].
  - by exists [].
Qed.

(** The whole program on a new reader. *)
Lemma run_listener_ok r ops :
  fresh r -> Forall op_ok ops -> Forall (op_offers offered) ops ->
  exists t s, new_tally expected = Done t /\
    listener_loop expected (mkListening (mkTrace r [] []) t []) ops = Done s /\ listening_ok s /\
    run_listener true expected r ops =
      Done (if (received (ls_tally s) =? expected) && (duplicates (ls_tally s) =? 0) then 0 else 4).
Proof.
  intros Hf Hops Hof. destruct new_tally_ok as (t & Et & Ht).
  destruct (listener_loop_ok _ ops (listening_start r t Hf Ht) Hops Hof) as (s & Es & Hs).
  exists t, s. split_and!; [done..|]. unfold run_listener. rewrite Et. simpl. by rewrite Es.
Qed.
End listener.

(** ** Examples *)

(** The samples of one talker [g]: the text of each bears its number. *)
Definition talker_sends (g : Guid) (p : Z) (g' : Guid) (n : Z) (d : list Z) : Prop :=
  g' = g /\ 1 <= n < 2 ^ 31 /\ d = message p n.

Definition test_listener : ReaderImpl := new_reader (test_guid 9) kTopic kType e2e_qos false 0.
Definition test_sample (p n : Z) : ReaderOp := OpEnqueue 5 5 (test_guid 1) n (message p n) e2e_qos 1.
(** Three messages, reordered, one of them twice, with the polls of the loop. *)
Definition test_session (p : Z) : list ReaderOp :=
  [OpTake 5; test_sample p 2; OpTake 5; test_sample p 1; test_sample p 2; OpTake 5; OpTake 5; test_sample p 3; OpTake 5].

Lemma test_session_sends p : Forall op_ok (test_session p) /\ Forall (op_offers (talker_sends (test_guid 1) p)) (test_session p).
Proof. split; repeat constructor; simpl; try (by split_and!); ulia. Qed.

Lemma talker_scannable g p g' n d : 0 <= p -> talker_sends g p g' n d -> scannable d.
Proof. intros Hp (_ & Hn & ->). unfold scannable. rewrite message_index by lia. by case_if. Qed.

(** What was taken counts under its number. *)
Lemma talker_taken expected g p l :
  20 <= p -> Forall (fun x => talker_sends g p (mi_writer_guid x.2) (mi_seq x.2) x.1) l ->
  indices expected (fst <$> l) = filter (fun n => n <= expected) ((fun x : list Z * MessageInfo => mi_seq x.2) <$> l).
Proof.
  intros Hp. induction 1 as [|[d info] l (_ & Hn & Hd) _ IH]; [done|]. simpl in Hn, Hd. subst d.
  unfold indices in *. cbn [fmap list_fmap omap list_omap fst snd]. rewrite IH, filter_cons. unfold index_of.
  rewrite message_index_whole by lia. rewrite (proj2 (Z.leb_le _ _)) by lia. cbn [andb].
  destruct (decide (mi_seq info <= expected)); [by rewrite (proj2 (Z.leb_le _ _))|by rewrite (proj2 (Z.leb_gt _ _)) by lia].
Qed.

Lemma talker_numbers g p l :
  Forall (fun x => talker_sends g p (mi_writer_guid x.2) (mi_seq x.2) x.1) l ->
  NoDup ((fun x : list Z * MessageInfo => sample_id x.2) <$> l) ->
  NoDup ((fun x : list Z * MessageInfo => mi_seq x.2) <$> l).
Proof.
  intros Hl Hnd. apply (NoDup_fmap_1 (fun n => (g, n))). rewrite <- list_fmap_compose.
  erewrite list_fmap_ext; [exact Hnd|]. intros i x Hx. rewrite Forall_lookup in Hl. destruct (Hl i x Hx) as (E & _).
  unfold sample_id. simpl. by rewrite E.
Qed.

Module E2eSpec.

(** The listener's count and verdict are exact.  Whatever a new reader receives from
    whatever writers, in whatever order, as long as no text holds a number beyond an
    [int]: the marks are never indexed out of range, [received] is the number of distinct
    expected indices in what was taken, [duplicates] the number of repetitions, and the
    exit code is 0 exactly if every index from 1 to [expected] was taken once and none
    twice, and 4 otherwise. *)
Theorem listener_verdict (expected : Z) (r : ReaderImpl) (ops : list ReaderOp) :
  0 <= expected < 2 ^ 31 -> fresh r -> Forall op_ok ops ->
  Forall (op_offers (fun _ _ d => scannable d)) ops ->
  exists t s, new_tally expected = Done t /\
    listener_loop expected (mkListening (mkTrace r [] []) t []) ops = Done s /\
    let ixs := indices expected (fst <$> ls_taken s) in
    received (ls_tally s) = len (remove_dups ixs) /\
    duplicates (ls_tally s) = len ixs - len (remove_dups ixs) /\
    (ixs ≡ₚ seqZ 1 expected -> run_listener true expected r ops = Done 0) /\
    (~ ixs ≡ₚ seqZ 1 expected -> run_listener true expected r ops = Done 4).
Proof.
  intros He Hf Hops Hof.
  destruct (run_listener_ok expected He (fun _ _ d => scannable d) ltac:(done) r ops Hf Hops Hof)
    as (t & s & Et & Es & Hs & ->).
  exists t, s. do 2 (split; [done|]). cbv zeta. destruct (lo_tally _ _ _ Hs) as [firsts Htl].
  destruct (tally_distinct expected He _ _ _ Htl) as [Hr Hd]. split; [done|]. split; [done|].
  pose proof (tally_verdict expected He _ _ _ Htl) as [Hv1 Hv2]. split.
  - intros [H1 H2]%Hv2. by rewrite H1, H2, Z.eqb_refl.
  - intros Hn. case_if; [|done]. zbool. destruct Hn. by apply Hv1.
Qed.

(** C35. With one talker whose buffers hold at least 20 bytes, the protocol's at-most-once
    delivery becomes the listener's: however the network repeats and reorders the talker's
    samples, no duplicate is ever counted, and the exit code is 0 exactly if every number
    from 1 to [expected] was taken before the deadline. *)
Theorem listener_counts_once (expected : Z) (g : Guid) (p : Z) (r : ReaderImpl) (ops : list ReaderOp) :
  0 <= expected < 2 ^ 31 -> 20 <= p -> fresh r -> Forall op_ok ops ->
  Forall (op_offers (talker_sends g p)) ops ->
  exists t s, new_tally expected = Done t /\
    listener_loop expected (mkListening (mkTrace r [] []) t []) ops = Done s /\
    duplicates (ls_tally s) = 0 /\
    (run_listener true expected r ops = Done 0 <->
     forall n, 1 <= n <= expected -> n ∈ (fun x => mi_seq x.2) <$> ls_taken s).
Proof.
  intros He Hp Hf Hops Hof.
  destruct (run_listener_ok expected He (talker_sends g p) (fun g' n d => talker_scannable g p g' n d ltac:(lia)) r ops Hf Hops Hof)
    as (t & s & Et & Es & Hs & ->).
  exists t, s. do 2 (split; [done|]). destruct Hs as [Htr _ _ Htk Hoff [firsts Htl]].
  pose proof (talker_taken expected g p _ Hp Hoff) as Ei.
  assert (Hnd : NoDup (indices expected (fst <$> ls_taken s))).
  { rewrite Ei. apply NoDup_filter, (talker_numbers g p _ Hoff). rewrite <- Htk. destruct Htr as [_ _ Hnd Hsub].
    eapply sublist_NoDup; [exact Hnd|]. etrans; [|exact Hsub]. by apply sublist_inserts_r. }
  destruct (tally_nodup expected He _ _ _ Htl Hnd) as [-> Hr]. split; [done|]. rewrite andb_true_r, Ei in *.
  split.
  - case_if; [|done]. zbool. intros _ n Hn. by apply (proj1 Hr) in Hn as [_ ?]%list_elem_of_filter.
  - intros Hall. rewrite (proj2 (Z.eqb_eq _ _)); [done|]. apply Hr. intros n Hn. apply list_elem_of_filter.
    split; [lia|by apply Hall].
Qed.

Lemma listener_verdict_witness :
  exists t s, new_tally 3 = Done t /\
    listener_loop 3 (mkListening (mkTrace test_listener [] []) t []) (test_session 11) = Done s /\
    received (ls_tally s) = 3 /\ run_listener true 3 test_listener (test_session 11) = Done 0.
Proof.
  destruct (listener_verdict 3 test_listener (test_session 11)) as (t & s & Et & Es & Hr & _ & H0 & _).
  - done.
  - done.
  - apply test_session_sends.
  - eapply Forall_impl; [apply (test_session_sends 11)|]. intros [] Ho; try done. by eapply talker_scannable; [|exact Ho].
  - exists t, s. split; [done|]. split; [done|]. vm_compute in Et. injection Et as <-. vm_compute in Es. injection Es as <-.
    split; [exact Hr|]. apply H0. vm_compute. apply perm_swap.
Defined.

Lemma listener_counts_once_witness :
  exists t s, new_tally 3 = Done t /\
    listener_loop 3 (mkListening (mkTrace test_listener [] []) t []) (test_session 64) = Done s /\
    duplicates (ls_tally s) = 0 /\ run_listener true 3 test_listener (test_session 64) = Done 0.
Proof.
  destruct (listener_counts_once 3 (test_guid 1) 64 test_listener (test_session 64)) as (t & s & Et & Es & Hd & H0).
  - done.
  - done.
  - done.
  - apply test_session_sends.
  - apply test_session_sends.
  - exists t, s. do 3 (split; [done|]). apply H0. vm_compute in Et. injection Et as <-. vm_compute in Es. injection Es as <-.
    intros n Hn. assert (n = 1 \/ n = 2 \/ n = 3) as [-> |[-> | ->]] by lia; vm_compute; repeat constructor.
Defined.

(** With a buffer of 11 bytes only the first digit of a number is sent: message 10 is
    taken for message 1 again, and the listener fails although nothing was lost. *)
Theorem short_payload_collides :
  sscanf_index (c_str (message 11 10)) = Done 1 /\
  run_listener true 10 test_listener
    (concat ((fun n => [test_sample 11 n; OpTake 5]) <$> seqZ 1 10)) = Done 4.
Proof. by vm_compute. Qed.
End E2eSpec.
