(* ===== verification/Probe.v ===== *)
(** * The SoftBus probe

    examples/dsoftbus_probe.c: the calls it makes of the SoftBus service, whose results
    are parameters, and its exit codes.  Console output is left out. *)

From S2P Require Import Prelude Memory.

Definition SOFTBUS_OK : Z := 0.

(** Calls of the service, with what the probe passes that varies. *)
Inductive ProbeCall :=
| GetAccessTokenId
| SetSelfTokenID (token : Z)
| Socket (peer : option (list Z))
| Listen (fd : Z)
| BindAsync (fd : Z)
| SendBytes (fd : Z) (data : list Z)
| Shutdown (fd : Z)
| GetLocalNodeDeviceInfo
| GetAllNodeDeviceInfo
| FreeNodeInfo.

(** What the service answers; [sv_bound k] is [g_bound] when it is read for the [k]th time. *)
Record Service := mkService {
  sv_token : Z;
  sv_socket : Z;
  sv_listen : Z;
  sv_bind : Z;
  sv_bound : nat -> bool;
  sv_info : option (list (list Z));   (* the nodes' network ids, if the pointer was set *)
  sv_num : Z;
}.

Section probe.
Context (sv : Service).

Definition setup_token : list ProbeCall := [GetAccessTokenId; SetSelfTokenID (sv_token sv)].

(** "ping" and "pong" *)
Definition ping : list Z := [112; 105; 110; 103].
Definition pong : list Z := [112; 111; 110; 103].

(** The callback; [strncmp] over at most four of the [dataLen] bytes. *)
Definition OnBytesCb (socket : Z) (data : list Z) : list ProbeCall :=
  let n := Nat.min (length data) 4 in
  if bool_decide (take n data = take n ping) then [SendBytes socket pong] else [].

(** The calls and the exit code, unless it stays in its endless loop. *)
Definition do_listen : list ProbeCall * option Z :=
  let sock := sv_socket sv in
  if sock <? 0 then ([Socket None], Some 1)
  else if negb (sv_listen sv =? SOFTBUS_OK) then ([Socket None; Listen sock], Some 1)
  else ([Socket None; Listen sock], None).

(** The entries the loop prints, read through the returned pointer. *)
Definition listed_nodes : res (list (list Z)) :=
  if sv_num sv <=? 0 then Done []
  else match sv_info sv with
       | None => UB
       | Some info => if sv_num sv <=? len info then Done (take (Z.to_nat (sv_num sv)) info) else UB
       end.

Definition do_nodes : res (list ProbeCall * list (list Z) * Z) :=
  nodes ← listed_nodes;
  Done ([GetLocalNodeDeviceInfo; GetAllNodeDeviceInfo] ++
        (if bool_decide (is_Some (sv_info sv)) then [FreeNodeInfo] else []), nodes, 0).

(** [for (int i = 0; i < 150 && !g_bound; ++i)]: the readings made when it ends. *)
Fixpoint wait_bound (turns k : nat) : nat :=
  match turns with
  | O => k
  | S turns => if sv_bound sv k then S k else wait_bound turns (S k)
  end.

Definition do_send (peer_network_id msg : list Z) : list ProbeCall * Z :=
  let sock := sv_socket sv in
  let opened := [Socket (Some peer_network_id)] in
  if sock <? 0 then (opened, 1)
  else
    let bound := opened ++ [BindAsync sock] in
    if negb (sv_bind sv =? SOFTBUS_OK) then (bound ++ [Shutdown sock], 1)
    else if negb (sv_bound sv (wait_bound 150 0)) then (bound ++ [Shutdown sock], 1)
    else (bound ++ [SendBytes sock msg; Shutdown sock], 0).

(** "listen", "nodes" and "send" *)
Definition listen_mode : list Z := [108; 105; 115; 116; 101; 110].
Definition nodes_mode : list Z := [110; 111; 100; 101; 115].
Definition send_mode : list Z := [115; 101; 110; 100].

(** The calls and the exit code of the whole program. *)
Definition probe_main (argv : list (list Z)) : res (list ProbeCall * option Z) :=
  match argv !! 1%nat with
  | None => Done ([], Some 2)
  | Some mode =>
      if bool_decide (mode = listen_mode) then
        let (calls, code) := do_listen in Done (setup_token ++ calls, code)
      else if bool_decide (mode = nodes_mode) then
        r ← do_nodes; Done (setup_token ++ r.1.1, Some r.2)
      else match argv !! 2%nat with
           | Some peer =>
               if bool_decide (mode = send_mode) then
                 let (calls, code) := do_send peer (default ping (argv !! 3%nat)) in
                 Done (setup_token ++ calls, Some code)
               else Done (setup_token, Some 2)
           | None => Done (setup_token, Some 2)
           end
  end.
End probe.

Module ProbeSpec.

(** The probe never leaks a socket it sends on: whatever the service answers, [do_send]
    opens one socket and, if that succeeds, ends by shutting exactly that one down; it
    exits with 0 exactly if it handed the message to the service, which it does only on a
    socket whose binding was reported. *)
Theorem send_closes (sv : Service) (peer msg : list Z) :
  let (calls, code) := do_send sv peer msg in
  (calls = [Socket (Some peer)] /\ sv_socket sv < 0 \/
   exists mid, calls = Socket (Some peer) :: mid ++ [Shutdown (sv_socket sv)] /\
     forall fd, Shutdown fd ∉ mid) /\
  (code = 0 <-> SendBytes (sv_socket sv) msg ∈ calls) /\
  (code = 0 -> sv_bind sv = SOFTBUS_OK /\ exists k, (k <= 151)%nat /\ sv_bound sv k = true).
Proof.
  assert (Hw : forall turns k, (wait_bound sv turns k <= turns + k)%nat).
  { induction turns as [|turns IH]; intros k; simpl; [lia|]. destruct (sv_bound sv k); [lia|]. specialize (IH (S k)). lia. }
  unfold do_send. destruct (Z.ltb_spec (sv_socket sv) 0) as [Hs|Hs].
  { split; [left; by split|]. split; [|done]. split; [done|]. by intros ?%list_elem_of_singleton. }
  assert (Hmid : forall mid, (forall fd, Shutdown fd ∉ mid) ->
    exists mid', [Socket (Some peer); BindAsync (sv_socket sv)] ++ mid ++ [Shutdown (sv_socket sv)] =
      Socket (Some peer) :: mid' ++ [Shutdown (sv_socket sv)] /\ forall fd, Shutdown fd ∉ mid').
  { intros mid Hm. exists (BindAsync (sv_socket sv) :: mid). split; [done|]. intros fd [|?]%elem_of_cons; [done|by apply (Hm fd)]. }
  assert (Hno : SendBytes (sv_socket sv) msg ∉ [Socket (Some peer); BindAsync (sv_socket sv); Shutdown (sv_socket sv)]).
  { by intros [|[|[|?%not_elem_of_nil]%elem_of_cons]%elem_of_cons]%elem_of_cons. }
  destruct (Z.eqb_spec (sv_bind sv) SOFTBUS_OK) as [Hb|Hb]; cbn [negb app].
  - destruct (sv_bound sv (wait_bound sv 150 0)) eqn:E; cbn [negb].
    + split; [right; apply (Hmid [SendBytes (sv_socket sv) msg]); by intros fd ?%list_elem_of_singleton|].
      split; [split; [intros _; right; right; left|done]|]. intros _. split; [done|]. eexists. split; [|exact E].
      specialize (Hw 150%nat 0%nat). lia.
    + split; [right; by apply (Hmid []); intros fd ?%not_elem_of_nil|]. split; [split; [done|by intros ?%Hno]|done].
  - split; [right; by apply (Hmid []); intros fd ?%not_elem_of_nil|]. split; [split; [done|by intros ?%Hno]|done].
Qed.

(** The echo answers "pong" to every prefix of "ping", the empty message included, and
    to whatever starts with it. *)
Theorem echo_answers (fd : Z) (data : list Z) :
  (exists rest, data = ping ++ rest \/ ping = data ++ rest) <-> OnBytesCb fd data = [SendBytes fd pong].
Proof.
  unfold OnBytesCb. destruct (bool_decide_reflect (take (length data `min` 4) data = take (length data `min` 4) ping)) as [E|E].
  - split; [done|intros _]. destruct (Nat.le_gt_cases 4 (length data)) as [Hl|Hl].
    + rewrite Nat.min_r in E by done. exists (drop 4 data). left. rewrite <- (take_drop 4 data) at 1. by rewrite E.
    + rewrite Nat.min_l, firstn_all in E by lia. exists (drop (length data) ping). right.
      rewrite <- (take_drop (length data) ping) at 1. by rewrite <- E.
  - split; [|done]. intros [rest [-> |Hp]]; destruct E.
    + rewrite length_app. change (length ping) with 4%nat. rewrite Nat.min_r by lia. by rewrite !(take_app_length' ping) by done.
    + rewrite Hp. assert (length data <= 4)%nat.
      { apply (f_equal length) in Hp. rewrite length_app in Hp. simpl in Hp. lia. }
      rewrite Nat.min_l, firstn_all by done. by rewrite take_app_length.
Qed.
End ProbeSpec.
